(* ===== verification/_CoqProject ===== *)
-Q . S2P
Prelude.v
Group.v
GoLib.v
Mode.v
Msg.v
Conn.v
User.v
Channel.v
Key.v
HmacKey.v
Etcd.v
KeyKV.v
Watcher.v
Stm.v
Net.v
Client.v
Proc.v
Reify.v
SessionLoop.v
Rep.v
Refine.v
Server.v
Ctl.v
Start.v
System.v
Demo.v
Serve.v
Guarantees.v
Rely.v
Conduct.v
Linear.v
Daemons.v
Secret.v
Monitor.v
Quiet.v
Bounds.v
Stored.v
Query.v
Lost.v
Joined.v
Gone.v
Admin.v
Renewed.v
Safety.v
