(* ===== verification/Prelude.v ===== *)
(** * etcdircd: an IRC daemon backed by etcd

    The daemon keeps the whole IRC network (users, channels, memberships, modes,
    topics, messages) in etcd.  Every daemon holds one lease, its session; each
    connected client runs a handler per IRC command, which reads and writes the
    store in one software transaction and then answers; watches on the store
    carry the messages to the clients that must see them.  This development is a
    model of that program in which the handlers are executable functions on an
    executable etcd, with the theorems that make it a correct IRC network however
    daemons, clients and session ends interleave.

    ** Parts and files

    - Prelude.v: outcomes of Go code (a value, an error, a panic, exit, running
      out of fuel), the state monad of outcomes, lemmas on lists.  GoLib.v: the
      functions of Go's standard library that the code calls (strings, fmt).
    - Mode.v (mode.go): mode values and MODE strings, as lists and as Go slices
      with shared arrays.  Msg.v (msg.go, oper.go, sorcix/irc): messages, oper
      values, and [Gob], what the code relies on of encoding/gob.  User.v
      (user.go), Channel.v (channel.go): the values stored for them.
    - Key.v (key.go, keyencode/encode.go): the key schema and the encoder that
      hides the names in keys.  HmacKey.v: the HMAC encoder.
      KeyKV.v (keyencode/kv.go, watch.go): the etcd client that encodes keys in
      requests and decodes them in responses and events; class [PrefixEncoder] is
      what it needs of the encoder.  Watcher.v (keyencode/watch.go): the
      goroutines of its watches and the closing of the watcher, as a step relation.
    - Etcd.v (vendored clientv3, etcdserver, mvcc, lease): the store as the list
      of its snapshots, transactions with their checks and their revisions,
      leases, watches.  Stm.v (clientv3/concurrency/stm.go): the optimistic
      transactions, run against the store while others act.
    - Client.v (etcd_client.go, and what it uses of session.go, config.go,
      conn.go): the state of a client, one closure [*_txn] and one handler per
      command, the queries, and the monitors.  Server.v (client.go, server.go):
      dispatch of a message, registration, handshake, main loop.  Ctl.v
      (cmd/ircdctl): the administration tool.
    - SessionLoop.v (session.go): the goroutine that keeps a session, the calls of
      Session and Close, as a step relation; Client.v has the state they share and
      the call as a function, and [session_call_exact] joins the two.  Conn.v
      (conn.go): the two goroutines of a connection, the handlers and Close, as a
      step relation; the other files see a connection as the list of messages
      read and the list of messages sent, and [conn_fifo] says how far that is
      right.  A message read may be none: the decoder gives nil for a line of fewer
      than two bytes, and its users panic.
    - Serve.v (server.go): the accept loop with the goroutines of the connections,
      as a step relation over the results of [handleConn].  Group.v: goroutines
      that a WaitGroup counts, shared by Watcher.v and Serve.v.  Start.v
      (cmd/etcdircd, cmd/ircdctl, internal/util): the listener and the etcd client
      that flags and configuration make, and the tee.
    - Net.v: the specification, an IRC network as plain maps, one function
      [net_*] per command, the relation [net_move] and the invariants [net_sound]
      and [net_ok].
    - Rep.v: when a snapshot represents a network ([represents]), and rules that turn
      a closure into a network command ([implements_in]).  Refine.v: each closure
      implements its command.  System.v: all commits that change the store
      ([commit_step], [reaches]) and the simulation.
    - Proc.v: what is left of a handler when it has made some of its requests
      ([proc]), and goroutines that take turns ([par]).  Reify.v: class [Reified],
      every handler is the run of such a process.
    - Guarantees.v: what a computation keeps while others act ([keeps]), and that a
      returned handler took effect at one instant ([at_instant]).  Rely.v: a process
      among others ([rg]), what they may do to the store ([rely]), what it does to it
      ([own_step]), and the rules of its parts, goroutines included.  Conduct.v:
      every command and the main loop follow them.  Linear.v: each command takes
      effect at one instant and answers the truth about it.  Joined.v: JOIN, and of
      which moments the names are that it shows.  Daemons.v: all clients of all
      daemons at once ([sys_step]).  Secret.v: the commands through the client that
      encodes keys.
      Quiet.v: each command that nobody disturbs returns, with which reply.  Gone.v:
      a client whose user went with an ended session: its goroutine cancels its
      context, and what commands do after that and before.  Renewed.v: what commands
      leave that run under another session than the one of their user.
      Safety.v: the theorems about the whole.  Demo.v: a concrete network on
      which the witnesses run.
      Monitor.v: what the watch of a channel delivers to a client.  Lost.v: what
      the clients on a channel are told when a session ends.
    - Bounds.v: how many keys each transaction reads and writes.  Stored.v: a
      reachable store has keys of the network only, with values of their kinds
      ([store_typed]), and what a query for a prefix returns.  Query.v: NAMES, WHO,
      WHOIS, LIST and the replies of JOIN as functions of the network ([answer]),
      and that the handlers say them.
    - Admin.v: the commands of ircdctl as functions of the network.

    ** How state and operations correspond

    A [Store] is etcd; a [World] adds to it the clock of requests, what the
    client was sent, its watches and cancel functions; a [Runtime] holds what a
    handler cannot change.  A request of a client is one step of [request] in
    Stm.v: first the environment [Env] may change the store in any way the
    theorem allows ([e_intf]), or make the request fail ([e_fail]).  So a handler
    is interleaved with others at every request it makes; nothing else it does
    touches the store.  A closure given to [NewSTM] is a value of [stm], the
    tree of its calls of Get, Rev, Put and Del.  Where the others are clients
    themselves, a handler is a [proc], the tree of its requests, and [run] of the
    process is the handler ([proc_of_run]); the goroutines of a JOIN are processes
    of one client that [rt_sched] interleaves.

    ** Sessions

    JOIN, PART and QUIT write under the session the daemon has when they run; none
    asks whether it is the one that registered their user, and the session loop may
    have replaced that one while its lease still lives.  What the store keeps then
    depends on it, so everything is defined for two disciplines ([discipline] in
    Net.v).  [Free] is the code: a commit may be made under any session.  [Owned]
    adds, to the commits of JOIN, PART and QUIT, that the stored user is of the
    session they act under; it holds as long as no session is replaced under a
    connection whose user is still there.  [store_step], [reachable], [net_step],
    [rep] and [implements] are the names for [Owned].  Theorems with a parameter [dc]
    hold of both: refinement ([store_refines_network]), the kinds of pairs
    ([store_typed]) and composition ([daemons_compose]).  Those that speak of
    [reachable] stores or of a [connected] client assume [Owned]; Renewed.v shows
    what is lost without it.

    The context of a client is done after as many requests as [rt_ctx] says
    ([ctx_at]): it can end between two requests of a command, and a message sent later
    is refused.  [monitorUser] is the goroutine that cancels it.

    ** What the theorems show

    Refinement: every store the system reaches represents a network reached by
    abstract commands, a consistent one when sessions are not replaced under
    connections ([store_refines_network], [membership_agrees], [session_end_exact]);
    what it is otherwise ([renewed_session_splits]).  Transactions: serializable and live
    ([NewSTM_serializable], [NewSTM_terminates]).  Handlers: atomic with true
    replies ([*_linearizable]), total and exact when undisturbed ([*_exact]).
    Connections: registration is exclusive, a handshake connects, and no client
    can break the network ([registration_exact], [connection_safe]).  Composition:
    with any number of clients at once each is a client among others that take steps
    of the system ([daemons_compose]).  Data: round trips and prefix queries of encoded keys,
    authenticity of the HMAC encoder, modes, visibility of users.
    Queries: what they say is a function of the network, errors and panics
    included ([queries_exact], [join_exact]), and NAMES shows whom the asker may
    see ([names_shows]).  Errors: a client whose user is gone, until its
    context is cancelled and after ([gone_user_exact]).
    Delivery: what is said in a channel is what its watchers are sent, up to the
    message that says they leave ([monitor_relays], [channel_message_arrives]), and
    the members a lost session had are reported ([lost_session_reported]).
    Administration: what ircdctl stores, prints and sends ([admin_exact]).
    The key-encoding client implements the plain one ([kv_refines]), commands do the
    same through it ([encoded_commands]), and its watches deliver the events of the
    plain store ([watcher_delivers]).  Transactions stay
    within etcd's limits, but for a QUIT from 64 channels ([transaction_bounds]).
    Goroutines: the session loop and a connection neither panic nor block when they
    are closed ([session_loop_correct], [conn_fifo], [conn_ends]), though a connection whose peer is gone is never reported to the
    handlers; closing a watcher waits for its watches ([watcher_close]); [Serve]
    closes every connection once and the session last, and waits for ever for a
    peer that does not register ([serve_orderly], [serve_ends]).  Start: TLS and
    encryption unless they are turned off, the same layers for writing and
    watching ([programs_start]).

    ** Bounds and fuel

    [rt_attempts] bounds the attempts of a transaction; [NewSTM_terminates] gives
    the number that is enough when the others become quiet after N requests, and
    one attempt is enough in Quiet.v.  Other recursions are structural.  An etcd
    transaction takes at most 128 operations; where a handler can exceed them the
    theorem has the bound.  Revisions and leases are integers without bound (the
    code's are 64 bits wide and grow by one for each write).

    ** Assumptions

    [Gob]: decoding what was encoded gives it back, for the types the code
    encodes (a lawful instance is in the Wire modules).  HmacKey.v: lengths of
    the hash and of the cipher's blocks.  [others], in the theorems on a running
    client: the environment takes steps of the system, and leaves the client's
    user the lease of the client's session.  [daemons_compose] shows that other
    clients are such an environment under [Owned], where also nobody registers the
    nick of a connected client whose user is gone under another session
    ([unclaimed]); under [Free] sessions are replaced and such nicks are given away,
    and what is left is that the environment takes steps of the system.  A send to a
    connection whose context is done returns its error; Go's select may also write.

    ** Not modelled

    What lies outside the repository's own code: the operating system, TLS and
    certificates, yaml, cobra's matching of words to commands, the key exchange and
    the ciphers of etcdcrypto (parameters of Start.v and HmacKey.v), logging,
    and the rest of the vendored packages: raft, storage, compaction,
    authentication.  A panic ends the process; what happens to the other
    goroutines then is the death of their sessions ([s_expire] in System.v). *)

From stdpp Require Export base tactics strings gmap list sorting numbers.
From Stdlib Require Export Ascii.

Declare Scope go_scope.
Delimit Scope go_scope with go.

(** ** Errors and outcomes

    The Go [error] values the modelled code can return.  Only the identity of
    an error matters to the callers, never its text. *)
Inductive error : Type :=
  | ErrCtx               (* the context of the client was cancelled *)
  | ErrUnavailable       (* etcd cannot be reached *)
  | ErrDecode            (* gob could not decode a value *)
  | ErrKeyNotFound       (* etcd: ignore_lease on a key that does not exist *)
  | ErrLeaseNotFound     (* etcd: put with a lease that is gone *)
  | ErrTooManyOps        (* etcd: more than 128 operations in a transaction *)
  | ErrDuplicateKey      (* etcd: one key written twice in a transaction *)
  | ErrEmptyKey          (* etcd: an operation on the empty key *)
  | ErrFutureRev         (* etcd: a read at a revision not yet reached *)
  | ErrBadPkcs7          (* keyencode: padding longer than a block *)
  | ErrBadHmac           (* keyencode: the hash does not match *)
  | ErrBadHandshake.     (* server: unexpected command while registering *)

Global Instance error_eq_dec : EqDecision error.
Proof. solve_decision. Defined.

(** The ways a Go call ends: it returns a value, it returns a non-nil error,
    it panics, it terminates the process with [os.Exit], or it has not returned
    within the attempts a model of a retry loop is given. *)
Inductive outcome (A : Type) : Type :=
  | Ok (a : A)
  | Err (e : error)
  | Panic
  | Exit
  | Diverge.
Arguments Ok {A} a.
Arguments Err {A} e.
Arguments Panic {A}.
Arguments Exit {A}.
Arguments Diverge {A}.

Definition outcome_bind {A B} (m : outcome A) (f : A -> outcome B) : outcome B :=
  match m with
  | Ok a => f a
  | Err e => Err e
  | Panic => Panic
  | Exit => Exit
  | Diverge => Diverge
  end.

Global Instance outcome_ret : MRet outcome := @Ok.
Global Instance outcome_mbind : MBind outcome := fun _ _ f m => outcome_bind m f.

(** An index or slice expression out of range panics. *)
Definition or_panic {A} (o : option A) : outcome A :=
  match o with Some a => Ok a | None => Panic end.

(** An error the code panics on. *)
Definition or_die {A} (m : outcome A) : outcome A :=
  match m with Err _ => Panic | _ => m end.

(** [v, err := decode(..)]: the error result of a decoder. *)
Definition or_err {A} (e : error) (o : option A) : outcome A :=
  match o with Some a => Ok a | None => Err e end.

Lemma outcome_bind_ok {A B} (m : outcome A) (f : A -> outcome B) b :
  (m ≫= f) = Ok b <-> exists a, m = Ok a /\ f a = Ok b.
Proof. destruct m; simpl; naive_solver. Qed.

Lemma or_panic_ok {A} (o : option A) a : or_panic o = Ok a <-> o = Some a.
Proof. destruct o; simpl; naive_solver. Qed.

(** A loop over a slice that fills another and stops at the first failure. *)
Fixpoint traverse {A B} (f : A -> outcome B) (l : list A) : outcome (list B) :=
  match l with
  | [] => Ok []
  | a :: l' => b ← f a; bs ← traverse f l'; Ok (b :: bs)
  end.

Lemma traverse_Forall2 {A B} (f : A -> outcome B) l l' :
  traverse f l = Ok l' <-> Forall2 (fun x y => f x = Ok y) l l'.
Proof.
  revert l'. induction l as [|x l IH]; intros l'; simpl.
  - split; [by intros [= <-]|by inversion 1].
  - rewrite outcome_bind_ok. split.
    + intros (y&Hy&(ys&Hys&Hr)%outcome_bind_ok). injection Hr as <-. constructor; [done|]. by apply IH.
    + inversion 1 as [|? y ? ys Hy Hys]; subst. exists y. split; [done|].
      apply outcome_bind_ok. exists ys. split; [by apply IH|done].
Qed.

Lemma traverse_fmap {A B} (f : A -> outcome B) (g : A -> B) l :
  (forall x, x ∈ l -> f x = Ok (g x)) -> traverse f l = Ok (g <$> l).
Proof.
  intros Hf. apply traverse_Forall2, Forall2_fmap_r, Forall_Forall2_diag, list.Forall_forall. auto.
Qed.

Lemma traverse_app {A B} (f : A -> outcome B) l1 l2 :
  traverse f (l1 ++ l2) = (b1 ← traverse f l1; b2 ← traverse f l2; Ok (b1 ++ b2)).
Proof.
  induction l1 as [|a l1 IH]; simpl; [by destruct (traverse f l2)|].
  destruct (f a); simpl; [|done..]. rewrite IH. destruct (traverse f l1); simpl; [|done..]. by destruct (traverse f l2).
Qed.

Lemma traverse_length {A B} (f : A -> outcome B) l l' : traverse f l = Ok l' -> length l = length l'.
Proof.
  revert l'. induction l as [|a l IH]; intros l' E; simpl in E; [by injection E as <-|].
  apply outcome_bind_ok in E as (b&_&E). apply outcome_bind_ok in E as (l1&E1&E). injection E as <-. simpl. by rewrite (IH l1).
Qed.

Lemma traverse_ok_elem {A B} (f : A -> outcome B) l l' x : traverse f l = Ok l' -> x ∈ l -> exists y, f x = Ok y.
Proof.
  revert l'. induction l as [|a l IH]; intros l' E Hin; [by apply not_elem_of_nil in Hin|].
  simpl in E. apply outcome_bind_ok in E as (b&Eb&E). apply outcome_bind_ok in E as (l1&E1&_).
  apply elem_of_cons in Hin as [->|Hin]; [by exists b|by eapply IH].
Qed.

Lemma traverse_snoc_inv {A B} (f : A -> outcome B) l l' y :
  traverse f l = Ok (l' ++ [y]) -> exists t x, l = t ++ [x] /\ traverse f t = Ok l' /\ f x = Ok y.
Proof.
  intros E. destruct (exists_last (l := l)) as (t&x&->).
  { intros ->. by destruct l'. }
  rewrite traverse_app in E. apply outcome_bind_ok in E as (l1&E1&E). apply outcome_bind_ok in E as (l2&E2&E).
  simpl in E2. apply outcome_bind_ok in E2 as (y'&Ey&E2). injection E2 as <-.
  injection E as E. apply app_inj_2 in E as [<- [= <-]]; [|done]. by exists t, x.
Qed.

(** The part of a traversal up to some item. *)
Lemma traverse_prefix {A B} (f : A -> outcome B) l1 l l' :
  l1 `prefix_of` l -> traverse f l = Ok l' -> exists l1', l1' `prefix_of` l' /\ traverse f l1 = Ok l1'.
Proof.
  intros [l2 ->] E. rewrite traverse_app in E. apply outcome_bind_ok in E as (b1&E1&E).
  apply outcome_bind_ok in E as (b2&_&E). injection E as <-. exists b1. split; [by eexists|done].
Qed.

Lemma traverse_comp {A B C} (f : B -> outcome C) (g : A -> B) l : traverse f (g <$> l) = traverse (fun a => f (g a)) l.
Proof. induction l as [|a l IH]; [done|]. rewrite fmap_cons. cbn [traverse]. by rewrite IH. Qed.

Lemma traverse_ext {A B} (f g : A -> outcome B) l : (forall a, f a = g a) -> traverse f l = traverse g l.
Proof. intros E. induction l as [|a l IH]; [done|]. cbn [traverse]. by rewrite E, IH. Qed.

(** A step that always lowers a rank can be repeated at most rank many times. *)
Lemma nsteps_rank {A} (R : relation A) (rank : A -> nat) n x y :
  (forall a b, R a b -> rank b < rank a) -> nsteps R n x y -> n <= rank x.
Proof. intros HR. induction 1 as [|n x z y Hs _ IH]; [lia|]. apply HR in Hs. lia. Qed.

(** An insertion adds at most one entry. *)
Lemma size_insert_le {A} (m : gmap string A) k x w : size m <= w -> size (<[k := x]> m) <= S w.
Proof. rewrite map_size_insert. destruct (m !! k); simpl; lia. Qed.

(** A traversal of the items a function selects, against another selection. *)
Lemma traverse_omap_rel {A B C} (R : C -> C -> Prop) (f : B -> outcome C) (g : A -> option B) (h : A -> option C) l :
  (forall x, x ∈ l -> match h x with
                      | None => g x = None
                      | Some z => exists y z', g x = Some y /\ f y = Ok z' /\ R z z'
                      end) ->
  exists l', traverse f (omap g l) = Ok l' /\ Forall2 R (omap h l) l'.
Proof.
  induction l as [|x l IH]; intros Hl; [by exists []|].
  destruct IH as (l'&E&HR); [intros y Hy; apply Hl; by right|].
  specialize (Hl x ltac:(by left)). cbn [omap list_omap]. destruct (h x) as [z|].
  - destruct Hl as (y&z'&->&Ef&Hz). exists (z' :: l'). split; [|by constructor].
    apply outcome_bind_ok. exists z'. split; [done|]. apply outcome_bind_ok. exists l'. by split.
  - rewrite Hl. by exists l'.
Qed.

Lemma traverse_omap {A B C} (f : B -> outcome C) (g : A -> option B) (h : A -> option C) l :
  (forall x, x ∈ l -> match h x with
                      | None => g x = None
                      | Some z => exists y, g x = Some y /\ f y = Ok z
                      end) ->
  traverse f (omap g l) = Ok (omap h l).
Proof.
  intros Hl. destruct (traverse_omap_rel eq f g h l) as (l'&E&HR).
  - intros x Hx. specialize (Hl x Hx). destruct (h x) as [z|]; [|done]. destruct Hl as (y&?&?). by exists y, z.
  - rewrite E. f_equal. symmetry. by apply list_eq_Forall2.
Qed.

Lemma Forall2_choose {A B} (R : A -> B -> Prop) (l : list B) :
  (forall b, b ∈ l -> exists a, R a b) -> exists k, Forall2 R k l.
Proof.
  induction l as [|b l IH]; intros Hl; [by exists []|].
  destruct (Hl b ltac:(by left)) as [a Ha]. destruct IH as [k Hk]; [intros b' Hb'; apply Hl; by right|].
  exists (a :: k). by constructor.
Qed.

Lemma elem_of_concat {A} (x : A) (ls : list (list A)) : x ∈ concat ls <-> exists l, x ∈ l /\ l ∈ ls.
Proof.
  induction ls as [|l ls IH]; simpl.
  - split; [by intros ?%not_elem_of_nil|by intros (?&_&?%not_elem_of_nil)].
  - rewrite elem_of_app, IH. setoid_rewrite elem_of_cons. naive_solver.
Qed.

Lemma omap_nil {A B} (f : A -> option B) (l : list A) : (forall x, x ∈ l -> f x = None) -> omap f l = [].
Proof.
  induction l as [|x l IH]; intros Hl; [done|]. cbn [omap list_omap]. rewrite (Hl x) by (by left).
  apply IH. intros y Hy. apply Hl. by right.
Qed.

Lemma omap_ext_in {A B} (f g : A -> option B) (l : list A) :
  (forall x, x ∈ l -> f x = g x) -> omap f l = omap g l.
Proof.
  induction l as [|x l IH]; intros Hfg; cbn [omap list_omap]; [done|].
  assert (omap f l = omap g l) as E by (apply IH; intros y Hy; apply Hfg; by right).
  rewrite (Hfg x ltac:(by left)). destruct (g x); [|exact E]. by f_equal.
Qed.

Lemma omap_none {A B} (f : A -> option B) (l : list A) : (forall x, x ∈ l -> f x = None) -> omap f l = [].
Proof.
  induction l as [|x l IH]; intros Hf; cbn [omap list_omap]; [done|].
  rewrite (Hf x ltac:(by left)). apply IH. intros y Hy. apply Hf. by right.
Qed.

(** ** State and errors

    [ST S A]: a computation on a state [S].  Effects made before an error or a
    panic stay. *)
Definition ST (S A : Type) : Type := S -> outcome A * S.

Definition ST_bind {S A B} (f : A -> ST S B) (m : ST S A) : ST S B := fun s =>
  match m s with
  | (Ok a, s') => f a s'
  | (Err e, s') => (Err e, s')
  | (Panic, s') => (Panic, s')
  | (Exit, s') => (Exit, s')
  | (Diverge, s') => (Diverge, s')
  end.

Global Instance ST_ret S : MRet (ST S) := fun _ a s => (Ok a, s).
Global Instance ST_mbind S : MBind (ST S) := fun _ _ => ST_bind.

Definition lift {S A} (o : outcome A) : ST S A := fun s => (o, s).
Definition get_state {S} : ST S S := fun s => (Ok s, s).
Definition put_state {S} (s : S) : ST S unit := fun _ => (Ok (), s).

Lemma ST_bind_ok {S A B} (m : ST S A) (f : A -> ST S B) s b s' :
  (m ≫= f) s = (Ok b, s') <-> exists a s1, m s = (Ok a, s1) /\ f a s1 = (Ok b, s').
Proof.
  unfold mbind, ST_mbind, ST_bind. destruct (m s) as [[] s1]; naive_solver.
Qed.

Lemma ST_bind_assoc {S A B C} (m : ST S A) (f : A -> ST S B) (g : B -> ST S C) s :
  ((m ≫= f) ≫= g) s = (m ≫= (fun a => f a ≫= g)) s.
Proof. unfold mbind, ST_mbind, ST_bind. by destruct (m s) as [[a|e| | |] s1]. Qed.

Lemma ST_bind_eq {S A B} (m : ST S A) (f : A -> ST S B) s :
  (m ≫= f) s = ST_bind f m s.
Proof. done. Qed.

(** ** Hint databases and tactics of the development *)

Create HintDb ircd.

(** Break every [match] or [if] of the hypotheses and the goal. *)
Ltac break_match :=
  repeat (case_match; simplify_eq/=).

(** Invert the monadic equations of the context. *)
Ltac inv_outcome :=
  repeat match goal with
  | H : (_ ≫= _) = Ok _ |- _ => apply outcome_bind_ok in H as (?&?&?)
  | H : or_panic _ = Ok _ |- _ => apply or_panic_ok in H
  | H : Ok _ = Ok _ |- _ => injection H as H; subst
  end; simplify_eq/=.

(** ** Lists *)

(** Number of occurrences of [x]. *)
Fixpoint occurs {A} `{EqDecision A} (x : A) (l : list A) : nat :=
  match l with
  | [] => 0
  | y :: l' => if decide (x = y) then S (occurs x l') else occurs x l'
  end.

(** Remove the first element that satisfies [p]; the effect of Go's
    [append(s[:i], s[i+1:]...)] at the first such index. *)
Fixpoint remove_first {A} (p : A -> bool) (l : list A) : list A :=
  match l with
  | [] => []
  | y :: l' => if p y then l' else y :: remove_first p l'
  end.

Section lists.
Context {A : Type} `{EqDecision A}.
Implicit Types (x y : A) (l : list A).

Lemma occurs_app x l1 l2 : occurs x (l1 ++ l2) = occurs x l1 + occurs x l2.
Proof. induction l1; simpl; repeat case_decide; lia. Qed.

Lemma occurs_elem_of x l : x ∈ l <-> 0 < occurs x l.
Proof.
  induction l as [|y l IH]; simpl.
  - split; [by intros ?%not_elem_of_nil|lia].
  - rewrite elem_of_cons, IH. case_decide; [naive_solver lia|].
    split; [intros [?|?]; done|auto].
Qed.

Lemma occurs_not_elem_of x l : x ∉ l <-> occurs x l = 0.
Proof. rewrite occurs_elem_of. lia. Qed.

Lemma occurs_remove_first_eq x l :
  occurs x (remove_first (fun y => bool_decide (x = y)) l) = occurs x l - 1.
Proof.
  induction l as [|y l IH]; simpl; [done|].
  case_bool_decide; simplify_eq/=; case_decide; simplify_eq; lia.
Qed.

Lemma occurs_remove_first_ne x y l :
  x <> y -> occurs x (remove_first (fun z => bool_decide (y = z)) l) = occurs x l.
Proof.
  intros Hne. induction l as [|z l IH]; simpl; [done|].
  case_bool_decide; simplify_eq/=; case_decide; simplify_eq/=; congruence.
Qed.

Lemma remove_first_sublist (p : A -> bool) l : remove_first p l `sublist_of` l.
Proof.
  induction l as [|y l IH]; simpl; [constructor|].
  case_match; [by constructor|by constructor].
Qed.

Lemma remove_first_None (p : A -> bool) l :
  existsb p l = false -> remove_first p l = l.
Proof.
  induction l as [|y l IH]; simpl; [done|].
  intros [-> ?]%orb_false_iff. f_equal; auto.
Qed.

Lemma remove_first_split (p : A -> bool) l :
  existsb p l = true ->
  exists l1 y l2, l = l1 ++ y :: l2 /\ p y = true /\
    existsb p l1 = false /\ remove_first p l = l1 ++ l2.
Proof.
  induction l as [|y l IH]; simpl; [done|].
  destruct (p y) eqn:E; simpl.
  - intros _. by exists [], y, l.
  - intros (l1&z&l2&->&?&?&?)%IH. exists (y :: l1), z, l2.
    simpl. rewrite E. split_and!; auto. f_equal; auto.
Qed.

Lemma elem_of_remove_first x (p : A -> bool) l :
  x ∈ remove_first p l -> x ∈ l.
Proof. intros. eapply elem_of_sublist; eauto using remove_first_sublist. Qed.

Lemma sublist_same_length l1 l2 :
  l1 `sublist_of` l2 -> length l2 <= length l1 -> l1 = l2.
Proof.
  induction 1 as [|x l1 l2 Hsub IH|x l1 l2 Hsub IH]; simpl; intros Hl; [done| |].
  - f_equal. apply IH. lia.
  - apply sublist_length in Hsub. lia.
Qed.

End lists.

(** Two left folds that stay related step by step end related. *)
Lemma foldl_rel {A B X} (R : A -> B -> Prop) (f : A -> X -> A) (g : B -> X -> B) l a b :
  (forall a b x, R a b -> R (f a x) (g b x)) ->
  R a b -> R (foldl f a l) (foldl g b l).
Proof. intros Hstep. revert a b. induction l; simpl; eauto. Qed.

(** A left fold preserves an invariant of its accumulator. *)
Lemma foldl_inv {A X} (P : A -> Prop) (f : A -> X -> A) l a :
  (forall a x, x ∈ l -> P a -> P (f a x)) -> P a -> P (foldl f a l).
Proof.
  revert a. induction l as [|x l IH]; intros a Hstep Ha; simpl; [done|].
  apply IH; [|apply Hstep; [left|]; done].
  intros. apply Hstep; [right|]; done.
Qed.
