(* ===== verification/Group.v ===== *)
(** * Goroutines that a WaitGroup counts

    A list of goroutines of one kind, each with its own state.  One step of the
    group is a step of one goroutine; a caller of [Wait] goes on when all have
    ended.  What holds of every goroutine, the rank that bounds their steps and
    progress are lifted from one goroutine to the group. *)

From S2P Require Import Prelude.

Section group.
Context {S : Type}.
Implicit Types (s : S) (l : list S) (local : S -> S -> Prop).

Inductive group_step local l : list S -> Prop :=
  | g_step i s s' : l !! i = Some s -> local s s' -> group_step local l (<[i := s']> l).

Lemma group_mono local (local' : S -> S -> Prop) l l' :
  (forall s s', local s s' -> local' s s') -> group_step local l l' -> group_step local' l l'.
Proof. intros Hl [i s s' Hi Hs]. econstructor; eauto. Qed.

Lemma group_Forall (P : S -> Prop) local l l' :
  (forall s s', local s s' -> P s -> P s') -> group_step local l l' -> Forall P l -> Forall P l'.
Proof.
  intros Hl [i s s' Hi Hs] HP. apply Forall_insert; [done|]. eapply Hl; [done|].
  by eapply Forall_lookup_1.
Qed.

(** What one goroutine keeps is kept at its place. *)
Lemma group_lookup (R : S -> S -> Prop) `{!Reflexive R} local l l' i s :
  (forall s s', local s s' -> R s s') -> group_step local l l' -> l !! i = Some s -> exists s', l' !! i = Some s' /\ R s s'.
Proof.
  intros Hl [j s1 s1' Hj Hs] Hi. destruct (decide (i = j)) as [->|Hne].
  - simplify_eq. exists s1'. rewrite list_lookup_insert_eq by by eapply lookup_lt_Some. auto.
  - exists s. by rewrite list_lookup_insert_ne.
Qed.

Lemma sum_list_insert (f : S -> nat) l i s s' :
  l !! i = Some s -> sum_list (f <$> <[i := s']> l) + f s = sum_list (f <$> l) + f s'.
Proof.
  revert i. induction l as [|x l IH]; intros [|i] Hi; simplify_eq/=; [lia|]. specialize (IH i Hi). lia.
Qed.

Lemma sum_list_mono (f g : S -> nat) l : (forall s, f s <= g s) -> sum_list (f <$> l) <= sum_list (g <$> l).
Proof. intros Hfg. induction l as [|s l IH]; csimpl; [lia|]. specialize (Hfg s). lia. Qed.

Lemma group_rank (f : S -> nat) local l l' :
  (forall s s', local s s' -> f s' < f s) -> group_step local l l' -> sum_list (f <$> l') < sum_list (f <$> l).
Proof.
  intros Hf [i s s' Hi Hs]. pose proof (sum_list_insert f l i s s' Hi). specialize (Hf s s' Hs). lia.
Qed.

Lemma group_progress (P : S -> Prop) `{!forall s, Decision (P s)} local l :
  (forall s, s ∈ l -> ~ P s -> exists s', local s s') -> Forall P l \/ exists l', group_step local l l'.
Proof.
  intros Hl. destruct (decide (Forall P l)) as [|Hn]; [by left|right].
  apply not_Forall_Exists, list.Exists_exists in Hn as (s&Hin&Hs); [|done].
  destruct (Hl s Hin Hs) as [s' Hs']. apply list_elem_of_lookup in Hin as [i Hi]. eexists. by econstructor.
Qed.

End group.
