(* ===== verification/GoLib.v ===== *)
(** * The parts of Go's standard library the daemon uses

    Byte strings and slices of package [strings] and [bytes] ([Split], [Join],
    [HasPrefix], [IndexByte]), the verbs [%d] and [%x] of [fmt.Sprintf], and
    [fmt.Sscanf] with the verb [%d].  A Go string is a sequence of bytes, here a
    Rocq [string] (a list of 8-bit [ascii]). *)

From Stdlib Require Import DecimalString DecimalN HexadecimalString HexadecimalN.
From S2P Require Import Prelude.

(** ** Definitions *)

Definition slash : ascii := "/".
Definition comma : ascii := ",".

(** [strings.IndexByte(s, c) >= 0] on a string. *)
Fixpoint has_byte (c : ascii) (s : string) : bool :=
  match s with
  | "" => false
  | String a s' => bool_decide (a = c) || has_byte c s'
  end.

(** [strings.Split(s, sep)] for a separator of one byte: never empty. *)
Fixpoint Split (c : ascii) (s : string) : list string :=
  match s with
  | "" => [""]
  | String a s' =>
    if bool_decide (a = c) then "" :: Split c s'
    else match Split c s' with
         | [] => [String a ""]
         | w :: ws => String a w :: ws
         end
  end.

(** [strings.Join(l, sep)]. *)
Definition Join (sep : string) (l : list string) : string := String.concat sep l.

(** [strings.HasPrefix(s, p)]. *)
Definition HasPrefix (s p : string) : bool := String.prefix p s.

(** [s[lo:hi]]; out of range it panics. *)
Definition str_slice (s : string) (lo hi : nat) : option string :=
  if bool_decide (lo <= hi /\ hi <= String.length s)
  then Some (String.substring lo (hi - lo) s) else None.

(** [bytes.IndexByte(b, c)], [None] for -1. *)
Fixpoint IndexByte (b : list ascii) (c : ascii) : option nat :=
  match b with
  | [] => None
  | a :: b' => if bool_decide (a = c) then Some 0 else S <$> IndexByte b' c
  end.

(** [fmt.Sprintf("%d", n)] for a length [n]. *)
Definition fmt_d (n : nat) : string :=
  DecimalString.NilEmpty.string_of_uint (N.to_uint (N.of_nat n)).

(** [fmt.Sprintf("%x", z)] for an [int64]. *)
Definition fmt_x (z : Z) : string :=
  match z with
  | Zneg p => "-" +:+ HexadecimalString.NilEmpty.string_of_uint (N.to_hex_uint (Npos p))
  | _ => HexadecimalString.NilEmpty.string_of_uint (N.to_hex_uint (Z.to_N z))
  end.

Definition is_digit (c : ascii) : bool :=
  let n := N_of_ascii c in ((48 <=? n) && (n <=? 57))%N.

Definition is_blank (c : ascii) : bool :=
  bool_decide (c = " "%char) || bool_decide (c = "009"%char).

Fixpoint take_digits (s : string) : string :=
  match s with
  | "" => ""
  | String a s' => if is_digit a then String a (take_digits s') else ""
  end.

Fixpoint skip_blanks (s : string) : string :=
  match s with
  | "" => ""
  | String a s' => if is_blank a then skip_blanks s' else s
  end.

(** The value of a run of digits; an empty run is an error, and so is a value
    that does not fit an [int] of 64 bits. *)
Definition scan_digits (s : string) : option N :=
  match take_digits s with
  | "" => None
  | d => n ← N.of_uint <$> DecimalString.NilEmpty.uint_of_string d;
         if (n <? 2 ^ 63)%N then Some n else None
  end.

(** [fmt.Sscanf(s, "%d", &n)]: skip blanks, an optional sign, a run of digits;
    what follows the digits is not read. *)
Definition Sscanf_d (s : string) : option Z :=
  match skip_blanks s with
  | String "-" s' => (fun n => (- Z.of_N n)%Z) <$> scan_digits s'
  | String "+" s' => Z.of_N <$> scan_digits s'
  | s' => Z.of_N <$> scan_digits s'
  end.

Global Arguments Join : simpl never.
Global Arguments fmt_d : simpl never.
Global Arguments fmt_x : simpl never.
Global Arguments Sscanf_d : simpl never.

(** ** Strings *)

Lemma str_app_cons a (s1 s2 : string) : String a s1 +:+ s2 = String a (s1 +:+ s2).
Proof. done. Qed.

Lemma str_app_nil_r (s : string) : s +:+ "" = s.
Proof. induction s as [|a s IH]; [done|]. by rewrite str_app_cons, IH. Qed.

Lemma str_app_assoc (s1 s2 s3 : string) : (s1 +:+ s2) +:+ s3 = s1 +:+ s2 +:+ s3.
Proof. induction s1 as [|a s1 IH]; [done|]. by rewrite !str_app_cons, IH. Qed.

Lemma str_length_app (s1 s2 : string) :
  String.length (s1 +:+ s2) = String.length s1 + String.length s2.
Proof. induction s1 as [|a s1 IH]; [done|]. rewrite str_app_cons; simpl. by rewrite IH. Qed.

Lemma str_app_inj_r (s1 s2 s : string) : s1 +:+ s = s2 +:+ s -> s1 = s2.
Proof.
  revert s2. induction s1 as [|a s1 IH]; intros [|b s2] H; [done| | |].
  - apply (f_equal String.length) in H. rewrite str_app_cons in H.
    simpl in H. rewrite !str_length_app in H. simpl in H. lia.
  - apply (f_equal String.length) in H. rewrite str_app_cons in H.
    simpl in H. rewrite !str_length_app in H. simpl in H. lia.
  - rewrite !str_app_cons in H. injection H as -> H. f_equal; auto.
Qed.

Lemma substring_0_all (s : string) : String.substring 0 (String.length s) s = s.
Proof. induction s as [|a s IH]; simpl; [done|]. by rewrite IH. Qed.

Lemma substring_0_app (s1 s2 : string) :
  String.substring 0 (String.length s1) (s1 +:+ s2) = s1.
Proof. induction s1 as [|a s1 IH]; simpl; [by destruct s2|]. by rewrite IH. Qed.

Lemma substring_skip (s1 s2 : string) n :
  String.substring (String.length s1) n (s1 +:+ s2) = String.substring 0 n s2.
Proof. induction s1 as [|a s1 IH]; simpl; [done|]. by rewrite IH. Qed.

(** Slicing the middle of a concatenation. *)
Lemma str_slice_mid (s1 s2 s3 : string) :
  str_slice (s1 +:+ s2 +:+ s3) (String.length s1) (String.length s1 + String.length s2)
  = Some s2.
Proof.
  unfold str_slice. rewrite bool_decide_true.
  - f_equal. replace (_ + _ - _) with (String.length s2) by lia.
    by rewrite substring_skip, substring_0_app.
  - rewrite !str_length_app. lia.
Qed.

(** Slicing off the end of a concatenation. *)
Lemma str_slice_tail (s1 s2 : string) :
  str_slice (s1 +:+ s2) (String.length s1) (String.length (s1 +:+ s2)) = Some s2.
Proof.
  unfold str_slice. rewrite bool_decide_true.
  - rewrite str_length_app. f_equal. rewrite substring_skip.
    replace (_ + _ - _) with (String.length s2) by lia. apply substring_0_all.
  - rewrite !str_length_app. lia.
Qed.

Lemma HasPrefix_app (p s : string) : HasPrefix (p +:+ s) p = true.
Proof.
  unfold HasPrefix. induction p as [|a p IH]; [by destruct s|].
  rewrite str_app_cons. simpl. by destruct (ascii_dec a a).
Qed.

Lemma HasPrefix_spec (p s : string) :
  HasPrefix s p = true <-> exists t, s = p +:+ t.
Proof.
  split; [|by intros [t ->]; apply HasPrefix_app].
  unfold HasPrefix. revert s. induction p as [|a p IH]; intros s; [by exists s|].
  destruct s as [|b s]; simpl; [done|].
  destruct (ascii_dec a b) as [<-|]; [|done].
  intros [t ->]%IH. by exists t.
Qed.

Lemma has_byte_app c (s1 s2 : string) :
  has_byte c (s1 +:+ s2) = has_byte c s1 || has_byte c s2.
Proof.
  induction s1 as [|a s1 IH]; [done|].
  rewrite str_app_cons. simpl. by rewrite IH, orb_assoc.
Qed.

(** Two concatenations with the same separator, whose second parts do not hold
    it, have the same parts: the last separator is where they are cut. *)
Lemma app_sep_inj c (s1 s2 t1 t2 : string) :
  has_byte c t1 = false -> has_byte c t2 = false ->
  s1 +:+ String c t1 = s2 +:+ String c t2 -> s1 = s2 /\ t1 = t2.
Proof.
  intros Ht1 Ht2. revert s2. induction s1 as [|a s1 IH]; intros [|b s2] H.
  - by injection H.
  - rewrite str_app_cons in H. injection H as -> H.
    rewrite H, has_byte_app in Ht1. simpl in Ht1.
    rewrite bool_decide_true, orb_true_r in Ht1; done.
  - rewrite str_app_cons in H. injection H as -> H.
    rewrite <-H, has_byte_app in Ht2. simpl in Ht2.
    rewrite bool_decide_true, orb_true_r in Ht2; done.
  - rewrite !str_app_cons in H. injection H as -> H.
    apply IH in H as [-> ->]. done.
Qed.

(** Likewise when the first parts do not hold it: the first separator. *)
Lemma app_first_sep_inj c (s1 s2 t1 t2 : string) :
  has_byte c s1 = false -> has_byte c s2 = false ->
  s1 +:+ String c t1 = s2 +:+ String c t2 -> s1 = s2 /\ t1 = t2.
Proof.
  revert s2. induction s1 as [|a s1 IH]; intros [|b s2] Hs1 Hs2 H; simpl in *.
  - by injection H.
  - injection H as <- _. by rewrite bool_decide_true in Hs2.
  - injection H as -> _. by rewrite bool_decide_true in Hs1.
  - apply orb_false_iff in Hs1 as [_ ?], Hs2 as [_ ?]. injection H as <- H.
    apply IH in H as [-> ->]; done.
Qed.

Lemma str_app_inj_len (s1 s2 t1 t2 : string) :
  String.length s1 = String.length s2 -> s1 +:+ t1 = s2 +:+ t2 -> s1 = s2 /\ t1 = t2.
Proof.
  revert s2. induction s1 as [|a s1 IH]; intros [|b s2] Hl H; simpl in *; try done.
  injection H as <- H. apply IH in H as [-> ->]; auto.
Qed.

(** Cut a string at its first separator. *)
Lemma cut_first c (s : string) :
  exists d tail, s = d +:+ tail /\ has_byte c d = false /\
    (tail = "" \/ exists t, tail = String c t).
Proof.
  induction s as [|a s (d&tail&->&Hd&Ht)]; [by exists "", ""; eauto|].
  destruct (decide (a = c)) as [->|Hne].
  - exists "", (String c (d +:+ tail)). eauto.
  - exists (String a d), tail. split_and!; [done| |done]. simpl.
    by rewrite bool_decide_false.
Qed.

(** ** Split and Join *)

Lemma Split_not_nil c s : Split c s <> [].
Proof. destruct s as [|a s]; simpl; [done|]. by repeat case_match. Qed.

Lemma Split_app_sep c (w s : string) :
  has_byte c w = false -> Split c (w +:+ String c s) = w :: Split c s.
Proof.
  induction w as [|a w IH]; intros Hw.
  - simpl. by rewrite bool_decide_true.
  - rewrite str_app_cons. simpl in *. apply orb_false_iff in Hw as [-> Hw].
    by rewrite IH.
Qed.

Lemma Split_no_sep c (w : string) : has_byte c w = false -> Split c w = [w].
Proof.
  induction w as [|a w IH]; intros Hw; simpl in *; [done|].
  apply orb_false_iff in Hw as [-> Hw]. by rewrite IH.
Qed.

Lemma Join_cons sep w (l : list string) :
  l <> [] -> Join sep (w :: l) = w +:+ sep +:+ Join sep l.
Proof. by destruct l. Qed.

Lemma Join_app sep (l1 l2 : list string) :
  l1 <> [] -> l2 <> [] -> Join sep (l1 ++ l2) = Join sep l1 +:+ sep +:+ Join sep l2.
Proof.
  intros H1 H2. induction l1 as [|w l1 IH]; [done|].
  destruct l1 as [|w' l1].
  - change ([w] ++ l2) with (w :: l2). by rewrite Join_cons.
  - change ((w :: w' :: l1) ++ l2) with (w :: (w' :: l1) ++ l2).
    rewrite Join_cons by done. rewrite IH by done. rewrite (Join_cons _ w) by done.
    by rewrite !str_app_assoc.
Qed.

(** [strings.Join(strings.Split(s, c), c) == s]. *)
Lemma Join_Split c s : Join (String c "") (Split c s) = s.
Proof.
  induction s as [|a s IH]; [done|]. simpl. case_bool_decide; subst.
  - rewrite Join_cons by apply Split_not_nil. by rewrite IH.
  - destruct (Split c s) as [|w l] eqn:E; [by apply Split_not_nil in E|].
    destruct l as [|w' l].
    + unfold Join in IH |- *. simpl in IH. by rewrite <-IH.
    + rewrite Join_cons in IH |- * by done. by rewrite str_app_cons, IH.
Qed.

Lemma Split_no_byte c s : Forall (fun w => has_byte c w = false) (Split c s).
Proof.
  induction s as [|a s IH]; simpl; [by repeat constructor|].
  case_bool_decide; [by constructor|].
  destruct (Split c s) as [|w l]; inversion IH; subst; constructor; simpl; auto.
  - by rewrite bool_decide_false.
  - by rewrite bool_decide_false.
Qed.

(** ** Numbers *)

Lemma take_digits_uint d s :
  (forall a s', s = String a s' -> is_digit a = false) ->
  take_digits (DecimalString.NilEmpty.string_of_uint d +:+ s)
  = DecimalString.NilEmpty.string_of_uint d.
Proof.
  intros Hs. induction d; simpl; try (by f_equal); [].
  destruct s as [|a s]; simpl; [done|]. by rewrite (Hs a s).
Qed.

Lemma N_to_uint_not_nil n : N.to_uint n <> Decimal.Nil.
Proof.
  intros H. assert (N.to_uint n = N.to_uint 0) as E.
  { rewrite <-(DecimalN.Unsigned.of_to n), H. done. }
  rewrite H in E. discriminate.
Qed.

Lemma Sscanf_digit a s :
  is_digit a = true -> Sscanf_d (String a s) = Z.of_N <$> scan_digits (String a s).
Proof. by destruct a as [[] [] [] [] [] [] [] []]. Qed.

Lemma fmt_d_cons n : exists a s, fmt_d n = String a s /\ is_digit a = true.
Proof.
  unfold fmt_d. destruct (N.to_uint (N.of_nat n)) eqn:E;
    [by apply N_to_uint_not_nil in E|simpl; eauto..].
Qed.

Lemma scan_fmt_d n s :
  (Z.of_nat n < 2 ^ 63)%Z ->
  (forall a s', s = String a s' -> is_digit a = false) ->
  scan_digits (fmt_d n +:+ s) = Some (N.of_nat n).
Proof.
  intros Hn Hs. unfold scan_digits. unfold fmt_d at 1.
  rewrite take_digits_uint by done. fold (fmt_d n).
  destruct (fmt_d_cons n) as (a&s'&Heq&_). rewrite Heq, <-Heq.
  unfold fmt_d. rewrite DecimalString.NilEmpty.usu. simpl.
  rewrite DecimalN.Unsigned.of_to.
  destruct (N.ltb_spec (N.of_nat n) (2 ^ 63)); [done|lia].
Qed.

(** Scanning a printed length gives the length back, whatever non-digit
    follows it. *)
Lemma Sscanf_fmt_d n s :
  (Z.of_nat n < 2 ^ 63)%Z ->
  (forall a s', s = String a s' -> is_digit a = false) ->
  Sscanf_d (fmt_d n +:+ s) = Some (Z.of_nat n).
Proof.
  intros Hn Hs. pose proof (scan_fmt_d n s Hn Hs) as Hscan.
  destruct (fmt_d_cons n) as (a&s'&Heq&Ha). rewrite Heq, str_app_cons in Hscan |- *.
  rewrite Sscanf_digit, Hscan by done. simpl. f_equal. lia.
Qed.

Lemma has_byte_fmt_d c n : is_digit c = false -> has_byte c (fmt_d n) = false.
Proof.
  intros Hc. unfold fmt_d. generalize (N.to_uint (N.of_nat n)). intros d.
  induction d; simpl; rewrite ?IHd, ?orb_false_r; try done;
    apply bool_decide_false; intros <-; done.
Qed.

Lemma has_slash_hex d :
  has_byte slash (HexadecimalString.NilEmpty.string_of_uint d) = false.
Proof. induction d; simpl; by rewrite ?IHd. Qed.

(** A printed [int64] holds no slash. *)
Lemma has_slash_fmt_x z : has_byte slash (fmt_x z) = false.
Proof. unfold fmt_x. destruct z; rewrite ?has_byte_app, ?has_slash_hex; done. Qed.

(** [%d] prints different lengths differently. *)
Global Instance fmt_d_inj : Inj (=) (=) fmt_d.
Proof.
  intros n m H. unfold fmt_d in H.
  apply (f_equal DecimalString.NilEmpty.uint_of_string) in H.
  rewrite !DecimalString.NilEmpty.usu in H. injection H as H.
  apply Nat2N.inj. by rewrite <-(DecimalN.Unsigned.of_to (N.of_nat n)), H, DecimalN.Unsigned.of_to.
Qed.

Lemma hex_no_dash d s :
  HexadecimalString.NilEmpty.string_of_uint d <> String "-" s.
Proof. by destruct d. Qed.

Lemma hex_N_inj n m :
  HexadecimalString.NilEmpty.string_of_uint (N.to_hex_uint n) =
  HexadecimalString.NilEmpty.string_of_uint (N.to_hex_uint m) -> n = m.
Proof.
  intros H%(f_equal HexadecimalString.NilEmpty.uint_of_string).
  rewrite !HexadecimalString.NilEmpty.usu in H. injection H as H.
  by rewrite <-(HexadecimalN.Unsigned.of_to n), H, HexadecimalN.Unsigned.of_to.
Qed.

(** [%x] prints different integers differently. *)
Global Instance fmt_x_inj : Inj (=) (=) fmt_x.
Proof.
  intros x y. destruct x as [|p|p], y as [|q|q]; unfold fmt_x; intros H;
    try (by apply hex_no_dash in H); try (by symmetry in H; apply hex_no_dash in H);
    try (apply (inj (String.append "-")) in H); apply hex_N_inj in H; lia.
Qed.

(** ** IndexByte *)

Lemma IndexByte_None b c : IndexByte b c = None <-> c ∉ b.
Proof.
  induction b as [|a b IH]; simpl; [split; [intros _ ?%not_elem_of_nil|]; done|].
  rewrite elem_of_cons. case_bool_decide; subst; [naive_solver|].
  rewrite fmap_None, IH. naive_solver.
Qed.

Lemma IndexByte_Some b c i :
  IndexByte b c = Some i -> i < length b /\ b !! i = Some c /\ c ∉ take i b.
Proof.
  revert i. induction b as [|a b IH]; intros i; simpl; [done|].
  case_bool_decide; subst.
  - intros [= <-]. split_and!; [lia|done|]. by apply not_elem_of_nil.
  - intros (j&Hj&->)%fmap_Some. apply IH in Hj as (?&?&?).
    split_and!; [lia|done|]. simpl. rewrite not_elem_of_cons. auto.
Qed.

#[export] Hint Resolve Split_not_nil has_slash_fmt_x : ircd.
#[export] Hint Rewrite str_app_assoc str_length_app has_byte_app : ircd.
