(* ===== verification/Mode.v ===== *)
(** * Modes (mode.go)

    A [ModeValue] is a byte slice that [del] edits in place, so two slice
    headers may share one backing array.  [updateSlice] compares the mode it
    was called with against the mode it computed while both may share their
    array.  The file therefore models the operations twice: on byte lists
    ([has], [add], [del], [update], [updates]) and on slices over an explicit
    heap of backing arrays ([h_add], [h_del], [h_update], [h_updateSlice]), and
    proves how the two relate. *)

From S2P Require Import Prelude GoLib.

(** ** Data *)

(** [type modeSet map[byte]struct{}]. *)
Notation modeSet := (gset ascii).

Record modePerms := {
  mp_all : modeSet;
  mp_add : modeSet;
  mp_del : modeSet;
}.

Definition userModePerms : modePerms := {|
  mp_all := list_to_set ["a"; "i"; "o"; "E"; "O"]%char;
  mp_add := list_to_set ["i"; "E"]%char;
  mp_del := list_to_set ["a"; "i"; "o"; "E"; "O"]%char;
|}.

Definition chanModes : modeSet := list_to_set ["m"; "t"; "s"]%char.

Definition chanModePerms : modePerms := {|
  mp_all := chanModes;
  mp_add := chanModes;
  mp_del := chanModes;
|}.

(** ** The operations on byte lists *)

Notation ModeValue := (list ascii).

Definition newModeValue (modes : string) : ModeValue := String.list_ascii_of_string modes.

Definition has (mv : ModeValue) (m : ascii) : bool :=
  match IndexByte mv m with Some _ => true | None => false end.

Definition add (mv : ModeValue) (m : ascii) : ModeValue :=
  if has mv m then mv else mv ++ [m].

Definition del (mv : ModeValue) (m : ascii) : ModeValue :=
  match IndexByte mv m with
  | None => mv
  | Some idx => take idx mv ++ drop (S idx) mv
  end.

Definition Equal (mv mv2 : ModeValue) : bool := bool_decide (mv = mv2).

(** One iteration of the [+] and of the [-] loop of [update]. *)
Definition plus_step (mp : modePerms) (acc : ModeValue * list ascii) (m : ascii) :=
  if bool_decide (m ∈ mp_add mp) then (add acc.1 m, acc.2) else (acc.1, acc.2 ++ [m]).

Definition minus_step (mp : modePerms) (acc : ModeValue * list ascii) (m : ascii) :=
  if bool_decide (m ∈ mp_del mp) then (del acc.1 m, acc.2) else (acc.1, acc.2 ++ [m]).

(** The modes of a string with neither sign that are unknown. *)
Definition unknown (mp : modePerms) (ms : list ascii) : list ascii :=
  filter (fun m => m ∉ mp_all mp) ms.

(** [update] interprets ["+whatever"] and ["-whatever"] and returns the modes
    it did not interpret. *)
Definition update (mv : ModeValue) (modeStr : string) (mp : modePerms)
    : ModeValue * list ascii :=
  match String.list_ascii_of_string modeStr with
  | [] => (mv, [])
  | "+"%char :: ms => foldl (plus_step mp) (mv, []) ms
  | "-"%char :: ms => foldl (minus_step mp) (mv, []) ms
  | ms => (mv, unknown mp ms)
  end.

(** The mode and the uninterpreted modes of [updateSlice], for a mode nobody
    else refers to. *)
Definition updates_step (mp : modePerms) (acc : ModeValue * list ascii) (m : string) :=
  let '(ret, newBad) := update acc.1 m mp in (ret, acc.2 ++ newBad).

Definition updates (mv : ModeValue) (modes : list string) (mp : modePerms)
    : ModeValue * list ascii :=
  foldl (updates_step mp) (mv, []) modes.

(** ** The operations on slices

    The heap is the list of backing arrays; the length of an array is the
    capacity of the slices that start at it.  Every [ModeValue] starts at
    offset 0 of its array, so a slice header is an array and a length. *)

Notation heap := (list (list ascii)).

Record slice := { s_arr : nat; s_len : nat }.

Definition backing (h : heap) (s : slice) : list ascii := default [] (h !! s_arr s).

Definition bytes_of (h : heap) (s : slice) : list ascii := take (s_len s) (backing h s).

Definition s_valid (h : heap) (s : slice) : Prop :=
  s_arr s < length h /\ s_len s <= length (backing h s).

Section slices.
(** How many unused bytes [append] leaves behind the data when it has to move
    it to a larger array. *)
Context (spare : nat -> nat).

(** [append(mv, m)]: in place when the capacity allows it. *)
Definition h_append (h : heap) (s : slice) (m : ascii) : heap * slice :=
  let a := backing h s in
  if s_len s <? length a
  then (<[s_arr s := <[s_len s := m]> a]> h, {| s_arr := s_arr s; s_len := S (s_len s) |})
  else (h ++ [bytes_of h s ++ m :: replicate (spare (S (s_len s))) "000"%char],
        {| s_arr := length h; s_len := S (s_len s) |}).

Definition h_add (h : heap) (s : slice) (m : ascii) : heap * slice :=
  if has (bytes_of h s) m then (h, s) else h_append h s m.

(** [append(mv[:idx], mv[idx+1:]...)]: the capacity of [mv[:idx]] is that of
    [mv], so the bytes after [idx] move down in the shared array. *)
Definition h_del (h : heap) (s : slice) (m : ascii) : heap * slice :=
  match IndexByte (bytes_of h s) m with
  | None => (h, s)
  | Some idx =>
    let a := backing h s in
    let rest := drop (S idx) (bytes_of h s) in
    (<[s_arr s := take idx a ++ rest ++ drop (idx + length rest) a]> h,
     {| s_arr := s_arr s; s_len := idx + length rest |})
  end.

Definition h_plus_step (mp : modePerms) (acc : heap * slice * list ascii) (m : ascii) :=
  let '(h, s, bad) := acc in
  if bool_decide (m ∈ mp_add mp) then (h_add h s m, bad) else (h, s, bad ++ [m]).

Definition h_minus_step (mp : modePerms) (acc : heap * slice * list ascii) (m : ascii) :=
  let '(h, s, bad) := acc in
  if bool_decide (m ∈ mp_del mp) then (h_del h s m, bad) else (h, s, bad ++ [m]).

Definition h_update (h : heap) (s : slice) (modeStr : string) (mp : modePerms)
    : heap * slice * list ascii :=
  match String.list_ascii_of_string modeStr with
  | [] => (h, s, [])
  | "+"%char :: ms => foldl (h_plus_step mp) (h, s, []) ms
  | "-"%char :: ms => foldl (h_minus_step mp) (h, s, []) ms
  | ms => (h, s, unknown mp ms)
  end.

Definition h_updates_step (mp : modePerms) (acc : heap * slice * list ascii) (m : string) :=
  let '(h, ret, bad) := acc in
  let '(h', newMode, newBad) := h_update h ret m mp in (h', newMode, bad ++ newBad).

(** [updateSlice]: [oldMode] keeps the header the call started with, and the
    comparison reads both headers in the final heap. *)
Definition h_updateSlice (h : heap) (mv : slice) (modes : list string) (mp : modePerms)
    : heap * slice * list ascii * bool :=
  let '(h', ret, bad) := foldl (h_updates_step mp) (h, mv, []) modes in
  (h', ret, bad, negb (Equal (bytes_of h' mv) (bytes_of h' ret))).

(** [updateSlice] on a mode that was just decoded: gob allocates the array of a
    byte slice with exactly its length. *)
Definition updateSlice (mv : ModeValue) (modes : list string) (mp : modePerms)
    : ModeValue * list ascii * bool :=
  let '(h, ret, bad, updated) :=
    h_updateSlice [mv] {| s_arr := 0; s_len := length mv |} modes mp in
  (bytes_of h ret, bad, updated).

End slices.

(** ** Tracking the shared array

    What the caller of [updateSlice] can observe of the heap is the current
    mode and, once an [append] has moved it to an array of its own, the bytes
    that stayed behind in the array of the old mode. *)

Notation track := (ModeValue * option ModeValue)%type.

Definition t_add (n0 : nat) (t : track) (m : ascii) : track :=
  if has t.1 m then t
  else (t.1 ++ [m],
        match t.2 with
        | Some d => Some d
        | None => if length t.1 <? n0 then None else Some t.1
        end).

Definition t_del (t : track) (m : ascii) : track := (del t.1 m, t.2).

Definition t_plus_step (n0 : nat) (mp : modePerms) (acc : track * list ascii) (m : ascii) :=
  if bool_decide (m ∈ mp_add mp) then (t_add n0 acc.1 m, acc.2) else (acc.1, acc.2 ++ [m]).

Definition t_minus_step (mp : modePerms) (acc : track * list ascii) (m : ascii) :=
  if bool_decide (m ∈ mp_del mp) then (t_del acc.1 m, acc.2) else (acc.1, acc.2 ++ [m]).

Definition t_update (n0 : nat) (t : track) (modeStr : string) (mp : modePerms)
    : track * list ascii :=
  match String.list_ascii_of_string modeStr with
  | [] => (t, [])
  | "+"%char :: ms => foldl (t_plus_step n0 mp) (t, []) ms
  | "-"%char :: ms => foldl (t_minus_step mp) (t, []) ms
  | ms => (t, unknown mp ms)
  end.

Definition t_updates_step (n0 : nat) (mp : modePerms) (acc : track * list ascii) (m : string) :=
  let '(t, newBad) := t_update n0 acc.1 m mp in (t, acc.2 ++ newBad).

(** The flag [updateSlice] returns, from the tracked state. *)
Definition t_flag (n0 : nat) (t : track) : bool :=
  match t.2 with
  | None => negb (length t.1 =? n0)
  | Some d => negb (Equal d t.1)
  end.

Definition t_updateSlice (mv : ModeValue) (modes : list string) (mp : modePerms)
    : ModeValue * list ascii * bool :=
  let n0 := length mv in
  let '(t, bad) := foldl (t_updates_step n0 mp) (mv, None, []) modes in
  (t.1, bad, t_flag n0 t).

(** ** Byte lists *)

Lemma has_spec mv m : has mv m = true <-> m ∈ mv.
Proof.
  unfold has. destruct (IndexByte mv m) as [i|] eqn:E.
  - apply IndexByte_Some in E as (?&?&?). split; [|done]. intros _.
    by apply list_elem_of_lookup_2 with i.
  - apply IndexByte_None in E. done.
Qed.

Lemma has_false mv m : has mv m = false <-> m ∉ mv.
Proof. rewrite <-has_spec. by destruct (has mv m). Qed.

Lemma elem_of_add mv m x : x ∈ add mv m <-> x ∈ mv \/ x = m.
Proof.
  unfold add. destruct (has mv m) eqn:E; [apply has_spec in E; naive_solver|].
  rewrite elem_of_app, list_elem_of_singleton. done.
Qed.

Lemma del_not_in mv m : m ∉ mv -> del mv m = mv.
Proof. intros H. unfold del. by rewrite (proj2 (IndexByte_None _ _) H). Qed.

(** [del] removes the first occurrence. *)
Lemma del_app mv1 mv2 m : m ∉ mv1 -> del (mv1 ++ m :: mv2) m = mv1 ++ mv2.
Proof.
  intros Hm. unfold del.
  assert (IndexByte (mv1 ++ m :: mv2) m = Some (length mv1)) as ->.
  { induction mv1 as [|a mv1 IH]; simpl; [by rewrite bool_decide_true|].
    apply not_elem_of_cons in Hm as [? ?].
    rewrite bool_decide_false, IH by auto. done. }
  rewrite take_app_length. f_equal.
  rewrite drop_app_ge by lia. by replace (S _ - _) with 1 by lia.
Qed.

Lemma elem_of_del mv m x : x ∈ del mv m -> x ∈ mv.
Proof.
  unfold del. case_match; [|done]. rewrite elem_of_app.
  intros [?|?]; eauto using elem_of_sublist, sublist_take, sublist_drop.
Qed.

Lemma IndexByte_split mv m :
  m ∈ mv -> exists mv1 mv2, mv = mv1 ++ m :: mv2 /\ m ∉ mv1 /\ del mv m = mv1 ++ mv2.
Proof.
  intros Hm. destruct (IndexByte mv m) as [i|] eqn:E;
    [|by apply IndexByte_None in E].
  apply IndexByte_Some in E as (?&Hi&?).
  exists (take i mv), (drop (S i) mv).
  rewrite <-(take_drop_middle mv i m) at 1 by done.
  split_and!; [done|done|].
  rewrite <-(take_drop_middle mv i m) at 1 by done. by apply del_app.
Qed.

Lemma add_NoDup mv m : NoDup mv -> NoDup (add mv m).
Proof.
  intros Hnd. unfold add. destruct (has mv m) eqn:E; [done|].
  apply has_false in E. apply list.NoDup_app. split_and!; [done| |apply NoDup_singleton].
  intros x Hx ->%list_elem_of_singleton. done.
Qed.

Lemma del_NoDup mv m : NoDup mv -> NoDup (del mv m).
Proof.
  intros Hnd. destruct (has mv m) eqn:E.
  - apply has_spec in E. destruct (IndexByte_split mv m E) as (mv1&mv2&->&?&->).
    apply list.NoDup_app in Hnd as (?&Hd&?%list.NoDup_cons). apply list.NoDup_app.
    split_and!; [done| |naive_solver]. intros x Hx1 Hx2. eapply Hd; [done|]. by right.
  - by rewrite del_not_in by (by apply has_false).
Qed.

Lemma elem_of_del_NoDup mv m x : NoDup mv -> (x ∈ del mv m <-> x ∈ mv /\ x <> m).
Proof.
  intros Hnd. destruct (has mv m) eqn:E.
  - apply has_spec in E. destruct (IndexByte_split mv m E) as (mv1&mv2&->&?&->).
    apply list.NoDup_app in Hnd as (?&Hd&[? ?]%list.NoDup_cons).
    rewrite !elem_of_app, elem_of_cons. split; [|naive_solver].
    intros [?|?]; (split; [tauto|intros ->; done]).
  - apply has_false in E. rewrite del_not_in by done. naive_solver.
Qed.

(** ** Slices *)

Section slice_lemmas.
Context (spare : nat -> nat).
Implicit Types (h : heap) (s o : slice).

Lemma length_bytes_of h s : s_valid h s -> length (bytes_of h s) = s_len s.
Proof. intros [? ?]. unfold bytes_of. rewrite length_take. lia. Qed.

Lemma backing_insert_eq h s a n :
  s_arr s < length h -> backing (<[s_arr s := a]> h) {| s_arr := s_arr s; s_len := n |} = a.
Proof. intros. unfold backing. simpl. by rewrite list_lookup_insert_eq. Qed.

Lemma backing_insert_ne h s o a :
  s_arr s <> s_arr o -> backing (<[s_arr s := a]> h) o = backing h o.
Proof. intros. unfold backing. by rewrite list_lookup_insert_ne. Qed.

Lemma backing_app h o a : s_arr o < length h -> backing (h ++ [a]) o = backing h o.
Proof. intros. unfold backing. by rewrite lookup_app_l. Qed.

(** What [h_updateSlice] keeps true of the old header [o], whose array is full,
    and of the current header. *)
Definition sim (o : slice) (h : heap) (s : slice) (t : track) : Prop :=
  s_valid h s /\ s_valid h o /\ length (backing h o) = s_len o /\
  bytes_of h s = t.1 /\
  match t.2 with
  | None => s_arr s = s_arr o
  | Some d => s_arr s <> s_arr o /\ bytes_of h o = d
  end.

Lemma take_S_insert (l : list ascii) n m :
  n < length l -> take (S n) (<[n := m]> l) = take n l ++ [m].
Proof.
  intros. rewrite insert_take_drop, cons_middle, app_assoc by done.
  rewrite take_app_le by (rewrite length_app, length_take; simpl; lia).
  rewrite take_ge; [done|rewrite length_app, length_take; simpl; lia].
Qed.

Lemma sim_same_array o h s cur :
  sim o h s (cur, None) -> backing h s = backing h o.
Proof. intros (_&_&_&_&Ht). simpl in Ht. unfold backing. by rewrite Ht. Qed.

(** [append] with room: the byte lands in the array, shared or not. *)
Lemma sim_append_fit o h s t m :
  sim o h s t -> m ∉ t.1 -> s_len s < length (backing h s) ->
  sim o (<[s_arr s := <[s_len s := m]> (backing h s)]> h)
      {| s_arr := s_arr s; s_len := S (s_len s) |} (t_add (s_len o) t m).
Proof.
  intros Hsim Hm Hlt. pose proof Hsim as (Hs&Ho&Hfull&Hb&Ht).
  pose proof (length_bytes_of h s Hs) as Hlen.
  destruct Hs as [Hs1 Hs2], Ho as [Ho1 Ho2].
  unfold t_add. rewrite (proj2 (has_false _ _) Hm). rewrite <-Hb, Hlen.
  assert (bytes_of (<[s_arr s:=<[s_len s:=m]> (backing h s)]> h)
    {| s_arr := s_arr s; s_len := S (s_len s) |} = bytes_of h s ++ [m]) as Hnew.
  { unfold bytes_of at 1; simpl.
    rewrite backing_insert_eq by done. by apply take_S_insert. }
  destruct t as [cur [d|]]; simpl in *.
  - destruct Ht as [Hne <-]. split_and!; simpl; auto.
    + split; simpl; rewrite ?length_insert; [done|].
      rewrite backing_insert_eq, length_insert by done. lia.
    + split; rewrite ?length_insert, ?backing_insert_ne by done; done.
    + by rewrite backing_insert_ne.
    + unfold bytes_of. by rewrite backing_insert_ne.
  - pose proof (sim_same_array _ _ _ _ Hsim) as Heq.
    assert (backing (<[s_arr s := <[s_len s := m]> (backing h s)]> h) o
            = <[s_len s := m]> (backing h s)) as Hbo.
    { unfold backing at 1. rewrite <-Ht. by rewrite list_lookup_insert_eq. }
    assert (length (backing h s) = s_len o) as Hcap by congruence.
    destruct (Nat.ltb_spec (s_len s) (s_len o)); [|lia].
    split_and!; simpl; auto.
    + split; simpl; rewrite ?length_insert; [done|].
      rewrite backing_insert_eq, length_insert by done. lia.
    + split; rewrite ?Hbo, !length_insert; [done|lia].
    + rewrite Hbo, length_insert. done.
Qed.

(** [append] without room: the old array keeps the bytes it had. *)
Lemma sim_append_grow o h s t m (tail : list ascii) :
  sim o h s t -> m ∉ t.1 -> length (backing h s) <= s_len s ->
  sim o (h ++ [bytes_of h s ++ m :: tail])
      {| s_arr := length h; s_len := S (s_len s) |} (t_add (s_len o) t m).
Proof.
  intros Hsim Hm Hge. pose proof Hsim as (Hs&Ho&Hfull&Hb&Ht).
  pose proof (length_bytes_of h s Hs) as Hlen.
  destruct Hs as [Hs1 Hs2], Ho as [Ho1 Ho2].
  unfold t_add. rewrite (proj2 (has_false _ _) Hm). rewrite <-Hb, Hlen.
  assert (backing (h ++ [bytes_of h s ++ m :: tail])
            {| s_arr := length h; s_len := S (s_len s) |} = bytes_of h s ++ m :: tail) as Hbk.
  { unfold backing; simpl. by rewrite lookup_app_r, Nat.sub_diag by lia. }
  split_and!; simpl; auto.
  - split; simpl; [rewrite length_app; simpl; lia|].
    rewrite Hbk, !length_app, Hlen. simpl. lia.
  - split; [rewrite length_app; simpl; lia|]. by rewrite backing_app.
  - by rewrite backing_app.
  - unfold bytes_of at 1. rewrite Hbk. simpl s_len.
    rewrite cons_middle, app_assoc, take_app_le by (rewrite length_app, Hlen; simpl; lia).
    rewrite take_ge; [done|rewrite length_app, Hlen; simpl; lia].
  - destruct t as [cur [d|]]; simpl in *.
    + destruct Ht as [Hne <-]. split; [lia|]. unfold bytes_of. by rewrite backing_app.
    + pose proof (sim_same_array _ _ _ _ Hsim) as Heq.
      assert (length (backing h s) = s_len o) as Hcap by congruence.
      destruct (Nat.ltb_spec (s_len s) (s_len o)); [lia|].
      split; [lia|]. unfold bytes_of. rewrite backing_app, <-Heq by done.
      by rewrite !take_ge by lia.
Qed.

Lemma sim_add o h s t m :
  sim o h s t -> sim o (h_add spare h s m).1 (h_add spare h s m).2 (t_add (s_len o) t m).
Proof.
  intros Hsim. pose proof Hsim as (_&_&_&Hb&_). unfold h_add. rewrite Hb.
  destruct (has t.1 m) eqn:E.
  - unfold t_add. by rewrite E.
  - apply has_false in E. unfold h_append.
    destruct (Nat.ltb_spec (s_len s) (length (backing h s)));
      [by apply sim_append_fit|by apply sim_append_grow].
Qed.

Lemma sim_del o h s t m :
  sim o h s t -> sim o (h_del h s m).1 (h_del h s m).2 (t_del t m).
Proof.
  intros Hsim. pose proof Hsim as (Hs&Ho&Hfull&Hb&Ht).
  pose proof (length_bytes_of h s Hs) as Hlen. destruct Hs as [Hs1 Hs2], Ho as [Ho1 Ho2].
  unfold h_del, t_del, del. rewrite <-Hb.
  destruct (IndexByte (bytes_of h s) m) as [i|] eqn:E; simpl.
  2: { destruct t as [cur fr]; simpl in *; subst. done. }
  apply IndexByte_Some in E as (Hi&_&_). rewrite Hlen in Hi.
  set (rest := drop (S i) (bytes_of h s)).
  assert (i + length rest = s_len s - 1) as Hn.
  { unfold rest. rewrite length_drop, Hlen. lia. }
  set (a := backing h s) in *.
  set (a' := take i a ++ rest ++ drop (i + length rest) a).
  assert (length a' = length a) as Ha'.
  { unfold a'. rewrite !length_app, length_take, length_drop. lia. }
  assert (take (i + length rest) a' = take i (bytes_of h s) ++ rest) as Htk.
  { unfold a'. rewrite app_assoc, take_app_le by (rewrite length_app, length_take; lia).
    rewrite take_ge by (rewrite length_app, length_take; lia).
    unfold bytes_of. rewrite take_take. do 2 f_equal. lia. }
  assert (s_arr s <> s_arr o -> backing (<[s_arr s := a']> h) o = backing h o) as Hne
    by apply backing_insert_ne.
  assert (s_arr s = s_arr o -> backing (<[s_arr s := a']> h) o = a') as Heq.
  { intros Heq. unfold backing. rewrite <-Heq. by rewrite list_lookup_insert_eq. }
  assert (length (backing (<[s_arr s := a']> h) o) = s_len o) as Hcap.
  { destruct (decide (s_arr s = s_arr o)) as [E|E]; [|by rewrite Hne].
    rewrite Heq, Ha' by done. unfold a, backing. rewrite E. done. }
  split_and!; simpl; auto.
  - split; simpl; rewrite ?length_insert; [done|].
    rewrite backing_insert_eq, Ha' by done. fold a in Hs2. lia.
  - split; rewrite ?length_insert, ?Hcap; done.
  - unfold bytes_of at 1; simpl. by rewrite backing_insert_eq.
  - destruct t as [cur [d|]]; simpl in *; [|done].
    destruct Ht as [? <-]. split; [done|]. unfold bytes_of. by rewrite Hne.
Qed.

(** The accumulators of the loops of [update] and [updateSlice]. *)
Definition sim_acc (o : slice) (acc : heap * slice * list ascii) (t : track * list ascii) : Prop :=
  sim o acc.1.1 acc.1.2 t.1 /\ acc.2 = t.2.

Lemma sim_update o h s t modeStr mp :
  sim o h s t -> sim_acc o (h_update spare h s modeStr mp) (t_update (s_len o) t modeStr mp).
Proof.
  intros Hsim. unfold h_update, t_update.
  assert (forall ms, sim_acc o (foldl (h_plus_step spare mp) (h, s, []) ms)
    (foldl (t_plus_step (s_len o) mp) (t, []) ms)) as Hplus.
  { intros ms. apply foldl_rel; [|done].
    intros [[h1 s1] bad1] [t1 b1] m [Hsim1 Hbad]. unfold h_plus_step, t_plus_step.
    case_bool_decide; split; simpl in *; subst; auto.
    pose proof (sim_add _ _ _ _ m Hsim1). by destruct (h_add spare h1 s1 m). }
  assert (forall ms, sim_acc o (foldl (h_minus_step mp) (h, s, []) ms)
    (foldl (t_minus_step mp) (t, []) ms)) as Hminus.
  { intros ms. apply foldl_rel; [|done].
    intros [[h1 s1] bad1] [t1 b1] m [Hsim1 Hbad]. unfold h_minus_step, t_minus_step.
    case_bool_decide; split; simpl in *; subst; auto.
    pose proof (sim_del _ _ _ _ m Hsim1). by destruct (h_del h1 s1 m). }
  destruct (String.list_ascii_of_string modeStr) as [|[[] [] [] [] [] [] [] []] ms];
    try apply Hplus; try apply Hminus; by split.
Qed.

Lemma sim_flag o h s t :
  sim o h s t -> negb (Equal (bytes_of h o) (bytes_of h s)) = t_flag (s_len o) t.
Proof.
  intros Hsim. pose proof Hsim as (Hs&Ho&Hfull&Hb&Ht).
  unfold t_flag. destruct t as [cur [d|]]; simpl in *.
  - destruct Ht as [_ <-]. by rewrite Hb.
  - pose proof (sim_same_array _ _ _ _ Hsim) as Heq.
    pose proof (length_bytes_of h s Hs) as Hls. rewrite <-Hb, Hls. f_equal.
    unfold Equal, bytes_of. rewrite Heq, (take_ge (backing h o) (s_len o)) by (rewrite Hfull; lia).
    destruct (Nat.eqb_spec (s_len s) (s_len o)) as [->|Hne].
    + apply bool_decide_true. by rewrite take_ge by (rewrite Hfull; lia).
    + apply bool_decide_false. intros E%(f_equal length).
      destruct Hs as [_ Hs2]. rewrite Heq in Hs2. rewrite length_take in E. lia.
Qed.

(** The heap computes what the tracked state says, whatever room [append]
    leaves in a new array. *)
Lemma updateSlice_track mv modes mp :
  updateSlice spare mv modes mp = t_updateSlice mv modes mp.
Proof.
  unfold updateSlice, h_updateSlice, t_updateSlice.
  set (o := {| s_arr := 0; s_len := length mv |}).
  assert (sim_acc o (foldl (h_updates_step spare mp) ([mv], o, []) modes)
            (foldl (t_updates_step (length mv) mp) (mv, None, []) modes)) as Hacc.
  { apply foldl_rel.
    - intros [[h s] bad] [t b] m [Hsim Hbad]. unfold h_updates_step, t_updates_step.
      pose proof (sim_update o h s t m mp Hsim) as [Hsim' Hbad'].
      simpl in *. destruct (h_update spare h s m mp) as [[h' s'] bad'].
      destruct (t_update (length mv) t m mp) as [t' b']. simpl in *. subst. by split.
    - split; [|done]. split_and!; simpl; try done.
      + split; simpl; [lia|]. done.
      + split; simpl; [lia|]. done.
      + unfold bytes_of; simpl. by apply take_ge. }
  destruct (foldl (h_updates_step spare mp) _ modes) as [[h s] bad].
  destruct (foldl (t_updates_step _ mp) _ modes) as [t b].
  destruct Hacc as [Hsim Hbad]; simpl in *; subst.
  rewrite (sim_flag _ _ _ _ Hsim). destruct Hsim as (_&_&_&->&_). done.
Qed.

End slice_lemmas.

(** ** What an update does *)

Section track_lemmas.
Context (mp : modePerms).
Implicit Types (mv : ModeValue) (t : track) (modes : list string).

(** The tracked mode is the mode computed on byte lists. *)
Lemma t_update_fst n0 t m :
  (t_update n0 t m mp).1.1 = (update t.1 m mp).1 /\
  (t_update n0 t m mp).2 = (update t.1 m mp).2.
Proof.
  pose (R := fun (x : track * list ascii) (y : ModeValue * list ascii) =>
    x.1.1 = y.1 /\ x.2 = y.2).
  change (R (t_update n0 t m mp) (update t.1 m mp)). unfold t_update, update.
  assert (forall ms, R (foldl (t_plus_step n0 mp) (t, []) ms)
    (foldl (plus_step mp) (t.1, []) ms)) as Hplus.
  { intros ms. apply foldl_rel; [|done]. intros [[c f] b] [c' b'] x [? ?].
    unfold t_plus_step, plus_step, t_add, add; simpl in *; subst.
    case_bool_decide; [|done]. by destruct (has c' x). }
  assert (forall ms, R (foldl (t_minus_step mp) (t, []) ms)
    (foldl (minus_step mp) (t.1, []) ms)) as Hminus.
  { intros ms. apply foldl_rel; [|done]. intros [[c f] b] [c' b'] x [? ?].
    unfold t_minus_step, minus_step; simpl in *; subst. by case_bool_decide. }
  destruct (String.list_ascii_of_string m) as [|[[] [] [] [] [] [] [] []] ms];
    try apply Hplus; try apply Hminus; done.
Qed.

Lemma t_updateSlice_updates mv modes :
  (t_updateSlice mv modes mp).1 = updates mv modes mp.
Proof.
  unfold t_updateSlice, updates.
  pose (R := fun (x : track * list ascii) (y : ModeValue * list ascii) =>
    x.1.1 = y.1 /\ x.2 = y.2).
  assert (R (foldl (t_updates_step (length mv) mp) (mv, None, []) modes)
    (foldl (updates_step mp) (mv, []) modes)) as [Hc Hb].
  { apply foldl_rel; [|done]. intros [t b] [c' b'] m [? ?]; simpl in *; subst.
    unfold t_updates_step, updates_step; simpl.
    destruct (t_update_fst (length mv) t m) as [H1 H2].
    destruct (t_update _ t m mp) as [t' b1], (update t.1 m mp) as [c1 b2].
    simpl in *. by subst. }
  destruct (foldl (t_updates_step _ mp) _ modes) as [t b].
  destruct (foldl (updates_step mp) _ modes) as [c b']. simpl in *. by subst.
Qed.

(** An invariant of modes that [add] and [del] of permitted modes keep. *)
Lemma update_inv (P : ModeValue -> Prop) mv m :
  (forall mv x, x ∈ mp_add mp -> P mv -> P (add mv x)) ->
  (forall mv x, x ∈ mp_del mp -> P mv -> P (del mv x)) ->
  P mv -> P (update mv m mp).1.
Proof.
  intros Hadd Hdel HP. unfold update.
  assert (forall ms, P (foldl (plus_step mp) (mv, []) ms).1) as Hplus.
  { intros ms. apply (foldl_inv (fun a => P a.1)); [|done].
    intros [c b] x _ Hc. unfold plus_step. case_bool_decide; simpl in *; auto. }
  assert (forall ms, P (foldl (minus_step mp) (mv, []) ms).1) as Hminus.
  { intros ms. apply (foldl_inv (fun a => P a.1)); [|done].
    intros [c b] x _ Hc. unfold minus_step. case_bool_decide; simpl in *; auto. }
  destruct (String.list_ascii_of_string m) as [|[[] [] [] [] [] [] [] []] ms];
    try apply Hplus; try apply Hminus; done.
Qed.

Lemma updates_inv (P : ModeValue -> Prop) mv modes :
  (forall mv x, x ∈ mp_add mp -> P mv -> P (add mv x)) ->
  (forall mv x, x ∈ mp_del mp -> P mv -> P (del mv x)) ->
  P mv -> P (updates mv modes mp).1.
Proof.
  intros Hadd Hdel HP. unfold updates.
  apply (foldl_inv (fun a => P a.1)); [|done].
  intros [c b] m _ Hc. unfold updates_step. simpl in *.
  pose proof (update_inv P c m Hadd Hdel Hc). by destruct (update c m mp).
Qed.

End track_lemmas.

(** ** Which updates the flag reports *)

(** The strings that only remove, or only add, modes. *)
Definition no_plus (m : string) : bool :=
  match m with String "+" _ => false | _ => true end.

Definition no_minus (m : string) : bool :=
  match m with String "-" _ => false | _ => true end.

Section flag_lemmas.
Context (mp : modePerms) (mv : ModeValue).

(** Before any removal: nothing was added yet, or the old array still holds the
    mode the call started with. *)
Definition only_added (t : track) : Prop :=
  t = (mv, None) \/ exists ext, ext <> [] /\ t = (mv ++ ext, Some mv).

Lemma only_added_add t m : only_added t -> only_added (t_add (length mv) t m).
Proof.
  intros [->|(ext&Hne&->)]; unfold t_add; simpl; case_match; simpl.
  - by left.
  - rewrite Nat.ltb_irrefl. right. by exists [m].
  - right. eauto.
  - right. exists (ext ++ [m]). rewrite app_assoc. split; [by destruct ext|done].
Qed.

Lemma only_added_update t m :
  no_minus m = true -> only_added t -> only_added (t_update (length mv) t m mp).1.
Proof.
  intros Hm Ht. unfold t_update.
  assert (forall ms, only_added (foldl (t_plus_step (length mv) mp) (t, []) ms).1) as Hplus.
  { intros ms. apply (foldl_inv (fun a => only_added a.1)); [|done].
    intros [c b] x _ Hc. unfold t_plus_step.
    case_bool_decide; simpl in *; auto using only_added_add. }
  destruct m as [|[[] [] [] [] [] [] [] []] m]; simpl in *; try done; apply Hplus.
Qed.

(** After that: only removals, so the array left behind does not change. *)
Definition only_removed (t0 t : track) : Prop := t.1 `sublist_of` t0.1 /\ t.2 = t0.2.

Lemma del_sublist c m : del c m `sublist_of` c.
Proof.
  unfold del. destruct (IndexByte c m) as [i|] eqn:E; [|done].
  apply IndexByte_Some in E as (?&Hi&?).
  rewrite <-(take_drop_middle c i m) at 3 by done.
  apply sublist_app; [done|]. by apply sublist_cons.
Qed.

Lemma only_removed_update t0 t m :
  no_plus m = true -> only_removed t0 t ->
  only_removed t0 (t_update (length mv) t m mp).1.
Proof.
  intros Hm Ht. unfold t_update.
  assert (forall ms, only_removed t0 (foldl (t_minus_step mp) (t, []) ms).1) as Hminus.
  { intros ms. apply (foldl_inv (fun a => only_removed t0 a.1)); [|done].
    intros [c b] x _ [Hc1 Hc2]. unfold t_minus_step, only_removed.
    case_bool_decide; simpl in *; [|done]. split; [|done].
    etrans; [apply del_sublist|done]. }
  destruct m as [|[[] [] [] [] [] [] [] []] m]; simpl in *; try done; apply Hminus.
Qed.

Lemma only_flag t0 t :
  only_added t0 -> only_removed t0 t -> t_flag (length mv) t = negb (Equal mv t.1).
Proof.
  intros Hadd [Hsub Hfr]. unfold t_flag. rewrite Hfr.
  destruct Hadd as [->|(ext&?&->)]; simpl in *; [|done].
  f_equal. unfold Equal. destruct (Nat.eqb_spec (length t.1) (length mv)) as [Hl|Hl].
  - symmetry. apply bool_decide_true. symmetry.
    apply sublist_same_length; [done|lia].
  - symmetry. apply bool_decide_false. intros E. apply Hl. by rewrite <-E.
Qed.

End flag_lemmas.

(** What an update rejects does not depend on the mode. *)
Lemma update_bad mv mv' m mp : (update mv m mp).2 = (update mv' m mp).2.
Proof.
  assert (forall (f : ModeValue * list ascii -> ascii -> ModeValue * list ascii) ms,
    (forall x y c, x.2 = y.2 -> (f x c).2 = (f y c).2) ->
    (foldl f (mv, []) ms).2 = (foldl f (mv', []) ms).2) as Hf.
  { intros f ms Hs. by apply (foldl_rel (fun x y : ModeValue * list ascii => x.2 = y.2)). }
  unfold update. destruct (String.list_ascii_of_string m) as [|[[] [] [] [] [] [] [] []] ms]; try done;
    apply Hf; intros x y c E; unfold plus_step, minus_step; case_bool_decide; simpl; congruence.
Qed.

Lemma updates_bad mv mv' modes mp : (updates mv modes mp).2 = (updates mv' modes mp).2.
Proof.
  unfold updates. apply (foldl_rel (fun x y : ModeValue * list ascii => x.2 = y.2)); [|done].
  intros x y m E. unfold updates_step. pose proof (update_bad x.1 y.1 m mp) as Hb.
  destruct (update x.1 m mp), (update y.1 m mp). simpl in *. congruence.
Qed.

Lemma updateSlice_bad (spare : nat -> nat) mv modes mp :
  (updateSlice spare mv modes mp).1.2 = (updates [] modes mp).2.
Proof. rewrite updateSlice_track, t_updateSlice_updates. apply updates_bad. Qed.

(** ** Theorems *)

(** C39: a user cannot grant himself a privilege with MODE: whatever strings are
    sent, the only modes that can appear are [i] and [E], so never [o], [O] or
    [a]; and a mode without repetitions stays so. *)
Theorem userMode_no_escalation (spare : nat -> nat) mv modes x :
  NoDup mv ->
  NoDup (updateSlice spare mv modes userModePerms).1.1 /\
  (x ∈ (updateSlice spare mv modes userModePerms).1.1 ->
   x ∈ mv \/ x = "i"%char \/ x = "E"%char).
Proof.
  intros Hnd. rewrite updateSlice_track, t_updateSlice_updates. split.
  - apply updates_inv; auto using add_NoDup, del_NoDup.
  - revert x. apply updates_inv with
      (P := fun c => forall x, x ∈ c -> x ∈ mv \/ x = "i"%char \/ x = "E"%char).
    + intros c y Hy IH x Hx%elem_of_add. destruct Hx as [Hx| ->]; [auto|].
      right. simpl in Hy. set_solver.
    + intros c y _ IH x Hx%elem_of_del. auto.
    + auto.
Qed.

Lemma userMode_no_escalation_witness :
  NoDup ["o"%char] /\
  NoDup (updateSlice (fun _ => 7) ["o"%char] ["+iOE"; "-o"] userModePerms).1.1.
Proof.
  split; [apply NoDup_singleton|].
  apply (userMode_no_escalation (fun _ => 7) ["o"%char] ["+iOE"; "-o"] "i"%char).
  apply NoDup_singleton.
Defined.

(** When no string adds modes after a string that removes modes, the flag of
    [updateSlice] says whether the mode changed. *)
Lemma updateSlice_flag_ok (spare : nat -> nat) mv ps ms mp :
  Forall (fun m => no_minus m = true) ps ->
  Forall (fun m => no_plus m = true) ms ->
  (updateSlice spare mv (ps ++ ms) mp).2
  = negb (Equal mv (updateSlice spare mv (ps ++ ms) mp).1.1).
Proof.
  intros Hps Hms. rewrite updateSlice_track. unfold t_updateSlice.
  rewrite foldl_app. rewrite !list.Forall_forall in *.
  set (a0 := foldl (t_updates_step (length mv) mp) (mv, None, []) ps).
  assert (only_added mv a0.1) as H0.
  { apply (foldl_inv (fun a => only_added mv a.1)); [|by left].
    intros [t b] m Hm Ht. unfold t_updates_step. simpl in *.
    pose proof (only_added_update mp mv t m (Hps m Hm) Ht).
    by destruct (t_update _ t m mp). }
  assert (only_removed a0.1 (foldl (t_updates_step (length mv) mp) a0 ms).1) as H1.
  { apply (foldl_inv (fun a => only_removed a0.1 a.1)); [|by split].
    intros [t b] m Hm Ht. unfold t_updates_step. simpl in *.
    pose proof (only_removed_update mp mv a0.1 t m (Hms m Hm) Ht).
    by destruct (t_update _ t m mp). }
  destruct (foldl _ a0 ms) as [t b]. simpl in *. by apply (only_flag mv a0.1).
Qed.

(** Removing a mode that is set and then adding one that is not, in one
    command, is reported as no change at all: the removal shifts the array the
    old mode still refers to, and the addition fills the byte it freed, so the
    old and the new header show the same bytes. *)
Lemma updateSlice_lost (spare : nat -> nat) mv x y mp :
  x ∈ mv -> y ∉ mv -> x ∈ mp_del mp -> y ∈ mp_add mp ->
  updateSlice spare mv [String "-" (String x ""); String "+" (String y "")] mp
  = (del mv x ++ [y], [], false).
Proof.
  intros Hx Hy Hpx Hpy. rewrite updateSlice_track.
  destruct (IndexByte_split mv x Hx) as (mv1&mv2&Hmv&?&Hdel).
  assert (length (del mv x) < length mv) as Hlt.
  { rewrite Hdel, Hmv, !length_app. simpl. lia. }
  unfold t_updateSlice, t_updates_step, t_update. simpl.
  unfold t_minus_step, t_plus_step, t_del, t_add; simpl.
  rewrite !bool_decide_true by done. simpl.
  rewrite (proj2 (has_false _ _)) by (intros ?%elem_of_del; done).
  destruct (Nat.ltb_spec (length (del mv x)) (length mv)); [|lia].
  simpl. unfold t_flag; simpl. f_equal. apply negb_false_iff, Nat.eqb_eq.
  rewrite Hdel, Hmv, !length_app. simpl. lia.
Qed.

(** C38: the mode and the rejected letters that [updateSlice] returns are those of
    the update on a private copy, whatever room the runtime leaves when a slice
    grows: sharing the array never corrupts the mode that is returned.  It does
    corrupt the report of a change: removing a mode that is set and then adding one
    that is not, in one command, is reported as no change at all. *)
Theorem updateSlice_functional (spare : nat -> nat) mv mp :
  (forall modes, (updateSlice spare mv modes mp).1 = updates mv modes mp) /\
  (forall x y, x ∈ mv -> y ∉ mv -> x ∈ mp_del mp -> y ∈ mp_add mp ->
     updateSlice spare mv [String "-" (String x ""); String "+" (String y "")] mp
     = (del mv x ++ [y], [], false)).
Proof.
  split; [|intros x y; apply updateSlice_lost]. intros modes. by rewrite updateSlice_track, t_updateSlice_updates.
Qed.

Lemma updateSlice_functional_witness :
  updateSlice (fun _ => 7) ["m"; "s"]%char ["-m"; "+t"] chanModePerms
  = (["s"; "t"]%char, [], false).
Proof.
  apply (updateSlice_functional (fun _ => 7) ["m"; "s"]%char chanModePerms);
    (set_solver || vm_compute; set_solver).
Defined.
