(* ===== verification/Msg.v ===== *)
(** * Messages, gob values and operators (msg.go, oper.go)

    The IRC message type of package [sorcix/irc.v2], the commands and numeric
    replies the daemon uses, and [encoding/gob], through which every value
    stored in etcd passes.

    The bytes gob produces depend on the order in which a process first uses
    its types, so they are not a function of the value alone: gob is the class
    [Gob], whose laws are what the callers rely on.  Module [Wire] builds an
    instance for every type that is stored, which the witnesses use. *)

From S2P Require Import Prelude GoLib.

(** ** gob *)

Class Gob (A : Type) := {
  gob_encode : A -> string;
  gob_decode : string -> option A;
  (** a decoder returns the value that was encoded; *)
  gob_decode_encode a : gob_decode (gob_encode a) = Some a;
  (** decoding an empty stream is an error ([io.EOF]). *)
  gob_decode_empty : gob_decode "" = None;
}.
Global Hint Mode Gob ! : typeclass_instances.

(** ** Messages *)

Record Prefix := {
  p_Name : string;
  p_User : string;
  p_Host : string;
}.

Record Message := {
  m_Prefix : option Prefix;
  m_Command : string;
  m_Params : list string;
}.

Global Instance Prefix_eq_dec : EqDecision Prefix.
Proof. solve_decision. Defined.
Global Instance Message_eq_dec : EqDecision Message.
Proof. solve_decision. Defined.

Definition encodeMessage `{Gob Message} (m : Message) : string := gob_encode m.
Definition decodeMessage `{Gob Message} (m : string) : option Message := gob_decode m.

(** ** Operators *)

Record OperValue := {
  ov_Pass : string;
  ov_Global : bool;
}.

Definition encodeOperValue `{Gob OperValue} (ov : OperValue) : string := gob_encode ov.
Definition decodeOperValue `{Gob OperValue} (ov : string) : option OperValue := gob_decode ov.

Module irc.
Definition KICK := "KICK".
Definition DIE := "DIE".
Definition AWAY := "AWAY".
Definition OPER := "OPER".
Definition CAP := "CAP".
Definition WHOIS := "WHOIS".
Definition WHO := "WHO".
Definition JOIN := "JOIN".
Definition MODE := "MODE".
Definition LIST := "LIST".
Definition NAMES := "NAMES".
Definition PING := "PING".
Definition PONG := "PONG".
Definition PART := "PART".
Definition QUIT := "QUIT".
Definition PRIVMSG := "PRIVMSG".
Definition TOPIC := "TOPIC".
Definition NOTICE := "NOTICE".
Definition MOTD := "MOTD".
Definition ERROR := "ERROR".
Definition RPL_WELCOME := "001".
Definition RPL_YOURHOST := "002".
Definition RPL_CREATED := "003".
Definition RPL_MYINFO := "004".
Definition RPL_UMODEIS := "221".
Definition RPL_AWAY := "301".
Definition RPL_UNAWAY := "305".
Definition RPL_NOWAWAY := "306".
Definition RPL_WHOISUSER := "311".
Definition RPL_ENDOFWHO := "315".
Definition RPL_ENDOFWHOIS := "318".
Definition RPL_WHOISCHANNELS := "319".
Definition RPL_LIST := "322".
Definition RPL_LISTEND := "323".
Definition RPL_NOTOPIC := "331".
Definition RPL_TOPIC := "332".
Definition RPL_WHOREPLY := "352".
Definition RPL_NAMREPLY := "353".
Definition RPL_ENDOFNAMES := "366".
Definition RPL_MOTD := "372".
Definition RPL_MOTDSTART := "375".
Definition RPL_ENDOFMOTD := "376".
Definition RPL_YOUREOPER := "381".
Definition ERR_NOSUCHNICK := "401".
Definition ERR_NOSUCHCHANNEL := "403".
Definition ERR_CANNOTSENDTOCHAN := "404".
Definition ERR_NOTEXTTOSEND := "412".
Definition ERR_NOMOTD := "422".
Definition ERR_NICKNAMEINUSE := "433".
Definition ERR_USERNOTINCHANNEL := "441".
Definition ERR_NOTONCHANNEL := "442".
Definition ERR_NEEDMOREPARAMS := "461".
Definition ERR_PASSWDMISMATCH := "464".
Definition ERR_BADCHANMASK := "476".
Definition ERR_NOCHANMODES := "477".
Definition ERR_NOPRIVILEGES := "481".
Definition ERR_CHANOPRIVSNEEDED := "482".
Definition ERR_UMODEUNKNOWNFLAG := "501".
Definition ERR_USERSDONTMATCH := "502".
End irc.

(** ** Serializers

    A serializer reads back what it wrote and leaves the rest of the input. *)

Class Ser (A : Type) := {
  ser : A -> string;
  des : string -> option (A * string);
  des_ser a s : des (ser a +:+ s) = Some (a, s);
}.
Global Hint Mode Ser ! : typeclass_instances.

Module Wire.

Fixpoint ser_pos (p : positive) : string :=
  match p with
  | xH => "c"
  | xO p => String "b" (ser_pos p)
  | xI p => String "a" (ser_pos p)
  end.

Fixpoint des_pos (s : string) : option (positive * string) :=
  match s with
  | String "a" s => '(p, r) ← des_pos s; Some (xI p, r)
  | String "b" s => '(p, r) ← des_pos s; Some (xO p, r)
  | String "c" s => Some (xH, s)
  | _ => None
  end.

Lemma des_ser_pos p s : des_pos (ser_pos p +:+ s) = Some (p, s).
Proof. induction p as [p IH|p IH|]; simpl; rewrite ?IH; done. Qed.

Definition ser_Z (z : Z) : string :=
  match z with
  | Z0 => "0"
  | Zpos p => String "+" (ser_pos p)
  | Zneg p => String "-" (ser_pos p)
  end.

Definition des_Z (s : string) : option (Z * string) :=
  match s with
  | String "0" s => Some (Z0, s)
  | String "+" s => '(p, r) ← des_pos s; Some (Zpos p, r)
  | String "-" s => '(p, r) ← des_pos s; Some (Zneg p, r)
  | _ => None
  end.

Global Instance Z_ser : Ser Z.
Proof.
  refine {| ser := ser_Z; des := des_Z |}.
  intros [|p|p] s; simpl; rewrite ?des_ser_pos; done.
Defined.

Definition des_ascii (s : string) : option (ascii * string) :=
  match s with String a s => Some (a, s) | "" => None end.

Global Instance ascii_ser : Ser ascii.
Proof. refine {| ser := fun a => String a ""; des := des_ascii |}. done. Defined.

Definition des_bool (s : string) : option (bool * string) :=
  match s with
  | String "t" s => Some (true, s)
  | String "f" s => Some (false, s)
  | _ => None
  end.

Global Instance bool_ser : Ser bool.
Proof.
  refine {| ser := fun b : bool => if b then "t" else "f"; des := des_bool |}. by intros [].
Defined.

Section combinators.
Context {A B : Type} `{Ser A, Ser B}.

Fixpoint ser_items (l : list A) : string :=
  match l with [] => "" | a :: l => ser a +:+ ser_items l end.

Fixpoint des_items (n : nat) (s : string) : option (list A * string) :=
  match n with
  | 0 => Some ([], s)
  | S n => '(a, s) ← des s; '(l, s) ← des_items n s; Some (a :: l, s)
  end.

Lemma des_ser_items l s : des_items (length l) (ser_items l +:+ s) = Some (l, s).
Proof.
  induction l as [|a l IH]; simpl; [done|].
  rewrite str_app_assoc, des_ser. simpl. by rewrite IH.
Qed.

Global Instance list_ser : Ser (list A).
Proof.
  refine {| ser := fun l => ser (Z.of_nat (length l)) +:+ ser_items l;
            des := fun s => '(n, s) ← des (A := Z) s; des_items (Z.to_nat n) s |}.
  intros l s. rewrite str_app_assoc, (des_ser (A := Z)). simpl.
  by rewrite Nat2Z.id, des_ser_items.
Defined.

Global Instance pair_ser : Ser (A * B).
Proof.
  refine {| ser := fun x => ser x.1 +:+ ser x.2;
            des := fun s => '(a, s) ← des s; '(b, s) ← des s; Some (a, b, s) |}.
  intros [a b] s. rewrite str_app_assoc, des_ser. simpl. by rewrite des_ser.
Defined.

Global Instance option_ser : Ser (option A).
Proof.
  refine {| ser := fun x => match x with Some a => String "s" (ser a) | None => "n" end;
            des := fun s => match s with
                     | String "s" s => '(a, s) ← des s; Some (Some a, s)
                     | String "n" s => Some (None, s)
                     | _ => None
                     end |}.
  intros [a|] s; simpl; rewrite ?des_ser; done.
Defined.

(** A type with an embedding into a serializable one. *)
Definition iso_ser (f : B -> A) (g : A -> B) (Hgf : forall b, g (f b) = b) : Ser B.
Proof.
  refine {| ser := fun b => ser (f b); des := fun s => '(a, s) ← des s; Some (g a, s) |}.
  intros b s. rewrite des_ser. simpl. by rewrite Hgf.
Defined.

(** A tagged stream that must be read to its end is a gob. *)
Definition gob_of_ser : Gob A.
Proof.
  refine {| gob_encode := fun a => String "G" (ser a);
            gob_decode := fun s => match s with
              | String "G" s => '(a, r) ← des s; if decide (r = "") then Some a else None
              | _ => None
              end |}.
  - intros a. simpl. rewrite <-(str_app_nil_r (ser a)), des_ser. done.
  - done.
Defined.
End combinators.

Global Instance string_ser : Ser string :=
  iso_ser String.list_ascii_of_string String.string_of_list_ascii
    String.string_of_list_ascii_of_string.

Definition Prefix_ser : Ser Prefix.
Proof.
  refine (iso_ser (A := string * string * string)
    (fun p => (p_Name p, p_User p, p_Host p))
    (fun '(n, u, h) => {| p_Name := n; p_User := u; p_Host := h |}) _).
  by intros [].
Defined.
Local Existing Instance Prefix_ser.

Definition Message_gob : Gob Message.
Proof.
  refine (gob_of_ser (H := iso_ser (A := option Prefix * string * list string)
    (fun m => (m_Prefix m, m_Command m, m_Params m))
    (fun '(p, c, l) => {| m_Prefix := p; m_Command := c; m_Params := l |}) _)).
  by intros [].
Defined.

Definition OperValue_gob : Gob OperValue.
Proof.
  refine (gob_of_ser (H := iso_ser (A := string * bool)
    (fun o => (ov_Pass o, ov_Global o))
    (fun '(p, g) => {| ov_Pass := p; ov_Global := g |}) _)).
  by intros [].
Defined.

End Wire.

(** ** Facts about gob *)

Lemma gob_encode_not_empty `{Gob A} (a : A) : gob_encode a <> "".
Proof.
  intros E. pose proof (gob_decode_encode a) as Hd.
  rewrite E, gob_decode_empty in Hd. discriminate.
Qed.

Global Instance gob_encode_inj `{Gob A} : Inj (=) (=) (gob_encode (A := A)).
Proof.
  intros a b E%(f_equal (gob_decode (A := A))). rewrite !gob_decode_encode in E. congruence.
Qed.

#[export] Hint Rewrite @gob_decode_encode @gob_decode_empty : ircd.
