(* ===== verification/Conn.v ===== *)
(** * A connection (conn.go)

    Two goroutines stand between the handlers and the peer: one decodes messages
    into a buffered channel, one encodes the messages handed to it.  The handlers
    see a connection as a list of messages to read and a list of messages sent;
    this file has the goroutines, and what that view keeps and loses. *)

From S2P Require Import Prelude Msg.

(** ** State *)

(** [read]: decodes, sends on [rch], or sends an error on [errc].  What it decodes
    from a line too short for a message is a nil pointer. *)
Inductive read_pc := RDecode | RSend (m : option Message) | RErr | REnd.

(** [write]: waits, encodes, or sends an error on [errc]. *)
Inductive write_pc := WIdle | WEncode (m : Message) | WErr | WEnd.

(** [Close]: not called, [stopc] closed, the socket closed, [errc] closed. *)
Inductive close_pc := COpen | CStop | CSock | CDone.

(** [cn_in]: what the peer still sends, before the connection fails.  [cn_read]:
    what handlers took from [rch].  [cn_handed]: what [SendMsg] handed over.
    [cn_wire]: what was encoded, each with whether [SendMsgSync] did it. *)
Record conn := {
  cn_in : list (option Message);
  cn_rpc : read_pc;
  cn_rch : list (option Message);
  cn_read : list (option Message);
  cn_wpc : write_pc;
  cn_handed : list Message;
  cn_wire : list (bool * Message);
  cn_errc : nat;
  cn_close : close_pc;
}.

Definition rch_cap : nat := 1024.
Definition errc_cap : nat := 2.

Definition NewConn (peer : list (option Message)) : conn := {|
  cn_in := peer; cn_rpc := RDecode; cn_rch := []; cn_read := []; cn_wpc := WIdle; cn_handed := [];
  cn_wire := []; cn_errc := 0; cn_close := COpen |}.

Definition set_read (pc : read_pc) (peer rch : list (option Message)) (errc : nat) (c : conn) : conn := {|
  cn_in := peer; cn_rpc := pc; cn_rch := rch; cn_read := cn_read c; cn_wpc := cn_wpc c;
  cn_handed := cn_handed c; cn_wire := cn_wire c; cn_errc := errc; cn_close := cn_close c |}.

Definition set_write (pc : write_pc) (wire : list (bool * Message)) (errc : nat) (c : conn) : conn := {|
  cn_in := cn_in c; cn_rpc := cn_rpc c; cn_rch := cn_rch c; cn_read := cn_read c; cn_wpc := pc;
  cn_handed := cn_handed c; cn_wire := wire; cn_errc := errc; cn_close := cn_close c |}.

(** ** Steps *)

Definition stopped (c : conn) : bool := match cn_close c with COpen => false | _ => true end.
Definition sock_closed (c : conn) : bool := match cn_close c with COpen | CStop => false | _ => true end.

Inductive read_step (c : conn) : conn -> Prop :=
  | r_decode m peer : cn_rpc c = RDecode -> cn_in c = m :: peer ->
      read_step c (set_read (RSend m) peer (cn_rch c) (cn_errc c) c)
  | r_fail : cn_rpc c = RDecode -> cn_in c = [] \/ sock_closed c = true ->
      read_step c (set_read RErr (cn_in c) (cn_rch c) (cn_errc c) c)
  | r_push m : cn_rpc c = RSend m -> length (cn_rch c) < rch_cap ->
      read_step c (set_read RDecode (cn_in c) (cn_rch c ++ [m]) (cn_errc c) c)
  | r_stop m : cn_rpc c = RSend m -> stopped c = true ->
      read_step c (set_read REnd (cn_in c) (cn_rch c) (cn_errc c) c)
  | r_report : cn_rpc c = RErr -> cn_errc c < errc_cap ->
      read_step c (set_read REnd (cn_in c) (cn_rch c) (S (cn_errc c)) c).

Inductive write_step (c : conn) : conn -> Prop :=
  | w_encode m : cn_wpc c = WEncode m ->
      write_step c (set_write WIdle (cn_wire c ++ [(false, m)]) (cn_errc c) c)
  | w_fail m : cn_wpc c = WEncode m -> write_step c (set_write WErr (cn_wire c) (cn_errc c) c)
  | w_report : cn_wpc c = WErr -> cn_errc c < errc_cap ->
      write_step c (set_write WEnd (cn_wire c) (S (cn_errc c)) c)
  | w_stop : cn_wpc c = WIdle -> stopped c = true ->
      write_step c (set_write WEnd (cn_wire c) (cn_errc c) c).

(** What the handlers do: take a message or an error, hand a message over, write
    one themselves. *)
Inductive user_step (c : conn) : conn -> Prop :=
  | u_take m rch : cn_rch c = m :: rch ->
      user_step c {| cn_in := cn_in c; cn_rpc := cn_rpc c; cn_rch := rch; cn_read := cn_read c ++ [m];
        cn_wpc := cn_wpc c; cn_handed := cn_handed c; cn_wire := cn_wire c; cn_errc := cn_errc c;
        cn_close := cn_close c |}
  | u_err n : cn_errc c = S n ->
      user_step c {| cn_in := cn_in c; cn_rpc := cn_rpc c; cn_rch := cn_rch c; cn_read := cn_read c;
        cn_wpc := cn_wpc c; cn_handed := cn_handed c; cn_wire := cn_wire c; cn_errc := n;
        cn_close := cn_close c |}
  | u_SendMsg m : cn_wpc c = WIdle ->
      user_step c {| cn_in := cn_in c; cn_rpc := cn_rpc c; cn_rch := cn_rch c; cn_read := cn_read c;
        cn_wpc := WEncode m; cn_handed := cn_handed c ++ [m]; cn_wire := cn_wire c; cn_errc := cn_errc c;
        cn_close := cn_close c |}
  | u_SendMsgSync m : user_step c (set_write (cn_wpc c) (cn_wire c ++ [(true, m)]) (cn_errc c) c).

Definition set_close (pc : close_pc) (c : conn) : conn := {|
  cn_in := cn_in c; cn_rpc := cn_rpc c; cn_rch := cn_rch c; cn_read := cn_read c; cn_wpc := cn_wpc c;
  cn_handed := cn_handed c; cn_wire := cn_wire c; cn_errc := cn_errc c; cn_close := pc |}.

(** [Close] after its first line. *)
Inductive close_step (c : conn) : conn -> Prop :=
  | k_sock : cn_close c = CStop -> close_step c (set_close CSock c)
  | k_wait : cn_close c = CSock -> cn_rpc c = REnd -> cn_wpc c = WEnd -> close_step c (set_close CDone c).

Inductive conn_step (c : conn) : conn -> Prop :=
  | s_read c' : read_step c c' -> conn_step c c'
  | s_write c' : write_step c c' -> conn_step c c'
  | s_user c' : user_step c c' -> conn_step c c'
  | s_closing c' : close_step c c' -> conn_step c c'
  | s_Close : cn_close c = COpen -> conn_step c (set_close CStop c).

(** ** The invariant *)

(** The messages of [SendMsg] that were encoded. *)
Definition handed_over (p : bool * Message) : option Message := if p.1 then None else Some p.2.
Definition handed_wire (c : conn) : list Message := omap handed_over (cn_wire c).

Definition reader_ok (peer : list (option Message)) (c : conn) : Prop :=
  match cn_rpc c with
  | RDecode | RErr => peer = cn_read c ++ cn_rch c ++ cn_in c
  | RSend m => peer = cn_read c ++ cn_rch c ++ m :: cn_in c
  | REnd => cn_read c ++ cn_rch c `prefix_of` peer
  end.

Definition writer_ok (c : conn) : Prop :=
  match cn_wpc c with
  | WIdle => cn_handed c = handed_wire c
  | WEncode m => cn_handed c = handed_wire c ++ [m]
  | WErr | WEnd => handed_wire c `prefix_of` cn_handed c /\ length (cn_handed c) <= S (length (handed_wire c))
  end.

Definition errs (c : conn) : nat :=
  (match cn_rpc c with REnd => 1 | _ => 0 end) + (match cn_wpc c with WEnd => 1 | _ => 0 end).

Record conn_inv (peer : list (option Message)) (c : conn) : Prop := {
  ci_read : reader_ok peer c;
  ci_cap : length (cn_rch c) <= rch_cap;
  ci_write : writer_ok c;
  ci_errc : cn_errc c <= errs c;
  ci_close : cn_close c = CDone -> cn_rpc c = REnd /\ cn_wpc c = WEnd;
}.

Lemma NewConn_inv peer : conn_inv peer (NewConn peer).
Proof. split; simpl; try done; unfold rch_cap, errs; simpl; lia. Qed.

(** A closed connection has no goroutine that could step. *)
Ltac closed_done :=
  match goal with
  | Hd : cn_close _ = CDone -> _ |- _ => intros Hk; simpl in Hk; first [discriminate|destruct (Hd Hk); congruence]
  end.

Lemma read_step_inv peer c c' : conn_inv peer c -> read_step c c' -> conn_inv peer c'.
Proof.
  intros [Hr Hc Hw He Hd] Hs. unfold reader_ok, errs in *.
  destruct Hs as [m peer' E Hin|E _|m E Hl|m E _|E Hl]; rewrite E in Hr, He; split; try done;
    unfold reader_ok, errs; simpl; try lia; try closed_done.
  - by rewrite Hr, Hin.
  - by rewrite Hr, <-!app_assoc.
  - rewrite length_app. simpl. lia.
  - rewrite Hr, app_assoc. by eexists.
  - rewrite Hr, app_assoc. by eexists.
Qed.

Lemma write_step_inv peer c c' : conn_inv peer c -> write_step c c' -> conn_inv peer c'.
Proof.
  intros [Hr Hc Hw He Hd] Hs. unfold writer_ok, errs in *.
  destruct Hs as [m E|m E|E Hl|E _]; rewrite E in Hw, He; split; try done;
    unfold writer_ok, errs, handed_wire in *; simpl; try lia; try closed_done.
  - by rewrite omap_app, Hw.
  - rewrite Hw, length_app. simpl. split; [by eexists|lia].
  - rewrite Hw. split; [done|lia].
Qed.

Lemma user_step_inv peer c c' : conn_inv peer c -> user_step c c' -> conn_inv peer c'.
Proof.
  intros [Hr Hc Hw He Hd] Hs. unfold writer_ok, reader_ok, errs, handed_wire in *.
  destruct Hs as [m rch E|n E|m E|m]; split; unfold writer_ok, reader_ok, errs, handed_wire; simpl;
    try done; try lia; try closed_done.
  - rewrite E in Hr. simpl in Hr. destruct (cn_rpc c); rewrite <-!app_assoc; simpl; done.
  - rewrite E in Hc. simpl in Hc. lia.
  - rewrite E in Hw. by rewrite Hw.
  - rewrite E in He. simpl in He. lia.
  - rewrite omap_app. simpl. by rewrite app_nil_r.
Qed.

Lemma set_close_inv peer pc c :
  conn_inv peer c -> (pc = CDone -> cn_rpc c = REnd /\ cn_wpc c = WEnd) -> conn_inv peer (set_close pc c).
Proof. intros [Hr Hc Hw He Hd] Hp. by split. Qed.

Lemma conn_step_inv peer c c' : conn_inv peer c -> conn_step c c' -> conn_inv peer c'.
Proof.
  intros Hi [c1 Hs|c1 Hs|c1 Hs|c1 Hs|E]; [by eapply read_step_inv|by eapply write_step_inv|
    by eapply user_step_inv| |by apply set_close_inv].
  destruct Hs as [E|E E1 E2]; by apply set_close_inv.
Qed.

Lemma conn_steps_inv peer c c' : conn_inv peer c -> rtc conn_step c c' -> conn_inv peer c'.
Proof. intros Hi Hr. revert Hi. induction Hr; eauto using conn_step_inv. Qed.

Lemma conn_reach_inv peer c : rtc conn_step (NewConn peer) c -> conn_inv peer c.
Proof. apply conn_steps_inv, NewConn_inv. Qed.

Lemma reader_prefix peer c : reader_ok peer c -> cn_read c ++ cn_rch c `prefix_of` peer.
Proof. unfold reader_ok. destruct (cn_rpc c); [intros ->..|done]; rewrite app_assoc; by eexists. Qed.

Lemma writer_lag c : writer_ok c ->
  handed_wire c `prefix_of` cn_handed c /\ length (cn_handed c) <= S (length (handed_wire c)).
Proof.
  unfold writer_ok. destruct (cn_wpc c); [intros ->; split; [done|lia]|intros ->|done..].
  rewrite length_app. simpl. split; [by eexists|lia].
Qed.

(** C28: whatever the interleaving of the two goroutines, the handlers and
    [Close], the handlers read the messages of the peer in their order and none
    twice, at most 1024 wait; the messages of [SendMsg] are written in the order
    they were handed over and none twice, at most one is not written, none when
    the writer waits; the channel of errors never fills and nobody uses it after
    it was closed. *)
Theorem conn_fifo peer c : rtc conn_step (NewConn peer) c ->
  cn_read c ++ cn_rch c `prefix_of` peer /\ length (cn_rch c) <= rch_cap /\
  (handed_wire c `prefix_of` cn_handed c /\ length (cn_handed c) <= S (length (handed_wire c))) /\
  (cn_wpc c = WIdle -> handed_wire c = cn_handed c) /\
  cn_errc c <= errc_cap /\ (cn_close c = CDone -> cn_rpc c = REnd /\ cn_wpc c = WEnd).
Proof.
  intros [Hr Hc Hw He Hd]%conn_reach_inv.
  split; [by apply reader_prefix|]. split; [done|]. split; [by apply writer_lag|].
  split; [unfold writer_ok in Hw; intros E; by rewrite E in Hw|]. split; [|done].
  unfold errs, errc_cap in *. destruct (cn_rpc c), (cn_wpc c); lia.
Qed.

(** ** The end *)

Definition read_rank (c : conn) : nat :=
  2 * length (cn_in c) + match cn_rpc c with RSend _ => 4 | RDecode => 3 | RErr => 1 | REnd => 0 end.
Definition write_rank (c : conn) : nat :=
  match cn_wpc c with WEncode _ => 2 | WIdle | WErr => 1 | WEnd => 0 end.
Definition close_rank (c : conn) : nat :=
  match cn_close c with COpen => 3 | CStop => 2 | CSock => 1 | CDone => 0 end.
Definition conn_rank (c : conn) : nat := read_rank c + write_rank c + close_rank c.

(** A step of the goroutines or of [Close]. *)
Definition own_step (c c' : conn) : Prop := read_step c c' \/ write_step c c' \/ close_step c c'.

Lemma conn_step_rank c c' : own_step c c' -> conn_rank c' < conn_rank c.
Proof.
  intros [Hs|[Hs|Hs]]; destruct Hs; unfold conn_rank, read_rank, write_rank, close_rank; simpl;
    repeat match goal with
    | E : cn_rpc c = _ |- _ => rewrite E | E : cn_wpc c = _ |- _ => rewrite E
    | E : cn_close c = _ |- _ => rewrite E | E : cn_in c = _ |- _ => rewrite E
    end; simpl; lia.
Qed.

Lemma conn_steps_rank n c c' : nsteps own_step n c c' -> n <= conn_rank c.
Proof. apply nsteps_rank, conn_step_rank. Qed.

Lemma own_step_conn c c' : own_step c c' -> conn_step c c'.
Proof. intros [Hs|[Hs|Hs]]; eauto using conn_step. Qed.

Lemma own_step_stopped c c' : own_step c c' -> stopped c = true -> stopped c' = true.
Proof. intros [Hs|[Hs|Hs]]; by destruct Hs. Qed.

(** Nothing blocks a connection that is being closed. *)
Lemma stopped_progress peer c :
  conn_inv peer c -> stopped c = true -> cn_close c = CDone \/ exists c', own_step c c'.
Proof.
  intros [_ _ _ He _] Hs. destruct (cn_close c) eqn:Ek; [by unfold stopped in Hs; rewrite Ek in Hs| | |by left]; right.
  { eexists. right; right. by apply k_sock. }
  assert (Hf : sock_closed c = true) by (unfold sock_closed; by rewrite Ek).
  unfold errs in He. destruct (cn_rpc c) eqn:Er.
  - eexists. left. by apply r_fail; [|right].
  - eexists. left. by eapply r_stop.
  - eexists. left. apply r_report; [done|]. unfold errc_cap. destruct (cn_wpc c); lia.
  - destruct (cn_wpc c) eqn:Ew.
    + eexists. right; left. by apply w_stop.
    + eexists. right; left. by eapply w_encode.
    + eexists. right; left. apply w_report; [done|]. unfold errc_cap. lia.
    + eexists. right; right. by apply k_wait.
Qed.

Lemma own_steps_kept peer c c' : rtc own_step c c' -> conn_inv peer c -> stopped c = true ->
  conn_inv peer c' /\ stopped c' = true.
Proof. induction 1; [done|]. intros Hi Hs. eauto using conn_step_inv, own_step_conn, own_step_stopped. Qed.

(** [Close] ends.  Once it was called the goroutines and the rest of [Close]
    take at most [2 n + 8] steps, with [n] messages not yet decoded, and until
    [Close] has returned one of them can step: neither goroutine stays on a
    channel. *)
Lemma close_ends peer c : rtc conn_step (NewConn peer) c -> stopped c = true ->
  (forall n c', nsteps own_step n c c' -> n <= 2 * length (cn_in c) + 8) /\
  (forall c', rtc own_step c c' -> cn_close c' = CDone \/ exists c'', own_step c' c'').
Proof.
  intros Hi%conn_reach_inv Hs. split.
  - intros n c' Hn. apply conn_steps_rank in Hn. unfold conn_rank, read_rank, write_rank, close_rank, stopped in *.
    destruct (cn_rpc c), (cn_wpc c), (cn_close c); try done; lia.
  - intros c' Hr. destruct (own_steps_kept peer c c' Hr Hi Hs). by eapply stopped_progress.
Qed.

(** ** A connection that fails *)

Definition drained (seen : list (option Message)) (c : conn) : Prop :=
  cn_rpc c = REnd /\ cn_rch c = [] /\ cn_read c = seen.

Lemma drained_step seen c c' : conn_step c c' -> drained seen c -> drained seen c'.
Proof.
  intros Hs (Er&Eh&Es).
  destruct Hs as [c1 Hs|c1 Hs|c1 Hs|c1 Hs|E]; [| | | |done]; destruct Hs; try done; congruence.
Qed.

Lemma drained_steps seen c c' : rtc conn_step c c' -> drained seen c -> drained seen c'.
Proof. induction 1; eauto using drained_step. Qed.

(** A reader whose messages are taken as they come. *)
Lemma drain peer : forall c, cn_rpc c = RDecode -> cn_rch c = [] -> cn_in c = peer -> cn_errc c = 0 ->
  exists c', rtc conn_step c c' /\ drained (cn_read c ++ peer) c' /\ cn_close c' = cn_close c.
Proof.
  induction peer as [|m peer IH]; intros c Er Eh Ein Ee.
  - eexists. split.
    + eapply rtc_l; [apply s_read, r_fail; [done|by left]|].
      eapply rtc_l; [apply s_read, r_report; [done|simpl; rewrite Ee; unfold errc_cap; lia]|apply rtc_refl].
    + by rewrite app_nil_r.
  - assert (Hs : exists c1, rtc conn_step c c1 /\ cn_rpc c1 = RDecode /\ cn_rch c1 = [] /\ cn_in c1 = peer /\
      cn_errc c1 = 0 /\ cn_read c1 = cn_read c ++ [m] /\ cn_close c1 = cn_close c).
    { eexists. split.
      - eapply rtc_l; [by apply s_read, (r_decode c m peer)|].
        eapply rtc_l; [apply s_read, (r_push _ m); [done|simpl; rewrite Eh; unfold rch_cap; simpl; lia]|].
        eapply rtc_l; [apply s_user, (u_take _ m []); simpl; by rewrite Eh|apply rtc_refl].
      - done. }
    destruct Hs as (c1&Hr1&Er1&Eh1&Ei1&Ee1&Es1&Ek1). destruct (IH c1 Er1 Eh1 Ei1 Ee1) as (c2&Hr2&Hd&Ek).
    exists c2. split; [by etransitivity|]. rewrite Es1, <-app_assoc in Hd. by rewrite Ek, Ek1.
Qed.

(** A connection whose peer is gone is not closed for the handlers.  For
    every list of messages there is a run that reads all of them and in which the
    reader then ends; from such a state on [Reader] gives neither a message nor
    an end, whatever the handlers, the goroutines and [Close] do. *)
Lemma starves peer :
  (exists c, rtc conn_step (NewConn peer) c /\ drained peer c /\ cn_close c = COpen) /\
  (forall c c', drained peer c -> rtc conn_step c c' -> drained peer c' /\
     (forall m rch, cn_rch c' <> m :: rch)).
Proof.
  split; [by apply (drain peer (NewConn peer))|]. intros c c' Hd Hr.
  pose proof (drained_steps peer c c' Hr Hd) as Hd'. split; [done|].
  intros m rch E. destruct Hd' as (_&Eh&_). congruence.
Qed.

(** C29: how a connection ends.  Once [Close] was called the goroutines and the rest of
    [Close] take at most [2 n + 8] steps, with [n] messages not yet decoded, and until
    [Close] has returned one of them can step: neither goroutine stays on a channel.
    A connection whose peer is gone, though, is not closed for the handlers: for every
    list of messages there is a run that reads all of them and in which the reader then
    ends, and from such a state on [Reader] gives neither a message nor an end, whatever
    the handlers, the goroutines and [Close] do. *)
Theorem conn_ends peer :
  (forall c, rtc conn_step (NewConn peer) c -> stopped c = true ->
     (forall n c', nsteps own_step n c c' -> n <= 2 * length (cn_in c) + 8) /\
     (forall c', rtc own_step c c' -> cn_close c' = CDone \/ exists c'', own_step c' c'')) /\
  (exists c, rtc conn_step (NewConn peer) c /\ drained peer c /\ cn_close c = COpen) /\
  (forall c c', drained peer c -> rtc conn_step c c' -> drained peer c' /\
     (forall m rch, cn_rch c' <> m :: rch)).
Proof. split; [by apply close_ends|apply starves]. Qed.

(** ** Witnesses *)

Module ConnDemo.

Definition ping : Message := {| m_Prefix := None; m_Command := irc.PING; m_Params := ["a"] |}.
Definition pong : Message := {| m_Prefix := None; m_Command := irc.PONG; m_Params := ["a"] |}.

(** The peer's message is read, answered, and the connection is closed. *)
Definition served : conn := {|
  cn_in := []; cn_rpc := RDecode; cn_rch := []; cn_read := [Some ping]; cn_wpc := WIdle; cn_handed := [pong];
  cn_wire := [(false, pong)]; cn_errc := 0; cn_close := CStop |}.

Lemma served_reached : rtc conn_step (NewConn [Some ping]) served.
Proof.
  eapply rtc_l; [by apply s_read, (r_decode _ (Some ping) [])|].
  eapply rtc_l; [apply s_read, (r_push _ (Some ping)); [done|unfold rch_cap; simpl; lia]|].
  eapply rtc_l; [by apply s_user, (u_take _ (Some ping) [])|].
  eapply rtc_l; [by apply s_user, (u_SendMsg _ pong)|].
  eapply rtc_l; [by apply s_write, (w_encode _ pong)|].
  eapply rtc_l; [by apply s_Close|]. apply rtc_refl.
Qed.

End ConnDemo.

Lemma conn_fifo_witness : cn_read ConnDemo.served ++ cn_rch ConnDemo.served `prefix_of` [Some ConnDemo.ping].
Proof. exact (proj1 (conn_fifo [Some ConnDemo.ping] ConnDemo.served ConnDemo.served_reached)). Defined.

Lemma conn_ends_witness : stopped ConnDemo.served = true /\
  (forall n c', nsteps own_step n ConnDemo.served c' -> n <= 8) /\
  (forall c', rtc own_step ConnDemo.served c' -> cn_close c' = CDone \/ exists c'', own_step c' c'').
Proof.
  exact (conj eq_refl (proj1 (conn_ends [Some ConnDemo.ping]) ConnDemo.served ConnDemo.served_reached eq_refl)).
Defined.
