(* ===== verification/User.v ===== *)
(** * Users (user.go) *)

From S2P Require Import Prelude GoLib Mode Msg.

(** ** Data *)

Record UserValue := {
  uv_Nick : string;
  uv_User : list string;
  uv_ServerName : string;
  uv_Mode : ModeValue;
  uv_Host : string;
  uv_RealName : string;
  uv_Created : Z;
  uv_Channels : list string;
  uv_AwayMsg : string;
  uv_Lease : Z;
}.

Global Instance UserValue_eq_dec : EqDecision UserValue.
Proof. solve_decision. Defined.

Definition set_Mode (m : ModeValue) (uv : UserValue) : UserValue := {|
  uv_Nick := uv_Nick uv; uv_User := uv_User uv; uv_ServerName := uv_ServerName uv;
  uv_Mode := m; uv_Host := uv_Host uv; uv_RealName := uv_RealName uv;
  uv_Created := uv_Created uv; uv_Channels := uv_Channels uv;
  uv_AwayMsg := uv_AwayMsg uv; uv_Lease := uv_Lease uv |}.

Definition set_Channels (chs : list string) (uv : UserValue) : UserValue := {|
  uv_Nick := uv_Nick uv; uv_User := uv_User uv; uv_ServerName := uv_ServerName uv;
  uv_Mode := uv_Mode uv; uv_Host := uv_Host uv; uv_RealName := uv_RealName uv;
  uv_Created := uv_Created uv; uv_Channels := chs;
  uv_AwayMsg := uv_AwayMsg uv; uv_Lease := uv_Lease uv |}.

Definition set_AwayMsg (msg : string) (uv : UserValue) : UserValue := {|
  uv_Nick := uv_Nick uv; uv_User := uv_User uv; uv_ServerName := uv_ServerName uv;
  uv_Mode := uv_Mode uv; uv_Host := uv_Host uv; uv_RealName := uv_RealName uv;
  uv_Created := uv_Created uv; uv_Channels := uv_Channels uv;
  uv_AwayMsg := msg; uv_Lease := uv_Lease uv |}.

Definition encodeUserValue `{Gob UserValue} (uv : UserValue) : string := gob_encode uv.
Definition decodeUserValue `{Gob UserValue} (uv : string) : option UserValue := gob_decode uv.

(** ** Operations *)

Fixpoint inChan_loop (chs : list string) (ch : string) : bool :=
  match chs with
  | [] => false
  | c :: chs' => if bool_decide (c = ch) then true else inChan_loop chs' ch
  end.

Definition inChan (uv : UserValue) (ch : string) : bool := inChan_loop (uv_Channels uv) ch.

(** The loop of [part]: the channels without the first [ch], and whether there
    was one. *)
Fixpoint part_loop (chs : list string) (ch : string) : list string * bool :=
  match chs with
  | [] => ([], false)
  | uvch :: chs' =>
    if bool_decide (uvch = ch) then (chs', true)
    else let '(rest, ok) := part_loop chs' ch in (uvch :: rest, ok)
  end.

Definition part (uv : UserValue) (ch : string) : UserValue * bool :=
  let '(chs, ok) := part_loop (uv_Channels uv) ch in (set_Channels chs uv, ok).

Definition stringSliceToMap (ss : list string) : gset string :=
  foldl (fun m s => {[s]} ∪ m) ∅ ss.

(** One iteration of the loop of [pruneInvisible]. *)
Definition prune_one (me : UserValue) (isLocalOp : bool) (uchan : gset string)
    (user : UserValue) : option UserValue :=
  if negb (has (uv_Mode user) "i")
     || (isLocalOp && bool_decide (uv_ServerName user = uv_ServerName me))
  then Some user
  else
    let sharedChannels := filter (fun ch => ch ∈ uchan) (uv_Channels user) in
    if bool_decide (sharedChannels = []) then None
    else Some (set_Channels sharedChannels user).

Definition pruneInvisible (users : list UserValue) (me : UserValue) : list UserValue :=
  if has (uv_Mode me) "O" then users
  else
    let isLocalOp := has (uv_Mode me) "o" in
    let uchan := stringSliceToMap (uv_Channels me) in
    omap (prune_one me isLocalOp uchan) users.

Module UserWire.
Import Wire.
Definition UserValue_gob : Gob UserValue.
Proof.
  refine (gob_of_ser (H := iso_ser
    (A := string * list string * string * list ascii * string * string * Z
          * list string * string * Z)
    (fun u => (uv_Nick u, uv_User u, uv_ServerName u, uv_Mode u, uv_Host u, uv_RealName u,
               uv_Created u, uv_Channels u, uv_AwayMsg u, uv_Lease u))
    (fun '(n, u, sn, m, h, rn, c, chs, am, l) =>
      {| uv_Nick := n; uv_User := u; uv_ServerName := sn; uv_Mode := m; uv_Host := h;
         uv_RealName := rn; uv_Created := c; uv_Channels := chs; uv_AwayMsg := am;
         uv_Lease := l |}) _)).
  by intros [].
Defined.
End UserWire.

(** ** Lemmas *)

Lemma inChan_spec uv ch : inChan uv ch = true <-> ch ∈ uv_Channels uv.
Proof.
  unfold inChan. induction (uv_Channels uv) as [|c l IH]; simpl.
  - split; [done|by intros ?%not_elem_of_nil].
  - rewrite elem_of_cons. case_bool_decide; naive_solver.
Qed.

Lemma part_loop_spec chs ch :
  part_loop chs ch
  = (remove_first (fun c => bool_decide (ch = c)) chs, bool_decide (ch ∈ chs)).
Proof.
  induction chs as [|c l IH]; simpl.
  - done.
  - destruct (decide (c = ch)) as [->|Hne].
    + rewrite !bool_decide_true by (auto; by left). done.
    + rewrite !(bool_decide_false (c = ch)), (bool_decide_false (ch = c)) by auto.
      rewrite IH. f_equal. apply bool_decide_ext. rewrite elem_of_cons. naive_solver.
Qed.

Lemma part_spec uv ch :
  part uv ch
  = (set_Channels (remove_first (fun c => bool_decide (ch = c)) (uv_Channels uv)) uv,
     bool_decide (ch ∈ uv_Channels uv)).
Proof. unfold part. by rewrite part_loop_spec. Qed.

Lemma elem_of_stringSliceToMap ss s : s ∈ stringSliceToMap ss <-> s ∈ ss.
Proof.
  unfold stringSliceToMap.
  enough (forall acc, s ∈ foldl (fun (m : gset string) s => {[s]} ∪ m) acc ss
                      <-> s ∈ acc \/ s ∈ ss) as Hgen.
  { rewrite Hgen. set_solver. }
  induction ss as [|x ss IH]; intros acc; simpl; [set_solver|].
  rewrite IH. set_solver.
Qed.

(** Who may see an invisible user: a global operator, a local operator of the
    user's server, and a user who shares a channel. *)
Definition may_see (me user : UserValue) : Prop :=
  "O"%char ∈ uv_Mode me \/ "i"%char ∉ uv_Mode user \/
  ("o"%char ∈ uv_Mode me /\ uv_ServerName user = uv_ServerName me) \/
  exists ch, ch ∈ uv_Channels user /\ ch ∈ uv_Channels me.

(** The channels of [user] that [me] is shown. *)
Definition shown_channels (me user : UserValue) (chs : list string) : Prop :=
  if has (uv_Mode me) "O" || negb (has (uv_Mode user) "i")
     || (has (uv_Mode me) "o" && bool_decide (uv_ServerName user = uv_ServerName me))
  then chs = uv_Channels user
  else chs = filter (fun ch => ch ∈ uv_Channels me) (uv_Channels user).

Lemma shown_channels_total me user : exists chs, shown_channels me user chs.
Proof. unfold shown_channels. case_match; by eexists. Qed.

Lemma filter_stringSliceToMap (chs ss : list string) :
  filter (fun ch => ch ∈ stringSliceToMap ss) chs = filter (fun ch => ch ∈ ss) chs.
Proof. apply list_filter_iff. intros. apply elem_of_stringSliceToMap. Qed.

Lemma prune_one_spec me user u :
  has (uv_Mode me) "O" = false ->
  prune_one me (has (uv_Mode me) "o") (stringSliceToMap (uv_Channels me)) user = Some u <->
  may_see me user /\ exists chs, u = set_Channels chs user /\ shown_channels me user chs.
Proof.
  intros HO. unfold prune_one, may_see, shown_channels. rewrite HO. simpl.
  rewrite filter_stringSliceToMap. apply has_false in HO.
  destruct (negb (has (uv_Mode user) "i")
    || (has (uv_Mode me) "o" && bool_decide (uv_ServerName user = uv_ServerName me))) eqn:E.
  - assert (set_Channels (uv_Channels user) user = user) as Hid by by destruct user.
    split; [intros [= <-]|intros (_&chs&->&->); by rewrite Hid].
    split; [|by exists (uv_Channels user)].
    right. apply orb_true_iff in E as [E|E].
    + left. by apply has_false, negb_true_iff.
    + right; left. apply andb_true_iff in E as [?%has_spec ?%bool_decide_eq_true].
      done.
  - apply orb_false_iff in E as [Ei Eo]. apply negb_false_iff, has_spec in Ei.
    set (shared := filter (fun ch => ch ∈ uv_Channels me) (uv_Channels user)).
    destruct shared as [|ch l] eqn:Hf; unfold shared in Hf; simpl.
    + split; [done|]. intros ([?|[?|[[Ho Hs]|(ch&Hu&Hm)]]]&_); try done.
      * apply has_spec in Ho. rewrite Ho, bool_decide_true in Eo; done.
      * assert (ch ∈ filter (fun ch => ch ∈ uv_Channels me) (uv_Channels user)) as Hin
          by by apply list_elem_of_filter.
        rewrite Hf in Hin. by apply not_elem_of_nil in Hin.
    + split; [intros [= <-]|intros (_&chs&->&->); done].
      split; [|eauto]. do 3 right.
      assert (ch ∈ filter (fun ch => ch ∈ uv_Channels me) (uv_Channels user)) as Hin
        by (rewrite Hf; by left).
      apply list_elem_of_filter in Hin. naive_solver.
Qed.

(** ** Theorems *)

(** What WHO and NAMES show of a list of users: a user appears exactly when
    the asker may see it (the user is not invisible, the asker is a global
    operator or a local operator of the user's server, or they share a channel),
    and of an invisible user an asker without operator rights only learns the
    channels they share. *)
Lemma pruneInvisible_spec users me u :
  u ∈ pruneInvisible users me <->
  exists user chs, user ∈ users /\ may_see me user /\
    shown_channels me user chs /\ u = set_Channels chs user.
Proof.
  unfold pruneInvisible. destruct (has (uv_Mode me) "O") eqn:HO.
  - unfold shown_channels. rewrite HO. simpl. split.
    + intros Hu. exists u, (uv_Channels u). split_and!; try done.
      * left. by apply has_spec.
      * by destruct u.
    + intros (user&chs&Hu&_&->&->). by destruct user.
  - rewrite list_elem_of_omap. split.
    + intros (user&Hin&Hone). apply prune_one_spec in Hone as (?&chs&?&?); [|done].
      exists user, chs. done.
    + intros (user&chs&Hin&?&?&->). exists user. split; [done|].
      apply prune_one_spec; eauto.
Qed.
