(* ===== verification/Channel.v ===== *)
(** * Channels (channel.go) *)

From S2P Require Import Prelude GoLib Mode Msg.

(** ** Data *)

Record ChannelCtl := {
  cc_Name : string;
  cc_Topic : string;
  cc_Mode : ModeValue;
  cc_Created : Z;
}.

Record ChannelNick := {
  cn_Nick : string;
  cn_Mode : ModeValue;
}.

Record ChannelNicks := {
  cns_Nicks : list ChannelNick;
}.

Global Instance ChannelCtl_eq_dec : EqDecision ChannelCtl.
Proof. solve_decision. Defined.
Global Instance ChannelNick_eq_dec : EqDecision ChannelNick.
Proof. solve_decision. Defined.
Global Instance ChannelNicks_eq_dec : EqDecision ChannelNicks.
Proof. solve_decision. Defined.

Definition set_cc_Mode (m : ModeValue) (cc : ChannelCtl) : ChannelCtl :=
  {| cc_Name := cc_Name cc; cc_Topic := cc_Topic cc; cc_Mode := m;
     cc_Created := cc_Created cc |}.

Definition set_cc_Topic (t : string) (cc : ChannelCtl) : ChannelCtl :=
  {| cc_Name := cc_Name cc; cc_Topic := t; cc_Mode := cc_Mode cc;
     cc_Created := cc_Created cc |}.

Definition encodeChannelCtl `{Gob ChannelCtl} (cc : ChannelCtl) : string := gob_encode cc.
Definition decodeChannelCtl `{Gob ChannelCtl} (cc : string) : option ChannelCtl :=
  gob_decode cc.
Definition encodeChannelNicks `{Gob ChannelNicks} (cn : ChannelNicks) : string :=
  gob_encode cn.
Definition decodeChannelNicks `{Gob ChannelNicks} (cn : string) : option ChannelNicks :=
  gob_decode cn.

(** ** Operations *)

Definition nicks (cns : ChannelNicks) : list string := cn_Nick <$> cns_Nicks cns.

Fixpoint find_loop (l : list ChannelNick) (nick : string) : option ChannelNick :=
  match l with
  | [] => None
  | cn :: l' => if bool_decide (cn_Nick cn = nick) then Some cn else find_loop l' nick
  end.

(** The source returns a pointer into the slice; its callers only read it. *)
Definition find (cns : ChannelNicks) (nick : string) : option ChannelNick :=
  find_loop (cns_Nicks cns) nick.

Fixpoint cns_del_loop (l : list ChannelNick) (nick : string) : list ChannelNick * bool :=
  match l with
  | [] => ([], false)
  | u :: l' =>
    if bool_decide (cn_Nick u = nick) then (l', true)
    else let '(rest, ok) := cns_del_loop l' nick in (u :: rest, ok)
  end.

Definition cns_del (cu : ChannelNicks) (nick : string) : ChannelNicks * bool :=
  let '(l, ok) := cns_del_loop (cns_Nicks cu) nick in ({| cns_Nicks := l |}, ok).

Module ChannelWire.
Import Wire.
Definition ChannelCtl_gob : Gob ChannelCtl.
Proof.
  refine (gob_of_ser (H := iso_ser (A := string * string * list ascii * Z)
    (fun c => (cc_Name c, cc_Topic c, cc_Mode c, cc_Created c))
    (fun '(n, t, m, c) =>
      {| cc_Name := n; cc_Topic := t; cc_Mode := m; cc_Created := c |}) _)).
  by intros [].
Defined.

Definition ChannelNick_ser : Ser ChannelNick.
Proof.
  refine (iso_ser (A := string * list ascii) (fun c => (cn_Nick c, cn_Mode c))
    (fun '(n, m) => {| cn_Nick := n; cn_Mode := m |}) _).
  by intros [].
Defined.
Local Existing Instance ChannelNick_ser.

Definition ChannelNicks_gob : Gob ChannelNicks.
Proof.
  refine (gob_of_ser (H := iso_ser (A := list ChannelNick) cns_Nicks Build_ChannelNicks _)).
  by intros [].
Defined.
End ChannelWire.

(** ** Lemmas *)

Lemma find_spec cns nick :
  match find cns nick with
  | Some cn => cn ∈ cns_Nicks cns /\ cn_Nick cn = nick
  | None => nick ∉ nicks cns
  end.
Proof.
  unfold find, nicks. induction (cns_Nicks cns) as [|c l IH]; simpl.
  - apply not_elem_of_nil.
  - case_bool_decide; subst; [by split; [left|]|].
    destruct (find_loop l nick); [destruct IH; split; [by right|done]|].
    rewrite not_elem_of_cons. auto.
Qed.

Lemma find_Some cns nick cn :
  find cns nick = Some cn -> cn ∈ cns_Nicks cns /\ cn_Nick cn = nick.
Proof. intros E. pose proof (find_spec cns nick) as H. by rewrite E in H. Qed.

Lemma find_None cns nick : find cns nick = None <-> nick ∉ nicks cns.
Proof.
  pose proof (find_spec cns nick) as H. destruct (find cns nick) as [cn|].
  - split; [done|]. destruct H as [H <-]. intros []. by apply list_elem_of_fmap_2.
  - done.
Qed.

(** [del] removes the first entry of the nick from the list of nicks. *)
Lemma nicks_cns_del cns nick :
  nicks (cns_del cns nick).1
  = remove_first (fun c => bool_decide (nick = c)) (nicks cns).
Proof.
  unfold cns_del, nicks. induction (cns_Nicks cns) as [|c l IH]; simpl; [done|].
  destruct (decide (cn_Nick c = nick)) as [->|Hne].
  - rewrite !bool_decide_true by done. done.
  - rewrite (bool_decide_false (cn_Nick c = nick)), (bool_decide_false (nick = cn_Nick c))
      by auto.
    destruct (cns_del_loop l nick) as [rest ok]. simpl in *. f_equal. apply IH.
Qed.

Lemma cns_del_ok cns nick : (cns_del cns nick).2 = bool_decide (nick ∈ nicks cns).
Proof.
  unfold cns_del, nicks. induction (cns_Nicks cns) as [|c l IH]; simpl.
  - done.
  - destruct (decide (cn_Nick c = nick)) as [->|Hne].
    + rewrite !bool_decide_true by (auto; by left). done.
    + rewrite (bool_decide_false (cn_Nick c = nick)) by auto.
      destruct (cns_del_loop l nick) as [rest ok]. simpl in *. rewrite IH.
      apply bool_decide_ext. rewrite elem_of_cons. naive_solver.
Qed.

Lemma occurs_nicks_del cns nick n :
  occurs n (nicks (cns_del cns nick).1)
  = if decide (n = nick) then occurs n (nicks cns) - 1 else occurs n (nicks cns).
Proof.
  rewrite nicks_cns_del. case_decide; subst;
    [apply occurs_remove_first_eq|by apply occurs_remove_first_ne].
Qed.
