(* ===== verification/Key.v ===== *)
(** * Key names and their encoding (key.go)

    The names under which users, channels and operators are stored, and
    [keyEncoder], which replaces the third segment of a key by an encoded one
    and leaves the rest readable, so that prefix queries still work. *)

From S2P Require Import Prelude GoLib.

(** ** Key names *)

Definition keyUserCtl (n : string) : string := "/user/ctl/" +:+ n.
Definition keyUserMsg (n : string) : string := "/user/msg/" +:+ n.
Definition keyChanCtl (ch : string) : string := "/chan/ctl/" +:+ ch.
Definition keyChanMsg (ch : string) : string := "/chan/msg/" +:+ ch.
Definition keyChanNicksPfx (ch : string) : string := "/chan/nicks/" +:+ ch +:+ "/".
Definition keyChanNicks (ch : string) (id : Z) : string :=
  "/chan/nicks/" +:+ ch +:+ "/" +:+ fmt_x id.
Definition keyOperCtl (n : string) : string := "/oper/ctl/" +:+ n.

Definition isChan (ch : string) : bool :=
  match ch with
  | "" => false
  | String c _ => bool_decide (c = "#"%char)
  end.

(** ** The encoder interface (keyencode/encode.go) *)

Record KeyEncoder := {
  Encode : string -> outcome string;
  Decode : string -> outcome string;
}.

(** What an encoder promises on the strings of [P]: encoding succeeds, and
    decoding gives the string back. *)
Class LawfulEncoder (ke : KeyEncoder) (P : string -> Prop) := {
  encode_total s : P s -> exists e, Encode ke s = Ok e;
  decode_encode s e : P s -> Encode ke s = Ok e -> Decode ke e = Ok s;
}.

Definition nopKeyEncoder : KeyEncoder := {|
  Encode := fun s => Ok s;
  Decode := fun s => Ok s;
|}.

(** ** keyEncoder *)

Definition keyIdxType : nat := 1.
Definition keyIdxSubtype : nat := 2.
Definition keyIdxData : nat := 3.

Definition known_subtype (ty sub : string) : bool :=
  if bool_decide (ty = "user") then bool_decide (sub = "msg") || bool_decide (sub = "ctl")
  else if bool_decide (ty = "chan")
  then bool_decide (sub = "msg") || bool_decide (sub = "ctl") || bool_decide (sub = "nicks")
  else bool_decide (ty = "oper").

(** Split a key into its segments; a key that is none of ours panics. *)
Definition splitKey (s : string) : outcome (list string) :=
  let ss := Split slash s in
  if bool_decide (length ss <= keyIdxData) then Panic
  else
    ty ← or_panic (ss !! keyIdxType);
    sub ← or_panic (ss !! keyIdxSubtype);
    if known_subtype ty sub then Ok ss else Panic.

Definition keyEncoder_Encode (ke : KeyEncoder) (s : string) : outcome string :=
  ss ← splitKey s;
  data ← or_panic (ss !! keyIdxData);
  if bool_decide (String.length data = 0) then Ok s
  else
    sse ← Encode ke (Join "/" (take (keyIdxData + 1) ss));
    Ok (Join "/" (<[3 := fmt_d (String.length sse) +:+ "/" +:+ sse]> ss)).

Definition keyEncoder_Decode (ke : KeyEncoder) (s : string) : outcome string :=
  ss ← splitKey s;
  data ← or_panic (ss !! keyIdxData);
  enclen ← or_panic (Sscanf_d data);
  if (enclen <? 0)%Z then Panic
  else
    let enclen := Z.to_nat enclen in
    let pfxlen := String.length (Join "/" (take (keyIdxData + 1) ss)) in
    seg ← or_panic (str_slice s (pfxlen + 1) (pfxlen + enclen + 1));
    dec ← Decode ke seg;
    d ← or_panic (Split slash dec !! keyIdxData);
    ty ← or_panic (ss !! keyIdxType);
    sub ← or_panic (ss !! keyIdxSubtype);
    rest ← or_panic (str_slice s (pfxlen + enclen + 1) (String.length s));
    Ok ("/" +:+ ty +:+ "/" +:+ sub +:+ "/" +:+ d +:+ rest).

Definition NewKeyEncoder (ke : KeyEncoder) : KeyEncoder := {|
  Encode := keyEncoder_Encode ke;
  Decode := keyEncoder_Decode ke;
|}.

(** ** Which names collide *)

Section names.

Global Instance keyUserCtl_inj : Inj (=) (=) keyUserCtl.
Proof. intros ?? H. by apply (inj _) in H. Qed.
Global Instance keyUserMsg_inj : Inj (=) (=) keyUserMsg.
Proof. intros ?? H. by apply (inj _) in H. Qed.
Global Instance keyChanCtl_inj : Inj (=) (=) keyChanCtl.
Proof. intros ?? H. by apply (inj _) in H. Qed.
Global Instance keyChanMsg_inj : Inj (=) (=) keyChanMsg.
Proof. intros ?? H. by apply (inj _) in H. Qed.
Global Instance keyOperCtl_inj : Inj (=) (=) keyOperCtl.
Proof. intros ?? H. by apply (inj _) in H. Qed.

(** The session id holds no slash, so the last slash separates it from the
    channel, even when the channel name holds slashes of its own. *)
Global Instance keyChanNicks_inj : Inj2 (=) (=) (=) keyChanNicks.
Proof.
  intros ch1 id1 ch2 id2 H. apply (inj (String.append "/chan/nicks/")) in H.
  apply app_sep_inj in H as [-> ?%(inj fmt_x)]; auto using has_slash_fmt_x.
Qed.

End names.

(** Keys of different kinds differ. *)
Ltac key_discriminate :=
  let H := fresh in
  intros H; unfold keyUserCtl, keyUserMsg, keyChanCtl, keyChanMsg, keyChanNicks,
    keyChanNicksPfx, keyOperCtl in H; simpl in H; discriminate H.

#[export] Hint Extern 1 (_ <> _) => key_discriminate : ircd.
#[export] Hint Extern 1 (?x ≠ ?y) => (intros ?; simplify_eq; done) : ircd.

Lemma isChan_spec ch : isChan ch = true <-> exists r, ch = String "#" r.
Proof. destruct ch as [|c r]; simpl; [naive_solver|]. rewrite bool_decide_eq_true. naive_solver. Qed.

(** ** The shape of a key

    [key_of ty sub d tail] is [/ty/sub/d] followed by [tail]. *)

Definition key_head (ty sub : string) : string := "/" +:+ ty +:+ "/" +:+ sub +:+ "/".
Definition key_of (ty sub d tail : string) : string := key_head ty sub +:+ d +:+ tail.

(** What may follow the third segment: nothing, or further segments. *)
Definition tail_ok (tail : string) : Prop := tail = "" \/ exists t, tail = String slash t.

Record key_shape (ty sub d tail : string) : Prop := {
  ks_known : known_subtype ty sub = true;
  ks_ty : has_byte slash ty = false;
  ks_sub : has_byte slash sub = false;
  ks_data : has_byte slash d = false;
  ks_tail : tail_ok tail;
}.

Lemma Split_head ty sub s :
  has_byte slash ty = false -> has_byte slash sub = false ->
  Split slash (key_head ty sub +:+ s) = "" :: ty :: sub :: Split slash s.
Proof.
  intros Hty Hsub.
  assert (key_head ty sub +:+ s
    = "" +:+ String slash (ty +:+ String slash (sub +:+ String slash s))) as ->.
  { unfold key_head. by rewrite !str_app_assoc. }
  by rewrite !Split_app_sep.
Qed.

(** The segments after the third. *)
Definition tail_segs (tail : string) : list string :=
  match tail with "" => [] | String _ t => Split slash t end.

Lemma Split_key ty sub d tail :
  key_shape ty sub d tail ->
  Split slash (key_of ty sub d tail) = "" :: ty :: sub :: d :: tail_segs tail.
Proof.
  intros [_ Hty Hsub Hd Ht]. unfold key_of. rewrite Split_head by done. do 3 f_equal.
  destruct Ht as [->|[t ->]]; simpl.
  - by rewrite str_app_nil_r, Split_no_sep.
  - by rewrite Split_app_sep.
Qed.

Lemma splitKey_key ty sub d tail :
  key_shape ty sub d tail ->
  splitKey (key_of ty sub d tail) = Ok ("" :: ty :: sub :: d :: tail_segs tail).
Proof.
  intros Hk. unfold splitKey. rewrite Split_key by done. simpl.
  by rewrite (ks_known _ _ _ _ Hk).
Qed.

Lemma Join_head ty sub d tail :
  tail_ok tail -> Join "/" ("" :: ty :: sub :: d :: tail_segs tail) = key_of ty sub d tail.
Proof.
  intros Ht. unfold key_of, key_head. rewrite !Join_cons by done.
  rewrite !str_app_assoc. change ("" +:+ ?x) with x. do 5 f_equal.
  destruct Ht as [->|[t ->]].
  - by rewrite str_app_nil_r.
  - change (tail_segs (String slash t)) with (Split slash t).
    rewrite Join_cons by apply Split_not_nil.
    change "/" with (String slash ""). by rewrite Join_Split.
Qed.

(** The encoded key: the length and the bytes of the encoded head, then the
    segments after the third as they were. *)
Definition enc_key (ty sub sse tail : string) : string :=
  key_head ty sub +:+ fmt_d (String.length sse) +:+ "/" +:+ sse +:+ tail.

(** Run the monad and the lookups of the segments, nothing else. *)
Ltac step_outcome :=
  cbn [mbind outcome_mbind outcome_bind or_panic lookup list_lookup take Nat.add
       keyIdxData keyIdxType keyIdxSubtype].

Section keyEncoder.
Context (ke : KeyEncoder).

Lemma Encode_key ty sub d tail sse :
  key_shape ty sub d tail -> d <> "" ->
  Encode ke (key_of ty sub d "") = Ok sse ->
  Encode (NewKeyEncoder ke) (key_of ty sub d tail) = Ok (enc_key ty sub sse tail).
Proof.
  intros Hk Hd He. simpl. unfold keyEncoder_Encode. rewrite splitKey_key by done. simpl.
  rewrite bool_decide_false by by destruct d.
  change (take 0 (tail_segs tail)) with (tail_segs "").
  rewrite Join_head by by left. rewrite He. simpl. f_equal.
  rewrite Join_head by apply Hk. unfold key_of, enc_key. by rewrite !str_app_assoc.
Qed.

(** A key without a third segment is its own encoding: the prefix of a query
    for all users or all channels. *)
Lemma Encode_key_empty ty sub tail :
  key_shape ty sub "" tail ->
  Encode (NewKeyEncoder ke) (key_of ty sub "" tail) = Ok (key_of ty sub "" tail).
Proof.
  intros Hk. simpl. unfold keyEncoder_Encode. by rewrite splitKey_key.
Qed.

Lemma Split_enc_key ty sub sse tail :
  has_byte slash ty = false -> has_byte slash sub = false ->
  Split slash (enc_key ty sub sse tail)
  = "" :: ty :: sub :: fmt_d (String.length sse) :: Split slash (sse +:+ tail).
Proof.
  intros Hty Hsub. unfold enc_key. rewrite Split_head by done. do 3 f_equal.
  change ("/" +:+ ?x) with (String slash x).
  rewrite Split_app_sep; [done|]. by apply has_byte_fmt_d.
Qed.

Lemma Decode_enc_key ty sub d tail sse :
  key_shape ty sub d tail ->
  (Z.of_nat (String.length sse) < 2 ^ 63)%Z ->
  Decode ke sse = Ok (key_of ty sub d "") ->
  Decode (NewKeyEncoder ke) (enc_key ty sub sse tail) = Ok (key_of ty sub d tail).
Proof.
  intros Hk Hlen Hdec. simpl. unfold keyEncoder_Decode, splitKey.
  rewrite Split_enc_key by apply Hk.
  rewrite bool_decide_false by (unfold keyIdxData; simpl; lia). step_outcome.
  rewrite (ks_known _ _ _ _ Hk). step_outcome.
  pose proof (Sscanf_fmt_d (String.length sse) "" Hlen) as Hscan.
  rewrite str_app_nil_r in Hscan. rewrite Hscan by done. step_outcome.
  destruct (Z.ltb_spec (Z.of_nat (String.length sse)) 0); [lia|]. rewrite Nat2Z.id.
  set (pfx := key_head ty sub +:+ fmt_d (String.length sse)).
  change (take 0 (Split slash (sse +:+ tail))) with (tail_segs "").
  assert (Join "/" ("" :: ty :: sub :: fmt_d (String.length sse) :: tail_segs "") = pfx) as ->.
  { rewrite Join_head by by left. unfold key_of, pfx. by rewrite str_app_nil_r. }
  assert (enc_key ty sub sse tail = (pfx +:+ "/") +:+ sse +:+ tail) as Heq.
  { unfold enc_key, pfx. by rewrite !str_app_assoc. }
  assert (String.length (pfx +:+ "/") = String.length pfx + 1) as Hp
    by (rewrite str_length_app; done).
  replace (String.length pfx + String.length sse + 1)
    with (String.length (pfx +:+ "/") + String.length sse) by lia.
  rewrite <-Hp, Heq, str_slice_mid. step_outcome. rewrite Hdec. step_outcome.
  rewrite Split_key by (destruct Hk; split; auto; by left). step_outcome.
  rewrite <-(str_app_assoc (pfx +:+ "/") sse), <-(str_length_app (pfx +:+ "/") sse).
  rewrite str_slice_tail. step_outcome. unfold key_of, key_head. by rewrite !str_app_assoc.
Qed.

End keyEncoder.

(** The keys [keyEncoder] can store: the third segment is there, and the inner
    encoder encodes the head of the key within the length of a Go string. *)
Definition storable (ke : KeyEncoder) (P : string -> Prop) (s : string) : Prop :=
  exists ty sub d tail sse, s = key_of ty sub d tail /\ key_shape ty sub d tail /\
    d <> "" /\ P (key_of ty sub d "") /\
    Encode ke (key_of ty sub d "") = Ok sse /\ (Z.of_nat (String.length sse) < 2 ^ 63)%Z.

Lemma key_head_inj ty sub ty' sub' x y :
  has_byte slash ty = false -> has_byte slash sub = false ->
  has_byte slash ty' = false -> has_byte slash sub' = false ->
  key_head ty sub +:+ x = key_head ty' sub' +:+ y -> ty = ty' /\ sub = sub' /\ x = y.
Proof.
  intros ???? H. unfold key_head in H. rewrite !str_app_assoc in H.
  apply (inj (String.append "/")) in H.
  apply app_first_sep_inj in H as [-> H]; [|done..].
  apply app_first_sep_inj in H as [-> H]; done.
Qed.

(** The length in front of the encoded segment makes encoded keys unambiguous. *)
Lemma enc_key_prefix_inj ty sub sse ty' sub' sse' x y :
  has_byte slash ty = false -> has_byte slash sub = false ->
  has_byte slash ty' = false -> has_byte slash sub' = false ->
  enc_key ty sub sse x = enc_key ty' sub' sse' y ->
  ty = ty' /\ sub = sub' /\ sse = sse' /\ x = y.
Proof.
  intros ???? H. unfold enc_key in H. apply key_head_inj in H as (->&->&H); [|done..].
  apply app_first_sep_inj in H as [Hl H]; [|by apply has_byte_fmt_d..].
  apply (inj fmt_d) in Hl. apply str_app_inj_len in H as [-> ->]; done.
Qed.

Lemma chan_nicks_shape ch tail :
  has_byte slash ch = false -> tail_ok tail -> key_shape "chan" "nicks" ch tail.
Proof. by split. Qed.

(** Encoded keys with an encoded prefix: the inner encoder keeps heads apart. *)
Lemma enc_key_prefix_iff (ke : KeyEncoder) P ty sub d ty' sub' d' tail' sse sse' :
  LawfulEncoder ke P ->
  key_shape ty sub d "/" -> key_shape ty' sub' d' tail' -> P (key_of ty sub d "") -> P (key_of ty' sub' d' "") ->
  Encode ke (key_of ty sub d "") = Ok sse -> Encode ke (key_of ty' sub' d' "") = Ok sse' ->
  HasPrefix (enc_key ty' sub' sse' tail') (enc_key ty sub sse "/") = true <->
  HasPrefix (key_of ty' sub' d' tail') (key_of ty sub d "/") = true.
Proof.
  intros Hke Hk Hk' HP HP' Henc Henc'. rewrite !HasPrefix_spec.
  assert (forall t, enc_key ty sub sse "/" +:+ t = enc_key ty sub sse (String slash t)) as Hsl.
  { intros t. unfold enc_key. by rewrite !str_app_assoc. }
  pose proof (ks_data _ _ _ _ Hk) as Hd. pose proof (ks_data _ _ _ _ Hk') as Hd'.
  split; intros [t Ht].
  - rewrite Hsl in Ht. apply enc_key_prefix_inj in Ht as (->&->&->&->);
      try apply Hk'; try apply Hk.
    pose proof (decode_encode _ _ HP' Henc') as E1. rewrite (decode_encode _ _ HP Henc) in E1.
    injection E1 as E1. apply (inj _) in E1. rewrite !str_app_nil_r in E1. subst. exists t.
    unfold key_of. by rewrite !str_app_assoc.
  - unfold key_of in Ht. rewrite !str_app_assoc in Ht.
    apply key_head_inj in Ht as (->&->&Ht); try apply Hk'; try apply Hk.
    destruct (ks_tail _ _ _ _ Hk') as [->|[t' ->]].
    + rewrite str_app_nil_r in Ht. rewrite Ht, has_byte_app in Hd'. simpl in Hd'.
      by rewrite orb_true_r in Hd'.
    + apply app_first_sep_inj in Ht as [-> ->]; [|done..].
      rewrite Henc in Henc'. injection Henc' as <-. exists t. by rewrite Hsl.
Qed.

(** The shape of a key is unique. *)
Lemma key_of_inj ty sub d tail ty' sub' d' tail' :
  key_shape ty sub d tail -> key_shape ty' sub' d' tail' ->
  key_of ty sub d tail = key_of ty' sub' d' tail' -> ty = ty' /\ sub = sub' /\ d = d' /\ tail = tail'.
Proof.
  intros Hk Hk' Heq. unfold key_of in Heq.
  apply key_head_inj in Heq as (->&->&Heq); try apply Hk; try apply Hk'.
  pose proof (ks_data _ _ _ _ Hk) as Hd. pose proof (ks_data _ _ _ _ Hk') as Hd'.
  destruct (ks_tail _ _ _ _ Hk) as [->|[t ->]], (ks_tail _ _ _ _ Hk') as [->|[t' ->]];
    rewrite ?str_app_nil_r in Heq; subst; auto.
  - rewrite has_byte_app in Hd. simpl in Hd. by rewrite orb_true_r in Hd.
  - rewrite has_byte_app in Hd'. simpl in Hd'. by rewrite orb_true_r in Hd'.
  - apply app_first_sep_inj in Heq as [-> ->]; auto.
Qed.

(** [NewKeyEncoder] of a lawful encoder is lawful on storable keys. *)
Lemma keyEncoder_lawful (ke : KeyEncoder) P :
  LawfulEncoder ke P -> LawfulEncoder (NewKeyEncoder ke) (storable ke P).
Proof.
  intros Hke. split.
  - intros s (ty&sub&d&tail&sse&->&?&?&?&?&?). eexists. by apply Encode_key.
  - intros s e (ty&sub&d&tail&sse&->&Hk&Hd&HP&Henc&Hlen) He.
    rewrite (Encode_key ke _ _ _ _ _ Hk Hd Henc) in He. injection He as <-.
    apply Decode_enc_key; [done|done|]. by apply (decode_encode (P := P)).
Qed.

(** The prefixes the daemon asks for: [/ty/sub/] and [/ty/sub/d/]. *)
Inductive query (ke : KeyEncoder) (P : string -> Prop) : string -> Prop :=
  | q_all ty sub : key_shape ty sub "" "" -> query ke P (key_of ty sub "" "")
  | q_name ty sub d : key_shape ty sub d "/" -> storable ke P (key_of ty sub d "/") ->
      query ke P (key_of ty sub d "/").

Lemma HasPrefix_head ty sub ty' sub' x :
  has_byte slash ty = false -> has_byte slash sub = false ->
  has_byte slash ty' = false -> has_byte slash sub' = false ->
  HasPrefix (key_head ty' sub' +:+ x) (key_of ty sub "" "") = true <-> ty = ty' /\ sub = sub'.
Proof.
  intros. unfold key_of. rewrite HasPrefix_spec, !str_app_nil_r. split.
  - intros [t Ht]. apply key_head_inj in Ht as (->&->&_); done.
  - intros [-> ->]. by exists x.
Qed.

(** ** Theorems *)

Global Instance nop_lawful : LawfulEncoder nopKeyEncoder (fun _ => True).
Proof. split; simpl; [eauto|congruence]. Qed.

(** Encoding commutes with prefix queries: the encoded keys that start with
    the encoded prefix [/ty/sub/d/] are those whose plaintext starts with it. *)
Lemma encode_prefix (ke : KeyEncoder) P ty sub d s es ep :
  LawfulEncoder ke P ->
  storable ke P s -> storable ke P (key_of ty sub d "/") ->
  has_byte slash ty = false -> has_byte slash sub = false -> has_byte slash d = false ->
  d <> "" ->
  Encode (NewKeyEncoder ke) s = Ok es ->
  Encode (NewKeyEncoder ke) (key_of ty sub d "/") = Ok ep ->
  HasPrefix es ep = true <-> HasPrefix s (key_of ty sub d "/") = true.
Proof.
  intros Hke (ty'&sub'&d'&tail'&sse'&->&Hk'&Hd'&HP'&Henc'&_)
    (ty0&sub0&d0&tail0&sse&Heq&Hk&_&HP&Henc&_) Hty Hsub Hd Hne Hes Hep.
  assert (known_subtype ty sub = true).
  { pose proof Heq as E. unfold key_of in E. apply key_head_inj in E as (->&->&_); try apply Hk; done. }
  apply key_of_inj in Heq as (<-&<-&<-&<-); [|by split; auto; right; exists ""|done].
  rewrite (Encode_key ke _ _ _ _ _ Hk' Hd' Henc') in Hes. injection Hes as <-.
  rewrite (Encode_key ke _ _ _ _ _ Hk Hne Henc) in Hep. injection Hep as <-.
  by eapply enc_key_prefix_iff.
Qed.

(** C36: decoding an encoded key gives the key back, for every key the daemon stores (a
    known type and subtype and a non-empty name), whatever the name is followed by; so
    [NewKeyEncoder] of a lawful encoder is a lawful one.  And encoding commutes with
    prefix queries: the encoded keys that start with the encoded prefix [/ty/sub/d/]
    are those whose plaintext starts with it. *)
Theorem keyEncoder_codec (ke : KeyEncoder) P :
  LawfulEncoder ke P ->
  LawfulEncoder (NewKeyEncoder ke) (storable ke P) /\
  (forall ty sub d s es ep,
     storable ke P s -> storable ke P (key_of ty sub d "/") ->
     has_byte slash ty = false -> has_byte slash sub = false -> has_byte slash d = false -> d <> "" ->
     Encode (NewKeyEncoder ke) s = Ok es -> Encode (NewKeyEncoder ke) (key_of ty sub d "/") = Ok ep ->
     HasPrefix es ep = true <-> HasPrefix s (key_of ty sub d "/") = true).
Proof.
  intros Hke. split; [by apply keyEncoder_lawful|]. intros. by eapply encode_prefix.
Qed.

(** A name without a slash, and one with more segments, as a storable key. *)
Lemma nop_storable ty sub d tail :
  key_shape ty sub d tail -> d <> "" ->
  (Z.of_nat (String.length (key_of ty sub d "")) < 2 ^ 63)%Z ->
  storable nopKeyEncoder (fun _ => True) (key_of ty sub d tail).
Proof. intros. exists ty, sub, d, tail, (key_of ty sub d ""). done. Qed.

Lemma keyEncoder_codec_witness :
  LawfulEncoder (NewKeyEncoder nopKeyEncoder) (storable nopKeyEncoder (fun _ => True)) /\
  Decode (NewKeyEncoder nopKeyEncoder) "/chan/nicks/14//chan/nicks/#a/ff" = Ok (keyChanNicks "#a" 255) /\
  storable nopKeyEncoder (fun _ => True) (keyChanNicks "#a" 255) /\
  (HasPrefix "/chan/nicks/14//chan/nicks/#a/ff" "/chan/nicks/14//chan/nicks/#a/" = true <->
   HasPrefix (keyChanNicks "#a" 255) (keyChanNicksPfx "#a") = true).
Proof.
  destruct (keyEncoder_codec nopKeyEncoder (fun _ => True) nop_lawful) as [Hl Hp].
  split; [exact Hl|]. split; [vm_compute; reflexivity|].
  assert (storable nopKeyEncoder (fun _ => True) (keyChanNicks "#a" 255)) as Hs.
  { apply (nop_storable "chan" "nicks" "#a" "/ff"); [|done|vm_compute; reflexivity].
    split; try reflexivity. right. by exists "ff". }
  split; [exact Hs|].
  apply (Hp "chan" "nicks" "#a" (keyChanNicks "#a" 255)); try exact Hs; try reflexivity; try done.
  apply (nop_storable "chan" "nicks" "#a" "/"); [|done|vm_compute; reflexivity].
  split; try reflexivity. right. by exists "".
Defined.

(** Which member lists are under the prefix of a channel. *)
Lemma chan_nicks_under ch ch' id :
  HasPrefix (keyChanNicks ch' id) (keyChanNicksPfx ch) = true <->
  ch' = ch \/ exists r, ch' = ch +:+ String slash r.
Proof.
  rewrite HasPrefix_spec. unfold keyChanNicks, keyChanNicksPfx. split.
  - intros [t H]. rewrite !str_app_assoc in H.
    apply (inj (String.append "/chan/nicks/")) in H.
    destruct (has_byte slash t) eqn:Ht.
    + right. clear -H Ht.
      assert (exists t1 t2, t = t1 +:+ String slash t2 /\ has_byte slash t2 = false)
        as (t1&t2&->&Ht2).
      { clear H. induction t as [|a t IH]; [done|]. simpl in Ht.
        destruct (has_byte slash t) eqn:E.
        - destruct IH as (t1&t2&->&?); [done|]. by exists (String a t1), t2.
        - rewrite orb_false_r in Ht. apply bool_decide_eq_true in Ht as ->.
          by exists "", t. }
      exists t1. change ("/" +:+ ?x) with (String slash x) in H.
      rewrite <-str_app_cons, <-str_app_assoc in H.
      apply app_sep_inj in H as [-> _]; auto using has_slash_fmt_x.
    + left. apply app_sep_inj in H as [-> _]; auto using has_slash_fmt_x.
  - intros [->|[r ->]].
    + exists (fmt_x id). by rewrite !str_app_assoc.
    + exists (r +:+ "/" +:+ fmt_x id). by rewrite !str_app_assoc.
Qed.

(** A nick that starts with a slash, which registration accepts, is stored
    under its plaintext key, and decoding that key panics. *)
Lemma slash_nick_not_encoded (ke : KeyEncoder) n :
  Encode (NewKeyEncoder ke) (keyUserCtl (String slash n)) = Ok (keyUserCtl (String slash n)) /\
  Decode (NewKeyEncoder ke) (keyUserCtl (String slash n)) = Panic.
Proof.
  assert (key_shape "user" "ctl" "" (String slash n)) as Hk.
  { split; try reflexivity. right. by exists n. }
  split.
  - apply (Encode_key_empty ke "user" "ctl" (String slash n) Hk).
  - change (keyUserCtl (String slash n)) with (key_of "user" "ctl" "" (String slash n)).
    simpl. unfold keyEncoder_Decode. by rewrite splitKey_key.
Qed.
