(* ===== verification/HmacKey.v ===== *)
(** * The HMAC key encoder (keyencode/encode.go)

    A key is encrypted with a block cipher in counter mode under an initial
    counter taken from the hash of the plaintext, so equal keys have equal
    encodings, and the hash travels in front of the ciphertext.

    The hash and the block cipher are parameters ([hash.Hash] and
    [cipher.Block]); counter mode ([crypto/cipher.NewCTR]) and the padding are
    modelled. *)

From S2P Require Import Prelude GoLib Key.

(** ** Counter mode *)

(** Increment a counter whose least significant byte comes first. *)
Fixpoint incr_le (l : list ascii) : list ascii :=
  match l with
  | [] => []
  | b :: l' =>
    if (N_of_ascii b =? 255)%N then "000"%char :: incr_le l'
    else ascii_of_N (N_of_ascii b + 1) :: l'
  end.

(** [ctr] increments its big-endian counter, wrapping around. *)
Definition ctr_incr (ctr : list ascii) : list ascii := reverse (incr_le (reverse ctr)).

Definition ascii_xor (a b : ascii) : ascii :=
  match a, b with
  | Ascii a0 a1 a2 a3 a4 a5 a6 a7, Ascii b0 b1 b2 b3 b4 b5 b6 b7 =>
    Ascii (xorb a0 b0) (xorb a1 b1) (xorb a2 b2) (xorb a3 b3)
          (xorb a4 b4) (xorb a5 b5) (xorb a6 b6) (xorb a7 b7)
  end.

Section hmac.
(** [hf.Write(p); hf.Sum(nil)] and [hf.Size()] of the hash, [Encrypt] and
    [BlockSize] of the cipher. *)
Context (h : list ascii -> list ascii) (hsize : nat).
Context (E : list ascii -> list ascii) (bs : nat).

Fixpoint keystream (n : nat) (ctr : list ascii) : list ascii :=
  match n with
  | 0 => []
  | S n => E ctr ++ keystream n (ctr_incr ctr)
  end.

(** [ctr.XORKeyStream(dst, src)] for a fresh [ctr]. *)
Definition XORKeyStream (iv src : list ascii) : list ascii :=
  zip_with ascii_xor src (keystream (S (length src / bs)) iv).

(** The pkcs7 padding of a text of [n] bytes: [byte(len)] repeated [len] times. *)
Definition padding (n : nat) : list ascii :=
  let len := bs - n mod bs in replicate len (ascii_of_nat (len mod 256)).

Definition hmac_Encode (s : string) : outcome string :=
  let ptxt := String.list_ascii_of_string s in
  let ptxtHash := h ptxt in
  if bool_decide (bs = 0) then Panic
  else
    let ptxt := ptxt ++ padding (length ptxt) in
    if bool_decide (length ptxtHash < bs) then Panic
    else
      let iv := drop (length ptxtHash - bs) ptxtHash in
      Ok (String.string_of_list_ascii (ptxtHash ++ XORKeyStream iv ptxt)).

Definition hmac_Decode (s : string) : outcome string :=
  let b := String.list_ascii_of_string s in
  if bool_decide (length b < hsize) then Panic
  else
    let ptxtHash := take hsize b in
    let ctxt := drop hsize b in
    if bool_decide (length ptxtHash < bs) || bool_decide (bs = 0) then Panic
    else
      let iv := drop (length ptxtHash - bs) ptxtHash in
      let ptxt := XORKeyStream iv ctxt in
      match list.last ptxt with
      | None => Panic
      | Some c =>
        let padlen := nat_of_ascii c in
        if bool_decide (bs < padlen) then Err ErrBadPkcs7
        else if bool_decide (length ptxt < padlen) then Panic
        else
          let ptxt := take (length ptxt - padlen) ptxt in
          if bool_decide (h ptxt = ptxtHash)
          then Ok (String.string_of_list_ascii ptxt)
          else Err ErrBadHmac
      end.

Definition hmacKeyEncoder : KeyEncoder := {|
  Encode := hmac_Encode;
  Decode := hmac_Decode;
|}.

(** What the daemon relies on: the hash has [hsize] bytes, the cipher maps a
    block to a block, a block is not empty, no longer than the hash, and its
    size fits a byte. *)
Record hmac_params : Prop := {
  hp_hash p : length (h p) = hsize;
  hp_block b : length b = bs -> length (E b) = bs;
  hp_bs : 0 < bs < 256;
  hp_hsize : bs <= hsize;
}.

End hmac.

(** ** Lemmas *)

Lemma ascii_xor_invol a b : ascii_xor (ascii_xor a b) b = a.
Proof.
  destruct a as [a0 a1 a2 a3 a4 a5 a6 a7], b as [b0 b1 b2 b3 b4 b5 b6 b7]; simpl.
  by rewrite !xorb_assoc, !xorb_nilpotent, !xorb_false_r.
Qed.

Lemma length_incr_le l : length (incr_le l) = length l.
Proof. induction l; simpl; [done|]. case_match; simpl; auto. Qed.

Lemma length_ctr_incr l : length (ctr_incr l) = length l.
Proof. unfold ctr_incr. by rewrite length_reverse, length_incr_le, length_reverse. Qed.

Section hmac_lemmas.
Context (h : list ascii -> list ascii) (hsize : nat).
Context (E : list ascii -> list ascii) (bs : nat).
Context (Hp : hmac_params h hsize E bs).

Lemma length_keystream n ctr : length ctr = bs -> length (keystream E n ctr) = n * bs.
Proof.
  revert ctr. induction n as [|n IH]; intros ctr Hc; simpl; [done|].
  rewrite length_app, (hp_block _ _ _ _ Hp), IH by by rewrite ?length_ctr_incr. lia.
Qed.

Lemma keystream_covers iv (src : list ascii) :
  length iv = bs -> length src <= length (keystream E (S (length src / bs)) iv).
Proof.
  intros Hiv. rewrite length_keystream by done.
  pose proof (hp_bs _ _ _ _ Hp). pose proof (Nat.div_mod_eq (length src) bs).
  pose proof (Nat.mod_upper_bound (length src) bs). nia.
Qed.

Lemma length_XORKeyStream iv src :
  length iv = bs -> length (XORKeyStream E bs iv src) = length src.
Proof.
  intros Hiv. unfold XORKeyStream. rewrite length_zip_with.
  pose proof (keystream_covers iv src Hiv). lia.
Qed.

(** Encrypting twice under one counter is the identity. *)
Lemma XORKeyStream_invol iv src :
  length iv = bs -> XORKeyStream E bs iv (XORKeyStream E bs iv src) = src.
Proof.
  intros Hiv. pose proof (keystream_covers iv src Hiv) as Hle.
  pose proof (length_XORKeyStream iv src Hiv) as Hlen.
  unfold XORKeyStream at 1. rewrite Hlen. unfold XORKeyStream.
  generalize dependent (keystream E (S (length src / bs)) iv).
  clear. induction src as [|a src IH]; intros [|k ks] Hle; simpl in *; try done; [lia|].
  rewrite ascii_xor_invol. f_equal. apply IH. lia.
Qed.

Lemma length_iv p : length (drop (hsize - bs) (h p)) = bs.
Proof.
  rewrite length_drop, (hp_hash _ _ _ _ Hp). pose proof (hp_hsize _ _ _ _ Hp). lia.
Qed.

Lemma last_padding n :
  list.last (padding bs n) = Some (ascii_of_nat (bs - n mod bs)) /\
  nat_of_ascii (ascii_of_nat (bs - n mod bs)) = bs - n mod bs /\
  length (padding bs n) = bs - n mod bs /\ 0 < bs - n mod bs <= bs.
Proof.
  pose proof (hp_bs _ _ _ _ Hp) as [Hb1 Hb2].
  pose proof (Nat.mod_upper_bound n bs ltac:(lia)) as Hm.
  unfold padding. rewrite (Nat.mod_small (bs - n mod bs) 256) by lia. rewrite length_replicate.
  split_and!; [|apply nat_ascii_embedding; lia|done|lia|lia].
  destruct (bs - n mod bs) as [|k] eqn:Ek; [lia|].
  rewrite replicate_S_end, last_snoc. done.
Qed.

Lemma Encode_eq s :
  let p := String.list_ascii_of_string s in
  hmac_Encode h E bs s = Ok (String.string_of_list_ascii
    (h p ++ XORKeyStream E bs (drop (hsize - bs) (h p)) (p ++ padding bs (length p)))).
Proof.
  intros p. unfold hmac_Encode. fold p. pose proof (hp_bs _ _ _ _ Hp).
  pose proof (hp_hsize _ _ _ _ Hp). rewrite (hp_hash _ _ _ _ Hp).
  rewrite bool_decide_false by lia. rewrite bool_decide_false by lia. done.
Qed.

End hmac_lemmas.

Lemma hmac_lawful h hsize E bs :
  hmac_params h hsize E bs -> LawfulEncoder (hmacKeyEncoder h hsize E bs) (fun _ => True).
Proof.
  intros Hp. split; [intros s _; eexists; by apply (Encode_eq h hsize)|].
  intros s e _ He. simpl in *. rewrite (Encode_eq h hsize) in He by done.
  injection He as <-. set (p := String.list_ascii_of_string s).
  unfold hmac_Decode. rewrite String.list_ascii_of_string_of_list_ascii.
  pose proof (hp_hash _ _ _ _ Hp p) as Hh. pose proof (hp_hsize _ _ _ _ Hp).
  pose proof (hp_bs _ _ _ _ Hp).
  rewrite bool_decide_false by (rewrite length_app; lia).
  rewrite take_app_le, take_ge by lia. rewrite drop_app_ge, Hh, Nat.sub_diag, drop_0 by lia.
  rewrite !bool_decide_false by lia. simpl.
  rewrite (XORKeyStream_invol h hsize E bs Hp) by (apply (length_iv h hsize E bs Hp)).
  destruct (last_padding h hsize E bs Hp (length p)) as (Hlast&Hnat&Hlen&Hpos).
  rewrite last_app, Hlast, Hnat. rewrite bool_decide_false by lia.
  rewrite length_app, Hlen. rewrite bool_decide_false by lia.
  replace (_ + _ - _) with (length p) by lia. rewrite take_app_length.
  rewrite bool_decide_true by done. unfold p.
  by rewrite String.string_of_list_ascii_of_string.
Qed.

(** ** Theorems *)

(** A toy hash and cipher that satisfy the parameters, with blocks of two
    bytes. *)
Definition toy_h (p : list ascii) : list ascii :=
  [ascii_of_nat (length p mod 256); default "000"%char (list.last p); "h"%char].
Definition toy_E (b : list ascii) : list ascii := reverse b.

Lemma toy_params : hmac_params toy_h 3 toy_E 2.
Proof.
  split; [done| |lia|lia]. intros b Hb. unfold toy_E. by rewrite length_reverse.
Qed.

(** A string is only decoded when it carries the hash of what it decodes
    to; with any other hash in front, decoding fails. *)
Lemma hmac_Decode_inv h hsize E bs s p :
  hmac_Decode h hsize E bs s = Ok p ->
  hsize <= String.length s /\
  h (String.list_ascii_of_string p) = take hsize (String.list_ascii_of_string s).
Proof.
  unfold hmac_Decode. intros H. repeat (case_match; try discriminate H).
  repeat match goal with
  | H : bool_decide _ = false |- _ => apply bool_decide_eq_false in H
  | H : bool_decide _ = true |- _ => apply bool_decide_eq_true in H
  end.
  injection H as <-. rewrite String.list_ascii_of_string_of_list_ascii. split; [|done].
  enough (length (String.list_ascii_of_string s) = String.length s) by lia.
  clear. induction s; simpl; auto.
Qed.

(** C37: the HMAC encoder is lawful: every key encodes, and decoding its encoding
    returns it; and it is authentic: a string is only decoded when it carries the
    hash of what it decodes to, with any other hash in front decoding fails. *)
Theorem hmac_codec h hsize E bs :
  hmac_params h hsize E bs ->
  LawfulEncoder (hmacKeyEncoder h hsize E bs) (fun _ => True) /\
  (forall s p, hmac_Decode h hsize E bs s = Ok p ->
     hsize <= String.length s /\
     h (String.list_ascii_of_string p) = take hsize (String.list_ascii_of_string s)).
Proof. intros Hp. split; [by apply hmac_lawful|]. intros s p. apply hmac_Decode_inv. Qed.

Definition toy_encoding : string :=
  match hmac_Encode toy_h toy_E 2 "/user/ctl/n1" with Ok e => e | _ => "" end.

Lemma hmac_codec_witness :
  (exists e, Encode (hmacKeyEncoder toy_h 3 toy_E 2) "/user/ctl/n1" = Ok e /\
     Decode (hmacKeyEncoder toy_h 3 toy_E 2) e = Ok "/user/ctl/n1") /\
  toy_h (String.list_ascii_of_string "/user/ctl/n1") = take 3 (String.list_ascii_of_string toy_encoding).
Proof.
  destruct (hmac_codec toy_h 3 toy_E 2 toy_params) as [Hl Ha]. split.
  - destruct (encode_total (LawfulEncoder := Hl) "/user/ctl/n1" I) as [e He].
    exists e. split; [exact He|]. exact (decode_encode (LawfulEncoder := Hl) "/user/ctl/n1" e I He).
  - assert (hmac_Decode toy_h 3 toy_E 2 toy_encoding = Ok "/user/ctl/n1") as Hd by (vm_compute; reflexivity).
    exact (proj2 (Ha toy_encoding "/user/ctl/n1" Hd)).
Defined.
