(* ===== verification/Etcd.v ===== *)
(** * The etcd store (vendored clientv3, etcdserver and mvcc)

    The part of etcd the daemon talks to: a multi-version key-value store with
    transactions and leases.  The store is the list of its snapshots, the
    newest first; its revision is their number (a new store is at revision 1).
    Nothing is compacted: the daemon never asks for it. *)

From S2P Require Import Prelude GoLib.

(** ** Data *)

(** [mvccpb.KeyValue]. *)
Record KeyValue := {
  kv_Key : string;
  kv_Value : string;
  kv_CreateRevision : Z;
  kv_ModRevision : Z;
  kv_Version : Z;
  kv_Lease : Z;
}.

Notation snapshot := (gmap string KeyValue).

Record Store := {
  st_snaps : list snapshot;
  st_leases : gset Z;
}.

Definition new_store : Store := {| st_snaps := [∅]; st_leases := ∅ |}.

Definition st_rev (st : Store) : Z := Z.of_nat (length (st_snaps st)).

Definition current (st : Store) : snapshot := default ∅ (head (st_snaps st)).

(** The snapshot of a revision between 1 and the current one. *)
Definition at_rev (st : Store) (rev : Z) : snapshot :=
  default ∅ (st_snaps st !! Z.to_nat (st_rev st - rev)).

(** The lease options of a put. *)
Inductive PutLease :=
  | NoLease
  | WithLease (id : Z)
  | WithIgnoreLease.

(** [clientv3.Op], with the options the daemon passes. *)
Inductive Op :=
  | OpGet (key : string) (rend : option string) (rev : Z)
  | OpPut (key val : string) (lease : PutLease)
  | OpDelete (key : string).

Inductive CmpTarget := VERSION | MOD.
Inductive CmpResult := EQUAL | GREATER | LESS.

Record Cmp := {
  cmp_Key : string;
  cmp_Target : CmpTarget;
  cmp_Result : CmpResult;
  cmp_Value : Z;
}.

Record GetResponse := { gr_Revision : Z; gr_Kvs : list KeyValue }.
Record PutResponse := { pr_Revision : Z; pr_PrevKv : option KeyValue }.
Record DeleteResponse := { dr_Revision : Z; dr_Deleted : Z; dr_PrevKvs : list KeyValue }.

Inductive ResponseOp :=
  | RespGet (r : GetResponse)
  | RespPut (r : PutResponse)
  | RespDelete (r : DeleteResponse).

Record TxnResponse := {
  tr_Revision : Z;
  tr_Succeeded : bool;
  tr_Responses : list ResponseOp;
}.

(** ** Ranges of keys *)

(** Byte-wise lexicographic order. *)
Fixpoint str_ltb (s t : string) : bool :=
  match s, t with
  | "", "" => false
  | "", _ => true
  | _, "" => false
  | String a s', String b t' =>
    if bool_decide (a = b) then str_ltb s' t' else (N_of_ascii a <? N_of_ascii b)%N
  end.

(** [getPrefix]: drop the trailing [0xff] bytes and add one to the last byte. *)
Fixpoint prefix_end (p : string) : option string :=
  match p with
  | "" => None
  | String a p' =>
    match prefix_end p' with
    | Some e => Some (String a e)
    | None => if (N_of_ascii a <? 255)%N
              then Some (String (ascii_of_N (N_of_ascii a + 1)) "") else None
    end
  end.

Definition noPrefixEnd : string := String "000" "".

Definition GetPrefixRangeEnd (prefix : string) : string :=
  default noPrefixEnd (prefix_end prefix).

(** [OpGet(key, WithPrefix(), WithRev(rev))]. *)
Definition OpGetPrefix (key : string) (rev : Z) : Op :=
  if bool_decide (String.length key = 0) then OpGet noPrefixEnd (Some noPrefixEnd) rev
  else OpGet key (Some (GetPrefixRangeEnd key)) rev.

(** The keys a range request covers: one key, all keys from one on, or those of
    an interval. *)
Definition in_range (key : string) (rend : option string) (k : string) : bool :=
  match rend with
  | None => bool_decide (k = key)
  | Some e =>
    if bool_decide (e = noPrefixEnd) then negb (str_ltb k key)
    else negb (str_ltb k key) && str_ltb k e
  end.

Definition kv_le (x y : string * KeyValue) : Prop := String.le x.1 y.1.
Global Instance kv_le_dec : RelDecision kv_le.
Proof. intros x y. unfold kv_le. apply _. Defined.

(** The key-value pairs of a range, in the order of the keys. *)
Definition range_kvs (s : snapshot) (key : string) (rend : option string) : list KeyValue :=
  match rend with
  | None => option_list (s !! key)
  | Some _ =>
    snd <$> merge_sort kv_le (filter (fun p => in_range key rend p.1 = true) (map_to_list s))
  end.

(** ** Requests *)

Definition MaxOpsPerTxn : nat := 128.

Definition op_key (op : Op) : string :=
  match op with OpGet k _ _ => k | OpPut k _ _ => k | OpDelete k => k end.

Definition put_keys (ops : list Op) : list string :=
  omap (fun op => match op with OpPut k _ _ => Some k | _ => None end) ops.

Definition del_keys (ops : list Op) : list string :=
  omap (fun op => match op with OpDelete k => Some k | _ => None end) ops.

(** [checkRequestDupKeys]: no key is put twice, or put and deleted. *)
Definition dup_keys (ops : list Op) : bool :=
  negb (bool_decide (NoDup (put_keys ops)))
  || existsb (fun k => bool_decide (k ∈ put_keys ops)) (del_keys ops).

Definition checkOps (ops : list Op) : outcome unit :=
  if existsb (fun op => bool_decide (op_key op = "")) ops then Err ErrEmptyKey
  else if dup_keys ops then Err ErrDuplicateKey
  else Ok ().

Definition checkTxnRequest (cmps : list Cmp) (succ fail : list Op) : outcome unit :=
  if bool_decide (MaxOpsPerTxn < length cmps) || bool_decide (MaxOpsPerTxn < length succ)
     || bool_decide (MaxOpsPerTxn < length fail)
  then Err ErrTooManyOps
  else if existsb (fun c => bool_decide (cmp_Key c = "")) cmps then Err ErrEmptyKey
  else _ ← checkOps succ; checkOps fail.

(** ** Applying a transaction *)

Definition cmp_field (t : CmpTarget) (kv : KeyValue) : Z :=
  match t with VERSION => kv_Version kv | MOD => kv_ModRevision kv end.

(** The fields of an absent key are zero. *)
Definition applyCompare (s : snapshot) (c : Cmp) : bool :=
  let v := match s !! cmp_Key c with
           | Some kv => cmp_field (cmp_Target c) kv
           | None => 0%Z
           end in
  match cmp_Result c with
  | EQUAL => (v =? cmp_Value c)%Z
  | GREATER => (v >? cmp_Value c)%Z
  | LESS => (v <? cmp_Value c)%Z
  end.

(** [checkRequestPut] on one operation. *)
Definition checkPut (st : Store) (op : Op) : outcome unit :=
  match op with
  | OpPut k _ WithIgnoreLease =>
    if bool_decide (current st !! k = None) then Err ErrKeyNotFound else Ok ()
  | OpPut _ _ (WithLease l) =>
    if bool_decide (l = 0%Z) || bool_decide (l ∈ st_leases st) then Ok ()
    else Err ErrLeaseNotFound
  | _ => Ok ()
  end.

(** [checkRequestRange] on one operation. *)
Definition checkRange (st : Store) (op : Op) : outcome unit :=
  match op with
  | OpGet _ _ rev => if (st_rev st <? rev)%Z then Err ErrFutureRev else Ok ()
  | _ => Ok ()
  end.

Fixpoint checkEach (check : Op -> outcome unit) (ops : list Op) : outcome unit :=
  match ops with
  | [] => Ok ()
  | op :: ops' => _ ← check op; checkEach check ops'
  end.

Definition checkAll (st : Store) (ops : list Op) : outcome unit :=
  _ ← checkEach (checkPut st) ops; checkEach (checkRange st) ops.

(** [storeTxnWrite.put]. *)
Definition put_kv (rev : Z) (s : snapshot) (key val : string) (lease : PutLease) : KeyValue := {|
  kv_Key := key;
  kv_Value := val;
  kv_CreateRevision := match s !! key with Some kv => kv_CreateRevision kv | None => rev end;
  kv_ModRevision := rev;
  kv_Version := match s !! key with Some kv => kv_Version kv + 1 | None => 1 end;
  kv_Lease := match lease with
              | NoLease => 0
              | WithLease l => l
              | WithIgnoreLease => match s !! key with Some kv => kv_Lease kv | None => 0 end
              end |}%Z.

(** [applyUnion] on the snapshot under construction and whether it differs from
    the store's. *)
Definition applyOp (st : Store) (acc : snapshot * bool) (op : Op)
    : snapshot * bool * ResponseOp :=
  let '(s, changed) := acc in
  let rev := (st_rev st + (if changed then 1 else 0))%Z in
  match op with
  | OpGet k rend r =>
    (s, changed, RespGet {| gr_Revision := rev;
       gr_Kvs := range_kvs (if (r <=? 0)%Z then s else at_rev st r) k rend |})
  | OpPut k v l =>
    (<[k := put_kv (st_rev st + 1) s k v l]> s, true,
     RespPut {| pr_Revision := (st_rev st + 1)%Z; pr_PrevKv := None |})
  | OpDelete k =>
    match s !! k with
    | None => (s, changed, RespDelete {| dr_Revision := rev; dr_Deleted := 0; dr_PrevKvs := [] |})
    | Some _ => (delete k s, true,
        RespDelete {| dr_Revision := (st_rev st + 1)%Z; dr_Deleted := 1; dr_PrevKvs := [] |})
    end
  end.

Fixpoint applyOps (st : Store) (acc : snapshot * bool) (ops : list Op)
    : snapshot * bool * list ResponseOp :=
  match ops with
  | [] => (acc, [])
  | op :: ops' =>
    let '(acc', r) := applyOp st acc op in
    let '(acc'', rs) := applyOps st acc' ops' in (acc'', r :: rs)
  end.

(** [storeTxnWrite.End]: a transaction that changed something is one revision. *)
Definition push_snap (st : Store) (acc : snapshot * bool) : Store :=
  if acc.2 then {| st_snaps := acc.1 :: st_snaps st; st_leases := st_leases st |} else st.

(** [Txn().If(cmps).Then(succ).Else(fail).Commit()]. *)
Definition Txn (st : Store) (cmps : list Cmp) (succ fail : list Op)
    : outcome (TxnResponse * Store) :=
  _ ← checkTxnRequest cmps succ fail;
  let ok := forallb (applyCompare (current st)) cmps in
  let ops := if ok then succ else fail in
  _ ← checkAll st ops;
  let '(acc, rs) := applyOps st (current st, false) ops in
  let st' := push_snap st acc in
  Ok ({| tr_Revision := st_rev st'; tr_Succeeded := ok; tr_Responses := rs |}, st').

(** [Get(key, opts...)] outside a transaction. *)
Definition Get (st : Store) (key : string) (rend : option string) (rev : Z)
    : outcome GetResponse :=
  if bool_decide (key = "") then Err ErrEmptyKey
  else if (st_rev st <? rev)%Z then Err ErrFutureRev
  else Ok {| gr_Revision := st_rev st;
             gr_Kvs := range_kvs (if (rev <=? 0)%Z then current st else at_rev st rev) key rend |}.

(** [Put(key, val)] and [Delete(key)] outside a transaction. *)
Definition Put (st : Store) (key val : string) (lease : PutLease) : outcome Store :=
  _ ← checkOps [OpPut key val lease];
  _ ← checkPut st (OpPut key val lease);
  let '(acc, _) := applyOp st (current st, false) (OpPut key val lease) in
  Ok (push_snap st acc).

Definition Delete (st : Store) (key : string) : outcome Store :=
  _ ← checkOps [OpDelete key];
  let '(acc, _) := applyOp st (current st, false) (OpDelete key) in
  Ok (push_snap st acc).

(** ** Leases *)

Definition Grant (st : Store) (id : Z) : Store :=
  {| st_snaps := st_snaps st; st_leases := {[id]} ∪ st_leases st |}.

(** [lessor.Revoke]: the keys attached to the lease go in one revision. *)
Definition Revoke (st : Store) (id : Z) : Store :=
  if bool_decide (id ∈ st_leases st) then
    let s := current st in
    let s' := filter (fun p => kv_Lease p.2 <> id) s in
    let st' := push_snap st (s', negb (bool_decide (size s' = size s))) in
    {| st_snaps := st_snaps st'; st_leases := st_leases st ∖ {[id]} |}
  else st.

(** ** Watches *)

(** [clientv3.Event]: a put with the new and the previous pair, or a deletion
    with its key, its revision and the pair it removed. *)
Inductive Event :=
  | EvPut (kv : KeyValue) (prev : option KeyValue)
  | EvDelete (key : string) (rev : Z) (prev : option KeyValue).

Record WatchResponse := {
  wr_Err : option error;
  wr_Events : list Event;
}.

(** What revision [rev] did to a key. *)
Definition key_event (st : Store) (rev : Z) (k : string) : option Event :=
  let prev := at_rev st (rev - 1) !! k in
  match at_rev st rev !! k with
  | Some kv => if (kv_ModRevision kv =? rev)%Z then Some (EvPut kv prev) else None
  | None => match prev with Some _ => Some (EvDelete k rev prev) | None => None end
  end.

(** The responses of a watch on one key from a revision on, one for each
    revision that touched it. *)
Definition watch_key (st : Store) (key : string) (from : Z) : list WatchResponse :=
  omap (fun i => let rev := (from + Z.of_nat i)%Z in
    if (st_rev st <? rev)%Z then None
    else ev ← key_event st rev key; Some {| wr_Err := None; wr_Events := [ev] |})
    (seq 0 (length (st_snaps st))).

(** What revision [rev] did to the keys of a range.  The server sends the events of
    a revision in the order of the transaction's operations, which a store does not
    keep; here they are in the order of the keys, as for the end of a lease. *)
Definition range_events (st : Store) (rev : Z) (key : string) (rend : option string) : list Event :=
  omap (key_event st rev) (merge_sort String.le
    (filter (fun k => in_range key rend k = true) (elements (dom (at_rev st rev) ∪ dom (at_rev st (rev - 1)))))).

(** The responses of a watch on a prefix. *)
Definition watch_prefix (st : Store) (key : string) (from : Z) : list WatchResponse :=
  omap (fun i => let rev := (from + Z.of_nat i)%Z in
    if (st_rev st <? rev)%Z then None
    else match range_events st rev key (Some (GetPrefixRangeEnd key)) with
         | [] => None
         | evs => Some {| wr_Err := None; wr_Events := evs |}
         end)
    (seq 0 (length (st_snaps st))).

(** ** Prefix ranges *)

Lemma str_ltb_irrefl s : str_ltb s s = false.
Proof. induction s; simpl; [done|]. by rewrite bool_decide_true. Qed.

Lemma ascii_N_inj a b : N_of_ascii a = N_of_ascii b -> a = b.
Proof. intros H. by rewrite <-(ascii_N_embedding a), <-(ascii_N_embedding b), H. Qed.

Lemma HasPrefix_cons a b p k :
  HasPrefix (String b k) (String a p) = bool_decide (a = b) && HasPrefix k p.
Proof.
  unfold HasPrefix. simpl. destruct (ascii_dec a b);
    [by rewrite bool_decide_true|by rewrite bool_decide_false].
Qed.

Lemma HasPrefix_nil k : HasPrefix k "" = true.
Proof. by destruct k. Qed.

Lemma byte_succ a :
  (N_of_ascii a < 255)%N -> N_of_ascii (ascii_of_N (N_of_ascii a + 1)) = (N_of_ascii a + 1)%N.
Proof. intros. apply N_ascii_embedding. lia. Qed.

(** Without a next prefix, every key not below [p] starts with [p]. *)
Lemma prefix_end_None p k : prefix_end p = None -> negb (str_ltb k p) = HasPrefix k p.
Proof.
  revert k. induction p as [|c p IH]; intros k Hp; [by destruct k|]. simpl in Hp.
  destruct (prefix_end p); [done|]. case_match eqn:Hc; [done|]. apply N.ltb_ge in Hc.
  destruct k as [|d k]; [done|]. rewrite HasPrefix_cons. simpl.
  pose proof (N_ascii_bounded d).
  case_bool_decide; simplify_eq; [by rewrite IH, bool_decide_true|].
  rewrite (bool_decide_false (c = d)) by congruence. simpl.
  assert (N_of_ascii d <> N_of_ascii c) by (intros ?%ascii_N_inj; done).
  apply negb_false_iff, N.ltb_lt. lia.
Qed.

(** [p, e) holds exactly the keys that start with [p]. *)
Lemma prefix_end_Some p e k :
  prefix_end p = Some e -> negb (str_ltb k p) && str_ltb k e = HasPrefix k p.
Proof.
  revert e k. induction p as [|a p IH]; intros e k He; [done|]. simpl in He.
  destruct (prefix_end p) as [e'|] eqn:Hp; simplify_eq/=;
    [|case_match eqn:Ha; [|done]; apply N.ltb_lt in Ha; simplify_eq];
    (destruct k as [|b k]; [done|]); rewrite HasPrefix_cons; simpl.
  - case_bool_decide as Hab; simplify_eq/=; [by rewrite (IH e'), bool_decide_true|].
    rewrite (bool_decide_false (a = b)) by congruence. simpl.
    destruct (N.ltb_spec (N_of_ascii b) (N_of_ascii a)); done.
  - rewrite byte_succ by done. case_bool_decide as Hab; simplify_eq/=.
    + rewrite prefix_end_None, (bool_decide_true (a = a)) by done.
      rewrite bool_decide_false by (intros E%(f_equal N_of_ascii); rewrite byte_succ in E; lia).
      destruct (N.ltb_spec (N_of_ascii a) (N_of_ascii a + 1)); [|lia]. by rewrite andb_true_r.
    + rewrite (bool_decide_false (a = b)) by congruence. simpl.
      assert (N_of_ascii b <> N_of_ascii a) by (intros ?%ascii_N_inj; done).
      destruct (N.ltb_spec (N_of_ascii b) (N_of_ascii a)); [done|]. simpl.
      case_bool_decide; [by destruct k|]. apply N.ltb_ge. lia.
Qed.

Lemma prefix_end_not_from_key p e : prefix_end p = Some e -> e <> noPrefixEnd.
Proof.
  destruct p as [|a p]; [done|]. simpl. destruct (prefix_end p) as [e'|] eqn:Hp; intros ?; simplify_eq.
  - destruct e'; [|done]. destruct p; simpl in Hp; repeat case_match; simplify_eq.
  - case_match eqn:Ha; [|done]. simplify_eq. intros E. apply N.ltb_lt in Ha.
    injection E as E. apply (f_equal N_of_ascii) in E. rewrite byte_succ in E by done.
    change (N_of_ascii "000") with 0%N in E. lia.
Qed.

Lemma in_range_prefix key k :
  in_range key (Some (GetPrefixRangeEnd key)) k = HasPrefix k key.
Proof.
  unfold in_range, GetPrefixRangeEnd. destruct (prefix_end key) as [e|] eqn:He; simpl.
  - rewrite bool_decide_false by (by eapply prefix_end_not_from_key). by apply prefix_end_Some.
  - by apply prefix_end_None.
Qed.

(** *** What a range request returns *)

Global Instance kv_le_trans : Transitive kv_le.
Proof. intros x y z. unfold kv_le. apply transitivity. Qed.

Global Instance kv_le_total : Total kv_le.
Proof. intros x y. unfold kv_le. apply (total String.le). Qed.

Lemma elem_of_range_kvs (s : snapshot) key rend kv :
  kv ∈ range_kvs s key rend <-> exists k, s !! k = Some kv /\ in_range key rend k = true.
Proof.
  destruct rend as [e|].
  - unfold range_kvs. rewrite list_elem_of_fmap.
    setoid_rewrite (merge_sort_Permutation kv_le). setoid_rewrite list_elem_of_filter. split.
    + intros ([k kv']&->&?&?%elem_of_map_to_list). by exists k.
    + intros (k&?&?). exists (k, kv). by rewrite elem_of_map_to_list.
  - unfold range_kvs, in_range. setoid_rewrite bool_decide_eq_true.
    destruct (s !! key) as [kv'|] eqn:E; simpl.
    + rewrite list_elem_of_singleton. split; [intros ->; eauto|intros (?&?&->); congruence].
    + split; [by intros ?%not_elem_of_nil|intros (?&?&->); congruence].
Qed.

(** ** Histories

    A store is well formed when its history starts empty and every revision
    changes a key only by deleting it or by writing it with that revision. *)

Definition kv_written (rev : Z) (k : string) (kv : KeyValue) : Prop :=
  kv_ModRevision kv = rev /\ kv_Key kv = k /\ (0 < kv_Version kv)%Z.

Definition snap_step (rev : Z) (s s' : snapshot) : Prop :=
  forall k, s' !! k = s !! k \/ s' !! k = None \/
    exists kv, s' !! k = Some kv /\ kv_written rev k kv.

Fixpoint wf_snaps (l : list snapshot) : Prop :=
  match l with
  | [] => False
  | [s] => s = ∅
  | s' :: ((s :: _) as l') => snap_step (Z.of_nat (length l)) s s' /\ wf_snaps l'
  end.

Definition wf_store (st : Store) : Prop := wf_snaps (st_snaps st).

(** [st'] is a later state of the store [st]: a longer history. *)
Definition extends (st st' : Store) : Prop :=
  exists l, st_snaps st' = l ++ st_snaps st.

Global Instance extends_preorder : PreOrder extends.
Proof.
  split.
  - intros st. by exists [].
  - intros a b c [l1 H1] [l2 H2]. exists (l2 ++ l1). by rewrite H2, H1, app_assoc.
Qed.

Lemma extends_rev st st' : extends st st' -> (st_rev st <= st_rev st')%Z.
Proof. intros [l H]. unfold st_rev. rewrite H, length_app. lia. Qed.

Lemma new_store_wf : wf_store new_store.
Proof. done. Qed.

Lemma wf_store_rev st : wf_store st -> (1 <= st_rev st)%Z.
Proof. unfold wf_store, st_rev. destruct (st_snaps st); simpl; [done|lia]. Qed.

Lemma at_rev_current st : at_rev st (st_rev st) = current st.
Proof. unfold at_rev, current. rewrite Z.sub_diag. by destruct (st_snaps st). Qed.

(** Reading an old revision gives the same before and after later writes. *)
Lemma at_rev_extends st st' rev :
  extends st st' -> (1 <= rev <= st_rev st)%Z -> at_rev st' rev = at_rev st rev.
Proof.
  intros [l H] Hr. unfold at_rev, st_rev in *. rewrite H, length_app. f_equal.
  rewrite lookup_app_r by lia. f_equal. lia.
Qed.

Lemma wf_snaps_kv l k kv :
  wf_snaps l -> default ∅ (head l) !! k = Some kv ->
  exists rev, (1 <= rev <= Z.of_nat (length l))%Z /\ kv_written rev k kv.
Proof.
  induction l as [|s' [|s l] IH]; simpl; [done| |].
  - intros ->. by rewrite lookup_empty.
  - intros [Hs Hw] Hk. destruct (Hs k) as [E|[E|(kv'&E&?)]]; rewrite Hk in E.
    + symmetry in E. destruct (IH Hw E) as (r&?&?). exists r. simpl in *. split; [lia|done].
    + done.
    + simplify_eq. eexists. split; [|done]. lia.
Qed.

Lemma current_kv st k kv :
  wf_store st -> current st !! k = Some kv ->
  exists rev, (1 <= rev <= st_rev st)%Z /\ kv_written rev k kv.
Proof. apply wf_snaps_kv. Qed.

(** If the key was last written at or before the revision of [st], then [st]
    already has this very pair. *)
Lemma mod_determines st st' k kv :
  wf_store st -> wf_store st' -> extends st st' ->
  current st' !! k = Some kv -> (kv_ModRevision kv <= st_rev st)%Z -> current st !! k = Some kv.
Proof.
  intros _. unfold wf_store, extends, current, st_rev.
  destruct st as [l0 lp], st' as [l1 lp']; simpl. intros Hw [l ->]. clear lp lp'.
  induction l as [|s' l IH]; [done|]. simpl in *. destruct (l ++ l0) as [|s l'] eqn:E.
  - subst s'. by rewrite lookup_empty.
  - rewrite <-E in *. destruct Hw as [Hs Hw]. intros Hk Hm.
    destruct (Hs k) as [Ek|[Ek|(kv'&Ek&Hr)]].
    + apply IH; [done| |done]. rewrite E. simpl. by rewrite <-Ek.
    + rewrite Hk in Ek. done.
    + rewrite Hk in Ek. simplify_eq. destruct Hr as [Hr _]. rewrite Hr, length_app in Hm. lia.
Qed.

(** ** Transactions *)

Definition acc_ok (st : Store) (acc : snapshot * bool) : Prop :=
  snap_step (st_rev st + 1) (current st) acc.1 /\ (acc.2 = false -> acc.1 = current st).

Lemma snap_step_refl rev s : snap_step rev s s.
Proof. intros k. by left. Qed.

Lemma put_kv_written rev s k v l :
  (forall kv, s !! k = Some kv -> (0 < kv_Version kv)%Z) -> kv_written rev k (put_kv rev s k v l).
Proof.
  intros H. split_and!; [done|done|]. simpl. destruct (s !! k) as [kv|] eqn:E; [|lia].
  specialize (H kv eq_refl). lia.
Qed.

Lemma acc_ok_version st acc k kv :
  wf_store st -> acc_ok st acc -> acc.1 !! k = Some kv -> (0 < kv_Version kv)%Z.
Proof.
  intros Hw [Hs _] Hk. destruct (Hs k) as [E|[E|(kv'&E&?&?&?)]]; rewrite Hk in E; simplify_eq.
  - symmetry in E. by destruct (current_kv st k kv Hw E) as (?&?&?&?&?).
  - done.
Qed.

Lemma applyOp_ok st acc op :
  wf_store st -> acc_ok st acc -> acc_ok st (applyOp st acc op).1.
Proof.
  intros Hw Hacc. pose proof (acc_ok_version st acc) as Hv. destruct acc as [s ch].
  destruct op as [k rend r|k v l|k]; simpl in *; [done| |].
  - split; [|done]. intros k'. simpl. destruct (decide (k' = k)) as [->|].
    + right; right. rewrite lookup_insert_eq. eexists; split; [done|]. apply put_kv_written. eauto.
    + rewrite lookup_insert_ne by done. apply Hacc.
  - destruct (s !! k); [|done]. split; [|done]. intros k'. simpl.
    destruct (decide (k' = k)) as [->|].
    + right; left. apply lookup_delete_eq.
    + rewrite lookup_delete_ne by done. apply Hacc.
Qed.

Lemma applyOps_ok st acc ops :
  wf_store st -> acc_ok st acc -> acc_ok st (applyOps st acc ops).1.
Proof.
  intros Hw. revert acc. induction ops as [|op ops IH]; intros acc Hacc; simpl; [done|].
  pose proof (applyOp_ok st acc op Hw Hacc) as Ho.
  destruct (applyOp st acc op) as [acc' r]. specialize (IH acc' Ho).
  by destruct (applyOps st acc' ops).
Qed.

Lemma push_snap_wf st acc :
  wf_store st -> acc_ok st acc -> wf_store (push_snap st acc).
Proof.
  intros Hw [Hs _]. unfold push_snap, wf_store in *. destruct acc as [s ch]; simpl in *.
  destruct ch; [|done]. simpl. pose proof (wf_store_rev st Hw). unfold st_rev, current in *.
  destruct (st_snaps st) as [|s0 l] eqn:E; [done|]. split; [|done].
  simpl in *. by replace (Z.of_nat (S (S (length l)))) with (Z.of_nat (S (length l)) + 1)%Z by lia.
Qed.

Lemma push_snap_extends st acc : extends st (push_snap st acc).
Proof. unfold push_snap. case_match; [by exists [acc.1]|by exists []]. Qed.

Lemma push_snap_leases st acc : st_leases (push_snap st acc) = st_leases st.
Proof. unfold push_snap. by case_match. Qed.

Lemma current_push st acc :
  (acc.2 = false -> acc.1 = current st) -> current (push_snap st acc) = acc.1.
Proof. intros H. unfold push_snap. case_match; [done|]. symmetry. auto. Qed.

Lemma Txn_ok st cmps succ fail r st' :
  wf_store st -> Txn st cmps succ fail = Ok (r, st') ->
  wf_store st' /\ extends st st' /\ st_leases st' = st_leases st /\ tr_Revision r = st_rev st'.
Proof.
  intros Hw H. unfold Txn in H. apply outcome_bind_ok in H as (?&_&H).
  apply outcome_bind_ok in H as (?&_&H).
  pose proof (applyOps_ok st (current st, false)
    (if forallb (applyCompare (current st)) cmps then succ else fail) Hw) as Ho.
  destruct (applyOps _ _ _) as [acc rs] eqn:E. simplify_eq/=.
  rewrite push_snap_leases. split_and!; [|apply push_snap_extends|done..].
  apply push_snap_wf; [done|]. apply Ho. split; [apply snap_step_refl|done].
Qed.

(** *** The effect of a set of writes

    [write_snap rev s ws] is the snapshot [s] after the operations [ws], one
    for each key, at revision [rev]. *)

Definition op_at (rev : Z) (s : snapshot) (op : Op) : option KeyValue :=
  match op with
  | OpGet k _ _ => s !! k
  | OpPut k v l => Some (put_kv rev s k v l)
  | OpDelete _ => None
  end.

Definition op_changes (s : snapshot) (op : Op) : bool :=
  match op with
  | OpGet _ _ _ => false
  | OpPut _ _ _ => true
  | OpDelete k => bool_decide (is_Some (s !! k))
  end.

Definition write_snap (rev : Z) (s : snapshot) (ws : gmap string Op) : snapshot :=
  map_imap (fun _ op => op_at rev s op) ws ∪ filter (fun p => ws !! p.1 = None) s.

Lemma lookup_write_snap rev s ws k :
  write_snap rev s ws !! k =
  match ws !! k with Some op => op_at rev s op | None => s !! k end.
Proof.
  unfold write_snap. destruct (ws !! k) as [op|] eqn:E.
  - assert (filter (fun p => ws !! p.1 = None) s !! k = None) as Hf.
    { apply map_lookup_filter_None. right. intros ? _. simpl. by rewrite E. }
    rewrite lookup_union, map_lookup_imap, E, Hf. simpl. by destruct (op_at rev s op).
  - rewrite lookup_union, map_lookup_imap, E. simpl. rewrite (left_id None _).
    destruct (s !! k) as [kv|] eqn:Ek.
    + by apply map_lookup_filter_Some_2.
    + apply map_lookup_filter_None. by left.
Qed.

Lemma put_kv_ext rev s s' k v l : s !! k = s' !! k -> put_kv rev s k v l = put_kv rev s' k v l.
Proof. unfold put_kv. by intros ->. Qed.

Lemma op_at_ext rev s s' op : s !! op_key op = s' !! op_key op -> op_at rev s op = op_at rev s' op.
Proof. destruct op; simpl; [done|intros; f_equal; by apply put_kv_ext|done]. Qed.

Lemma op_changes_ext s s' op : s !! op_key op = s' !! op_key op -> op_changes s op = op_changes s' op.
Proof. destruct op; simpl; [done..|]. by intros ->. Qed.

Lemma applyOp_at st s ch op k :
  let acc := (applyOp st (s, ch) op).1 in
  acc.1 !! k = (if decide (k = op_key op) then op_at (st_rev st + 1) s op else s !! k) /\
  acc.2 = ch || op_changes s op.
Proof.
  destruct op as [k' rend r|k' v l|k']; simpl.
  - rewrite orb_false_r. split; [|done]. by case_decide; subst.
  - rewrite orb_true_r. split; [|done]. case_decide; subst;
      [by rewrite lookup_insert_eq|by rewrite lookup_insert_ne].
  - destruct (s !! k') eqn:E; simpl.
    + rewrite orb_true_r. split; [|done]. case_decide; subst;
        [by rewrite lookup_delete_eq|by rewrite lookup_delete_ne].
    + rewrite orb_false_r. split; [|done]. by case_decide; subst.
Qed.

Lemma applyOps_cons st acc op ops :
  (applyOps st acc (op :: ops)).1 = (applyOps st (applyOp st acc op).1 ops).1.
Proof. simpl. destruct (applyOp st acc op) as [acc' r]. simpl. by destruct (applyOps st acc' ops). Qed.

Lemma existsb_ext_in {A} (f g : A -> bool) (l : list A) :
  (forall x, x ∈ l -> f x = g x) -> existsb f l = existsb g l.
Proof.
  intros H. induction l as [|x l IH]; simpl; [done|]. rewrite H by left.
  f_equal. apply IH. intros. apply H. by right.
Qed.

(** Operations on distinct keys, in any order, have the effect of the set. *)
Lemma applyOps_writes st (l : list (string * Op)) s ch :
  NoDup l.*1 -> Forall (fun p => op_key p.2 = p.1) l ->
  (applyOps st (s, ch) l.*2).1 =
  (write_snap (st_rev st + 1) s (list_to_map l), ch || existsb (op_changes s) l.*2).
Proof.
  revert s ch. induction l as [|[k op] l IH]; intros s ch Hnd Hk.
  - simpl. rewrite orb_false_r. f_equal. apply map_eq. intros k. by rewrite lookup_write_snap.
  - rewrite fmap_cons in Hnd. apply list.NoDup_cons in Hnd as [Hni Hnd].
    apply list.Forall_cons in Hk as [Hk Hl]. cbn [fst snd] in *.
    pose proof (fun k' => applyOp_at st s ch op k') as Ha.
    rewrite fmap_cons, applyOps_cons. cbn [fst snd].
    destruct (applyOp st (s, ch) op) as [[s' ch'] r]. cbn [fst snd] in *.
    rewrite (IH s' ch' Hnd Hl), list.Forall_forall in *.
    assert (Hs : forall k', k' <> k -> s' !! k' = s !! k').
    { intros k' ?. destruct (Ha k') as [-> _]. apply decide_False. congruence. }
    apply (f_equal2 pair).
    + apply map_eq. intros k'. rewrite !lookup_write_snap. simpl.
      destruct (decide (k' = k)) as [->|Hne].
      * rewrite lookup_insert_eq, not_elem_of_list_to_map_1 by done.
        destruct (Ha k) as [-> _]. by rewrite decide_True.
      * rewrite lookup_insert_ne by done.
        destruct (list_to_map l !! k') as [op'|] eqn:E; [|by apply Hs].
        apply elem_of_list_to_map_2, Hl in E. simpl in E. apply op_at_ext, Hs. congruence.
    + destruct (Ha k) as [_ ->]. rewrite <-orb_assoc. simpl. do 2 f_equal.
      apply existsb_ext_in. intros x ([k'' op'']&->&Hin)%list_elem_of_fmap. simpl.
      pose proof (Hl _ Hin) as Hk''. simpl in Hk''. apply op_changes_ext, Hs. rewrite Hk''. intros E. apply Hni, list_elem_of_fmap.
      by exists (k'', op'').
Qed.

(** ** Leases *)

Lemma Grant_ok st id : wf_store st -> wf_store (Grant st id) /\ extends st (Grant st id).
Proof. intros. split; [done|by exists []]. Qed.

Lemma Revoke_ok st id : wf_store st -> wf_store (Revoke st id) /\ extends st (Revoke st id).
Proof.
  intros Hw. unfold Revoke. case_match; [|by split].
  set (acc := (filter _ _, _)).
  split; [|destruct (push_snap_extends st acc) as [l Hl]; by exists l].
  apply (push_snap_wf st acc Hw). subst acc. split; simpl.
  - intros k. destruct (filter _ _ !! k) as [kv|] eqn:E; [|by right; left].
    apply map_lookup_filter_Some in E as [-> _]. by left.
  - intros Hsz. apply negb_false_iff, bool_decide_eq_true in Hsz.
    apply map_subseteq_size_eq; [apply map_filter_subseteq|lia].
Qed.

(** *** Old revisions as stores *)

Lemma wf_snaps_drop n l : wf_snaps l -> n < length l -> wf_snaps (drop n l).
Proof.
  revert l. induction n as [|n IH]; intros l Hw Hn; [done|].
  destruct l as [|s [|s' l]]; simpl in *; [done|lia|]. apply IH; [apply Hw|simpl; lia].
Qed.

Lemma at_rev_store st rev :
  wf_store st -> (1 <= rev <= st_rev st)%Z ->
  exists st0, wf_store st0 /\ extends st0 st /\ st_rev st0 = rev /\ current st0 = at_rev st rev.
Proof.
  intros Hw Hr. unfold st_rev in Hr. set (n := Z.to_nat (st_rev st - rev)).
  assert (n < length (st_snaps st)) by (subst n; unfold st_rev; lia).
  exists {| st_snaps := drop n (st_snaps st); st_leases := st_leases st |}. split_and!.
  - by apply wf_snaps_drop.
  - exists (take n (st_snaps st)). simpl. by rewrite take_drop.
  - unfold st_rev. simpl. rewrite length_drop. subst n. unfold st_rev. lia.
  - unfold current, at_rev. simpl. fold n. rewrite <-(Nat.add_0_r n), <-lookup_drop.
    rewrite Nat.add_0_r. by destruct (drop n (st_snaps st)).
Qed.

(** A key that still has the modification revision it was read with still has
    the value it was read with. *)
Lemma compare_stable st rev k :
  wf_store st -> (1 <= rev <= st_rev st)%Z ->
  match current st !! k with Some kv => kv_ModRevision kv | None => 0%Z end =
  match at_rev st rev !! k with Some kv => kv_ModRevision kv | None => 0%Z end ->
  at_rev st rev !! k = current st !! k.
Proof.
  intros Hw Hr. destruct (at_rev_store st rev Hw Hr) as (st0&Hw0&He&Hr0&<-).
  destruct (current st !! k) as [kv|] eqn:E, (current st0 !! k) as [kv0|] eqn:E0; intros Hm.
  - destruct (current_kv st0 k kv0 Hw0 E0) as (r&?&Hk&_).
    rewrite <-E0. apply (mod_determines st0 st k kv); [done..|lia].
  - by destruct (current_kv st k kv Hw E) as (r&?&?&_); lia.
  - by destruct (current_kv st0 k kv0 Hw0 E0) as (r&?&?&_); lia.
  - done.
Qed.

(** *** Transactions that only read *)

Definition gets (keys : list string) (rev : Z) : list Op := (fun k => OpGet k None rev) <$> keys.

Definition read_snap (st : Store) (rev : Z) : snapshot :=
  if (rev <=? 0)%Z then current st else at_rev st rev.

Definition get_resp (st : Store) (s : snapshot) (k : string) : GetResponse :=
  {| gr_Revision := st_rev st; gr_Kvs := option_list (s !! k) |}.

Lemma gets_cons k keys rev : gets (k :: keys) rev = OpGet k None rev :: gets keys rev.
Proof. done. Qed.

Lemma applyOps_gets st keys rev :
  applyOps st (current st, false) (gets keys rev) =
  ((current st, false), (fun k => RespGet (get_resp st (read_snap st rev) k)) <$> keys).
Proof.
  induction keys as [|k keys IH]; [done|]. rewrite gets_cons.
  cbn [applyOps applyOp]. rewrite IH. unfold get_resp. by rewrite Z.add_0_r.
Qed.

Lemma read_snap_rev st rev :
  wf_store st -> (rev <= st_rev st)%Z ->
  exists r, (1 <= r <= st_rev st)%Z /\ read_snap st rev = at_rev st r.
Proof.
  intros Hw ?. unfold read_snap. pose proof (wf_store_rev st Hw).
  destruct (Z.leb_spec rev 0); [|exists rev; split; [lia|done]].
  exists (st_rev st). split; [lia|]. by rewrite at_rev_current.
Qed.

Lemma checkEach_ok check ops :
  checkEach check ops = Ok () <-> Forall (fun op => check op = Ok ()) ops.
Proof.
  induction ops as [|op ops IH]; simpl; [done|]. rewrite list.Forall_cons, <-IH.
  destruct (check op) as [[]| | | |]; simpl; naive_solver.
Qed.

Lemma checkAll_gets st keys rev :
  checkAll st (gets keys rev) =
  if bool_decide (keys = []) || bool_decide (rev <= st_rev st)%Z then Ok () else Err ErrFutureRev.
Proof.
  unfold checkAll. assert (checkEach (checkPut st) (gets keys rev) = Ok ()) as ->.
  { apply checkEach_ok, list.Forall_forall. intros op (k&->&_)%list_elem_of_fmap. done. }
  change (checkEach (checkRange st) (gets keys rev) =
    if bool_decide (keys = []) || bool_decide (rev <= st_rev st)%Z then Ok () else Err ErrFutureRev).
  induction keys as [|k keys IH]; [done|]. rewrite gets_cons. cbn [checkEach checkRange].
  rewrite (bool_decide_false (k :: keys = [])) by done.
  destruct (Z.ltb_spec (st_rev st) rev); simpl in *.
  - by rewrite bool_decide_false by lia.
  - rewrite (bool_decide_true (rev <= st_rev st)%Z) in * by lia. by rewrite orb_true_r in IH.
Qed.

Lemma Txn_gets st keys rev tr st' :
  wf_store st -> Txn st [] (gets keys rev) [] = Ok (tr, st') ->
  st' = st /\
  exists r, (1 <= r <= st_rev st)%Z /\
    tr_Responses tr = (fun k => RespGet (get_resp st (at_rev st r) k)) <$> keys.
Proof.
  intros Hw H. unfold Txn in H. apply outcome_bind_ok in H as (?&_&H). simpl in H.
  rewrite checkAll_gets, applyOps_gets in H.
  destruct (bool_decide (keys = []) || bool_decide (rev <= st_rev st)%Z) eqn:E; simplify_eq/=.
  split; [done|]. apply orb_true_iff in E as [->%bool_decide_eq_true|Hr%bool_decide_eq_true].
  - exists (st_rev st). pose proof (wf_store_rev st Hw). split; [lia|done].
  - destruct (read_snap_rev st rev Hw Hr) as (r&?&->). by exists r.
Qed.

Lemma Txn_gets_now st keys tr st' :
  Txn st [] (gets keys 0) [] = Ok (tr, st') ->
  st' = st /\ tr_Responses tr = (fun k => RespGet (get_resp st (current st) k)) <$> keys.
Proof.
  intros H. unfold Txn in H. apply outcome_bind_ok in H as (?&_&H). cbn [forallb] in H.
  rewrite applyOps_gets in H. apply outcome_bind_ok in H as (?&_&H). by simplify_eq/=.
Qed.

(** A transaction is the one of the branch its comparisons choose. *)
Lemma Txn_branch st cmps succ fail tr st' :
  Txn st cmps succ fail = Ok (tr, st') ->
  forallb (applyCompare (current st)) cmps = tr_Succeeded tr /\
  if tr_Succeeded tr then Txn st [] succ [] = Ok (tr, st')
  else exists tr', Txn st [] fail [] = Ok (tr', st') /\ tr_Responses tr' = tr_Responses tr.
Proof.
  intros H. unfold Txn in H. apply outcome_bind_ok in H as ([]&Hc&H).
  unfold checkTxnRequest in Hc.
  destruct (bool_decide (MaxOpsPerTxn < length cmps)); [done|].
  destruct (bool_decide (MaxOpsPerTxn < length succ)) eqn:Ls; [done|].
  destruct (bool_decide (MaxOpsPerTxn < length fail)) eqn:Lf; [done|]. simpl in Hc.
  destruct (existsb _ cmps); [done|]. apply outcome_bind_ok in Hc as ([]&Hcs&Hcf).
  assert (Hchk : forall ops, (ops = succ \/ ops = fail) -> checkTxnRequest [] ops [] = Ok ()).
  { intros ops Hops. unfold checkTxnRequest. simpl.
    destruct Hops as [-> | ->]; [rewrite Ls, Hcs|rewrite Lf, Hcf]; done. }
  destruct (forallb _ _) eqn:E; apply outcome_bind_ok in H as ([]&Ha&H);
    destruct (applyOps _ _ _) as [acc rs] eqn:Eo; simplify_eq/=.
  - split; [done|]. unfold Txn. rewrite Hchk by by left. simpl. by rewrite Ha, Eo.
  - split; [done|]. eexists. unfold Txn. rewrite Hchk by by right. simpl. rewrite Ha. simpl.
    by rewrite Eo.
Qed.

(** *** Single operations *)

Lemma op_ok st op :
  wf_store st ->
  let st' := push_snap st (applyOp st (current st, false) op).1 in wf_store st' /\ extends st st'.
Proof.
  intros Hw st'. split; [|apply push_snap_extends]. apply push_snap_wf; [done|].
  apply applyOp_ok; [done|]. split; [apply snap_step_refl|done].
Qed.

Lemma Put_ok st key val l st' :
  wf_store st -> Put st key val l = Ok st' -> wf_store st' /\ extends st st'.
Proof.
  intros Hw H. unfold Put in H. apply outcome_bind_ok in H as (?&_&H).
  apply outcome_bind_ok in H as (?&_&H). pose proof (op_ok st (OpPut key val l) Hw) as Ho.
  destruct (applyOp st (current st, false) (OpPut key val l)) as [acc r]. by simplify_eq.
Qed.

Lemma Delete_ok st key st' :
  wf_store st -> Delete st key = Ok st' -> wf_store st' /\ extends st st'.
Proof.
  intros Hw H. unfold Delete in H. apply outcome_bind_ok in H as (?&_&H).
  pose proof (op_ok st (OpDelete key) Hw) as Ho.
  destruct (applyOp st (current st, false) (OpDelete key)) as [acc r]. by simplify_eq.
Qed.

Lemma checkOps_gets keys rev :
  "" ∉ keys -> checkOps (gets keys rev) = Ok ().
Proof.
  intros Hk. unfold checkOps.
  assert (existsb (fun op => bool_decide (op_key op = "")) (gets keys rev) = false) as ->.
  { apply not_true_is_false. rewrite existsb_exists.
    intros (op&(k&->&Hin)%list_elem_of_In%list_elem_of_fmap&E%bool_decide_eq_true).
    simpl in E. by subst. }
  assert (put_keys (gets keys rev) = [] /\ del_keys (gets keys rev) = []) as [Hp Hd].
  { clear. induction keys as [|k keys [IH1 IH2]]; [done|]. rewrite gets_cons. done. }
  unfold dup_keys. rewrite Hp, Hd. done.
Qed.

Lemma Txn_gets_total st keys rev :
  "" ∉ keys -> length keys <= MaxOpsPerTxn -> (rev <= st_rev st)%Z ->
  Txn st [] (gets keys rev) [] =
  Ok ({| tr_Revision := st_rev st; tr_Succeeded := true;
         tr_Responses := (fun k => RespGet (get_resp st (read_snap st rev) k)) <$> keys |}, st).
Proof.
  intros Hk Hl Hr. unfold Txn, checkTxnRequest. cbn [length existsb].
  rewrite (bool_decide_false (MaxOpsPerTxn < 0)) by lia.
  assert (length (gets keys rev) = length keys) as -> by (unfold gets; apply length_fmap).
  rewrite (bool_decide_false (MaxOpsPerTxn < length keys)) by lia.
  rewrite checkOps_gets by done. cbn -[applyOps checkAll].
  rewrite checkAll_gets, (bool_decide_true (rev <= st_rev st)%Z), orb_true_r by done. cbn -[applyOps].
  by rewrite applyOps_gets.
Qed.

(** A transaction is applied or refused with an error. *)
Lemma Txn_returns st cmps succ fail :
  (exists x, Txn st cmps succ fail = Ok x) \/ exists e, Txn st cmps succ fail = Err e.
Proof.
  assert (Hc : forall ops, checkOps ops = Ok () \/ exists e, checkOps ops = Err e).
  { intros ops. unfold checkOps. repeat case_match; eauto. }
  assert (He : forall check ops, (forall op, check op = Ok () \/ exists e, check op = Err e) ->
    checkEach check ops = Ok () \/ exists e, checkEach check ops = Err e).
  { intros check ops H. induction ops as [|op ops IH]; simpl; [by left|].
    destruct (H op) as [-> |[e ->]]; simpl; [done|eauto]. }
  assert (Hp : forall op, checkPut st op = Ok () \/ exists e, checkPut st op = Err e).
  { intros op. unfold checkPut. repeat case_match; eauto. }
  assert (Hr : forall op, checkRange st op = Ok () \/ exists e, checkRange st op = Err e).
  { intros op. unfold checkRange. repeat case_match; eauto. }
  unfold Txn, checkTxnRequest. destruct (_ || _ || _); [by right; eexists|].
  destruct (existsb _ _); [by right; eexists|].
  destruct (Hc succ) as [-> |[e ->]]; [|by right; eexists].
  destruct (Hc fail) as [Hf|[e Hf]]; [|right; exists e; simpl; by rewrite Hf].
  simpl. rewrite Hf. simpl. unfold checkAll.
  destruct (He _ (if forallb (applyCompare (current st)) cmps then succ else fail) Hp) as [-> |[e ->]];
    [|by right; eexists].
  destruct (He _ (if forallb (applyCompare (current st)) cmps then succ else fail) Hr) as [E |[e E]];
    [|right; exists e; simpl; by rewrite E].
  simpl. rewrite E. simpl. destruct (applyOps _ _ _). left. by eexists.
Qed.

(** Comparisons that hold, and an else branch that could run, do not matter. *)
Lemma Txn_true st cmps succ fail :
  length cmps <= MaxOpsPerTxn -> length fail <= MaxOpsPerTxn -> "" ∉ (cmp_Key <$> cmps) ->
  checkOps fail = Ok () -> forallb (applyCompare (current st)) cmps = true ->
  Txn st cmps succ fail = Txn st [] succ [].
Proof.
  intros Hc Hf Hk Ho Ht. unfold Txn, checkTxnRequest. cbn [length existsb forallb].
  rewrite (bool_decide_false (MaxOpsPerTxn < length cmps)), (bool_decide_false (MaxOpsPerTxn < length fail)),
    (bool_decide_false (MaxOpsPerTxn < 0)), Ho, Ht by lia.
  assert (existsb (fun c => bool_decide (cmp_Key c = "")) cmps = false) as ->.
  { apply not_true_is_false. rewrite existsb_exists.
    intros (c&Hin%list_elem_of_In&E%bool_decide_eq_true). apply Hk, list_elem_of_fmap. by exists c. }
  by destruct (bool_decide (MaxOpsPerTxn < length succ)).
Qed.

(** *** Committing a set of writes *)

Lemma put_del_keys (l : list (string * Op)) k :
  Forall (fun p => op_key p.2 = p.1) l ->
  (k ∈ put_keys l.*2 -> exists v pl, (k, OpPut k v pl) ∈ l) /\
  (k ∈ del_keys l.*2 -> (k, OpDelete k) ∈ l).
Proof.
  intros Hl. rewrite list.Forall_forall in Hl. unfold put_keys, del_keys. split.
  - intros (op&Hin&E)%list_elem_of_omap. apply list_elem_of_fmap in Hin as ([k' op']&->&Hin).
    specialize (Hl _ Hin). destruct op'; simplify_eq/=. eauto.
  - intros (op&Hin&E)%list_elem_of_omap. apply list_elem_of_fmap in Hin as ([k' op']&->&Hin).
    specialize (Hl _ Hin). by destruct op'; simplify_eq/=.
Qed.

Lemma put_keys_NoDup (l : list (string * Op)) :
  NoDup l.*1 -> Forall (fun p => op_key p.2 = p.1) l -> NoDup (put_keys l.*2).
Proof.
  induction l as [|[k op] l IH]; intros Hnd Hl; [constructor|].
  rewrite fmap_cons in Hnd. apply list.NoDup_cons in Hnd as [Hni Hnd].
  pose proof Hl as Hl'. apply list.Forall_cons in Hl as [Hk Hl]. simpl in Hk.
  destruct op as [| k' v pl|]; [by apply IH| |by apply IH]. simpl in Hk. subst k'.
  change (NoDup (k :: put_keys l.*2)). apply list.NoDup_cons. split; [|by apply IH].
  intros Hin. apply (put_del_keys l k Hl) in Hin as (?&?&Hin).
  apply Hni, list_elem_of_fmap. by exists (k, OpPut k x x0).
Qed.

Lemma checkOps_distinct (l : list (string * Op)) :
  NoDup l.*1 -> Forall (fun p => op_key p.2 = p.1 /\ p.1 <> "") l -> checkOps l.*2 = Ok ().
Proof.
  intros Hnd Hl.
  assert (Hk : Forall (fun p => op_key p.2 = p.1) l) by (eapply list.Forall_impl; [exact Hl|by intros ? []]).
  unfold checkOps.
  assert (existsb (fun op => bool_decide (op_key op = "")) l.*2 = false) as ->.
  { apply not_true_is_false. rewrite existsb_exists.
    intros (op&Hin%list_elem_of_In&E%bool_decide_eq_true).
    apply list_elem_of_fmap in Hin as (p&->&Hin). rewrite list.Forall_forall in Hl.
    destruct (Hl p Hin) as [E' Hne]. congruence. }
  assert (dup_keys l.*2 = false) as ->; [|done].
  unfold dup_keys. rewrite bool_decide_true by by apply put_keys_NoDup. simpl.
  apply not_true_is_false. rewrite existsb_exists.
  intros (k&Hd%list_elem_of_In&Hp%bool_decide_eq_true).
  apply (put_del_keys l k Hk) in Hd. apply (put_del_keys l k Hk) in Hp as (v&pl&Hp).
  apply list_elem_of_lookup in Hd as [i Hi]. apply list_elem_of_lookup in Hp as [j Hj].
  assert (i = j) as ->.
  { eapply NoDup_lookup; [exact Hnd| |]; rewrite list_lookup_fmap; [by rewrite Hi|by rewrite Hj]. }
  congruence.
Qed.

(** What committed operations, one for each key, do to the store. *)
Lemma Txn_writes_list st (l : list (string * Op)) tr st' :
  wf_store st -> NoDup l.*1 -> Forall (fun p => op_key p.2 = p.1) l ->
  Txn st [] l.*2 [] = Ok (tr, st') ->
  current st' = write_snap (st_rev st + 1) (current st) (list_to_map l).
Proof.
  intros Hw Hnd Hl H. unfold Txn in H. apply outcome_bind_ok in H as (?&_&H). cbn [forallb] in H.
  apply outcome_bind_ok in H as (?&_&H).
  pose proof (applyOps_writes st l (current st) false Hnd Hl) as Ho.
  pose proof (applyOps_ok st (current st, false) l.*2 Hw) as Hacc.
  destruct (applyOps _ _ _) as [acc rs]. cbn [fst snd] in *. simplify_eq/=.
  rewrite current_push; [done|]. apply Hacc. split; [apply snap_step_refl|done].
Qed.

Lemma Txn_writes st (ops : gmap string Op) tr st' :
  wf_store st -> map_Forall (fun k op => op_key op = k) ops ->
  Txn st [] (map_to_list ops).*2 [] = Ok (tr, st') ->
  current st' = write_snap (st_rev st + 1) (current st) ops.
Proof.
  intros Hw Hk H. rewrite <-(list_to_map_to_list ops) at 1.
  eapply Txn_writes_list; [done|apply NoDup_fst_map_to_list| |done].
  apply list.Forall_forall. intros [k op] Hin%elem_of_map_to_list. by apply Hk.
Qed.

(** A transaction whose comparisons fail, without an else branch, does nothing. *)
Lemma Txn_failed st cmps succ tr st' :
  Txn st cmps succ [] = Ok (tr, st') -> tr_Succeeded tr = false -> st' = st.
Proof.
  intros H Hs. destruct (Txn_branch _ _ _ _ _ _ H) as [_ HB]. rewrite Hs in HB.
  destruct HB as (tr'&HB&_). by apply (Txn_gets_now st [] tr') in HB as [-> _].
Qed.

(** The revision a comparison sees is the one of the pair it was made from. *)
Lemma compare_mod st k kv :
  wf_store st -> (1 <= kv_ModRevision kv <= st_rev st)%Z -> at_rev st (kv_ModRevision kv) !! k = Some kv ->
  applyCompare (current st) {| cmp_Key := k; cmp_Target := MOD; cmp_Result := EQUAL;
                               cmp_Value := kv_ModRevision kv |} = true ->
  current st !! k = Some kv.
Proof.
  intros Hw Hr Hk Hc. unfold applyCompare in Hc. simpl in Hc. apply Z.eqb_eq in Hc.
  rewrite <-Hk. symmetry. apply compare_stable; [done..|]. by rewrite Hk.
Qed.

(** A version of 0 is that of a key that is not there. *)
Lemma compare_version st k r :
  wf_store st ->
  applyCompare (current st) {| cmp_Key := k; cmp_Target := VERSION; cmp_Result := r; cmp_Value := 0 |} =
  match r with
  | EQUAL => bool_decide (current st !! k = None)
  | GREATER => bool_decide (is_Some (current st !! k))
  | LESS => false
  end.
Proof.
  intros Hw. unfold applyCompare. simpl. destruct (current st !! k) as [kv|] eqn:E.
  - destruct (current_kv st k kv Hw E) as (rev&_&_&_&Hv).
    destruct r; symmetry.
    + rewrite bool_decide_false by done. symmetry. apply Z.eqb_neq. lia.
    + rewrite bool_decide_true by by eexists. symmetry. apply Z.gtb_lt. lia.
    + symmetry. apply Z.ltb_ge. lia.
  - destruct r; symmetry; [by apply bool_decide_eq_true|by apply bool_decide_eq_false; intros []|done].
Qed.

Definition op_fine (st : Store) (k : string) (op : Op) : Prop :=
  op_key op = k /\ k <> "" /\ checkPut st op = Ok () /\ checkRange st op = Ok ().

Lemma Txn_writes_total st (ops : gmap string Op) :
  map_Forall (op_fine st) ops -> size ops <= MaxOpsPerTxn ->
  exists tr st', Txn st [] (map_to_list ops).*2 [] = Ok (tr, st').
Proof.
  intros Hops Hs.
  assert (Hin : forall k op, (k, op) ∈ map_to_list ops -> op_fine st k op)
    by (intros k op Hi%elem_of_map_to_list; by apply Hops).
  unfold Txn, checkTxnRequest. cbn [length existsb forallb].
  rewrite (bool_decide_false (MaxOpsPerTxn < 0)) by lia.
  rewrite length_fmap, length_map_to_list, (bool_decide_false (MaxOpsPerTxn < size ops)) by lia.
  rewrite checkOps_distinct; [|apply NoDup_fst_map_to_list|].
  2:{ apply list.Forall_forall. intros [k op] Hi. destruct (Hin k op Hi) as (?&?&_). done. }
  assert (Hch : forall check, (forall k op, op_fine st k op -> check op = Ok ()) ->
    checkEach check (map_to_list ops).*2 = Ok ()).
  { intros check Hc. apply checkEach_ok, list.Forall_forall.
    intros op ([k op']&->&Hi)%list_elem_of_fmap. by apply (Hc k), Hin. }
  unfold checkAll. cbn [mbind outcome_mbind outcome_bind].
  rewrite (Hch (checkPut st)) by (by intros ? ? (?&?&?&?)).
  rewrite (Hch (checkRange st)) by (by intros ? ? (?&?&?&?)).
  simpl. destruct (applyOps _ _ _). by eexists _, _.
Qed.

(** ** Watches of a prefix *)

Lemma elem_of_range_events st rev key rend ev :
  ev ∈ range_events st rev key rend <-> exists k, in_range key rend k = true /\ key_event st rev k = Some ev.
Proof.
  unfold range_events. rewrite list_elem_of_omap. split.
  - intros (k&Hk&He). rewrite (merge_sort_Permutation _), list_elem_of_filter in Hk. exists k. by split; [apply Hk|].
  - intros (k&Hk&He). exists k. split; [|done]. rewrite (merge_sort_Permutation _), list_elem_of_filter. split; [done|].
    apply elem_of_elements, elem_of_union. rewrite !elem_of_dom. unfold key_event in He.
    destruct (at_rev st rev !! k); [left; by eexists|right]. destruct (at_rev st (rev - 1) !! k); [by eexists|done].
Qed.

(** A watch that starts at the last revision has that revision's response only. *)
Lemma watch_prefix_last st q ev :
  st_snaps st <> [] -> ev ∈ range_events st (st_rev st) q (Some (GetPrefixRangeEnd q)) ->
  watch_prefix st q (st_rev st) =
    [{| wr_Err := None; wr_Events := range_events st (st_rev st) q (Some (GetPrefixRangeEnd q)) |}].
Proof.
  intros Hne Hev. unfold watch_prefix.
  assert (seq 0 (length (st_snaps st)) = [0] ++ seq 1 (length (st_snaps st) - 1)) as ->.
  { destruct (st_snaps st) as [|s l]; [done|]. simpl. by rewrite Nat.sub_0_r. }
  rewrite omap_app, (omap_nil _ (seq 1 _)), app_nil_r.
  - cbn [omap list_omap]. cbv zeta. rewrite Z.add_0_r, (proj2 (Z.ltb_ge _ _)) by lia.
    by destruct (range_events _ _ _ _) as [|]; [apply not_elem_of_nil in Hev|].
  - intros i Hi%elem_of_seq. cbv zeta. by rewrite (proj2 (Z.ltb_lt _ _)) by lia.
Qed.
