(* ===== verification/KeyKV.v ===== *)
(** * The etcd client that encodes keys (keyencode/kv.go, keyencode/watch.go)

    [NewKV] and [NewWatcher] wrap an etcd client: they encode the keys of
    requests and decode those of responses.  The daemon above them is written as
    if the store had plaintext keys; the theorem is that it may be. *)

From S2P Require Import Prelude GoLib Key HmacKey Etcd.

(** ** One operation outside a transaction (clientv3 [KV.Do]) *)

Definition Do (st : Store) (op : Op) : outcome (ResponseOp * Store) :=
  match op with
  | OpGet k rend rev => r ← Get st k rend rev; Ok (RespGet r, st)
  | OpPut k v l =>
    st' ← Put st k v l; Ok (RespPut {| pr_Revision := st_rev st'; pr_PrevKv := None |}, st')
  | OpDelete k =>
    st' ← Delete st k;
    Ok (RespDelete {| dr_Revision := st_rev st';
          dr_Deleted := if bool_decide (current st !! k = None) then 0 else 1; dr_PrevKvs := [] |}, st')
  end.

Definition set_Key (k : string) (kv : KeyValue) : KeyValue := {|
  kv_Key := k; kv_Value := kv_Value kv; kv_CreateRevision := kv_CreateRevision kv;
  kv_ModRevision := kv_ModRevision kv; kv_Version := kv_Version kv; kv_Lease := kv_Lease kv |}.

Section kv.
Context (ke : KeyEncoder).

(** ** Requests *)

Definition encOp (op : Op) : outcome Op :=
  ek ← Encode ke (op_key op);
  match op with
  | OpGet k None rev => Ok (OpGet ek None rev)
  | OpGet k (Some e) rev =>
    if bool_decide (e = GetPrefixRangeEnd k) then Ok (OpGet ek (Some (GetPrefixRangeEnd ek)) rev)
    else if bool_decide (e = noPrefixEnd) then Ok (OpGet ek (Some e) rev)
    else Panic
  | OpPut _ v l => Ok (OpPut ek v l)
  | OpDelete _ => Ok (OpDelete ek)
  end.

Definition encCmp (c : Cmp) : outcome Cmp :=
  ek ← Encode ke (cmp_Key c);
  Ok {| cmp_Key := ek; cmp_Target := cmp_Target c; cmp_Result := cmp_Result c; cmp_Value := cmp_Value c |}.

(** ** Responses *)

Definition decKv (kv : KeyValue) : outcome KeyValue :=
  k ← or_die (Decode ke (kv_Key kv)); Ok (set_Key k kv).

Definition decPrev (prev : option KeyValue) : outcome (option KeyValue) :=
  match prev with None => Ok None | Some kv => kv' ← decKv kv; Ok (Some kv') end.

Definition decGetResponse (r : GetResponse) : outcome GetResponse :=
  kvs ← traverse decKv (gr_Kvs r); Ok {| gr_Revision := gr_Revision r; gr_Kvs := kvs |}.

Definition decPutResponse (r : PutResponse) : outcome PutResponse :=
  p ← decPrev (pr_PrevKv r); Ok {| pr_Revision := pr_Revision r; pr_PrevKv := p |}.

Definition decDeleteResponse (r : DeleteResponse) : outcome DeleteResponse :=
  kvs ← traverse decKv (dr_PrevKvs r);
  Ok {| dr_Revision := dr_Revision r; dr_Deleted := dr_Deleted r; dr_PrevKvs := kvs |}.

Definition decResponse (r : ResponseOp) : outcome ResponseOp :=
  match r with
  | RespGet g => g' ← decGetResponse g; Ok (RespGet g')
  | RespPut p => p' ← decPutResponse p; Ok (RespPut p')
  | RespDelete d => d' ← decDeleteResponse d; Ok (RespDelete d')
  end.

Definition decTxnResponse (r : TxnResponse) : outcome TxnResponse :=
  rs ← traverse decResponse (tr_Responses r);
  Ok {| tr_Revision := tr_Revision r; tr_Succeeded := tr_Succeeded r; tr_Responses := rs |}.

(** ** The wrapped client *)

Definition kv_Do (st : Store) (op : Op) : outcome (ResponseOp * Store) :=
  op' ← encOp op;
  '(r, st') ← Do st op';
  r' ← decResponse r;
  Ok (r', st').

Definition kv_Put (st : Store) (key val : string) (l : PutLease) : outcome (PutResponse * Store) :=
  '(r, st') ← kv_Do st (OpPut key val l);
  match r with RespPut p => Ok (p, st') | _ => Panic end.

Definition kv_Get (st : Store) (key : string) (rend : option string) (rev : Z) : outcome (GetResponse * Store) :=
  '(r, st') ← kv_Do st (OpGet key rend rev);
  match r with RespGet g => Ok (g, st') | _ => Panic end.

Definition kv_Delete (st : Store) (key : string) : outcome (DeleteResponse * Store) :=
  '(r, st') ← kv_Do st (OpDelete key);
  match r with RespDelete d => Ok (d, st') | _ => Panic end.

(** [Txn(ctx).If(cmps).Then(succ).Else(fail).Commit()]. *)
Definition txn_If (cmps : list Cmp) : outcome (list Cmp) := traverse encCmp cmps.
Definition txn_Then (ops : list Op) : outcome (list Op) := traverse encOp ops.
Definition txn_Else (ops : list Op) : outcome (list Op) := traverse encOp ops.

Definition txn_Commit (st : Store) (cmps : list Cmp) (succ fail : list Op) : outcome (TxnResponse * Store) :=
  '(r, st') ← Txn st cmps succ fail;
  r' ← decTxnResponse r;
  Ok (r', st').

Definition kv_Txn (st : Store) (cmps : list Cmp) (succ fail : list Op) : outcome (TxnResponse * Store) :=
  cmps' ← txn_If cmps;
  succ' ← txn_Then succ;
  fail' ← txn_Else fail;
  txn_Commit st cmps' succ' fail'.

(** ** Watches

    The wrapper decodes the keys of each response of the inner watch in order; a
    key that does not decode panics. *)

Definition decEventKey (k : string) : outcome string :=
  if bool_decide (String.length k = 0) then Ok k else or_die (Decode ke k).

Definition decEventPrev (prev : option KeyValue) : outcome (option KeyValue) :=
  match prev with
  | None => Ok None
  | Some kv => k ← decEventKey (kv_Key kv); Ok (Some (set_Key k kv))
  end.

Definition decEvent (ev : Event) : outcome Event :=
  match ev with
  | EvPut kv prev =>
    k ← decEventKey (kv_Key kv); prev' ← decEventPrev prev; Ok (EvPut (set_Key k kv) prev')
  | EvDelete key rev prev =>
    k ← decEventKey key; prev' ← decEventPrev prev; Ok (EvDelete k rev prev')
  end.

Definition decWatchResponse (wr : WatchResponse) : outcome WatchResponse :=
  evs ← traverse decEvent (wr_Events wr); Ok {| wr_Err := wr_Err wr; wr_Events := evs |}.

(** The options go to the inner watch, so [WithPrefix] makes a range of the encoded
    key. *)
Definition kv_Watch (st : Store) (key : string) (WithPrefix : bool) (from : Z) : outcome (list WatchResponse) :=
  ek ← Encode ke key;
  traverse decWatchResponse (if WithPrefix then watch_prefix st ek from else watch_key st ek from).

End kv.

(** ** What the wrapper relies on

    [K]: the keys the client stores; [Q]: the prefixes it asks for.  An encoder
    is prefix preserving when it is lawful on the keys and a query for an
    encoded prefix finds the encodings of the keys with that prefix. *)

Class PrefixEncoder (ke : KeyEncoder) (K Q : string -> Prop) := {
  pe_lawful : LawfulEncoder ke K;
  pe_prefix_total q : Q q -> exists e, Encode ke q = Ok e;
  pe_nonempty s e : K s \/ Q s -> Encode ke s = Ok e -> s <> "" /\ e <> "";
  pe_prefix q k eq ek : Q q -> K k -> Encode ke q = Ok eq -> Encode ke k = Ok ek ->
    HasPrefix ek eq = HasPrefix k q;
}.
#[export] Hint Resolve pe_lawful : typeclass_instances.

(** The requests the wrapper handles. *)
Definition op_within (K Q : string -> Prop) (op : Op) : Prop :=
  match op with
  | OpGet k None _ | OpPut k _ _ | OpDelete k => K k
  | OpGet q (Some e) _ => Q q /\ e = GetPrefixRangeEnd q
  end.

(** What a prefix query returns comes in the order of the encoded keys. *)
Definition resp_equiv (r r' : ResponseOp) : Prop :=
  match r, r' with
  | RespGet g, RespGet g' => gr_Revision g = gr_Revision g' /\ gr_Kvs g ≡ₚ gr_Kvs g'
  | _, _ => r = r'
  end.

Definition txn_equiv (r r' : TxnResponse) : Prop :=
  tr_Revision r = tr_Revision r' /\ tr_Succeeded r = tr_Succeeded r' /\
  Forall2 resp_equiv (tr_Responses r) (tr_Responses r').

Section refinement.
Context {ke : KeyEncoder} {K Q : string -> Prop} `{!PrefixEncoder ke K Q}.

(** The encoded store holds the pairs of the plain one under their encoded keys,
    at every revision. *)
Record enc_snap (s s' : snapshot) : Prop := {
  es_key k kv : s !! k = Some kv -> kv_Key kv = k /\ K k;
  es_fwd k kv e : s !! k = Some kv -> Encode ke k = Ok e -> s' !! e = Some (set_Key e kv);
  es_bwd e kv' : s' !! e = Some kv' -> exists k, is_Some (s !! k) /\ Encode ke k = Ok e;
}.

Record enc_store (st st' : Store) : Prop := {
  et_snaps : Forall2 enc_snap (st_snaps st) (st_snaps st');
  et_leases : st_leases st = st_leases st';
}.

Lemma Encode_inj k1 k2 e : K k1 -> K k2 -> Encode ke k1 = Ok e -> Encode ke k2 = Ok e -> k1 = k2.
Proof.
  intros H1 H2 E1 E2. pose proof (decode_encode _ _ H1 E1) as D. rewrite (decode_encode _ _ H2 E2) in D.
  by injection D.
Qed.

Lemma enc_lookup s s' k e :
  enc_snap s s' -> K k -> Encode ke k = Ok e -> s' !! e = set_Key e <$> s !! k.
Proof.
  intros [Hk Hf Hb] HK He. destruct (s !! k) as [kv|] eqn:E; simpl; [by eapply Hf|].
  destruct (s' !! e) as [kv'|] eqn:E'; [|done]. apply Hb in E' as (k'&[kv Hkv]&He').
  assert (k' = k) as -> by (eapply Encode_inj; eauto; by eapply Hk). congruence.
Qed.

Lemma enc_store_rev st st' : enc_store st st' -> st_rev st = st_rev st'.
Proof. intros [Hs _]. unfold st_rev. by rewrite (Forall2_length Hs). Qed.

Lemma enc_snap_empty : enc_snap ∅ ∅.
Proof. by split. Qed.

Lemma enc_store_current st st' : enc_store st st' -> enc_snap (current st) (current st').
Proof.
  intros [Hs _]. unfold current. destruct Hs; simpl; [apply enc_snap_empty|done].
Qed.

Lemma enc_store_at st st' rev : enc_store st st' -> enc_snap (at_rev st rev) (at_rev st' rev).
Proof.
  intros Hst. pose proof Hst as [Hs _]. unfold at_rev. rewrite (enc_store_rev _ _ Hst).
  destruct (st_snaps st !! _) as [s|] eqn:E.
  - eapply Forall2_lookup_l in E as (s'&->&?); [done|done].
  - assert (st_snaps st' !! Z.to_nat (st_rev st' - rev) = None) as ->; [|apply enc_snap_empty].
    apply lookup_ge_None. rewrite <-(Forall2_length Hs). by apply lookup_ge_None.
Qed.

(** ** Snapshots under writes and ranges *)

Lemma enc_put_kv s s' rev k e v l :
  enc_snap s s' -> K k -> Encode ke k = Ok e -> put_kv rev s' e v l = set_Key e (put_kv rev s k v l).
Proof.
  intros Hs HK He. unfold put_kv, set_Key. simpl. rewrite (enc_lookup s s' k e) by done. by destruct (s !! k).
Qed.

Lemma enc_insert s s' k kv e :
  enc_snap s s' -> kv_Key kv = k -> K k -> Encode ke k = Ok e -> enc_snap (<[k := kv]> s) (<[e := set_Key e kv]> s').
Proof.
  intros [Hk Hf Hb] Hkv HK He. split.
  - intros k1 kv1 [[<- <-]|[_ ?]]%lookup_insert_Some; [done|eauto].
  - intros k1 kv1 e1 [[<- <-]|[Hne H1]]%lookup_insert_Some He1.
    + assert (e1 = e) as -> by congruence. by rewrite lookup_insert_eq.
    + rewrite lookup_insert_ne; [by eapply Hf|]. intros ->. apply Hne.
      eapply (Encode_inj k k1); eauto. by eapply Hk.
  - intros e1 kv1 [[<- <-]|[Hne H1]]%lookup_insert_Some.
    + exists k. by rewrite lookup_insert_eq.
    + destruct (Hb e1 kv1 H1) as (k1&Hk1&?). exists k1. rewrite lookup_insert_ne by congruence. done.
Qed.

Lemma enc_delete s s' k e :
  enc_snap s s' -> K k -> Encode ke k = Ok e -> enc_snap (delete k s) (delete e s').
Proof.
  intros [Hk Hf Hb] HK He. split.
  - intros k1 kv1 [_ ?]%lookup_delete_Some. eauto.
  - intros k1 kv1 e1 [Hne H1]%lookup_delete_Some He1. rewrite lookup_delete_ne; [by eapply Hf|].
    intros ->. apply Hne. eapply (Encode_inj k k1); eauto. by eapply Hk.
  - intros e1 kv1 [Hne H1]%lookup_delete_Some. destruct (Hb e1 kv1 H1) as (k1&Hk1&?). exists k1.
    rewrite lookup_delete_ne by congruence. done.
Qed.

Lemma set_Key_set_Key k k' kv : set_Key k (set_Key k' kv) = set_Key k kv.
Proof. done. Qed.

Lemma set_Key_id kv : set_Key (kv_Key kv) kv = kv.
Proof. by destruct kv. Qed.

Lemma decKv_set_Key kv e : K (kv_Key kv) -> Encode ke (kv_Key kv) = Ok e -> decKv ke (set_Key e kv) = Ok kv.
Proof.
  intros HK He. unfold decKv. simpl. rewrite (decode_encode _ _ HK He). simpl.
  by rewrite set_Key_set_Key, set_Key_id.
Qed.

(** The pairs of an encoded snapshot, decoded. *)
Lemma decKv_enc s s' e kv' :
  enc_snap s s' -> s' !! e = Some kv' ->
  exists k kv, s !! k = Some kv /\ Encode ke k = Ok e /\ decKv ke kv' = Ok kv /\ kv' = set_Key e kv.
Proof.
  intros Hs He. destruct (es_bwd _ _ Hs e kv' He) as (k&[kv Hk]&Hek). exists k, kv.
  pose proof (es_fwd _ _ Hs _ _ _ Hk Hek) as E. rewrite E in He. injection He as <-.
  destruct (es_key _ _ Hs _ _ Hk) as [Hkey HK]. split_and!; try done.
  apply decKv_set_Key; by rewrite Hkey.
Qed.

Lemma NoDup_range_kvs (s : snapshot) key rend :
  (forall k kv, s !! k = Some kv -> kv_Key kv = k) -> NoDup (range_kvs s key rend).
Proof.
  intros Hk. unfold range_kvs. destruct rend as [e|].
  - apply NoDup_fmap_2_strong.
    + intros [k1 kv1] [k2 kv2]. rewrite !(merge_sort_Permutation kv_le), !list_elem_of_filter, !elem_of_map_to_list.
      simpl. intros [_ ?%Hk] [_ ?%Hk]. congruence.
    + rewrite (merge_sort_Permutation kv_le). apply list.NoDup_filter, NoDup_map_to_list.
  - destruct (s !! key); simpl; [apply NoDup_singleton|constructor].
Qed.

Definition dec_pure (kv' : KeyValue) : KeyValue :=
  match decKv ke kv' with Ok kv => kv | _ => kv' end.

Lemma enc_range s s' key rend ek rend' :
  enc_snap s s' ->
  (forall k e, K k -> Encode ke k = Ok e -> in_range ek rend' e = in_range key rend k) ->
  exists l, traverse (decKv ke) (range_kvs s' ek rend') = Ok l /\ range_kvs s key rend ≡ₚ l.
Proof.
  intros Hs Hr.
  assert (forall e kv', s' !! e = Some kv' -> kv_Key kv' = e) as Hkey'.
  { intros e kv' H'. destruct (decKv_enc _ _ _ _ Hs H') as (k&kv&_&_&_&->). done. }
  exists (dec_pure <$> range_kvs s' ek rend'). split.
  - apply traverse_fmap. intros kv' (e&He&_)%elem_of_range_kvs.
    destruct (decKv_enc _ _ _ _ Hs He) as (k&kv&_&_&Hd&_). unfold dec_pure. by rewrite Hd.
  - apply NoDup_Permutation.
    + apply NoDup_range_kvs. intros k kv Hk. by eapply es_key.
    + apply NoDup_fmap_2_strong; [|by apply NoDup_range_kvs].
      intros x y (e1&H1&_)%elem_of_range_kvs (e2&H2&_)%elem_of_range_kvs.
      destruct (decKv_enc _ _ _ _ Hs H1) as (k1&kv1&Hk1&E1&D1&->).
      destruct (decKv_enc _ _ _ _ Hs H2) as (k2&kv2&Hk2&E2&D2&->).
      unfold dec_pure. rewrite D1, D2. intros ->.
      assert (k1 = k2) as ->. { destruct (es_key _ _ Hs _ _ Hk1), (es_key _ _ Hs _ _ Hk2). congruence. }
      congruence.
    + intros kv. rewrite list_elem_of_fmap. setoid_rewrite elem_of_range_kvs. split.
      * intros (k&Hk&Hin). destruct (es_key _ _ Hs _ _ Hk) as [Hkey HK].
        destruct (encode_total (LawfulEncoder := pe_lawful) k HK) as [e He].
        pose proof (es_fwd _ _ Hs _ _ _ Hk He) as Hf. exists (set_Key e kv). split.
        -- unfold dec_pure. rewrite (decKv_set_Key kv e); by rewrite ?Hkey.
        -- exists e. split; [done|]. by rewrite (Hr k e).
      * intros (kv'&->&e&He&Hin). destruct (decKv_enc _ _ _ _ Hs He) as (k&kv&Hk&Hek&Hd&->).
        exists k. unfold dec_pure. rewrite Hd. split; [done|]. rewrite <-(Hr k e); [done| |done].
        by eapply es_key.
Qed.

(** ** Operations *)

Definition in_range_agrees (key : string) (rend : option string) (ek : string) (rend' : option string) : Prop :=
  forall k e, K k -> Encode ke k = Ok e -> in_range ek rend' e = in_range key rend k.

(** An encoded operation: the same one on the encoded key. *)
Inductive op_encoded : Op -> Op -> Prop :=
  | oe_get k rend rev ek rend' : in_range_agrees k rend ek rend' ->
      op_encoded (OpGet k rend rev) (OpGet ek rend' rev)
  | oe_put k v l ek : K k -> Encode ke k = Ok ek -> op_encoded (OpPut k v l) (OpPut ek v l)
  | oe_delete k ek : K k -> Encode ke k = Ok ek -> op_encoded (OpDelete k) (OpDelete ek).

Lemma in_range_key k ek : K k -> Encode ke k = Ok ek -> in_range_agrees k None ek None.
Proof.
  intros HK He k1 e1 HK1 He1. unfold in_range. apply bool_decide_ext. split; intros ->; [|congruence].
  by eapply (Encode_inj k1 k).
Qed.

Lemma in_range_pfx q eq : Q q -> Encode ke q = Ok eq ->
  in_range_agrees q (Some (GetPrefixRangeEnd q)) eq (Some (GetPrefixRangeEnd eq)).
Proof. intros HQ He k1 e1 HK1 He1. rewrite !in_range_prefix. by apply (pe_prefix q k1). Qed.

Lemma encOp_encoded op : op_within K Q op ->
  exists op', encOp ke op = Ok op' /\ op_encoded op op' /\ op_key op <> "" /\ op_key op' <> "".
Proof.
  assert (forall k, K k -> exists e, Encode ke k = Ok e /\ k <> "" /\ e <> "") as Htot.
  { intros k HK. destruct (encode_total (LawfulEncoder := pe_lawful) k HK) as [e He]. exists e.
    split; [done|]. eapply pe_nonempty; eauto. }
  intros Hop. unfold encOp. destruct op as [k [e|] rev|k v l|k]; simpl in *.
  - destruct Hop as [HQ ->]. destruct (pe_prefix_total k HQ) as [ek He]. rewrite He. simpl.
    rewrite bool_decide_true by done. eexists. split; [done|].
    split; [constructor; by apply in_range_pfx|]. eapply pe_nonempty; eauto.
  - destruct (Htot k Hop) as (ek&He&?&?). rewrite He. eexists. split; [done|].
    split; [constructor; by apply in_range_key|done].
  - destruct (Htot k Hop) as (ek&He&?&?). rewrite He. eexists. split; [done|]. by split; [constructor|].
  - destruct (Htot k Hop) as (ek&He&?&?). rewrite He. eexists. split; [done|]. by split; [constructor|].
Qed.

Lemma enc_applyOp st st' s s' c op op' s1 c1 r :
  enc_store st st' -> enc_snap s s' -> op_encoded op op' -> applyOp st (s, c) op = (s1, c1, r) ->
  exists s1' r' r'', applyOp st' (s', c) op' = (s1', c1, r') /\ enc_snap s1 s1' /\
    decResponse ke r' = Ok r'' /\ resp_equiv r r''.
Proof.
  intros Hst Hs Ho Ha. pose proof (enc_store_rev _ _ Hst) as Hrev.
  destruct Ho as [k rend rev ek rend' Hr|k v l ek HK He|k ek HK He]; simpl in *.
  - injection Ha as <- <- <-. rewrite <-Hrev.
    destruct (enc_range (if (rev <=? 0)%Z then s else at_rev st rev)
      (if (rev <=? 0)%Z then s' else at_rev st' rev) k rend ek rend') as (l&Hl&Hp); [|done|].
    { case_match; [done|by apply enc_store_at]. }
    do 3 eexists. split; [done|]. split; [done|]. simpl. unfold decGetResponse. simpl. rewrite Hl. by split.
  - injection Ha as <- <- <-. rewrite <-Hrev. do 3 eexists. split; [done|].
    rewrite (enc_put_kv s s' _ k ek) by done. split; [by apply enc_insert|done].
  - rewrite (enc_lookup s s' k ek Hs HK He), <-Hrev. destruct (s !! k); simpl; simplify_eq;
      do 3 eexists; (split; [done|]); (split; [by apply enc_delete || done|done]).
Qed.

Lemma enc_applyOps st st' ops ops' s s' c s1 c1 rs :
  enc_store st st' -> enc_snap s s' -> Forall2 op_encoded ops ops' -> applyOps st (s, c) ops = (s1, c1, rs) ->
  exists s1' rs' rs'', applyOps st' (s', c) ops' = (s1', c1, rs') /\ enc_snap s1 s1' /\
    traverse (decResponse ke) rs' = Ok rs'' /\ Forall2 resp_equiv rs rs''.
Proof.
  intros Hst Hs Ho. revert s s' c s1 c1 rs Hs.
  induction Ho as [|op op' ops ops' Hop Ho IH]; intros s s' c s1 c1 rs Hs Ha; cbn [applyOps] in Ha.
  - injection Ha as <- <- <-. by exists s', [], [].
  - destruct (applyOp st (s, c) op) as [[s2 c2] r] eqn:E.
    destruct (applyOps st (s2, c2) ops) as [[s3 c3] rs2] eqn:E2. injection Ha as <- <- <-.
    destruct (enc_applyOp _ _ _ _ _ _ _ _ _ _ Hst Hs Hop E) as (s2'&r'&r''&E'&Hs2&Hd&Hr).
    destruct (IH _ _ _ _ _ _ Hs2 E2) as (s3'&rs'&rs''&E2'&Hs3&Hds&Hrs).
    exists s3', (r' :: rs'), (r'' :: rs''). cbn [applyOps traverse]. rewrite E', E2', Hd. simpl. rewrite Hds.
    split_and!; try done. by constructor.
Qed.

Lemma enc_push st st' s s' c : enc_store st st' -> enc_snap s s' -> enc_store (push_snap st (s, c)) (push_snap st' (s', c)).
Proof.
  intros [Hss Hl] Hs. unfold push_snap. destruct c; simpl; split; simpl; auto.
Qed.

(** ** Checks *)

Lemma enc_compare s s' c c' :
  enc_snap s s' -> K (cmp_Key c) -> encCmp ke c = Ok c' -> applyCompare s' c' = applyCompare s c.
Proof.
  intros Hs HK Hc. unfold encCmp in Hc. apply outcome_bind_ok in Hc as (ek&He&[= <-]).
  unfold applyCompare. simpl. rewrite (enc_lookup s s' (cmp_Key c) ek Hs HK He).
  destruct (s !! cmp_Key c); simpl; [|done]. by destruct (cmp_Target c).
Qed.

Lemma enc_put_keys ops ops' :
  Forall2 op_encoded ops ops' ->
  Forall2 (fun k e => K k /\ Encode ke k = Ok e) (put_keys ops) (put_keys ops') /\
  Forall2 (fun k e => K k /\ Encode ke k = Ok e) (del_keys ops) (del_keys ops').
Proof.
  induction 1 as [|op op' ops ops' Ho _ [IH1 IH2]]; [by split|].
  destruct Ho; simpl; split; try done; by constructor.
Qed.

Lemma enc_elem l l' k e :
  Forall2 (fun k e => K k /\ Encode ke k = Ok e) l l' -> K k -> Encode ke k = Ok e -> e ∈ l' <-> k ∈ l.
Proof.
  intros Hl HK He. induction Hl as [|k1 e1 l l' [HK1 He1] _ IH].
  - by split; intros ?%not_elem_of_nil.
  - rewrite !elem_of_cons, IH. split; (intros [->|?]; [left|by right]); [by eapply (Encode_inj k k1)|congruence].
Qed.

Lemma enc_NoDup l l' :
  Forall2 (fun k e => K k /\ Encode ke k = Ok e) l l' -> NoDup l' <-> NoDup l.
Proof.
  induction 1 as [|k e l l' [HK He] Hl IH]; [split; constructor|].
  rewrite !list.NoDup_cons, IH, (enc_elem l l' k e) by done. done.
Qed.

Lemma enc_dup_keys ops ops' : Forall2 op_encoded ops ops' -> dup_keys ops' = dup_keys ops.
Proof.
  intros [Hp Hd]%enc_put_keys. unfold dup_keys. f_equal.
  - f_equal. apply bool_decide_ext, enc_NoDup, Hp.
  - induction Hd as [|k e l l' [HK He] _ IH]; simpl; [done|]. rewrite IH. f_equal.
    by apply bool_decide_ext, enc_elem.
Qed.

Lemma enc_checkPut st st' op op' : enc_store st st' -> op_encoded op op' -> checkPut st' op' = checkPut st op.
Proof.
  intros Hst Ho. pose proof (enc_store_current _ _ Hst) as Hc.
  destruct Ho as [|k v l ek HK He|]; simpl; try done. rewrite (et_leases _ _ Hst). destruct l; try done.
  rewrite (enc_lookup _ _ k ek Hc HK He). by destruct (current st !! k).
Qed.

Lemma enc_checkRange st st' op op' : enc_store st st' -> op_encoded op op' -> checkRange st' op' = checkRange st op.
Proof. intros Hst Ho. destruct Ho; simpl; by rewrite ?(enc_store_rev _ _ Hst). Qed.

Lemma enc_checkAll st st' ops ops' :
  enc_store st st' -> Forall2 op_encoded ops ops' -> checkAll st' ops' = checkAll st ops.
Proof.
  intros Hst Ho. unfold checkAll.
  assert (checkEach (checkPut st') ops' = checkEach (checkPut st) ops) as ->.
  { induction Ho as [|op op' ops ops' Ho _ IH]; simpl; [done|]. by rewrite IH, (enc_checkPut st st' op op'). }
  f_equal. induction Ho as [|op op' ops ops' Ho _ IH]; simpl; [done|].
  by rewrite IH, (enc_checkRange st st' op op').
Qed.

(** Encoding the operations of a request, all of them or none. *)
Lemma traverse_encOp ops : Forall (op_within K Q) ops ->
  exists ops', traverse (encOp ke) ops = Ok ops' /\ Forall2 op_encoded ops ops' /\
    checkOps ops' = checkOps ops.
Proof.
  intros Hops.
  assert (exists ops', traverse (encOp ke) ops = Ok ops' /\ Forall2 op_encoded ops ops' /\
    existsb (fun op => bool_decide (op_key op = "")) ops = false /\
    existsb (fun op => bool_decide (op_key op = "")) ops' = false) as (ops'&Ht&Ho&E&E').
  { induction Hops as [|op ops Hop _ (ops'&Ht&Ho&E&E')]; [by exists []|].
    destruct (encOp_encoded op Hop) as (op'&He&Hop'&Hne&Hne'). exists (op' :: ops'). simpl.
    rewrite He, E, E', !bool_decide_false by done. simpl. rewrite Ht. split_and!; try done. by constructor. }
  exists ops'. split_and!; try done. unfold checkOps. by rewrite E, E', (enc_dup_keys ops ops').
Qed.

Lemma traverse_encCmp cmps : Forall (fun c => K (cmp_Key c)) cmps ->
  exists cmps', traverse (encCmp ke) cmps = Ok cmps' /\ length cmps' = length cmps /\
    existsb (fun c => bool_decide (cmp_Key c = "")) cmps' = existsb (fun c => bool_decide (cmp_Key c = "")) cmps /\
    forall s s', enc_snap s s' -> forallb (applyCompare s') cmps' = forallb (applyCompare s) cmps.
Proof.
  induction 1 as [|c cmps HK _ (cmps'&Ht&Hl&He&Hf)]; [by exists []|].
  destruct (encode_total (LawfulEncoder := pe_lawful) _ HK) as [ek Hek].
  destruct (pe_nonempty _ _ (or_introl HK) Hek).
  assert (exists c', encCmp ke c = Ok c' /\ cmp_Key c' <> "") as (c'&Hc&?).
  { unfold encCmp. rewrite Hek. by eexists. }
  exists (c' :: cmps'). simpl. rewrite Hc. simpl. rewrite Ht. simpl. rewrite Hl, He, !bool_decide_false by done.
  split_and!; try done. intros s s' Hs. by rewrite (Hf s s' Hs), (enc_compare s s' c c' Hs HK Hc).
Qed.

(** The result of a request on the plain store and through the wrapper. *)
Definition same_result {R} (equiv : R -> R -> Prop) (m m' : outcome (R * Store)) : Prop :=
  match m, m' with
  | Ok (r, st), Ok (r', st') => equiv r r' /\ enc_store st st'
  | Err e, Err e' => e = e'
  | _, _ => False
  end.

Lemma checkEach_cases check ops :
  (forall op, check op = Ok () \/ exists e, check op = Err e) ->
  checkEach check ops = Ok () \/ exists e, checkEach check ops = Err e.
Proof.
  intros Hc. induction ops as [|op ops IH]; simpl; [by left|].
  destruct (Hc op) as [->|[e ->]]; simpl; [done|by right; exists e].
Qed.

Lemma checkAll_cases st ops : checkAll st ops = Ok () \/ exists e, checkAll st ops = Err e.
Proof.
  unfold checkAll. destruct (checkEach_cases (checkPut st) ops) as [->|[e ->]]; simpl; [..|by right; exists e].
  - intros [| ? ? []|]; simpl; repeat case_match; eauto.
  - apply checkEach_cases. intros []; simpl; repeat case_match; eauto.
Qed.

Lemma checkOps_cases ops : checkOps ops = Ok () \/ exists e, checkOps ops = Err e.
Proof. unfold checkOps. repeat case_match; eauto. Qed.

Lemma checkTxnRequest_cases cmps succ fail :
  checkTxnRequest cmps succ fail = Ok () \/ exists e, checkTxnRequest cmps succ fail = Err e.
Proof.
  unfold checkTxnRequest. repeat case_match; eauto.
  destruct (checkOps_cases succ) as [->|[e ->]]; simpl; eauto using checkOps_cases.
Qed.

Lemma kv_Txn_same st st' cmps succ fail :
  enc_store st st' -> Forall (fun c => K (cmp_Key c)) cmps ->
  Forall (op_within K Q) succ -> Forall (op_within K Q) fail ->
  same_result txn_equiv (Txn st cmps succ fail) (kv_Txn ke st' cmps succ fail).
Proof.
  intros Hst Hc Hsu Hfa. pose proof (enc_store_current _ _ Hst) as Hcur.
  destruct (traverse_encCmp cmps Hc) as (cmps'&Hct&Hcl&Hce&Hcf).
  destruct (traverse_encOp succ Hsu) as (succ'&Hst1&Ho1&Hk1).
  destruct (traverse_encOp fail Hfa) as (fail'&Hst2&Ho2&Hk2).
  unfold kv_Txn, txn_If, txn_Then, txn_Else. rewrite Hct. simpl. rewrite Hst1. simpl. rewrite Hst2. simpl.
  unfold txn_Commit, Txn.
  assert (checkTxnRequest cmps' succ' fail' = checkTxnRequest cmps succ fail) as ->.
  { unfold checkTxnRequest.
    by rewrite Hcl, Hce, <-(Forall2_length Ho1), <-(Forall2_length Ho2), Hk1, Hk2. }
  destruct (checkTxnRequest_cases cmps succ fail) as [->|[e ->]]; simpl; [|done].
  rewrite (Hcf _ _ Hcur). set (ok := forallb (applyCompare (current st)) cmps).
  assert (Forall2 op_encoded (if ok then succ else fail) (if ok then succ' else fail')) as Ho by by destruct ok.
  rewrite (enc_checkAll st st' _ _ Hst Ho).
  destruct (checkAll_cases st (if ok then succ else fail)) as [->|[e ->]]; simpl; [|done].
  destruct (applyOps st (current st, false) _) as [[s1 c1] rs] eqn:E.
  destruct (enc_applyOps _ _ _ _ _ _ _ _ _ _ Hst Hcur Ho E) as (s1'&rs'&rs''&->&Hs1&Hd&Hrs).
  simpl. unfold decTxnResponse. simpl. rewrite Hd. simpl.
  pose proof (enc_push st st' s1 s1' c1 Hst Hs1) as Hp. split; [|done].
  split_and!; try done. simpl. by apply enc_store_rev.
Qed.

Local Arguments push_snap : simpl never.
Local Arguments st_rev : simpl never.
Local Arguments checkPut : simpl never.

Lemma kv_Do_same st st' op :
  enc_store st st' -> op_within K Q op -> same_result resp_equiv (Do st op) (kv_Do ke st' op).
Proof.
  intros Hst Hop. pose proof (enc_store_current _ _ Hst) as Hcur. pose proof (enc_store_rev _ _ Hst) as Hrev.
  destruct (encOp_encoded op Hop) as (op'&He&Ho&Hne&Hne'). unfold kv_Do. rewrite He. simpl.
  assert (checkOps [op'] = checkOps [op]) as Hck.
  { unfold checkOps. simpl. rewrite !bool_decide_false by done. simpl. by rewrite (enc_dup_keys [op] [op']) by auto. }
  pose proof (enc_checkPut st st' op op' Hst Ho) as Hput.
  destruct (applyOp st (current st, false) op) as [[s1 c1] r] eqn:E.
  destruct (enc_applyOp _ _ _ _ _ _ _ _ _ _ Hst Hcur Ho E) as (s1'&r'&r''&E'&Hs1&Hd&Hr).
  pose proof (enc_push st st' s1 s1' c1 Hst Hs1) as Hp.
  destruct Ho as [k rend rev ek rend' Hin|k v l ek HK Hek|k ek HK Hek]; cbn [op_key] in *; unfold Do.
  - unfold Get. rewrite !bool_decide_false by done. rewrite <-Hrev. case_match; simpl; [done|].
    destruct (enc_range (if (rev <=? 0)%Z then current st else at_rev st rev)
      (if (rev <=? 0)%Z then current st' else at_rev st' rev) k rend ek rend') as (kvs&Hl&Hpm); [|done|].
    { case_match; [done|by apply enc_store_at]. }
    unfold decGetResponse. simpl. rewrite Hl. simpl. done.
  - unfold Put. rewrite Hck, Hput, E, E'.
    destruct (checkOps_cases [OpPut k v l]) as [->|[e ->]]; simpl; [|done].
    destruct (checkPut st (OpPut k v l)) eqn:Hcp; simpl; try done;
      [|unfold checkPut in Hcp; repeat case_match; done..].
    by rewrite (enc_store_rev _ _ Hp).
  - unfold Delete. rewrite Hck, E, E'.
    destruct (checkOps_cases [OpDelete k]) as [->|[e ->]]; simpl; [|done].
    rewrite (enc_lookup _ _ k ek Hcur HK Hek), (enc_store_rev _ _ Hp). by destruct (current st !! k).
Qed.

(** ** Watches *)

Lemma decEvent_enc st st' k ek rev :
  enc_store st st' -> K k -> Encode ke k = Ok ek ->
  match key_event st rev k with
  | None => key_event st' rev ek = None
  | Some ev => exists ev', key_event st' rev ek = Some ev' /\ decEvent ke ev' = Ok ev
  end.
Proof.
  intros Hst HK He. pose proof (enc_store_at st st' rev Hst) as Hs. pose proof (enc_store_at st st' (rev - 1) Hst) as Hs1.
  destruct (pe_nonempty k ek (or_introl HK) He) as [_ Hek].
  assert (decEventKey ke ek = Ok k) as Hdk.
  { unfold decEventKey. rewrite bool_decide_false by by destruct ek. by rewrite (decode_encode _ _ HK He). }
  assert (forall s s', enc_snap s s' -> decEventPrev ke (s' !! ek) = Ok (s !! k)) as Hdp.
  { intros s s' Hss. rewrite (enc_lookup s s' k ek Hss HK He). destruct (s !! k) as [kv|] eqn:E; [|done].
    simpl. rewrite Hdk. simpl. by rewrite set_Key_set_Key, <-(proj1 (es_key _ _ Hss k kv E)), set_Key_id. }
  unfold key_event. rewrite (enc_lookup _ _ k ek Hs HK He).
  destruct (at_rev st rev !! k) as [kv|] eqn:E; simpl.
  - destruct (kv_ModRevision kv =? rev)%Z; [|done]. eexists. split; [done|]. simpl. rewrite Hdk. simpl. rewrite (Hdp _ _ Hs1). simpl.
    by rewrite set_Key_set_Key, <-(proj1 (es_key _ _ Hs k kv E)), set_Key_id.
  - rewrite (enc_lookup _ _ k ek Hs1 HK He). destruct (at_rev st (rev - 1) !! k) as [kv|] eqn:E1; simpl; [|done].
    eexists. split; [done|]. simpl. rewrite Hdk. simpl.
    pose proof (Hdp _ _ Hs1) as Hp. rewrite (enc_lookup _ _ k ek Hs1 HK He), E1 in Hp. simpl in Hp.
    rewrite Hdk in Hp. simpl in Hp. by injection Hp as ->.
Qed.

Lemma kv_Watch_same st st' k from :
  enc_store st st' -> K k -> kv_Watch ke st' k false from = Ok (watch_key st k from).
Proof.
  intros Hst HK. destruct (encode_total (LawfulEncoder := pe_lawful) k HK) as [ek He].
  unfold kv_Watch. rewrite He. simpl. unfold watch_key.
  rewrite (Forall2_length (et_snaps _ _ Hst)), (enc_store_rev _ _ Hst).
  apply traverse_omap. intros i _. cbv zeta. destruct (st_rev st' <? _)%Z; [done|].
  pose proof (decEvent_enc st st' k ek (from + Z.of_nat i) Hst HK He) as Hd.
  destruct (key_event st (from + Z.of_nat i) k) as [ev|]; simpl; [|by rewrite Hd].
  destruct Hd as (ev'&->&Hd). eexists. split; [done|]. unfold decWatchResponse. simpl. by rewrite Hd.
Qed.

(** The keys of a range that two snapshots have, and their encodings. *)
Lemma enc_keys s1 s1' s2 s2' key rend ek rend' :
  enc_snap s1 s1' -> enc_snap s2 s2' -> in_range_agrees key rend ek rend' ->
  exists ks, Forall2 (fun k e => K k /\ Encode ke k = Ok e) ks
      (merge_sort String.le (filter (fun e => in_range ek rend' e = true) (elements (dom s1' ∪ dom s2')))) /\
    ks ≡ₚ merge_sort String.le (filter (fun k => in_range key rend k = true) (elements (dom s1 ∪ dom s2))).
Proof.
  intros Hs1 Hs2 Hr.
  assert (forall k, k ∈ dom s1 ∪ dom s2 -> K k) as HK.
  { intros k [[kv Hk]%elem_of_dom|[kv Hk]%elem_of_dom]%elem_of_union;
      [exact (proj2 (es_key _ _ Hs1 _ _ Hk))|exact (proj2 (es_key _ _ Hs2 _ _ Hk))]. }
  assert (forall e, e ∈ dom s1' ∪ dom s2' <-> exists k, k ∈ dom s1 ∪ dom s2 /\ Encode ke k = Ok e) as Hdom.
  { intros e. setoid_rewrite elem_of_union. setoid_rewrite elem_of_dom. split.
    - intros [[kv' Hk]|[kv' Hk]]; [destruct (es_bwd _ _ Hs1 e kv' Hk) as (k&?&?)|destruct (es_bwd _ _ Hs2 e kv' Hk) as (k&?&?)];
        exists k; auto.
    - intros (k&[[kv Hk]|[kv Hk]]&He); [left; rewrite (es_fwd _ _ Hs1 _ _ _ Hk He)|right; rewrite (es_fwd _ _ Hs2 _ _ _ Hk He)];
        by eexists. }
  set (L' := merge_sort _ (filter _ (elements (dom s1' ∪ dom s2')))).
  assert (forall e, e ∈ L' <-> exists k, k ∈ dom s1 ∪ dom s2 /\ Encode ke k = Ok e /\ in_range key rend k = true) as HL'.
  { intros e. unfold L'. rewrite (merge_sort_Permutation _), list_elem_of_filter, elem_of_elements, Hdom. split.
    - intros (Hi&k&Hk&He). exists k. split_and!; [done..|]. rewrite <-(Hr k e); auto.
    - intros (k&Hk&He&Hi). split; [|by exists k]. rewrite (Hr k e); auto. }
  assert (exists ks, Forall2 (fun k e => (k ∈ dom s1 ∪ dom s2 /\ in_range key rend k = true) /\ Encode ke k = Ok e) ks L') as [ks Hks].
  { apply Forall2_choose. intros e He. apply HL' in He as (k&?&?&?). by exists k. }
  exists ks. split.
  - eapply Forall2_impl; [|exact Hks]. intros k e [[? _] ?]. auto.
  - assert (NoDup L') as Hnd by (unfold L'; rewrite (merge_sort_Permutation _); apply list.NoDup_filter, NoDup_elements).
    rewrite (merge_sort_Permutation _). apply NoDup_Permutation.
    + clear HL'. induction Hks as [|k e ks l [[Hk _] He] Hks IH]; [constructor|].
      apply list.NoDup_cons in Hnd as [Hn Hnd]. constructor; [|by apply IH]. intros Hin.
      apply list_elem_of_lookup in Hin as [i Hi]. eapply Forall2_lookup_l in Hks as (e1&He1&_&E1); [|exact Hi].
      apply Hn. assert (e1 = e) as -> by congruence. by eapply list_elem_of_lookup_2.
    + apply list.NoDup_filter, NoDup_elements.
    + intros k. rewrite list_elem_of_filter, elem_of_elements. split.
      * intros [i Hi]%list_elem_of_lookup. eapply Forall2_lookup_l in Hks as (e&_&[? ?]&_); [|exact Hi]. done.
      * intros [Hi Hk]. destruct (encode_total (LawfulEncoder := pe_lawful) k (HK k Hk)) as [e He].
        assert (e ∈ L') as [i Hli]%list_elem_of_lookup by (apply HL'; by exists k).
        eapply Forall2_lookup_r in Hks as (k1&Hk1&[? _]&E1); [|exact Hli].
        assert (k1 = k) as -> by (eapply Encode_inj; eauto). by eapply list_elem_of_lookup_2.
Qed.

Lemma dec_range_events st st' rev key rend ek rend' :
  enc_store st st' -> in_range_agrees key rend ek rend' ->
  exists evs, traverse (decEvent ke) (range_events st' rev ek rend') = Ok evs /\ range_events st rev key rend ≡ₚ evs.
Proof.
  intros Hst Hr.
  destruct (enc_keys _ _ _ _ key rend ek rend' (enc_store_at st st' rev Hst) (enc_store_at st st' (rev - 1) Hst) Hr)
    as (ks&Hks&Hp).
  exists (omap (key_event st rev) ks). unfold range_events. split; [|by rewrite Hp].
  clear Hp. induction Hks as [|k e ks l [HK He] _ IH]; [done|]. cbn [omap list_omap].
  pose proof (decEvent_enc st st' k e rev Hst HK He) as Hd. destruct (key_event st rev k) as [ev|].
  - destruct Hd as (ev'&->&Hd). apply outcome_bind_ok. exists ev. split; [done|].
    apply outcome_bind_ok. by exists (omap (key_event st rev) ks).
  - by rewrite Hd.
Qed.

(** A response with the same events, those of one revision in any order. *)
Definition wr_equiv (wr wr' : WatchResponse) : Prop :=
  wr_Err wr = wr_Err wr' /\ wr_Events wr ≡ₚ wr_Events wr'.

Lemma kv_Watch_prefix st st' q from :
  enc_store st st' -> Q q ->
  exists wrs, kv_Watch ke st' q true from = Ok wrs /\ Forall2 wr_equiv (watch_prefix st q from) wrs.
Proof.
  intros Hst HQ. destruct (pe_prefix_total q HQ) as [eq He]. unfold kv_Watch. rewrite He. simpl. unfold watch_prefix.
  rewrite (Forall2_length (et_snaps _ _ Hst)), (enc_store_rev _ _ Hst).
  apply traverse_omap_rel. intros i _. cbv zeta. destruct (st_rev st' <? _)%Z; [done|].
  destruct (dec_range_events st st' (from + Z.of_nat i) _ _ _ _ Hst (in_range_pfx q eq HQ He)) as (evs&Ht&Hp).
  destruct (range_events st _ _ _) as [|ev l] eqn:E.
  - apply Permutation_nil_l in Hp as <-. by destruct (range_events st' _ _ _) as [|ev' l']; [|simpl in Ht; destruct (decEvent ke ev'); simpl in Ht;
      [destruct (traverse _ l')|..]].
  - destruct (range_events st' _ _ _) as [|ev' l'] eqn:E'.
    + injection Ht as <-. by apply Permutation_nil_r in Hp.
    + eexists _, _. split; [done|]. unfold decWatchResponse. cbn [wr_Events wr_Err]. rewrite Ht. done.
Qed.

End refinement.

Section leases.
Context {ke : KeyEncoder} {K Q : string -> Prop} `{!PrefixEncoder ke K Q}.

Lemma size_filter_eq (P : string * KeyValue -> Prop) `{forall x, Decision (P x)} (s : snapshot) :
  size (filter P s) = size s <-> forall k kv, s !! k = Some kv -> P (k, kv).
Proof.
  split.
  - intros Hs k kv Hk. destruct (decide (P (k, kv))) as [|Hn]; [done|]. exfalso.
    assert (filter P s ⊂ s) as Hsub%map_subset_size; [|lia].
    split; [apply map_filter_subseteq|]. intros Hsub.
    assert (filter P s !! k = Some kv) as [_ ?]%map_lookup_filter_Some by by apply (lookup_weaken s).
    done.
  - intros Hall. f_equal. by apply map_filter_id.
Qed.

Lemma enc_revoke st st' l : enc_store (ke := ke) (K := K) st st' -> enc_store (ke := ke) (K := K) (Revoke st l) (Revoke st' l).
Proof.
  intros Hst. pose proof (enc_store_current _ _ Hst) as Hs. unfold Revoke. rewrite <-(et_leases _ _ Hst).
  case_bool_decide; [|done].
  set (s1 := filter (fun p => kv_Lease p.2 <> l) (current st)).
  set (s1' := filter (fun p => kv_Lease p.2 <> l) (current st')).
  assert (enc_snap (ke := ke) (K := K) s1 s1') as Hs1.
  { split.
    - intros k kv [Hk _]%map_lookup_filter_Some. by apply (es_key _ _ Hs).
    - intros k kv e [Hk Hl]%map_lookup_filter_Some He. apply map_lookup_filter_Some.
      by rewrite (es_fwd _ _ Hs k kv e Hk He).
    - intros e kv' [He Hl]%map_lookup_filter_Some.
      destruct (decKv_enc _ _ _ _ Hs He) as (k&kv&Hk&Hek&_&->). exists k. split; [|done].
      exists kv. by apply map_lookup_filter_Some. }
  assert (bool_decide (size s1' = size (current st')) = bool_decide (size s1 = size (current st))) as ->.
  { apply bool_decide_ext. unfold s1, s1'. rewrite !size_filter_eq. split; intros Hall k kv Hk.
    - destruct (es_key _ _ Hs _ _ Hk) as [_ HK].
      destruct (encode_total (LawfulEncoder := pe_lawful) k HK) as [e He].
      exact (Hall e _ (es_fwd _ _ Hs k kv e Hk He)).
    - destruct (decKv_enc _ _ _ _ Hs Hk) as (k1&kv1&Hk1&_&_&->). exact (Hall k1 kv1 Hk1). }
  pose proof (enc_push st st' s1 s1' (negb (bool_decide (size s1 = size (current st)))) Hst Hs1) as Hp.
  split; [apply Hp|]. simpl. by rewrite (et_leases _ _ Hst).
Qed.

Lemma enc_grant st st' l : enc_store (ke := ke) (K := K) st st' -> enc_store (ke := ke) (K := K) (Grant st l) (Grant st' l).
Proof. intros [Hs Hl]. split; [done|]. simpl. by rewrite Hl. Qed.

End leases.

(** ** The encoders of the daemon preserve prefixes *)

#[export] Instance keyEncoder_prefix (ke : KeyEncoder) P `{!LawfulEncoder ke P} :
  PrefixEncoder (NewKeyEncoder ke) (storable ke P) (query ke P).
Proof.
  assert (forall k e, storable ke P k -> Encode (NewKeyEncoder ke) k = Ok e ->
    exists ty sub d tail sse, k = key_of ty sub d tail /\ key_shape ty sub d tail /\ d <> "" /\
      P (key_of ty sub d "") /\ Encode ke (key_of ty sub d "") = Ok sse /\ e = enc_key ty sub sse tail) as Hinv.
  { intros k e (ty&sub&d&tail&sse&->&Hk&Hd&HP&Henc&_) He.
    rewrite (Encode_key ke _ _ _ _ _ Hk Hd Henc) in He. injection He as <-. by exists ty, sub, d, tail, sse. }
  pose proof (keyEncoder_lawful ke P _) as Hlaw. split.
  - exact Hlaw.
  - intros q [ty sub Hk|ty sub d Hk Hs]; [eexists; by apply Encode_key_empty|].
    by apply (encode_total (LawfulEncoder := Hlaw)).
  - intros k e [Hs|[ty sub Hk|ty sub d Hk Hs]] He.
    + by destruct (Hinv k e Hs He) as (ty&sub&d&tail&sse&->&_&_&_&_&->).
    + rewrite Encode_key_empty in He by done. by injection He as <-.
    + destruct (Hinv _ e Hs He) as (?&?&?&?&?&?&_&_&_&_&->). done.
  - intros q k eq ek Hq Hk Heq Hek. apply Bool.eq_iff_eq_true.
    destruct (Hinv k ek Hk Hek) as (ty'&sub'&d'&tail'&sse'&->&Hk'&Hd'&HP'&Henc'&->).
    destruct Hq as [ty sub Hks|ty sub d Hks Hs].
    + rewrite Encode_key_empty in Heq by done. injection Heq as <-. unfold enc_key.
      change (key_of ty' sub' d' tail') with (key_head ty' sub' +:+ d' +:+ tail').
      rewrite !HasPrefix_head; try apply Hks; try apply Hk'; done.
    + destruct (Hinv _ eq Hs Heq) as (ty0&sub0&d0&tail0&sse&E&Hk0&Hd0&HP0&Henc0&->).
      apply key_of_inj in E as (<-&<-&<-&<-); [|done..].
      by apply (enc_key_prefix_iff ke P ty sub d ty' sub' d').
Qed.

(** The first segment of a name and what follows it. *)
Lemma name_split n :
  n <> "" -> HasPrefix n "/" = false -> exists d tail, n = d +:+ tail /\ d <> "" /\
    has_byte slash d = false /\ tail_ok tail.
Proof.
  induction n as [|c n IH]; intros Hn Hp; [done|]. clear Hn.
  rewrite HasPrefix_cons in Hp. apply andb_false_iff in Hp as [Hc|Hp]; [|by destruct n].
  apply bool_decide_eq_false in Hc.
  assert (forall d, has_byte slash d = false -> has_byte slash (String c d) = false) as Hcons.
  { intros d Hd. simpl. rewrite Hd, orb_false_r. apply bool_decide_eq_false. intros E; by apply Hc. }
  destruct (decide (n = "")) as [->|Hn]; [|destruct (HasPrefix n "/") eqn:E].
  - exists (String c ""), "". split_and!; [done|done|by apply Hcons|by left].
  - apply HasPrefix_spec in E as [t ->]. exists (String c ""), ("/" +:+ t).
    split_and!; [done|done|by apply Hcons|right; by exists t].
  - destruct (IH Hn eq_refl) as (d&tail&->&Hd&Hs&Ht). exists (String c d), tail.
    split_and!; [done|done|by apply Hcons|done].
Qed.

(** The keys of the daemon: those made for a name that is not empty and does not
    start with a slash can be stored, within the length of a Go string. *)
Lemma storable_name (ke : KeyEncoder) `{!LawfulEncoder ke (fun _ => True)} ty sub n :
  (forall d tail e, n = d +:+ tail -> Encode ke (key_of ty sub d "") = Ok e ->
     (Z.of_nat (String.length e) < 2 ^ 63)%Z) ->
  known_subtype ty sub = true -> has_byte slash ty = false -> has_byte slash sub = false ->
  n <> "" -> HasPrefix n "/" = false -> storable ke (fun _ => True) (key_head ty sub +:+ n).
Proof.
  intros Hshort Hk Hty Hsub Hn Hp. destruct (name_split n Hn Hp) as (d&tail&->&Hd&Hs&Ht).
  destruct (encode_total (ke := ke) (key_of ty sub d "") I) as [sse He].
  exists ty, sub, d, tail, sse. split_and!; eauto. by split.
Qed.

(** ** Theorems *)

(** C32: the wrapped client implements the plain one.  On a store that holds the
    plain store's pairs under encoded keys, every transaction and every single
    operation on keys the encoder takes gives the plain response (a prefix query in
    another order) or the plain error, and leaves the encoding of the plain store;
    so do grants and ends of leases. *)
Theorem kv_refines ke K Q st st' :
  PrefixEncoder ke K Q -> enc_store (ke := ke) (K := K) st st' ->
  (forall cmps succ fail, Forall (fun c => K (cmp_Key c)) cmps ->
     Forall (op_within K Q) succ -> Forall (op_within K Q) fail ->
     same_result (ke := ke) (K := K) txn_equiv (Txn st cmps succ fail) (kv_Txn ke st' cmps succ fail)) /\
  (forall op, op_within K Q op ->
     same_result (ke := ke) (K := K) resp_equiv (Do st op) (kv_Do ke st' op)) /\
  (forall l, enc_store (ke := ke) (K := K) (Grant st l) (Grant st' l) /\
     enc_store (ke := ke) (K := K) (Revoke st l) (Revoke st' l)).
Proof. intros. split_and!; eauto using kv_Txn_same, kv_Do_same, enc_grant, enc_revoke. Qed.

(** ** Examples: bob under the HMAC encoder *)

Module KVDemo.

Definition inner : KeyEncoder := hmacKeyEncoder toy_h 3 toy_E 2.
Definition ke : KeyEncoder := NewKeyEncoder inner.

#[export] Instance inner_lawful : LawfulEncoder inner (fun _ => True) := hmac_lawful _ _ _ _ toy_params.

#[export] Instance ke_prefix : PrefixEncoder ke (storable inner (fun _ => True)) (query inner (fun _ => True)) :=
  keyEncoder_prefix inner _.

Definition put_bob : list Op := [OpPut (keyUserCtl "bob") "hello" NoLease].

Definition run {A} (m : outcome (A * Store)) : Store :=
  match m with Ok (_, st) => st | _ => new_store end.

Definition plain : Store := run (Txn new_store [] put_bob []).
Definition secret : Store := run (kv_Txn ke new_store [] put_bob []).

Definition enc_bob : string := match Encode inner (keyUserCtl "bob") with Ok e => e | _ => "" end.

Lemma bob_storable : storable inner (fun _ => True) (keyUserCtl "bob").
Proof.
  exists "user", "ctl", "bob", "", enc_bob. split; [reflexivity|].
  split; [split; try reflexivity; by left|]. split; [discriminate|]. split; [exact I|].
  split; vm_compute; reflexivity.
Qed.

Lemma users_query : query inner (fun _ => True) "/user/ctl/".
Proof. apply (q_all inner (fun _ => True) "user" "ctl"). split; try reflexivity. by left. Qed.

Lemma start : enc_store (ke := ke) (K := storable inner (fun _ => True)) new_store new_store.
Proof. split; [|done]. constructor; [|constructor]. apply enc_snap_empty. Qed.

Lemma encoded : enc_store (ke := ke) (K := storable inner (fun _ => True)) plain secret.
Proof.
  pose proof (kv_Txn_same (ke := ke) new_store new_store [] put_bob [] start) as Hs.
  unfold plain, secret.
  destruct (Txn new_store [] put_bob []) as [[r st]| | | |] eqn:E1; try (vm_compute in E1; discriminate E1).
  destruct (kv_Txn ke new_store [] put_bob []) as [[r' st']| | | |] eqn:E2; try (vm_compute in E2; discriminate E2).
  apply Hs; repeat constructor. apply bob_storable.
Qed.

End KVDemo.

Lemma kv_refines_witness :
  enc_store (ke := KVDemo.ke) (K := storable KVDemo.inner (fun _ => True)) KVDemo.plain KVDemo.secret /\
  current KVDemo.secret !! keyUserCtl "bob" = None /\
  same_result (ke := KVDemo.ke) (K := storable KVDemo.inner (fun _ => True)) resp_equiv
    (Do KVDemo.plain (OpGetPrefix "/user/ctl/" 0)) (kv_Do KVDemo.ke KVDemo.secret (OpGetPrefix "/user/ctl/" 0)).
Proof.
  split; [exact KVDemo.encoded|]. split; [vm_compute; reflexivity|].
  refine (proj1 (proj2 (kv_refines KVDemo.ke (storable KVDemo.inner (fun _ => True))
    (query KVDemo.inner (fun _ => True)) KVDemo.plain KVDemo.secret KVDemo.ke_prefix KVDemo.encoded)) _ _).
  split; [exact KVDemo.users_query|reflexivity].
Defined.
