(* ===== verification/Watcher.v ===== *)
(** * The watcher that decodes keys (keyencode/watch.go)

    [Watch] starts a goroutine that takes the responses of the inner watch,
    decodes their keys and hands them over one by one; [Close] tells the
    goroutines to stop and waits for them.  What arrives at the other end is what
    a watch of the plain store gives, and [Close] returns when the watches have
    ended. *)

From S2P Require Import Prelude Group GoLib Key HmacKey Etcd KeyKV.

(** ** State *)

(** The goroutine: takes a response, hands one over, has closed its channel, or has
    panicked over a key that does not decode. *)
Inductive watch_pc := PRange | PSend (wr : WatchResponse) | PEnd | PPanic.

(** One call of [Watch]: the channel of the inner watch (what waits in it, whether
    it is closed), the context of the call, and what was handed over; [sb_given] is
    all the inner watch ever sent. *)
Record sub := {
  sb_key : string;
  sb_prefix : bool;
  sb_in : list WatchResponse;
  sb_inclosed : bool;
  sb_ctx : bool;
  sb_pc : watch_pc;
  sb_out : list WatchResponse;
  sb_given : list WatchResponse;
}.

(** [watcherKeyEncode]: is [stopc] closed, its watches, the calls of [Close] that
    wait and those that returned. *)
Record watcher := {
  wa_stop : bool;
  wa_subs : list sub;
  wa_waiting : nat;
  wa_returned : nat;
}.

Definition NewWatcher : watcher := {| wa_stop := false; wa_subs := []; wa_waiting := 0; wa_returned := 0 |}.

Definition new_sub (key : string) (prefix : bool) : sub := {|
  sb_key := key; sb_prefix := prefix; sb_in := []; sb_inclosed := false; sb_ctx := false;
  sb_pc := PRange; sb_out := []; sb_given := [] |}.

Definition set_pc (pc : watch_pc) (rest out : list WatchResponse) (s : sub) : sub := {|
  sb_key := sb_key s; sb_prefix := sb_prefix s; sb_in := rest; sb_inclosed := sb_inclosed s;
  sb_ctx := sb_ctx s; sb_pc := pc; sb_out := out; sb_given := sb_given s |}.

Definition set_subs (l : list sub) (w : watcher) : watcher := {|
  wa_stop := wa_stop w; wa_subs := l; wa_waiting := wa_waiting w; wa_returned := wa_returned w |}.

(** ** Steps *)

Section watcher.
Context (ke : KeyEncoder).

(** The goroutine; handing over needs a receiver. *)
Inductive sub_step (stop : bool) (s : sub) : sub -> Prop :=
  | p_recv wr wr' rest : sb_pc s = PRange -> sb_in s = wr :: rest -> decWatchResponse ke wr = Ok wr' ->
      sub_step stop s (set_pc (PSend wr') rest (sb_out s) s)
  | p_panic wr rest : sb_pc s = PRange -> sb_in s = wr :: rest -> (forall wr', decWatchResponse ke wr <> Ok wr') ->
      sub_step stop s (set_pc PPanic rest (sb_out s) s)
  | p_closed : sb_pc s = PRange -> sb_in s = [] -> sb_inclosed s = true ->
      sub_step stop s (set_pc PEnd (sb_in s) (sb_out s) s)
  | p_send wr' : sb_pc s = PSend wr' -> sub_step stop s (set_pc PRange (sb_in s) (sb_out s ++ [wr']) s)
  | p_ctx wr' : sb_pc s = PSend wr' -> sb_ctx s = true -> sub_step stop s (set_pc PEnd (sb_in s) (sb_out s) s)
  | p_stop wr' : sb_pc s = PSend wr' -> stop = true -> sub_step stop s (set_pc PEnd (sb_in s) (sb_out s) s).

(** The inner watch gives a response, or closes its channel; a context is done. *)
Inductive inner_step (s : sub) : sub -> Prop :=
  | n_response wr : sb_inclosed s = false ->
      inner_step s {| sb_key := sb_key s; sb_prefix := sb_prefix s; sb_in := sb_in s ++ [wr];
        sb_inclosed := false; sb_ctx := sb_ctx s; sb_pc := sb_pc s; sb_out := sb_out s;
        sb_given := sb_given s ++ [wr] |}
  | n_close :
      inner_step s {| sb_key := sb_key s; sb_prefix := sb_prefix s; sb_in := sb_in s; sb_inclosed := true;
        sb_ctx := sb_ctx s; sb_pc := sb_pc s; sb_out := sb_out s; sb_given := sb_given s |}
  | n_done :
      inner_step s {| sb_key := sb_key s; sb_prefix := sb_prefix s; sb_in := sb_in s;
        sb_inclosed := sb_inclosed s; sb_ctx := true; sb_pc := sb_pc s; sb_out := sb_out s;
        sb_given := sb_given s |}.

Definition ended (s : sub) : Prop := sb_pc s = PEnd.

(** What a client of the watcher does. *)
Inductive watcher_call (w : watcher) : watcher -> Prop :=
  | h_Watch key prefix ek : Encode ke key = Ok ek ->
      watcher_call w (set_subs (wa_subs w ++ [new_sub key prefix]) w)
  | h_Close : watcher_call w {| wa_stop := true; wa_subs := wa_subs w; wa_waiting := S (wa_waiting w);
        wa_returned := wa_returned w |}.

(** [Close] returns from [wg.Wait]. *)
Inductive close_return (w : watcher) : watcher -> Prop :=
  | h_return n : wa_waiting w = S n -> Forall ended (wa_subs w) ->
      close_return w {| wa_stop := wa_stop w; wa_subs := wa_subs w; wa_waiting := n;
        wa_returned := S (wa_returned w) |}.

Inductive watcher_step (w : watcher) : watcher -> Prop :=
  | ws_sub l : group_step (sub_step (wa_stop w)) (wa_subs w) l -> watcher_step w (set_subs l w)
  | ws_inner l : group_step inner_step (wa_subs w) l -> watcher_step w (set_subs l w)
  | ws_call w' : watcher_call w w' -> watcher_step w w'
  | ws_return w' : close_return w w' -> watcher_step w w'.

(** ** What is handed over *)

(** What was handed over are the first responses of the inner watch, decoded. *)
Definition sub_ok (s : sub) : Prop :=
  match sb_pc s with
  | PRange => exists taken, sb_given s = taken ++ sb_in s /\ traverse (decWatchResponse ke) taken = Ok (sb_out s)
  | PSend wr' => exists taken, sb_given s = taken ++ sb_in s /\
      traverse (decWatchResponse ke) taken = Ok (sb_out s ++ [wr'])
  | PEnd => exists taken, taken `prefix_of` sb_given s /\ traverse (decWatchResponse ke) taken = Ok (sb_out s)
  | PPanic => exists wr, wr ∈ sb_given s /\ forall wr', decWatchResponse ke wr <> Ok wr'
  end.

Lemma sub_step_ok stop s s' : sub_step stop s s' -> sub_ok s -> sub_ok s'.
Proof.
  intros Hs. unfold sub_ok. destruct Hs as [wr wr' rest E Ein Ed|wr rest E Ein Ed|E Ein Ec|wr' E|wr' E _|wr' E _]; rewrite E; simpl.
  - intros (taken&Hg&Ht). exists (taken ++ [wr]). rewrite <-app_assoc. split; [by rewrite Hg, Ein|].
    rewrite traverse_app, Ht. simpl. by rewrite Ed.
  - intros (taken&Hg&Ht). exists wr. split; [|done]. rewrite Hg, Ein. set_solver.
  - intros (taken&Hg&Ht). exists taken. split; [|done]. rewrite Hg. by eexists.
  - intros (taken&Hg&Ht). by exists taken.
  - intros (taken&Hg&Ht). destruct (traverse_snoc_inv _ _ _ _ Ht) as (t&wr&->&Ht'&_). exists t. split; [|done].
    rewrite Hg, <-app_assoc. by eexists.
  - intros (taken&Hg&Ht). destruct (traverse_snoc_inv _ _ _ _ Ht) as (t&wr&->&Ht'&_). exists t. split; [|done].
    rewrite Hg, <-app_assoc. by eexists.
Qed.

Lemma inner_step_ok s s' : inner_step s s' -> sub_ok s -> sub_ok s'.
Proof.
  intros Hs. unfold sub_ok. destruct Hs as [wr E| |]; simpl; [|done..]. destruct (sb_pc s).
  - intros (taken&Hg&Ht). exists taken. by rewrite Hg, <-app_assoc.
  - intros (taken&Hg&Ht). exists taken. by rewrite Hg, <-app_assoc.
  - intros (taken&Hp&Ht). exists taken. split; [|done]. by apply prefix_app_r.
  - intros (wr1&Hin&Hd). exists wr1. split; [|done]. set_solver.
Qed.

Lemma watcher_step_ok w w' : watcher_step w w' -> Forall sub_ok (wa_subs w) -> Forall sub_ok (wa_subs w').
Proof.
  intros [l Hs|l Hs|w1 Hs|w1 Hs]; simpl.
  - apply (group_Forall _ _ _ _ (sub_step_ok (wa_stop w)) Hs).
  - apply (group_Forall _ _ _ _ inner_step_ok Hs).
  - destruct Hs as [key prefix ek _|]; simpl; [|done]. intros Hok. apply Forall_app_2; [done|].
    apply Forall_singleton. by exists [].
  - by destruct Hs.
Qed.

Lemma watcher_reach_ok w : rtc watcher_step NewWatcher w -> Forall sub_ok (wa_subs w).
Proof.
  intros Hr. pattern w. revert w Hr. apply rtc_ind_r; [constructor|]. eauto using watcher_step_ok.
Qed.

(** ** The end *)

(** etcd's client closes the channel of a watch whose context is done. *)
Inductive inner_end (s : sub) : sub -> Prop :=
  | n_end s' : sb_ctx s = true -> sb_inclosed s = false -> inner_step s s' -> sb_inclosed s' = true -> sb_ctx s' = true ->
      sb_in s' = sb_in s -> sb_pc s' = sb_pc s -> inner_end s s'.

(** What happens without a call and without a further response. *)
Inductive own_step (w : watcher) : watcher -> Prop :=
  | o_sub l : group_step (sub_step (wa_stop w)) (wa_subs w) l -> own_step w (set_subs l w)
  | o_inner l : group_step inner_end (wa_subs w) l -> own_step w (set_subs l w)
  | o_return w' : close_return w w' -> own_step w w'.

Definition sub_rank (s : sub) : nat :=
  3 * length (sb_in s) + (if sb_inclosed s then 0 else 1) +
  match sb_pc s with PRange => 1 | PSend _ => 2 | PEnd | PPanic => 0 end.

Definition watcher_rank (w : watcher) : nat := sum_list (sub_rank <$> wa_subs w) + wa_waiting w.

Lemma sub_step_rank stop s s' : sub_step stop s s' -> sub_rank s' < sub_rank s.
Proof.
  intros Hs. unfold sub_rank. destruct Hs as [? ? ? E Ein _|? ? E Ein _|E Ein _|? E|? E _|? E _]; simpl;
    rewrite E, ?Ein; simpl; lia.
Qed.

Lemma inner_end_rank s s' : inner_end s s' -> sub_rank s' < sub_rank s.
Proof. intros [s1 _ E _ E1 _ Ei Ep]. unfold sub_rank. rewrite E, E1, Ei, Ep. lia. Qed.

Lemma watcher_step_rank w w' : own_step w w' -> watcher_rank w' < watcher_rank w.
Proof.
  unfold watcher_rank. intros [l Hs|l Hs|w1 [n E _]]; simpl.
  - pose proof (group_rank sub_rank _ _ _ (sub_step_rank (wa_stop w)) Hs). lia.
  - pose proof (group_rank sub_rank _ _ _ inner_end_rank Hs). lia.
  - lia.
Qed.

Lemma watcher_steps_rank n w w' : nsteps own_step n w w' -> n <= watcher_rank w.
Proof. apply nsteps_rank, watcher_step_rank. Qed.

(** Every context is done, and [Close] was called. *)
Definition closing (w : watcher) : Prop := wa_stop w = true /\ Forall (fun s => sb_ctx s = true) (wa_subs w).

Lemma own_step_closing w w' : own_step w w' -> closing w -> closing w'.
Proof.
  intros Hs [Hstop Hctx]. destruct Hs as [l Hs|l Hs|w1 [n E _]]; split; simpl; try done.
  - eapply group_Forall; [|exact Hs|exact Hctx]. by intros s s' [].
  - eapply group_Forall; [|exact Hs|exact Hctx]. by intros s s' [].
Qed.

#[local] Instance ended_dec s : Decision (ended s).
Proof. unfold ended. destruct (sb_pc s); (by left) || by right. Defined.

Lemma decWatchResponse_dec wr : (exists wr', decWatchResponse ke wr = Ok wr') \/ forall wr', decWatchResponse ke wr <> Ok wr'.
Proof. destruct (decWatchResponse ke wr); [left; by eexists|by right..]. Qed.

(** A watch whose context is done goes on, if it has not ended or panicked. *)
Lemma sub_progress s : sb_ctx s = true -> ~ ended s -> sb_pc s <> PPanic ->
  exists s', sub_step true s s' \/ inner_end s s'.
Proof.
  intros Hc He Hp. unfold ended in He. destruct (sb_pc s) as [|wr| |] eqn:E; [|by eexists; left; eapply p_stop|done..].
  destruct (sb_in s) as [|wr rest] eqn:Ein.
  - destruct (sb_inclosed s) eqn:Ecl; [eexists; left; by eapply p_closed|].
    eexists. right. eapply n_end; [done|done|apply n_close|done..].
  - destruct (decWatchResponse_dec wr) as [[wr' Hd]|Hd]; eexists; left; [by eapply p_recv|by eapply p_panic].
Qed.

Lemma closing_progress w : closing w ->
  wa_waiting w = 0 \/ (exists s, s ∈ wa_subs w /\ sb_pc s = PPanic) \/ exists w', own_step w w'.
Proof.
  intros [Hstop Hctx]. destruct (wa_waiting w) as [|n] eqn:Ew; [by left|right].
  assert (forall s, Decision (sb_pc s = PPanic)) as Hdec.
  { intros s. destruct (sb_pc s); (by left) || by right. }
  destruct (decide (Exists (fun s => sb_pc s = PPanic) (wa_subs w))) as [(s&Hin&Hs)%list.Exists_exists|Hno].
  { left. by exists s. }
  right. destruct (group_progress ended (fun s s' => sub_step true s s' \/ inner_end s s') (wa_subs w)) as [Hall|[l Hs]].
  - intros s Hin He. apply sub_progress; [by eapply list.Forall_forall in Hctx|done|].
    intros Hp. apply Hno, list.Exists_exists. by exists s.
  - eexists. by eapply o_return, h_return.
  - destruct Hs as [i s s' Hi [Hs|Hs]]; eexists; [eapply o_sub|eapply o_inner]; econstructor; try done. by rewrite Hstop.
Qed.

(** A watch that has ended stays so. *)
Definition keeps_ended (s s' : sub) : Prop := ended s -> ended s'.

#[export] Instance keeps_ended_refl : Reflexive keeps_ended.
Proof. by intros s He. Qed.

Lemma sub_step_ended stop s s' : sub_step stop s s' -> keeps_ended s s'.
Proof. unfold keeps_ended, ended. intros [] ?; simpl; congruence. Qed.

Lemma inner_step_ended s s' : inner_step s s' -> keeps_ended s s'.
Proof. by intros [] ?. Qed.

Lemma watcher_step_place w w' i s : watcher_step w w' -> wa_subs w !! i = Some s ->
  exists s', wa_subs w' !! i = Some s' /\ keeps_ended s s' /\ (ended s' \/ wa_returned w' = wa_returned w).
Proof.
  intros Hst Hi. destruct Hst as [l Hs|l Hs|w1 Hs|w1 Hs].
  - destruct (group_lookup keeps_ended _ _ _ i s (sub_step_ended (wa_stop w)) Hs Hi)
      as (s'&?&?). exists s'. by split_and!; [| |right].
  - destruct (group_lookup keeps_ended _ _ _ i s inner_step_ended Hs Hi) as (s'&?&?).
    exists s'. by split_and!; [| |right].
  - exists s. destruct Hs; split_and!; try done; try by right. simpl. by apply lookup_app_l_Some.
  - exists s. destruct Hs as [n _ Hall]. split_and!; try done. left. by eapply Forall_lookup_1.
Qed.

Lemma returned_waits w w' i s' : rtc watcher_step w w' -> i < length (wa_subs w) ->
  wa_subs w' !! i = Some s' -> ~ ended s' -> wa_returned w' = wa_returned w.
Proof.
  intros Hr. revert i. induction Hr as [|w w1 w' Hs Hr IH]; intros i Hlt Hi Hne; [done|].
  apply lookup_lt_is_Some in Hlt as [s Hsi]. destruct (watcher_step_place w w1 i s Hs Hsi) as (s1&Hs1&_&Hor).
  rewrite (IH i) by (done || by eapply lookup_lt_Some). destruct Hor as [He|E]; [|done]. destruct Hne. clear IH Hs Hsi s w.
  revert s1 Hs1 He. induction Hr as [w|w w1 w' Hs Hr IH]; intros s1 Hs1 He; [by simplify_eq|].
  destruct (watcher_step_place w w1 i s1 Hs Hs1) as (s2&Hs2&Hk&_). by eapply IH; [|exact Hs2|apply Hk].
Qed.

End watcher.

(** ** Theorems *)

(** The responses of a watch on the store that is wrapped. *)
Definition watch_of (st : Store) (key : string) (prefix : bool) (from : Z) : list WatchResponse :=
  if prefix then watch_prefix st key from else watch_key st key from.

#[export] Instance wr_equiv_refl : Reflexive wr_equiv.
Proof. by split. Qed.

(** C34: a watch through the wrapper delivers what a watch of the plain store gives.
    Whatever the goroutines, the inner watches, the contexts and the calls do: when
    the inner watch of a key or a prefix gives responses of the encoded store, the
    goroutine does not panic, and what it has handed over are the first responses of
    the plain store's watch, in order and none twice (those of a prefix with the
    events of a revision in some order), all of them once it waits and the inner
    watch has given all. *)
Theorem watcher_delivers ke K Q st st' from w s ek :
  PrefixEncoder ke K Q -> enc_store (ke := ke) (K := K) st st' -> rtc (watcher_step ke) NewWatcher w ->
  s ∈ wa_subs w -> (if sb_prefix s then Q (sb_key s) else K (sb_key s)) -> Encode ke (sb_key s) = Ok ek ->
  sb_given s `prefix_of` watch_of st' ek (sb_prefix s) from ->
  sb_pc s <> PPanic /\ exists plain,
    Forall2 wr_equiv (watch_of st (sb_key s) (sb_prefix s) from) plain /\
    (sb_prefix s = false -> plain = watch_key st (sb_key s) from) /\
    sb_out s `prefix_of` plain /\
    (sb_pc s = PRange -> sb_in s = [] -> sb_given s = watch_of st' ek (sb_prefix s) from -> sb_out s = plain).
Proof.
  intros Hpe Hst Hr Hin Hkey He Hgiven. apply watcher_reach_ok in Hr. rewrite list.Forall_forall in Hr. specialize (Hr s Hin).
  assert (exists plain, traverse (decWatchResponse ke) (watch_of st' ek (sb_prefix s) from) = Ok plain /\
    Forall2 wr_equiv (watch_of st (sb_key s) (sb_prefix s) from) plain /\
    (sb_prefix s = false -> plain = watch_key st (sb_key s) from)) as (plain&Hd&Heq&Hex).
  { unfold watch_of. destruct (sb_prefix s).
    - destruct (kv_Watch_prefix st st' (sb_key s) from Hst Hkey) as (wrs&Hw&HF). unfold kv_Watch in Hw. rewrite He in Hw.
      by exists wrs.
    - pose proof (kv_Watch_same st st' (sb_key s) from Hst Hkey) as Hw. unfold kv_Watch in Hw. rewrite He in Hw.
      eexists. split; [exact Hw|]. split; [|done]. apply (reflexivity (R := Forall2 wr_equiv)). }
  assert (forall taken out, taken `prefix_of` sb_given s -> traverse (decWatchResponse ke) taken = Ok out -> out `prefix_of` plain) as Hpre.
  { intros taken out Hp Ht. destruct (traverse_prefix _ taken _ _ (transitivity Hp Hgiven) Hd) as (out'&Hp'&Ht').
    by assert (out = out') as -> by congruence. }
  unfold sub_ok in Hr. split.
  - intros Ep. rewrite Ep in Hr. destruct Hr as (wr&Hwr&Hno). destruct Hgiven as [rest Hg].
    rewrite Hg in Hd. apply traverse_ok_elem with (x := wr) in Hd as [wr' Hwr']; [|set_solver]. by apply (Hno wr').
  - exists plain. split; [done|]. split; [done|]. destruct (sb_pc s) eqn:Ep.
    + destruct Hr as (taken&Hg&Ht). split; [eapply Hpre; [|done]; rewrite Hg; by eexists|].
      intros _ Ei Hall. rewrite Ei, app_nil_r in Hg. congruence.
    + destruct Hr as (taken&Hg&Ht). split; [|done]. etransitivity; [by eexists|]. eapply Hpre; [|done]. rewrite Hg. by eexists.
    + destruct Hr as (taken&Hp&Ht). split; [by eapply Hpre|done].
    + destruct Hr as (wr&Hwr&Hno). exfalso. destruct Hgiven as [rest Hg].
      rewrite Hg in Hd. apply traverse_ok_elem with (x := wr) in Hd as [wr' Hwr']; [|set_solver]. by apply (Hno wr').
Qed.

(** C35: [Close] returns exactly when the watches have ended.  Once it was called and
    every context is done, at most [3 n + 3] steps for each watch with [n] responses
    to take are left, and until each call of [Close] has returned one of them can be
    made, unless a goroutine has panicked.  Without that [Close] does not return: no
    call returns while a watch has not ended, and a watch that waits for a response
    can make no step, [stopc] closed or not. *)
Theorem watcher_close ke w :
  (closing w ->
    (forall n w', nsteps (own_step ke) n w w' ->
       n <= sum_list ((fun s => 3 * length (sb_in s) + 3) <$> wa_subs w) + wa_waiting w) /\
    (forall w', rtc (own_step ke) w w' ->
       wa_waiting w' = 0 \/ (exists s, s ∈ wa_subs w' /\ sb_pc s = PPanic) \/ exists w'', own_step ke w' w'')) /\
  (forall w' i s', rtc (watcher_step ke) w w' -> i < length (wa_subs w) -> wa_subs w' !! i = Some s' ->
     ~ ended s' -> wa_returned w' = wa_returned w) /\
  (forall s stop s', sb_pc s = PRange -> sb_in s = [] -> sb_inclosed s = false -> ~ sub_step ke stop s s').
Proof.
  split; [intros Hc; split|split].
  - intros n w' Hn. apply watcher_steps_rank in Hn. unfold watcher_rank in Hn.
    assert (sum_list (sub_rank <$> wa_subs w) <= sum_list ((fun s => 3 * length (sb_in s) + 3) <$> wa_subs w)); [|lia].
    apply sum_list_mono. intros s. unfold sub_rank. destruct (sb_inclosed s), (sb_pc s); lia.
  - intros w' Hr. apply closing_progress. clear - Hr Hc. induction Hr; eauto using own_step_closing.
  - intros w' i s' Hr Hi Hs' Hne. by eapply returned_waits.
  - intros s stop s' E Ein Ecl Hs. destruct Hs; congruence.
Qed.

(** ** Example: a watch of bob under the HMAC encoder *)

Module WatcherDemo.
Import KVDemo.

Definition sealed_bob : string := match Encode ke (keyUserCtl "bob") with Ok e => e | _ => "" end.

Definition from_etcd : WatchResponse := default {| wr_Err := None; wr_Events := [] |} (head (watch_key secret sealed_bob 1)).
Definition decoded : WatchResponse := default {| wr_Err := None; wr_Events := [] |} (head (watch_key plain (keyUserCtl "bob") 1)).

Definition bob_sub : sub := {|
  sb_key := keyUserCtl "bob"; sb_prefix := false; sb_in := []; sb_inclosed := false; sb_ctx := false;
  sb_pc := PRange; sb_out := [decoded]; sb_given := [from_etcd] |}.
Definition bob_watcher : watcher := {| wa_stop := false; wa_subs := [bob_sub]; wa_waiting := 0; wa_returned := 0 |}.

Lemma bob_encoded : Encode ke (keyUserCtl "bob") = Ok sealed_bob.
Proof. vm_compute. reflexivity. Qed.

Lemma bob_decoded : decWatchResponse ke from_etcd = Ok decoded.
Proof. vm_compute. reflexivity. Qed.

Lemma bob_reached : rtc (watcher_step ke) NewWatcher bob_watcher.
Proof.
  eapply rtc_l; [eapply ws_call, (h_Watch _ _ (keyUserCtl "bob") false), bob_encoded|]. simpl.
  eapply rtc_l; [eapply ws_inner, (g_step _ _ 0); [done|]; by eapply (n_response _ from_etcd)|]. simpl.
  eapply rtc_l; [eapply ws_sub, (g_step _ _ 0); [done|]; eapply (p_recv _ _ _ from_etcd decoded); [done|done|exact bob_decoded]|]. simpl.
  eapply rtc_l; [eapply ws_sub, (g_step _ _ 0); [done|]; by eapply (p_send _ _ _ decoded)|]. apply rtc_refl.
Qed.

Lemma bob_given : [from_etcd] = watch_key secret sealed_bob 1.
Proof. vm_compute. reflexivity. Qed.

(** The context of the watch is done and [Close] was called. *)
Definition closing_bob : watcher := {|
  wa_stop := true; wa_subs := [{| sb_key := keyUserCtl "bob"; sb_prefix := false; sb_in := []; sb_inclosed := false;
    sb_ctx := true; sb_pc := PRange; sb_out := [decoded]; sb_given := [from_etcd] |}]; wa_waiting := 1; wa_returned := 0 |}.

End WatcherDemo.

Lemma watcher_delivers_witness :
  WatcherDemo.bob_sub ∈ wa_subs WatcherDemo.bob_watcher /\ sb_pc WatcherDemo.bob_sub <> PPanic /\
  exists plain, Forall2 wr_equiv (watch_of KVDemo.plain (keyUserCtl "bob") false 1) plain /\
    (false = false -> plain = watch_key KVDemo.plain (keyUserCtl "bob") 1) /\
    sb_out WatcherDemo.bob_sub `prefix_of` plain /\
    (PRange = PRange -> [] = @nil WatchResponse ->
     sb_given WatcherDemo.bob_sub = watch_of KVDemo.secret WatcherDemo.sealed_bob false 1 -> sb_out WatcherDemo.bob_sub = plain).
Proof.
  split; [by left|].
  refine (watcher_delivers KVDemo.ke (storable KVDemo.inner (fun _ => True)) (query KVDemo.inner (fun _ => True))
    KVDemo.plain KVDemo.secret 1 WatcherDemo.bob_watcher WatcherDemo.bob_sub WatcherDemo.sealed_bob KVDemo.ke_prefix KVDemo.encoded
    WatcherDemo.bob_reached _ KVDemo.bob_storable WatcherDemo.bob_encoded _).
  - by left.
  - exists []. rewrite app_nil_r. symmetry. exact WatcherDemo.bob_given.
Defined.

Lemma watcher_close_witness : closing WatcherDemo.closing_bob /\
  forall n w', nsteps (own_step KVDemo.ke) n WatcherDemo.closing_bob w' -> n <= 4.
Proof.
  assert (closing WatcherDemo.closing_bob) as Hc by (split; [reflexivity|by repeat constructor]).
  split; [exact Hc|]. exact (proj1 (proj1 (watcher_close KVDemo.ke WatcherDemo.closing_bob) Hc)).
Defined.
