(* ===== verification/Stm.v ===== *)
(** * Software transactional memory over etcd (vendored clientv3/concurrency)

    Every command that changes the network runs as one [concurrency.NewSTM]
    transaction with the isolation level [Serializable]: the closure reads and
    writes through an [STM], and the write set is committed with a transaction
    that compares every key read with its revision; on a conflict the closure
    runs again.

    The other users of etcd act between the requests of the transaction: an
    [Env] gives, for the n-th request, what happens to the store just before it
    and whether the request fails. *)

From S2P Require Import Prelude GoLib Etcd.

(** ** The environment *)

Record Env := {
  e_intf : nat -> Store -> Store;
  e_fail : nat -> option error;
}.

(** The store, and the number of requests made so far. *)
Record Cluster := { cl_store : Store; cl_clock : nat }.

(** One request.  A request whose answer is lost is one that fails and whose
    effect comes with the interference before the next one. *)
Definition request (env : Env) {A} (f : Store -> outcome (A * Store)) : ST Cluster A := fun c =>
  let st := e_intf env (cl_clock c) (cl_store c) in
  let c1 := {| cl_store := st; cl_clock := S (cl_clock c) |} in
  match e_fail env (cl_clock c) with
  | Some e => (Err e, c1)
  | None =>
    match f st with
    | Ok (a, st') => (Ok a, {| cl_store := st'; cl_clock := S (cl_clock c) |})
    | Err e => (Err e, c1)
    | Panic => (Panic, c1)
    | Exit => (Exit, c1)
    | Diverge => (Diverge, c1)
    end
  end.

(** ** The interface: what a closure does with its [STM] *)

Inductive stm (A : Type) : Type :=
  | SRet (o : outcome A)
  | SGet (key : string) (k : string -> stm A)
  | SRev (key : string) (k : Z -> stm A)
  | SPut (key val : string) (l : PutLease) (k : stm A)
  | SDel (key : string) (k : stm A).
Arguments SRet {A} o.
Arguments SGet {A} key k.
Arguments SRev {A} key k.
Arguments SPut {A} key val l k.
Arguments SDel {A} key k.

Fixpoint stm_bind {A B} (f : A -> stm B) (m : stm A) : stm B :=
  match m with
  | SRet (Ok a) => f a
  | SRet (Err e) => SRet (Err e)
  | SRet Panic => SRet Panic
  | SRet Exit => SRet Exit
  | SRet Diverge => SRet Diverge
  | SGet key k => SGet key (fun v => stm_bind f (k v))
  | SRev key k => SRev key (fun v => stm_bind f (k v))
  | SPut key val l k => SPut key val l (stm_bind f k)
  | SDel key k => SDel key (stm_bind f k)
  end.

Global Instance stm_ret : MRet stm := fun _ a => SRet (Ok a).
Global Instance stm_mbind : MBind stm := fun _ _ => stm_bind.

(** ** The implementation: [stmSerializable] *)

Record stmPut := { sp_val : string; sp_op : Op }.

Notation readSet := (gmap string GetResponse).
Notation writeSet := (gmap string stmPut).

Record stmSerializable := {
  rset : readSet;
  wset : writeSet;
  prefetch : readSet;
  getOpts : option Z;
}.

Definition set_rset (r : readSet) (s : stmSerializable) : stmSerializable :=
  {| rset := r; wset := wset s; prefetch := prefetch s; getOpts := getOpts s |}.
Definition set_wset (w : writeSet) (s : stmSerializable) : stmSerializable :=
  {| rset := rset s; wset := w; prefetch := prefetch s; getOpts := getOpts s |}.
Definition set_getOpts (g : option Z) (s : stmSerializable) : stmSerializable :=
  {| rset := rset s; wset := wset s; prefetch := prefetch s; getOpts := g |}.

Definition newStm : stmSerializable :=
  {| rset := ∅; wset := ∅; prefetch := ∅; getOpts := None |}.

Definition GetResponseRange (r : ResponseOp) : option GetResponse :=
  match r with RespGet g => Some g | _ => None end.

(** [readSet.add]. *)
Fixpoint rset_add (keys : list string) (resps : list ResponseOp) (rs : readSet) : readSet :=
  match keys, resps with
  | k :: keys', RespGet g :: resps' => rset_add keys' resps' (<[k := g]> rs)
  | _, _ => rs
  end.

(** [writeSet.get]. *)
Fixpoint wset_get (ws : writeSet) (keys : list string) : option stmPut :=
  match keys with
  | [] => None
  | k :: keys' => match ws !! k with Some wv => Some wv | None => wset_get ws keys' end
  end.

Definition wset_puts (ws : writeSet) : list Op := (fun p => sp_op p.2) <$> map_to_list ws.

Definition isKeyCurrent (k : string) (r : GetResponse) : Cmp := {|
  cmp_Key := k; cmp_Target := MOD; cmp_Result := EQUAL;
  cmp_Value := match gr_Kvs r with kv :: _ => kv_ModRevision kv | [] => 0%Z end |}.

Definition rset_cmps (rs : readSet) : list Cmp :=
  (fun p => isKeyCurrent p.1 p.2) <$> map_to_list rs.

Definition respToValue (r : option GetResponse) : string :=
  match r with
  | Some {| gr_Kvs := kv :: _ |} => kv_Value kv
  | _ => ""
  end.

Notation stmST := (ST (stmSerializable * Cluster)).

(** The first of the keys that is in the read set, if any. *)
Fixpoint first_hit (rs : readSet) (keys : list string) : option GetResponse :=
  match keys with
  | [] => None
  | k :: keys' => match rs !! k with Some r => Some r | None => first_hit rs keys' end
  end.

(** [stm.fetch]; a nil response is [None]. *)
Definition fetch (env : Env) (keys : list string) : stmST (option GetResponse) := fun '(s, c) =>
  if bool_decide (keys = []) then (Ok None, (s, c)) else
  match first_hit (rset s) keys with
  | Some r => (Ok (Some r), (s, c))
  | None =>
    let ops := (fun k => OpGet k None (default 0%Z (getOpts s))) <$> keys in
    match request env (fun st => Txn st [] ops []) c with
    | (Ok tr, c') =>
      (match tr_Responses tr with
       | r :: _ => Ok (GetResponseRange r)
       | [] => Panic
       end, (set_rset (rset_add keys (tr_Responses tr) (rset s)) s, c'))
    | (Err e, c') => (Err e, (s, c'))
    | (Panic, c') => (Panic, (s, c'))
    | (Exit, c') => (Exit, (s, c'))
    | (Diverge, c') => (Diverge, (s, c'))
    end
  end.

(** The prefetched responses of the keys move to the read set. *)
Definition take_one (s : stmSerializable) (key : string) : stmSerializable :=
  match prefetch s !! key with
  | Some resp => {| rset := <[key := resp]> (rset s); wset := wset s;
                    prefetch := delete key (prefetch s); getOpts := getOpts s |}
  | None => s
  end.

Definition take_prefetch (keys : list string) (s : stmSerializable) : stmSerializable :=
  foldl take_one s keys.

(** The base revision of the transaction is that of its first read. *)
Definition stm_base (rev : Z) : stmST unit := fun '(s, c) => (Ok (), (set_getOpts (Some rev) s, c)).

(** [stmSerializable.Get]. *)
Definition stm_Get (env : Env) (keys : list string) : stmST string := fun '(s, c) =>
  match wset_get (wset s) keys with
  | Some wv => (Ok (sp_val wv), (s, c))
  | None =>
    let firstRead := bool_decide (rset s = ∅) in
    let m : stmST string :=
      resp ← fetch env keys;
      if firstRead then
        match resp with
        | None => lift Panic
        | Some r => _ ← stm_base (gr_Revision r); mret (respToValue resp)
        end
      else mret (respToValue resp)
    in m (take_prefetch keys s, c)
  end.

(** [stmSerializable.Rev], through [stm.Rev]. *)
Definition stm_Rev (env : Env) (key : string) : stmST Z :=
  _ ← stm_Get env [key];
  resp ← fetch env [key];
  mret match resp with
       | Some {| gr_Kvs := kv :: _ |} => kv_ModRevision kv
       | _ => 0%Z
       end.

Definition stm_Put (key val : string) (l : PutLease) : stmST unit := fun '(s, c) =>
  (Ok (), (set_wset (<[key := {| sp_val := val; sp_op := OpPut key val l |}]> (wset s)) s, c)).

Definition stm_Del (key : string) : stmST unit := fun '(s, c) =>
  (Ok (), (set_wset (<[key := {| sp_val := ""; sp_op := OpDelete key |}]> (wset s)) s, c)).

(** [stmSerializable.commit]: a conflict is [None] and fills the prefetch map. *)
Definition commit (env : Env) : stmST (option TxnResponse) := fun '(s, c) =>
  let keys := (map_to_list (rset s)).*1 in
  let getops := (fun k => OpGet k None 0%Z) <$> keys in
  match request env (fun st => Txn st (rset_cmps (rset s)) (wset_puts (wset s)) getops) c with
  | (Ok tr, c') =>
    if tr_Succeeded tr then (Ok (Some tr), (s, c'))
    else
      let rs := rset_add keys (tr_Responses tr) (rset s) in
      (Ok None, ({| rset := rs; wset := wset s; prefetch := rs; getOpts := None |}, c'))
  | (Err e, c') => (Err e, (s, c'))
  | (Panic, c') => (Panic, (s, c'))
  | (Exit, c') => (Exit, (s, c'))
  | (Diverge, c') => (Diverge, (s, c'))
  end.

Definition reset (s : stmSerializable) : stmSerializable :=
  {| rset := ∅; wset := ∅; prefetch := prefetch s; getOpts := getOpts s |}.

(** Run a closure against the implementation. *)
Fixpoint exec (env : Env) {A} (p : stm A) : stmST A :=
  match p with
  | SRet o => lift o
  | SGet key k => v ← stm_Get env [key]; exec env (k v)
  | SRev key k => v ← stm_Rev env key; exec env (k v)
  | SPut key val l k => _ ← stm_Put key val l; exec env k
  | SDel key k => _ ← stm_Del key; exec env k
  end.

(** The closure [NewSTM] makes of [apply] and the keys to prefetch. *)
Definition with_prefetch (env : Env) (keys : list string) {A} (p : stm A) : stmST A :=
  if bool_decide (keys = []) then exec env p
  else _ ← stm_Get env keys; exec env p.

(** [runSTM]: a closure may assign variables of the function that made it; they
    are its argument and its result, and an attempt starts with the values the
    previous one left. *)
Fixpoint runSTM (env : Env) (fuel : nat) (keys : list string) {V} (f : V -> stm V) (v : V)
    : stmST (V * TxnResponse) := fun '(s, c) =>
  match fuel with
  | 0 => (Diverge, (s, c))
  | S fuel' =>
    let m : stmST (V * TxnResponse) :=
      v' ← with_prefetch env keys (f v);
      resp ← commit env;
      match resp with
      | Some tr => mret (v', tr)
      | None => runSTM env fuel' keys f v'
      end
    in m (reset s, c)
  end.

Definition NewSTM (env : Env) (fuel : nat) {V} (f : V -> stm V) (v : V) (keys : list string)
    : ST Cluster (V * TxnResponse) := fun c =>
  let '(o, (_, c')) := runSTM env fuel keys f v (newStm, c) in (o, c').

(** ** The reference: a closure run at one instant

    Reads come from one snapshot, except that a key written before reads as
    written; the result is the outcome, the write set and the keys read. *)

Definition value_at (s : snapshot) (k : string) : string :=
  match s !! k with Some kv => kv_Value kv | None => "" end.

Definition rev_at (s : snapshot) (k : string) : Z :=
  match s !! k with Some kv => kv_ModRevision kv | None => 0%Z end.

Fixpoint atomic {A} (p : stm A) (s : snapshot) (ws : writeSet) (rs : gset string)
    : outcome A * writeSet * gset string :=
  match p with
  | SRet o => (o, ws, rs)
  | SGet key k =>
    match ws !! key with
    | Some wv => atomic (k (sp_val wv)) s ws rs
    | None => atomic (k (value_at s key)) s ws ({[key]} ∪ rs)
    end
  | SRev key k => atomic (k (rev_at s key)) s ws ({[key]} ∪ rs)
  | SPut key val l k =>
    atomic k s (<[key := {| sp_val := val; sp_op := OpPut key val l |}]> ws) rs
  | SDel key k =>
    atomic k s (<[key := {| sp_val := ""; sp_op := OpDelete key |}]> ws) rs
  end.

(** ** Requests and read sets *)

(** The other users only make the history longer. *)
Definition env_ok (env : Env) : Prop :=
  forall n st, wf_store st -> wf_store (e_intf env n st) /\ extends st (e_intf env n st).

(** The store after some moves of the other users. *)
Definition drift (env : Env) : Store -> Store -> Prop := rtc (fun a b => exists n, b = e_intf env n a).

Lemma drift_keeps (P : Store -> Prop) env st st' :
  (forall n a, P a -> P (e_intf env n a)) -> P st -> drift env st st' -> P st'.
Proof. intros HP H Hd. induction Hd as [|a b c [n ->] _ IH]; [done|]. apply IH, HP, H. Qed.

Lemma drift_ok env st st' :
  env_ok env -> wf_store st -> drift env st st' -> wf_store st' /\ extends st st'.
Proof.
  intros He Hw Hd. apply (drift_keeps (fun a => wf_store a /\ extends st a) env st); [|by split|done].
  intros n a [Ha Hx]. destruct (He n a Ha). split; [done|by etrans].
Qed.

Definition request_safe {A} (f : Store -> outcome (A * Store)) : Prop :=
  forall st a st', wf_store st -> f st = Ok (a, st') -> wf_store st' /\ extends st st'.

Lemma Txn_safe cmps succ fail : request_safe (fun st => Txn st cmps succ fail).
Proof. intros st a st' Hw H. by destruct (Txn_ok _ _ _ _ _ _ Hw H) as (?&?&?&?). Qed.

Lemma request_inv env {A} (f : Store -> outcome (A * Store)) c o c' :
  env_ok env -> request_safe f -> wf_store (cl_store c) -> request env f c = (o, c') ->
  wf_store (cl_store c') /\ extends (cl_store c) (cl_store c') /\ cl_clock c' = S (cl_clock c) /\
  (forall a, o = Ok a -> exists st, wf_store st /\ drift env (cl_store c) st /\ f st = Ok (a, cl_store c')) /\
  ((forall a, o <> Ok a) -> drift env (cl_store c) (cl_store c')).
Proof.
  intros He Hf Hw H. unfold request in H.
  destruct (He (cl_clock c) (cl_store c) Hw) as [Hw1 Hx1].
  assert (drift env (cl_store c) (e_intf env (cl_clock c) (cl_store c))) as Hd
    by (apply rtc_once; by eexists).
  destruct (e_fail env (cl_clock c)); [by simplify_eq/=|].
  destruct (f (e_intf env (cl_clock c) (cl_store c))) as [[a st']|?| | |] eqn:E; simplify_eq/=; try done.
  destruct (Hf _ _ _ Hw1 E) as [Hw2 Hx2]. split_and!; [done|by etrans|done| |].
  - intros ? [= ->]. eauto.
  - intros Hno. by destruct (Hno a).
Qed.

(** What a response says of its key was true at some revision. *)
Definition sound (st : Store) (k : string) (r : GetResponse) : Prop :=
  exists rev, (1 <= rev <= st_rev st)%Z /\ gr_Kvs r = option_list (at_rev st rev !! k).

Lemma sound_extends st st' k r : extends st st' -> sound st k r -> sound st' k r.
Proof.
  intros Hx (rev&?&?). exists rev. pose proof (extends_rev _ _ Hx).
  rewrite (at_rev_extends st st') by done. split; [lia|done].
Qed.

Lemma lookup_rset_add keys (g : string -> GetResponse) rs k :
  rset_add keys ((fun k => RespGet (g k)) <$> keys) rs !! k =
  if decide (k ∈ keys) then Some (g k) else rs !! k.
Proof.
  revert rs. induction keys as [|k' keys IH]; intros rs; [done|]. csimpl. rewrite IH.
  destruct (decide (k = k')) as [->|].
  - rewrite lookup_insert_eq, (decide_True (P := k' ∈ k' :: keys)) by left. by case_decide.
  - rewrite lookup_insert_ne by done. repeat case_decide; [done|set_solver..|done].
Qed.

Lemma first_hit_None rs keys : first_hit rs keys = None <-> forall k, k ∈ keys -> rs !! k = None.
Proof.
  induction keys as [|k keys IH]; simpl; [set_solver|].
  destruct (rs !! k) as [r|] eqn:E.
  - split; [done|]. intros H. specialize (H k (list_elem_of_here _ _)). congruence.
  - rewrite IH. setoid_rewrite elem_of_cons. naive_solver.
Qed.

Lemma take_prefetch_wset keys s :
  wset (take_prefetch keys s) = wset s /\ getOpts (take_prefetch keys s) = getOpts s.
Proof.
  unfold take_prefetch. revert s. induction keys as [|k keys IH]; intros s; simpl; [done|].
  destruct (IH (take_one s k)) as [-> ->]. unfold take_one. by destruct (prefetch s !! k).
Qed.

Lemma lookup_take_prefetch keys s k :
  rset (take_prefetch keys s) !! k =
    (if decide (k ∈ keys) then match prefetch s !! k with Some r => Some r | None => rset s !! k end
     else rset s !! k) /\
  prefetch (take_prefetch keys s) !! k = if decide (k ∈ keys) then None else prefetch s !! k.
Proof.
  unfold take_prefetch. revert s. induction keys as [|k' keys IH]; intros s; [done|]. cbn [foldl].
  destruct (IH (take_one s k')) as [-> ->]. unfold take_one.
  destruct (prefetch s !! k') as [r|] eqn:E; simpl;
    (destruct (decide (k = k')) as [->|];
     [rewrite ?lookup_insert_eq, ?lookup_delete_eq, !(decide_True (P := k' ∈ k' :: keys)) by left
     |rewrite ?lookup_insert_ne, ?lookup_delete_ne by done]);
    rewrite ?E; repeat case_decide; set_solver.
Qed.

(** ** Serializability

    The state of an attempt: what the read set and the prefetched responses say
    was true at some revision, and a prefetched response never replaces one of
    the read set. *)
Record stm_inv (s : stmSerializable) (c : Cluster) : Prop := {
  inv_wf : wf_store (cl_store c);
  inv_rset : map_Forall (sound (cl_store c)) (rset s);
  inv_prefetch : map_Forall (sound (cl_store c)) (prefetch s);
  inv_disj : forall k, is_Some (prefetch s !! k) -> is_Some (rset s !! k) -> is_Some (wset s !! k);
}.

(** How the state may change while a closure runs. *)
Definition stm_mono (env : Env) (x x' : stmSerializable * Cluster) : Prop :=
  rset x.1 ⊆ rset x'.1 /\ drift env (cl_store x.2) (cl_store x'.2) /\ cl_clock x.2 <= cl_clock x'.2.

Global Instance stm_mono_preorder env : PreOrder (stm_mono env).
Proof.
  split.
  - intros x. split_and!; [done|apply rtc_refl|done].
  - intros x y z (?&?&?) (?&?&?). split_and!; [by etrans|by etrans|lia].
Qed.

Lemma wset_get_None ws keys : wset_get ws keys = None <-> forall k, k ∈ keys -> ws !! k = None.
Proof.
  induction keys as [|k keys IH]; simpl; [set_solver|].
  destruct (ws !! k) as [r|] eqn:E.
  - split; [done|]. intros H. specialize (H k (list_elem_of_here _ _)). congruence.
  - rewrite IH. setoid_rewrite elem_of_cons. naive_solver.
Qed.

Section serializable.
Context (env : Env) (Henv : env_ok env).
Implicit Types (s : stmSerializable) (c : Cluster).

Lemma sound_all_extends st st' (rs : readSet) :
  extends st st' -> map_Forall (sound st) rs -> map_Forall (sound st') rs.
Proof. intros ? H k r ?. eapply sound_extends; [done|]. by apply H. Qed.

Lemma fetch_inv keys s c o s' c' :
  stm_inv s c -> fetch env keys (s, c) = (o, (s', c')) ->
  (forall k, k ∈ keys -> prefetch s !! k = None \/ is_Some (wset s !! k)) ->
  stm_inv s' c' /\ stm_mono env (s, c) (s', c') /\
  wset s' = wset s /\ prefetch s' = prefetch s /\ getOpts s' = getOpts s /\
  (forall r k, o = Ok r -> keys = [k] -> exists g, r = Some g /\ rset s' !! k = Some g).
Proof.
  intros Hi H Hp. unfold fetch in H. case_bool_decide as Hk.
  { simplify_eq. split_and!; try done. }
  destruct (first_hit (rset s) keys) as [g|] eqn:Hh.
  { simplify_eq. split_and!; try done. intros r k [= <-] ->. exists g. simpl in Hh. by case_match. }
  destruct (request env _ c) as [o1 c1] eqn:Hr.
  pose proof (request_inv env _ c o1 c1 Henv (Txn_safe _ _ _) (inv_wf _ _ Hi) Hr)
    as (Hw&Hx&Hc&Hok&Hno).
  assert (drift env (cl_store c) (cl_store c1)) as Hd.
  { destruct o1 as [tr| | | |]; try by apply Hno.
    destruct (Hok tr eq_refl) as (st&Hwst&Hxst&HT). by apply Txn_gets in HT as [-> _]. }
  assert (stm_inv s c1 /\ stm_mono env (s, c) (s, c1)) as [Hi1 Hm1].
  { split; [|by split_and!; simpl; [|done|lia]].
    split; [done|eapply sound_all_extends, Hi; done..|apply Hi]. }
  destruct o1 as [tr|e| | |]; simplify_eq; try by split_and!; try done.
  destruct (Hok tr eq_refl) as (st&Hwst&Hxst&HT).
  apply Txn_gets in HT as (Hst&rev&Hrev&Hresp); [|done].
  rewrite Hresp. pose proof (proj1 (first_hit_None _ _) Hh) as Hnone.
  set (g := get_resp st (at_rev st rev)) in *.
  assert (Hl : forall k, rset_add keys ((fun k => RespGet (g k)) <$> keys) (rset s) !! k =
    if decide (k ∈ keys) then Some (g k) else rset s !! k) by (intros; apply lookup_rset_add).
  split_and!; simpl; try done.
  - split; simpl; [done| |apply Hi1|].
    + intros k r. rewrite Hl. case_decide; [|by apply Hi1]. intros [= <-].
      exists rev. rewrite Hst. by split.
    + intros k Hpk. rewrite Hl. case_decide as Hin; [|by apply Hi].
      destruct (Hp k Hin) as [E|]; [|done]. rewrite E in Hpk. by destruct Hpk.
  - split_and!; simpl; [|done|lia]. apply map_subseteq_spec. intros k r Hkr.
    rewrite Hl, decide_False; [done|]. intros Hin. rewrite (Hnone k Hin) in Hkr. done.
  - intros r k Ho ->. simpl in Ho. simplify_eq. exists (g k). split; [done|]. simpl.
    by rewrite lookup_insert_eq.
Qed.

Lemma take_prefetch_inv keys s c :
  stm_inv s c -> wset_get (wset s) keys = None ->
  stm_inv (take_prefetch keys s) c /\ stm_mono env (s, c) (take_prefetch keys s, c) /\
  (forall k, k ∈ keys -> prefetch (take_prefetch keys s) !! k = None).
Proof.
  intros Hi Hg. pose proof (proj1 (wset_get_None _ _) Hg) as Hn.
  pose proof (fun k => proj1 (lookup_take_prefetch keys s k)) as Hr.
  pose proof (fun k => proj2 (lookup_take_prefetch keys s k)) as Hp.
  destruct (take_prefetch_wset keys s) as [Hw _].
  assert (Hsub : rset s ⊆ rset (take_prefetch keys s)).
  { apply map_subseteq_spec. intros k r Hk. rewrite Hr. case_decide as Hin; [|done].
    destruct (prefetch s !! k) eqn:E; [|done].
    destruct (inv_disj _ _ Hi k) as [? Hx]; [by eexists..|]. by rewrite Hn in Hx. }
  split_and!; [|by split_and!|].
  - split; [apply Hi| | |].
    + intros k r. rewrite Hr. case_decide; [|apply Hi].
      destruct (prefetch s !! k) eqn:E; [|apply Hi]. intros [= <-]. by apply (inv_prefetch _ _ Hi).
    + intros k r. rewrite Hp. case_decide; [done|]. apply Hi.
    + intros k. rewrite Hp, Hr, Hw. case_decide; [by intros []|]. apply Hi.
  - intros k ?. by rewrite Hp, decide_True.
Qed.

Lemma stm_Get_inv keys s c o s' c' :
  stm_inv s c -> stm_Get env keys (s, c) = (o, (s', c')) ->
  stm_inv s' c' /\ stm_mono env (s, c) (s', c') /\ wset s' = wset s /\
  (forall k, k ∈ keys -> prefetch s' !! k = None \/ is_Some (wset_get (wset s) keys)) /\
  (forall v k, o = Ok v -> keys = [k] ->
     match wset s !! k with
     | Some wv => v = sp_val wv
     | None => exists g, rset s' !! k = Some g /\ v = respToValue (Some g)
     end).
Proof.
  intros Hi H. unfold stm_Get in H. destruct (wset_get (wset s) keys) as [wv|] eqn:Hg.
  { simplify_eq. split_and!; try done; [by intros; right|]. intros v k [= <-] ->. simpl in Hg.
    by destruct (wset s' !! k); simplify_eq. }
  destruct (take_prefetch_inv keys s c Hi Hg) as (Hi1&Hm1&Hp1).
  destruct (take_prefetch_wset keys s) as [Hw1 _].
  set (s1 := take_prefetch keys s) in *.
  destruct (fetch env keys (s1, c)) as [o2 [s2 c2]] eqn:Hf.
  destruct (fetch_inv keys s1 c o2 s2 c2 Hi1 Hf) as (Hi2&Hm2&Hw2&Hp2&_&Hv2); [by left; auto|].
  assert (stm_mono env (s, c) (s2, c2)) by by etrans.
  assert (Hs' : (s' = s2 \/ exists g, s' = set_getOpts g s2) /\ c' = c2 /\
                (forall v, o = Ok v -> exists r, o2 = Ok r /\ v = respToValue r)).
  { unfold mbind, ST_mbind, ST_bind, mret, ST_ret, lift in H. rewrite Hf in H. clear Hf.
    destruct o2 as [r|e| | |]; simplify_eq; try by split_and!; [left| |].
    case_match; [destruct r as [r|]|]; simplify_eq/=; split_and!; eauto; clear; naive_solver. }
  destruct Hs' as (Hs'&->&Hv).
  assert (rset s' = rset s2 /\ wset s' = wset s2 /\ prefetch s' = prefetch s2) as (Er&Ew&Ep)
    by (destruct Hs' as [->|[? ->]]; done).
  split_and!.
  - split; rewrite ?Er, ?Ew, ?Ep; apply Hi2.
  - unfold stm_mono in *. simpl in *. by rewrite Er.
  - congruence.
  - intros k Hk. left. rewrite Ep, Hp2. auto.
  - intros v k -> ->. simpl in Hg. destruct (wset s !! k); [done|].
    destruct (Hv v eq_refl) as (r&->&->). destruct (Hv2 r k eq_refl eq_refl) as (g&->&?).
    exists g. by rewrite Er.
Qed.

Lemma stm_Rev_inv key s c o s' c' :
  stm_inv s c -> stm_Rev env key (s, c) = (o, (s', c')) ->
  stm_inv s' c' /\ stm_mono env (s, c) (s', c') /\ wset s' = wset s /\
  (forall z, o = Ok z -> exists g, rset s' !! key = Some g /\
     z = match gr_Kvs g with kv :: _ => kv_ModRevision kv | [] => 0%Z end).
Proof.
  intros Hi H. unfold stm_Rev, mbind, ST_mbind, ST_bind in H.
  destruct (stm_Get env [key] (s, c)) as [o1 [s1 c1]] eqn:Hg.
  destruct (stm_Get_inv _ _ _ _ _ _ Hi Hg) as (Hi1&Hm1&Hw1&Hp1&_).
  destruct o1 as [v|e| | |]; simplify_eq; try by split_and!.
  destruct (fetch env [key] (s1, c1)) as [o2 [s2 c2]] eqn:Hf.
  destruct (fetch_inv _ _ _ _ _ _ Hi1 Hf) as (Hi2&Hm2&Hw2&Hp2&_&Hv2).
  { intros k Hk. rewrite Hw1. destruct (Hp1 k Hk) as [?|[wv Hwv]]; [by left|right].
    apply list_elem_of_singleton in Hk as ->. simpl in Hwv. destruct (wset s !! key); by eexists. }
  assert (stm_mono env (s, c) (s2, c2)) by by etrans.
  destruct o2 as [r|e| | |]; unfold mret, ST_ret in H; simplify_eq; split_and!; try congruence; try done.
  intros z [= <-]. destruct (Hv2 r key eq_refl eq_refl) as (g&->&?). exists g. split; [done|].
  by destruct g as [? []].
Qed.

Definition agrees (sn : snapshot) (rs : readSet) : Prop :=
  map_Forall (fun k r => gr_Kvs r = option_list (sn !! k)) rs.

Lemma agrees_mono sn rs rs' : rs ⊆ rs' -> agrees sn rs' -> agrees sn rs.
Proof. intros Hs H k r Hk. apply H. by eapply lookup_weaken. Qed.

Lemma stm_inv_write k w s c : stm_inv s c -> stm_inv (set_wset (<[k := w]> (wset s)) s) c.
Proof.
  intros Hi. split; [apply Hi..|]. intros k' ??. simpl in *.
  apply lookup_insert_is_Some'. right. by apply (inv_disj _ _ Hi).
Qed.

Lemma exec_inv {A} (p : stm A) s c o s' c' :
  stm_inv s c -> exec env p (s, c) = (o, (s', c')) ->
  stm_inv s' c' /\ stm_mono env (s, c) (s', c') /\
  (forall a sn rs, o = Ok a -> agrees sn (rset s') ->
     exists rs', atomic p sn (wset s) rs = (Ok a, wset s', rs')).
Proof.
  revert s c. induction p as [o1|key k IH|key k IH|key val l k IH|key k IH]; intros s c Hi H; simpl in H.
  - unfold lift in H. simplify_eq. split_and!; [done..|]. intros. simpl. subst. eauto.
  - unfold mbind, ST_mbind, ST_bind in H.
    destruct (stm_Get env [key] (s, c)) as [o1 [s1 c1]] eqn:Hg.
    destruct (stm_Get_inv _ _ _ _ _ _ Hi Hg) as (Hi1&Hm1&Hw1&_&Hv1).
    destruct o1 as [v|e| | |]; simplify_eq; try by split_and!.
    destruct (IH v s1 c1 Hi1 H) as (Hi2&Hm2&Ha). split_and!; [done|by etrans|].
    intros a sn rs -> Hag. specialize (Hv1 v key eq_refl eq_refl). simpl.
    rewrite <-Hw1 in *. destruct (wset s1 !! key) as [wv|] eqn:E.
    + subst v. by apply Ha.
    + destruct Hv1 as (g&Hgk&->).
      assert (respToValue (Some g) = value_at sn key) as <-.
      { assert (gr_Kvs g = option_list (sn !! key)) as Hkv.
        { apply Hag. eapply lookup_weaken; [done|]. apply Hm2. }
        unfold value_at. destruct g as [? kvs]; simpl in *. subst. by destruct (sn !! key). }
      by apply Ha.
  - unfold mbind, ST_mbind, ST_bind in H.
    destruct (stm_Rev env key (s, c)) as [o1 [s1 c1]] eqn:Hg.
    destruct (stm_Rev_inv _ _ _ _ _ _ Hi Hg) as (Hi1&Hm1&Hw1&Hv1).
    destruct o1 as [v|e| | |]; simplify_eq; try by split_and!.
    destruct (IH v s1 c1 Hi1 H) as (Hi2&Hm2&Ha). split_and!; [done|by etrans|].
    intros a sn rs -> Hag. destruct (Hv1 v eq_refl) as (g&Hgk&->). simpl.
    assert (match gr_Kvs g with kv :: _ => kv_ModRevision kv | [] => 0%Z end = rev_at sn key) as E.
    { assert (gr_Kvs g = option_list (sn !! key)) as ->.
      { apply Hag. eapply lookup_weaken; [done|]. apply Hm2. }
      unfold rev_at. by destruct (sn !! key). }
    rewrite <-Hw1, <-E. by apply Ha.
  - eapply IH in H as (?&Hm&Ha); [|by apply stm_inv_write].
    split_and!; [done|apply Hm|apply Ha].
  - eapply IH in H as (?&Hm&Ha); [|by apply stm_inv_write].
    split_and!; [done|apply Hm|apply Ha].
Qed.

Lemma cmps_agree st s c :
  stm_inv s c -> wf_store st -> extends (cl_store c) st ->
  forallb (applyCompare (current st)) (rset_cmps (rset s)) = true -> agrees (current st) (rset s).
Proof.
  intros Hi Hw Hx H k r Hk.
  assert (applyCompare (current st) (isKeyCurrent k r) = true) as Hc.
  { rewrite forallb_forall in H. apply H. rewrite <-list_elem_of_In. unfold rset_cmps.
    apply list_elem_of_fmap. exists (k, r). by rewrite elem_of_map_to_list. }
  destruct (sound_extends _ _ _ _ Hx (inv_rset _ _ Hi k r Hk)) as (rev&Hrev&Hr).
  unfold applyCompare, isKeyCurrent in Hc. simpl in Hc. apply Z.eqb_eq in Hc.
  rewrite Hr in Hc |- *. f_equal. apply compare_stable; [done..|]. rewrite Hc.
  by destruct (at_rev st rev !! k).
Qed.

Lemma commit_inv s c o s' c' :
  stm_inv s c -> commit env (s, c) = (o, (s', c')) ->
  wf_store (cl_store c') /\ extends (cl_store c) (cl_store c') /\ cl_clock c' = S (cl_clock c) /\
  (forall tr, o = Ok (Some tr) -> exists st, wf_store st /\ drift env (cl_store c) st /\
     agrees (current st) (rset s) /\ Txn st [] (wset_puts (wset s)) [] = Ok (tr, cl_store c')) /\
  (o = Ok None -> getOpts s' = None /\ drift env (cl_store c) (cl_store c') /\
     map_Forall (fun k r => r = get_resp (cl_store c') (current (cl_store c')) k) (prefetch s')).
Proof.
  intros Hi H. unfold commit in H.
  destruct (request env _ c) as [o1 c1] eqn:Hr.
  pose proof (request_inv env _ c o1 c1 Henv (Txn_safe _ _ _) (inv_wf _ _ Hi) Hr)
    as (Hw&Hx&Hc&Hok&_).
  destruct o1 as [tr|e| | |]; simplify_eq; try by split_and!.
  destruct (Hok tr eq_refl) as (st&Hwst&Hdst&HT).
  destruct (drift_ok env _ _ Henv (inv_wf _ _ Hi) Hdst) as [_ Hxst]. destruct (Txn_branch _ _ _ _ _ _ HT) as [Hs HB].
  destruct (tr_Succeeded tr) eqn:Es; simplify_eq; split_and!; try done.
  - intros ? [= <-]. exists st. split_and!; try done. by eapply cmps_agree.
  - intros _. split; [done|]. destruct HB as (tr'&HB&Hresp). simpl.
    destruct (Txn_gets_now st _ tr' _ HB) as [-> Hg]. split; [done|]. rewrite <-Hresp, Hg.
    intros k r. rewrite lookup_rset_add. case_decide as Hin; [congruence|].
    intros Hk. destruct Hin. apply list_elem_of_fmap. exists (k, r).
    by rewrite elem_of_map_to_list.
Qed.

End serializable.

(** The values a closure can return, whatever it reads. *)
Inductive returns {A} : stm A -> A -> Prop :=
  | returns_ret a : returns (SRet (Ok a)) a
  | returns_get key k v a : returns (k v) a -> returns (SGet key k) a
  | returns_rev key k z a : returns (k z) a -> returns (SRev key k) a
  | returns_put key val l k a : returns k a -> returns (SPut key val l k) a
  | returns_del key k a : returns k a -> returns (SDel key k) a.

(** The variables of the closure after some abandoned attempts. *)
Definition carried {V} (f : V -> stm V) : V -> V -> Prop := rtc (fun u u' => returns (f u) u').

(** [f], started with the variables [u], runs at one instant on [st] and
    commits: it leaves the store [st'] and the variables [v']. *)
Definition commits {V} (f : V -> stm V) (u : V) (st : Store) (v' : V) (tr : TxnResponse) (st' : Store)
    : Prop :=
  exists ws rs, atomic (f u) (current st) ∅ ∅ = (Ok v', ws, rs) /\
    Txn st [] (wset_puts ws) [] = Ok (tr, st').

Section run.
Context (env : Env) (Henv : env_ok env).
Context {V : Type} (f : V -> stm V) (keys : list string).

Lemma exec_returns {A} (p : stm A) s c a s' c' :
  exec env p (s, c) = (Ok a, (s', c')) -> returns p a.
Proof.
  revert s c. induction p as [o1|key k IH|key k IH|key val l k IH|key k IH]; intros s c H; simpl in H.
  - unfold lift in H. simplify_eq. constructor.
  - apply ST_bind_ok in H as (v&[s1 c1]&_&H). econstructor. by eapply IH.
  - apply ST_bind_ok in H as (v&[s1 c1]&_&H). econstructor. by eapply IH.
  - apply ST_bind_ok in H as (v&[s1 c1]&_&H). econstructor. by eapply IH.
  - apply ST_bind_ok in H as (v&[s1 c1]&_&H). econstructor. by eapply IH.
Qed.

Lemma reset_inv s c :
  wf_store (cl_store c) -> map_Forall (sound (cl_store c)) (prefetch s) -> stm_inv (reset s) c.
Proof.
  intros Hw Hp. split; simpl; [done|apply map_Forall_empty|done|].
  intros k _ [? Hk]. by rewrite lookup_empty in Hk.
Qed.

Lemma attempt_inv {A} (p : stm A) s c o s' c' :
  stm_inv (reset s) c -> with_prefetch env keys p (reset s, c) = (o, (s', c')) ->
  stm_inv s' c' /\ drift env (cl_store c) (cl_store c') /\ cl_clock c <= cl_clock c' /\
  (forall a, o = Ok a -> returns p a /\ forall sn rs, agrees sn (rset s') ->
     exists rs', atomic p sn ∅ rs = (Ok a, wset s', rs')).
Proof.
  intros Hi H. unfold with_prefetch in H. case_bool_decide.
  - destruct (exec_inv env Henv _ _ _ _ _ _ Hi H) as (?&(?&?&?)&Ha). split_and!; try done.
    intros a ->. split; [by eapply exec_returns|]. intros. by apply Ha.
  - unfold mbind, ST_mbind, ST_bind in H.
    destruct (stm_Get env keys (reset s, c)) as [o1 [s1 c1]] eqn:Hg.
    destruct (stm_Get_inv env Henv _ _ _ _ _ _ Hi Hg) as (Hi1&(Hr1&Hx1&Hc1)&Hw1&_).
    destruct o1; simplify_eq; try by split_and!.
    destruct (exec_inv env Henv _ _ _ _ _ _ Hi1 H) as (?&(?&?&?)&Ha). simpl in *.
    rewrite Hw1 in Ha. split_and!; [done|by etrans|lia|].
    intros ? ->. split; [by eapply exec_returns|]. intros. by apply Ha.
Qed.

Lemma fresh_sound st (rs : readSet) :
  wf_store st -> map_Forall (fun k r => r = get_resp st (current st) k) rs -> map_Forall (sound st) rs.
Proof.
  intros Hw H k r Hk. rewrite (H k r Hk). exists (st_rev st). pose proof (wf_store_rev st Hw).
  rewrite at_rev_current. split; [lia|done].
Qed.

Lemma runSTM_serializable fuel v s c v' tr s' c' :
  stm_inv (reset s) c -> runSTM env fuel keys f v (s, c) = (Ok (v', tr), (s', c')) ->
  exists u st, carried f v u /\ wf_store st /\ drift env (cl_store c) st /\
    commits f u st v' tr (cl_store c') /\ (fuel = 1 -> u = v).
Proof.
  revert v s c. induction fuel as [|fuel IH]; intros v s c Hi H; simpl in H; [by simplify_eq|].
  apply ST_bind_ok in H as (v1&[s1 c1]&H1&H).
  destruct (attempt_inv _ _ _ _ _ _ Hi H1) as (Hi1&Hx1&_&Ha).
  destruct (Ha v1 eq_refl) as [Hret Hat].
  apply ST_bind_ok in H as (resp&[s2 c2]&H2&H).
  destruct (commit_inv env Henv _ _ _ _ _ Hi1 H2) as (Hw2&Hx2&_&Hsome&Hnone).
  destruct resp as [tr2|].
  - unfold mret, ST_ret in H. simplify_eq.
    destruct (Hsome tr eq_refl) as (st&Hwst&Hxst&Hag&HT).
    destruct (Hat (current st) ∅ Hag) as (rs'&Hat').
    exists v, st. split_and!; [apply rtc_refl|done|by etrans| |done]. by exists (wset s1), rs'.
  - destruct (Hnone eq_refl) as (_&Hd2&Hfresh).
    destruct (IH v1 s2 c2) as (u&st&Hu&Hwst&Hxst&Hcom&_); [|done|].
    { apply reset_inv; [done|]. by apply fresh_sound. }
    exists u, st. split_and!; try done; [by eapply rtc_l| |].
    + etrans; [exact Hx1|]. by etrans.
    + intros [= ->]. done.
Qed.

End run.

Lemma newStm_inv c : wf_store (cl_store c) -> stm_inv (reset newStm) c.
Proof. intros. apply reset_inv; [done|apply map_Forall_empty]. Qed.

(** A commit that fails leaves what the others made of the store. *)
Lemma commit_fails env (Henv : env_ok env) s c o s' c' :
  stm_inv s c -> commit env (s, c) = (o, (s', c')) -> (forall x, o <> Ok x) ->
  drift env (cl_store c) (cl_store c').
Proof.
  intros Hi H Ho. unfold commit in H. destruct (request env _ c) as [o1 c1] eqn:Hr.
  pose proof (request_inv env _ c o1 c1 Henv (Txn_safe _ _ _) (inv_wf _ _ Hi) Hr) as (_&_&_&_&Hno).
  destruct o1 as [tr|e| | |]; simplify_eq; try by apply Hno.
  destruct (tr_Succeeded tr); simplify_eq; by destruct (Ho _ eq_refl).
Qed.

(** What the others and the commits of [f] keep, the transaction keeps, whether
    it returns or fails. *)
Lemma runSTM_keeps env (Henv : env_ok env) {V} (f : V -> stm V) keys (P : Store -> Prop) (Q : V -> Prop)
    fuel v s c :
  (forall n st, P st -> P (e_intf env n st)) ->
  (forall u u', Q u -> returns (f u) u' -> Q u') ->
  (forall u st v' tr st', Q u -> wf_store st -> P st -> commits f u st v' tr st' -> P st') ->
  stm_inv (reset s) c -> P (cl_store c) -> Q v ->
  P (cl_store (runSTM env fuel keys f v (s, c)).2.2).
Proof.
  intros HP HQ Hf. revert v s c. induction fuel as [|fuel IH]; intros v s c Hi Hc Hv; [done|].
  simpl. unfold mbind, ST_mbind, ST_bind.
  destruct (with_prefetch env keys (f v) (reset s, c)) as [o1 [s1 c1]] eqn:E1.
  destruct (attempt_inv env Henv keys _ _ _ _ _ _ Hi E1) as (Hi1&Hd1&_&Ha).
  assert (P (cl_store c1)) as Hc1 by by eapply drift_keeps.
  destruct o1 as [v1|e| | |]; try done. destruct (Ha v1 eq_refl) as [Hret Hat].
  destruct (commit env (s1, c1)) as [o2 [s2 c2]] eqn:E2.
  destruct (commit_inv env Henv _ _ _ _ _ Hi1 E2) as (Hw2&Hx2&_&Hsome&Hnone).
  destruct o2 as [[tr|]|e| | |];
    try (eapply drift_keeps; [done|exact Hc1|by eapply commit_fails]).
  - destruct (Hsome tr eq_refl) as (st&Hwst&Hdst&Hag&HT).
    destruct (Hat (current st) ∅ Hag) as (rs'&Hat').
    eapply Hf; [exact Hv|exact Hwst|by eapply drift_keeps|]. by exists (wset s1), rs'.
  - destruct (Hnone eq_refl) as (_&Hd2&Hfresh). apply IH; [|by eapply drift_keeps|by eapply HQ].
    apply reset_inv; [done|]. by apply fresh_sound.
Qed.

Lemma NewSTM_keeps env (Henv : env_ok env) {V} (f : V -> stm V) v keys (P : Store -> Prop) (Q : V -> Prop)
    fuel c :
  (forall n st, P st -> P (e_intf env n st)) ->
  (forall u u', Q u -> returns (f u) u' -> Q u') ->
  (forall u st v' tr st', Q u -> wf_store st -> P st -> commits f u st v' tr st' -> P st') ->
  wf_store (cl_store c) -> P (cl_store c) -> Q v ->
  P (cl_store (NewSTM env fuel f v keys c).2).
Proof.
  intros HP HQ Hf Hw Hc Hv.
  pose proof (runSTM_keeps env Henv f keys P Q fuel v newStm c HP HQ Hf (newStm_inv c Hw) Hc Hv) as HK.
  unfold NewSTM. by destruct (runSTM env fuel keys f v (newStm, c)) as [o [s c']].
Qed.

(** C4: The transactions are serializable.  Whatever the other users of etcd
    do between the requests, if [NewSTM] returns without an error then there is
    a state of the store, not older than the call, at which the closure, run at
    one instant, gives the returned variables and the committed writes.  The
    variables the closure starts with may be those left by abandoned attempts. *)
Theorem NewSTM_serializable env fuel {V} (f : V -> stm V) v keys c v' tr c' :
  env_ok env -> wf_store (cl_store c) ->
  NewSTM env fuel f v keys c = (Ok (v', tr), c') ->
  exists u st, carried f v u /\ wf_store st /\ drift env (cl_store c) st /\
    commits f u st v' tr (cl_store c').
Proof.
  intros He Hw H. unfold NewSTM in H.
  destruct (runSTM env fuel keys f v (newStm, c)) as [o [s1 c1]] eqn:E. simplify_eq.
  eapply runSTM_serializable in E as (u&st&Hu&Hwst&Hd&Hc&_); [by exists u, st|done|by apply newStm_inv].
Qed.

(** A closure that adds one byte to a key, against a user who changes the key
    between the read and the commit of the first attempt. *)
Module StmExample.

Definition step : unit -> stm unit := fun _ =>
  SGet "/k" (fun x => SPut "/k" (x +:+ "!") NoLease (SRet (Ok ()))).

Definition put (k v : string) (st : Store) : Store :=
  match Put st k v NoLease with Ok st' => st' | _ => st end.

Definition env : Env := {|
  e_intf := fun n st => if bool_decide (n = 1) then put "/k" "b" st else st;
  e_fail := fun _ => None |}.

Definition start : Cluster := {| cl_store := put "/k" "a" new_store; cl_clock := 0 |}.

Lemma put_ok k v st : wf_store st -> wf_store (put k v st) /\ extends st (put k v st).
Proof.
  intros Hw. unfold put. destruct (Put st k v NoLease) eqn:E; try by split. by eapply Put_ok.
Qed.

Lemma env_fine : env_ok env.
Proof. intros n st Hw. simpl. case_match; [by apply put_ok|by split]. Qed.

Definition run : outcome (unit * TxnResponse) * Cluster := NewSTM env 2 step () ["/k"] start.

Definition response : TxnResponse := {|
  tr_Revision := 4; tr_Succeeded := true;
  tr_Responses := [RespPut {| pr_Revision := 4; pr_PrevKv := None |}] |}.

Lemma run_eq : run = (Ok ((), response), run.2).
Proof. rewrite (surjective_pairing run) at 1. apply (f_equal2 pair); [vm_compute; reflexivity|reflexivity]. Qed.

End StmExample.

Lemma NewSTM_serializable_witness :
  value_at (current (cl_store StmExample.run.2)) "/k" = "b!" /\
  exists u st, carried StmExample.step () u /\ wf_store st /\ drift StmExample.env (cl_store StmExample.start) st /\
    commits StmExample.step u st () StmExample.response (cl_store StmExample.run.2).
Proof.
  split; [vm_compute; reflexivity|].
  apply (NewSTM_serializable StmExample.env 2 StmExample.step () ["/k"] StmExample.start).
  - apply StmExample.env_fine.
  - apply StmExample.put_ok. apply new_store_wf.
  - exact StmExample.run_eq.
Defined.

(** ** Progress

    When the other users are quiet from the N-th request on, everything an
    attempt reads after it is current. *)

Definition quiet_from (env : Env) (N : nat) : Prop :=
  forall n, N <= n -> e_fail env n = None /\ forall st, e_intf env n st = st.

Record fresh (st : Store) (s : stmSerializable) (c : Cluster) : Prop := {
  fresh_store : cl_store c = st;
  fresh_rset : map_Forall (fun k r => r = get_resp st (current st) k) (rset s);
  fresh_prefetch : map_Forall (fun k r => r = get_resp st (current st) k) (prefetch s);
  fresh_getOpts : getOpts s = None \/ getOpts s = Some (st_rev st);
}.

Section quiet.
Context (env : Env) (N : nat) (Hq : quiet_from env N) (st : Store) (Hwf : wf_store st).
Implicit Types (s : stmSerializable) (c : Cluster).

Lemma request_quiet {A} (f : Store -> outcome (A * Store)) c :
  cl_store c = st -> N <= cl_clock c ->
  request env f c =
  (match f st with Ok (a, _) => Ok a | Err e => Err e | Panic => Panic | Exit => Exit | Diverge => Diverge end,
   {| cl_store := match f st with Ok (_, st') => st' | _ => st end; cl_clock := S (cl_clock c) |}).
Proof.
  intros Hs Hc. unfold request. destruct (Hq _ Hc) as [-> Hi]. rewrite Hi, Hs.
  by destruct (f st) as [[]| | | |].
Qed.

Lemma base_rev s c :
  fresh st s c -> (default 0%Z (getOpts s) <= st_rev st)%Z /\
  read_snap st (default 0%Z (getOpts s)) = current st.
Proof.
  intros Hf. pose proof (wf_store_rev st Hwf). unfold read_snap.
  destruct (fresh_getOpts _ _ _ Hf) as [-> | ->]; simpl; [split; [lia|done]|].
  destruct (Z.leb_spec (st_rev st) 0); [lia|]. by rewrite at_rev_current.
Qed.

Lemma fetch_fresh keys s c o s' c' :
  fresh st s c -> N <= cl_clock c -> fetch env keys (s, c) = (o, (s', c')) ->
  fresh st s' c' /\ wset s' = wset s /\ cl_clock c <= cl_clock c' /\
  (forall g, o = Ok (Some g) -> gr_Revision g = st_rev st).
Proof.
  intros Hf Hc H. destruct (base_rev s c Hf) as [Hb1 Hb2]. unfold fetch in H. case_bool_decide as Hk.
  { by simplify_eq. }
  destruct (first_hit (rset s) keys) as [g|] eqn:Hh.
  { simplify_eq. split_and!; try done. intros ? [= <-]. clear Hk.
    induction keys as [|k keys IH]; simpl in Hh; [done|].
    destruct (rset s' !! k) as [r|] eqn:E; simplify_eq; [|by apply IH].
    by rewrite (fresh_rset _ _ _ Hf k g E). }
  rewrite request_quiet in H by (by try apply Hf).
  change ((fun k => OpGet k None (default 0%Z (getOpts s))) <$> keys)
    with (gets keys (default 0%Z (getOpts s))) in H.
  assert (Hfail : fresh st s {| cl_store := st; cl_clock := S (cl_clock c) |}).
  { split; [done|apply Hf..]. }
  destruct (Txn st [] (gets keys (default 0%Z (getOpts s))) []) as [[tr st']|e| | |] eqn:HT;
    simplify_eq; try by split_and!; simpl; [| |lia|].
  unfold Txn in HT. apply outcome_bind_ok in HT as (?&_&HT). cbn [forallb] in HT.
  rewrite applyOps_gets, Hb2 in HT. apply outcome_bind_ok in HT as (?&_&HT). simplify_eq/=.
  split_and!; simpl; [|done|lia|].
  - split; simpl; [done| |apply Hf..]. intros k r. rewrite lookup_rset_add.
    case_decide; [congruence|]. apply Hf.
  - intros g. destruct keys; [done|]. simpl. by intros [= <-].
Qed.

Lemma take_prefetch_fresh keys s c : fresh st s c -> fresh st (take_prefetch keys s) c.
Proof.
  intros Hf. split; [apply Hf| | |].
  - intros k r. destruct (lookup_take_prefetch keys s k) as [-> _]. case_decide; [|apply Hf].
    destruct (prefetch s !! k) eqn:E; [|apply Hf]. intros [= <-]. by apply (fresh_prefetch _ _ _ Hf).
  - intros k r. destruct (lookup_take_prefetch keys s k) as [_ ->]. case_decide; [done|apply Hf].
  - destruct (take_prefetch_wset keys s) as [_ ->]. apply Hf.
Qed.

Lemma stm_Get_fresh keys s c o s' c' :
  fresh st s c -> N <= cl_clock c -> stm_Get env keys (s, c) = (o, (s', c')) ->
  fresh st s' c' /\ wset s' = wset s /\ cl_clock c <= cl_clock c'.
Proof.
  intros Hf Hc H. unfold stm_Get in H. destruct (wset_get (wset s) keys); [by simplify_eq|].
  pose proof (take_prefetch_fresh keys s c Hf) as Hf1.
  destruct (take_prefetch_wset keys s) as [Hw1 _].
  unfold mbind, ST_mbind, ST_bind, mret, ST_ret, lift in H.
  destruct (fetch env keys (take_prefetch keys s, c)) as [o1 [s1 c1]] eqn:E.
  destruct (fetch_fresh _ _ _ _ _ _ Hf1 Hc E) as (Hf2&Hw2&Hc2&Hg). rewrite Hw1 in Hw2. clear E.
  destruct o1 as [r|e| | |]; simplify_eq; try done.
  case_match; [destruct r as [r|]|]; simplify_eq/=; try done.
  split_and!; try done. split; [apply Hf2..|]. right. simpl. by rewrite (Hg r).
Qed.

Lemma stm_Rev_fresh key s c o s' c' :
  fresh st s c -> N <= cl_clock c -> stm_Rev env key (s, c) = (o, (s', c')) ->
  fresh st s' c' /\ wset s' = wset s /\ cl_clock c <= cl_clock c'.
Proof.
  intros Hf Hc H. unfold stm_Rev, mbind, ST_mbind, ST_bind, mret, ST_ret in H.
  destruct (stm_Get env [key] (s, c)) as [o1 [s1 c1]] eqn:E1.
  destruct (stm_Get_fresh _ _ _ _ _ _ Hf Hc E1) as (Hf1&Hw1&Hc1).
  destruct o1 as [v|e| | |]; simplify_eq; try done.
  destruct (fetch env [key] (s1, c1)) as [o2 [s2 c2]] eqn:E2.
  destruct (fetch_fresh _ _ _ _ _ _ Hf1 ltac:(lia) E2) as (Hf2&Hw2&Hc2&_). rewrite Hw1 in Hw2.
  destruct o2; simplify_eq; split_and!; try done; lia.
Qed.

Lemma fresh_write w s c : fresh st s c -> fresh st (set_wset w s) c.
Proof. intros Hf. split; apply Hf. Qed.

Lemma exec_fresh {A} (p : stm A) s c o s' c' :
  fresh st s c -> N <= cl_clock c -> exec env p (s, c) = (o, (s', c')) ->
  fresh st s' c' /\ cl_clock c <= cl_clock c'.
Proof.
  revert s c. induction p as [o1|key k IH|key k IH|key val l k IH|key k IH]; intros s c Hf Hc H; simpl in H.
  - unfold lift in H. by simplify_eq.
  - unfold mbind, ST_mbind, ST_bind in H.
    destruct (stm_Get env [key] (s, c)) as [o1 [s1 c1]] eqn:E.
    destruct (stm_Get_fresh _ _ _ _ _ _ Hf Hc E) as (Hf1&Hw1&Hc1).
    destruct o1 as [v|e| | |]; simplify_eq; try done.
    destruct (IH v s1 c1 Hf1 ltac:(lia) H). split; [done|lia].
  - unfold mbind, ST_mbind, ST_bind in H.
    destruct (stm_Rev env key (s, c)) as [o1 [s1 c1]] eqn:E.
    destruct (stm_Rev_fresh _ _ _ _ _ _ Hf Hc E) as (Hf1&Hw1&Hc1).
    destruct o1 as [v|e| | |]; simplify_eq; try done.
    destruct (IH v s1 c1 Hf1 ltac:(lia) H). split; [done|lia].
  - eapply IH in H; [done|by apply fresh_write|done].
  - eapply IH in H; [done|by apply fresh_write|done].
Qed.

Lemma fresh_cmps s c :
  fresh st s c -> forallb (applyCompare (current st)) (rset_cmps (rset s)) = true.
Proof.
  intros Hf. apply forallb_forall. intros cmp Hin. apply list_elem_of_In in Hin.
  apply list_elem_of_fmap in Hin as ([k r]&->&Hk%elem_of_map_to_list). simpl.
  rewrite (fresh_rset _ _ _ Hf k r Hk). unfold applyCompare, isKeyCurrent. simpl.
  destruct (current st !! k); apply Z.eqb_refl.
Qed.

Lemma commit_fresh s c o s' c' :
  fresh st s c -> N <= cl_clock c -> commit env (s, c) = (o, (s', c')) -> o <> Ok None.
Proof.
  intros Hf Hc H ->. unfold commit in H. rewrite request_quiet in H by (by try apply Hf).
  destruct (Txn st _ _ _) as [[tr st']|e| | |] eqn:HT; simplify_eq.
  destruct (Txn_branch _ _ _ _ _ _ HT) as [Hs _]. rewrite (fresh_cmps s c Hf) in Hs.
  by rewrite <-Hs in H.
Qed.

End quiet.

(** Closures that end on their own. *)
Fixpoint returning {A} (p : stm A) : Prop :=
  match p with
  | SRet o => o <> Diverge
  | SGet _ k => forall v, returning (k v)
  | SRev _ k => forall z, returning (k z)
  | SPut _ _ _ k => returning k
  | SDel _ k => returning k
  end.

Lemma request_Txn_returns env cmps succ fail c :
  (request env (fun st => Txn st cmps succ fail) c).1 <> Diverge.
Proof.
  unfold request. destruct (e_fail env (cl_clock c)); [done|].
  destruct (Txn_returns (e_intf env (cl_clock c) (cl_store c)) cmps succ fail) as [[[] ->]|[e ->]]; done.
Qed.

Lemma fetch_returns env keys x : (fetch env keys x).1 <> Diverge.
Proof.
  destruct x as [s c]. unfold fetch. case_bool_decide; [done|]. destruct (first_hit _ _); [done|].
  match goal with |- context [request env (fun st => Txn st [] ?ops []) c] =>
    pose proof (request_Txn_returns env [] ops [] c) as Hr; destruct (request _ _ c) as [[] ?] end;
    simpl in *; try done. by case_match.
Qed.

Lemma stm_Get_returns env keys x : (stm_Get env keys x).1 <> Diverge.
Proof.
  destruct x as [s c]. unfold stm_Get. destruct (wset_get _ _); [done|].
  unfold mbind, ST_mbind, ST_bind. pose proof (fetch_returns env keys (take_prefetch keys s, c)).
  destruct (fetch _ _ _) as [[r|e| | |] [s1 c1]]; simpl in *; try done.
  case_match; [by destruct r|done].
Qed.

Lemma stm_Rev_returns env key x : (stm_Rev env key x).1 <> Diverge.
Proof.
  unfold stm_Rev, mbind, ST_mbind, ST_bind. pose proof (stm_Get_returns env [key] x).
  destruct (stm_Get _ _ _) as [[] y]; simpl in *; try done.
  pose proof (fetch_returns env [key] y). by destruct (fetch _ _ _) as [[] z].
Qed.

Lemma exec_returning env {A} (p : stm A) x : returning p -> (exec env p x).1 <> Diverge.
Proof.
  revert x. induction p as [o|key k IH|key k IH|key val l k IH|key k IH]; intros x Hp; simpl in *.
  - done.
  - unfold mbind, ST_mbind, ST_bind. pose proof (stm_Get_returns env [key] x).
    destruct (stm_Get _ _ _) as [[] y]; simpl in *; auto.
  - unfold mbind, ST_mbind, ST_bind. pose proof (stm_Rev_returns env key x).
    destruct (stm_Rev _ _ _) as [[] y]; simpl in *; auto.
  - destruct x. by apply IH.
  - destruct x. by apply IH.
Qed.

Lemma attempt_returns env keys {A} (p : stm A) x : returning p -> (with_prefetch env keys p x).1 <> Diverge.
Proof.
  intros Hp. unfold with_prefetch. case_bool_decide; [by apply exec_returning|].
  unfold mbind, ST_mbind, ST_bind. pose proof (stm_Get_returns env keys x).
  destruct (stm_Get _ _ _) as [[] y]; simpl in *; try done. by apply exec_returning.
Qed.

Lemma attempt_fresh env N (Hq : quiet_from env N) st (Hw : wf_store st) keys {A} (p : stm A) s c o s' c' :
  fresh st s c -> N <= cl_clock c -> with_prefetch env keys p (s, c) = (o, (s', c')) ->
  fresh st s' c' /\ cl_clock c <= cl_clock c'.
Proof.
  intros Hf Hc H. unfold with_prefetch in H. case_bool_decide; [by eapply exec_fresh|].
  unfold mbind, ST_mbind, ST_bind in H.
  destruct (stm_Get env keys (s, c)) as [o1 [s1 c1]] eqn:E.
  destruct (stm_Get_fresh env N Hq st Hw _ _ _ _ _ _ Hf Hc E) as (Hf1&_&Hc1).
  destruct o1; simplify_eq; try done.
  destruct (exec_fresh env N Hq st Hw _ _ _ _ _ _ Hf1 ltac:(lia) H). split; [done|lia].
Qed.

Lemma commit_returns env x : (commit env x).1 <> Diverge.
Proof.
  destruct x as [s c]. unfold commit.
  match goal with |- context [request env (fun st => Txn st ?a ?b ?d) c] =>
    pose proof (request_Txn_returns env a b d c) as Hr; destruct (request _ _ c) as [[] ?] end;
    simpl in *; try done. by case_match.
Qed.

Lemma fresh_reset s c :
  getOpts s = None ->
  map_Forall (fun k r => r = get_resp (cl_store c) (current (cl_store c)) k) (prefetch s) ->
  fresh (cl_store c) (reset s) c.
Proof. intros. split; [done|apply map_Forall_empty|done|by left]. Qed.

Lemma runSTM_terminates env N keys {V} (f : V -> stm V) fuel v s c :
  env_ok env -> quiet_from env N -> (forall u, returning (f u)) ->
  stm_inv (reset s) c -> fresh (cl_store c) (reset s) c ->
  N - cl_clock c < fuel -> (runSTM env fuel keys f v (s, c)).1 <> Diverge.
Proof.
  intros He Hq Hf. revert v s c. induction fuel as [|fuel IH]; intros v s c Hi Hfr Hfu; [lia|].
  simpl. unfold mbind, ST_mbind, ST_bind.
  pose proof (attempt_returns env keys (f v) (reset s, c) (Hf v)) as Ha.
  destruct (with_prefetch env keys (f v) (reset s, c)) as [o1 [s1 c1]] eqn:E1.
  destruct (attempt_inv env He keys _ _ _ _ _ _ Hi E1) as (Hi1&_&Hc1&_).
  destruct o1 as [v1|e| | |]; try done.
  pose proof (commit_returns env (s1, c1)) as Hcm.
  destruct (commit env (s1, c1)) as [o2 [s2 c2]] eqn:E2.
  destruct (commit_inv env He _ _ _ _ _ Hi1 E2) as (Hw2&_&Hc2&_&Hn).
  destruct o2 as [[tr|]|e| | |]; try done.
  destruct (Hn eq_refl) as (Hg&_&Hp).
  destruct (le_lt_dec N (cl_clock c)) as [Hle|Hlt].
  - destruct (attempt_fresh env N Hq _ (inv_wf _ _ Hi) keys _ _ _ _ _ _ Hfr Hle E1) as [Hf1 ?].
    by destruct (commit_fresh env N Hq _ _ _ _ _ _ Hf1 ltac:(lia) E2).
  - apply IH; [|by apply fresh_reset|lia].
    apply reset_inv; [done|]. by apply fresh_sound.
Qed.

(** C26: The transactions make progress.  If from its N-th request on no request
    fails and the other users are quiet, [NewSTM] returns within N + 1 attempts. *)
Theorem NewSTM_terminates env N {V} (f : V -> stm V) v keys c fuel :
  env_ok env -> quiet_from env N -> (forall u, returning (f u)) -> wf_store (cl_store c) ->
  N < fuel -> (NewSTM env fuel f v keys c).1 <> Diverge.
Proof.
  intros He Hq Hf Hw Hfu. unfold NewSTM.
  pose proof (runSTM_terminates env N keys f fuel v newStm c He Hq Hf (newStm_inv c Hw)) as Ht.
  destruct (runSTM env fuel keys f v (newStm, c)) as [o [s c']]. apply Ht; [|lia].
  by apply fresh_reset; [|apply map_Forall_empty].
Qed.

Lemma NewSTM_terminates_witness :
  (NewSTM StmExample.env 3 StmExample.step () ["/k"] StmExample.start).1 <> Diverge.
Proof.
  apply (NewSTM_terminates StmExample.env 2).
  - apply StmExample.env_fine.
  - intros n Hn. split; [done|]. intros st. simpl. rewrite bool_decide_false; [done|lia].
  - intros u x. done.
  - apply StmExample.put_ok. apply new_store_wf.
  - lia.
Defined.

(** ** Transactions nobody disturbs *)

(** The closure as one atomic step on the store. *)
Definition atomically {V} (p : stm V) (st : Store) : outcome (V * TxnResponse) * Store :=
  match (atomic p (current st) ∅ ∅).1 with
  | (Ok v, ws) =>
    match Txn st [] (wset_puts ws) [] with
    | Ok (tr, st') => (Ok (v, tr), st')
    | Err e => (Err e, st)
    | Panic => (Panic, st)
    | Exit => (Exit, st)
    | Diverge => (Diverge, st)
    end
  | (Err e, _) => (Err e, st)
  | (Panic, _) => (Panic, st)
  | (Exit, _) => (Exit, st)
  | (Diverge, _) => (Diverge, st)
  end.

(** The keys a closure reads. *)
Definition reads {V} (p : stm V) (st : Store) : gset string := (atomic p (current st) ∅ ∅).2.

Lemma atomic_rs {A} (p : stm A) sn ws rs :
  atomic p sn ws rs = ((atomic p sn ws ∅).1, (atomic p sn ws ∅).2 ∪ rs).
Proof.
  revert ws rs. induction p as [o|key k IH|key k IH|key val l k IH|key k IH]; intros ws rs; simpl.
  - f_equal. set_solver.
  - destruct (ws !! key); [apply IH|]. rewrite IH, (IH _ _ ({[key]} ∪ ∅)). simpl. f_equal. set_solver.
  - rewrite IH, (IH _ _ ({[key]} ∪ ∅)). simpl. f_equal. set_solver.
  - apply IH.
  - apply IH.
Qed.

Section undisturbed.
Context (env : Env) (N : nat) (Hq : quiet_from env N) (st : Store) (Hwf : wf_store st).
Implicit Types (s : stmSerializable) (c : Cluster).

Lemma take_prefetch_empty keys s : prefetch s = ∅ -> take_prefetch keys s = s.
Proof.
  intros E. unfold take_prefetch. induction keys as [|k keys IH]; [done|]. simpl.
  unfold take_one at 2. by rewrite E, lookup_empty.
Qed.

Lemma fetch_quiet keys s c :
  fresh st s c -> N <= cl_clock c -> keys <> [] -> "" ∉ keys -> length keys <= MaxOpsPerTxn ->
  (rset s = ∅ \/ exists k, keys = [k]) ->
  exists s' c' k, fetch env keys (s, c) = (Ok (Some (get_resp st (current st) k)), (s', c')) /\
    wset s' = wset s /\ prefetch s' = prefetch s /\ dom (rset s') = list_to_set keys ∪ dom (rset s) /\
    (forall k', keys = [k'] -> k = k').
Proof.
  intros Hf Hc Hne Hk Hl Hr. destruct (base_rev st Hwf s c Hf) as [Hb1 Hb2].
  unfold fetch. rewrite bool_decide_false by done.
  destruct (first_hit (rset s) keys) as [g|] eqn:Hh.
  - destruct Hr as [Hr|[k ->]].
    { rewrite (proj2 (first_hit_None (rset s) keys)) in Hh; [done|]. rewrite Hr. intros. apply lookup_empty. }
    simpl in Hh. destruct (rset s !! k) as [r|] eqn:E; simplify_eq.
    exists s, c, k. rewrite (fresh_rset _ _ _ Hf k g E). split_and!; try done; [|congruence].
    assert (k ∈ dom (rset s)) by by apply elem_of_dom. set_solver.
  - rewrite (request_quiet env N Hq st) by (by try apply Hf).
    change ((fun k => OpGet k None (default 0%Z (getOpts s))) <$> keys)
      with (gets keys (default 0%Z (getOpts s))).
    rewrite (Txn_gets_total st keys _ Hk Hl Hb1), Hb2. cbn [tr_Responses].
    destruct keys as [|k0 keys]; [done|]. eexists _, _, k0. split; [reflexivity|].
    cbn [rset wset prefetch set_rset]. split_and!; try done; [|congruence].
    apply set_eq. intros k. rewrite elem_of_dom, lookup_rset_add. case_decide as Hin.
    + split; [|by eexists]. intros _. apply elem_of_union_l. by apply elem_of_list_to_set.
    + rewrite <-elem_of_dom, elem_of_union, elem_of_list_to_set. naive_solver.
Qed.

Lemma stm_Get_quiet keys s c :
  fresh st s c -> N <= cl_clock c -> keys <> [] -> "" ∉ keys -> length keys <= MaxOpsPerTxn ->
  prefetch s = ∅ -> wset_get (wset s) keys = None -> (rset s = ∅ \/ exists k, keys = [k]) ->
  exists s' c' v, stm_Get env keys (s, c) = (Ok v, (s', c')) /\
    wset s' = wset s /\ prefetch s' = ∅ /\ dom (rset s') = list_to_set keys ∪ dom (rset s) /\
    (forall k, keys = [k] -> v = value_at (current st) k).
Proof.
  intros Hf Hc Hne Hk Hl Hp Hw Hr. unfold stm_Get. rewrite Hw, take_prefetch_empty by done.
  destruct (fetch_quiet keys s c Hf Hc Hne Hk Hl Hr) as (s1&c1&k&E&Hw1&Hp1&Hd1&Hk1).
  unfold mbind, ST_mbind, ST_bind. rewrite E.
  assert (respToValue (Some (get_resp st (current st) k)) = value_at (current st) k) as Hv.
  { unfold value_at. simpl. by destruct (current st !! k). }
  case_match; unfold mret, ST_ret; cbn [stm_base]; rewrite Hv; eexists _, c1, _;
    (split; [done|]); simpl; split_and!; try done; try congruence;
    intros k' Hk'; by rewrite (Hk1 k' Hk').
Qed.

Lemma stm_Rev_quiet key s c :
  fresh st s c -> N <= cl_clock c -> key <> "" -> prefetch s = ∅ ->
  exists s' c', stm_Rev env key (s, c) = (Ok (rev_at (current st) key), (s', c')) /\
    wset s' = wset s /\ prefetch s' = ∅ /\ dom (rset s') = {[key]} ∪ dom (rset s).
Proof.
  intros Hf Hc Hk Hp.
  assert (exists s1 c1 v, stm_Get env [key] (s, c) = (Ok v, (s1, c1)) /\ wset s1 = wset s /\
    prefetch s1 = ∅ /\ {[key]} ∪ dom (rset s1) = {[key]} ∪ dom (rset s)) as (s1&c1&v&E1&Hw1&Hp1&Hd1).
  { destruct (wset s !! key) as [wv|] eqn:Ew.
    - exists s, c, (sp_val wv). unfold stm_Get. simpl. by rewrite Ew.
    - destruct (stm_Get_quiet [key] s c) as (s1&c1&v&E&?&?&Hd&_); try done; [set_solver|
        unfold MaxOpsPerTxn; simpl; lia|simpl; by rewrite Ew|eauto|].
      exists s1, c1, v. split_and!; try done. rewrite Hd. set_solver. }
  destruct (stm_Get_fresh env N Hq st Hwf _ _ _ _ _ _ Hf Hc E1) as (Hf1&_&Hc1).
  destruct (fetch_quiet [key] s1 c1 Hf1) as (s2&c2&k&E2&Hw2&Hp2&Hd2&Hk2);
    [lia|done|set_solver|unfold MaxOpsPerTxn; simpl; lia|eauto|].
  specialize (Hk2 key eq_refl) as ->.
  unfold stm_Rev, mbind, ST_mbind, ST_bind, mret, ST_ret. rewrite E1, E2. simpl.
  exists s2, c2. unfold rev_at. split_and!; [by destruct (current st !! key)|congruence..|].
  rewrite Hd2, <-Hd1. simpl. by rewrite (right_id_L ∅ (∪)).
Qed.

Lemma exec_quiet {A} (p : stm A) s c :
  fresh st s c -> N <= cl_clock c -> prefetch s = ∅ ->
  "" ∉ (atomic p (current st) (wset s) (dom (rset s))).2 ->
  exists s' c', exec env p (s, c) = ((atomic p (current st) (wset s) (dom (rset s))).1.1, (s', c')) /\
    wset s' = (atomic p (current st) (wset s) (dom (rset s))).1.2 /\
    dom (rset s') = (atomic p (current st) (wset s) (dom (rset s))).2.
Proof.
  revert s c. induction p as [o|key k IH|key k IH|key val l k IH|key k IH]; intros s c Hf Hc Hp He; simpl in *.
  - by exists s, c.
  - unfold mbind, ST_mbind, ST_bind. destruct (wset s !! key) as [wv|] eqn:Ew.
    + assert (stm_Get env [key] (s, c) = (Ok (sp_val wv), (s, c))) as ->
        by (unfold stm_Get; simpl; by rewrite Ew). by apply IH.
    + rewrite atomic_rs in He |- *. cbn [fst snd] in He |- *.
      destruct (stm_Get_quiet [key] s c) as (s1&c1&v&E&Hw1&Hp1&Hd1&Hv); try done; [set_solver|
        unfold MaxOpsPerTxn; simpl; lia|simpl; by rewrite Ew|eauto|].
      destruct (stm_Get_fresh env N Hq st Hwf _ _ _ _ _ _ Hf Hc E) as (Hf1&_&Hc1).
      rewrite E, (Hv key eq_refl). rewrite <-Hw1 in *.
      assert (dom (rset s1) = {[key]} ∪ dom (rset s)) as Hd by (rewrite Hd1; set_solver).
      rewrite <-Hd in *. specialize (IH (value_at (current st) key) s1 c1 Hf1 ltac:(lia) Hp1).
      rewrite atomic_rs in IH. cbn [fst snd] in IH. by apply IH.
  - unfold mbind, ST_mbind, ST_bind.
    destruct (stm_Rev_quiet key s c Hf Hc) as (s1&c1&E&Hw1&Hp1&Hd1); [|done|].
    { intros ->. rewrite atomic_rs in He. set_solver. }
    destruct (stm_Rev_fresh env N Hq st Hwf _ _ _ _ _ _ Hf Hc E) as (Hf1&_&Hc1).
    rewrite E. rewrite <-Hw1, <-Hd1 in *. apply IH; [done|lia|done|done].
  - unfold mbind, ST_mbind, ST_bind, stm_Put.
    specialize (IH (set_wset (<[key := {| sp_val := val; sp_op := OpPut key val l |}]> (wset s)) s) c).
    simpl in IH. apply IH; [by apply fresh_write|done..].
  - unfold mbind, ST_mbind, ST_bind, stm_Del.
    specialize (IH (set_wset (<[key := {| sp_val := ""; sp_op := OpDelete key |}]> (wset s)) s) c).
    simpl in IH. apply IH; [by apply fresh_write|done..].
Qed.

End undisturbed.

Lemma commit_quiet env N (Hq : quiet_from env N) st s c :
  fresh st s c -> N <= cl_clock c -> "" ∉ dom (rset s) -> size (dom (rset s)) <= MaxOpsPerTxn ->
  exists s' c', commit env (s, c) =
    (match Txn st [] (wset_puts (wset s)) [] with
     | Ok (tr, _) => Ok (Some tr) | Err e => Err e | Panic => Panic | Exit => Exit | Diverge => Diverge
     end, (s', c')) /\
    cl_store c' = match Txn st [] (wset_puts (wset s)) [] with Ok (_, st') => st' | _ => st end /\
    cl_clock c <= cl_clock c'.
Proof.
  intros Hf Hc He Hs. unfold commit. rewrite (request_quiet env N Hq st) by (by try apply Hf).
  assert (length (map_to_list (rset s)) <= MaxOpsPerTxn) as Hlen
    by (by rewrite length_map_to_list, <-size_dom).
  assert (Hk : "" ∉ (map_to_list (rset s)).*1).
  { intros ([k r]&E&Hin%elem_of_map_to_list)%list_elem_of_fmap. simpl in E. subst k.
    apply He, elem_of_dom. by eexists. }
  rewrite Txn_true.
  - destruct (Txn_returns st [] (wset_puts (wset s)) []) as [[[tr st'] E]|[e E]]; rewrite E.
    + assert (tr_Succeeded tr = true) as -> by (by destruct (Txn_branch _ _ _ _ _ _ E) as [<- _]).
      eexists _, _. split_and!; [done|done|simpl; lia].
    + eexists _, _. split_and!; [done|done|simpl; lia].
  - by unfold rset_cmps; rewrite length_fmap.
  - by rewrite !length_fmap.
  - unfold rset_cmps. rewrite <-list_fmap_compose. intros H. apply Hk.
    apply list_elem_of_fmap in H as ([k r]&E&Hin). apply list_elem_of_fmap. by exists (k, r).
  - by apply checkOps_gets.
  - by eapply fresh_cmps.
Qed.

(** When no request fails and nobody else writes, the transaction is the
    closure run as one atomic step, on its first attempt. *)
Lemma NewSTM_quiet env {V} (f : V -> stm V) v keys c fuel :
  quiet_from env (cl_clock c) -> wf_store (cl_store c) -> length keys <= MaxOpsPerTxn ->
  "" ∉ (list_to_set keys ∪ reads (f v) (cl_store c) : gset string) ->
  size (list_to_set keys ∪ reads (f v) (cl_store c) : gset string) <= MaxOpsPerTxn ->
  exists c', NewSTM env (S fuel) f v keys c = ((atomically (f v) (cl_store c)).1, c') /\
    cl_store c' = (atomically (f v) (cl_store c)).2 /\ cl_clock c <= cl_clock c'.
Proof.
  intros Hq Hw Hlen He Hsz. set (st := cl_store c) in *. unfold reads in *.
  assert (Hf0 : fresh st (reset newStm) c) by (by apply fresh_reset; [|apply map_Forall_empty]).
  assert (exists s1 c1,
    with_prefetch env keys (f v) (reset newStm, c) = ((atomic (f v) (current st) ∅ ∅).1.1, (s1, c1)) /\
    fresh st s1 c1 /\ cl_clock c <= cl_clock c1 /\
    wset s1 = (atomic (f v) (current st) ∅ ∅).1.2 /\
    dom (rset s1) = list_to_set keys ∪ (atomic (f v) (current st) ∅ ∅).2)
    as (s1&c1&E1&Hf1&Hc1&Hw1&Hd1).
  { unfold with_prefetch. case_bool_decide as Hk.
    - subst keys. destruct (exec_quiet env _ Hq st Hw (f v) (reset newStm) c) as (s1&c1&E&Hw1&Hd1);
        [done|done|done|simpl; rewrite dom_empty_L; set_solver|].
      simpl in *. rewrite dom_empty_L in *. exists s1, c1.
      destruct (exec_fresh env _ Hq st Hw _ _ _ _ _ _ Hf0 (le_n _) E). split_and!; try done.
      rewrite Hd1. set_solver.
    - destruct (stm_Get_quiet env _ Hq st Hw keys (reset newStm) c) as (s0&c0&x&E0&Hw0&Hp0&Hd0&_);
        try done; [set_solver|by apply wset_get_None|by left|].
      destruct (stm_Get_fresh env _ Hq st Hw _ _ _ _ _ _ Hf0 (le_n _) E0) as (Hf1&_&Hc0).
      simpl in Hw0, Hd0. rewrite dom_empty_L, (right_id_L ∅ _) in Hd0.
      destruct (exec_quiet env _ Hq st Hw (f v) s0 c0 Hf1 Hc0 Hp0) as (s1&c1&E&Hw1&Hd1);
        rewrite Hw0, Hd0, atomic_rs in *; cbn [fst snd] in *; [set_solver|].
      unfold mbind, ST_mbind, ST_bind. rewrite E0. exists s1, c1.
      destruct (exec_fresh env _ Hq st Hw _ _ _ _ _ _ Hf1 Hc0 E). split_and!; try done; [lia|].
      rewrite Hd1. set_solver. }
  rewrite <-Hd1 in He, Hsz. destruct (commit_quiet env _ Hq st s1 c1 Hf1 Hc1 He Hsz) as (s2&c2&E2&Hs2&Hc2).
  rewrite Hw1 in *. unfold NewSTM, atomically. cbn [runSTM]. unfold mbind, ST_mbind, ST_bind.
  rewrite E1. pose proof (fresh_store _ _ _ Hf1) as Hst1.
  destruct (atomic (f v) (current st) ∅ ∅) as [[o ws] rs]. cbn [fst snd] in *.
  destruct o as [v'|e| | |]; try (by exists c1). rewrite E2.
  exists c2. destruct (Txn st [] (wset_puts ws) []) as [[tr st']|e| | |]; cbn; (split; [done|split; [done|lia]]).
Qed.
