(* ===== verification/Net.v ===== *)
(** * The network, abstractly

    What the daemon promises, without keys, encodings, revisions or retries: a
    network is a map of users, a map of channels, the members that each session
    has on each channel, the operators, and the last message sent to each user
    and channel.  Every command is a function on the network. *)

From S2P Require Import Prelude GoLib Mode Msg User Channel.

(** ** State *)

Record Net := {
  n_users : gmap string UserValue;
  n_userMsg : gmap string (option Message);
  n_chans : gmap string ChannelCtl;
  n_chanMsg : gmap string Message;
  n_members : gmap (string * Z) (list ChannelNick);
  n_opers : gmap string OperValue;
}.

Definition set_users (m : gmap string UserValue) (n : Net) : Net := {|
  n_users := m; n_userMsg := n_userMsg n; n_chans := n_chans n;
  n_chanMsg := n_chanMsg n; n_members := n_members n; n_opers := n_opers n |}.
Definition set_userMsgs (m : gmap string (option Message)) (n : Net) : Net := {|
  n_users := n_users n; n_userMsg := m; n_chans := n_chans n;
  n_chanMsg := n_chanMsg n; n_members := n_members n; n_opers := n_opers n |}.
Definition set_chans (m : gmap string ChannelCtl) (n : Net) : Net := {|
  n_users := n_users n; n_userMsg := n_userMsg n; n_chans := m;
  n_chanMsg := n_chanMsg n; n_members := n_members n; n_opers := n_opers n |}.
Definition set_chanMsgs (m : gmap string Message) (n : Net) : Net := {|
  n_users := n_users n; n_userMsg := n_userMsg n; n_chans := n_chans n;
  n_chanMsg := m; n_members := n_members n; n_opers := n_opers n |}.
Definition set_memberss (m : gmap (string * Z) (list ChannelNick)) (n : Net) : Net := {|
  n_users := n_users n; n_userMsg := n_userMsg n; n_chans := n_chans n;
  n_chanMsg := n_chanMsg n; n_members := m; n_opers := n_opers n |}.
Definition set_opers (m : gmap string OperValue) (n : Net) : Net := {|
  n_users := n_users n; n_userMsg := n_userMsg n; n_chans := n_chans n;
  n_chanMsg := n_chanMsg n; n_members := n_members n; n_opers := m |}.

Definition net_empty : Net := {|
  n_users := ∅; n_userMsg := ∅; n_chans := ∅; n_chanMsg := ∅; n_members := ∅; n_opers := ∅ |}.

Definition put_user (nick : string) (uv : UserValue) (n : Net) : Net :=
  set_users (<[nick := uv]> (n_users n)) n.
Definition put_userMsg (nick : string) (m : option Message) (n : Net) : Net :=
  set_userMsgs (<[nick := m]> (n_userMsg n)) n.
Definition put_chan (ch : string) (cc : ChannelCtl) (n : Net) : Net :=
  set_chans (<[ch := cc]> (n_chans n)) n.
Definition put_chanMsg (ch : string) (m : Message) (n : Net) : Net :=
  set_chanMsgs (<[ch := m]> (n_chanMsg n)) n.
Definition put_members (chl : string * Z) (l : list ChannelNick) (n : Net) : Net :=
  set_memberss (<[chl := l]> (n_members n)) n.
Definition put_oper (login : string) (ov : OperValue) (n : Net) : Net :=
  set_opers (<[login := ov]> (n_opers n)) n.

(** The members of a channel on a session. *)
Definition members (n : Net) (ch : string) (l : Z) : list ChannelNick :=
  default [] (n_members n !! (ch, l)).

Definition drop_channel (ch : string) (uv : UserValue) : UserValue :=
  set_Channels (remove_first (fun c => bool_decide (ch = c)) (uv_Channels uv)) uv.

Definition drop_nick (nick : string) (l : list ChannelNick) : list ChannelNick :=
  remove_first (fun cn => bool_decide (nick = cn_Nick cn)) l.

Definition find_nick (nick : string) (l : list ChannelNick) : option ChannelNick :=
  find {| cns_Nicks := l |} nick.

(** ** Commands

    [me] is the nick of the client, [pfx] its prefix, [lid] the lease of its
    session.  [None]: the command fails because a value it needs is missing. *)

Section commands.
Context (me : string) (pfx : Prefix) (lid : Z).

Definition from_me (cmd : string) (params : list string) : Message :=
  {| m_Prefix := Some pfx; m_Command := cmd; m_Params := params |}.

(** The first user on a channel that does not exist founds it. *)
Definition net_join (now : Z) (ch : string) (n : Net) : option (string * Net) :=
  uv ← n_users n !! me;
  let '(chv, mode) :=
    match n_chans n !! ch with
    | Some chv => (chv, [])
    | None => ({| cc_Name := ch; cc_Topic := ""; cc_Mode := []; cc_Created := now |},
               ["O"; "o"]%char)
    end in
  Some (cc_Topic chv,
    put_chanMsg ch (from_me irc.JOIN [ch])
   (put_members (ch, lid) (members n ch lid ++ [{| cn_Nick := uv_Nick uv; cn_Mode := mode |}])
   (put_chan ch chv
   (put_user me (set_Channels (uv_Channels uv ++ [ch]) uv) n)))).

Definition drop_member (ch : string) (l : Z) (nick : string) (n : Net) : Net :=
  match n_members n !! (ch, l) with
  | Some cns => put_members (ch, l) (drop_nick nick cns) n
  | None => n
  end.

(** The result says whether the user was on the channel. *)
Definition net_part (ch msg : string) (n : Net) : option (bool * Net) :=
  uv ← n_users n !! me;
  if bool_decide (ch ∈ uv_Channels uv) then
    Some (true, put_chanMsg ch (from_me irc.PART [ch; msg])
                (drop_member ch lid me (put_user me (drop_channel ch uv) n)))
  else Some (false, n).

Definition quit_one (msg : string) (n : Net) (ch : string) : Net :=
  match n_members n !! (ch, lid) with
  | Some cns => put_chanMsg ch (from_me irc.QUIT [msg]) (put_members (ch, lid) (drop_nick me cns) n)
  | None => n
  end.

Definition del_user (nick : string) (n : Net) : Net :=
  set_userMsgs (delete nick (n_userMsg n)) (set_users (delete nick (n_users n)) n).

Definition net_quit (msg : string) (n : Net) : option (unit * Net) :=
  uv ← n_users n !! me;
  Some ((), del_user me (foldl (quit_one msg) n (uv_Channels uv))).

Inductive mode_result := MNoChan | MNotOn | MNotOp | MModes (m : ModeValue).

(** [upd] computes the new modes and whether to store them. *)
Definition net_chanMode (upd : ModeValue -> ModeValue * bool) (query : bool) (ch : string) (n : Net)
    : option (mode_result * Net) :=
  match n_chans n !! ch with
  | None => Some (MNoChan, n)
  | Some cc =>
    cns ← n_members n !! (ch, lid);
    match find_nick me cns with
    | None => Some (MNotOn, n)
    | Some cn =>
      if query then Some (MModes (cc_Mode cc), n)
      else if negb (has (cn_Mode cn) "o") then Some (MNotOp, n)
      else let '(m, changed) := upd (cc_Mode cc) in
           Some (MModes m, if changed then put_chan ch (set_cc_Mode m cc) n else n)
    end
  end.

Definition net_userMode (upd : ModeValue -> ModeValue * bool) (n : Net) : option (ModeValue * Net) :=
  uv ← n_users n !! me;
  let '(m, changed) := upd (uv_Mode uv) in
  Some (m, if changed then put_user me (set_Mode m uv) n else n).

Definition net_away (msg : string) (n : Net) : option (unit * Net) :=
  uv ← n_users n !! me;
  let mode := if bool_decide (msg = "") then del (uv_Mode uv) "a" else add (uv_Mode uv) "a" in
  Some ((), put_user me (set_AwayMsg msg (set_Mode mode uv)) n).

(** Operator rights need the password of the operator. *)
Definition net_oper (login pass : string) (n : Net) : option (bool * Net) :=
  uv ← n_users n !! me;
  match n_opers n !! login with
  | None => Some (false, n)
  | Some ov =>
    if bool_decide (ov_Pass ov = pass) then
      Some (true, put_user me (set_Mode (add (uv_Mode uv) (if ov_Global ov then "O" else "o")%char) uv) n)
    else Some (false, n)
  end.

Definition is_op (cn : ChannelNick) : bool := has (cn_Mode cn) "o" || has (cn_Mode cn) "O".

Inductive kick_result := KNotOnChan | KNotOp | KUserNotOn | KKicked.

Definition net_kick (ch nick msg : string) (n : Net) : option (kick_result * Net) :=
  match n_members n !! (ch, lid) ≫= find_nick me with
  | None => Some (KNotOnChan, n)
  | Some cn =>
    if negb (is_op cn) then Some (KNotOp, n) else
    match n_users n !! nick with
    | None => Some (KUserNotOn, n)
    | Some uv =>
      if negb (bool_decide (ch ∈ uv_Channels uv)) then Some (KUserNotOn, n) else
      cns ← n_members n !! (ch, uv_Lease uv);
      Some (KKicked, put_chanMsg ch (from_me irc.KICK [ch; nick; msg])
                     (put_members (ch, uv_Lease uv) (drop_nick nick cns)
                     (put_user nick (drop_channel ch uv) n)))
    end
  end.

Inductive topic_result := TNoChan | TNotOn | TNotOp | TTopic (t : string) | TSet.

Definition net_topic (ch : string) (msg : option string) (n : Net) : option (topic_result * Net) :=
  match n_chans n !! ch, msg with
  | None, _ => Some (TNoChan, n)
  | Some cc, None => Some (TTopic (cc_Topic cc), n)
  | Some cc, Some t =>
    let set := put_chanMsg ch (from_me irc.TOPIC [ch; t]) (put_chan ch (set_cc_Topic t cc) n) in
    if has (cc_Mode cc) "t" then
      cns ← n_members n !! (ch, lid);
      match find_nick me cns with
      | None => Some (TNotOn, n)
      | Some cn => if is_op cn then Some (TSet, set) else Some (TNotOp, n)
      end
    else Some (TSet, set)
  end.

Inductive privmsg_result := PNoNick | PNotSent | PAway | PSent.

(** A user with mode [E] neither sends nor receives plain text. *)
Definition net_privMsgUser (target msg : string) (n : Net) : option (privmsg_result * Net) :=
  match n_users n !! target with
  | None => Some (PNoNick, n)
  | Some uvt =>
    uv ← n_users n !! me;
    if has (uv_Mode uvt) "a"
    then Some (PAway, put_userMsg me (Some (from_me irc.RPL_AWAY [me; target; uv_AwayMsg uvt])) n)
    else if negb (HasPrefix msg "?OTR") && (has (uv_Mode uv) "E" || has (uv_Mode uvt) "E")
    then Some (PNotSent, n)
    else Some (PSent, put_userMsg target (Some (from_me irc.PRIVMSG [target; msg])) n)
  end.

(** On a moderated channel only operators and voiced users speak. *)
Definition net_privMsgChan (ch msg : string) (n : Net) : option (privmsg_result * Net) :=
  match n_chans n !! ch with
  | None => Some (PNoNick, n)
  | Some cc =>
    uv ← n_users n !! me;
    let send := Some (PSent, put_chanMsg ch (from_me irc.PRIVMSG [ch; msg]) n) in
    if has (cc_Mode cc) "m" then
      cns ← n_members n !! (ch, uv_Lease uv);
      match find_nick me cns with
      | None => Some (PNoNick, n)
      | Some cn => if is_op cn || has (cn_Mode cn) "v" then send else Some (PNotSent, n)
      end
    else send
  end.

End commands.

(** A new user; [None] when the nick is taken. *)
Definition net_register (uv : UserValue) (n : Net) : option Net :=
  match n_users n !! uv_Nick uv with
  | Some _ => None
  | None => Some (put_userMsg (uv_Nick uv) None (put_user (uv_Nick uv) uv n))
  end.

(** The session of a server ends. *)
Definition net_expire (l : Z) (n : Net) : Net :=
  let gone (nick : string) : bool :=
    match n_users n !! nick with Some uv => bool_decide (uv_Lease uv = l) | None => false end in
  set_users (filter (fun p => uv_Lease p.2 <> l) (n_users n))
  (set_userMsgs (filter (fun p => gone p.1 = false) (n_userMsg n))
  (set_memberss (filter (fun p => p.1.2 <> l) (n_members n)) n)).

(** A server drops its empty list of members of a channel. *)
Definition net_reap (ch : string) (l : Z) (n : Net) : Net :=
  match n_members n !! (ch, l) with
  | Some [] => set_memberss (delete (ch, l) (n_members n)) n
  | _ => n
  end.

(** ** Consistency

    A user is on a channel as many times as its session lists it there; a
    listed nick is a user of that session; a user has a message box, a channel
    with members exists and every channel has a message. *)

Definition member_nicks (n : Net) (ch : string) (l : Z) : list string := cn_Nick <$> members n ch l.

Record net_ok (n : Net) : Prop := {
  ok_nick nick uv : n_users n !! nick = Some uv -> uv_Nick uv = nick;
  ok_channels nick uv ch : n_users n !! nick = Some uv ->
    occurs ch (uv_Channels uv) = occurs nick (member_nicks n ch (uv_Lease uv));
  ok_listed nick ch l : nick ∈ member_nicks n ch l ->
    exists uv, n_users n !! nick = Some uv /\ uv_Lease uv = l;
  ok_userMsg nick : is_Some (n_users n !! nick) <-> is_Some (n_userMsg n !! nick);
  ok_chan ch l : is_Some (n_members n !! (ch, l)) -> is_Some (n_chans n !! ch);
  ok_name ch cc : n_chans n !! ch = Some cc -> cc_Name cc = ch;
  ok_chanMsg ch : is_Some (n_chans n !! ch) -> is_Some (n_chanMsg n !! ch);
}.

(** The client acts under the session that registered its user. *)
Definition owns (n : Net) (me : string) (lid : Z) : Prop :=
  forall uv, n_users n !! me = Some uv -> uv_Lease uv = lid.

(** What holds of a network whatever sessions the clients act under. *)
Record net_sound (n : Net) : Prop := {
  so_nick nick uv : n_users n !! nick = Some uv -> uv_Nick uv = nick;
  so_chan ch l : is_Some (n_members n !! (ch, l)) -> is_Some (n_chans n !! ch);
  so_name ch cc : n_chans n !! ch = Some cc -> cc_Name cc = ch;
  so_chanMsg ch : is_Some (n_chans n !! ch) -> is_Some (n_chanMsg n !! ch);
}.

Lemma net_ok_sound n : net_ok n -> net_sound n.
Proof. intros Hn. split; apply Hn. Qed.

(** ** Sessions

    The code does not ask whether the session of a client is the one that registered
    its user.  [Owned] is the system in which it always is when a client joins,
    leaves or quits; [Free] is the system in which a session may be replaced, and a
    nick given away, under a connected client. *)
Inductive discipline := Owned | Free.

Definition if_owned (d : discipline) (P : Prop) : Prop := match d with Owned => P | Free => True end.

Lemma if_owned_mono d (P Q : Prop) : (P -> Q) -> if_owned d P -> if_owned d Q.
Proof. destruct d; simpl; auto. Qed.

Lemma if_owned_intro d (P : Prop) : P -> if_owned d P.
Proof. by destruct d. Qed.

Lemma if_owned_and d (P Q : Prop) : if_owned d P -> if_owned d Q -> if_owned d (P /\ Q).
Proof. destruct d; simpl; auto. Qed.

Lemma if_owned_mp d (P Q : Prop) : if_owned d (P -> Q) -> if_owned d P -> if_owned d Q.
Proof. destruct d; simpl; auto. Qed.

(** The end of a session when users may have moved to other sessions: it takes the
    lists of the session, and some of the users and boxes. *)
Record loses (l : Z) (n n' : Net) : Prop := {
  ls_users : n_users n' ⊆ n_users n;
  ls_userMsg : n_userMsg n' ⊆ n_userMsg n;
  ls_members : n_members n' = filter (fun p => p.1.2 <> l) (n_members n);
  ls_chans : n_chans n' = n_chans n;
  ls_chanMsg : n_chanMsg n' = n_chanMsg n;
  ls_opers : n_opers n' = n_opers n;
}.

Definition ends (d : discipline) (l : Z) (n n' : Net) : Prop :=
  match d with Owned => n' = net_expire l n | Free => loses l n n' end.

(** The commands of the clients, registration, the commands of the
    administration tool, the end of a session and the removal of empty lists. *)
Inductive net_move (d : discipline) : Net -> Net -> Prop :=
  | step_join me pfx lid now ch n t n' :
      if_owned d (owns n me lid) -> net_join me pfx lid now ch n = Some (t, n') -> net_move d n n'
  | step_part me pfx lid ch msg n r n' :
      if_owned d (owns n me lid) -> net_part me pfx lid ch msg n = Some (r, n') -> net_move d n n'
  | step_quit me pfx lid msg n r n' :
      if_owned d (owns n me lid) -> net_quit me pfx lid msg n = Some (r, n') -> net_move d n n'
  | step_chanMode me lid upd query ch n r n' :
      net_chanMode me lid upd query ch n = Some (r, n') -> net_move d n n'
  | step_userMode me upd n r n' : net_userMode me upd n = Some (r, n') -> net_move d n n'
  | step_away me msg n r n' : net_away me msg n = Some (r, n') -> net_move d n n'
  | step_oper me login pass n r n' : net_oper me login pass n = Some (r, n') -> net_move d n n'
  | step_kick me pfx lid ch nick msg n r n' :
      net_kick me pfx lid ch nick msg n = Some (r, n') -> net_move d n n'
  | step_topic me pfx lid ch msg n r n' :
      net_topic me pfx lid ch msg n = Some (r, n') -> net_move d n n'
  | step_privMsgUser me pfx target msg n r n' :
      net_privMsgUser me pfx target msg n = Some (r, n') -> net_move d n n'
  | step_privMsgChan me pfx ch msg n r n' :
      net_privMsgChan me pfx ch msg n = Some (r, n') -> net_move d n n'
  | step_register uv n n' :
      uv_Channels uv = [] -> net_register uv n = Some n' -> net_move d n n'
  | step_new_oper login ov n : net_move d n (put_oper login ov n)
  | step_rm_oper login n : net_move d n (set_opers (delete login (n_opers n)) n)
  | step_notice_user nick m n :
      m_Command m = irc.NOTICE -> is_Some (n_userMsg n !! nick) -> net_move d n (put_userMsg nick (Some m) n)
  | step_notice_chan ch m n : m_Command m = irc.NOTICE -> net_move d n (put_chanMsg ch m n)
  | step_expire l n n' : ends d l n n' -> net_move d n n'
  | step_reap ch l n : net_move d n (net_reap ch l n).

Notation net_step := (net_move Owned).

Lemma net_empty_ok : net_ok net_empty.
Proof.
  assert (Hs : forall {K A} `{Countable K} (k : K), is_Some ((∅ : gmap K A) !! k) -> False)
    by (intros K A ? ? k [? E]; by rewrite lookup_empty in E).
  split; simpl.
  - intros nick uv. by rewrite lookup_empty.
  - intros nick uv ch. by rewrite lookup_empty.
  - intros nick ch l. unfold member_nicks, members. simpl. rewrite lookup_empty. simpl.
    by intros ?%not_elem_of_nil.
  - intros nick. split; intros []%Hs.
  - intros ch l []%Hs.
  - intros ch cc. by rewrite lookup_empty.
  - intros ch []%Hs.
Qed.

(** *** Lists of members *)

Lemma drop_nick_nicks nick l :
  cn_Nick <$> drop_nick nick l = remove_first (fun y => bool_decide (nick = y)) (cn_Nick <$> l).
Proof.
  unfold drop_nick. induction l as [|cn l IH]; csimpl; [done|].
  case_bool_decide; csimpl; [done|]. by rewrite IH.
Qed.

Lemma occurs_drop_nick nick x l :
  occurs x (cn_Nick <$> drop_nick nick l)
  = occurs x (cn_Nick <$> l) - (if decide (x = nick) then 1 else 0).
Proof.
  rewrite drop_nick_nicks. case_decide as Hx.
  - subst. apply occurs_remove_first_eq.
  - rewrite occurs_remove_first_ne by done. lia.
Qed.

Lemma occurs_drop_channel ch c uv :
  occurs c (uv_Channels (drop_channel ch uv))
  = occurs c (uv_Channels uv) - (if decide (c = ch) then 1 else 0).
Proof.
  unfold drop_channel. simpl. case_decide as Hc.
  - subst. apply occurs_remove_first_eq.
  - rewrite occurs_remove_first_ne by done. lia.
Qed.

Lemma find_nick_elem me l cn : find_nick me l = Some cn -> me ∈ cn_Nick <$> l.
Proof.
  unfold find_nick, find. simpl. induction l as [|c l IH]; simpl; [done|].
  case_bool_decide as Hc; csimpl; [intros _; rewrite Hc; left|intros; right; auto].
Qed.

(** *** Changes that keep the network consistent *)

Lemma members_put n ch l cns ch' l' :
  members (put_members (ch, l) cns n) ch' l' =
  if decide (ch' = ch /\ l' = l) then cns else members n ch' l'.
Proof.
  unfold members. simpl. case_decide as Hd.
  - destruct Hd as [-> ->]. by rewrite lookup_insert_eq.
  - rewrite lookup_insert_ne; [done|]. intros [= -> ->]. by apply Hd.
Qed.

Lemma member_nicks_put n ch l cns c m ch' l' :
  member_nicks (put_chanMsg c m (put_members (ch, l) cns n)) ch' l' =
  if decide (ch' = ch /\ l' = l) then cn_Nick <$> cns else member_nicks n ch' l'.
Proof.
  unfold member_nicks. change (members (put_chanMsg c m ?x)) with (members x).
  rewrite members_put. by case_decide.
Qed.

(** The channels and the session of a user are what consistency depends on. *)
Lemma ok_put_user n nick uv uv' :
  net_ok n -> n_users n !! nick = Some uv -> uv_Nick uv' = uv_Nick uv -> uv_Lease uv' = uv_Lease uv ->
  uv_Channels uv' = uv_Channels uv -> net_ok (put_user nick uv' n).
Proof.
  intros Hn Hu E1 E2 E3. split; try apply Hn; simpl.
  - intros k v. destruct (decide (k = nick)) as [->|].
    + rewrite lookup_insert_eq. intros [= <-]. rewrite E1. by apply Hn.
    + rewrite lookup_insert_ne by done. apply Hn.
  - intros k v c. destruct (decide (k = nick)) as [->|].
    + rewrite lookup_insert_eq. intros [= <-]. rewrite E3, E2. by apply (ok_channels _ Hn).
    + rewrite lookup_insert_ne by done. apply (ok_channels _ Hn).
  - intros k c l Hin. destruct (ok_listed _ Hn k c l Hin) as (v&Hv&Hl).
    destruct (decide (k = nick)) as [->|].
    + exists uv'. rewrite lookup_insert_eq. split; [done|]. congruence.
    + exists v. by rewrite lookup_insert_ne.
  - intros k. destruct (decide (k = nick)) as [->|].
    + rewrite lookup_insert_eq, <-(ok_userMsg _ Hn), Hu. split; by eexists.
    + rewrite lookup_insert_ne by done. apply Hn.
Qed.

Lemma ok_put_chanMsg n ch m : net_ok n -> net_ok (put_chanMsg ch m n).
Proof.
  intros Hn. split; try apply Hn. simpl. intros c Hc.
  apply lookup_insert_is_Some'. right. by apply Hn.
Qed.

Lemma ok_put_userMsg n nick m : net_ok n -> is_Some (n_users n !! nick) -> net_ok (put_userMsg nick m n).
Proof.
  intros Hn Hu. split; try apply Hn. simpl. intros k.
  rewrite lookup_insert_is_Some', <-(ok_userMsg _ Hn). naive_solver.
Qed.

Lemma ok_put_chan n ch cc cc' :
  net_ok n -> n_chans n !! ch = Some cc -> cc_Name cc' = cc_Name cc -> net_ok (put_chan ch cc' n).
Proof.
  intros Hn Hc E. split; try apply Hn; simpl.
  - intros c l Hcl. apply lookup_insert_is_Some'. right. by apply (ok_chan _ Hn c l).
  - intros c v. destruct (decide (c = ch)) as [->|].
    + rewrite lookup_insert_eq. intros [= <-]. rewrite E. by apply Hn.
    + rewrite lookup_insert_ne by done. apply Hn.
  - intros c. rewrite !lookup_insert_is_Some'. intros [->|?]; [|by apply Hn].
    apply (ok_chanMsg _ Hn). by eexists.
Qed.

(** Taking a member off a channel, in its profile and in the list. *)
Lemma ok_leave n nick uv ch cns :
  net_ok n -> n_users n !! nick = Some uv -> n_members n !! (ch, uv_Lease uv) = Some cns ->
  net_ok (put_members (ch, uv_Lease uv) (drop_nick nick cns) (put_user nick (drop_channel ch uv) n)).
Proof.
  intros Hn Hu Hm.
  assert (Hcns : members n ch (uv_Lease uv) = cns) by (unfold members; by rewrite Hm).
  split; try apply Hn; simpl.
  - intros k v. destruct (decide (k = nick)) as [->|].
    + rewrite lookup_insert_eq. intros [= <-]. exact (ok_nick _ Hn nick uv Hu).
    + rewrite lookup_insert_ne by done. apply Hn.
  - intros k v c Hv. unfold member_nicks. rewrite members_put.
    change (members (put_user nick (drop_channel ch uv) n)) with (members n).
    destruct (decide (k = nick)) as [->|Hk].
    + rewrite lookup_insert_eq in Hv. injection Hv as <-.
      rewrite occurs_drop_channel, (ok_channels _ Hn nick uv) by done. simpl.
      destruct (decide (c = ch)) as [->|Hc].
      * rewrite decide_True, occurs_drop_nick, decide_True by done.
        unfold member_nicks. by rewrite Hcns.
      * rewrite decide_False by naive_solver. unfold member_nicks. lia.
    + rewrite lookup_insert_ne in Hv by done. rewrite (ok_channels _ Hn k v) by done.
      case_decide as Hd; [|done]. destruct Hd as [-> Hl].
      rewrite occurs_drop_nick, decide_False by done. unfold member_nicks. rewrite Hl, Hcns. lia.
  - intros k c l Hin.
    assert (k ∈ member_nicks n c l) as Hin'.
    { revert Hin. unfold member_nicks. rewrite members_put.
      change (members (put_user nick (drop_channel ch uv) n)) with (members n).
      case_decide as Hd; [|done]. destruct Hd as [-> ->]. rewrite Hcns, !occurs_elem_of, occurs_drop_nick.
      lia. }
    destruct (ok_listed _ Hn k c l Hin') as (v&Hv&Hl). destruct (decide (k = nick)) as [->|].
    + exists (drop_channel ch uv). rewrite lookup_insert_eq. simpl. split; [done|]. congruence.
    + exists v. by rewrite lookup_insert_ne.
  - intros k. destruct (decide (k = nick)) as [->|].
    + rewrite lookup_insert_eq, <-(ok_userMsg _ Hn), Hu. split; by eexists.
    + rewrite lookup_insert_ne by done. apply Hn.
  - intros c l. destruct (decide ((ch, uv_Lease uv) = (c, l))) as [[= <- <-]|].
    + rewrite lookup_insert_eq. intros _. apply (ok_chan _ Hn ch (uv_Lease uv)). by eexists.
    + rewrite lookup_insert_ne by done. apply Hn.
Qed.

(** *** Every step keeps the network consistent *)

Lemma ok_join me pfx lid now ch n t n' :
  net_ok n -> owns n me lid -> net_join me pfx lid now ch n = Some (t, n') -> net_ok n'.
Proof.
  intros Hn Ho H. unfold net_join in H. destruct (n_users n !! me) as [uv|] eqn:Hu; [|done]. simpl in H.
  pose proof (Ho uv Hu) as Hl. pose proof (ok_nick _ Hn me uv Hu) as Hnick.
  set (c := match n_chans n !! ch with Some chv => _ | None => _ end) in H.
  assert (Hc : cc_Name c.1 = ch).
  { subst c. destruct (n_chans n !! ch) eqn:E; [by apply Hn|done]. }
  destruct c as [chv mode]. cbn [fst snd] in *. injection H as <- <-. subst me lid.
  set (uv' := set_Channels _ uv). set (cns := members n ch (uv_Lease uv) ++ _).
  split; simpl.
  - intros k v. destruct (decide (k = uv_Nick uv)) as [->|].
    + rewrite lookup_insert_eq. by intros [= <-].
    + rewrite lookup_insert_ne by done. apply Hn.
  - intros k v c Hv. unfold member_nicks, members. simpl.
    assert (Hocc : occurs k (cn_Nick <$> cns) =
      occurs k (member_nicks n ch (uv_Lease uv)) + if decide (k = uv_Nick uv) then 1 else 0).
    { subst cns. rewrite fmap_app, occurs_app. unfold member_nicks. csimpl.
      by repeat case_decide. }
    destruct (decide (k = uv_Nick uv)) as [->|Hk].
    + rewrite lookup_insert_eq in Hv. injection Hv as <-. simpl. rewrite occurs_app. simpl.
      rewrite (ok_channels _ Hn _ uv c Hu). destruct (decide (c = ch)) as [->|Hne].
      * rewrite lookup_insert_eq. simpl. rewrite Hocc. lia.
      * rewrite lookup_insert_ne by congruence. unfold member_nicks, members. lia.
    + rewrite lookup_insert_ne in Hv by done. rewrite (ok_channels _ Hn k v c Hv).
      destruct (decide ((ch, uv_Lease uv) = (c, uv_Lease v))) as [[= <- El]|].
      * rewrite El, lookup_insert_eq. simpl. rewrite El in Hocc. rewrite Hocc. lia.
      * by rewrite lookup_insert_ne.
  - intros k c l. unfold member_nicks, members. simpl. intros Hin.
    assert (k = uv_Nick uv /\ l = uv_Lease uv \/ k ∈ member_nicks n c l) as [[-> ->]|Hin'].
    { destruct (decide ((ch, uv_Lease uv) = (c, l))) as [[= <- <-]|].
      - rewrite lookup_insert_eq in Hin. simpl in Hin. subst cns. rewrite fmap_app, elem_of_app in Hin.
        destruct Hin as [|Hin]; [by right|left]. csimpl in Hin. by apply list_elem_of_singleton in Hin.
      - rewrite lookup_insert_ne in Hin by done. by right. }
    + exists uv'. by rewrite lookup_insert_eq.
    + destruct (ok_listed _ Hn k c l Hin') as (v&Hv&Hlv). destruct (decide (k = uv_Nick uv)) as [->|].
      * exists uv'. rewrite lookup_insert_eq. split; [done|]. simpl. congruence.
      * exists v. by rewrite lookup_insert_ne.
  - intros k. rewrite <-(ok_userMsg _ Hn), lookup_insert_is_Some'.
    split; [intros [<-|]; [by eexists|done]|by right].
  - intros c l. rewrite !lookup_insert_is_Some'. intros [[= <- <-]|Hm]; [by left|right].
    by apply (ok_chan _ Hn c l).
  - intros c v. destruct (decide (c = ch)) as [->|].
    + rewrite lookup_insert_eq. by intros [= <-].
    + rewrite lookup_insert_ne by done. apply Hn.
  - intros c. rewrite !lookup_insert_is_Some'. intros [->|?]; [by left|right]. by apply Hn.
Qed.

Lemma quit_fold me pfx lid msg chs n :
  let n' := foldl (quit_one me pfx lid msg) n chs in
  n_users n' = n_users n /\ n_userMsg n' = n_userMsg n /\ n_chans n' = n_chans n /\
  (forall ch l, is_Some (n_members n' !! (ch, l)) <-> is_Some (n_members n !! (ch, l))) /\
  (forall ch, is_Some (n_chanMsg n !! ch) -> is_Some (n_chanMsg n' !! ch)) /\
  (forall k ch l, occurs k (member_nicks n' ch l) =
     occurs k (member_nicks n ch l) - (if decide (k = me /\ l = lid) then occurs ch chs else 0)).
Proof.
  revert n. induction chs as [|c chs IH]; intros n; simpl.
  - split_and!; try done. intros. case_decide; lia.
  - specialize (IH (quit_one me pfx lid msg n c)). simpl in IH.
    destruct IH as (E1&E2&E3&E4&E5&E6). rewrite E1, E2, E3.
    unfold quit_one in *. destruct (n_members n !! (c, lid)) as [cns|] eqn:E; simpl in *.
    + split_and!; try done.
      * intros ch l. rewrite E4, lookup_insert_is_Some'. split; [intros [[= <- <-]|]; [by eexists|done]|by right].
      * intros ch Hch. apply E5, lookup_insert_is_Some'. by right.
      * intros k ch l. rewrite E6, member_nicks_put.
        assert (member_nicks n c lid = cn_Nick <$> cns) as Hm by (unfold member_nicks, members; by rewrite E).
        destruct (decide (k = me /\ l = lid)) as [[-> ->]|Hk].
        -- destruct (decide (ch = c)) as [->|].
           ++ rewrite decide_True, occurs_drop_nick, decide_True, Hm by done. lia.
           ++ rewrite decide_False by naive_solver. lia.
        -- case_decide as Hd; [|done]. destruct Hd as [-> ->].
           rewrite occurs_drop_nick, decide_False, Hm by naive_solver. lia.
    + split_and!; try done. intros k ch l. rewrite E6. case_decide as Hd; [|done]. destruct Hd as [-> ->].
      destruct (decide (ch = c)) as [->|]; [|lia]. unfold member_nicks, members. rewrite E. simpl. lia.
Qed.

Lemma ok_quit me pfx lid msg n r n' :
  net_ok n -> owns n me lid -> net_quit me pfx lid msg n = Some (r, n') -> net_ok n'.
Proof.
  intros Hn Ho H. unfold net_quit in H. destruct (n_users n !! me) as [uv|] eqn:Hu; [|done]. simplify_eq/=.
  pose proof (Ho uv Hu) as Hl. pose proof (quit_fold me pfx lid msg (uv_Channels uv) n) as Hq. simpl in Hq.
  set (n1 := foldl _ n _) in *. destruct Hq as (E1&E2&E3&E4&E5&E6).
  assert (Hm : forall ch l, member_nicks (del_user me n1) ch l = member_nicks n1 ch l) by done.
  assert (Hin : forall k ch l, k ∈ member_nicks n1 ch l -> k ∈ member_nicks n ch l /\ k <> me).
  { intros k ch l Hk. rewrite occurs_elem_of, E6 in Hk. split; [rewrite occurs_elem_of; lia|].
    intros ->. destruct (decide (l = lid)) as [->|Hne].
    - rewrite decide_True in Hk by done. rewrite (ok_channels _ Hn me uv ch Hu), Hl in Hk. lia.
    - rewrite decide_False in Hk by naive_solver.
      destruct (ok_listed _ Hn me ch l) as (v&Hv&Hlv); [rewrite occurs_elem_of; lia|].
      rewrite Hu in Hv. simplify_eq. }
  split; simpl; rewrite ?E1, ?E2, ?E3; try apply Hn.
  - intros k v [_ Hv]%lookup_delete_Some. by apply Hn.
  - intros k v ch [Hne Hv]%lookup_delete_Some. rewrite Hm, E6.
    rewrite decide_False by naive_solver. rewrite (ok_channels _ Hn k v) by done. lia.
  - intros k ch l. rewrite Hm. intros [Hk Hne]%Hin. destruct (ok_listed _ Hn k ch l Hk) as (v&Hv&?).
    exists v. by rewrite lookup_delete_ne.
  - intros k. rewrite !lookup_delete_is_Some, (ok_userMsg _ Hn). done.
  - intros ch l. rewrite E4. apply Hn.
  - intros ch Hc. by apply E5, Hn.
Qed.

Lemma ok_part me pfx lid ch msg n r n' :
  net_ok n -> owns n me lid -> net_part me pfx lid ch msg n = Some (r, n') -> net_ok n'.
Proof.
  intros Hn Ho H. unfold net_part in H. destruct (n_users n !! me) as [uv|] eqn:Hu; [|done]. simpl in H.
  case_bool_decide as Hin; simplify_eq; [|done]. apply ok_put_chanMsg.
  rewrite <-(Ho uv Hu). unfold drop_member. simpl.
  destruct (n_members n !! (ch, uv_Lease uv)) as [cns|] eqn:E; [by apply ok_leave|].
  apply occurs_elem_of in Hin. rewrite (ok_channels _ Hn me uv ch Hu) in Hin.
  unfold member_nicks, members in Hin. rewrite E in Hin. simpl in Hin. lia.
Qed.

Lemma ok_kick me pfx lid ch nick msg n r n' :
  net_ok n -> net_kick me pfx lid ch nick msg n = Some (r, n') -> net_ok n'.
Proof.
  intros Hn H. unfold net_kick in H.
  destruct (n_members n !! (ch, lid) ≫= find_nick me) as [cn|]; [|by simplify_eq].
  destruct (negb (is_op cn)); [by simplify_eq|].
  destruct (n_users n !! nick) as [uv|] eqn:Hu; [|by simplify_eq].
  destruct (negb _); [by simplify_eq|].
  destruct (n_members n !! (ch, uv_Lease uv)) as [cns|] eqn:E; simplify_eq/=.
  apply ok_put_chanMsg. by apply ok_leave.
Qed.

Lemma ok_register uv n n' :
  net_ok n -> uv_Channels uv = [] -> net_register uv n = Some n' -> net_ok n'.
Proof.
  intros Hn Hc H. unfold net_register in H. destruct (n_users n !! uv_Nick uv) eqn:Hu; simplify_eq.
  assert (Hno : forall ch l, uv_Nick uv ∉ member_nicks n ch l).
  { intros ch l Hin. destruct (ok_listed _ Hn _ _ _ Hin) as (v&Hv&_). congruence. }
  split; simpl; try apply Hn.
  - intros k v. destruct (decide (k = uv_Nick uv)) as [->|].
    + rewrite lookup_insert_eq. by intros [= <-].
    + rewrite lookup_insert_ne by done. apply Hn.
  - intros k v ch. change (member_nicks _ ch (uv_Lease v)) with (member_nicks n ch (uv_Lease v)).
    destruct (decide (k = uv_Nick uv)) as [->|].
    + rewrite lookup_insert_eq. intros [= <-]. rewrite Hc. simpl. symmetry.
      by apply occurs_not_elem_of.
    + rewrite lookup_insert_ne by done. apply Hn.
  - intros k ch l Hin. change (member_nicks _ ch l) with (member_nicks n ch l) in Hin.
    destruct (ok_listed _ Hn k ch l Hin) as (v&?&?).
    exists v. rewrite lookup_insert_ne; [done|]. intros <-. by apply (Hno ch l).
  - intros k. rewrite !lookup_insert_is_Some', (ok_userMsg _ Hn). done.
Qed.

Lemma members_expire l n ch l' :
  members (net_expire l n) ch l' = if decide (l' = l) then [] else members n ch l'.
Proof.
  unfold members. simpl. rewrite map_lookup_filter. destruct (n_members n !! (ch, l')); simpl.
  - case_guard; case_decide; naive_solver.
  - by case_decide.
Qed.

Lemma ok_expire l n : net_ok n -> net_ok (net_expire l n).
Proof.
  intros Hn. split.
  - intros k v. simpl. rewrite map_lookup_filter_Some. intros [? _]. by apply Hn.
  - intros k v ch. simpl. rewrite map_lookup_filter_Some. intros [Hv Hl]. simpl in Hl.
    unfold member_nicks. rewrite members_expire, decide_False by done. by apply Hn.
  - intros k ch l'. unfold member_nicks. rewrite members_expire. case_decide as Hd; [by intros ?%not_elem_of_nil|].
    intros Hin. destruct (ok_listed _ Hn k ch l' Hin) as (v&Hv&Hl). exists v. split; [|done].
    simpl. apply map_lookup_filter_Some. split; [done|]. simpl. congruence.
  - intros k. simpl. unfold is_Some. setoid_rewrite map_lookup_filter_Some. simpl.
    pose proof (ok_userMsg _ Hn k) as Hk. split.
    + intros (v&Hv&Hl). destruct (proj1 Hk) as [m Hm]; [by eexists|]. exists m. split; [done|].
      rewrite Hv. by apply bool_decide_eq_false.
    + intros (m&Hm&Hg). destruct (proj2 Hk) as [v Hv]; [by eexists|]. exists v. split; [done|].
      rewrite Hv in Hg. by apply bool_decide_eq_false in Hg.
  - intros ch l' [x Hx]. simpl in Hx. apply map_lookup_filter_Some in Hx as [Hx _].
    apply (ok_chan _ Hn ch l'). by eexists.
  - intros ch cc. apply Hn.
  - intros ch. apply Hn.
Qed.

Lemma ok_reap ch l n : net_ok n -> net_ok (net_reap ch l n).
Proof.
  intros Hn. unfold net_reap. destruct (n_members n !! (ch, l)) as [[|]|] eqn:E; try done.
  assert (Hm : forall c l', members (set_memberss (delete (ch, l) (n_members n)) n) c l' = members n c l').
  { intros c l'. unfold members. simpl. destruct (decide ((ch, l) = (c, l'))) as [[= <- <-]|].
    - by rewrite lookup_delete_eq, E.
    - by rewrite lookup_delete_ne. }
  split; try apply Hn.
  - intros k v c. unfold member_nicks. rewrite Hm. apply (ok_channels _ Hn).
  - intros k c l'. unfold member_nicks. rewrite Hm. apply (ok_listed _ Hn).
  - intros c l'. simpl. rewrite lookup_delete_is_Some. intros [_ ?]. by apply (ok_chan _ Hn c l').
Qed.

(** Storing a changed profile, channel or message. *)
Ltac net_store :=
  repeat case_match; simplify_eq/=; try done;
  repeat first
    [ apply ok_put_chanMsg
    | eapply ok_put_user; [done..|done|done|done|done]
    | apply ok_put_userMsg; [|by eexists]
    | eapply ok_put_chan; [done..|done|done] ];
  try done.

Lemma net_step_preserves n n' : net_ok n -> net_step n n' -> net_ok n'.
Proof.
  intros Hn Hs. destruct Hs as [me pfx lid now ch n t n' Ho H|me pfx lid ch msg n r n' Ho H
    |me pfx lid msg n r n' Ho H|me lid upd query ch n r n' H|me upd n r n' H|me msg n r n' H
    |me login pass n r n' H|me pfx lid ch nick msg n r n' H|me pfx lid ch msg n r n' H
    |me pfx target msg n r n' H|me pfx ch msg n r n' H|uv n n' Hc H|login ov n|login n|nick m n Hm Hu|ch m n Hm|l n n' Hl|ch l n].
  - by eapply ok_join.
  - by eapply ok_part.
  - by eapply ok_quit.
  - unfold net_chanMode in H. destruct (n_chans n !! ch) eqn:?; [|by simplify_eq].
    destruct (n_members n !! (ch, lid)); simplify_eq/=. net_store.
  - unfold net_userMode in H. destruct (n_users n !! me) eqn:?; simplify_eq/=. net_store.
  - unfold net_away in H. destruct (n_users n !! me) eqn:?; simplify_eq/=. net_store.
  - unfold net_oper in H. destruct (n_users n !! me) eqn:?; simplify_eq/=. net_store.
  - by eapply ok_kick.
  - unfold net_topic in H. destruct (n_chans n !! ch) eqn:?; [|by simplify_eq].
    destruct msg; [|by simplify_eq].
    destruct (n_members n !! (ch, lid)); simplify_eq/=; net_store.
  - unfold net_privMsgUser in H. destruct (n_users n !! target) eqn:?; [|by simplify_eq].
    destruct (n_users n !! me) eqn:?; simplify_eq/=. net_store.
  - unfold net_privMsgChan in H. destruct (n_chans n !! ch) eqn:?; [|by simplify_eq].
    destruct (n_users n !! me); simplify_eq/=.
    destruct (n_members n !! _); simplify_eq/=; net_store.
  - by eapply ok_register.
  - split; apply Hn.
  - split; apply Hn.
  - apply ok_put_userMsg; [done|by apply Hn].
  - by apply ok_put_chanMsg.
  - simpl in Hl. subst n'. by apply ok_expire.
  - by apply ok_reap.
Qed.

(** *** Soundness, whatever the sessions *)

Lemma sound_put_user n nick uv : net_sound n -> uv_Nick uv = nick -> net_sound (put_user nick uv n).
Proof.
  intros Hn E. split; try apply Hn. simpl. intros k v. destruct (decide (k = nick)) as [->|].
  - rewrite lookup_insert_eq. by intros [= <-].
  - rewrite lookup_insert_ne by done. apply Hn.
Qed.

Lemma sound_put_chanMsg n ch m : net_sound n -> net_sound (put_chanMsg ch m n).
Proof. intros Hn. split; try apply Hn. simpl. intros c Hc. apply lookup_insert_is_Some'. right. by apply Hn. Qed.

Lemma sound_put_userMsg n nick m : net_sound n -> net_sound (put_userMsg nick m n).
Proof. intros Hn. split; apply Hn. Qed.

Lemma sound_put_chan n ch cc cc' :
  net_sound n -> n_chans n !! ch = Some cc -> cc_Name cc' = cc_Name cc -> net_sound (put_chan ch cc' n).
Proof.
  intros Hn Hc E. split; try apply Hn; simpl.
  - intros c l Hcl. apply lookup_insert_is_Some'. right. by apply (so_chan _ Hn c l).
  - intros c v. destruct (decide (c = ch)) as [->|].
    + rewrite lookup_insert_eq. intros [= <-]. rewrite E. by apply Hn.
    + rewrite lookup_insert_ne by done. apply Hn.
  - intros c. rewrite !lookup_insert_is_Some'. intros [->|?]; [|by apply Hn]. apply Hn. by eexists.
Qed.

Lemma sound_put_members n ch l cns cns' :
  net_sound n -> n_members n !! (ch, l) = Some cns -> net_sound (put_members (ch, l) cns' n).
Proof.
  intros Hn Hm. split; try apply Hn. simpl. intros c z. rewrite lookup_insert_is_Some'.
  intros [[= <- <-]|?]; [apply (so_chan _ Hn ch l); by eexists|by apply (so_chan _ Hn c z)].
Qed.

(** A found channel gets its message with it. *)
Lemma sound_join n ch cc m l cns :
  net_sound n -> cc_Name cc = ch -> net_sound (put_chanMsg ch m (put_members (ch, l) cns (put_chan ch cc n))).
Proof.
  intros Hn Hc. split; try apply Hn; simpl.
  - intros c z. rewrite !lookup_insert_is_Some'. intros [[= <- <-]|?]; [by left|right; by apply (so_chan _ Hn c z)].
  - intros c v. destruct (decide (c = ch)) as [->|]; [rewrite lookup_insert_eq; by intros [= <-]|].
    rewrite lookup_insert_ne by done. apply Hn.
  - intros c. rewrite !lookup_insert_is_Some'. intros [->|?]; [by left|right; by apply Hn].
Qed.

Lemma sound_quit me pfx lid msg chs n : net_sound n -> net_sound (foldl (quit_one me pfx lid msg) n chs).
Proof.
  apply (foldl_inv net_sound). intros a c _ Ha. unfold quit_one. destruct (n_members a !! (c, lid)) eqn:E; [|done].
  by apply sound_put_chanMsg, (sound_put_members _ _ _ _ _ Ha E).
Qed.

(** Fewer users, boxes and lists. *)
Lemma sound_less n n' :
  net_sound n -> n_users n' ⊆ n_users n -> n_members n' ⊆ n_members n -> n_chans n' = n_chans n ->
  n_chanMsg n' = n_chanMsg n -> net_sound n'.
Proof.
  intros Hn Hu Hm Hc Hcm. split; rewrite ?Hc, ?Hcm; try apply Hn.
  - intros k v Hk. eapply so_nick, lookup_weaken; [exact Hn|exact Hk|done].
  - intros c l [x Hx]. apply (so_chan _ Hn c l). exists x. by eapply lookup_weaken.
Qed.

Lemma expire_loses l n : loses l n (net_expire l n).
Proof. split; try done; apply map_filter_subseteq. Qed.

Ltac net_sound :=
  repeat case_match; simplify_eq/=; try done;
  repeat first
    [ apply sound_put_chanMsg
    | apply sound_put_userMsg
    | eapply sound_put_members; [|eassumption]
    | apply sound_put_user; [|unfold drop_channel; simpl; first [by eapply so_nick|done]]
    | eapply sound_put_chan; [|eassumption|done] ];
  try done.

Lemma net_move_sound d n n' : net_sound n -> net_move d n n' -> net_sound n'.
Proof.
  intros Hn Hs. destruct Hs as [me pfx lid now ch n t n' Ho H|me pfx lid ch msg n r n' Ho H
    |me pfx lid msg n r n' Ho H|me lid upd query ch n r n' H|me upd n r n' H|me msg n r n' H
    |me login pass n r n' H|me pfx lid ch nick msg n r n' H|me pfx lid ch msg n r n' H
    |me pfx target msg n r n' H|me pfx ch msg n r n' H|uv n n' Hc H|login ov n|login n|nick m n Hm Hu|ch m n Hm|l n n' Hl|ch l n].
  - unfold net_join in H. destruct (n_users n !! me) eqn:Hu; [|done]. simpl in H.
    pose proof (so_nick _ Hn _ _ Hu). destruct (n_chans n !! ch) eqn:Hc; simplify_eq; apply sound_join;
      first [by apply sound_put_user|by eapply so_name|done].
  - unfold net_part, drop_member in H. destruct (n_users n !! me) eqn:?; simplify_eq/=. net_sound.
  - unfold net_quit in H. destruct (n_users n !! me) as [uv|]; simplify_eq/=.
    pose proof (sound_quit me pfx lid msg (uv_Channels uv) n Hn) as Hq.
    split; try apply Hq. simpl. intros k v [_ Hk]%lookup_delete_Some. by apply Hq.
  - unfold net_chanMode in H. destruct (n_chans n !! ch) eqn:?; [|by simplify_eq].
    destruct (n_members n !! (ch, lid)); simplify_eq/=. net_sound.
  - unfold net_userMode in H. destruct (n_users n !! me) eqn:?; simplify_eq/=. net_sound.
  - unfold net_away in H. destruct (n_users n !! me) eqn:?; simplify_eq/=. net_sound.
  - unfold net_oper in H. destruct (n_users n !! me) eqn:?; simplify_eq/=. net_sound.
  - unfold net_kick in H. destruct (_ ≫= find_nick me) as [cn|]; [|by simplify_eq/=].
    destruct (is_op cn); [|by simplify_eq/=]. destruct (n_users n !! nick) as [uv|] eqn:?; [|by simplify_eq/=].
    destruct (n_members n !! (ch, uv_Lease uv)) eqn:?; net_sound.
  - unfold net_topic in H. destruct (n_chans n !! ch) eqn:?; [|by simplify_eq].
    destruct msg; [|by simplify_eq]. destruct (n_members n !! (ch, lid)); simplify_eq/=; net_sound.
  - unfold net_privMsgUser in H. destruct (n_users n !! target) eqn:?; [|by simplify_eq].
    destruct (n_users n !! me) eqn:?; simplify_eq/=. net_sound.
  - unfold net_privMsgChan in H. destruct (n_chans n !! ch) eqn:?; [|by simplify_eq].
    destruct (n_users n !! me) as [uv|]; simplify_eq/=.
    destruct (n_members n !! (ch, uv_Lease uv)); simplify_eq/=; net_sound.
  - unfold net_register in H. net_sound.
  - split; apply Hn.
  - split; apply Hn.
  - by apply sound_put_userMsg.
  - by apply sound_put_chanMsg.
  - assert (loses l n n') as [Hu _ Hm Hc Hcm _] by (destruct d; simpl in Hl; [subst n'; apply expire_loses|done]).
    eapply sound_less; try done. rewrite Hm. apply map_filter_subseteq.
  - unfold net_reap. destruct (n_members n !! (ch, l)) as [[|]|]; try done.
    eapply (sound_less n); try done. apply delete_subseteq.
Qed.

(** *** Sessions

    No command gives a user another session, or makes a user. *)
Definition lease_kept (n n' : Net) : Prop :=
  forall nick uv', n_users n' !! nick = Some uv' ->
  exists uv, n_users n !! nick = Some uv /\ uv_Lease uv = uv_Lease uv'.

Lemma lease_kept_same n n' : n_users n' = n_users n -> lease_kept n n'.
Proof. intros E nick uv Hu. exists uv. by rewrite <-E. Qed.

Lemma lease_kept_put n n' nick uv uv' :
  n_users n !! nick = Some uv -> uv_Lease uv = uv_Lease uv' ->
  n_users n' = <[nick := uv']> (n_users n) -> lease_kept n n'.
Proof.
  intros Hu Hl E k v. rewrite E. destruct (decide (k = nick)) as [->|].
  - rewrite lookup_insert_eq. intros [= <-]. by exists uv.
  - rewrite lookup_insert_ne by done. eauto.
Qed.

Lemma quit_users me pfx lid msg chs n :
  n_users (foldl (quit_one me pfx lid msg) n chs) = n_users n.
Proof.
  apply (foldl_inv (fun n' => n_users n' = n_users n)); [|done].
  intros a ch _ <-. unfold quit_one. by destruct (n_members a !! (ch, lid)).
Qed.

Ltac kept :=
  simplify_eq/=; repeat (case_match; simplify_eq/=);
  first [by apply lease_kept_same | eapply lease_kept_put; [eassumption| |reflexivity]; reflexivity | done].

Section kept.
Context (me : string) (pfx : Prefix) (lid : Z) (n n' : Net).

Lemma join_kept now ch t : net_join me pfx lid now ch n = Some (t, n') -> lease_kept n n'.
Proof. unfold net_join. intros Hj. destruct (n_users n !! me) eqn:?; kept. Qed.

Lemma part_kept ch msg r : net_part me pfx lid ch msg n = Some (r, n') -> lease_kept n n'.
Proof. unfold net_part, drop_member. intros Hj. destruct (n_users n !! me) eqn:?; kept. Qed.

Lemma quit_kept msg r : net_quit me pfx lid msg n = Some (r, n') -> lease_kept n n'.
Proof.
  unfold net_quit. intros Hj. destruct (n_users n !! me) as [uv|] eqn:?; simplify_eq/=.
  intros k v. simpl. rewrite quit_users. rewrite lookup_delete_Some. intros [_ ?]. eauto.
Qed.

Lemma chanMode_kept upd query ch r : net_chanMode me lid upd query ch n = Some (r, n') -> lease_kept n n'.
Proof.
  unfold net_chanMode. intros Hj. destruct (n_chans n !! ch); [|kept].
  destruct (n_members n !! (ch, lid)); kept.
Qed.

Lemma userMode_kept upd r : net_userMode me upd n = Some (r, n') -> lease_kept n n'.
Proof. unfold net_userMode. intros Hj. destruct (n_users n !! me) eqn:?; kept. Qed.

Lemma away_kept msg r : net_away me msg n = Some (r, n') -> lease_kept n n'.
Proof. unfold net_away. intros Hj. destruct (n_users n !! me) eqn:?; kept. Qed.

Lemma oper_kept login pass r : net_oper me login pass n = Some (r, n') -> lease_kept n n'.
Proof. unfold net_oper. intros Hj. destruct (n_users n !! me) eqn:?; kept. Qed.

Lemma kick_kept ch nick msg r : net_kick me pfx lid ch nick msg n = Some (r, n') -> lease_kept n n'.
Proof.
  unfold net_kick. intros Hj. destruct (_ ≫= find_nick me) as [cn|]; [|kept].
  destruct (is_op cn); [|kept]. destruct (n_users n !! nick) as [uv|] eqn:?; [|kept].
  destruct (n_members n !! (ch, uv_Lease uv)); kept.
Qed.

Lemma topic_kept ch msg r : net_topic me pfx lid ch msg n = Some (r, n') -> lease_kept n n'.
Proof.
  unfold net_topic. intros Hj. destruct (n_chans n !! ch); [|kept]. destruct msg; [|kept].
  destruct (n_members n !! (ch, lid)); kept.
Qed.

Lemma privMsgUser_kept target msg r :
  net_privMsgUser me pfx target msg n = Some (r, n') -> lease_kept n n'.
Proof.
  unfold net_privMsgUser. intros Hj. destruct (n_users n !! target); [|kept].
  destruct (n_users n !! me); kept.
Qed.

Lemma privMsgChan_kept ch msg r : net_privMsgChan me pfx ch msg n = Some (r, n') -> lease_kept n n'.
Proof.
  unfold net_privMsgChan. intros Hj. destruct (n_chans n !! ch) as [cc|]; [|kept].
  destruct (n_users n !! me) as [uv|]; [|done]. simpl in Hj.
  destruct (has (cc_Mode cc) "m") eqn:Hm; [|kept]. destruct (n_members n !! (ch, uv_Lease uv)); kept.
Qed.

Lemma kept_owns : lease_kept n n' -> owns n me lid -> owns n' me lid.
Proof. intros Hk Ho uv' Hu. destruct (Hk me uv' Hu) as (uv&Hu0&<-). by apply Ho. Qed.

End kept.
