(* ===== verification/Client.v ===== *)
(** * The etcd client (etcd_client.go, session.go)

    One [etcdClient] per connected user.  A command is a computation on the
    [World]: the etcd cluster, the messages sent on the connection, and the
    watches of the joined channels.  The body of every STM transaction is a
    definition of its own, named after its command ([Join_txn], [Part_txn],
    ...); the variables it assigns in the enclosing function are its argument
    and its result. *)

From S2P Require Import Prelude GoLib Mode Msg User Channel Key Etcd Stm.

(** ** State *)

(** [etcdSession]: the session, whether [readyc] is closed, and the error of
    its context. *)
Record etcdSession := {
  es_s : option Z;
  es_ready : bool;
  es_ctx : option error;
}.

(** [Session()] waits until a session is ready or the context is done. *)
Definition Session (es : etcdSession) : outcome Z :=
  if es_ready es then
    match es_ctx es with Some e => Err e | None => or_panic (es_s es) end
  else match es_ctx es with Some e => Err e | None => Diverge end.

Record Config := {
  NetworkName : string;
  HostName : string;
  Motd : string;
  PinnedUserModes : string;
}.

Definition NewConfig : Config :=
  {| NetworkName := "friendNET"; HostName := "hostname"; Motd := ""; PinnedUserModes := "" |}.

(** The fields of [etcdClient] that do not change after it is made. *)
Record etcdClient := {
  ec_nick : string;
  ec_prefix : Prefix;
}.

(** A watch: its context, its key, whether it is for a prefix, its revision. *)
Record Watch := {
  wt_ctx : nat;
  wt_key : string;
  wt_prefix : bool;
  wt_rev : Z;
}.

Record World := {
  w_cluster : Cluster;
  w_out : list Message;
  w_chCancel : gmap string nat;
  w_watches : list Watch;
  w_nextctx : nat;
}.

Definition set_cluster (c : Cluster) (w : World) : World := {|
  w_cluster := c; w_out := w_out w; w_chCancel := w_chCancel w;
  w_watches := w_watches w; w_nextctx := w_nextctx w |}.

Definition add_out (m : Message) (w : World) : World := {|
  w_cluster := w_cluster w; w_out := w_out w ++ [m]; w_chCancel := w_chCancel w;
  w_watches := w_watches w; w_nextctx := w_nextctx w |}.

(** What a command does not change: the other users of etcd, the number of
    attempts of a transaction, the session, after how many requests [ec.ctx] is done,
    if it ever is, and its error then, that of the context of the etcd client if it is done,
    the clock, the configuration, the formatted time the server was made, what
    [append] leaves unused, and in which order goroutines started after so many
    requests take their steps. *)
Record Runtime := {
  rt_env : Env;
  rt_attempts : nat;
  rt_ses : etcdSession;
  rt_ctx : option (nat * error);
  rt_cliCtx : option error;
  rt_now : Z;
  rt_cfg : Config;
  rt_created : string;
  rt_spare : nat -> nat;
  rt_sched : nat -> list nat;
}.

(** The error of [ec.ctx] after so many requests; a context that is done stays so. *)
Definition ctx_at (rt : Runtime) (clock : nat) : option error :=
  match rt_ctx rt with
  | Some (k, e) => if (k <=? clock)%nat then Some e else None
  | None => None
  end.

Definition hostPfx (cfg : Config) : Prefix :=
  {| p_Name := HostName cfg; p_User := ""; p_Host := "" |}.

Notation M := (ST World).

(** The error of a call the code ignores. *)
Definition ignore_err {A} (m : M A) : M unit := fun w =>
  match m w with
  | (Ok _, w') | (Err _, w') => (Ok (), w')
  | (Panic, w') => (Panic, w')
  | (Exit, w') => (Exit, w')
  | (Diverge, w') => (Diverge, w')
  end.

Definition in_cluster {A} (m : ST Cluster A) : M A := fun w =>
  let '(o, c) := m (w_cluster w) in (o, set_cluster c w).

Fixpoint mapM_ {A} (f : A -> M unit) (l : list A) : M unit :=
  match l with
  | [] => mret ()
  | a :: l' => _ ← f a; mapM_ f l'
  end.

(** [string(b)] for a byte: the UTF-8 of that code point. *)
Definition string_of_byte (b : ascii) : string :=
  let n := N_of_ascii b in
  if (n <? 128)%N then String b ""
  else String (ascii_of_N (192 + n / 64)) (String (ascii_of_N (128 + n mod 64)) "").

Section client.
Context `{Gob Message, Gob UserValue, Gob ChannelCtl, Gob ChannelNicks, Gob OperValue}.
Context (rt : Runtime) (ec : etcdClient).

(** ** Sending and requests *)

(** [SendMsg(ctx, msg)], for a context that is done with an error or not. *)
Definition SendMsg_ctx (ctx : option error) (m : Message) : M unit := fun w =>
  match ctx with
  | Some e => (Err e, w)
  | None => (Ok (), add_out m w)
  end.

(** [SendMsg(ec.ctx, msg)]. *)
Definition SendMsg (m : Message) : M unit := fun w =>
  SendMsg_ctx (ctx_at rt (cl_clock (w_cluster w))) m w.

(** [SendMsgSync(msg)] writes without asking the context. *)
Definition SendMsgSync (m : Message) : M unit := fun w => (Ok (), add_out m w).

Definition hostMsg (cmd : string) (params : list string) : Message :=
  {| m_Prefix := Some (hostPfx (rt_cfg rt)); m_Command := cmd; m_Params := params |}.

Definition sendHostMsg (cmd : string) (params : list string) : M unit :=
  SendMsg (hostMsg cmd (ec_nick ec :: params)).

Definition noSuchNick (n : string) : M unit :=
  sendHostMsg irc.ERR_NOSUCHNICK [n; "No such nick/channel"].

(** [ec.ctx.Err()]. *)
Definition ctxErr : M unit := fun w =>
  (match ctx_at rt (cl_clock (w_cluster w)) with Some e => Err e | None => Ok () end, w).

Definition session : M Z := lift (Session (rt_ses rt)).

Definition doSTM {V} (f : V -> stm V) (v : V) (keys : list string) : M (V * Z) :=
  '(v', resp) ← in_cluster (NewSTM (rt_env rt) (rt_attempts rt) f v keys);
  mret (v', tr_Revision resp).

Definition cliGet (key : string) (rend : option string) (rev : Z) : M GetResponse :=
  in_cluster (request (rt_env rt) (fun st => r ← Get st key rend rev; Ok (r, st))).

(** [Get(key, WithPrefix(), WithRev(rev))] for a key that is not empty. *)
Definition cliGetPrefix (key : string) (rev : Z) : M GetResponse :=
  cliGet key (Some (GetPrefixRangeEnd key)) rev.

Definition cliTxn (cmps : list Cmp) (succ : list Op) : M TxnResponse :=
  in_cluster (request (rt_env rt) (fun st => Txn st cmps succ [])).

Definition userMsg (cmd : string) (params : list string) : Message :=
  {| m_Prefix := Some (ec_prefix ec); m_Command := cmd; m_Params := params |}.

(** The read of a key whose value a closure decodes; a failing decoder makes
    the closure return its error. *)
Definition decode {A} (d : string -> option A) (s : string) : stm A := SRet (or_err ErrDecode (d s)).

Definition Get_ (key : string) : stm string := SGet key mret.
Definition Rev_ (key : string) : stm Z := SRev key mret.
Definition Put_ (key val : string) (l : PutLease) : stm unit := SPut key val l (mret ()).
Definition Del_ (key : string) : stm unit := SDel key (mret ()).

(** ** Queries about users *)

Definition kvs_of (r : ResponseOp) : list KeyValue :=
  match r with RespGet g => gr_Kvs g | _ => [] end.

Definition userKeysFromNicks (nicks : list string) (rev : Z) : M (list (option KeyValue)) :=
  resp ← cliTxn [] ((fun n => OpGet (keyUserCtl n) None rev) <$> nicks);
  mret ((fun r => head (kvs_of r)) <$> tr_Responses resp).

(** A nick without a key leaves a nil pointer, whose dereference panics. *)
Definition userOfKv (kv : option KeyValue) : outcome UserValue :=
  kv ← or_panic kv; or_err ErrDecode (decodeUserValue (kv_Value kv)).

Definition usersFromNicks (nicks : list string) (rev : Z) : M (list UserValue) :=
  kvs ← userKeysFromNicks (nicks ++ [ec_nick ec]) rev;
  users ← lift (traverse userOfKv kvs);
  me ← lift (or_panic (list.last users));
  mret (pruneInvisible (removelast users) me).

Definition usersFromChannel (ch : string) (rev : Z) : M (list UserValue) :=
  resp ← cliGetPrefix (keyChanNicksPfx ch) rev;
  cns ← lift (traverse (fun kv => or_err ErrDecode (decodeChannelNicks (kv_Value kv))) (gr_Kvs resp));
  usersFromNicks (concat (nicks <$> cns)) (gr_Revision resp).

Definition users (rev : Z) : M (list UserValue) :=
  resp ← cliTxn [] [OpGetPrefix (keyUserCtl "") rev; OpGet (keyUserCtl (ec_nick ec)) None rev];
  r1 ← lift (or_panic (tr_Responses resp !! 1));
  meKv ← lift (or_panic (head (kvs_of r1)));
  me ← lift (or_err ErrDecode (decodeUserValue (kv_Value meKv)));
  r0 ← lift (or_panic (tr_Responses resp !! 0));
  us ← lift (traverse (fun kv => or_err ErrDecode (decodeUserValue (kv_Value kv))) (kvs_of r0));
  mret (pruneInvisible us me).

Definition usersFromMask (mask : string) (rev : Z) : M (list UserValue) :=
  if isChan mask then usersFromChannel mask rev
  else if bool_decide (mask = "*") then users rev
  else usersFromNicks [mask] rev.

Definition nameMode (m : ModeValue) : string :=
  if has m "o" then "@" else if has m "v" then "+" else "".

Definition nameModes_of (cns : list ChannelNicks) : gmap string string :=
  foldl (fun mm cn => <[cn_Nick cn := nameMode (cn_Mode cn)]> mm) ∅ (concat (cns_Nicks <$> cns)).

(** The revision is an argument of the code, which does not use it. *)
Definition nameModes (ch : string) (rev : Z) : M (gmap string string) :=
  resp ← cliGetPrefix (keyChanNicksPfx ch) 0;
  cns ← lift (traverse (fun kv => or_err ErrDecode (decodeChannelNicks (kv_Value kv))) (gr_Kvs resp));
  mret (nameModes_of cns).

Definition names (ch : string) (rev : Z) : M unit :=
  us ← usersFromMask ch rev;
  modeMap ← nameModes ch rev;
  let nicks := (fun u => default "" (modeMap !! uv_Nick u) +:+ uv_Nick u) <$> us in
  _ ← ignore_err (sendHostMsg irc.RPL_NAMREPLY ["="; ch; Join " " nicks]);
  sendHostMsg irc.RPL_ENDOFNAMES [ch; "End of NAMES list"].

Definition Names (ch : string) : M unit := names ch 0.

(** ** JOIN *)

Definition Join_txn (lid : Z) (ch : string) : string -> stm string := fun _ =>
  let userCtl := keyUserCtl (ec_nick ec) in
  let chCtl := keyChanCtl ch in
  let chNicks := keyChanNicks ch lid in
  uvs ← Get_ userCtl;
  uv ← decode decodeUserValue uvs;
  _ ← Put_ userCtl (encodeUserValue (set_Channels (uv_Channels uv ++ [ch]) uv)) (WithLease lid);
  chctlv ← Get_ chCtl;
  chv ← (if bool_decide (chctlv = "")
         then mret {| cc_Name := ch; cc_Topic := ""; cc_Mode := []; cc_Created := rt_now rt |}
         else decode decodeChannelCtl chctlv);
  let topic := cc_Topic chv in
  _ ← Put_ chCtl (encodeChannelCtl chv) NoLease;
  us ← Get_ chNicks;
  cns ← (if bool_decide (us = "") then mret {| cns_Nicks := [] |} else decode decodeChannelNicks us);
  r ← Rev_ chCtl;
  let mode := if (r =? 0)%Z then add (add [] "O") "o" else [] in
  let cn := {| cn_Nick := uv_Nick uv; cn_Mode := mode |} in
  _ ← Put_ chNicks (encodeChannelNicks {| cns_Nicks := cns_Nicks cns ++ [cn] |}) (WithLease lid);
  _ ← Put_ (keyChanMsg ch) (encodeMessage (userMsg irc.JOIN [ch])) NoLease;
  mret topic.

(** The watches of a joined channel; an earlier cancel function of the channel
    is overwritten, not called. *)
Definition monitorChannel (ch : string) (rev : Z) : M unit := fun w =>
  (Ok (), {| w_cluster := w_cluster w; w_out := w_out w;
     w_chCancel := <[ch := w_nextctx w]> (w_chCancel w);
     w_watches := w_watches w ++
       [{| wt_ctx := w_nextctx w; wt_key := keyChanMsg ch; wt_prefix := false; wt_rev := rev |};
        {| wt_ctx := w_nextctx w; wt_key := keyChanNicksPfx ch; wt_prefix := true; wt_rev := rev |}];
     w_nextctx := S (w_nextctx w) |}).

Definition ClientJoin (ch : string) : M unit :=
  lid ← session;
  let msg := userMsg irc.JOIN [ch] in
  '(topic, rev) ← doSTM (Join_txn lid ch) ""
     [keyUserCtl (ec_nick ec); keyChanCtl ch; keyChanNicks ch lid];
  _ ← ignore_err (SendMsg msg);
  _ ← ignore_err (if bool_decide (topic = "")
                  then sendHostMsg irc.RPL_NOTOPIC [ch; "No topic is set"]
                  else sendHostMsg irc.RPL_TOPIC [ch; topic]);
  _ ← names ch rev;
  _ ← monitorChannel ch (rev + 1);
  ctxErr.

(** ** PART and QUIT *)

Definition Part_txn (lid : Z) (ch msg : string) : bool -> stm bool := fun _ =>
  let userCtl := keyUserCtl (ec_nick ec) in
  let chNicks := keyChanNicks ch lid in
  uvs ← Get_ userCtl;
  uv ← decode decodeUserValue uvs;
  let '(uv, onChannel) := part uv ch in
  if negb onChannel then mret onChannel else
  _ ← Put_ userCtl (encodeUserValue uv) WithIgnoreLease;
  us ← Get_ chNicks;
  _ ← (if bool_decide (us = "") then mret () else
       cn ← decode decodeChannelNicks us;
       Put_ chNicks (encodeChannelNicks (cns_del cn (ec_nick ec)).1) WithIgnoreLease);
  _ ← Put_ (keyChanMsg ch) (encodeMessage (userMsg irc.PART [ch; msg])) NoLease;
  mret onChannel.

Definition notOnChannel (ch : string) : M unit :=
  sendHostMsg irc.ERR_NOTONCHANNEL [ch; "You're not on that channel"].

Definition chanOpNeeded (ch : string) : M unit :=
  sendHostMsg irc.ERR_CHANOPRIVSNEEDED [ch; "You're not channel operator"].

Definition noChanModes (ch : string) : M unit :=
  sendHostMsg irc.ERR_NOCHANMODES [ch; "Channel doesn't support modes"].

Definition Part (ch msg : string) : M unit :=
  lid ← session;
  '(onChannel, _) ← doSTM (Part_txn lid ch msg) false [keyUserCtl (ec_nick ec); keyChanNicks ch lid];
  if negb onChannel then notOnChannel ch else mret ().

(** The loop of the closure of [Quit] over the channels of the user. *)
Fixpoint Quit_channels (lid : Z) (msg : string) (chs : list string) : stm unit :=
  match chs with
  | [] => mret ()
  | ch :: chs' =>
    let chNicks := keyChanNicks ch lid in
    us ← Get_ chNicks;
    _ ← (if bool_decide (us = "") then mret () else
         cns ← decode decodeChannelNicks us;
         _ ← Put_ chNicks (encodeChannelNicks (cns_del cns (ec_nick ec)).1) WithIgnoreLease;
         Put_ (keyChanMsg ch) (encodeMessage (userMsg irc.QUIT [msg])) NoLease);
    Quit_channels lid msg chs'
  end.

Definition Quit_txn (msg : string) : unit -> stm unit := fun _ =>
  let userCtl := keyUserCtl (ec_nick ec) in
  uvs ← Get_ userCtl;
  uv ← decode decodeUserValue uvs;
  lid ← SRet (Session (rt_ses rt));
  _ ← Quit_channels lid msg (uv_Channels uv);
  _ ← Del_ userCtl;
  Del_ (keyUserMsg (ec_nick ec)).

Definition Quit (msg : string) : M unit :=
  _ ← doSTM (Quit_txn msg) () [keyUserCtl (ec_nick ec)];
  mret ().

(** ** MODE *)

Record chanMode_vars := {
  cm_mode : string; cm_noChan : bool; cm_notOnChan : bool; cm_notOp : bool }.

Definition chanMode_txn (lid : Z) (ch : string) (m : list string)
    : chanMode_vars -> stm chanMode_vars := fun v =>
  let chCtl := keyChanCtl ch in
  cv ← Get_ chCtl;
  let noChan := bool_decide (cv = "") in
  let v := {| cm_mode := cm_mode v; cm_noChan := noChan;
              cm_notOnChan := cm_notOnChan v; cm_notOp := cm_notOp v |} in
  if noChan then mret v else
  cctl ← decode decodeChannelCtl cv;
  ns ← Get_ (keyChanNicks ch lid);
  nicks ← decode decodeChannelNicks ns;
  let n := find nicks (ec_nick ec) in
  let v := {| cm_mode := cm_mode v; cm_noChan := noChan;
              cm_notOnChan := bool_decide (n = None); cm_notOp := cm_notOp v |} in
  match n with
  | None => mret v
  | Some n =>
    let notOp := negb (has (cn_Mode n) "o") in
    let v := {| cm_mode := cm_mode v; cm_noChan := noChan; cm_notOnChan := false;
                cm_notOp := if bool_decide (m = []) then cm_notOp v else notOp |} in
    if negb (bool_decide (m = [])) && notOp then mret v else
    let '(mode, _, updated) :=
      if bool_decide (m = []) then (cc_Mode cctl, [], false)
      else updateSlice (rt_spare rt) (cc_Mode cctl) m chanModePerms in
    let v := {| cm_mode := String.string_of_list_ascii mode; cm_noChan := noChan;
                cm_notOnChan := false; cm_notOp := cm_notOp v |} in
    if negb updated then mret v else
    _ ← Put_ chCtl (encodeChannelCtl (set_cc_Mode mode cctl)) NoLease;
    mret v
  end.

(** [chanMode] takes the lease of the last session without waiting for one. *)
Definition chanMode (ch : string) (m : list string) : M unit :=
  lid ← lift (or_panic (es_s (rt_ses rt)));
  '(v, _) ← doSTM (chanMode_txn lid ch m)
     {| cm_mode := ""; cm_noChan := false; cm_notOnChan := false; cm_notOp := false |}
     [keyChanCtl ch; keyChanNicks ch lid];
  if cm_noChan v then noChanModes ch
  else if cm_notOnChan v then notOnChannel ch
  else if cm_notOp v then chanOpNeeded ch
  else SendMsg (hostMsg irc.MODE [ch; cm_mode v]).

Definition userMode_txn (m : list string)
    : string * list ascii -> stm (string * list ascii) := fun _ =>
  let userCtl := keyUserCtl (ec_nick ec) in
  uvs ← Get_ userCtl;
  uv ← decode decodeUserValue uvs;
  let '(mode, bad, updated) := updateSlice (rt_spare rt) (uv_Mode uv) m userModePerms in
  let v := (String.string_of_list_ascii mode, bad) in
  if negb updated then mret v else
  _ ← Put_ userCtl (encodeUserValue (set_Mode mode uv)) WithIgnoreLease;
  mret v.

Definition userMode (m : list string) : M unit :=
  '(v, _) ← doSTM (userMode_txn m) ("", []) [keyUserCtl (ec_nick ec)];
  let '(mode, bad) := v in
  if bool_decide (m = []) then sendHostMsg irc.RPL_UMODEIS [mode] else
  _ ← sendHostMsg irc.MODE [mode];
  mapM_ (fun b => sendHostMsg irc.ERR_UMODEUNKNOWNFLAG
           [string_of_byte b +:+ " is unknown mode char to me"]) bad.

Definition Mode (m : list string) : M unit :=
  m0 ← lift (or_panic (head m));
  if isChan m0 then chanMode m0 (tail m)
  else if negb (bool_decide (m0 = ec_nick ec))
  then sendHostMsg irc.ERR_USERSDONTMATCH ["Cannot change mode for other users"]
  else userMode (tail m).

(** ** PING, WHO, WHOIS, LIST *)

Definition Ping (msg : string) : M unit :=
  _ ← cliGet (keyUserCtl (ec_nick ec)) None 0;
  SendMsg (hostMsg irc.PONG [HostName (rt_cfg rt); msg]).

Definition Who (args : list string) : M unit :=
  let mask := match args with
              | [] => "*"
              | a :: _ => if bool_decide (a = "0") then "*" else a
              end in
  us ← usersFromMask mask 0;
  modeMap ← (if isChan mask then nameModes mask 0 else mret ∅);
  _ ← mapM_ (fun u =>
    user1 ← lift (or_panic (uv_User u !! 1));
    let v := mask +:+ " " +:+ user1 +:+ " " +:+ uv_Host u +:+ " " +:+ uv_ServerName u +:+ " "
             +:+ uv_Nick u +:+ " H" +:+ default "" (modeMap !! uv_Nick u) in
    sendHostMsg irc.RPL_WHOREPLY [v; "0 " +:+ uv_RealName u]) us;
  sendHostMsg irc.RPL_ENDOFWHO [mask; "End of WHO list"].

Definition Whois (n : string) : M unit :=
  let n := if bool_decide (n = "") then ec_nick ec else n in
  resp ← cliGet (keyUserCtl n) None 0;
  match gr_Kvs resp with
  | [] => noSuchNick n
  | kv :: _ =>
    if bool_decide (kv_Value kv = "") then noSuchNick n else
    uv ← lift (or_err ErrDecode (decodeUserValue (kv_Value kv)));
    user1 ← lift (or_panic (uv_User uv !! 1));
    _ ← ignore_err (sendHostMsg irc.RPL_WHOISUSER [n; user1; "servername"; "*"; " norton"]);
    _ ← (if bool_decide (uv_Channels uv = []) then mret () else
         ignore_err (sendHostMsg irc.RPL_WHOISCHANNELS [n; Join " " (uv_Channels uv)]));
    sendHostMsg irc.RPL_ENDOFWHOIS [n]
  end.

Record replyList := { rl_channel : string; rl_visible : nat; rl_topic : string }.

(** The replies of one stored channel: none when it is secret and the asker is
    not on it. *)
Definition list_reply (uv : UserValue) (kv : KeyValue) : outcome (option replyList) :=
  chctl ← or_err ErrDecode (decodeChannelCtl (kv_Value kv));
  if has (cc_Mode chctl) "s" && negb (inChan uv (cc_Name chctl)) then Ok None
  else Ok (Some {| rl_channel := cc_Name chctl; rl_visible := 100; rl_topic := cc_Topic chctl |}).

Definition List (chs : list string) : M unit :=
  let ops := OpGet (keyUserCtl (ec_nick ec)) None 0 ::
    match chs with
    | [] => [OpGetPrefix (keyChanCtl "") 0]
    | _ => (fun ch => OpGet (keyChanCtl ch) None 0) <$> chs
    end in
  resp ← cliTxn [] ops;
  r0 ← lift (or_panic (head (tr_Responses resp)));
  match kvs_of r0 with
  | [] => mret ()
  | uvKv :: _ =>
    uv ← lift (or_err ErrDecode (decodeUserValue (kv_Value uvKv)));
    repls ← lift (traverse (list_reply uv) (concat (kvs_of <$> tail (tr_Responses resp))));
    _ ← mapM_ (fun repl => ignore_err (sendHostMsg irc.RPL_LIST
           [rl_channel repl; fmt_d (rl_visible repl); " " +:+ rl_topic repl])) (omap id repls);
    sendHostMsg irc.RPL_LISTEND ["End of LIST"]
  end.

(** ** PRIVMSG *)

Record privMsgUser_vars := { pu_noNick : bool; pu_badOtr : bool }.

Definition privMsgUser_txn (target msg : string) : privMsgUser_vars -> stm privMsgUser_vars := fun v =>
  let keyCtl := keyUserCtl target in
  r ← Rev_ keyCtl;
  let noNick := (r =? 0)%Z in
  let v := {| pu_noNick := noNick; pu_badOtr := pu_badOtr v |} in
  if noNick then mret v else
  uvs ← Get_ (keyUserCtl (ec_nick ec));
  uv ← decode decodeUserValue uvs;
  uvt ← Get_ keyCtl;
  uvTarget ← decode decodeUserValue uvt;
  if has (uv_Mode uvTarget) "a" then
    let awayMsg := encodeMessage (userMsg irc.RPL_AWAY [ec_nick ec; target; uv_AwayMsg uvTarget]) in
    _ ← Put_ (keyUserMsg (ec_nick ec)) awayMsg WithIgnoreLease;
    mret v
  else
  let isOtrMsg := HasPrefix msg "?OTR" in
  let badOtr := has (uv_Mode uv) "E" || has (uv_Mode uvTarget) "E" in
  let v := if isOtrMsg then v else {| pu_noNick := noNick; pu_badOtr := badOtr |} in
  if negb isOtrMsg && badOtr then mret v else
  _ ← Put_ (keyUserMsg target) (encodeMessage (userMsg irc.PRIVMSG [target; msg])) WithIgnoreLease;
  mret v.

Definition privMsgUser (target msg : string) : M unit :=
  '(v, _) ← doSTM (privMsgUser_txn target msg) {| pu_noNick := false; pu_badOtr := false |}
     [keyUserCtl target; keyUserCtl (ec_nick ec)];
  if pu_noNick v then noSuchNick target
  else if pu_badOtr v then sendHostMsg irc.ERR_NOTEXTTOSEND [target; "No text to send"]
  else mret ().

Record privMsgChan_vars := { pc_noNick : bool; pc_noSend : bool }.

Definition privMsgChan_txn (ch msg : string) : privMsgChan_vars -> stm privMsgChan_vars := fun v =>
  let keyCtl := keyChanCtl ch in
  let put := Put_ (keyChanMsg ch) (encodeMessage (userMsg irc.PRIVMSG [ch; msg])) WithIgnoreLease in
  r ← Rev_ keyCtl;
  let noNick := (r =? 0)%Z in
  let v := {| pc_noNick := noNick; pc_noSend := pc_noSend v |} in
  if noNick then mret v else
  uvs ← Get_ (keyUserCtl (ec_nick ec));
  uv ← decode decodeUserValue uvs;
  ccs ← Get_ keyCtl;
  chCtl ← decode decodeChannelCtl ccs;
  if has (cc_Mode chCtl) "m" then
    ns ← Get_ (keyChanNicks ch (uv_Lease uv));
    cns ← decode decodeChannelNicks ns;
    match find cns (ec_nick ec) with
    | None => mret {| pc_noNick := true; pc_noSend := pc_noSend v |}
    | Some n =>
      let noSend := negb (has (cn_Mode n) "o") && negb (has (cn_Mode n) "O")
                    && negb (has (cn_Mode n) "v") in
      let v := {| pc_noNick := false; pc_noSend := noSend |} in
      if noSend then mret v else _ ← put; mret v
    end
  else _ ← put; mret v.

Definition privMsgChan (ch msg : string) : M unit :=
  '(v, _) ← doSTM (privMsgChan_txn ch msg) {| pc_noNick := false; pc_noSend := false |}
     [keyChanCtl ch; keyUserCtl (ec_nick ec)];
  if pc_noNick v then noSuchNick ch
  else if pc_noSend v then sendHostMsg irc.ERR_CANNOTSENDTOCHAN [ch; "Cannot send to channel"]
  else mret ().

Definition PrivMsg (target msg : string) : M unit :=
  if isChan target then privMsgChan target msg else privMsgUser target msg.

(** ** OPER and DIE *)

Definition Oper_txn (login pass : string) : bool -> stm bool := fun loggedIn =>
  let userKey := keyUserCtl (ec_nick ec) in
  uvs ← Get_ userKey;
  uv ← decode decodeUserValue uvs;
  ovValue ← Get_ (keyOperCtl login);
  if bool_decide (ovValue = "") then mret loggedIn else
  ov ← decode decodeOperValue ovValue;
  if negb (bool_decide (ov_Pass ov = pass)) then mret loggedIn else
  let mode := if ov_Global ov then add (uv_Mode uv) "O" else add (uv_Mode uv) "o" in
  _ ← Put_ userKey (encodeUserValue (set_Mode mode uv)) WithIgnoreLease;
  mret true.

Definition Oper (login pass : string) : M unit :=
  '(loggedIn, _) ← doSTM (Oper_txn login pass) false [keyUserCtl (ec_nick ec); keyOperCtl login];
  if negb loggedIn then sendHostMsg irc.ERR_PASSWDMISMATCH ["Password incorrect"]
  else sendHostMsg irc.RPL_YOUREOPER ["You are now an IRC operator"].

Definition Die : M unit :=
  resp ← cliGet (keyUserCtl (ec_nick ec)) None 0;
  kv ← lift (or_panic (head (gr_Kvs resp)));
  uv ← lift (or_err ErrDecode (decodeUserValue (kv_Value kv)));
  if negb (has (uv_Mode uv) "o") && negb (has (uv_Mode uv) "O")
  then sendHostMsg irc.ERR_NOPRIVILEGES ["Permission Denied- You're not an IRC operator"]
  else lift Exit.

(** ** KICK *)

Record kick_vars := { k_notOp : bool; k_notOnChan : bool; k_userNotOnChan : bool }.

Definition kick_txn (lid : Z) (ch nick msg : string) : kick_vars -> stm kick_vars := fun v =>
  let targetUserKey := keyUserCtl nick in
  let myNicksKey := keyChanNicks ch lid in
  r ← Rev_ myNicksKey;
  if (r =? 0)%Z
  then mret {| k_notOp := k_notOp v; k_notOnChan := true; k_userNotOnChan := k_userNotOnChan v |} else
  ns ← Get_ myNicksKey;
  cns ← decode decodeChannelNicks ns;
  match find cns (ec_nick ec) with
  | None => mret {| k_notOp := k_notOp v; k_notOnChan := true; k_userNotOnChan := k_userNotOnChan v |}
  | Some n =>
    let notOp := negb (has (cn_Mode n) "o") && negb (has (cn_Mode n) "O") in
    let v := {| k_notOp := notOp; k_notOnChan := false; k_userNotOnChan := k_userNotOnChan v |} in
    if notOp then mret v else
    r ← Rev_ targetUserKey;
    if (r =? 0)%Z
    then mret {| k_notOp := notOp; k_notOnChan := false; k_userNotOnChan := true |} else
    uvs ← Get_ targetUserKey;
    uv ← decode decodeUserValue uvs;
    let '(uv, parted) := part uv ch in
    let v := {| k_notOp := notOp; k_notOnChan := false; k_userNotOnChan := negb parted |} in
    if negb parted then mret v else
    _ ← Put_ targetUserKey (encodeUserValue uv) WithIgnoreLease;
    let cnKey := keyChanNicks ch (uv_Lease uv) in
    cs ← Get_ cnKey;
    cn ← decode decodeChannelNicks cs;
    _ ← Put_ cnKey (encodeChannelNicks (cns_del cn nick).1) WithIgnoreLease;
    _ ← Put_ (keyChanMsg ch) (encodeMessage (userMsg irc.KICK [ch; nick; msg])) NoLease;
    mret v
  end.

Definition kick (ch nick msg : string) : M unit :=
  lid ← session;
  '(v, _) ← doSTM (kick_txn lid ch nick msg)
     {| k_notOp := false; k_notOnChan := false; k_userNotOnChan := false |}
     [keyUserCtl nick; keyChanNicks ch lid];
  if k_notOnChan v then notOnChannel ch
  else if k_userNotOnChan v
  then sendHostMsg irc.ERR_USERNOTINCHANNEL [nick; ch; "User not in channel"]
  else if k_notOp v then chanOpNeeded ch
  else mret ().

Definition Kick (ch : string) (nicks : list string) (msg : string) : M unit :=
  mapM_ (fun n => kick ch n msg) nicks.

(** ** TOPIC and AWAY *)

Record Topic_vars := { t_topic : string; t_noChan : bool; t_notOnChan : bool; t_notOp : bool }.

Definition Topic_txn (lid : Z) (ch : string) (msg : option string) : Topic_vars -> stm Topic_vars := fun v =>
  let chCtl := keyChanCtl ch in
  let write (chv : ChannelCtl) (msg : string) : stm unit :=
    _ ← Put_ chCtl (encodeChannelCtl (set_cc_Topic msg chv)) NoLease;
    Put_ (keyChanMsg ch) (encodeMessage (userMsg irc.TOPIC [ch; msg])) NoLease in
  r ← Rev_ chCtl;
  let noChan := (r =? 0)%Z in
  let v := {| t_topic := t_topic v; t_noChan := noChan;
              t_notOnChan := t_notOnChan v; t_notOp := t_notOp v |} in
  if noChan then mret v else
  cs ← Get_ chCtl;
  chv ← decode decodeChannelCtl cs;
  match msg with
  | None => mret {| t_topic := cc_Topic chv; t_noChan := noChan;
                    t_notOnChan := t_notOnChan v; t_notOp := t_notOp v |}
  | Some msg =>
    if has (cc_Mode chv) "t" then
      ns ← Get_ (keyChanNicks ch lid);
      cns ← decode decodeChannelNicks ns;
      match find cns (ec_nick ec) with
      | None => mret {| t_topic := t_topic v; t_noChan := noChan;
                        t_notOnChan := true; t_notOp := t_notOp v |}
      | Some n =>
        let notOp := negb (has (cn_Mode n) "o") && negb (has (cn_Mode n) "O") in
        let v := {| t_topic := t_topic v; t_noChan := noChan;
                    t_notOnChan := false; t_notOp := notOp |} in
        if notOp then mret v else _ ← write chv msg; mret v
      end
    else _ ← write chv msg; mret v
  end.

Definition Topic (ch : string) (msg : option string) : M unit :=
  lid ← session;
  '(v, _) ← doSTM (Topic_txn lid ch msg)
     {| t_topic := ""; t_noChan := false; t_notOnChan := false; t_notOp := false |} [keyChanCtl ch];
  if t_noChan v then noChanModes ch
  else if t_notOnChan v then notOnChannel ch
  else if t_notOp v then chanOpNeeded ch
  else if bool_decide (msg = None) then sendHostMsg irc.TOPIC [ch; t_topic v]
  else mret ().

Definition Away_txn (msg : string) : unit -> stm unit := fun _ =>
  let k := keyUserCtl (ec_nick ec) in
  uvs ← Get_ k;
  uv ← decode decodeUserValue uvs;
  let mode := if bool_decide (msg = "") then del (uv_Mode uv) "a" else add (uv_Mode uv) "a" in
  Put_ k (encodeUserValue (set_AwayMsg msg (set_Mode mode uv))) WithIgnoreLease.

Definition Away (msg : string) : M unit :=
  _ ← doSTM (Away_txn msg) () [keyUserCtl (ec_nick ec)];
  if bool_decide (msg = "") then sendHostMsg irc.RPL_UNAWAY ["You are no longer marked as being away"]
  else sendHostMsg irc.RPL_NOWAWAY ["You have been marked as being away"].

(** [Nick] is a stub that panics. *)
Definition Nick (n : string) : M unit := lift Panic.

(** [ec.cancel()] ends every watch of the client; that its context is done from
    then on is in the runtime of what follows. *)
Definition cancel : M unit := fun w =>
  (Ok (), {| w_cluster := w_cluster w; w_out := w_out w; w_chCancel := w_chCancel w;
             w_watches := []; w_nextctx := w_nextctx w |}).

(** [Close] cancels the context of the client and waits for its goroutines. *)
Definition Close : M unit := cancel.

End client.

(** ** What the watches deliver *)

Section monitor.
Context `{Gob Message, Gob UserValue, Gob ChannelCtl, Gob ChannelNicks, Gob OperValue}.
Context (rt : Runtime) (ec : etcdClient).

(** A loop body that may make the function return nil. *)
Inductive flow := Next | Return.

Fixpoint loop {A} (body : A -> M flow) (l : list A) : M flow :=
  match l with
  | [] => mret Next
  | a :: l' => f ← body a; match f with Next => loop body l' | Return => mret Return end
  end.

(** Stop the watches of a channel. *)
Definition cancelChan (ch : string) : M unit := fun w =>
  match w_chCancel w !! ch with
  | None => (Ok (), w)
  | Some id =>
    (Ok (), {| w_cluster := w_cluster w; w_out := w_out w;
               w_chCancel := delete ch (w_chCancel w);
               w_watches := filter (fun wt => wt_ctx wt <> id) (w_watches w);
               w_nextctx := w_nextctx w |})
  end.

(** The switch of [monitorMsg]: whether the message says that the client leaves
    the channel.  It reads the prefix of a PART and the second parameter of a
    KICK without asking whether they are there. *)
Definition leaves (msg : Message) : outcome bool :=
  part ← (if bool_decide (m_Command msg = irc.PART)
          then pfx ← or_panic (m_Prefix msg); Ok (bool_decide (p_Name pfx = ec_nick ec))
          else Ok false);
  if part : bool then Ok true
  else if bool_decide (m_Command msg = irc.KICK)
  then p1 ← or_panic (m_Params msg !! 1); Ok (bool_decide (p1 = ec_nick ec))
  else Ok false.

Definition own_privmsg (msg : Message) : bool :=
  match m_Prefix msg with
  | Some pfx => bool_decide (p_Name pfx = ec_nick ec) && bool_decide (m_Command msg = irc.PRIVMSG)
  | None => false
  end.

Definition monitorMsg_event (ev : Event) : M flow :=
  match ev with
  | EvDelete _ _ _ =>
    _ ← SendMsgSync {| m_Prefix := Some (hostPfx (rt_cfg rt)); m_Command := irc.ERROR; m_Params := [] |};
    mret Return
  | EvPut kv _ =>
    match decodeMessage (kv_Value kv) with
    | None => mret Next
    | Some msg =>
      if own_privmsg msg then mret Next else
      _ ← SendMsg rt msg;
      l ← lift (leaves msg);
      if l : bool then
        ch ← lift (or_panic (head (m_Params msg)));
        _ ← cancelChan ch;
        mret Return
      else mret Next
    end
  end.

Definition response_body (body : Event -> M flow) (resp : WatchResponse) : M flow :=
  match wr_Err resp with
  | Some e => lift (Err e)
  | None => loop body (wr_Events resp)
  end.

Definition monitorMsg (msgc : list WatchResponse) : M unit :=
  f ← loop (response_body monitorMsg_event) msgc;
  match f with Return => mret () | Next => ctxErr rt end.

Definition sendParts (ch : string) (cns : ChannelNicks) (rev : Z) : M unit :=
  us ← usersFromNicks rt ec (nicks cns) rev;
  mapM_ (fun u =>
    user1 ← lift (or_panic (uv_User u !! 1));
    SendMsg rt {| m_Prefix := Some {| p_Name := uv_Nick u; p_User := user1; p_Host := uv_Host u |};
                  m_Command := irc.PART; m_Params := [ch; "session lost"] |}) us.

(** The watch of the nick lists of a channel: an empty list of the own session
    is deleted unless it has changed since; a deleted list is reported as the
    members having left. *)
Definition monitorPart_event (ch : string) (lid : Z) (ev : Event) : M flow :=
  match ev with
  | EvPut kv _ =>
    match decodeChannelNicks (kv_Value kv) with
    | None => mret Next
    | Some cns =>
      if negb (bool_decide (cns_Nicks cns = [])) || negb (kv_Lease kv =? lid)%Z then mret Next else
      _ ← ignore_err (cliTxn rt
        [{| cmp_Key := kv_Key kv; cmp_Target := MOD; cmp_Result := EQUAL; cmp_Value := kv_ModRevision kv |}]
        [OpDelete (kv_Key kv)]);
      mret Next
    end
  | EvDelete _ rev prev =>
    prev ← lift (or_panic prev);
    match decodeChannelNicks (kv_Value prev) with
    | None => mret Next
    | Some cns => _ ← sendParts ch cns (rev - 1); mret Next
    end
  end.

Definition monitorPart (ch : string) (usersc : list WatchResponse) : M unit :=
  _ ← loop (fun resp =>
    match wr_Err resp with
    | Some e => lift (Err e)
    | None => lid ← session rt; loop (monitorPart_event ch lid) (wr_Events resp)
    end) usersc;
  ctxErr rt.

End monitor.
