(* ===== verification/Proc.v ===== *)
(** * Handlers as processes

    A handler of Client.v is a function that runs to its end.  To run several of
    them at the same time, on one etcd, one needs what is left of a handler when
    it has made some of its requests.  [proc] is that: the tree of the requests
    to etcd a computation makes, and of what it does between them.  [run] takes a
    process to its end, and [Reified] says that a computation is the run of one.
    [par] runs processes as goroutines of one client. *)

From S2P Require Import Prelude GoLib Msg Key Etcd Stm Client.

(** ** Processes *)

(** The two kinds of requests of [clientv3.KV] that the handlers make. *)
Inductive kvop : Type -> Type :=
  | KGet (key : string) (rend : option string) (rev : Z) : kvop GetResponse
  | KTxn (cmps : list Cmp) (succ fail : list Op) : kvop TxnResponse.

Definition kv_do {R} (q : kvop R) : Store -> outcome (R * Store) :=
  match q with
  | KGet key rend rev => fun st => r ← Get st key rend rev; Ok (r, st)
  | KTxn cmps succ fail => fun st => Txn st cmps succ fail
  end.

(** What a handler does on its own: it sends a message, or starts the watches of
    a channel. *)
Inductive act := AOut (m : Message) | AMonitor (ch : string) (rev : Z).

Definition do_act (a : act) (w : World) : World :=
  match a with
  | AOut m => add_out m w
  | AMonitor ch rev => (monitorChannel ch rev w).2
  end.

(** [PNow] is the choice of the scheduler, which depends on the requests so far. *)
Inductive proc (A : Type) : Type :=
  | PDone (a : A)
  | PAct (a : act) (k : proc A)
  | PNow (k : nat -> proc A)
  | PReq {R} (q : kvop R) (k : outcome R -> proc A).
Arguments PDone {A} a.
Arguments PAct {A} a k.
Arguments PNow {A} k.
Arguments PReq {A R} q k.

Fixpoint pbind {A B} (p : proc A) (f : A -> proc B) : proc B :=
  match p with
  | PDone a => f a
  | PAct a k => PAct a (pbind k f)
  | PNow k => PNow (fun n => pbind (k n) f)
  | PReq q k => PReq q (fun o => pbind (k o) f)
  end.

(** The answer of etcd to a request that reaches it at some store, or is lost. *)
Definition answer (e : option error) {R} (q : kvop R) (st : Store) : outcome R * Store :=
  match e with
  | Some e => (Err e, st)
  | None =>
    match kv_do q st with
    | Ok (a, st') => (Ok a, st')
    | Err e => (Err e, st)
    | Panic => (Panic, st)
    | Exit => (Exit, st)
    | Diverge => (Diverge, st)
    end
  end.

(** The answer to a client that others surround. *)
Definition ask (env : Env) {R} (q : kvop R) (w : World) : outcome R * World :=
  let '(o, c) := request env (kv_do q) (w_cluster w) in (o, set_cluster c w).

Lemma ask_answer env {R} (q : kvop R) w :
  ask env q w =
  let '(o, st) := answer (e_fail env (cl_clock (w_cluster w))) q
                    (e_intf env (cl_clock (w_cluster w)) (cl_store (w_cluster w))) in
  (o, set_cluster {| cl_store := st; cl_clock := S (cl_clock (w_cluster w)) |} w).
Proof.
  unfold ask, answer, request. destruct (e_fail _ _); [done|].
  by destruct (kv_do q _) as [[a st']| | | |].
Qed.

Fixpoint run (env : Env) {A} (p : proc A) (w : World) : A * World :=
  match p with
  | PDone a => (a, w)
  | PAct a k => run env k (do_act a w)
  | PNow k => run env (k (cl_clock (w_cluster w))) w
  | PReq q k => let '(o, w') := ask env q w in run env (k o) w'
  end.

Lemma run_bind env {A B} (p : proc A) (f : A -> proc B) w :
  run env (pbind p f) w = let '(a, w') := run env p w in run env (f a) w'.
Proof.
  revert w. induction p as [a|a k IH|k IH|R q k IH]; intros w; simpl; [done|apply IH|apply IH|].
  destruct (ask env q w) as [o w']. apply IH.
Qed.

(** The continuation of a computation that may fail. *)
Definition obind {A B} (p : proc (outcome A)) (f : A -> proc (outcome B)) : proc (outcome B) :=
  pbind p (fun o => match o with
                    | Ok a => f a
                    | Err e => PDone (Err e)
                    | Panic => PDone Panic
                    | Exit => PDone Exit
                    | Diverge => PDone Diverge
                    end).

Definition pignore {A} (p : proc (outcome A)) : proc (outcome unit) :=
  pbind p (fun o => PDone match o with
                          | Ok _ | Err _ => Ok ()
                          | Panic => Panic
                          | Exit => Exit
                          | Diverge => Diverge
                          end).

(** ** Goroutines

    [par sched ps r] runs the processes [ps] until all have ended; the first
    entry of [sched] is the process that makes the next step, and after its last
    entry the processes run one after the other.  [r] is what the process of the
    group will return: the first error, or nothing while a goroutine that will
    never end is among those that were dropped.  A panic or an exit of one ends
    them all. *)

Definition first_error (r : outcome (option error)) (o : outcome unit) : outcome (option error) :=
  match r, o with
  | Ok None, Err e => Ok (Some e)
  | _, Diverge => Diverge
  | _, _ => r
  end.

(** A goroutine has ended. *)
Definition par_done (o : outcome unit) (r : outcome (option error))
    (rest : outcome (option error) -> proc (outcome (option error))) : proc (outcome (option error)) :=
  match o with
  | Panic => PDone Panic
  | Exit => PDone Exit
  | _ => rest (first_error r o)
  end.

Fixpoint par_rest (ps : list (proc (outcome unit))) (r : outcome (option error))
    : proc (outcome (option error)) :=
  match ps with
  | [] => PDone r
  | p :: ps' => pbind p (fun o => par_done o r (par_rest ps'))
  end.

Fixpoint par (sched : list nat) (ps : list (proc (outcome unit))) (r : outcome (option error))
    : proc (outcome (option error)) :=
  match sched with
  | [] => par_rest ps r
  | i :: sched' =>
    match ps !! i with
    | None => par sched' ps r
    | Some (PDone o) => par_done o r (par sched' (delete i ps))
    | Some (PAct a k) => PAct a (par sched' (<[i := k]> ps) r)
    | Some (PNow k) => PNow (fun n => par sched' (<[i := k n]> ps) r)
    | Some (PReq q k) => PReq q (fun o => par sched' (<[i := k o]> ps) r)
    end
  end.

(** ** The transactions of stm.go as processes *)

Notation sproc A := (stmSerializable -> proc (outcome A * stmSerializable)).

Definition sret {A} (o : outcome A) : sproc A := fun s => PDone (o, s).

Definition sbind {A B} (m : sproc A) (f : A -> sproc B) : sproc B := fun s =>
  pbind (m s) (fun '(o, s') => match o with
                               | Ok a => f a s'
                               | Err e => sret (Err e) s'
                               | Panic => sret Panic s'
                               | Exit => sret Exit s'
                               | Diverge => sret Diverge s'
                               end).

Definition p_fetch (keys : list string) : sproc (option GetResponse) := fun s =>
  if bool_decide (keys = []) then PDone (Ok None, s) else
  match first_hit (rset s) keys with
  | Some r => PDone (Ok (Some r), s)
  | None =>
    PReq (KTxn [] ((fun k => OpGet k None (default 0%Z (getOpts s))) <$> keys) []) (fun o =>
      match o with
      | Ok tr =>
        PDone (match tr_Responses tr with r :: _ => Ok (GetResponseRange r) | [] => Panic end,
               set_rset (rset_add keys (tr_Responses tr) (rset s)) s)
      | Err e => PDone (Err e, s)
      | Panic => PDone (Panic, s)
      | Exit => PDone (Exit, s)
      | Diverge => PDone (Diverge, s)
      end)
  end.

Definition p_Get (keys : list string) : sproc string := fun s =>
  match wset_get (wset s) keys with
  | Some wv => PDone (Ok (sp_val wv), s)
  | None =>
    let firstRead := bool_decide (rset s = ∅) in
    sbind (p_fetch keys) (fun resp =>
      if firstRead then
        match resp with
        | None => sret Panic
        | Some r => fun s => PDone (Ok (respToValue resp), set_getOpts (Some (gr_Revision r)) s)
        end
      else sret (Ok (respToValue resp))) (take_prefetch keys s)
  end.

Definition p_Rev (key : string) : sproc Z :=
  sbind (p_Get [key]) (fun _ => sbind (p_fetch [key]) (fun resp =>
    sret (Ok match resp with Some {| gr_Kvs := kv :: _ |} => kv_ModRevision kv | _ => 0%Z end))).

Definition set_write (key : string) (p : stmPut) (s : stmSerializable) : stmSerializable :=
  set_wset (<[key := p]> (wset s)) s.

Fixpoint p_exec {A} (p : stm A) : sproc A :=
  match p with
  | SRet o => sret o
  | SGet key k => sbind (p_Get [key]) (fun v => p_exec (k v))
  | SRev key k => sbind (p_Rev key) (fun v => p_exec (k v))
  | SPut key val l k => fun s => p_exec k (set_write key {| sp_val := val; sp_op := OpPut key val l |} s)
  | SDel key k => fun s => p_exec k (set_write key {| sp_val := ""; sp_op := OpDelete key |} s)
  end.

Definition p_prefetch (keys : list string) {A} (p : stm A) : sproc A :=
  if bool_decide (keys = []) then p_exec p else sbind (p_Get keys) (fun _ => p_exec p).

Definition p_commit : sproc (option TxnResponse) := fun s =>
  let keys := (map_to_list (rset s)).*1 in
  PReq (KTxn (rset_cmps (rset s)) (wset_puts (wset s)) ((fun k => OpGet k None 0%Z) <$> keys)) (fun o =>
    match o with
    | Ok tr =>
      if tr_Succeeded tr then PDone (Ok (Some tr), s)
      else let rs := rset_add keys (tr_Responses tr) (rset s) in
           PDone (Ok None, {| rset := rs; wset := wset s; prefetch := rs; getOpts := None |})
    | Err e => PDone (Err e, s)
    | Panic => PDone (Panic, s)
    | Exit => PDone (Exit, s)
    | Diverge => PDone (Diverge, s)
    end).

Fixpoint p_runSTM (fuel : nat) (keys : list string) {V} (f : V -> stm V) (v : V) : sproc (V * TxnResponse) :=
  fun s =>
  match fuel with
  | 0 => PDone (Diverge, s)
  | S fuel' =>
    sbind (p_prefetch keys (f v)) (fun v' =>
      sbind p_commit (fun resp =>
        match resp with
        | Some tr => sret (Ok (v', tr))
        | None => p_runSTM fuel' keys f v'
        end)) (reset s)
  end.

Definition p_doSTM (fuel : nat) {V} (f : V -> stm V) (v : V) (keys : list string) : proc (outcome (V * Z)) :=
  pbind (p_runSTM fuel keys f v newStm) (fun '(o, _) =>
    PDone ('(v', resp) ← o; Ok (v', tr_Revision resp))).

(** [p] is the process of [m]. *)
Definition sruns {A} (env : Env) (m : stmST A) (p : sproc A) : Prop := forall s w,
  run env (p s) w =
  let '(o, (s', c)) := m (s, w_cluster w) in ((o, s'), set_cluster c w).

Section sruns.
Context (env : Env).

Lemma set_cluster_same w : set_cluster (w_cluster w) w = w.
Proof. by destruct w. Qed.

Lemma sruns_ret {A} (o : outcome A) : sruns env (lift o) (sret o).
Proof. intros s w. simpl. by rewrite set_cluster_same. Qed.

Lemma sruns_bind {A B} (m : stmST A) p (f : A -> stmST B) g :
  sruns env m p -> (forall a, sruns env (f a) (g a)) -> sruns env (m ≫= f) (sbind p g).
Proof.
  intros Hm Hf s w. unfold sbind. rewrite run_bind, (Hm s w).
  unfold mbind, ST_mbind, ST_bind. destruct (m (s, w_cluster w)) as [o [s1 c1]].
  destruct o as [a| | | |]; simpl; try done. rewrite (Hf a s1). simpl.
  by destruct (f a (s1, c1)) as [o2 [s2 c2]].
Qed.

Lemma sruns_fetch keys : sruns env (fetch env keys) (p_fetch keys).
Proof.
  intros s w. unfold fetch, p_fetch. case_bool_decide; simpl; [by rewrite set_cluster_same|].
  destruct (first_hit (rset s) keys); simpl; [by rewrite set_cluster_same|]. unfold ask. cbn [kv_do].
  by destruct (request env _ (w_cluster w)) as [[] c].
Qed.

Lemma sruns_Get keys : sruns env (stm_Get env keys) (p_Get keys).
Proof.
  intros s w. unfold stm_Get, p_Get. destruct (wset_get (wset s) keys); simpl; [by rewrite set_cluster_same|].
  apply (sruns_bind (fetch env keys)); [apply sruns_fetch|]. intros resp s1 w1.
  case_bool_decide; [destruct resp|]; simpl; by rewrite set_cluster_same.
Qed.

Lemma sruns_Rev key : sruns env (stm_Rev env key) (p_Rev key).
Proof.
  apply sruns_bind; [apply sruns_Get|]. intros _. apply sruns_bind; [apply sruns_fetch|].
  intros resp s w. simpl. by rewrite set_cluster_same.
Qed.

Lemma sruns_exec {A} (p : stm A) : sruns env (exec env p) (p_exec p).
Proof.
  induction p as [o|key k IH|key k IH|key val l k IH|key k IH]; simpl.
  - apply sruns_ret.
  - apply sruns_bind; [apply sruns_Get|done].
  - apply sruns_bind; [apply sruns_Rev|done].
  - intros s w. apply IH.
  - intros s w. apply IH.
Qed.

Lemma sruns_prefetch keys {A} (p : stm A) : sruns env (with_prefetch env keys p) (p_prefetch keys p).
Proof.
  unfold with_prefetch, p_prefetch. case_bool_decide; [apply sruns_exec|].
  apply sruns_bind; [apply sruns_Get|intros _; apply sruns_exec].
Qed.

Lemma sruns_commit : sruns env (commit env) p_commit.
Proof.
  intros s w. unfold commit, p_commit. simpl. unfold ask. cbn [kv_do].
  destruct (request env _ (w_cluster w)) as [[tr| | | |] c]; simpl; try done. by destruct (tr_Succeeded tr).
Qed.

Lemma sruns_runSTM fuel keys {V} (f : V -> stm V) v : sruns env (runSTM env fuel keys f v) (p_runSTM fuel keys f v).
Proof.
  revert v. induction fuel as [|fuel IH]; intros v s w; simpl; [by rewrite set_cluster_same|].
  apply (sruns_bind (with_prefetch env keys (f v))); [apply sruns_prefetch|]. intros v'.
  apply sruns_bind; [apply sruns_commit|]. intros [tr|]; [|apply IH].
  intros s1 w1. simpl. by rewrite set_cluster_same.
Qed.

End sruns.
