(* ===== verification/Reify.v ===== *)
(** * The handlers of a client as processes

    Class [Reified] says that a computation is the run of a process, whatever the
    others do; resolution follows the way the computation is written and so finds
    the process of every handler of Client.v. *)

From S2P Require Import Prelude GoLib Mode Msg User Channel Key Etcd Stm Client Proc.

(** The runtime of a client among other users of etcd. *)
Definition with_env (env : Env) (rt : Runtime) : Runtime := {|
  rt_env := env; rt_attempts := rt_attempts rt; rt_ses := rt_ses rt; rt_ctx := rt_ctx rt;
  rt_cliCtx := rt_cliCtx rt; rt_now := rt_now rt; rt_cfg := rt_cfg rt; rt_created := rt_created rt;
  rt_spare := rt_spare rt; rt_sched := rt_sched rt |}.

Lemma with_env_same rt : with_env (rt_env rt) rt = rt.
Proof. by destruct rt. Qed.

Class Reified {A} (m : Env -> M A) := {
  proc_of : proc (outcome A);
  proc_of_run env w : m env w = run env proc_of w;
}.
Arguments proc_of {A} m {_}.

#[export] Instance reified_lift {A} (o : outcome A) : Reified (fun _ => lift o).
Proof. by refine {| proc_of := PDone o |}. Defined.

#[export] Instance reified_ret {A} (a : A) : Reified (fun _ => mret a).
Proof. by refine {| proc_of := PDone (Ok a) |}. Defined.

#[export] Instance reified_bind {A B} (m : Env -> M A) (f : Env -> A -> M B) :
  Reified m -> (forall a, Reified (fun env => f env a)) -> Reified (fun env => m env ≫= f env).
Proof.
  intros Hm Hf. refine {| proc_of := obind (proc_of m) (fun a => proc_of (fun env => f env a)) |}.
  intros env w. unfold mbind, ST_mbind, ST_bind, obind. rewrite run_bind, <-(proc_of_run env w).
  destruct (m env w) as [[a| | | |] w']; [apply (proc_of_run (Reified := Hf a))|done..].
Defined.

#[export] Instance reified_ignore {A} (m : Env -> M A) : Reified m -> Reified (fun env => ignore_err (m env)).
Proof.
  intros Hm. refine {| proc_of := pignore (proc_of m) |}.
  intros env w. unfold ignore_err, pignore. rewrite run_bind, <-(proc_of_run env w).
  by destruct (m env w) as [[] w'].
Defined.

#[export] Instance reified_mapM {A} (f : Env -> A -> M unit) l :
  (forall a, Reified (fun env => f env a)) -> Reified (fun env => mapM_ (f env) l).
Proof.
  intros Hf. induction l as [|a l IH]; simpl; [apply reified_ret|].
  apply reified_bind; [apply Hf|intros _; exact IH].
Defined.

#[export] Instance reified_send ctx m : Reified (fun _ => SendMsg_ctx ctx m).
Proof.
  refine {| proc_of := match ctx with Some e => PDone (Err e) | None => PAct (AOut m) (PDone (Ok ())) end |}.
  intros env w. by destruct ctx.
Defined.

#[export] Instance reified_monitor ch rev : Reified (fun _ => monitorChannel ch rev).
Proof. by refine {| proc_of := PAct (AMonitor ch rev) (PDone (Ok ())) |}. Defined.

#[export] Instance reified_doSTM rt {V} (f : V -> stm V) v keys :
  Reified (fun env => doSTM (with_env env rt) f v keys).
Proof.
  refine {| proc_of := p_doSTM (rt_attempts rt) f v keys |}.
  intros env w. unfold p_doSTM. rewrite run_bind, (sruns_runSTM env _ keys f v newStm w).
  unfold doSTM, mbind, ST_mbind, ST_bind, in_cluster, NewSTM. cbn [rt_env rt_attempts with_env].
  destruct (runSTM env (rt_attempts rt) keys f v (newStm, w_cluster w)) as [[[v' tr]| | | |] [s c]]; done.
Defined.

#[export] Instance reified_cliGet rt key rend rev : Reified (fun env => cliGet (with_env env rt) key rend rev).
Proof.
  refine {| proc_of := PReq (KGet key rend rev) PDone |}.
  intros env w. simpl. unfold cliGet, in_cluster, ask. cbn [kv_do rt_env with_env].
  by destruct (request env _ (w_cluster w)).
Defined.

#[export] Instance reified_cliTxn rt cmps succ : Reified (fun env => cliTxn (with_env env rt) cmps succ).
Proof.
  refine {| proc_of := PReq (KTxn cmps succ []) PDone |}.
  intros env w. simpl. unfold cliTxn, in_cluster, ask. cbn [kv_do rt_env with_env].
  by destruct (request env _ (w_cluster w)).
Defined.

(** Follow the way a computation is written: [unfold] its name, then [reify]. *)
Ltac reify :=
  cbv zeta;
  lazymatch goal with
  | |- Reified (fun env => mbind _ _) => apply reified_bind; [|intros ?]; reify
  | |- Reified (fun env => match ?x with _ => _ end) => destruct x; reify
  | |- Reified (fun env => mapM_ _ _) => apply reified_mapM; intros ?; reify
  | |- Reified (fun env => ignore_err _) => apply reified_ignore; reify
  | |- forall _, _ => intros ?; reify
  | |- Reified _ => typeclasses eauto
  end.

Section client.
Context `{Gob Message, Gob UserValue, Gob ChannelCtl, Gob ChannelNicks, Gob OperValue}.
Context (rt : Runtime) (ec : etcdClient).

#[export] Instance reified_SendMsg m : Reified (fun env => SendMsg (with_env env rt) m).
Proof.
  refine {| proc_of := PNow (fun n => proc_of (fun _ : Env => SendMsg_ctx (ctx_at rt n) m)) |}.
  intros env w. exact (proc_of_run (m := fun _ => SendMsg_ctx _ m) env w).
Defined.

#[export] Instance reified_sendHostMsg cmd ps : Reified (fun env => sendHostMsg (with_env env rt) ec cmd ps).
Proof. exact (reified_SendMsg (hostMsg rt cmd (ec_nick ec :: ps))). Defined.

#[export] Instance reified_hostMsg cmd ps :
  Reified (fun env => SendMsg (with_env env rt) (hostMsg (with_env env rt) cmd ps)).
Proof. exact (reified_SendMsg (hostMsg rt cmd ps)). Defined.

#[export] Instance reified_session : Reified (fun env => session (with_env env rt)).
Proof. exact (reified_lift (Session (rt_ses rt))). Defined.

#[export] Instance reified_lastSession : Reified (fun env => lift (or_panic (es_s (rt_ses (with_env env rt))))).
Proof. exact (reified_lift (or_panic (es_s (rt_ses rt)))). Defined.

#[export] Instance reified_ctxErr : Reified (fun env => ctxErr (with_env env rt)).
Proof.
  by refine {| proc_of := PNow (fun n => PDone match ctx_at rt n with Some e => Err e | None => Ok () end) |}.
Defined.

#[export] Instance reified_noSuchNick n : Reified (fun env => noSuchNick (with_env env rt) ec n).
Proof. apply reified_sendHostMsg. Defined.

#[export] Instance reified_notOnChannel ch : Reified (fun env => notOnChannel (with_env env rt) ec ch).
Proof. apply reified_sendHostMsg. Defined.

#[export] Instance reified_chanOpNeeded ch : Reified (fun env => chanOpNeeded (with_env env rt) ec ch).
Proof. apply reified_sendHostMsg. Defined.

#[export] Instance reified_noChanModes ch : Reified (fun env => noChanModes (with_env env rt) ec ch).
Proof. apply reified_sendHostMsg. Defined.

(** *** Queries *)

#[export] Instance reified_usersFromNicks ns rev : Reified (fun env => usersFromNicks (with_env env rt) ec ns rev).
Proof. unfold usersFromNicks, userKeysFromNicks. reify. Defined.

#[export] Instance reified_usersFromMask mask rev : Reified (fun env => usersFromMask (with_env env rt) ec mask rev).
Proof. unfold usersFromMask, usersFromChannel, users, cliGetPrefix. reify. Defined.

#[export] Instance reified_nameModes ch rev : Reified (fun env => nameModes (with_env env rt) ch rev).
Proof. unfold nameModes, cliGetPrefix. reify. Defined.

#[export] Instance reified_names ch rev : Reified (fun env => names (with_env env rt) ec ch rev).
Proof. unfold names. reify. Defined.

#[export] Instance reified_Who args : Reified (fun env => Who (with_env env rt) ec args).
Proof. unfold Who. reify. Defined.

#[export] Instance reified_Whois n : Reified (fun env => Whois (with_env env rt) ec n).
Proof. unfold Whois. reify. Defined.

#[export] Instance reified_List chs : Reified (fun env => List (with_env env rt) ec chs).
Proof. unfold List. reify. Defined.

#[export] Instance reified_Ping m : Reified (fun env => Ping (with_env env rt) ec m).
Proof.
  apply reified_bind; [reify|intros _]. exact (reified_SendMsg (hostMsg rt irc.PONG [HostName (rt_cfg rt); m])).
Defined.

#[export] Instance reified_Die : Reified (fun env => Die (with_env env rt) ec).
Proof. unfold Die. reify. Defined.

(** *** Commands that write

    The closures read the runtime, but nothing of the others. *)

#[export] Instance reified_Join_txn lid ch v keys :
  Reified (fun env => doSTM (with_env env rt) (Join_txn (with_env env rt) ec lid ch) v keys).
Proof. exact (reified_doSTM rt (Join_txn rt ec lid ch) v keys). Defined.

#[export] Instance reified_Quit_txn msg v keys :
  Reified (fun env => doSTM (with_env env rt) (Quit_txn (with_env env rt) ec msg) v keys).
Proof. exact (reified_doSTM rt (Quit_txn rt ec msg) v keys). Defined.

#[export] Instance reified_chanMode_txn lid ch m v keys :
  Reified (fun env => doSTM (with_env env rt) (chanMode_txn (with_env env rt) ec lid ch m) v keys).
Proof. exact (reified_doSTM rt (chanMode_txn rt ec lid ch m) v keys). Defined.

#[export] Instance reified_userMode_txn m v keys :
  Reified (fun env => doSTM (with_env env rt) (userMode_txn (with_env env rt) ec m) v keys).
Proof. exact (reified_doSTM rt (userMode_txn rt ec m) v keys). Defined.

#[export] Instance reified_ClientJoin ch : Reified (fun env => ClientJoin (with_env env rt) ec ch).
Proof. unfold ClientJoin. reify. Defined.

#[export] Instance reified_Part ch msg : Reified (fun env => Part (with_env env rt) ec ch msg).
Proof. unfold Part. reify. Defined.

#[export] Instance reified_Quit msg : Reified (fun env => Quit (with_env env rt) ec msg).
Proof. unfold Quit. reify. Defined.

#[export] Instance reified_chanMode ch m : Reified (fun env => chanMode (with_env env rt) ec ch m).
Proof. unfold chanMode. reify. Defined.

#[export] Instance reified_userMode m : Reified (fun env => userMode (with_env env rt) ec m).
Proof. unfold userMode. reify. Defined.

#[export] Instance reified_privMsgUser target msg : Reified (fun env => privMsgUser (with_env env rt) ec target msg).
Proof. unfold privMsgUser. reify. Defined.

#[export] Instance reified_privMsgChan ch msg : Reified (fun env => privMsgChan (with_env env rt) ec ch msg).
Proof. unfold privMsgChan. reify. Defined.

#[export] Instance reified_Oper login pass : Reified (fun env => Oper (with_env env rt) ec login pass).
Proof. unfold Oper. reify. Defined.

#[export] Instance reified_kick ch nick msg : Reified (fun env => kick (with_env env rt) ec ch nick msg).
Proof. unfold kick. reify. Defined.

#[export] Instance reified_Topic ch msg : Reified (fun env => Topic (with_env env rt) ec ch msg).
Proof. unfold Topic. reify. Defined.

#[export] Instance reified_Away msg : Reified (fun env => Away (with_env env rt) ec msg).
Proof. unfold Away. reify. Defined.

End client.

(** Resolution goes by the name of the handler. *)
#[export] Hint Opaque SendMsg sendHostMsg session ctxErr noSuchNick notOnChannel chanOpNeeded noChanModes
  usersFromNicks usersFromMask nameModes names Who Whois List Ping Die ClientJoin Part Quit chanMode userMode
  privMsgUser privMsgChan Oper kick Topic Away doSTM cliGet cliTxn monitorChannel ignore_err mapM_ lift
  SendMsg_ctx : typeclass_instances.
