(* ===== verification/SessionLoop.v ===== *)
(** * The session of a daemon (session.go)

    One goroutine makes a session, waits until it is lost, and makes another one;
    the handlers ask for the current session with [Session].  The two share the
    session, the channel [readyc] that is closed while there is one, and a lock.
    Client.v sees the shared state as a record [etcdSession] and the call as one
    function of it; here the goroutine and the calls run step by step. *)

From S2P Require Import Prelude Client.

(** ** State *)

(** Where the goroutine of [newEtcdSession] is. *)
Inductive loop_pc :=
  | LNew                  (* calls NewSession *)
  | LBackoff              (* waits a second after an error, or for the context *)
  | LGot (id : Z)         (* has a session, es.s not set yet *)
  | LSet (id : Z)         (* es.s set, readyc not closed yet *)
  | LHold (id : Z)        (* waits for the end of the session or of the context *)
  | LLost                 (* the session is lost, readyc not replaced yet *)
  | LRest                 (* waits a second before a new session, or for the context *)
  | LDefer                (* returned, the deferred function runs *)
  | LEnd                  (* donec is closed *)
  | LPanic.               (* closed a closed channel *)

(** Where a call of [Session] is. *)
Inductive call_pc :=
  | CWait (rc : nat)      (* waits for the channel it read, or for the context *)
  | CRead                 (* about to read es.s *)
  | CDone (o : outcome Z).

(** Channels are numbered as they are made; the last one is [readyc]. *)
Record loop_state := {
  ls_pc : loop_pc;
  ls_s : option Z;
  ls_readyc : nat;
  ls_closed : gset nat;
  ls_ctx : option error;
  ls_granted : gset Z;
  ls_calls : gmap nat call_pc;
}.

Definition set_pc (pc : loop_pc) (s : loop_state) : loop_state := {|
  ls_pc := pc; ls_s := ls_s s; ls_readyc := ls_readyc s; ls_closed := ls_closed s; ls_ctx := ls_ctx s;
  ls_granted := ls_granted s; ls_calls := ls_calls s |}.
Definition set_s (id : Z) (s : loop_state) : loop_state := {|
  ls_pc := ls_pc s; ls_s := Some id; ls_readyc := ls_readyc s; ls_closed := ls_closed s; ls_ctx := ls_ctx s;
  ls_granted := ls_granted s; ls_calls := ls_calls s |}.
Definition set_granted (id : Z) (s : loop_state) : loop_state := {|
  ls_pc := ls_pc s; ls_s := ls_s s; ls_readyc := ls_readyc s; ls_closed := ls_closed s; ls_ctx := ls_ctx s;
  ls_granted := {[id]} ∪ ls_granted s; ls_calls := ls_calls s |}.
Definition set_call (i : nat) (c : call_pc) (s : loop_state) : loop_state := {|
  ls_pc := ls_pc s; ls_s := ls_s s; ls_readyc := ls_readyc s; ls_closed := ls_closed s; ls_ctx := ls_ctx s;
  ls_granted := ls_granted s; ls_calls := <[i := c]> (ls_calls s) |}.

(** [close(es.readyc)] *)
Definition close_readyc (id : Z) (s : loop_state) : loop_state :=
  if decide (ls_readyc s ∈ ls_closed s) then set_pc LPanic s
  else {| ls_pc := LHold id; ls_s := ls_s s; ls_readyc := ls_readyc s;
          ls_closed := {[ls_readyc s]} ∪ ls_closed s; ls_ctx := ls_ctx s;
          ls_granted := ls_granted s; ls_calls := ls_calls s |}.

(** [es.readyc = make(chan struct{})] *)
Definition make_readyc (s : loop_state) : loop_state := {|
  ls_pc := LRest; ls_s := ls_s s; ls_readyc := S (ls_readyc s); ls_closed := ls_closed s; ls_ctx := ls_ctx s;
  ls_granted := ls_granted s; ls_calls := ls_calls s |}.

(** [es.cancel()], or the end of the context of the etcd client. *)
Definition cancel (e : error) (s : loop_state) : loop_state := {|
  ls_pc := ls_pc s; ls_s := ls_s s; ls_readyc := ls_readyc s; ls_closed := ls_closed s; ls_ctx := Some e;
  ls_granted := ls_granted s; ls_calls := ls_calls s |}.

Definition newEtcdSession : loop_state := {|
  ls_pc := LNew; ls_s := None; ls_readyc := 0; ls_closed := ∅; ls_ctx := None; ls_granted := ∅; ls_calls := ∅ |}.

(** What Client.v sees. *)
Definition shared (s : loop_state) : etcdSession := {|
  es_s := ls_s s; es_ready := bool_decide (ls_readyc s ∈ ls_closed s); es_ctx := ls_ctx s |}.

(** The last read of a call: the session and the error of the context. *)
Definition call_result (s : loop_state) : outcome Z :=
  match ls_ctx s with Some e => Err e | None => or_panic (ls_s s) end.

(** ** Steps *)

(** The goroutine, without the timers. *)
Inductive go_step (s : loop_state) : loop_state -> Prop :=
  | g_fail : ls_pc s = LNew -> go_step s (set_pc LBackoff s)
  | g_new id : ls_pc s = LNew -> ls_ctx s = None -> id ∉ ls_granted s ->
      go_step s (set_pc (LGot id) (set_granted id s))
  | g_backoff_ctx : ls_pc s = LBackoff -> is_Some (ls_ctx s) -> go_step s (set_pc LDefer s)
  | g_set id : ls_pc s = LGot id -> go_step s (set_pc (LSet id) (set_s id s))
  | g_ready id : ls_pc s = LSet id -> go_step s (close_readyc id s)
  | g_hold_ctx id : ls_pc s = LHold id -> is_Some (ls_ctx s) -> go_step s (set_pc LDefer s)
  | g_lost id : ls_pc s = LHold id -> go_step s (set_pc LLost s)
  | g_make : ls_pc s = LLost -> go_step s (make_readyc s)
  | g_rest_ctx : ls_pc s = LRest -> is_Some (ls_ctx s) -> go_step s (set_pc LDefer s)
  | g_defer : ls_pc s = LDefer -> go_step s (set_pc LEnd s).

(** [<-time.After(time.Second)] *)
Inductive timer_step (s : loop_state) : loop_state -> Prop :=
  | t_backoff : ls_pc s = LBackoff -> timer_step s (set_pc LNew s)
  | t_rest : ls_pc s = LRest -> timer_step s (set_pc LNew s).

Inductive call_step (i : nat) (s : loop_state) : loop_state -> Prop :=
  | c_ready rc : ls_calls s !! i = Some (CWait rc) -> rc ∈ ls_closed s ->
      call_step i s (set_call i CRead s)
  | c_ctx rc e : ls_calls s !! i = Some (CWait rc) -> ls_ctx s = Some e ->
      call_step i s (set_call i (CDone (Err e)) s)
  | c_read : ls_calls s !! i = Some CRead -> call_step i s (set_call i (CDone (call_result s)) s).

Inductive loop_step (s : loop_state) : loop_state -> Prop :=
  | l_go s' : go_step s s' -> loop_step s s'
  | l_timer s' : timer_step s s' -> loop_step s s'
  | l_call i s' : call_step i s s' -> loop_step s s'
  | l_start i : ls_calls s !! i = None -> loop_step s (set_call i (CWait (ls_readyc s)) s)
  | l_cancel e : ls_ctx s = None -> loop_step s (cancel e s).

(** ** The invariant *)

Definition pc_ok (s : loop_state) : Prop :=
  match ls_pc s with
  | LNew | LBackoff | LRest => ls_readyc s ∉ ls_closed s
  | LGot id => ls_readyc s ∉ ls_closed s /\ id ∈ ls_granted s
  | LSet id => ls_readyc s ∉ ls_closed s /\ ls_s s = Some id
  | LHold id => ls_s s = Some id
  | LLost | LDefer | LEnd => True
  | LPanic => False
  end.

Definition call_ok (s : loop_state) (c : call_pc) : Prop :=
  match c with
  | CWait rc => rc <= ls_readyc s
  | CRead => is_Some (ls_s s)
  | CDone (Ok id) => id ∈ ls_granted s
  | CDone (Err _) => True
  | CDone _ => False
  end.

Record loop_inv (s : loop_state) : Prop := {
  li_pc : pc_ok s;
  li_closed rc : rc ∈ ls_closed s -> rc <= ls_readyc s /\ is_Some (ls_s s);
  li_s id : ls_s s = Some id -> id ∈ ls_granted s;
  li_calls i c : ls_calls s !! i = Some c -> call_ok s c;
}.

Lemma newEtcdSession_inv : loop_inv newEtcdSession.
Proof. split; simpl; [apply not_elem_of_empty|set_solver|done|]. intros i c. by rewrite lookup_empty. Qed.

Lemma call_ok_mono s s' c :
  ls_readyc s <= ls_readyc s' -> (is_Some (ls_s s) -> is_Some (ls_s s')) -> ls_granted s ⊆ ls_granted s' ->
  call_ok s c -> call_ok s' c.
Proof. intros Hr Hs Hg. destruct c as [rc| |[]]; simpl; first [done|lia|set_solver]. Qed.

Lemma inv_calls s s' :
  ls_calls s' = ls_calls s -> ls_readyc s <= ls_readyc s' -> (is_Some (ls_s s) -> is_Some (ls_s s')) ->
  ls_granted s ⊆ ls_granted s' -> loop_inv s -> forall i c, ls_calls s' !! i = Some c -> call_ok s' c.
Proof. intros -> ??? Hi i c Hc. eapply call_ok_mono; [done..|]. by eapply li_calls. Qed.

Lemma go_step_inv s s' : loop_inv s -> go_step s s' -> loop_inv s'.
Proof.
  intros Hi Hs. pose proof (li_pc _ Hi) as Hpc. pose proof (li_closed _ Hi) as Hcl. pose proof (li_s _ Hi) as Hid.
  unfold pc_ok in Hpc. destruct Hs; repeat match goal with E : ls_pc s = _ |- _ => rewrite E in Hpc end.
  all: try (split; [done|exact Hcl|exact Hid|by apply (inv_calls s)]).
  - split; [split; simpl; [done|set_solver]|exact Hcl|intros ? ?%Hid; simpl; set_solver|].
    apply (inv_calls s); simpl; auto; set_solver.
  - destruct Hpc as [Hr Hg]. split; [by split|simpl; intros rc ?%Hcl; naive_solver|by intros ? [= <-]|].
    apply (inv_calls s); simpl; auto; by eexists.
  - destruct Hpc as [Hr Hset]. unfold close_readyc. rewrite decide_False by done.
    split; [exact Hset| |exact Hid|by apply (inv_calls s)].
    simpl. intros rc [->%elem_of_singleton|?]%elem_of_union; [|by apply Hcl]. split; [lia|by eexists].
  - split; [|simpl; intros rc Hrc; apply Hcl in Hrc as [? ?]; split; [lia|done]|exact Hid
      |apply (inv_calls s); simpl; auto].
    intros Hin. apply Hcl in Hin as [? _]. simpl in *. lia.
Qed.

Lemma call_inv s i c : loop_inv s -> call_ok s c -> loop_inv (set_call i c s).
Proof.
  intros Hi Hc. split; [apply Hi|apply Hi|apply Hi|].
  intros j c'. simpl. intros [[<- <-]|[_ Hj]]%lookup_insert_Some; [exact Hc|]. by apply (li_calls _ Hi j).
Qed.

Lemma loop_step_inv s s' : loop_inv s -> loop_step s s' -> loop_inv s'.
Proof.
  intros Hi [s1 Hg|s1 Ht|i s1 Hc|i Hn|e He].
  - by eapply go_step_inv.
  - pose proof (li_pc _ Hi) as Hpc. unfold pc_ok in Hpc.
    destruct Ht as [E|E]; rewrite E in Hpc; (split; [exact Hpc|apply Hi|apply Hi|by apply (inv_calls s)]).
  - destruct Hc as [rc E Hrc|rc e E He|E]; apply call_inv; try done.
    + by apply (li_closed _ Hi rc).
    + unfold call_result. destruct (ls_ctx s); [done|]. pose proof (li_calls _ Hi i _ E) as [id Hid].
      rewrite Hid. by apply (li_s _ Hi).
  - apply call_inv; [done|]. simpl. lia.
  - split; [apply Hi|apply Hi|apply Hi|]. by apply (inv_calls s).
Qed.

Lemma loop_reach_inv s : rtc loop_step newEtcdSession s -> loop_inv s.
Proof.
  intros Hr. pattern s. revert s Hr. apply rtc_ind_r; [apply newEtcdSession_inv|].
  intros s s' _ Hs Hi. by eapply loop_step_inv.
Qed.

(** ** Calls on their own *)

Lemma solo_end i s s' o :
  ls_calls s !! i = Some (CDone o) -> rtc (call_step i) s s' -> s' = s.
Proof. intros Hc Hr. inversion Hr as [|? s1 ? Hs _]; subst; [done|]. inversion Hs; congruence. Qed.

Lemma solo_read i s s' o :
  ls_calls s !! i = Some CRead -> rtc (call_step i) s s' -> ls_calls s' !! i = Some (CDone o) -> o = call_result s.
Proof.
  intros Hc Hr Ho. inversion Hr as [|? s1 ? Hs Hr1]; subst; [congruence|]. inversion Hs; subst; try congruence.
  clear Hr. rename Hr1 into Hr.
  apply (solo_end i _ _ (call_result s)) in Hr as ->; [|by simpl; rewrite lookup_insert_eq].
  simpl in Ho. rewrite lookup_insert_eq in Ho. by simplify_eq.
Qed.

Lemma solo_call i s o :
  ls_calls s !! i = Some (CWait (ls_readyc s)) ->
  (exists s', rtc (call_step i) s s' /\ ls_calls s' !! i = Some (CDone o)) <->
  Session (shared s) = o /\ o <> Diverge.
Proof.
  intros Hc. unfold Session, shared. cbn [es_s es_ready es_ctx]. split.
  - intros (s'&Hr&Ho). inversion Hr as [|? s1 ? Hs Hr1]; subst; [congruence|]. clear Hr. rename Hr1 into Hr.
    inversion Hs as [rc E Hrc|rc e E He|E]; simplify_eq.
    + rewrite bool_decide_true by done.
      apply (solo_read i _ _ o) in Hr; [|by simpl; rewrite lookup_insert_eq|done].
      subst o. unfold call_result. simpl. destruct (ls_ctx s); [done|]. by destruct (ls_s s).
    + apply (solo_end i _ _ (Err e)) in Hr as ->; [|by simpl; rewrite lookup_insert_eq].
      simpl in Ho. rewrite lookup_insert_eq in Ho. simplify_eq. rewrite He. by case_bool_decide.
  - intros [Hs Ho]. case_bool_decide as Hr.
    + exists (set_call i (CDone (call_result s)) (set_call i CRead s)). split.
      * eapply rtc_l; [by eapply c_ready|]. apply rtc_once. apply (c_read i (set_call i CRead s)). simpl. by rewrite lookup_insert_eq.
      * simpl. rewrite lookup_insert_eq. unfold call_result. by rewrite Hs.
    + destruct (ls_ctx s) as [e|] eqn:E; [|congruence]. exists (set_call i (CDone (Err e)) s). split.
      * apply rtc_once. by eapply c_ctx.
      * simpl. rewrite lookup_insert_eq. by rewrite Hs.
Qed.

(** ** The end *)

(** How many steps the goroutine makes at most once the context is done. *)
Definition rank (pc : loop_pc) : nat :=
  match pc with
  | LGot _ => 6 | LSet _ => 5 | LHold _ => 4 | LLost | LNew => 3 | LRest | LBackoff => 2
  | LDefer => 1 | LEnd | LPanic => 0
  end.

Lemma go_step_rank s s' :
  is_Some (ls_ctx s) -> go_step s s' -> rank (ls_pc s') < rank (ls_pc s) /\ ls_ctx s' = ls_ctx s.
Proof.
  intros [e Hctx] Hs. destruct Hs; repeat match goal with E : ls_pc s = _ |- _ => rewrite E end; simpl;
    try (split; [lia|done]); [congruence|]. unfold close_readyc. case_decide; simpl; split; (lia || done).
Qed.

Lemma go_steps_rank n s s' : is_Some (ls_ctx s) -> nsteps go_step n s s' -> n <= rank (ls_pc s).
Proof.
  intros Hctx Hn. revert Hctx. induction Hn as [|n s s1 s' Hs _ IH]; intros Hctx; [lia|].
  destruct (go_step_rank s s1 Hctx Hs) as [Hr Hc]. rewrite Hc in IH. specialize (IH Hctx). lia.
Qed.

Lemma go_step_enabled s :
  is_Some (ls_ctx s) -> ls_pc s <> LEnd -> ls_pc s <> LPanic -> exists s', go_step s s'.
Proof.
  intros Hctx He Hp. destruct (ls_pc s) eqn:E; try done; eexists;
    first [by eapply g_fail|by eapply g_backoff_ctx|by eapply g_set|by eapply g_ready|by eapply g_hold_ctx
      |by eapply g_make|by eapply g_rest_ctx|by eapply g_defer].
Qed.

(** ** Theorems *)

(** The function [Session] of the handlers is the call: while nothing else
    happens, a call that just began can return exactly what the function says, and
    waits forever where the function does. *)
Lemma session_call_exact s i o :
  ls_calls s !! i = Some (CWait (ls_readyc s)) ->
  (exists s', rtc (call_step i) s s' /\ ls_calls s' !! i = Some (CDone o)) <->
  Session (shared s) = o /\ o <> Diverge.
Proof. apply solo_call. Qed.

Lemma loop_safe s :
  loop_inv s ->
  ls_pc s <> LPanic /\
  (forall i o, ls_calls s !! i = Some (CDone o) ->
     (exists id, o = Ok id /\ id ∈ ls_granted s) \/ exists e, o = Err e) /\
  Session (shared s) <> Panic.
Proof.
  intros Hr. split_and!.
  - pose proof (li_pc _ Hr) as Hpc. unfold pc_ok in Hpc. by intros E; rewrite E in Hpc.
  - intros i o Hc. pose proof (li_calls _ Hr i _ Hc) as Hok. simpl in Hok. destruct o; try done; eauto.
  - unfold Session, shared. simpl. case_bool_decide as Hrc; [|by destruct (ls_ctx s)].
    destruct (ls_ctx s); [done|]. by destruct (li_closed _ Hr _ Hrc) as [_ [id ->]].
Qed.

Lemma loop_ends s :
  loop_inv s -> is_Some (ls_ctx s) ->
  (forall n s', nsteps go_step n s s' -> n <= 6) /\
  (ls_pc s <> LEnd -> exists s', go_step s s').
Proof.
  intros Hr Hctx. split.
  - intros n s' Hn%go_steps_rank; [|done]. enough (rank (ls_pc s) <= 6) by lia. destruct (ls_pc s); simpl; lia.
  - intros He. apply go_step_enabled; [done..|]. pose proof (li_pc _ Hr) as Hpc. unfold pc_ok in Hpc.
    by intros E; rewrite E in Hpc.
Qed.

(** C27: the goroutine of a session and the calls, however they interleave.  They
    never panic: [readyc] is never closed twice, no call returns the nil session
    without an error, and the sessions they return are ones the daemon was granted.
    A call that nothing disturbs returns exactly what the function [Session] of the
    handlers says, or waits where it does.  And [Close] returns: once the context is
    done the goroutine ends within six of its steps, unless its one-second timers
    fire, and is never stuck before. *)
Theorem session_loop_correct s :
  rtc loop_step newEtcdSession s ->
  (ls_pc s <> LPanic /\
   (forall i o, ls_calls s !! i = Some (CDone o) ->
      (exists id, o = Ok id /\ id ∈ ls_granted s) \/ exists e, o = Err e) /\
   Session (shared s) <> Panic) /\
  (forall i o, ls_calls s !! i = Some (CWait (ls_readyc s)) ->
     (exists s', rtc (call_step i) s s' /\ ls_calls s' !! i = Some (CDone o)) <->
     Session (shared s) = o /\ o <> Diverge) /\
  (is_Some (ls_ctx s) ->
     (forall n s', nsteps go_step n s s' -> n <= 6) /\
     (ls_pc s <> LEnd -> exists s', go_step s s')).
Proof.
  intros Hr%loop_reach_inv. split_and!; [by apply loop_safe..| |by apply loop_ends].
  intros i o. apply session_call_exact.
Qed.

(** ** A run: a session, a call, and the end of the context *)

Module LoopDemo.

Definition held : loop_state := {|
  ls_pc := LHold 7; ls_s := Some 7%Z; ls_readyc := 0; ls_closed := {[0]}; ls_ctx := None;
  ls_granted := {[7%Z]}; ls_calls := ∅ |}.

Lemma held_reach : rtc loop_step newEtcdSession held.
Proof.
  eapply rtc_l; [apply l_go, (g_new _ 7%Z); [done|done|apply not_elem_of_empty]|].
  eapply rtc_l; [by apply l_go, (g_set _ 7%Z)|].
  eapply rtc_l; [by apply l_go, (g_ready _ 7%Z)|]. apply rtc_refl.
Qed.

Definition calling : loop_state := set_call 0 (CWait 0) held.
Definition called : loop_state := set_call 0 (CDone (Ok 7%Z)) (set_call 0 CRead calling).

Lemma called_reach : rtc loop_step newEtcdSession called.
Proof.
  etrans; [apply held_reach|].
  eapply rtc_l; [by apply (l_start _ 0)|].
  eapply rtc_l; [by apply (l_call _ 0), (c_ready _ _ 0)|].
  apply rtc_once. by apply (l_call _ 0), c_read.
Qed.

Lemma closing_reach : rtc loop_step newEtcdSession (cancel ErrCtx held).
Proof. eapply rtc_r; [apply held_reach|]. by apply l_cancel. Qed.

End LoopDemo.

Example calling_returns :
  exists s', rtc (call_step 0) LoopDemo.calling s' /\ ls_calls s' !! 0 = Some (CDone (Ok 7%Z)).
Proof. apply (session_call_exact LoopDemo.calling 0 (Ok 7%Z) eq_refl). by split. Defined.

Lemma session_loop_correct_witness :
  ((exists id, Ok 7%Z = Ok id /\ id ∈ ls_granted LoopDemo.called) \/ exists e, Ok 7%Z = Err e) /\
  (exists s', go_step (cancel ErrCtx LoopDemo.held) s').
Proof.
  split.
  - exact (proj1 (proj2 (proj1 (session_loop_correct LoopDemo.called LoopDemo.called_reach))) 0 (Ok 7%Z) eq_refl).
  - apply (session_loop_correct (cancel ErrCtx LoopDemo.held) LoopDemo.closing_reach); [by eexists|discriminate].
Defined.
