(* ===== verification/Rep.v ===== *)
(** * How a snapshot of etcd represents a network

    Every entity of a network has a key; a snapshot represents the network when
    it has, under the key of every entity, its gob encoding and the lease of the
    session the entity belongs to, and nothing else under keys of these kinds.
    The file also has the rules to run a closure of the STM on a represented
    network. *)

From S2P Require Import Prelude GoLib Mode Msg User Channel Key Etcd Stm Net Client.

(** ** Keys *)

Inductive Key :=
  | KUserCtl (nick : string)
  | KUserMsg (nick : string)
  | KChanCtl (ch : string)
  | KChanMsg (ch : string)
  | KChanNicks (ch : string) (l : Z)
  | KOperCtl (login : string).

Global Instance Key_eq_dec : EqDecision Key.
Proof. solve_decision. Defined.

Global Arguments Key_eq_dec : simpl never.

Definition key_str (k : Key) : string :=
  match k with
  | KUserCtl nick => keyUserCtl nick
  | KUserMsg nick => keyUserMsg nick
  | KChanCtl ch => keyChanCtl ch
  | KChanMsg ch => keyChanMsg ch
  | KChanNicks ch l => keyChanNicks ch l
  | KOperCtl login => keyOperCtl login
  end.

Global Instance key_str_inj : Inj (=) (=) key_str.
Proof.
  intros [] []; simpl; intros E; first [by apply (inj _) in E as ->|by apply (inj2 _) in E as [-> ->]
    |exfalso; revert E; key_discriminate].
Qed.

Global Arguments Get_ : simpl never.
Global Arguments Rev_ : simpl never.
Global Arguments Put_ : simpl never.
Global Arguments Del_ : simpl never.
Global Arguments decode : simpl never.
Global Arguments stm_bind : simpl never.
Global Arguments stm_ret : simpl never.
Global Arguments stm_mbind : simpl never.

(** The leases of users and of their boxes follow from the network as long as every
    client acts under the session of its user; those of the other keys always do. *)
Definition held (d : discipline) (k : Key) (P : Prop) : Prop :=
  match k with KUserCtl _ | KUserMsg _ => if_owned d P | _ => P end.

Lemma held_mono d k (P Q : Prop) : (P -> Q) -> held d k P -> held d k Q.
Proof. intros HPQ. destruct k, d; simpl; auto. Qed.

Lemma held_intro d k (P : Prop) : P -> held d k P.
Proof. intros HP. by destruct k, d. Qed.

Lemma held_owned d k (P : Prop) : held d k P -> if_owned d P.
Proof. by destruct k, d. Qed.

Lemma held_all k (P : Prop) : held Owned k P <-> P.
Proof. by destruct k. Qed.

Section rep.
Context {dc : discipline}.
Context `{Gob Message, Gob UserValue, Gob ChannelCtl, Gob ChannelNicks, Gob OperValue}.

(** ** Representation *)

(** The value and the lease of an entity; 0 is no lease. *)
Definition net_at (n : Net) (k : Key) : option (string * Z) :=
  match k with
  | KUserCtl nick => (fun uv => (encodeUserValue uv, uv_Lease uv)) <$> n_users n !! nick
  | KUserMsg nick =>
    (fun m => (match m with Some m => encodeMessage m | None => "" end,
               match n_users n !! nick with Some uv => uv_Lease uv | None => 0%Z end))
      <$> n_userMsg n !! nick
  | KChanCtl ch => (fun cc => (encodeChannelCtl cc, 0%Z)) <$> n_chans n !! ch
  | KChanMsg ch => (fun m => (encodeMessage m, 0%Z)) <$> n_chanMsg n !! ch
  | KChanNicks ch l => (fun cns => (encodeChannelNicks {| cns_Nicks := cns |}, l)) <$> n_members n !! (ch, l)
  | KOperCtl login => (fun ov => (encodeOperValue ov, 0%Z)) <$> n_opers n !! login
  end.

Definition rep_kv (k : Key) (kv : KeyValue) (vl : string * Z) : Prop :=
  kv_Value kv = vl.1 /\ held dc k (kv_Lease kv = vl.2) /\ (0 < kv_ModRevision kv)%Z.

Definition represents (s : snapshot) (n : Net) : Prop :=
  forall k, option_Forall2 (rep_kv k) (s !! key_str k) (net_at n k).
Local Notation rep := represents.

(** What a closure reads of a key. *)
Definition net_val (n : Net) (k : Key) : string :=
  match net_at n k with Some (v, _) => v | None => "" end.

Lemma rep_value s n k : rep s n -> value_at s (key_str k) = net_val n k.
Proof.
  intros Hr. unfold value_at, net_val. specialize (Hr k).
  by destruct Hr as [kv [v l] [? _]|].
Qed.

Lemma rep_rev s n k : rep s n -> (rev_at s (key_str k) =? 0)%Z = bool_decide (net_at n k = None).
Proof.
  intros Hr. unfold rev_at. specialize (Hr k). destruct Hr as [kv [v l] (_&_&?)|].
  - rewrite bool_decide_false by done. apply Z.eqb_neq. lia.
  - by rewrite bool_decide_true.
Qed.

Lemma rep_empty : rep ∅ net_empty.
Proof. intros []; simpl; rewrite !lookup_empty; constructor. Qed.

(** ** Running a closure at one instant *)

(** [atomic] without the set of keys read. *)
Definition arun {A} (p : stm A) (s : snapshot) (ws : gmap string stmPut) : outcome A * gmap string stmPut :=
  (atomic p s ws ∅).1.

Definition read (s : snapshot) (ws : gmap string stmPut) (k : string) : string :=
  match ws !! k with Some p => sp_val p | None => value_at s k end.

Lemma arun_bind {A B} (p : stm A) (f : A -> stm B) s ws :
  arun (p ≫= f) s ws =
  match arun p s ws with
  | (Ok a, ws') => arun (f a) s ws'
  | (Err e, ws') => (Err e, ws')
  | (Panic, ws') => (Panic, ws')
  | (Exit, ws') => (Exit, ws')
  | (Diverge, ws') => (Diverge, ws')
  end.
Proof.
  unfold arun, mbind, stm_mbind.
  revert ws. induction p as [o|key k IH|key k IH|key val l k IH|key k IH]; intros ws; simpl.
  - by destruct o.
  - destruct (ws !! key); [apply IH|].
    rewrite atomic_rs, (atomic_rs (k _)). simpl. apply IH.
  - rewrite atomic_rs, (atomic_rs (k _)). simpl. apply IH.
  - apply IH.
  - apply IH.
Qed.

Lemma arun_mret {A} (a : A) s ws : arun (mret a) s ws = (Ok a, ws).
Proof. done. Qed.

Lemma arun_ret {A} (o : outcome A) s ws : arun (SRet o) s ws = (o, ws).
Proof. done. Qed.

Lemma arun_decode {A} (d : string -> option A) v s ws :
  arun (decode d v) s ws = (or_err ErrDecode (d v), ws).
Proof. done. Qed.

Lemma arun_Get k s ws : arun (Get_ k) s ws = (Ok (read s ws k), ws).
Proof. unfold arun, read, Get_. simpl. by destruct (ws !! k). Qed.

Lemma arun_Rev k s ws : arun (Rev_ k) s ws = (Ok (rev_at s k), ws).
Proof. done. Qed.

Lemma arun_Put k v l s ws :
  arun (Put_ k v l) s ws = (Ok (), <[k := {| sp_val := v; sp_op := OpPut k v l |}]> ws).
Proof. done. Qed.

Lemma arun_Del k s ws :
  arun (Del_ k) s ws = (Ok (), <[k := {| sp_val := ""; sp_op := OpDelete k |}]> ws).
Proof. done. Qed.

(** ** Pending writes *)

(** A write the store accepts: one that does not ask for a lease, asks for that
    of the session, or keeps the lease of a key that is there. *)
Definition write_ok (lid : Z) (s : snapshot) (k : string) (p : stmPut) : Prop :=
  k <> "" /\
  ((exists l, sp_op p = OpPut k (sp_val p) l /\
     if_owned dc (l = NoLease \/ l = WithLease lid \/ l = WithIgnoreLease /\ is_Some (s !! k))) \/
   sp_op p = OpDelete k /\ sp_val p = "").

(** The snapshot a closure sees and would commit, at revision [rev]. *)
Definition view (rev : Z) (s : snapshot) (ws : gmap string stmPut) : snapshot :=
  write_snap rev s (sp_op <$> ws).

Lemma lookup_view rev s ws k :
  view rev s ws !! k = match ws !! k with Some p => op_at rev s (sp_op p) | None => s !! k end.
Proof. unfold view. rewrite lookup_write_snap, lookup_fmap. by destruct (ws !! k). Qed.

(** The closure has made, with at most [w] writes, the network [n0] into [n]. *)
Record pend (w : nat) (rev lid : Z) (s : snapshot) (n0 : Net) (ws : gmap string stmPut) (n : Net) : Prop := {
  pend_size : size ws <= w;
  pend_rev : (0 < rev)%Z;
  pend_rep0 : rep s n0;
  pend_rep : rep (view rev s ws) n;
  pend_ws : map_Forall (write_ok lid s) ws;
}.

Lemma pend_init rev lid s n : (0 < rev)%Z -> rep s n -> pend 0 rev lid s n ∅ n.
Proof.
  intros Hr Hn. split; [by rewrite map_size_empty|done|done| |by apply map_Forall_empty].
  intros k. rewrite lookup_view, lookup_empty. apply Hn.
Qed.

Lemma pend_read w rev lid s n0 ws n k :
  pend w rev lid s n0 ws n -> read s ws (key_str k) = net_val n k.
Proof.
  intros Hp. rewrite <-(rep_value _ _ k (pend_rep _ _ _ _ _ _ _ Hp)).
  unfold read, value_at. rewrite lookup_view. destruct (ws !! key_str k) as [p|] eqn:E; [|done].
  destruct (pend_ws _ _ _ _ _ _ _ Hp _ _ E) as [_ [(l&->&_)|[-> ->]]]; done.
Qed.

Lemma pend_rev_at w rev lid s n0 ws n k :
  pend w rev lid s n0 ws n -> (rev_at s (key_str k) =? 0)%Z = bool_decide (net_at n0 k = None).
Proof. intros Hp. apply rep_rev, Hp. Qed.

(** The lease a put leaves on its key. *)
Definition lease_of (lid : Z) (n0 : Net) (k : Key) (l : PutLease) (z : Z) : Prop :=
  held dc k match l with
           | NoLease => z = 0%Z
           | WithLease id => id = lid /\ z = lid
           | WithIgnoreLease => exists v, net_at n0 k = Some (v, z)
           end.

(** Two views of an entity that represent the same, whatever lease is left open. *)
Definition same_at (k : Key) (o o' : option (string * Z)) : Prop :=
  fst <$> o = fst <$> o' /\ held dc k (o = o').

Lemma same_at_eq k o o' : o = o' -> same_at k o o'.
Proof. intros ->. split; [done|by apply held_intro]. Qed.

Lemma rep_kv_same k (o : option KeyValue) o1 o2 :
  same_at k o2 o1 -> option_Forall2 (rep_kv k) o o1 -> option_Forall2 (rep_kv k) o o2.
Proof.
  intros [Hv Hl] Ho. destruct Ho as [kv [v1 z1] (Hv1&Hz1&Hm)|]; destruct o2 as [[v2 z2]|]; simplify_eq/=; [|constructor].
  constructor. split_and!; [done| |done]. destruct k; simpl in *; try congruence; destruct dc; simpl in *; try done; congruence.
Qed.

Lemma key_str_not_empty k : key_str k <> "".
Proof. by destruct k. Qed.

Lemma pend_put w rev lid s n0 ws n k v l z n' :
  pend w rev lid s n0 ws n -> lease_of lid n0 k l z ->
  (forall k', same_at k' (net_at n' k') (if decide (k' = k) then Some (v, z) else net_at n k')) ->
  pend (S w) rev lid s n0 (<[key_str k := {| sp_val := v; sp_op := OpPut (key_str k) v l |}]> ws) n'.
Proof.
  intros Hp Hl Hn'. pose proof (pend_rep0 _ _ _ _ _ _ _ Hp k) as Hk0. split; try apply Hp; [eapply size_insert_le, Hp|..].
  - intros k'. rewrite lookup_view. eapply rep_kv_same; [apply Hn'|]. case_decide as Hk.
    + subst k'. rewrite lookup_insert_eq. simpl. constructor.
      split_and!; simpl; [done| |apply Hp]. unfold lease_of in Hl.
      assert (option_Forall2 (fun kv vl => held dc k (kv_Lease kv = vl.2)) (s !! key_str k) (net_at n0 k)) as Hk1
        by (destruct Hk0 as [kv vl (_&?&_)|]; by constructor).
      clear -Hl Hk1. revert Hl Hk1. destruct k, dc; simpl; try done; intros Hl Hk1; destruct l; simpl;
        first [by rewrite Hl|by destruct Hl as [-> ->]|destruct Hl as [v' E]; rewrite E in Hk1; by inversion Hk1].
    + rewrite lookup_insert_ne by (intros E; by apply (inj key_str) in E).
      rewrite <-lookup_view. apply Hp.
  - apply map_Forall_insert_2; [|apply Hp]. split; [apply key_str_not_empty|]. left. exists l.
    split; [done|]. apply held_owned in Hl. revert Hl. apply if_owned_mono. intros Hl. destruct l; simpl in Hl.
    + by left.
    + right; left. by destruct Hl as [-> _].
    + right; right. split; [done|]. destruct Hl as [v' E]. rewrite E in Hk0.
      inversion Hk0 as [kv vl ? Hkv|]. by eexists.
Qed.

Lemma pend_del w rev lid s n0 ws n k n' :
  pend w rev lid s n0 ws n ->
  (forall k', net_at n' k' = if decide (k' = k) then None else net_at n k') ->
  pend (S w) rev lid s n0 (<[key_str k := {| sp_val := ""; sp_op := OpDelete (key_str k) |}]> ws) n'.
Proof.
  intros Hp Hn'. split; try apply Hp; [eapply size_insert_le, Hp|..].
  - intros k'. rewrite lookup_view, Hn'. case_decide as Hk.
    + subst k'. rewrite lookup_insert_eq. constructor.
    + rewrite lookup_insert_ne by (intros E; by apply (inj key_str) in E).
      rewrite <-lookup_view. apply Hp.
  - apply map_Forall_insert_2; [|apply Hp]. split; [apply key_str_not_empty|]. by right.
Qed.

(** *** One lemma for each kind of write *)

Lemma pend_put_user w rev lid s n0 ws n nick uv l :
  pend w rev lid s n0 ws n -> lease_of lid n0 (KUserCtl nick) l (uv_Lease uv) ->
  if_owned dc (forall uv0, n_users n !! nick = Some uv0 -> uv_Lease uv0 = uv_Lease uv) ->
  if_owned dc (is_Some (n_users n !! nick) \/ n_userMsg n !! nick = None) ->
  pend (S w) rev lid s n0 (<[keyUserCtl nick := {| sp_val := encodeUserValue uv;
    sp_op := OpPut (keyUserCtl nick) (encodeUserValue uv) l |}]> ws) (put_user nick uv n).
Proof.
  intros Hp Hl Hsame Hmsg. eapply (pend_put _ _ _ _ _ _ _ (KUserCtl nick)); [done..|].
  intros [k|k|k|k|k l'|k]; [apply same_at_eq| |apply same_at_eq..]; simpl; rewrite ?decide_False by done; try done.
  - destruct (decide (k = nick)) as [->|].
    + rewrite decide_True by done. by rewrite lookup_insert_eq.
    + rewrite decide_False by congruence. by rewrite lookup_insert_ne.
  - split; simpl; [by destruct (n_userMsg n !! k)|]. destruct dc; [|done]. simpl in *. destruct (decide (k = nick)) as [->|].
    + rewrite lookup_insert_eq. destruct Hmsg as [[uv0 Hu]| ->]; [|done].
      by rewrite Hu, (Hsame uv0 Hu).
    + by rewrite lookup_insert_ne.
Qed.

Ltac put_at :=
  apply same_at_eq; simpl; rewrite ?decide_False by done; try done;
  match goal with |- context [decide (?c ?k = ?c ?k')] => destruct (decide (k = k')) as [->|];
    [rewrite decide_True by done; by rewrite ?lookup_insert_eq
    |rewrite decide_False by congruence; by rewrite ?lookup_insert_ne] end.

Lemma pend_put_userMsg w rev lid s n0 ws n nick m l uv :
  pend w rev lid s n0 ws n -> n_users n !! nick = Some uv ->
  lease_of lid n0 (KUserMsg nick) l (uv_Lease uv) ->
  pend (S w) rev lid s n0 (<[keyUserMsg nick := {| sp_val := encodeMessage m;
    sp_op := OpPut (keyUserMsg nick) (encodeMessage m) l |}]> ws) (put_userMsg nick (Some m) n).
Proof.
  intros Hp Hu Hl. eapply (pend_put _ _ _ _ _ _ _ (KUserMsg nick)); [done..|].
  intros [k|k|k|k|k l'|k]; apply same_at_eq; simpl; rewrite ?decide_False by done; try done.
  destruct (decide (k = nick)) as [->|].
  - rewrite decide_True by done. by rewrite lookup_insert_eq, Hu.
  - rewrite decide_False by congruence. by rewrite lookup_insert_ne.
Qed.

Lemma pend_put_chan w rev lid s n0 ws n ch cc l :
  pend w rev lid s n0 ws n -> lease_of lid n0 (KChanCtl ch) l 0 ->
  pend (S w) rev lid s n0 (<[keyChanCtl ch := {| sp_val := encodeChannelCtl cc;
    sp_op := OpPut (keyChanCtl ch) (encodeChannelCtl cc) l |}]> ws) (put_chan ch cc n).
Proof.
  intros Hp Hl. eapply (pend_put _ _ _ _ _ _ _ (KChanCtl ch)); [done..|].
  intros [k|k|k|k|k l'|k]; put_at.
Qed.

Lemma pend_put_chanMsg w rev lid s n0 ws n ch m l :
  pend w rev lid s n0 ws n -> lease_of lid n0 (KChanMsg ch) l 0 ->
  pend (S w) rev lid s n0 (<[keyChanMsg ch := {| sp_val := encodeMessage m;
    sp_op := OpPut (keyChanMsg ch) (encodeMessage m) l |}]> ws) (put_chanMsg ch m n).
Proof.
  intros Hp Hl. eapply (pend_put _ _ _ _ _ _ _ (KChanMsg ch)); [done..|].
  intros [k|k|k|k|k l'|k]; put_at.
Qed.

Lemma pend_put_members w rev lid s n0 ws n ch z cns l :
  pend w rev lid s n0 ws n -> lease_of lid n0 (KChanNicks ch z) l z ->
  pend (S w) rev lid s n0 (<[keyChanNicks ch z := {| sp_val := encodeChannelNicks cns;
    sp_op := OpPut (keyChanNicks ch z) (encodeChannelNicks cns) l |}]> ws)
    (put_members (ch, z) (cns_Nicks cns) n).
Proof.
  intros Hp Hl. eapply (pend_put _ _ _ _ _ _ _ (KChanNicks ch z)); [done..|].
  intros [k|k|k|k|k l'|k]; apply same_at_eq; simpl; rewrite ?decide_False by done; try done.
  destruct (decide ((k, l') = (ch, z))) as [[= -> ->]|].
  - rewrite decide_True by done. rewrite lookup_insert_eq. by destruct cns.
  - rewrite decide_False by congruence. by rewrite lookup_insert_ne.
Qed.

Lemma pend_del_user w rev lid s n0 ws n nick :
  pend w rev lid s n0 ws n ->
  pend (S (S w)) rev lid s n0
    (<[keyUserMsg nick := {| sp_val := ""; sp_op := OpDelete (keyUserMsg nick) |}]>
    (<[keyUserCtl nick := {| sp_val := ""; sp_op := OpDelete (keyUserCtl nick) |}]> ws))
    (del_user nick n).
Proof.
  intros Hp.
  set (n1 := set_users (delete nick (n_users n)) n).
  split; try apply Hp; [do 2 eapply size_insert_le; apply Hp|..].
  - intros k. rewrite lookup_view.
    destruct (decide (k = KUserMsg nick)) as [->|Hk1].
    { simpl. rewrite lookup_insert_eq, !lookup_delete_eq. constructor. }
    rewrite lookup_insert_ne by (intros E; by apply (inj key_str (KUserMsg nick)) in E).
    destruct (decide (k = KUserCtl nick)) as [->|Hk2].
    { simpl. rewrite lookup_insert_eq, lookup_delete_eq. constructor. }
    rewrite lookup_insert_ne by (intros E; by apply (inj key_str (KUserCtl nick)) in E).
    rewrite <-lookup_view. pose proof (pend_rep _ _ _ _ _ _ _ Hp k) as Hr.
    destruct k as [k|k|k|k|k l'|k]; simpl in *; try done;
      by rewrite ?lookup_delete_ne by congruence.
  - apply map_Forall_insert_2; [split; [done|by right]|].
    apply map_Forall_insert_2; [split; [done|by right]|apply Hp].
Qed.

(** ** Committing *)

Lemma wset_puts_ops (ws : gmap string stmPut) : wset_puts ws = (map_to_list (sp_op <$> ws)).*2.
Proof.
  unfold wset_puts. rewrite map_to_list_fmap, <-list_fmap_compose. apply list_fmap_ext.
  by intros ? [k p] ?.
Qed.

(** A closure writes under the keys it names. *)
Lemma atomic_keys {A} (p : stm A) s ws rs :
  map_Forall (fun k q => op_key (sp_op q) = k) ws ->
  map_Forall (fun k q => op_key (sp_op q) = k) (atomic p s ws rs).1.2.
Proof.
  revert ws rs. induction p as [o|key k IH|key k IH|key val l k IH|key k IH]; intros ws rs Hws; simpl.
  - done.
  - case_match; by apply IH.
  - by apply IH.
  - apply IH. by apply map_Forall_insert_2.
  - apply IH. by apply map_Forall_insert_2.
Qed.

(** What a commit leaves is what the closure wrote. *)
Lemma commits_current {V} (f : V -> stm V) v st v' tr st' :
  wf_store st -> commits f v st v' tr st' ->
  exists ws, arun (f v) (current st) ∅ = (Ok v', ws) /\ current st' = view (st_rev st + 1) (current st) ws.
Proof.
  intros Hw (ws&rs&Ea&HT). exists ws. split; [unfold arun; by rewrite Ea|].
  rewrite wset_puts_ops in HT. apply (Txn_writes st (sp_op <$> ws) tr st' Hw); [|done].
  intros k op. rewrite lookup_fmap_Some. intros (p&<-&Hk).
  pose proof (atomic_keys (f v) (current st) ∅ ∅ (map_Forall_empty _)) as Hf. rewrite Ea in Hf. by apply Hf.
Qed.

Lemma write_ok_key lid s k p : write_ok lid s k p -> op_key (sp_op p) = k.
Proof. by intros [_ [(l&->&_)|[-> _]]]. Qed.

(** A committed closure leaves a store that represents the network it made. *)
Lemma pend_committed w st lid n0 ws n tr st' :
  wf_store st -> pend w (st_rev st + 1) lid (current st) n0 ws n ->
  Txn st [] (wset_puts ws) [] = Ok (tr, st') -> rep (current st') n.
Proof.
  intros Hw Hp HT. rewrite wset_puts_ops in HT.
  rewrite (Txn_writes st (sp_op <$> ws) tr st' Hw); [apply Hp| |done].
  intros k op. rewrite lookup_fmap_Some. intros (p&<-&Hk). eapply write_ok_key, Hp, Hk.
Qed.

Lemma pend_commits w st lid n0 ws n :
  pend w (st_rev st + 1) lid (current st) n0 ws n -> dc = Owned -> lid ∈ st_leases st -> w <= MaxOpsPerTxn ->
  exists tr st', Txn st [] (wset_puts ws) [] = Ok (tr, st').
Proof.
  intros Hp Hd Hlid Hs. rewrite wset_puts_ops. apply Txn_writes_total;
    [|rewrite map_size_fmap; pose proof (pend_size _ _ _ _ _ _ _ Hp); lia].
  intros k op. rewrite lookup_fmap_Some. intros (p&<-&Hk).
  pose proof (pend_ws _ _ _ _ _ _ _ Hp k p Hk) as Hok. split; [by eapply write_ok_key|].
  unfold write_ok in Hok. rewrite Hd in Hok. cbn [if_owned] in Hok.
  destruct Hok as [Hne [(l&->&[-> | [-> | [-> [kv E]]]])|[-> _]]]; split_and!; try done; simpl.
  - rewrite (bool_decide_true (lid ∈ _)) by done. by rewrite orb_true_r.
  - by rewrite E, bool_decide_false.
Qed.

(** *** What each kind of key reads as *)

Section reads.
Context {w : nat} {rev lid : Z} {s : snapshot} {n0 : Net} {ws : gmap string stmPut} {n : Net}.
Context (Hp : pend w rev lid s n0 ws n).

Lemma read_user nick :
  read s ws (keyUserCtl nick) = match n_users n !! nick with Some uv => encodeUserValue uv | None => "" end.
Proof.
  pose proof (pend_read _ _ _ _ _ _ _ (KUserCtl nick) Hp) as E. cbn [key_str] in E. rewrite E. unfold net_val. simpl.
  by destruct (n_users n !! nick).
Qed.

Lemma read_chan ch :
  read s ws (keyChanCtl ch) = match n_chans n !! ch with Some cc => encodeChannelCtl cc | None => "" end.
Proof.
  pose proof (pend_read _ _ _ _ _ _ _ (KChanCtl ch) Hp) as E. cbn [key_str] in E. rewrite E. unfold net_val. simpl.
  by destruct (n_chans n !! ch).
Qed.

Lemma read_members ch l :
  read s ws (keyChanNicks ch l) =
  match n_members n !! (ch, l) with Some cns => encodeChannelNicks {| cns_Nicks := cns |} | None => "" end.
Proof.
  pose proof (pend_read _ _ _ _ _ _ _ (KChanNicks ch l) Hp) as E. cbn [key_str] in E. rewrite E. unfold net_val. simpl.
  by destruct (n_members n !! (ch, l)).
Qed.

Lemma read_oper login :
  read s ws (keyOperCtl login) = match n_opers n !! login with Some ov => encodeOperValue ov | None => "" end.
Proof.
  pose proof (pend_read _ _ _ _ _ _ _ (KOperCtl login) Hp) as E. cbn [key_str] in E. rewrite E. unfold net_val. simpl.
  by destruct (n_opers n !! login).
Qed.

End reads.

Lemma decodeUserValue_encode uv : decodeUserValue (encodeUserValue uv) = Some uv.
Proof. apply gob_decode_encode. Qed.
Lemma decodeChannelCtl_encode cc : decodeChannelCtl (encodeChannelCtl cc) = Some cc.
Proof. apply gob_decode_encode. Qed.
Lemma decodeChannelNicks_encode cns : decodeChannelNicks (encodeChannelNicks cns) = Some cns.
Proof. apply gob_decode_encode. Qed.
Lemma decodeMessage_encode m : decodeMessage (encodeMessage m) = Some m.
Proof. apply gob_decode_encode. Qed.
Lemma decodeOperValue_encode ov : decodeOperValue (encodeOperValue ov) = Some ov.
Proof. apply gob_decode_encode. Qed.
Lemma decodeUserValue_nil : decodeUserValue "" = None.
Proof. apply gob_decode_empty. Qed.
Lemma decodeChannelCtl_nil : decodeChannelCtl "" = None.
Proof. apply gob_decode_empty. Qed.
Lemma decodeChannelNicks_nil : decodeChannelNicks "" = None.
Proof. apply gob_decode_empty. Qed.
Lemma decodeOperValue_nil : decodeOperValue "" = None.
Proof. apply gob_decode_empty. Qed.

Lemma cns_del_drop cns nick : (cns_del cns nick).1 = {| cns_Nicks := drop_nick nick (cns_Nicks cns) |}.
Proof.
  unfold cns_del, drop_nick. destruct cns as [l]. simpl.
  assert (cns_del_loop l nick = (remove_first (fun cn => bool_decide (nick = cn_Nick cn)) l,
                                 (cns_del_loop l nick).2)) as ->; [|done].
  induction l as [|u l IH]; simpl; [done|]. rewrite (bool_decide_ext (nick = _) (cn_Nick u = nick)) by done.
  case_bool_decide; [done|]. by rewrite IH.
Qed.

(** An encoding is never the value of an absent key. *)
Lemma bool_decide_encode {A} `{Gob A} (a : A) : bool_decide (gob_encode a = "") = false.
Proof. apply bool_decide_eq_false, gob_encode_not_empty. Qed.

(** ** Implementing a command

    [p] implements [spec]: on a store that represents a network where [pre]
    holds, [p] fails to decode a value where [spec] has no result; where it has
    one, [p] gives a value that means it, a commit leaves a store that represents
    the new network, and the store accepts the commit when the session lives and
    the writes, of which there are at most [writes], are not too many. *)
Definition implements_in (lid : Z) {V R} (p : stm V) (pre : Net -> Prop)
    (spec : Net -> option (R * Net)) (out : V -> R -> Prop) (writes : Net -> nat) : Prop :=
  forall st n, wf_store st -> rep (current st) n -> pre n ->
  match spec n with
  | None => (atomic p (current st) ∅ ∅).1.1 = Err ErrDecode
  | Some (r, n') =>
    exists v ws, (atomic p (current st) ∅ ∅).1 = (Ok v, ws) /\ out v r /\
      (forall tr st', Txn st [] (wset_puts ws) [] = Ok (tr, st') -> rep (current st') n') /\
      if_owned dc (lid ∈ st_leases st -> writes n <= MaxOpsPerTxn ->
       exists tr st', Txn st [] (wset_puts ws) [] = Ok (tr, st'))
  end.
Local Notation implements := implements_in.

(** What is left to run. *)
Definition runs_to (w : nat) (rev lid : Z) (s : snapshot) (n0 : Net) {V R}
    (res : outcome V * gmap string stmPut) (spec : option (R * Net)) (out : V -> R -> Prop) : Prop :=
  match spec with
  | None => res.1 = Err ErrDecode
  | Some (r, n') => exists v ws, res = (Ok v, ws) /\ out v r /\ pend w rev lid s n0 ws n'
  end.

Lemma implements_intro lid {V R} (p : stm V) pre (spec : Net -> option (R * Net)) out writes :
  (forall rev s n, pend 0 rev lid s n ∅ n -> pre n ->
     runs_to (writes n) rev lid s n (arun p s ∅) (spec n) out) ->
  implements lid p pre spec out writes.
Proof.
  intros Hrun st n Hw Hn Hpre. pose proof (wf_store_rev st Hw).
  assert (0 < st_rev st + 1)%Z as Hrev by lia.
  specialize (Hrun (st_rev st + 1)%Z (current st) n (pend_init _ _ _ _ Hrev Hn) Hpre).
  unfold runs_to, arun in Hrun. destruct (spec n) as [[r n']|]; [|done].
  destruct Hrun as (v&ws&Hres&Hout&Hp). exists v, ws. split_and!; [done|done| |].
  - intros tr st' HT. by eapply pend_committed.
  - destruct dc eqn:Ed; [|done]. intros Hl Hs. by eapply pend_commits.
Qed.

(** *** The rules *)

Section rules.
Context {rev lid : Z} {s : snapshot} {n0 : Net} {V R : Type} {out : V -> R -> Prop}.
Context {w w' : nat} {ws : gmap string stmPut} {n : Net} {spec : option (R * Net)}.

Lemma pend_le : w <= w' -> pend w rev lid s n0 ws n -> pend w' rev lid s n0 ws n.
Proof. intros Hw Hp. split; try apply Hp. pose proof (pend_size _ _ _ _ _ _ _ Hp). lia. Qed.

Lemma run_ret (v : V) (r : R) :
  pend w rev lid s n0 ws n -> out v r -> w <= w' ->
  runs_to w' rev lid s n0 (arun (mret v) s ws) (Some (r, n)) out.
Proof. intros Hp Ho Hw. exists v, ws. split_and!; [done|done|by apply pend_le]. Qed.

Lemma run_assoc {A B} (p : stm A) (g : A -> stm B) (f : B -> stm V) :
  runs_to w' rev lid s n0 (arun (p ≫= fun a => g a ≫= f) s ws) spec out ->
  runs_to w' rev lid s n0 (arun ((p ≫= g) ≫= f) s ws) spec out.
Proof. rewrite !arun_bind. destruct (arun p s ws) as [[] ?]; try done. by rewrite arun_bind. Qed.

Lemma run_last (p : stm V) :
  runs_to w' rev lid s n0 (arun (p ≫= mret) s ws) spec out ->
  runs_to w' rev lid s n0 (arun p s ws) spec out.
Proof. rewrite arun_bind. by destruct (arun p s ws) as [[] ?]. Qed.

Lemma run_mret {A} (a : A) (f : A -> stm V) :
  runs_to w' rev lid s n0 (arun (f a) s ws) spec out ->
  runs_to w' rev lid s n0 (arun (mret a ≫= f) s ws) spec out.
Proof. done. Qed.

(** A decoder applied to what was read: the value, or the end of the run. *)
Lemma run_decode {A} `{Gob A} (o : option A) (f : A -> stm V) (spec' : A -> option (R * Net)) :
  (forall a, o = Some a -> runs_to w' rev lid s n0 (arun (f a) s ws) (spec' a) out) ->
  runs_to w' rev lid s n0
    (arun (decode gob_decode (match o with Some a => gob_encode a | None => "" end) ≫= f) s ws)
    (o ≫= spec') out.
Proof.
  intros Hf. rewrite arun_bind, arun_decode. destruct o as [a|].
  - rewrite gob_decode_encode. simpl. by apply Hf.
  - rewrite gob_decode_empty. done.
Qed.

(** The same for a list of members. *)
Lemma run_decode_members (o : option (list ChannelNick)) (f : ChannelNicks -> stm V)
    (spec' : list ChannelNick -> option (R * Net)) :
  (forall l, o = Some l -> runs_to w' rev lid s n0 (arun (f {| cns_Nicks := l |}) s ws) (spec' l) out) ->
  runs_to w' rev lid s n0
    (arun (decode decodeChannelNicks
       (match o with Some l => encodeChannelNicks {| cns_Nicks := l |} | None => "" end) ≫= f) s ws)
    (o ≫= spec') out.
Proof.
  intros Hf. rewrite arun_bind, arun_decode. destruct o as [l|].
  - unfold decodeChannelNicks, encodeChannelNicks. rewrite gob_decode_encode. simpl. by apply Hf.
  - unfold decodeChannelNicks. rewrite gob_decode_empty. done.
Qed.

(** A value that is made when it is missing. *)
Lemma run_default {A} `{Gob A} (o : option A) (d : A) (f : A -> stm V) :
  runs_to w' rev lid s n0 (arun (f (default d o)) s ws) spec out ->
  runs_to w' rev lid s n0
    (arun ((if bool_decide (match o with Some a => gob_encode a | None => "" end = "") then mret d
            else decode gob_decode (match o with Some a => gob_encode a | None => "" end)) ≫= f) s ws)
    spec out.
Proof.
  destruct o as [a|]; simpl; [|done].
  rewrite bool_decide_encode, arun_bind, arun_decode, gob_decode_encode. done.
Qed.

Lemma run_default_members (o : option (list ChannelNick)) (f : ChannelNicks -> stm V) :
  runs_to w' rev lid s n0 (arun (f {| cns_Nicks := default [] o |}) s ws) spec out ->
  runs_to w' rev lid s n0
    (arun ((if bool_decide
                 (match o with Some l => encodeChannelNicks {| cns_Nicks := l |} | None => "" end = "")
            then mret {| cns_Nicks := [] |}
            else decode decodeChannelNicks
              (match o with Some l => encodeChannelNicks {| cns_Nicks := l |} | None => "" end)) ≫= f) s ws)
    spec out.
Proof.
  unfold decodeChannelNicks, encodeChannelNicks. destruct o as [a|]; simpl; [|done].
  rewrite bool_decide_encode, arun_bind, arun_decode, gob_decode_encode. done.
Qed.

Lemma run_decode_some {A} `{Gob A} (a : A) (f : A -> stm V) :
  runs_to w' rev lid s n0 (arun (f a) s ws) spec out ->
  runs_to w' rev lid s n0 (arun (decode gob_decode (gob_encode a) ≫= f) s ws) spec out.
Proof. by rewrite arun_bind, arun_decode, gob_decode_encode. Qed.

(** A value whose absence ends the closure. *)
Lemma run_value {A} `{Gob A} (o : option A) (p : stm V) (f : A -> stm V) :
  match o with
  | None => runs_to w' rev lid s n0 (arun p s ws) spec out
  | Some a => runs_to w' rev lid s n0 (arun (f a) s ws) spec out
  end ->
  runs_to w' rev lid s n0
    (arun (if bool_decide (match o with Some a => gob_encode a | None => "" end = "") then p
           else decode gob_decode (match o with Some a => gob_encode a | None => "" end) ≫= f) s ws)
    spec out.
Proof.
  destruct o as [a|]; [|done].
  rewrite bool_decide_encode, arun_bind, arun_decode, gob_decode_encode. done.
Qed.

(** A list of members that is only changed when it is there. *)
Lemma run_if_members (o : option (list ChannelNick)) (g : ChannelNicks -> stm unit) (f : unit -> stm V) :
  match o with
  | None => runs_to w' rev lid s n0 (arun (f ()) s ws) spec out
  | Some l => runs_to w' rev lid s n0 (arun (g {| cns_Nicks := l |} ≫= f) s ws) spec out
  end ->
  runs_to w' rev lid s n0
    (arun ((if bool_decide
                 (match o with Some l => encodeChannelNicks {| cns_Nicks := l |} | None => "" end = "")
            then mret ()
            else decode decodeChannelNicks
              (match o with Some l => encodeChannelNicks {| cns_Nicks := l |} | None => "" end) ≫= g) ≫= f) s ws)
    spec out.
Proof.
  unfold decodeChannelNicks, encodeChannelNicks. destruct o as [l|]; [|done].
  rewrite bool_decide_encode, !arun_bind, arun_decode, gob_decode_encode. done.
Qed.

Section reading.
Context (Hp : pend w rev lid s n0 ws n).

Lemma run_Get_user nick (f : string -> stm V) :
  runs_to w' rev lid s n0
    (arun (f (match n_users n !! nick with Some uv => encodeUserValue uv | None => "" end)) s ws) spec out ->
  runs_to w' rev lid s n0 (arun (Get_ (keyUserCtl nick) ≫= f) s ws) spec out.
Proof. by rewrite arun_bind, arun_Get, (read_user Hp). Qed.

Lemma run_Get_chan ch (f : string -> stm V) :
  runs_to w' rev lid s n0
    (arun (f (match n_chans n !! ch with Some cc => encodeChannelCtl cc | None => "" end)) s ws) spec out ->
  runs_to w' rev lid s n0 (arun (Get_ (keyChanCtl ch) ≫= f) s ws) spec out.
Proof. by rewrite arun_bind, arun_Get, (read_chan Hp). Qed.

Lemma run_Get_members ch l (f : string -> stm V) :
  runs_to w' rev lid s n0
    (arun (f (match n_members n !! (ch, l) with
              | Some cns => encodeChannelNicks {| cns_Nicks := cns |} | None => "" end)) s ws) spec out ->
  runs_to w' rev lid s n0 (arun (Get_ (keyChanNicks ch l) ≫= f) s ws) spec out.
Proof. by rewrite arun_bind, arun_Get, (read_members Hp). Qed.

Lemma run_Get_oper login (f : string -> stm V) :
  runs_to w' rev lid s n0
    (arun (f (match n_opers n !! login with Some ov => encodeOperValue ov | None => "" end)) s ws) spec out ->
  runs_to w' rev lid s n0 (arun (Get_ (keyOperCtl login) ≫= f) s ws) spec out.
Proof. by rewrite arun_bind, arun_Get, (read_oper Hp). Qed.

(** What [Rev] says: whether the entity was there when the closure started. *)
Lemma run_Rev k (f : Z -> stm V) :
  (forall z, (z =? 0)%Z = match net_at n0 k with Some _ => false | None => true end ->
     runs_to w' rev lid s n0 (arun (f z) s ws) spec out) ->
  runs_to w' rev lid s n0 (arun (Rev_ (key_str k) ≫= f) s ws) spec out.
Proof.
  intros Hf. rewrite arun_bind, arun_Rev. apply Hf. erewrite pend_rev_at by done.
  by destruct (net_at n0 k).
Qed.

Lemma run_Put_user nick uv l (f : unit -> stm V) :
  lease_of lid n0 (KUserCtl nick) l (uv_Lease uv) ->
  (exists uv0, n_users n !! nick = Some uv0 /\ uv_Lease uv0 = uv_Lease uv) ->
  (forall ws', pend (S w) rev lid s n0 ws' (put_user nick uv n) ->
     runs_to w' rev lid s n0 (arun (f ()) s ws') spec out) ->
  runs_to w' rev lid s n0 (arun (Put_ (keyUserCtl nick) (encodeUserValue uv) l ≫= f) s ws) spec out.
Proof.
  intros Hl (uv0&Hu&Hsame) Hf. rewrite arun_bind, arun_Put. apply Hf.
  apply pend_put_user; [done|done|apply if_owned_intro|apply if_owned_intro; left; by eexists].
  intros uv1 Hu1. congruence.
Qed.

Lemma run_Put_userMsg nick m l uv (f : unit -> stm V) :
  n_users n !! nick = Some uv -> lease_of lid n0 (KUserMsg nick) l (uv_Lease uv) ->
  (forall ws', pend (S w) rev lid s n0 ws' (put_userMsg nick (Some m) n) ->
     runs_to w' rev lid s n0 (arun (f ()) s ws') spec out) ->
  runs_to w' rev lid s n0 (arun (Put_ (keyUserMsg nick) (encodeMessage m) l ≫= f) s ws) spec out.
Proof. intros Hu Hl Hf. rewrite arun_bind, arun_Put. apply Hf. by eapply pend_put_userMsg. Qed.

Lemma run_Put_chan ch cc l (f : unit -> stm V) :
  lease_of lid n0 (KChanCtl ch) l 0 ->
  (forall ws', pend (S w) rev lid s n0 ws' (put_chan ch cc n) ->
     runs_to w' rev lid s n0 (arun (f ()) s ws') spec out) ->
  runs_to w' rev lid s n0 (arun (Put_ (keyChanCtl ch) (encodeChannelCtl cc) l ≫= f) s ws) spec out.
Proof. intros Hl Hf. rewrite arun_bind, arun_Put. apply Hf. by apply pend_put_chan. Qed.

Lemma run_Put_chanMsg ch m l (f : unit -> stm V) :
  lease_of lid n0 (KChanMsg ch) l 0 ->
  (forall ws', pend (S w) rev lid s n0 ws' (put_chanMsg ch m n) ->
     runs_to w' rev lid s n0 (arun (f ()) s ws') spec out) ->
  runs_to w' rev lid s n0 (arun (Put_ (keyChanMsg ch) (encodeMessage m) l ≫= f) s ws) spec out.
Proof. intros Hl Hf. rewrite arun_bind, arun_Put. apply Hf. by apply pend_put_chanMsg. Qed.

Lemma run_Put_members ch z cns l (f : unit -> stm V) :
  lease_of lid n0 (KChanNicks ch z) l z ->
  (forall ws', pend (S w) rev lid s n0 ws' (put_members (ch, z) (cns_Nicks cns) n) ->
     runs_to w' rev lid s n0 (arun (f ()) s ws') spec out) ->
  runs_to w' rev lid s n0 (arun (Put_ (keyChanNicks ch z) (encodeChannelNicks cns) l ≫= f) s ws) spec out.
Proof. intros Hl Hf. rewrite arun_bind, arun_Put. apply Hf. by apply pend_put_members. Qed.

Lemma run_Del_user nick (f : unit -> stm V) :
  (forall ws', pend (S (S w)) rev lid s n0 ws' (del_user nick n) ->
     runs_to w' rev lid s n0 (arun (f ()) s ws') spec out) ->
  runs_to w' rev lid s n0
    (arun (Del_ (keyUserCtl nick) ≫= fun _ => Del_ (keyUserMsg nick) ≫= f) s ws) spec out.
Proof. intros Hf. rewrite !arun_bind, arun_Del. apply Hf. by apply pend_del_user. Qed.

End reading.
End rules.
End rep.

Global Arguments rep_kv dc k kv vl : simpl nomatch.
Global Arguments represents dc {_ _ _ _ _} s n.
Global Arguments pend dc {_ _ _ _ _} w rev lid s n0 ws n.
Global Arguments lease_of dc {_ _ _ _ _} lid n0 k l z.
Global Arguments implements_in dc {_ _ _ _ _} lid {V R} p pre spec out writes.
Global Arguments runs_to : simpl never.

Notation rep := (represents Owned).
Notation implements := (implements_in Owned).

(** One step of a closure: the rule for its first operation. *)
Ltac run_step_at Hp p :=
  lazymatch p with
  | Get_ (keyUserCtl _) => apply (run_Get_user Hp)
  | Get_ (keyChanCtl _) => apply (run_Get_chan Hp)
  | Get_ (keyChanNicks _ _) => apply (run_Get_members Hp)
  | Get_ (keyOperCtl _) => apply (run_Get_oper Hp)
  | Rev_ (keyUserCtl ?x) => apply (run_Rev Hp (KUserCtl x))
  | Rev_ (keyChanCtl ?x) => apply (run_Rev Hp (KChanCtl x))
  | Rev_ (keyChanNicks ?x ?l) => apply (run_Rev Hp (KChanNicks x l))
  | Put_ (keyUserCtl _) _ _ => eapply (run_Put_user Hp)
  | Put_ (keyUserMsg _) _ _ => eapply (run_Put_userMsg Hp)
  | Put_ (keyChanCtl _) _ _ => eapply (run_Put_chan Hp)
  | Put_ (keyChanMsg _) _ _ => eapply (run_Put_chanMsg Hp)
  | Put_ (keyChanNicks _ _) _ _ => eapply (run_Put_members Hp)
  | Del_ (keyUserCtl _) => apply (run_Del_user Hp)
  end.

Ltac run_step :=
  lazymatch goal with
  | |- runs_to _ _ _ _ _ (arun (mbind _ (mbind _ _)) _ _) _ _ => apply run_assoc
  | |- runs_to _ _ _ _ _ (arun (mbind _ (mret _)) _ _) _ _ => apply run_mret
  | Hp : pend _ _ _ _ _ _ ?ws _ |- runs_to _ _ _ _ _ (arun (mbind _ ?p) _ ?ws) _ _ => run_step_at Hp p
  | Hp : pend _ _ _ _ _ _ ?ws _ |- runs_to _ _ _ _ _ (arun (mret _) _ ?ws) _ _ =>
    apply (run_ret _ _ Hp); [first [done|solve [simpl; naive_solver]|idtac]|lia]
  | |- runs_to _ _ _ _ _ (arun (Put_ _ _ _) _ _) _ _ => apply run_last; run_step
  end.

(** After a write: the old state is forgotten. *)
Ltac run_put Hp := run_step; [| |intros ? ?; clear Hp] || (run_step; [|intros ? ?; clear Hp]).
