(* ===== verification/Refine.v ===== *)
(** * Every command implements its specification

    The closure of each command of Client.v, run at one instant, does to the
    store what the command of Net.v does to the network. *)

From S2P Require Import Prelude GoLib Mode Msg User Channel Key Etcd Stm Net Client Rep.

Section refine.
Context {dc : discipline}.
Context `{Gob Message, Gob UserValue, Gob ChannelCtl, Gob ChannelNicks, Gob OperValue}.
Context (rt : Runtime) (ec : etcdClient).

Notation me := (ec_nick ec).
Local Notation implements := (implements_in dc).
Notation pfx := (ec_prefix ec).

Lemma Join_implements lid ch t :
  implements lid (Join_txn rt ec lid ch t) (fun n => if_owned dc (owns n me lid))
    (net_join me pfx lid (rt_now rt) ch) (=) (fun _ => 4).
Proof.
  apply implements_intro. intros rev s n Hp Ho. unfold Join_txn, net_join.
  run_step. apply run_decode. intros uv Hu.
  assert (if_owned dc (uv_Lease uv = lid)) as Hlid by (revert Ho; apply if_owned_mono; eauto).
  run_step; [revert Hlid; by apply if_owned_mono|by eauto|]. intros ws1 Hp1. clear Hp.
  run_step. apply run_default. run_step; [done|]. intros ws2 Hp2. clear Hp1.
  run_step. apply run_default_members. run_step. intros z Hz.
  run_step; [done|]. intros ws3 Hp3. clear Hp2.
  run_step; [done|]. intros ws4 Hp4. clear Hp3. simpl in *.
  destruct (n_chans n !! ch) as [cc|]; simpl in *; rewrite Hz in Hp4; run_step.
Qed.

Lemma Part_implements lid ch msg t :
  implements lid (Part_txn ec lid ch msg t) (fun n => if_owned dc (owns n me lid))
    (net_part me pfx lid ch msg) (=) (fun _ => 3).
Proof.
  apply implements_intro. intros rev s n Hp Ho. unfold Part_txn, net_part.
  run_step. apply run_decode. intros uv Hu.
  rewrite part_spec. fold (drop_channel ch uv). case_bool_decide as Hin; cbn [negb]; [|run_step].
  run_step; [|by eauto|].
  { apply if_owned_intro. simpl. rewrite Hu. by eexists. }
  intros ws1 Hp1. clear Hp. run_step. unfold drop_member.
  apply run_if_members. cbn [n_members put_user set_users]. destruct (n_members n !! (ch, lid)) as [cns|] eqn:Hm.
  - rewrite cns_del_drop. run_step.
    { simpl. rewrite Hm. by eexists. }
    intros ws2 Hp2. clear Hp1. run_step; [done|]. intros ws3 Hp3. clear Hp2. run_step.
  - run_step; [done|]. intros ws3 Hp3. clear Hp1. run_step.
Qed.

Lemma keep_lease lid n k v z : net_at n k = Some (v, z) -> lease_of dc lid n k WithIgnoreLease z.
Proof. intros E. apply held_intro. by exists v. Qed.

Lemma keep_user lid n nick uv :
  n_users n !! nick = Some uv -> lease_of dc lid n (KUserCtl nick) WithIgnoreLease (uv_Lease uv).
Proof. intros E. eapply keep_lease. simpl. by rewrite E. Qed.

Lemma keep_members lid n ch l cns :
  n_members n !! (ch, l) = Some cns -> lease_of dc lid n (KChanNicks ch l) WithIgnoreLease l.
Proof. intros E. eapply keep_lease. simpl. by rewrite E. Qed.

Lemma keep_chanMsg lid n ch :
  is_Some (n_chanMsg n !! ch) -> lease_of dc lid n (KChanMsg ch) WithIgnoreLease 0.
Proof. intros [m E]. eapply keep_lease. simpl. by rewrite E. Qed.

Lemma keep_userMsg lid n nick uv :
  n_users n !! nick = Some uv -> is_Some (n_userMsg n !! nick) ->
  lease_of dc lid n (KUserMsg nick) WithIgnoreLease (uv_Lease uv).
Proof. intros Hu [m E]. eapply keep_lease. simpl. by rewrite E, Hu. Qed.

(** A user has a box, unless it went with another session. *)
Lemma keep_box lid n nick uv :
  if_owned dc (net_ok n) -> n_users n !! nick = Some uv ->
  lease_of dc lid n (KUserMsg nick) WithIgnoreLease (uv_Lease uv).
Proof.
  intros Hok Hu. destruct dc eqn:E; [|done]. rewrite <-E. apply keep_userMsg; [done|]. simpl in Hok.
  apply Hok. by eexists.
Qed.

Lemma run_Quit_channels rev lid s n0 {V R} (out : V -> R -> Prop) spec w' msg chs w ws n (f : unit -> stm V) :
  pend dc w rev lid s n0 ws n ->
  (forall ch, is_Some (n_members n !! (ch, lid)) -> is_Some (n_members n0 !! (ch, lid))) ->
  (forall ws', pend dc (2 * length chs + w) rev lid s n0 ws' (foldl (quit_one me pfx lid msg) n chs) ->
     runs_to (dc := dc) w' rev lid s n0 (arun (f ()) s ws') spec out) ->
  runs_to (dc := dc) w' rev lid s n0 (arun (Quit_channels ec lid msg chs ≫= f) s ws) spec out.
Proof.
  revert w ws n. induction chs as [|ch chs IH]; intros w ws n Hp Hdom Hf; cbn [Quit_channels].
  - run_step. by apply Hf.
  - run_step. run_step. run_step. apply run_if_members. cbn [foldl] in Hf. unfold quit_one at 2 in Hf.
    destruct (n_members n !! (ch, lid)) as [cns|] eqn:Hm.
    + rewrite cns_del_drop. run_step. run_step.
      { destruct (Hdom ch) as [cns0 E]; [by eexists|]. by eapply keep_members. }
      intros ws1 Hp1. run_step; [done|]. intros ws2 Hp2.
      eapply IH; [exact Hp2| |].
      * intros c. simpl. rewrite lookup_insert_is_Some'.
        intros [[= <-]|Hc]; [apply Hdom; by eexists|by apply Hdom].
      * intros ws' Hp'. apply Hf. eapply pend_le, Hp'. simpl. lia.
    + eapply IH; [exact Hp|done|]. intros ws' Hp'. apply Hf. eapply pend_le, Hp'. simpl. lia.
Qed.

(** The channels the user was on when the command started. *)
Definition channels_of (n : Net) : nat :=
  match n_users n !! me with Some uv => length (uv_Channels uv) | None => 0 end.

Lemma Quit_implements lid msg u :
  Session (rt_ses rt) = Ok lid ->
  implements lid (Quit_txn rt ec msg u) (fun n => if_owned dc (owns n me lid))
    (net_quit me pfx lid msg) (=) (fun n => 2 * channels_of n + 2).
Proof.
  intros Hses. apply implements_intro. intros rev s n Hp Ho. unfold Quit_txn, net_quit, channels_of.
  run_step. apply run_decode. intros uv Hu. rewrite Hu, Hses. change (SRet (Ok lid)) with (mret (M := stm) lid).
  run_step. eapply run_Quit_channels; [exact Hp|done|]. intros ws1 Hp1. clear Hp.
  apply run_last. run_step. run_step. intros ws2 Hp2. clear Hp1. run_step.
Qed.

Lemma Away_implements lid msg u :
  implements lid (Away_txn ec msg u) (fun _ => True) (net_away me msg) (=) (fun _ => 1).
Proof.
  apply implements_intro. intros rev s n Hp _. unfold Away_txn, net_away.
  run_step. apply run_decode. intros uv Hu. run_step; [exact (keep_user lid n me uv Hu)|by exists uv|].
  intros ws1 Hp1. clear Hp. run_step.
Qed.

Lemma Oper_implements lid login pass v :
  implements lid (Oper_txn ec login pass v) (fun _ => True) (net_oper me login pass)
    (fun v' r => r = true \/ v = false -> v' = r) (fun _ => 1).
Proof.
  apply implements_intro. intros rev s n Hp _. unfold Oper_txn, net_oper.
  run_step. apply run_decode. intros uv Hu. run_step.
  apply run_value. destruct (n_opers n !! login) as [ov|] eqn:Hov; [|run_step].
  case_bool_decide; cbn [negb]; [|run_step].
  run_step; [exact (keep_user lid n me uv Hu)|by exists uv|]. intros ws1 Hp1. clear Hp.
  assert ((if ov_Global ov then add (uv_Mode uv) "O" else add (uv_Mode uv) "o")
    = add (uv_Mode uv) (if ov_Global ov then "O" else "o")%char) as E by by destruct (ov_Global ov).
  rewrite E in Hp1. run_step.
Qed.

(** A mode update, as a function of the mode. *)
Definition user_update (m : list string) (mv : ModeValue) : ModeValue * bool :=
  let '(mode, _, updated) := updateSlice (rt_spare rt) mv m userModePerms in (mode, updated).

Definition chan_update (m : list string) (mv : ModeValue) : ModeValue * bool :=
  let '(mode, _, updated) := updateSlice (rt_spare rt) mv m chanModePerms in (mode, updated).

Lemma userMode_implements lid m v :
  implements lid (userMode_txn rt ec m v) (fun _ => True) (net_userMode me (user_update m))
    (fun v mode => v = (String.string_of_list_ascii mode, (updates [] m userModePerms).2)) (fun _ => 1).
Proof.
  apply implements_intro. intros rev s n Hp _. unfold userMode_txn, net_userMode, user_update.
  run_step. apply run_decode. intros uv Hu.
  pose proof (updateSlice_bad (rt_spare rt) (uv_Mode uv) m userModePerms) as Hbad.
  destruct (updateSlice (rt_spare rt) (uv_Mode uv) m userModePerms) as [[mode bad] updated]. simpl in Hbad.
  subst bad. destruct updated; cbn [negb]; [|run_step].
  run_step; [exact (keep_user lid n me uv Hu)|by exists uv|]. intros ws1 Hp1. clear Hp. run_step.
Qed.

(** What the reply of MODE says. *)
Definition chanMode_means (v : chanMode_vars) (r : mode_result) : Prop :=
  match r with
  | MNoChan => cm_noChan v = true
  | MNotOn => cm_noChan v = false /\ cm_notOnChan v = true
  | MNotOp => cm_noChan v = false /\ cm_notOnChan v = false /\ cm_notOp v = true
  | MModes m => cm_noChan v = false /\ cm_notOnChan v = false /\ cm_notOp v = false /\
                cm_mode v = String.string_of_list_ascii m
  end.

Lemma chanMode_implements lid ch m v :
  implements lid (chanMode_txn rt ec lid ch m v) (fun _ => True)
    (net_chanMode me lid (chan_update m) (bool_decide (m = [])) ch)
    (fun v' r => (m = [] -> cm_notOp v = false) -> chanMode_means v' r) (fun _ => 1).
Proof.
  apply implements_intro. intros rev s n Hp _. unfold chanMode_txn, net_chanMode, chan_update.
  run_step. cbv zeta. apply run_value.
  destruct (n_chans n !! ch) as [cc|] eqn:Hc; [|run_step].
  unfold encodeChannelCtl. rewrite bool_decide_encode. run_step. apply run_decode_members. intros l Hl.
  fold (find_nick me l). destruct (find_nick me l) as [cn|] eqn:Hf; [|run_step].
  destruct (bool_decide (m = [])) eqn:Hm; cbn [negb andb].
  - apply bool_decide_eq_true in Hm. run_step.
  - destruct (has (cn_Mode cn) "o"); cbn [negb]; [|run_step].
    destruct (updateSlice (rt_spare rt) (cc_Mode cc) m chanModePerms) as [[mode bad] updated].
    destruct updated; cbn [negb]; [|run_step].
    run_step; [done|]. intros ws1 Hp1. clear Hp. run_step.
Qed.

Definition kick_means (v : kick_vars) (r : kick_result) : Prop :=
  match r with
  | KNotOnChan => k_notOnChan v = true
  | KUserNotOn => k_notOnChan v = false /\ k_userNotOnChan v = true
  | KNotOp => k_notOnChan v = false /\ k_userNotOnChan v = false /\ k_notOp v = true
  | KKicked => k_notOnChan v = false /\ k_userNotOnChan v = false /\ k_notOp v = false
  end.

Lemma kick_implements lid ch nick msg v :
  implements lid (kick_txn ec lid ch nick msg v) (fun _ => True)
    (net_kick me pfx lid ch nick msg)
    (fun v' r => (r = KNotOp -> k_userNotOnChan v = false) -> kick_means v' r) (fun _ => 3).
Proof.
  apply implements_intro. intros rev s n Hp _. unfold kick_txn, net_kick.
  run_step. intros z Hz. rewrite Hz. clear z Hz. cbn [net_at].
  destruct (n_members n !! (ch, lid)) as [l|] eqn:Hl; cbn [fmap option_fmap option_map]; [|run_step].
  run_step. rewrite Hl. apply run_decode_some. cbn [mbind option_bind]. fold (find_nick me l).
  destruct (find_nick me l) as [cn|] eqn:Hf; [|run_step].
  cbv zeta. rewrite <-negb_orb. fold (is_op cn).
  destruct (is_op cn); cbn [negb]; [|run_step].
  run_step. intros z Hz. rewrite Hz. clear z Hz. cbn [net_at].
  destruct (n_users n !! nick) as [uv|] eqn:Hu; cbn [fmap option_fmap option_map]; [|run_step].
  run_step. rewrite Hu. apply run_decode_some. rewrite part_spec. fold (drop_channel ch uv).
  case_bool_decide as Hin; cbn [negb]; [|run_step].
  run_step; [exact (keep_user lid n nick uv Hu)|by exists uv|]. intros ws1 Hp1. clear Hp.
  run_step. cbn [n_members put_user set_users uv_Lease drop_channel set_Channels].
  apply run_decode_members. intros cns Hcns. rewrite cns_del_drop.
  run_step; [by eapply keep_members|]. intros ws2 Hp2. clear Hp1.
  run_step; [done|]. intros ws3 Hp3. clear Hp2. run_step.
Qed.

Definition Topic_means (v : Topic_vars) (r : topic_result) : Prop :=
  match r with
  | TNoChan => t_noChan v = true
  | TNotOn => t_noChan v = false /\ t_notOnChan v = true
  | TNotOp => t_noChan v = false /\ t_notOnChan v = false /\ t_notOp v = true
  | TTopic t => t_noChan v = false /\ t_notOnChan v = false /\ t_notOp v = false /\ t_topic v = t
  | TSet => t_noChan v = false /\ t_notOnChan v = false /\ t_notOp v = false
  end.

Lemma Topic_implements lid ch msg v :
  implements lid (Topic_txn ec lid ch msg v) (fun _ => True)
    (net_topic me pfx lid ch msg)
    (fun v' r => (r = TSet \/ msg = None -> t_notOnChan v = false /\ t_notOp v = false) -> Topic_means v' r)
    (fun _ => 2).
Proof.
  apply implements_intro. intros rev s n Hp _. unfold Topic_txn, net_topic.
  run_step. intros z Hz. rewrite Hz. clear z Hz. cbn [net_at].
  destruct (n_chans n !! ch) as [cc|] eqn:Hc; cbn [fmap option_fmap option_map]; [|run_step].
  run_step. rewrite Hc. apply run_decode_some. destruct msg as [t|]; [|run_step].
  cbv zeta. destruct (has (cc_Mode cc) "t").
  - run_step. apply run_decode_members. intros l Hl. fold (find_nick me l).
    destruct (find_nick me l) as [cn|] eqn:Hf; [|run_step].
    rewrite <-negb_orb. fold (is_op cn). destruct (is_op cn); cbn [negb]; [|run_step].
    run_step. run_step; [done|]. intros ws1 Hp1. clear Hp. run_step; [done|].
    intros ws2 Hp2. clear Hp1. run_step.
  - run_step. run_step; [done|]. intros ws1 Hp1. clear Hp. run_step; [done|].
    intros ws2 Hp2. clear Hp1. run_step.
Qed.

Definition privMsgUser_means (v : privMsgUser_vars) (r : privmsg_result) : Prop :=
  match r with
  | PNoNick => pu_noNick v = true
  | PNotSent => pu_noNick v = false /\ pu_badOtr v = true
  | PAway | PSent => pu_noNick v = false /\ pu_badOtr v = false
  end.

Lemma privMsgUser_implements lid target msg v :
  implements lid (privMsgUser_txn ec target msg v) (fun n => if_owned dc (net_ok n))
    (net_privMsgUser me pfx target msg)
    (fun v' r => (r = PAway \/ HasPrefix msg "?OTR" = true -> pu_badOtr v = false) -> privMsgUser_means v' r)
    (fun _ => 1).
Proof.
  apply implements_intro. intros rev s n Hp Hok. unfold privMsgUser_txn, net_privMsgUser.
  run_step. intros z Hz. rewrite Hz. clear z Hz. cbn [net_at].
  destruct (n_users n !! target) as [uvt|] eqn:Ht; cbn [fmap option_fmap option_map]; [|run_step].
  run_step. apply run_decode. intros uv Hu. run_step. rewrite Ht. apply run_decode_some.
  destruct (has (uv_Mode uvt) "a").
  - run_step; [exact Hu|by apply keep_box|].
    intros ws1 Hp1. clear Hp. run_step.
  - destruct (HasPrefix msg "?OTR") eqn:Ho; cbn [negb andb].
    + run_step; [exact Ht|by apply keep_box|].
      intros ws1 Hp1. clear Hp. run_step.
    + destruct (has (uv_Mode uv) "E" || has (uv_Mode uvt) "E") eqn:He; [run_step|].
      run_step; [exact Ht|by apply keep_box|].
      intros ws1 Hp1. clear Hp. run_step.
Qed.

Definition privMsgChan_means (v : privMsgChan_vars) (r : privmsg_result) : Prop :=
  match r with
  | PNoNick => pc_noNick v = true
  | PNotSent => pc_noNick v = false /\ pc_noSend v = true
  | PAway | PSent => pc_noNick v = false /\ pc_noSend v = false
  end.

Lemma privMsgChan_implements lid ch msg v :
  implements lid (privMsgChan_txn ec ch msg v) net_sound
    (net_privMsgChan me pfx ch msg)
    (fun v' r => (r = PSent -> pc_noSend v = false) -> privMsgChan_means v' r) (fun _ => 1).
Proof.
  apply implements_intro. intros rev s n Hp Hok. unfold privMsgChan_txn, net_privMsgChan.
  run_step. intros z Hz. rewrite Hz. clear z Hz. cbn [net_at].
  destruct (n_chans n !! ch) as [cc|] eqn:Hc; cbn [fmap option_fmap option_map]; [|run_step].
  run_step. apply run_decode. intros uv Hu. run_step. rewrite Hc. apply run_decode_some.
  assert (Hm : lease_of dc lid n (KChanMsg ch) WithIgnoreLease 0)
    by (apply keep_chanMsg, Hok; by eexists).
  destruct (has (cc_Mode cc) "m").
  - run_step. apply run_decode_members. intros l Hl. fold (find_nick me l).
    destruct (find_nick me l) as [cn|] eqn:Hf; [|run_step].
    cbv zeta. unfold is_op. rewrite <-!negb_orb.
    destruct (has (cn_Mode cn) "o" || has (cn_Mode cn) "O" || has (cn_Mode cn) "v"); cbn [negb]; [|run_step].
    run_step; [done|]. intros ws1 Hp1. clear Hp. run_step.
  - run_step; [done|]. intros ws1 Hp1. clear Hp. run_step.
Qed.

End refine.
