(* ===== verification/Server.v ===== *)
(** * Command dispatch and connections (client.go, server.go)

    [ClientDo] turns a message into a command of the [etcdClient]; the server
    registers a connection and then feeds it the messages it reads.  The
    messages a connection delivers are a list, in which a line too short for a
    message is a nil pointer; a function that waits for more
    messages than the list has does not return ([Diverge]). *)

From S2P Require Import Prelude GoLib Mode Msg User Channel Key Etcd Stm Client Proc Reify.

Section server.
Context `{Gob Message, Gob UserValue, Gob ChannelCtl, Gob ChannelNicks, Gob OperValue}.
Context (rt : Runtime).

(** ** ClientDo *)

Section dispatch.
Context (ec : etcdClient).

Definition needMoreParams : M unit :=
  sendHostMsg rt ec irc.ERR_NEEDMOREPARAMS ["Need more parameters"].

Definition badChanMask (ch : string) : M unit :=
  sendHostMsg rt ec irc.ERR_BADCHANMASK [ch; "Bad Channel Mask"].

Definition noSuchChannel (ch : string) : M unit :=
  sendHostMsg rt ec irc.ERR_NOSUCHCHANNEL [ch; "No such channel"].

(** The goroutines of the channels of one JOIN message, each a user of etcd among
    the others, and the first error that one of them sends. *)
Definition join_goroutine (ch : string) : proc (outcome unit) :=
  proc_of (fun env => ClientJoin (with_env env rt) ec ch).

Definition Joins (chs : list string) : M (option error) :=
  run (rt_env rt) (PNow (fun n => par (rt_sched rt n) (join_goroutine <$> chs) (Ok None))).

Definition param (msg : Message) (i : nat) : M string := lift (or_panic (m_Params msg !! i)).

Definition do_KICK (msg : Message) : M unit :=
  if bool_decide (length (m_Params msg) < 2) then needMoreParams else
  ch ← param msg 0;
  if negb (isChan ch) then badChanMask ch else
  p1 ← param msg 1;
  Kick rt ec ch (Split comma p1) (default "" (m_Params msg !! 2)).

Definition do_AWAY (msg : Message) : M unit :=
  Away rt ec match m_Params msg with
             | [] => ""
             | m :: _ => if bool_decide (m = "") then "User is away" else m
             end.

Definition do_WHOIS (msg : Message) : M unit :=
  match m_Params msg with
  | [] => Whois rt ec ""
  | n :: _ => if isChan n then noSuchNick rt ec n else Whois rt ec n
  end.

Definition do_JOIN (msg : Message) : M unit :=
  match m_Params msg with
  | [] => needMoreParams
  | p0 :: _ =>
    let chs := Split comma p0 in
    match list_find (fun ch => isChan ch = false) chs with
    | Some (_, ch) => noSuchChannel ch
    | None =>
      err ← Joins chs;
      match err with Some e => lift (Err e) | None => mret () end
    end
  end.

Definition do_PART (msg : Message) : M unit :=
  match m_Params msg with
  | [] => needMoreParams
  | ch :: rest => if negb (isChan ch) then noSuchChannel ch else Part rt ec ch (default "" (head rest))
  end.

Definition do_TOPIC (msg : Message) : M unit :=
  match m_Params msg with
  | [] => needMoreParams
  | ch :: rest => if negb (isChan ch) then badChanMask ch else Topic rt ec ch (head rest)
  end.

Definition ClientDo (msg : Message) : M unit :=
  let cmd c := bool_decide (m_Command msg = c) in
  if cmd irc.KICK then do_KICK msg
  else if cmd irc.DIE then Die rt ec
  else if cmd irc.AWAY then do_AWAY msg
  else if cmd irc.OPER then
    if bool_decide (length (m_Params msg) < 2) then needMoreParams else
    login ← param msg 0; pass ← param msg 1; Oper rt ec login pass
  else if cmd irc.CAP then mret ()
  else if cmd irc.WHOIS then do_WHOIS msg
  else if cmd irc.WHO then Who rt ec (m_Params msg)
  else if cmd irc.JOIN then do_JOIN msg
  else if cmd irc.MODE then
    if bool_decide (m_Params msg = []) then needMoreParams else Mode rt ec (m_Params msg)
  else if cmd irc.LIST then
    List rt ec match m_Params msg with [] => [] | p :: _ => Split comma p end
  else if cmd irc.NAMES then ch ← param msg 0; Names rt ec ch
  else if cmd irc.PING then m ← param msg 0; Ping rt ec m
  else if cmd irc.PART then do_PART msg
  else if cmd irc.QUIT then m ← param msg 0; Quit rt ec m
  else if cmd irc.PRIVMSG then target ← param msg 0; m ← param msg 1; PrivMsg rt ec target m
  else if cmd irc.TOPIC then do_TOPIC msg
  else mret ().

End dispatch.

(** ** Registration *)

Record connectRequest := { cr_nick : string; cr_user : list string }.

Definition register_value (lid : Z) (cr : connectRequest) : UserValue := {|
  uv_Nick := cr_nick cr; uv_User := cr_user cr; uv_ServerName := "";
  uv_Mode := newModeValue (PinnedUserModes (rt_cfg rt)); uv_Host := ""; uv_RealName := "";
  uv_Created := rt_now rt; uv_Channels := []; uv_AwayMsg := ""; uv_Lease := lid |}.

Definition register_cmps (nick : string) : list Cmp :=
  [{| cmp_Key := keyUserCtl nick; cmp_Target := VERSION; cmp_Result := EQUAL; cmp_Value := 0 |}].

Definition register_ops (lid : Z) (uv : UserValue) : list Op :=
  [OpPut (keyUserCtl (uv_Nick uv)) (encodeUserValue uv) (WithLease lid);
   OpPut (keyUserMsg (uv_Nick uv)) "" (WithLease lid)].

(** The client of a registered user, with the watch of its messages, on which a
    goroutine runs [monitorUser]. *)
Definition startClient (nick user1 : string) (rev : Z) : M (option etcdClient) := fun w =>
  (Ok (Some {| ec_nick := nick;
               ec_prefix := {| p_Name := nick; p_User := user1; p_Host := "host" |} |}),
   {| w_cluster := w_cluster w; w_out := w_out w; w_chCancel := ∅;
      w_watches := w_watches w ++
        [{| wt_ctx := w_nextctx w; wt_key := keyUserMsg nick; wt_prefix := false; wt_rev := rev |}];
      w_nextctx := S (w_nextctx w) |}).

(** [newEtcdClient]: [None] when the nick is taken. *)
Definition newEtcdClient (cr : connectRequest) : M (option etcdClient) :=
  lid ← session rt;
  let uv := register_value lid cr in
  resp ← cliTxn rt (register_cmps (cr_nick cr)) (register_ops lid uv);
  if negb (tr_Succeeded resp) then mret None else
  user1 ← lift (or_panic (uv_User uv !! 1));
  startClient (uv_Nick uv) user1 (tr_Revision resp + 1).

(** The goroutine that [newEtcdClient] starts: it relays what the watch of the
    user's messages delivers, and when that ends, with the user or otherwise, it
    cancels the context of the client. *)
Definition monitorUser (ec : etcdClient) (msgc : list WatchResponse) : M unit :=
  _ ← ignore_err (monitorMsg rt ec msgc);
  cancel.

Definition sendCli (m : Message) : M unit := SendMsg_ctx (rt_cliCtx rt) m.

Definition motd (nick : string) : M unit :=
  let send cmd text := sendCli (hostMsg rt cmd [nick; text]) in
  if bool_decide (Motd (rt_cfg rt) = "") then send irc.ERR_NOMOTD "MOTD file is missing" else
  _ ← ignore_err (send irc.RPL_MOTDSTART ("- " +:+ HostName (rt_cfg rt) +:+ " Message of the day - "));
  _ ← ignore_err (send irc.RPL_MOTD (Motd (rt_cfg rt)));
  send irc.RPL_ENDOFMOTD "End of MOTD command".

(** The loop of [handshake]: register, or tell that the nick is in use and take
    another one from the next NICK. *)
Fixpoint handshake_loop (cr : connectRequest) (reader : list (option Message))
    : M (etcdClient * connectRequest * list (option Message)) :=
  newCli ← newEtcdClient cr;
  match newCli with
  | Some cli => mret (cli, cr, reader)
  | None =>
    _ ← ignore_err (sendCli (hostMsg rt irc.ERR_NICKNAMEINUSE [cr_nick cr]));
    match reader with
    | [] => lift match rt_cliCtx rt with Some e => Err e | None => Diverge end
    | rmsg :: reader' =>
      rmsg ← lift (or_panic rmsg);
      if bool_decide (m_Command rmsg = "CAP") then handshake_loop cr reader'
      else if bool_decide (m_Command rmsg = "NICK") then
        n ← lift (or_panic (head (m_Params rmsg)));
        handshake_loop {| cr_nick := n; cr_user := cr_user cr |} reader'
      else lift (Err ErrBadHandshake)
    end
  end.

Definition version : string := "etcdircd-0.0.0".

(** The greeting of a registered client. *)
Definition welcome (cr : connectRequest) : M unit :=
  let nn := NetworkName (rt_cfg rt) in
  let send cmd params := ignore_err (sendCli
    {| m_Prefix := Some {| p_Name := nn; p_User := ""; p_Host := "" |};
       m_Command := cmd; m_Params := params |}) in
  user1 ← lift (or_panic (cr_user cr !! 1));
  _ ← send irc.RPL_WELCOME [cr_nick cr;
        "Welcome to an Internet Relay Network " +:+ cr_nick cr +:+ "!" +:+ user1 +:+ "@masked"];
  _ ← send irc.RPL_YOURHOST [cr_nick cr;
        "Your host is " +:+ HostName (rt_cfg rt) +:+ ", running version " +:+ version];
  _ ← send irc.RPL_CREATED [cr_nick cr; "This server was created " +:+ rt_created rt];
  _ ← send irc.RPL_MYINFO [cr_nick cr; nn +:+ " " +:+ version +:+ " iE iE"];
  _ ← (if bool_decide (Motd (rt_cfg rt) = "") then mret () else ignore_err (motd (cr_nick cr)));
  ignore_err (sendCli {| m_Prefix := None; m_Command := "PING"; m_Params := ["hello"] |}).

Definition handshake (cr : connectRequest) (reader : list (option Message))
    : M (etcdClient * connectRequest * list (option Message)) :=
  '(cli, cr, reader) ← handshake_loop cr reader;
  _ ← welcome cr;
  match rt_cliCtx rt with Some e => lift (Err e) | None => mret (cli, cr, reader) end.

(** The switch of [readConnRequest]. *)
Definition readConnRequest_msg (cr : connectRequest) (gotCap : bool) (msg : Message)
    : outcome (connectRequest * bool) :=
  if bool_decide (m_Command msg = "CAP") then
    if gotCap then Ok (cr, true)
    else p ← or_panic (head (m_Params msg)); Ok (cr, bool_decide (p = "LS"))
  else if bool_decide (m_Command msg = "NICK") then
    p ← or_panic (head (m_Params msg)); Ok ({| cr_nick := p; cr_user := cr_user cr |}, gotCap)
  else if bool_decide (m_Command msg = "USER") then
    Ok ({| cr_nick := cr_nick cr; cr_user := m_Params msg |}, gotCap)
  else Ok (cr, gotCap).

(** [cr.nick != "" && cr.user != nil]. *)
Definition registered (cr : connectRequest) : bool :=
  negb (bool_decide (cr_nick cr = "")) && negb (bool_decide (cr_user cr = [])).

Definition sendCap (cr : connectRequest) (gotCap : bool) : M unit :=
  if gotCap then SendMsgSync {| m_Prefix := None; m_Command := ":servname CAP";
                                m_Params := [cr_nick cr; "LS"; "[]"] |}
  else mret ().

(** [readConnRequest]: the first NICK and USER, in any order.  A [USER] without
    parameters has nil parameters. *)
Fixpoint readConnRequest_loop (cr : connectRequest) (gotCap : bool) (reader : list (option Message))
    : M (connectRequest * list (option Message)) :=
  match reader with
  | [] => lift Diverge
  | msg :: reader' =>
    msg ← lift (or_panic msg);
    '(cr, gotCap) ← lift (readConnRequest_msg cr gotCap msg);
    if registered cr then _ ← sendCap cr gotCap; mret (cr, reader')
    else readConnRequest_loop cr gotCap reader'
  end.

Definition readConnRequest (reader : list (option Message)) : M (connectRequest * list (option Message)) :=
  readConnRequest_loop {| cr_nick := ""; cr_user := [] |} false reader.

(** ** A connection *)

(** One message of a registered client. *)
Definition dispatch (nick : string) (ec : etcdClient) (msg : Message) : M unit :=
  if bool_decide (m_Command msg = irc.MOTD) then motd nick else ClientDo ec msg.

(** The main loop of [handleConn]: until a command, the connection or the etcd
    client fails; the list ends with the error of the connection. *)
Fixpoint serve (nick : string) (ec : etcdClient) (reader : list (option Message)) : M unit :=
  match reader with
  | [] => mret ()
  | msg :: reader' => msg ← lift (or_panic msg); _ ← dispatch nick ec msg; serve nick ec reader'
  end.

(** An error of the handshake ends the connection; whatever ends the loop after
    it, the client is closed. *)
Definition handleConn (reader : list (option Message)) : M unit :=
  '(cr, reader) ← readConnRequest reader;
  ignore_err ('(cli, cr, reader) ← handshake cr reader;
              _ ← ignore_err (serve (cr_nick cr) cli reader);
              Close).

End server.
