(* ===== verification/Ctl.v ===== *)
(** * The administration tool (cmd/ircdctl)

    [ircdctl oper] makes, removes and lists operators; [ircdctl notice] writes a
    NOTICE to the message key of one user or channel, or of every user.  The
    commands print lines and exit the process on every error. *)

From S2P Require Import Prelude GoLib Msg Key Etcd Stm.

Section ctl.
Context `{Gob Message, Gob OperValue}.
Context (env : Env).

(** [exitOnErr]. *)
Definition exitOnErr {A} (m : ST Cluster A) : ST Cluster A := fun c =>
  match m c with
  | (Err _, c') => (Exit, c')
  | r => r
  end.

Definition ctl_Get (key : string) (rend : option string) : ST Cluster GetResponse :=
  exitOnErr (request env (fun st => r ← Get st key rend 0; Ok (r, st))).

Definition runOperMk (args : list string) (flagOperGlobal : bool) : ST Cluster unit :=
  match args with
  | [login; pass] =>
    let ov := {| ov_Pass := pass; ov_Global := flagOperGlobal |} in
    exitOnErr (request env (fun st =>
      st' ← Put st (keyOperCtl login) (encodeOperValue ov) NoLease; Ok ((), st')))
  | _ => lift Exit
  end.

Definition runOperRm (args : list string) : ST Cluster unit :=
  match args with
  | [login] => exitOnErr (request env (fun st => st' ← Delete st (keyOperCtl login); Ok ((), st')))
  | _ => lift Exit
  end.

Fixpoint oper_values (kvs : list KeyValue) : outcome (list (string * OperValue)) :=
  match kvs with
  | [] => Ok []
  | kv :: kvs' =>
    match decodeOperValue (kv_Value kv) with
    | None => Exit
    | Some ov => l ← oper_values kvs'; Ok ((kv_Key kv, ov) :: l)
    end
  end.

Definition runOperLs : ST Cluster (list (string * OperValue)) :=
  resp ← ctl_Get (keyOperCtl "") (Some (GetPrefixRangeEnd (keyOperCtl "")));
  lift (oper_values (gr_Kvs resp)).

(** The NOTICE for a message key: its parameter is what follows the last slash
    of the key. *)
Definition notice (k text : string) : Message := {|
  m_Prefix := Some {| p_Name := "ircdctl"; p_User := ""; p_Host := "" |};
  m_Command := irc.NOTICE;
  m_Params := [default "" (list.last (Split slash k)); text] |}.

Definition notice_cmps (k : string) : list Cmp :=
  [{| cmp_Key := k; cmp_Target := VERSION; cmp_Result := GREATER; cmp_Value := 0 |}].

(** [msgf]: the printed line when the key does not exist. *)
Definition msgf (text k : string) : ST Cluster (list string) :=
  resp ← exitOnErr (request env (fun st =>
    Txn st (notice_cmps k) [OpPut k (encodeMessage (notice k text)) WithIgnoreLease] []));
  mret (if tr_Succeeded resp then [] else [k +:+ " does not exist"]).

Fixpoint msgfs (text : string) (ks : list string) : ST Cluster (list string) :=
  match ks with
  | [] => mret []
  | k :: ks' => l ← msgf text k; l' ← msgfs text ks'; mret (l ++ l')
  end.

Definition runNotice (args : list string) (flagTarget : string) : ST Cluster (list string) :=
  match args with
  | [text] =>
    if negb (bool_decide (flagTarget = "")) then
      msgf text (if isChan flagTarget then keyChanMsg flagTarget else keyUserMsg flagTarget)
    else
      resp ← ctl_Get (keyUserMsg "") (Some (GetPrefixRangeEnd (keyUserMsg "")));
      msgfs text (kv_Key <$> gr_Kvs resp)
  | _ => lift Exit
  end.

End ctl.
