(* ===== verification/Start.v ===== *)
(** * Starting the programs (cmd/etcdircd/main.go, cmd/ircdctl/ircdctl.go, internal/util)

    Which listener and which etcd client the daemon serves with: the layers of
    TLS, tee, namespace, encryption and key encoding that flags and configuration
    put on them; the client of ircdctl; and the tee that copies what the peers send.
    Files, sockets, certificates and etcd's key exchange are parameters. *)

From S2P Require Import Prelude GoLib Key Etcd KeyKV Client.

(** ** Configuration (internal/util/config.go) *)

Record TLSInfo := { KeyFile : string; CertFile : string; CAFile : string }.

Record IrcCfg := {
  ic_Config : Config;
  EtcdPrefix : string;
  EtcdCryptoKeyFile : string;
  EtcdCryptoCertFile : string;
  EtcdCryptoCAFile : string;
  IrcdKeyFile : string;
  IrcdCertFile : string;
  IrcdCAFile : string;
  IrcdClientCerts : bool;
  IrcdDebugTeeDir : string;
}.

Definition default_cfg : IrcCfg := {|
  ic_Config := NewConfig; EtcdPrefix := "/irc/"; EtcdCryptoKeyFile := ""; EtcdCryptoCertFile := "";
  EtcdCryptoCAFile := ""; IrcdKeyFile := ""; IrcdCertFile := ""; IrcdCAFile := ""; IrcdClientCerts := false;
  IrcdDebugTeeDir := "" |}.

Definition irc_tls (cfg : IrcCfg) : TLSInfo :=
  {| KeyFile := IrcdKeyFile cfg; CertFile := IrcdCertFile cfg; CAFile := IrcdCAFile cfg |}.
Definition crypto_tls (cfg : IrcCfg) : TLSInfo :=
  {| KeyFile := EtcdCryptoKeyFile cfg; CertFile := EtcdCryptoCertFile cfg; CAFile := EtcdCryptoCAFile cfg |}.

(** ** Layers *)

Inductive client_auth := NoClientCert | RequireAndVerifyClientCert.

(** A listener, outermost layer first; [[]] is the TCP listener. *)
Inductive listener_layer :=
  | TLSListener (info : TLSInfo) (auth : client_auth)
  | TeeListener (dir : string).

(** The interfaces of an etcd client, outermost layer first. *)
Inductive layer :=
  | KeyEncode (aeskey : string)
  | Crypto (aeskey : string)
  | Namespace (pfx : string)
  | EtcdClient (endpoints : list string).

Record client := { c_KV : list layer; c_Watcher : list layer; c_Lease : list layer }.

(** What the program asks of its surroundings. *)
Record outside := {
  ReadFile : string -> outcome string;
  Unmarshal : string -> IrcCfg -> outcome IrcCfg;
  Listen : string -> outcome unit;
  ServerConfig : TLSInfo -> outcome unit;
  etcdyaml_NewConfig : string -> outcome (list string);
  etcd_New : list string -> outcome unit;
  SymmetricKey : client -> TLSInfo -> outcome string;
  NewAESCipher : string -> outcome unit;
  aes_NewCipher : string -> outcome unit;
}.

Section start.
Context (o : outside).

Definition NewIrcCfgFromFile (f : string) : outcome IrcCfg :=
  if bool_decide (f = "") then Ok default_cfg else
  b ← ReadFile o f;
  Unmarshal o b default_cfg.

(** ** The etcd client (internal/util/client.go) *)

Definition MustEtcdClient (etcdYamlPath : string) : outcome client :=
  endpoints ← (if bool_decide (etcdYamlPath = "") then Ok ["http://localhost:2379"]
               else or_die (etcdyaml_NewConfig o etcdYamlPath));
  _ ← or_die (etcd_New o endpoints);
  Ok {| c_KV := [EtcdClient endpoints]; c_Watcher := [EtcdClient endpoints]; c_Lease := [EtcdClient endpoints] |}.

Definition MustCrypto (cli : client) (tlsinfo : TLSInfo) : outcome client :=
  aeskey ← or_die (SymmetricKey o cli tlsinfo);
  _ ← or_die (NewAESCipher o aeskey);
  _ ← or_die (aes_NewCipher o aeskey);
  Ok {| c_KV := KeyEncode aeskey :: Crypto aeskey :: c_KV cli;
        c_Watcher := KeyEncode aeskey :: Crypto aeskey :: c_Watcher cli;
        c_Lease := c_Lease cli |}.

Definition MustIrcdEtcdClient (cli : client) (pfx : string) (tlsinfo : option TLSInfo) : outcome client :=
  let xcli := if bool_decide (pfx = "") then cli else
    {| c_KV := Namespace pfx :: c_KV cli; c_Watcher := Namespace pfx :: c_Watcher cli; c_Lease := c_Lease cli |} in
  match tlsinfo with
  | None => Ok xcli
  | Some info => MustCrypto xcli info
  end.

(** ** The daemon (cmd/etcdircd/main.go) *)

Record Flags := {
  etcdYaml : string;
  ircYaml : string;
  listen : string;
  noEtcdCrypto : bool;
  noIRCTLS : bool;
}.

(** No argument at all is the demo mode. *)
Definition parsed (nargs : nat) (fl : Flags) : Flags :=
  if bool_decide (nargs = 1)
  then {| etcdYaml := etcdYaml fl; ircYaml := ircYaml fl; listen := listen fl; noEtcdCrypto := true; noIRCTLS := true |}
  else fl.

Record Daemon := { d_Config : Config; d_ln : list listener_layer; d_cli : client }.

Definition ircd_listener (cfg : IrcCfg) (plain : bool) : outcome (list listener_layer) :=
  ln ← (if plain then Ok []
        else if bool_decide (IrcdKeyFile cfg = "") then Panic
        else
          _ ← or_die (ServerConfig o (irc_tls cfg));
          Ok [TLSListener (irc_tls cfg) (if IrcdClientCerts cfg then RequireAndVerifyClientCert else NoClientCert)]);
  Ok (if bool_decide (IrcdDebugTeeDir cfg = "") then ln else TeeListener (IrcdDebugTeeDir cfg) :: ln).

(** [main] up to [Serve]; its errors are panics. *)
Definition etcdircd_main (nargs : nat) (flags : Flags) : outcome Daemon :=
  let fl := parsed nargs flags in
  ircCfg ← or_die (NewIrcCfgFromFile (ircYaml fl));
  if IrcdClientCerts ircCfg then Panic else
  _ ← or_die (Listen o (listen fl));
  ln ← ircd_listener ircCfg (noIRCTLS fl);
  cli ← MustEtcdClient (etcdYaml fl);
  scli ← MustIrcdEtcdClient cli (EtcdPrefix ircCfg) (if noEtcdCrypto fl then None else Some (crypto_tls ircCfg));
  Ok {| d_Config := ic_Config ircCfg; d_ln := ln; d_cli := scli |}.

(** ** ircdctl (cmd/ircdctl/ircdctl.go) *)

Inductive ctl_flag :=
  | etcdircd_yaml (v : string)
  | etcdclient_yaml (v : string)
  | disable_etcdcrypto (v : bool).

Record ctl_vars := { flagConfigPath : string; flagEtcdConfigPath : string; flagDisableEtcdCrypto : bool }.

Definition ctl_init : ctl_vars :=
  {| flagConfigPath := ""; flagEtcdConfigPath := ""; flagDisableEtcdCrypto := false |}.

(** The variable each flag is bound to. *)
Definition ctl_set (v : ctl_vars) (f : ctl_flag) : ctl_vars :=
  match f with
  | etcdircd_yaml s | etcdclient_yaml s =>
    {| flagConfigPath := s; flagEtcdConfigPath := flagEtcdConfigPath v; flagDisableEtcdCrypto := flagDisableEtcdCrypto v |}
  | disable_etcdcrypto b =>
    {| flagConfigPath := flagConfigPath v; flagEtcdConfigPath := flagEtcdConfigPath v; flagDisableEtcdCrypto := b |}
  end.

Definition ctl_parse (args : list ctl_flag) : ctl_vars := foldl ctl_set ctl_init args.

Definition exit_on_err {A} (m : outcome A) : outcome A := match m with Err _ => Exit | _ => m end.

Definition mustClient (args : list ctl_flag) : outcome client :=
  let v := ctl_parse args in
  ircCfg ← exit_on_err (NewIrcCfgFromFile (flagConfigPath v));
  cli ← MustEtcdClient (flagEtcdConfigPath v);
  MustIrcdEtcdClient cli (EtcdPrefix ircCfg) (if flagDisableEtcdCrypto v then None else Some (crypto_tls ircCfg)).

(** ** What they start with *)

Definition namespaced (pfx : string) (endpoints : list string) : list layer :=
  (if bool_decide (pfx = "") then [] else [Namespace pfx]) ++ [EtcdClient endpoints].

(** The client of a configuration: KV and watcher see the store through the same
    layers; the key was negotiated through the client without encryption. *)
Definition configured (cfg : IrcCfg) (plain : bool) (endpoints : list string) (cli : client) : Prop :=
  exists enc, c_KV cli = enc ++ namespaced (EtcdPrefix cfg) endpoints /\ c_Watcher cli = c_KV cli /\
    c_Lease cli = [EtcdClient endpoints] /\
    if plain then enc = [] else exists aeskey, enc = [KeyEncode aeskey; Crypto aeskey] /\
      SymmetricKey o {| c_KV := namespaced (EtcdPrefix cfg) endpoints; c_Watcher := namespaced (EtcdPrefix cfg) endpoints;
                        c_Lease := [EtcdClient endpoints] |} (crypto_tls cfg) = Ok aeskey.

Lemma or_die_ok {A} (m : outcome A) a : or_die m = Ok a -> m = Ok a.
Proof. by destruct m. Qed.

Lemma MustEtcdClient_ok path cli : MustEtcdClient path = Ok cli ->
  exists endpoints, cli = {| c_KV := [EtcdClient endpoints]; c_Watcher := [EtcdClient endpoints];
    c_Lease := [EtcdClient endpoints] |} /\ (path = "" -> endpoints = ["http://localhost:2379"]).
Proof.
  unfold MustEtcdClient. intros (endpoints&Ee&(?&_&E)%outcome_bind_ok)%outcome_bind_ok. injection E as <-.
  exists endpoints. split; [done|]. intros ->. rewrite bool_decide_true in Ee by done. by injection Ee.
Qed.

Lemma MustIrcdEtcdClient_ok cfg plain endpoints cli :
  MustIrcdEtcdClient {| c_KV := [EtcdClient endpoints]; c_Watcher := [EtcdClient endpoints]; c_Lease := [EtcdClient endpoints] |}
    (EtcdPrefix cfg) (if plain : bool then None else Some (crypto_tls cfg)) = Ok cli -> configured cfg plain endpoints cli.
Proof.
  unfold MustIrcdEtcdClient, configured.
  set (xcli := if bool_decide (EtcdPrefix cfg = "") then _ else _).
  assert (xcli = {| c_KV := namespaced (EtcdPrefix cfg) endpoints; c_Watcher := namespaced (EtcdPrefix cfg) endpoints;
    c_Lease := [EtcdClient endpoints] |}) as -> by (unfold xcli, namespaced; by case_bool_decide).
  destruct plain; [intros [= <-]; by exists []|]. unfold MustCrypto.
  intros (aeskey&Ek&(?&_&(?&_&E)%outcome_bind_ok)%outcome_bind_ok)%outcome_bind_ok. injection E as <-.
  apply (or_die_ok _ aeskey) in Ek. exists [KeyEncode aeskey; Crypto aeskey]. split_and!; [done..|]. exists aeskey; split; [done|]. exact Ek.
Qed.

(** C21: how the daemon and the administration tool start.  When the daemon gets to
    [Serve], peers speak TLS unless the flag or the demo mode turned it off, and never
    with client certificates; what it stores is encrypted, with encoded keys, unless
    the flag or the demo mode turned that off; and it writes and watches through the
    same layers, under the prefix of the configuration.  ircdctl makes the same client
    of the same configuration, but always for etcd on localhost: the flag that should
    name etcd's configuration replaces the daemon's. *)
Theorem programs_start :
  (forall nargs fl d, etcdircd_main nargs fl = Ok d -> exists cfg endpoints,
     NewIrcCfgFromFile (ircYaml fl) = Ok cfg /\ d_Config d = ic_Config cfg /\
     (let plain := bool_decide (nargs = 1) || noIRCTLS fl in
      (plain = false -> IrcdKeyFile cfg <> "") /\
      d_ln d = (if bool_decide (IrcdDebugTeeDir cfg = "") then [] else [TeeListener (IrcdDebugTeeDir cfg)]) ++
               (if plain then [] else [TLSListener (irc_tls cfg) NoClientCert])) /\
     configured cfg (bool_decide (nargs = 1) || noEtcdCrypto fl) endpoints (d_cli d)) /\
  (forall nargs fl cfg, NewIrcCfgFromFile (ircYaml fl) = Ok cfg ->
     IrcdClientCerts cfg = true \/ Listen o (listen fl) = Ok () /\ nargs <> 1 /\ noIRCTLS fl = false /\ IrcdKeyFile cfg = "" ->
     etcdircd_main nargs fl = Panic) /\
  (forall args cli, mustClient args = Ok cli -> exists cfg,
     NewIrcCfgFromFile (flagConfigPath (ctl_parse args)) = Ok cfg /\
     configured cfg (flagDisableEtcdCrypto (ctl_parse args)) ["http://localhost:2379"] cli) /\
  (forall args v, flagConfigPath (ctl_parse (args ++ [etcdclient_yaml v])) = v).
Proof.
  split_and!.
  - intros nargs fl d Hm. unfold etcdircd_main in Hm.
    apply outcome_bind_ok in Hm as (cfg&Ecfg%or_die_ok&Hm). destruct (IrcdClientCerts cfg) eqn:Ecc; [done|].
    apply outcome_bind_ok in Hm as (?&_&Hm). apply outcome_bind_ok in Hm as (ln&Eln&Hm).
    apply outcome_bind_ok in Hm as (cli&(endpoints&->&_)%MustEtcdClient_ok&Hm).
    apply outcome_bind_ok in Hm as (scli&Hs%MustIrcdEtcdClient_ok&Hm). injection Hm as <-.
    assert (noEtcdCrypto (parsed nargs fl) = bool_decide (nargs = 1) || noEtcdCrypto fl /\
      noIRCTLS (parsed nargs fl) = bool_decide (nargs = 1) || noIRCTLS fl /\ ircYaml (parsed nargs fl) = ircYaml fl) as (Ep&Et&Ey).
    { unfold parsed. by case_bool_decide. }
    rewrite Ep in Hs. rewrite Et in Eln. rewrite Ey in Ecfg. exists cfg, endpoints. split_and!; try done; cbv zeta; cbn [d_ln]; split.
    + intros Epl Ek. rewrite Epl in Eln. unfold ircd_listener in Eln. by rewrite (bool_decide_true (IrcdKeyFile cfg = "")) in Eln.
    + unfold ircd_listener in Eln. rewrite Ecc in Eln. destruct (bool_decide (nargs = 1) || noIRCTLS fl).
      * injection Eln as <-. by destruct (bool_decide (IrcdDebugTeeDir cfg = "")).
      * apply outcome_bind_ok in Eln as (ln'&Eln'&Eln). destruct (bool_decide (IrcdKeyFile cfg = "")); [done|].
        apply outcome_bind_ok in Eln' as (?&_&Eln'). injection Eln' as <-. injection Eln as <-. by destruct (bool_decide (IrcdDebugTeeDir cfg = "")).
  - intros nargs fl cfg Ecfg Hor. unfold etcdircd_main.
    assert (ircYaml (parsed nargs fl) = ircYaml fl /\ listen (parsed nargs fl) = listen fl) as [-> ->].
    { unfold parsed. by case_bool_decide. }
    rewrite Ecfg. simpl. destruct (IrcdClientCerts cfg); [done|]. destruct Hor as [|(El&Hn&Ht&Ek)]; [done|].
    rewrite El. simpl. unfold parsed. rewrite (bool_decide_false (nargs = 1)) by done. rewrite Ht.
    unfold ircd_listener. by rewrite (bool_decide_true (IrcdKeyFile cfg = "")).
  - intros args cli Hm. unfold mustClient in Hm. cbv zeta in Hm.
    assert (flagEtcdConfigPath (ctl_parse args) = "") as Ef.
    { unfold ctl_parse. assert (forall l v, flagEtcdConfigPath v = "" -> flagEtcdConfigPath (foldl ctl_set v l) = "") as Hl;
        [|by apply Hl]. intros l. induction l as [|f l IH]; intros v Hv; [done|]. apply IH. by destruct f. }
    apply outcome_bind_ok in Hm as (cfg&Ecfg&Hm). apply outcome_bind_ok in Hm as (c1&Ec1&Hm).
    apply MustEtcdClient_ok in Ec1 as (endpoints&->&He). rewrite Ef in He. rewrite (He eq_refl) in Hm.
    apply MustIrcdEtcdClient_ok in Hm. exists cfg. split; [|done]. by destruct (NewIrcCfgFromFile _).
  - intros args v. unfold ctl_parse. by rewrite foldl_app.
Qed.

End start.

(** ** The debugging tee (internal/util/tee.go) *)

Section tee.
Context {conn file : Type}.

(** [teeListener.Accept] on what the inner listener accepts: the connection and its
    file, and whether the accepted connection was closed. *)
Definition tee_Accept (accept : outcome conn) (OpenFile : conn -> outcome file) : outcome (conn * file) * bool :=
  match accept with
  | Ok cn => match OpenFile cn with
             | Ok f => (Ok (cn, f), false)
             | Err e => (Err e, true)
             | Panic => (Panic, false) | Exit => (Exit, false) | Diverge => (Diverge, false)
             end
  | Err e => (Err e, false)
  | Panic => (Panic, false) | Exit => (Exit, false) | Diverge => (Diverge, false)
  end.

(** [io.TeeReader]: a read of the connection gives data and perhaps an error; the data
    is written to the file, of which a write that fails takes the first [n] bytes. *)
Definition tee_Read (rd : string * option error) (wr : option (nat * error)) (f : string)
    : (string * option error) * string :=
  let '(data, err) := rd in
  if bool_decide (data = "") then (rd, f)
  else match wr with
       | None => (rd, f +:+ data)
       | Some (n, e) => let t := String.substring 0 n data in ((t, Some e), f +:+ t)
       end.

(** [teeConn.Close]: the file, then the connection. *)
Definition tee_Close (cn : conn) (f : file) : list (conn + file) := [inr f; inl cn].

End tee.

(** ** Example: the daemon with encryption and TLS *)

Module StartDemo.

Definition cfg : IrcCfg := {|
  ic_Config := NewConfig; EtcdPrefix := "/irc/"; EtcdCryptoKeyFile := "ek"; EtcdCryptoCertFile := "ec";
  EtcdCryptoCAFile := "ea"; IrcdKeyFile := "ik"; IrcdCertFile := "ic"; IrcdCAFile := "ia"; IrcdClientCerts := false;
  IrcdDebugTeeDir := "" |}.

Definition machine : outside := {|
  ReadFile := fun _ => Ok "yaml"; Unmarshal := fun _ _ => Ok cfg; Listen := fun _ => Ok ();
  ServerConfig := fun _ => Ok (); etcdyaml_NewConfig := fun p => Ok [p]; etcd_New := fun _ => Ok ();
  SymmetricKey := fun _ _ => Ok "key"; NewAESCipher := fun _ => Ok (); aes_NewCipher := fun _ => Ok () |}.

Definition flags : Flags :=
  {| etcdYaml := "etcd.yaml"; ircYaml := "irc.yaml"; listen := ":6697"; noEtcdCrypto := false; noIRCTLS := false |}.

Definition daemon : Daemon := {|
  d_Config := NewConfig; d_ln := [TLSListener {| KeyFile := "ik"; CertFile := "ic"; CAFile := "ia" |} NoClientCert];
  d_cli := {| c_KV := [KeyEncode "key"; Crypto "key"; Namespace "/irc/"; EtcdClient ["etcd.yaml"]];
              c_Watcher := [KeyEncode "key"; Crypto "key"; Namespace "/irc/"; EtcdClient ["etcd.yaml"]];
              c_Lease := [EtcdClient ["etcd.yaml"]] |} |}.

End StartDemo.

Lemma programs_start_witness :
  etcdircd_main StartDemo.machine 3 StartDemo.flags = Ok StartDemo.daemon /\
  exists cfg endpoints, NewIrcCfgFromFile StartDemo.machine "irc.yaml" = Ok cfg /\
    configured StartDemo.machine cfg false endpoints (d_cli StartDemo.daemon).
Proof.
  assert (etcdircd_main StartDemo.machine 3 StartDemo.flags = Ok StartDemo.daemon) as E by reflexivity.
  split; [exact E|]. destruct (programs_start StartDemo.machine) as [Hm _].
  destruct (Hm 3 StartDemo.flags StartDemo.daemon E) as (cfg&endpoints&Ec&_&_&Hc). exists cfg, endpoints. split; [exact Ec|exact Hc].
Defined.
