(* ===== verification/System.v ===== *)
(** * The whole system: every store that can be reached

    The stores etcd goes through when any number of clients, servers and
    administrators work at the same time.  What a client does to the store is
    the commit of a transaction, and by the theorem on the STM a commit is the
    closure run at one instant; so a step of the system is one commit. *)

From S2P Require Import Prelude GoLib Mode Msg User Channel Key Etcd Stm Net Client Rep Refine Server Ctl.

Section system.
Context {dc : discipline}.
Context `{Gob Message, Gob UserValue, Gob ChannelCtl, Gob ChannelNicks, Gob OperValue}.

Local Notation rep := (represents dc).
Local Notation pend := (pend dc).
Local Notation implements := (implements_in dc).

(** ** The other transactions *)

Lemma pend_view rev lid s n w ws n' : pend w rev lid s n ws n' -> rep (view rev s ws) n'.
Proof. apply pend_rep. Qed.

(** Registering a user whose nick is free. *)
Lemma register_refines st n lid uv tr st' :
  wf_store st -> rep (current st) n -> if_owned dc (net_ok n) -> uv_Lease uv = lid ->
  Txn st (register_cmps (uv_Nick uv)) (register_ops lid uv) [] = Ok (tr, st') ->
  if tr_Succeeded tr
  then exists n', net_register uv n = Some n' /\ rep (current st') n'
  else st' = st /\ is_Some (n_users n !! uv_Nick uv).
Proof.
  intros Hw Hr Hn Hl HT. pose proof (Txn_branch _ _ _ _ _ _ HT) as [Hc HB].
  unfold register_cmps in Hc. cbn [forallb] in Hc. rewrite compare_version, andb_true_r in Hc by done.
  pose proof (Hr (KUserCtl (uv_Nick uv))) as Hu. cbn [key_str net_at] in Hu.
  destruct (tr_Succeeded tr) eqn:Hs.
  - apply bool_decide_eq_true in Hc. rewrite Hc in Hu. unfold net_register.
    destruct (n_users n !! uv_Nick uv) as [uv0|] eqn:E; [by inversion Hu|]. eexists. split; [done|].
    assert (if_owned dc (n_userMsg n !! uv_Nick uv = None)) as Em.
    { revert Hn. apply if_owned_mono. intros Hn. destruct (n_userMsg n !! uv_Nick uv) eqn:Em; [|done].
      destruct (proj2 (ok_userMsg _ Hn (uv_Nick uv))) as [? Hx]; [by eexists|congruence]. }
    pose proof (wf_store_rev st Hw).
    assert (0 < st_rev st + 1)%Z as Hrev by lia.
    pose proof (pend_init (st_rev st + 1) lid (current st) n Hrev Hr) as Hp.
    assert (Hp1 : pend 1 (st_rev st + 1) lid (current st) n
      (<[keyUserCtl (uv_Nick uv) := {| sp_val := encodeUserValue uv;
         sp_op := OpPut (keyUserCtl (uv_Nick uv)) (encodeUserValue uv) (WithLease lid) |}]> ∅)
      (put_user (uv_Nick uv) uv n)).
    { apply pend_put_user; [done|by apply held_intro|apply if_owned_intro; intros uv0; by rewrite E|].
      revert Em. apply if_owned_mono. by right. }
    assert (Hp2 : pend 2 (st_rev st + 1) lid (current st) n
      (<[keyUserMsg (uv_Nick uv) := {| sp_val := "";
         sp_op := OpPut (keyUserMsg (uv_Nick uv)) "" (WithLease lid) |}]>
      (<[keyUserCtl (uv_Nick uv) := {| sp_val := encodeUserValue uv;
         sp_op := OpPut (keyUserCtl (uv_Nick uv)) (encodeUserValue uv) (WithLease lid) |}]> ∅))
      (put_userMsg (uv_Nick uv) None (put_user (uv_Nick uv) uv n))).
    { eapply (pend_put _ _ _ _ _ _ _ (KUserMsg (uv_Nick uv)) "" (WithLease lid) lid); [done|by apply held_intro|].
      intros [k|k|k|k|k l'|k]; apply same_at_eq; simpl; rewrite ?decide_False by done; try done.
      destruct (decide (k = uv_Nick uv)) as [->|].
      - rewrite decide_True by done. rewrite !lookup_insert_eq. simpl. by rewrite Hl.
      - rewrite decide_False by congruence. by rewrite !lookup_insert_ne. }
    set (nick := uv_Nick uv) in *.
    set (l := [(keyUserCtl nick, OpPut (keyUserCtl nick) (encodeUserValue uv) (WithLease lid));
               (keyUserMsg nick, OpPut (keyUserMsg nick) "" (WithLease lid))]).
    rewrite (Txn_writes_list st l tr st' Hw).
    + apply pend_view in Hp2. unfold view in Hp2. rewrite !fmap_insert, fmap_empty in Hp2. cbn [sp_op] in Hp2.
      subst l. simpl. rewrite insert_insert_ne by key_discriminate. done.
    + subst l. cbn. apply list.NoDup_cons. split; [|apply list.NoDup_cons; split; [set_solver|constructor]].
      rewrite list_elem_of_singleton. key_discriminate.
    + by repeat constructor.
    + exact HB.
  - apply bool_decide_eq_false in Hc. split; [by eapply Txn_failed|].
    destruct (n_users n !! uv_Nick uv); [by eexists|]. inversion Hu as [|E]. by destruct Hc.
Qed.

(** The end of a session. *)
Lemma net_at_expire n l k :
  l <> 0%Z -> net_at (net_expire l n) k =
  match net_at n k with Some (v, z) => if decide (z = l) then None else Some (v, z) | None => None end.
Proof.
  intros Hl. destruct k as [k|k|k|k|k z|k]; simpl.
  - rewrite map_lookup_filter. destruct (n_users n !! k) as [uv|]; simpl; [|done].
    case_guard; case_decide; naive_solver.
  - rewrite !map_lookup_filter. destruct (n_userMsg n !! k) as [m|]; simpl; [|done]. destruct (n_users n !! k) as [uv|] eqn:Eu; simpl.
    + destruct (decide (uv_Lease uv = l)) as [Hd|Hd].
      * rewrite (bool_decide_true (uv_Lease uv = l)) by done. by case_guard.
      * rewrite (bool_decide_false (uv_Lease uv = l)) by done. case_guard; [|done]. by case_guard.
    + by rewrite decide_False.
  - destruct (n_chans n !! k); simpl; [|done]. by rewrite decide_False.
  - destruct (n_chanMsg n !! k); simpl; [|done]. by rewrite decide_False.
  - rewrite map_lookup_filter. destruct (n_members n !! (k, z)) as [m|]; simpl; [|done].
    case_guard; case_decide; naive_solver.
  - destruct (n_opers n !! k); simpl; [|done]. by rewrite decide_False.
Qed.

(** What the end of a session leaves of a snapshot. *)
Definition without (l : Z) (s : snapshot) : snapshot := filter (fun p => kv_Lease p.2 <> l) s.

Lemma current_Revoke st l : l ∈ st_leases st -> current (Revoke st l) = without l (current st).
Proof.
  intros Hin. unfold Revoke. rewrite bool_decide_true by done. fold (without l (current st)).
  change (current {| st_snaps := st_snaps ?a; st_leases := _ |}) with (current a).
  rewrite current_push; [done|]. cbn [fst snd].
  intros Hsz. apply negb_false_iff, bool_decide_eq_true in Hsz.
  apply map_subseteq_size_eq; [apply map_filter_subseteq|unfold without in *; lia].
Qed.

Lemma lookup_without l s k :
  without l s !! k = match s !! k with Some kv => if decide (kv_Lease kv = l) then None else Some kv | None => None end.
Proof.
  unfold without. rewrite map_lookup_filter. destruct (s !! k) as [kv|]; simpl; [|done].
  case_guard; case_decide; done.
Qed.

(** The users and boxes whose keys are left. *)
Definition net_left (l : Z) (s : snapshot) (n : Net) : Net :=
  set_users (filter (fun p => is_Some (without l s !! keyUserCtl p.1)) (n_users n))
  (set_userMsgs (filter (fun p => is_Some (without l s !! keyUserMsg p.1)) (n_userMsg n))
  (set_memberss (filter (fun p => p.1.2 <> l) (n_members n)) n)).

Lemma lookup_left {A} (m : gmap string A) (f : string -> option KeyValue) k :
  filter (fun p => is_Some (f p.1)) m !! k = match f k with Some _ => m !! k | None => None end.
Proof.
  rewrite map_lookup_filter. destruct (m !! k); simpl; [|by destruct (f k)].
  case_guard as Hs; simpl in Hs; [by destruct Hs as [? ->]|]. destruct (f k); [|done]. destruct Hs. by eexists.
Qed.

Lemma net_left_loses l s n : loses l n (net_left l s n).
Proof. split; try done; apply map_filter_subseteq. Qed.

Lemma expire_refines st n l :
  wf_store st -> rep (current st) n -> l <> 0%Z -> l ∈ st_leases st ->
  exists n', rep (current (Revoke st l)) n' /\ ends dc l n n'.
Proof.
  intros Hw Hr Hl Hin. rewrite current_Revoke by done.
  destruct dc.
  - exists (net_expire l n). split; [|done]. intros k. rewrite net_at_expire by done. unfold without.
    rewrite map_lookup_filter. destruct (Hr k) as [kv [v z] (Hv&Hz&Hm)|]; simpl in *; [|constructor].
    apply held_all in Hz. simpl in Hz.
    case_guard as Hg; case_decide as Hd; simpl; try congruence; constructor.
    split_and!; [done|by apply held_all|done].
  - exists (net_left l (current st) n). split; [|apply net_left_loses]. intros k. pose proof (Hr k) as Hk.
    destruct k as [k|k|k|k|k z|k]; cbn [key_str net_at] in *; rewrite lookup_without;
      cbn [net_left n_users n_userMsg n_chans n_chanMsg n_members n_opers set_users set_userMsgs set_memberss].
    + rewrite (lookup_left _ (fun nick => without l (current st) !! keyUserCtl nick)), lookup_without.
      destruct (current st !! _) as [kv|]; [|constructor]. case_decide; [constructor|done].
    + rewrite (lookup_left _ (fun nick => without l (current st) !! keyUserMsg nick)), lookup_without.
      destruct (current st !! keyUserMsg k) as [kv|]; [|constructor]. case_decide; [constructor|].
      eapply rep_kv_same; [|exact Hk]. split; [by destruct (n_userMsg n !! k)|done].
    + destruct (current st !! _) as [kv|], (n_chans n !! k); inversion Hk as [? ? (?&Hz&?)|]; subst; [|constructor]. simpl in Hz.
      rewrite decide_False by congruence. by constructor.
    + destruct (current st !! _) as [kv|], (n_chanMsg n !! k); inversion Hk as [? ? (?&Hz&?)|]; subst; [|constructor]. simpl in Hz.
      rewrite decide_False by congruence. by constructor.
    + rewrite map_lookup_filter. destruct (current st !! _) as [kv|], (n_members n !! (k, z));
      inversion Hk as [? ? (?&Hz&?)|]; subst; [|constructor].
      simpl in *. case_guard; case_decide; try congruence; by constructor.
    + destruct (current st !! _) as [kv|], (n_opers n !! k); inversion Hk as [? ? (?&Hz&?)|]; subst; [|constructor]. simpl in Hz.
      rewrite decide_False by congruence. by constructor.
Qed.

(** Removing an empty list of members. *)
Lemma reap_refines st n ch l kv tr st' :
  wf_store st -> rep (current st) n ->
  (1 <= kv_ModRevision kv <= st_rev st)%Z -> at_rev st (kv_ModRevision kv) !! keyChanNicks ch l = Some kv ->
  decodeChannelNicks (kv_Value kv) = Some {| cns_Nicks := [] |} ->
  Txn st [{| cmp_Key := keyChanNicks ch l; cmp_Target := MOD; cmp_Result := EQUAL;
             cmp_Value := kv_ModRevision kv |}] [OpDelete (keyChanNicks ch l)] [] = Ok (tr, st') ->
  if tr_Succeeded tr then rep (current st') (net_reap ch l n) else st' = st.
Proof.
  intros Hw Hr Hm Hk Hd HT. pose proof (Txn_branch _ _ _ _ _ _ HT) as [Hc HB].
  destruct (tr_Succeeded tr) eqn:Hs; [|by eapply Txn_failed].
  cbn [forallb] in Hc. rewrite andb_true_r in Hc. apply compare_mod in Hc; [|done..].
  pose proof (Hr (KChanNicks ch l)) as Hkv. cbn [key_str net_at] in Hkv. rewrite Hc in Hkv.
  destruct (n_members n !! (ch, l)) as [cns|] eqn:E; [|by inversion Hkv].
  inversion Hkv as [? ? (Hv&_&_)|]; simplify_eq/=. rewrite Hv, decodeChannelNicks_encode in Hd.
  simplify_eq. unfold net_reap. rewrite E.
  rewrite (Txn_writes_list st [(keyChanNicks ch l, OpDelete (keyChanNicks ch l))] tr st' Hw);
    [|by repeat constructor; set_solver|by repeat constructor|done].
  intros k. simpl. rewrite lookup_write_snap. destruct (decide (k = KChanNicks ch l)) as [->|Hne].
  - simpl. rewrite lookup_insert_eq, lookup_delete_eq. constructor.
  - rewrite lookup_insert_ne by (intros E'; by apply (inj key_str (KChanNicks ch l)) in E').
    rewrite lookup_empty. specialize (Hr k). destruct k as [k|k|k|k|k z|k]; simpl in *; try done.
    by rewrite lookup_delete_ne by congruence.
Qed.

(** ** The steps of the system *)

(** The client acts under the session that registered its user. *)
Definition owns_at (s : snapshot) (nick : string) (lid : Z) : Prop :=
  forall kv uv, s !! keyUserCtl nick = Some kv -> decodeUserValue (kv_Value kv) = Some uv ->
  uv_Lease uv = lid.

(** One commit: of the transaction of a command, with whatever its abandoned
    attempts left in its variables, of a registration, of the administration
    tool, of the watch of a channel, or the end of a session.  The code never asks
    whether a client acts under the session that registered its user: [Free] has all
    steps, [Owned] those in which a client that joins, leaves or quits does. *)
Inductive commit_step (st st' : Store) : Prop :=
  | s_join rt ec lid ch v v' tr :
      if_owned dc (owns_at (current st) (ec_nick ec) lid) ->
      commits (Join_txn rt ec lid ch) v st v' tr st' -> commit_step st st'
  | s_part ec lid ch msg v v' tr :
      if_owned dc (owns_at (current st) (ec_nick ec) lid) ->
      commits (Part_txn ec lid ch msg) v st v' tr st' -> commit_step st st'
  | s_quit rt ec lid msg v v' tr :
      if_owned dc (owns_at (current st) (ec_nick ec) lid) -> Session (rt_ses rt) = Ok lid ->
      commits (Quit_txn rt ec msg) v st v' tr st' -> commit_step st st'
  | s_chanMode rt ec lid ch m v v' tr :
      commits (chanMode_txn rt ec lid ch m) v st v' tr st' -> commit_step st st'
  | s_userMode rt ec m v v' tr : commits (userMode_txn rt ec m) v st v' tr st' -> commit_step st st'
  | s_away ec msg v v' tr : commits (Away_txn ec msg) v st v' tr st' -> commit_step st st'
  | s_oper ec login pass v v' tr : commits (Oper_txn ec login pass) v st v' tr st' -> commit_step st st'
  | s_kick ec lid ch nick msg v v' tr :
      commits (kick_txn ec lid ch nick msg) v st v' tr st' -> commit_step st st'
  | s_topic ec lid ch msg v v' tr :
      commits (Topic_txn ec lid ch msg) v st v' tr st' -> commit_step st st'
  | s_privMsgUser ec target msg v v' tr :
      commits (privMsgUser_txn ec target msg) v st v' tr st' -> commit_step st st'
  | s_privMsgChan ec ch msg v v' tr :
      commits (privMsgChan_txn ec ch msg) v st v' tr st' -> commit_step st st'
  | s_register rt lid cr tr :
      Txn st (register_cmps (cr_nick cr)) (register_ops lid (register_value rt lid cr)) [] = Ok (tr, st') ->
      commit_step st st'
  | s_reap ch l kv tr :
      (1 <= kv_ModRevision kv <= st_rev st)%Z ->
      at_rev st (kv_ModRevision kv) !! keyChanNicks ch l = Some kv ->
      decodeChannelNicks (kv_Value kv) = Some {| cns_Nicks := [] |} ->
      Txn st [{| cmp_Key := keyChanNicks ch l; cmp_Target := MOD; cmp_Result := EQUAL;
                 cmp_Value := kv_ModRevision kv |}] [OpDelete (keyChanNicks ch l)] [] = Ok (tr, st') ->
      commit_step st st'
  | s_expire l : l <> 0%Z -> l ∈ st_leases st -> st' = Revoke st l -> commit_step st st'
  | s_grant l : st' = Grant st l -> commit_step st st'
  | s_operMk login ov :
      Put st (keyOperCtl login) (encodeOperValue ov) NoLease = Ok st' -> commit_step st st'
  | s_operRm login : Delete st (keyOperCtl login) = Ok st' -> commit_step st st'
  | s_notice nick text tr :
      Txn st (notice_cmps (keyUserMsg nick))
        [OpPut (keyUserMsg nick) (encodeMessage (notice (keyUserMsg nick) text)) WithIgnoreLease] []
      = Ok (tr, st') -> commit_step st st'
  | s_noticeChan ch text tr :
      Txn st (notice_cmps (keyChanMsg ch))
        [OpPut (keyChanMsg ch) (encodeMessage (notice (keyChanMsg ch) text)) WithIgnoreLease] []
      = Ok (tr, st') -> commit_step st st'.

Local Notation store_step := commit_step.

Lemma owns_rep s n nick lid : rep s n -> owns_at s nick lid -> owns n nick lid.
Proof.
  intros Hr Ho uv Hu. pose proof (Hr (KUserCtl nick)) as Hk. cbn [key_str net_at] in Hk.
  rewrite Hu in Hk. inversion Hk as [kv vl (Hv&_&_) Hkv|]; simplify_eq/=.
  eapply Ho; [by symmetry|]. rewrite Hv. apply decodeUserValue_encode.
Qed.

Lemma owns_net s n nick lid :
  rep s n -> if_owned dc (owns_at s nick lid) -> if_owned dc (owns n nick lid).
Proof. intros Hr. apply if_owned_mono. by apply owns_rep. Qed.

Lemma rep_owns s n nick lid : rep s n -> owns n nick lid -> owns_at s nick lid.
Proof.
  intros Hr Ho kv uv Hkv Hd. pose proof (Hr (KUserCtl nick)) as Hk. cbn [key_str net_at] in Hk.
  rewrite Hkv in Hk. destruct (n_users n !! nick) as [uv0|] eqn:E; [|by inversion Hk].
  inversion Hk as [? ? (Hv&_&_)|]; simplify_eq/=. rewrite Hv, decodeUserValue_encode in Hd.
  simplify_eq. by apply Ho.
Qed.

Lemma commits_ok {V} (f : V -> stm V) v st v' tr st' :
  wf_store st -> commits f v st v' tr st' -> wf_store st' /\ extends st st'.
Proof. intros Hw (ws&rs&_&HT). by destruct (Txn_ok _ _ _ _ _ _ Hw HT) as (?&?&_). Qed.

(** A step only makes the history longer. *)
Lemma store_step_ok st st' : wf_store st -> store_step st st' -> wf_store st' /\ extends st st'.
Proof.
  intros Hw []; subst; try (by eapply commits_ok); try (by eapply Put_ok); try (by eapply Delete_ok);
    try (match goal with HT : Txn _ _ _ _ = _ |- _ => by destruct (Txn_ok _ _ _ _ _ _ Hw HT) as (?&?&_) end);
    [by apply Revoke_ok|by apply Grant_ok].
Qed.

(** A commit of a closure that implements a command is a step of the network. *)
Lemma commits_step {V R} (f : V -> stm V) v st v' tr st' lid pre spec (out : V -> R -> Prop) w n :
  implements lid (f v) pre spec out w -> wf_store st -> rep (current st) n -> pre n ->
  commits f v st v' tr st' ->
  exists r n', spec n = Some (r, n') /\ out v' r /\ rep (current st') n'.
Proof.
  intros Hi Hw Hr Hpre (ws&rs&Ha&HT). specialize (Hi st n Hw Hr Hpre). rewrite Ha in Hi.
  destruct (spec n) as [[r n']|]; [|done]. destruct Hi as (v1&ws1&E&Hout&Hcom&_). simplify_eq/=.
  exists r, n'. split_and!; [done..|]. by eapply Hcom.
Qed.

(** The single writes of the administration tool. *)
Lemma operMk_refines st n login ov st' :
  wf_store st -> rep (current st) n -> Put st (keyOperCtl login) (encodeOperValue ov) NoLease = Ok st' ->
  rep (current st') (put_oper login ov n).
Proof.
  intros Hw Hr HP. pose proof (wf_store_rev st Hw). unfold Put in HP.
  apply outcome_bind_ok in HP as (?&_&HP). apply outcome_bind_ok in HP as (?&_&HP).
  simpl in HP. simplify_eq. intros k. cbn [current push_snap fst snd st_snaps head default].
  unfold current at 1. simpl. destruct (decide (k = KOperCtl login)) as [->|Hne].
  - simpl. rewrite !lookup_insert_eq. constructor. split_and!; [done|done|simpl; lia].
  - rewrite lookup_insert_ne by (intros E'; by apply (inj key_str (KOperCtl login)) in E').
    specialize (Hr k). destruct k as [k|k|k|k|k z|k]; simpl in *; try done.
    by rewrite lookup_insert_ne by congruence.
Qed.

Lemma operRm_refines st n login st' :
  wf_store st -> rep (current st) n -> Delete st (keyOperCtl login) = Ok st' ->
  rep (current st') (set_opers (delete login (n_opers n)) n).
Proof.
  intros Hw Hr HP. unfold Delete in HP. apply outcome_bind_ok in HP as (?&_&HP).
  assert (Hdel : rep (delete (keyOperCtl login) (current st)) (set_opers (delete login (n_opers n)) n)).
  { intros k. destruct (decide (k = KOperCtl login)) as [->|Hne].
    - simpl. rewrite !lookup_delete_eq. constructor.
    - rewrite lookup_delete_ne by (intros E'; by apply (inj key_str (KOperCtl login)) in E').
      specialize (Hr k). destruct k as [k|k|k|k|k z|k]; simpl in *; try done.
      by rewrite lookup_delete_ne by congruence. }
  simpl in HP. destruct (current st !! keyOperCtl login) eqn:E; simplify_eq; [done|].
  unfold push_snap. simpl. by rewrite delete_id in Hdel.
Qed.

(** A NOTICE reaches the message key it is for, if there is one. *)
Lemma notice_refines st n k m tr st' n' :
  wf_store st -> rep (current st) n ->
  (forall v z, net_at n k = Some (v, z) -> forall k', net_at n' k' =
     if decide (k' = k) then Some (encodeMessage m, z) else net_at n k') ->
  Txn st (notice_cmps (key_str k)) [OpPut (key_str k) (encodeMessage m) WithIgnoreLease] [] = Ok (tr, st') ->
  if tr_Succeeded tr then net_at n k <> None /\ rep (current st') n' else st' = st.
Proof.
  intros Hw Hr Hn' HT. pose proof (Txn_branch _ _ _ _ _ _ HT) as [Hc HB].
  destruct (tr_Succeeded tr) eqn:Hs; [|by eapply Txn_failed].
  unfold notice_cmps in Hc. cbn [forallb] in Hc. rewrite andb_true_r, compare_version in Hc by done.
  apply bool_decide_eq_true in Hc as [kv Hkv]. pose proof (Hr k) as Hk. rewrite Hkv in Hk.
  destruct (net_at n k) as [[v z]|] eqn:E; [|by inversion Hk]. split; [done|].
  specialize (Hn' v z eq_refl). pose proof (wf_store_rev st Hw).
  assert (0 < st_rev st + 1)%Z as Hrev by lia.
  pose proof (pend_init (st_rev st + 1) 0 (current st) n Hrev Hr) as Hp.
  apply (pend_put _ _ _ _ _ _ _ k (encodeMessage m) WithIgnoreLease z n') in Hp;
    [|apply held_intro; by exists v|intros k'; by apply same_at_eq].
  rewrite (Txn_writes_list st [(key_str k, OpPut (key_str k) (encodeMessage m) WithIgnoreLease)] tr st' Hw);
    [|by repeat constructor; set_solver|by repeat constructor|done].
  apply pend_view in Hp. unfold view in Hp. by rewrite fmap_insert, fmap_empty in Hp.
Qed.

(** ** Simulation *)

Lemma net_at_userMsg n nick m v z :
  net_at n (KUserMsg nick) = Some (v, z) ->
  forall k, net_at (put_userMsg nick (Some m) n) k =
    if decide (k = KUserMsg nick) then Some (encodeMessage m, z) else net_at n k.
Proof.
  intros Hz. simpl in Hz. destruct (n_userMsg n !! nick); simplify_eq/=.
  intros [k|k|k|k|k l|k]; simpl; rewrite ?decide_False by done; try done.
  destruct (decide (k = nick)) as [->|].
  - rewrite decide_True by done. by rewrite lookup_insert_eq.
  - rewrite decide_False by congruence. by rewrite lookup_insert_ne.
Qed.

Lemma net_at_chanMsg n ch m v z :
  net_at n (KChanMsg ch) = Some (v, z) ->
  forall k, net_at (put_chanMsg ch m n) k =
    if decide (k = KChanMsg ch) then Some (encodeMessage m, z) else net_at n k.
Proof.
  simpl. intros Hz. destruct (n_chanMsg n !! ch); simplify_eq/=.
  intros [k|k|k|k|k l|k]; simpl; rewrite ?decide_False by done; try done.
  destruct (decide (k = ch)) as [->|].
  - rewrite decide_True by done. by rewrite lookup_insert_eq.
  - rewrite decide_False by congruence. by rewrite lookup_insert_ne.
Qed.

Ltac commit_step Hcom lem step :=
  eapply commits_step in Hcom as (r&n'&Hspec&_&Hrep); [|eapply lem|done|done|done];
  exists n'; split; [exact Hrep|right; by eapply step].

Lemma step_simulates st st' n :
  wf_store st -> rep (current st) n -> net_sound n -> if_owned dc (net_ok n) -> store_step st st' ->
  wf_store st' /\ exists n', rep (current st') n' /\ (n' = n \/ net_move dc n n').
Proof.
  intros Hw Hr Hsn Hn Hs. split.
  - by apply (store_step_ok st).
  - destruct Hs as [rt ec lid ch v v' tr Ho Hcom|ec lid ch msg v v' tr Ho Hcom
      |rt ec lid msg v v' tr Ho Hses Hcom|rt ec lid ch m v v' tr Hcom|rt ec m v v' tr Hcom
      |ec msg v v' tr Hcom|ec login pass v v' tr Hcom|ec lid ch nick msg v v' tr Hcom
      |ec lid ch msg v v' tr Hcom|ec target msg v v' tr Hcom|ec ch msg v v' tr Hcom
      |rt lid cr tr HT|ch l kv tr Hm Hk Hd HT|l Hl Hin ->|l ->|login ov HP|login HP
      |nick text tr HT|ch text tr HT].
    + pose proof (owns_net _ _ _ _ Hr Ho) as Hon. commit_step Hcom (@Join_implements dc) step_join.
    + pose proof (owns_net _ _ _ _ Hr Ho) as Hon. commit_step Hcom (@Part_implements dc) step_part.
    + pose proof (owns_net _ _ _ _ Hr Ho) as Hon.
      eapply commits_step in Hcom as (r&n'&Hspec&_&Hrep); [|by eapply Quit_implements|done|done|done].
      exists n'. split; [exact Hrep|right; by eapply step_quit].
    + commit_step Hcom (@chanMode_implements dc) step_chanMode.
    + commit_step Hcom (userMode_implements (dc := dc) rt ec 0) step_userMode.
    + commit_step Hcom (Away_implements (dc := dc) ec 0) step_away.
    + commit_step Hcom (Oper_implements (dc := dc) ec 0) step_oper.
    + commit_step Hcom (@kick_implements dc) step_kick.
    + commit_step Hcom (@Topic_implements dc) step_topic.
    + commit_step Hcom (privMsgUser_implements (dc := dc) ec 0) step_privMsgUser.
    + commit_step Hcom (privMsgChan_implements (dc := dc) ec 0) step_privMsgChan.
    + pose proof (register_refines st n lid (register_value rt lid cr) tr st' Hw Hr Hn eq_refl HT) as Hreg.
      destruct (tr_Succeeded tr).
      * destruct Hreg as (n'&Hspec&Hrep). exists n'. split; [done|right]. eapply step_register; [|exact Hspec]; done.
      * destruct Hreg as [-> _]. exists n. split; [done|by left].
    + pose proof (reap_refines st n ch l kv tr st' Hw Hr Hm Hk Hd HT) as Hreap.
      destruct (tr_Succeeded tr); [|subst; exists n; split; [done|by left]].
      eexists. split; [done|right; apply step_reap].
    + destruct (expire_refines st n l Hw Hr Hl Hin) as (n'&Hrep&He). exists n'.
      split; [done|right; by eapply step_expire].
    + exists n. split; [done|by left].
    + eexists. split; [by eapply operMk_refines|right; apply step_new_oper].
    + eexists. split; [by eapply operRm_refines|right; apply step_rm_oper].
    + pose proof (notice_refines st n (KUserMsg nick) _ tr st' _ Hw Hr (fun v z => net_at_userMsg n nick _ v z) HT) as Hno.
      destruct (tr_Succeeded tr); [|subst; exists n; split; [done|by left]].
      destruct Hno as [Hat Hrep]. eexists. split; [done|right; apply step_notice_user; [done|]].
      simpl in Hat. destruct (n_userMsg n !! nick); [by eexists|done].
    + pose proof (notice_refines st n (KChanMsg ch) _ tr st' _ Hw Hr
        (fun v z => net_at_chanMsg n ch _ v z) HT) as Hno.
      destruct (tr_Succeeded tr); [|subst; exists n; split; [done|by left]].
      destruct Hno as [_ Hrep]. eexists. split; [done|right; by apply step_notice_chan].
Qed.

(** ** Reachable stores *)

Definition reaches : Store -> Prop := rtc store_step new_store.

Lemma reaches_net st :
  reaches st ->
  wf_store st /\ exists n, rep (current st) n /\ net_sound n /\ if_owned dc (net_ok n) /\ rtc (net_move dc) net_empty n.
Proof.
  intros Hr. pattern st. revert st Hr. apply rtc_ind_r.
  - split; [apply new_store_wf|]. exists net_empty.
    split_and!; [apply rep_empty|apply net_ok_sound, net_empty_ok|apply if_owned_intro, net_empty_ok|done].
  - intros st st' Hr Hst [Hw (n&Hrep&Hsn&Hn&Hs)].
    destruct (step_simulates st st' n Hw Hrep Hsn Hn Hst) as [Hw' (n'&Hrep'&[->|Hstep])];
      (split; [done|]); [by exists n|].
    exists n'. split_and!; [done|by eapply net_move_sound| |by eapply rtc_r].
    revert Hn Hstep. destruct dc; simpl; [|done]. apply net_step_preserves.
Qed.

Lemma reaches_wf st : reaches st -> wf_store st.
Proof. intros Hr. by destruct (reaches_net st Hr). Qed.

(** What is stored for a user, and for the members of a channel on a session. *)
Definition stored_user (st : Store) (nick : string) : option UserValue :=
  kv ← current st !! keyUserCtl nick; decodeUserValue (kv_Value kv).

Definition stored_nicks (st : Store) (ch : string) (l : Z) : list string :=
  match current st !! keyChanNicks ch l with
  | Some kv => match decodeChannelNicks (kv_Value kv) with Some cns => nicks cns | None => [] end
  | None => []
  end.

Lemma rep_stored_user st n nick : rep (current st) n -> stored_user st nick = n_users n !! nick.
Proof.
  intros Hr. pose proof (Hr (KUserCtl nick)) as Hk. cbn [key_str net_at] in Hk. unfold stored_user.
  destruct (n_users n !! nick) as [uv|]; inversion Hk as [kv vl (Hv&_&_)|]; simplify_eq/=; [|done].
  rewrite Hv. apply decodeUserValue_encode.
Qed.

Lemma rep_stored_nicks st n ch l :
  rep (current st) n -> stored_nicks st ch l = cn_Nick <$> members n ch l.
Proof.
  intros Hr. pose proof (Hr (KChanNicks ch l)) as Hk. cbn [key_str net_at] in Hk.
  unfold stored_nicks, members.
  destruct (n_members n !! (ch, l)) as [cns|]; inversion Hk as [kv vl (Hv&_&_)|]; simplify_eq/=; [|done].
  by rewrite Hv, decodeChannelNicks_encode.
Qed.

End system.

Global Arguments commit_step dc {_ _ _ _ _} st st'.
Global Arguments reaches dc {_ _ _ _ _} st.

Notation store_step := (commit_step Owned).
Notation reachable := (reaches Owned).

(** *** Clients that act under the session of their user *)

Section owned.
Context `{Gob Message, Gob UserValue, Gob ChannelCtl, Gob ChannelNicks, Gob OperValue}.

Lemma store_step_simulates st st' n :
  wf_store st -> rep (current st) n -> net_ok n -> store_step st st' ->
  wf_store st' /\ exists n', rep (current st') n' /\ (n' = n \/ net_step n n').
Proof. intros Hw Hr Hn. apply (step_simulates (dc := Owned)); [exact Hw|exact Hr|by apply net_ok_sound|exact Hn]. Qed.

Lemma reachable_net st :
  reachable st -> wf_store st /\ exists n, rep (current st) n /\ net_ok n /\ rtc net_step net_empty n.
Proof. intros [Hw (n&Hr&_&Hn&Hs)]%reaches_net. split; [exact Hw|]. exists n. split; [exact Hr|]. by split. Qed.

Lemma reachable_wf st : reachable st -> wf_store st.
Proof. apply reaches_wf. Qed.

(** An owned step is one of the steps. *)
Lemma owned_free st st' : store_step st st' -> commit_step Free st st'.
Proof.
  destruct 1.
  - by eapply s_join.
  - by eapply s_part.
  - by eapply s_quit.
  - by eapply s_chanMode.
  - by eapply s_userMode.
  - by eapply s_away.
  - by eapply s_oper.
  - by eapply s_kick.
  - by eapply s_topic.
  - by eapply s_privMsgUser.
  - by eapply s_privMsgChan.
  - by eapply s_register.
  - by eapply s_reap.
  - by eapply s_expire.
  - by eapply s_grant.
  - by eapply s_operMk.
  - by eapply s_operRm.
  - by eapply s_notice.
  - by eapply s_noticeChan.
Qed.

Lemma reachable_free st : reachable st -> reaches Free st.
Proof.
  intros Hr. unfold reaches in *. induction Hr as [|? ? ? Hs _ IH]; [done|]. eapply rtc_l; [by apply owned_free|done].
Qed.

End owned.
