(* ===== verification/Demo.v ===== *)
(** * A small network, computed

    Concrete stores for the examples of the development: gob is the lawful
    encoding of module [Wire], one server holds the lease 7, and the users alice
    and bob are on the channel #c, which alice founded. *)

From S2P Require Import Prelude GoLib Mode Msg User Channel Key Etcd Stm Net Client Rep Refine Server Ctl System.

Module Demo.

#[export] Existing Instance Wire.Message_gob.
#[export] Existing Instance Wire.OperValue_gob.
#[export] Existing Instance UserWire.UserValue_gob.
#[export] Existing Instance ChannelWire.ChannelCtl_gob.
#[export] Existing Instance ChannelWire.ChannelNicks_gob.

Definition quiet_env : Env := {| e_intf := fun _ st => st; e_fail := fun _ => None |}.

Definition ses : etcdSession := {| es_s := Some 7%Z; es_ready := true; es_ctx := None |}.

Definition rt_with (env : Env) (attempts : nat) : Runtime := {|
  rt_env := env; rt_attempts := attempts; rt_ses := ses; rt_ctx := None; rt_cliCtx := None; rt_now := 100;
  rt_cfg := NewConfig; rt_created := "now"; rt_spare := fun n => n; rt_sched := fun _ => [] |}.

Definition rt : Runtime := rt_with quiet_env 1.

Definition client (nick : string) : etcdClient :=
  {| ec_nick := nick; ec_prefix := {| p_Name := nick; p_User := nick; p_Host := "host" |} |}.

Definition alice : etcdClient := client "alice".
Definition bob : etcdClient := client "bob".

Definition request_of (nick : string) : connectRequest :=
  {| cr_nick := nick; cr_user := [nick; nick; "*"; nick] |}.

Definition txn (st : Store) (cmps : list Cmp) (succ : list Op) : Store :=
  match Txn st cmps succ [] with Ok (_, st') => st' | _ => st end.

Definition is_ok {A} (o : outcome A) : bool := match o with Ok _ => true | _ => false end.

Lemma is_ok_eq {A} (o : outcome A) : is_ok o = true -> exists a, o = Ok a.
Proof. destruct o; try done. by eexists. Qed.

Definition register (nick : string) (st : Store) : Store :=
  txn st (register_cmps nick) (register_ops 7 (register_value rt 7 (request_of nick))).

(** The store after a command that nobody disturbs. *)
Definition did {V} (f : V -> stm V) (v : V) (st : Store) : Store := (atomically (f v) st).2.

Definition did_ok {V} (f : V -> stm V) (v : V) (st : Store) : bool := is_ok (atomically (f v) st).1.

Lemma did_commits {V} (f : V -> stm V) v st :
  did_ok f v st = true -> exists v' tr, commits f v st v' tr (did f v st).
Proof.
  unfold did_ok, did, atomically, commits.
  destruct (atomic (f v) (current st) ∅ ∅) as [[[v'|e| | |] ws] rs] eqn:Ea; simpl; try done.
  destruct (Txn st [] (wset_puts ws) []) as [[tr st']|e| | |] eqn:ET; simpl; try done.
  intros _. exists v', tr, ws, rs. by split.
Qed.

Definition store0 : Store := Grant new_store 7.
Definition store1 : Store := register "alice" store0.
Definition store2 : Store := did (Join_txn rt alice 7 "#c") "" store1.
Definition store3 : Store := register "bob" store2.
Definition store4 : Store := did (Join_txn rt bob 7 "#c") "" store3.

Definition owns_b (st : Store) (nick : string) (lid : Z) : bool :=
  match current st !! keyUserCtl nick with
  | Some kv => match decodeUserValue (kv_Value kv) with
               | Some uv => bool_decide (uv_Lease uv = lid)
               | None => true
               end
  | None => true
  end.

Lemma owns_b_ok st nick lid : owns_b st nick lid = true -> owns_at (current st) nick lid.
Proof.
  unfold owns_b. intros Ho kv uv Hk Hd. rewrite Hk, Hd in Ho. by apply bool_decide_eq_true in Ho.
Qed.

Lemma register_step nick st :
  is_ok (Txn st (register_cmps nick) (register_ops 7 (register_value rt 7 (request_of nick))) []) = true ->
  store_step st (register nick st).
Proof.
  intros [[tr st'] E]%is_ok_eq. eapply (s_register _ _ rt 7 (request_of nick) tr).
  unfold register, txn. cbn [cr_nick request_of]. by rewrite E.
Qed.

Lemma join_step ec ch st :
  owns_b st (ec_nick ec) 7 = true -> did_ok (Join_txn rt ec 7 ch) "" st = true ->
  store_step st (did (Join_txn rt ec 7 ch) "" st).
Proof.
  intros Ho (v'&tr&Hc)%did_commits. eapply s_join; [by apply owns_b_ok|exact Hc].
Qed.

Lemma reachable4 : reachable store4.
Proof.
  unfold reaches.
  eapply (rtc_l _ _ store0); [by eapply s_grant|].
  eapply (rtc_l _ _ store1); [apply register_step; vm_compute; reflexivity|].
  eapply (rtc_l _ _ store2); [apply join_step; vm_compute; reflexivity|].
  eapply (rtc_l _ _ store3); [apply register_step; vm_compute; reflexivity|].
  eapply (rtc_l _ _ store4); [apply join_step; vm_compute; reflexivity|].
  apply rtc_refl.
Qed.

Definition world (st : Store) : World := {|
  w_cluster := {| cl_store := st; cl_clock := 0 |};
  w_out := []; w_chCancel := ∅; w_watches := []; w_nextctx := 0 |}.

End Demo.
