(* ===== verification/Serve.v ===== *)
(** * The accept loop (server.go, [Serve])

    [Serve] accepts connections until the listener fails, runs [handleConn] for
    each in a goroutine, then waits for all of them and closes the session.  A
    handler is here by its result: [handleConn] (Server.v) run in some world, its
    environment being the other handlers, daemons and clients. *)

From S2P Require Import Prelude Group GoLib Mode Msg User Channel Key Etcd Stm Client Server Demo.

(** ** State *)

(** A connection's goroutine: runs [handleConn], runs the deferred calls, or has
    called [wg.Done]. *)
Inductive handler_pc := HRun | HDefer | HClosed | HDone.

(** [hd_reader]: what the peer sends; [hd_closed]: how often the connection was
    closed. *)
Record handler := { hd_reader : list (option Message); hd_pc : handler_pc; hd_closed : nat }.

(** [Serve] accepts, waits after the error of [Accept], or has returned it. *)
Inductive serve_pc := SAccept | SWait (err : error) | SReturned (err : error).

(** [sv_closed]: how often the session was closed; [sv_down]: the process has ended
    ([Die], or a panic of a handler). *)
Record server := {
  sv_pc : serve_pc;
  sv_conns : list handler;
  sv_closed : nat;
  sv_down : bool;
}.

(** [NewServer], then [Serve] up to its loop. *)
Definition NewServer : server := {| sv_pc := SAccept; sv_conns := []; sv_closed := 0; sv_down := false |}.

Definition accepted (reader : list (option Message)) : handler := {| hd_reader := reader; hd_pc := HRun; hd_closed := 0 |}.

Definition set_handler (pc : handler_pc) (closed : nat) (h : handler) : handler :=
  {| hd_reader := hd_reader h; hd_pc := pc; hd_closed := closed |}.

Section serve.
Context `{Gob Message, Gob UserValue, Gob ChannelCtl, Gob ChannelNicks, Gob OperValue}.
Context (rt : Runtime).

(** ** Steps *)

(** A possible result of [handleConn]. *)
Definition handles (reader : list (option Message)) (o : outcome unit) : Prop := exists w, (handleConn rt reader w).1 = o.

Definition returns_from (o : outcome unit) : Prop := match o with Ok _ | Err _ => True | _ => False end.
Definition ends_process (o : outcome unit) : Prop := match o with Panic | Exit => True | _ => False end.

Inductive handler_step (h : handler) : handler -> Prop :=
  | hs_return o : hd_pc h = HRun -> handles (hd_reader h) o -> returns_from o ->
      handler_step h (set_handler HDefer (hd_closed h) h)
  | hs_close : hd_pc h = HDefer -> handler_step h (set_handler HClosed (S (hd_closed h)) h)
  | hs_done : hd_pc h = HClosed -> handler_step h (set_handler HDone (hd_closed h) h).

Definition done_handler (h : handler) : Prop := hd_pc h = HDone.

(** [Server.Close]. *)
Definition server_Close (n : nat) : nat := S n.

(** The body of [Serve]: the loop, [wg.Wait] and the deferred [Close]. *)
Inductive Serve_step (sv : server) : server -> Prop :=
  | ss_Accept reader : sv_pc sv = SAccept ->
      Serve_step sv {| sv_pc := SAccept; sv_conns := sv_conns sv ++ [accepted reader];
        sv_closed := sv_closed sv; sv_down := false |}
  | ss_fail err : sv_pc sv = SAccept ->
      Serve_step sv {| sv_pc := SWait err; sv_conns := sv_conns sv; sv_closed := sv_closed sv; sv_down := false |}
  | ss_return err : sv_pc sv = SWait err -> Forall done_handler (sv_conns sv) ->
      Serve_step sv {| sv_pc := SReturned err; sv_conns := sv_conns sv; sv_closed := server_Close (sv_closed sv);
        sv_down := false |}.

Inductive server_step (sv : server) : server -> Prop :=
  | st_Serve sv' : sv_down sv = false -> Serve_step sv sv' -> server_step sv sv'
  | st_handler l : sv_down sv = false -> group_step handler_step (sv_conns sv) l ->
      server_step sv {| sv_pc := sv_pc sv; sv_conns := l; sv_closed := sv_closed sv; sv_down := false |}
  | st_down i h o : sv_down sv = false -> sv_conns sv !! i = Some h -> hd_pc h = HRun -> handles (hd_reader h) o ->
      ends_process o ->
      server_step sv {| sv_pc := sv_pc sv; sv_conns := sv_conns sv; sv_closed := sv_closed sv; sv_down := true |}.

(** ** The invariant *)

Definition handler_ok (h : handler) : Prop :=
  hd_closed h = match hd_pc h with HRun | HDefer => 0 | HClosed | HDone => 1 end.

Record server_ok (sv : server) : Prop := {
  so_conns : Forall handler_ok (sv_conns sv);
  so_closed : sv_closed sv = match sv_pc sv with SReturned _ => 1 | _ => 0 end;
  so_done : match sv_pc sv with SReturned _ => Forall done_handler (sv_conns sv) | _ => True end;
}.

Lemma handler_step_ok h h' : handler_step h h' -> handler_ok h -> handler_ok h'.
Proof. unfold handler_ok. intros [o E _ _|E|E]; rewrite E; simpl; lia. Qed.

Lemma handler_step_done h h' : handler_step h h' -> done_handler h -> done_handler h'.
Proof. unfold done_handler. intros [o E _ _|E|E]; congruence. Qed.

Lemma server_step_ok sv sv' : server_step sv sv' -> server_ok sv -> server_ok sv'.
Proof.
  intros Hs [Hc Hn Hd]. destruct Hs as [sv1 _ Hs|l _ Hs|i h o _ _ _ _ _]; [| |by split].
  - destruct Hs as [reader E|err E|err E Hall]; rewrite E in *; split; simpl; try done; [|by rewrite Hn].
    apply Forall_app_2; [done|]. by apply Forall_singleton.
  - split; simpl; [|done|].
    + apply (group_Forall _ _ _ _ handler_step_ok Hs Hc).
    + destruct (sv_pc sv); [done..|]. apply (group_Forall _ _ _ _ handler_step_done Hs Hd).
Qed.

Lemma server_reach_ok sv : rtc server_step NewServer sv -> server_ok sv.
Proof.
  intros Hr. pattern sv. revert sv Hr. apply rtc_ind_r; [by repeat constructor|]. eauto using server_step_ok.
Qed.

(** C30: however the connections, their handlers and the listener behave, a
    connection is closed once, after its handler has returned and never before;
    [Serve] returns the error of [Accept], after every connection it accepted was
    closed; and the session is closed once, when [Serve] returns, so no handler is
    still running on it. *)
Theorem serve_orderly sv : rtc server_step NewServer sv ->
  (forall h, h ∈ sv_conns sv -> hd_closed h <= 1 /\ (hd_closed h = 1 <-> hd_pc h = HClosed \/ hd_pc h = HDone)) /\
  sv_closed sv <= 1 /\
  (sv_closed sv = 1 <-> exists err, sv_pc sv = SReturned err) /\
  (forall err, sv_pc sv = SReturned err -> forall h, h ∈ sv_conns sv -> hd_pc h = HDone /\ hd_closed h = 1).
Proof.
  intros [Hc Hn Hd]%server_reach_ok. rewrite list.Forall_forall in Hc. unfold handler_ok in Hc. split_and!.
  - intros h Hin. rewrite (Hc h Hin). destruct (hd_pc h); split; try lia; naive_solver.
  - destruct (sv_pc sv); lia.
  - rewrite Hn. destruct (sv_pc sv); split; intros Hx; try done; try (by eexists); by destruct Hx.
  - intros err E h Hin. rewrite E in Hd. rewrite list.Forall_forall in Hd. specialize (Hd h Hin). unfold done_handler in Hd.
    specialize (Hc h Hin). rewrite Hd in Hc. done.
Qed.

(** ** The end *)

(** A step after the listener has failed. *)
Definition handler_rank (h : handler) : nat := match hd_pc h with HRun => 3 | HDefer => 2 | HClosed => 1 | HDone => 0 end.
Definition server_rank (sv : server) : nat :=
  sum_list (handler_rank <$> sv_conns sv) + match sv_pc sv with SReturned _ => 0 | _ => 1 end + (if sv_down sv then 0 else 1).

Lemma handler_step_rank h h' : handler_step h h' -> handler_rank h' < handler_rank h.
Proof. unfold handler_rank. intros [o E _ _|E|E]; rewrite E; simpl; lia. Qed.

Lemma server_step_rank sv sv' : server_step sv sv' -> sv_pc sv <> SAccept ->
  server_rank sv' < server_rank sv /\ sv_pc sv' <> SAccept.
Proof.
  unfold server_rank. intros [sv1 Hup Hs|l Hup Hs|i h o Hup _ _ _ _] Hne; simpl; rewrite Hup.
  - destruct Hs as [? E|? E|err E _]; [done..|]. simpl. rewrite E. split; [lia|done].
  - pose proof (group_rank handler_rank _ _ _ handler_step_rank Hs). split; [lia|done].
  - split; [lia|done].
Qed.

Lemma server_steps_rank n sv sv' : nsteps server_step n sv sv' -> sv_pc sv <> SAccept -> n <= server_rank sv.
Proof.
  induction 1 as [|n sv sv1 sv' Hs _ IH]; intros Hne; [lia|]. destruct (server_step_rank sv sv1 Hs Hne) as [Hlt Hne1].
  specialize (IH Hne1). lia.
Qed.

Lemma server_progress sv : sv_down sv = false -> sv_pc sv <> SAccept ->
  (forall h, h ∈ sv_conns sv -> hd_pc h = HRun -> exists o, handles (hd_reader h) o /\ o <> Diverge) ->
  (exists err, sv_pc sv = SReturned err) \/ exists sv', server_step sv sv'.
Proof.
  intros Hup Hne Hall. destruct (sv_pc sv) as [|err|err] eqn:E; [done| |by left; eexists]. right.
  assert (forall h, Decision (done_handler h)) as Hdec.
  { intros h. unfold done_handler. destruct (hd_pc h); (by left) || by right. }
  destruct (decide (Forall done_handler (sv_conns sv))) as [Hd|(h&Hin&Hh)%not_Forall_Exists%list.Exists_exists]; [| |done].
  { eexists. apply st_Serve; [done|]. by eapply ss_return. }
  pose proof Hin as [i Hi]%list_elem_of_lookup. unfold done_handler in Hh.
  assert ((exists h', handler_step h h') \/ exists o, hd_pc h = HRun /\ handles (hd_reader h) o /\ ends_process o)
    as [[h' Hs]|(o&Ep&Ho&He)]; [| |].
  - destruct (hd_pc h) eqn:Ep; [|left; eexists; by apply hs_close|left; eexists; by apply hs_done|done].
    destruct (Hall h Hin Ep) as (o&Ho&Hnd). destruct o; [left; eexists; by eapply hs_return|left; eexists; by eapply hs_return|..|done];
      right; by eexists.
  - eexists. eapply st_handler; [done|]. by econstructor.
  - eexists. by eapply st_down.
Qed.

(** ** A peer that does not register *)

Lemma unregistered_msg cr gotCap msg cr' gotCap' :
  readConnRequest_msg cr gotCap msg = Ok (cr', gotCap') ->
  (cr_nick cr = "" /\ m_Command msg <> "NICK" -> cr_nick cr' = "") /\
  (cr_user cr = [] /\ m_Command msg <> "USER" -> cr_user cr' = []).
Proof.
  unfold readConnRequest_msg. intros E. repeat case_bool_decide; simplify_eq/=; try naive_solver.
  - destruct gotCap; simplify_eq; [naive_solver|]. destruct (head (m_Params msg)); simplify_eq/=. naive_solver.
  - destruct (head (m_Params msg)); simplify_eq/=. naive_solver.
Qed.

Definition never_says (cmd : string) (reader : list (option Message)) : Prop :=
  Forall (fun m => forall msg, m = Some msg -> m_Command msg <> cmd) reader.

Definition silent_peer (reader : list (option Message)) : Prop :=
  never_says "NICK" reader \/ never_says "USER" reader.

Lemma readConnRequest_silent reader cr gotCap w o :
  (cr_nick cr = "" /\ never_says "NICK" reader \/ cr_user cr = [] /\ never_says "USER" reader) ->
  (readConnRequest_loop cr gotCap reader w).1 = o -> o = Diverge \/ o = Panic.
Proof.
  revert cr gotCap w. induction reader as [|msg reader IH]; intros cr gotCap w Hsil E; simpl in E; [by left|].
  unfold mbind, ST_mbind, ST_bind, lift in E. destruct msg as [msg|]; simpl in E; [|by right].
  assert ((exists cr' gc, readConnRequest_msg cr gotCap msg = Ok (cr', gc)) \/ readConnRequest_msg cr gotCap msg = Panic)
    as [(cr'&gc&Em)|Em].
  { unfold readConnRequest_msg. repeat case_bool_decide; try (left; by eexists _, _).
    - destruct gotCap; [left; by eexists _, _|]. destruct (head (m_Params msg)); [left; by eexists _, _|by right].
    - destruct (head (m_Params msg)); [left; by eexists _, _|by right]. }
  - rewrite Em in E. destruct (unregistered_msg _ _ _ _ _ Em) as [Hn Hu].
    assert (cr_nick cr' = "" /\ never_says "NICK" reader \/ cr_user cr' = [] /\ never_says "USER" reader) as Hsil'.
    { destruct Hsil as [[Hc Hf]|[Hc Hf]]; apply list.Forall_cons in Hf as [Hm Hf]; specialize (Hm msg eq_refl); auto. }
    assert (registered cr' = false) as Hreg.
    { unfold registered. destruct Hsil' as [[-> _]|[-> _]]; [done|]. by rewrite andb_false_r. }
    rewrite Hreg in E. by eapply IH.
  - rewrite Em in E. by right.
Qed.

Lemma handles_silent reader o : silent_peer reader -> handles reader o -> ~ returns_from o.
Proof.
  intros Hs [w Hw] Hr. unfold handleConn, mbind, ST_mbind, ST_bind in Hw.
  destruct (readConnRequest reader w) as [o1 w1] eqn:E.
  assert (o1 = Diverge \/ o1 = Panic) as [-> | ->].
  { eapply (readConnRequest_silent reader {| cr_nick := ""; cr_user := [] |} false w).
    - destruct Hs; [left|right]; by split.
    - unfold readConnRequest in E. by rewrite E. }
  - by subst o.
  - by subst o.
Qed.

(** The handler of such a peer runs as long as the process. *)
Lemma silent_step sv sv' i h : server_step sv sv' -> sv_conns sv !! i = Some h -> hd_pc h = HRun ->
  silent_peer (hd_reader h) -> sv_conns sv' !! i = Some h /\
    ((forall err, sv_pc sv <> SReturned err) -> forall err, sv_pc sv' <> SReturned err).
Proof.
  intros Hs Hi Hrun Hsil. destruct Hs as [sv1 _ Hs|l _ [j h1 h2 Hj Hs]|j h1 o _ _ _ _ _]; [| |done].
  - destruct Hs as [reader E|err E|err E Hall]; simpl.
    + split; [by apply lookup_app_l_Some|done].
    + by split.
    + exfalso. eapply Forall_lookup_1 in Hall; [|exact Hi]. unfold done_handler in Hall. congruence.
  - simpl. split; [|done]. destruct (decide (i = j)) as [->|Hne]; [|by rewrite list_lookup_insert_ne].
    simplify_eq. exfalso. destruct Hs as [o E Ho Hret|E|E]; [by eapply handles_silent|congruence..].
Qed.

(** C31: after [Accept] has failed the server takes at most three steps for each
    connection and two of its own, and until [Serve] has returned or the process has
    ended it can take one, if every running handler can return.  One peer that
    never sends NICK, or never sends USER, is enough to hinder it: its handler does
    not return, even when the connection is long gone, so [Serve] does not return
    and the session is not closed. *)
Theorem serve_ends sv :
  (sv_pc sv <> SAccept ->
    (forall n sv', nsteps server_step n sv sv' -> n <= sum_list ((fun _ => 3) <$> sv_conns sv) + 2) /\
    (sv_down sv = false ->
     (forall h, h ∈ sv_conns sv -> hd_pc h = HRun -> exists o, handles (hd_reader h) o /\ o <> Diverge) ->
     (exists err, sv_pc sv = SReturned err) \/ exists sv', server_step sv sv')) /\
  (forall reader sv', rtc server_step sv sv' -> (forall err, sv_pc sv <> SReturned err) ->
     accepted reader ∈ sv_conns sv -> silent_peer reader ->
     accepted reader ∈ sv_conns sv' /\ forall err, sv_pc sv' <> SReturned err).
Proof.
  split; [intros Hne; split|].
  - intros n sv' Hn. apply server_steps_rank in Hn; [|done]. unfold server_rank in Hn.
    assert (sum_list (handler_rank <$> sv_conns sv) <= sum_list ((fun _ => 3) <$> sv_conns sv)).
    { apply sum_list_mono. intros h. unfold handler_rank. destruct (hd_pc h); lia. }
    destruct (sv_pc sv), (sv_down sv); lia.
  - intros Hup Hall. by apply server_progress.
  - intros reader sv' Hr Hnr [i Hi]%list_elem_of_lookup Hsil.
    assert (sv_conns sv' !! i = Some (accepted reader) /\ forall err, sv_pc sv' <> SReturned err) as [Hi' ?].
    { clear -Hr Hnr Hi Hsil. induction Hr as [|sv sv1 sv' Hs _ IH]; [done|].
      destruct (silent_step sv sv1 i _ Hs Hi eq_refl Hsil) as [Hi1 Hnr1]. apply IH; [by apply Hnr1|done]. }
    split; [by eapply list_elem_of_lookup_2|done].
Qed.

End serve.

(** ** Example: one connection, served and closed; one peer that says nothing *)

Module ServeDemo.
Import Demo.

Definition says (cmd : string) (params : list string) : option Message :=
  Some {| m_Prefix := None; m_Command := cmd; m_Params := params |}.

Definition eve : list (option Message) := [says "NICK" ["eve"]; says "USER" ["eve"; "eve"; "*"; "eve"]; says "PING" ["x"]].

Lemma eve_served : handles rt eve (Ok ()).
Proof. exists (world store1). vm_compute. reflexivity. Qed.

(** [Serve] has returned the error of the listener. *)
Definition stopped : server := {|
  sv_pc := SReturned ErrUnavailable; sv_conns := [{| hd_reader := eve; hd_pc := HDone; hd_closed := 1 |}];
  sv_closed := 1; sv_down := false |}.

Lemma stopped_reached : rtc (server_step rt) NewServer stopped.
Proof.
  eapply rtc_l; [by apply st_Serve, (ss_Accept _ eve)|]. simpl.
  eapply rtc_l; [eapply st_handler, (g_step _ _ 0); [done|done|]; by eapply (hs_return _ _ (Ok ())); [|exact eve_served|]|]. simpl.
  eapply rtc_l; [by apply st_Serve, (ss_fail _ ErrUnavailable)|]. simpl.
  eapply rtc_l; [eapply st_handler, (g_step _ _ 0); [done|done|]; by apply hs_close|]. simpl.
  eapply rtc_l; [eapply st_handler, (g_step _ _ 0); [done|done|]; by apply hs_done|]. simpl.
  eapply rtc_l; [apply st_Serve; [done|]; eapply (ss_return _ ErrUnavailable); [done|by repeat constructor]|]. apply rtc_refl.
Qed.

(** A connection that ended before it said anything, and a listener that failed. *)
Definition stuck : server := {| sv_pc := SWait ErrUnavailable; sv_conns := [accepted []]; sv_closed := 0; sv_down := false |}.

End ServeDemo.

Import Demo.

Lemma serve_orderly_witness : sv_closed ServeDemo.stopped = 1 /\ exists err, sv_pc ServeDemo.stopped = SReturned err.
Proof.
  split; [reflexivity|].
  exact (proj1 (proj1 (proj2 (proj2 (serve_orderly Demo.rt ServeDemo.stopped ServeDemo.stopped_reached)))) eq_refl).
Defined.

Lemma serve_ends_witness : rtc (server_step Demo.rt) ServeDemo.stuck ServeDemo.stuck /\
  (forall sv', rtc (server_step Demo.rt) ServeDemo.stuck sv' -> forall err, sv_pc sv' <> SReturned err) /\
  (forall n sv', nsteps (server_step Demo.rt) n ServeDemo.stuck sv' -> n <= 5).
Proof.
  split; [apply rtc_refl|]. split.
  - intros sv' Hr. refine (proj2 (proj2 (serve_ends Demo.rt ServeDemo.stuck) [] sv' Hr _ _ _)).
    + discriminate.
    + by left.
    + left. constructor.
  - refine (proj1 (proj1 (serve_ends Demo.rt ServeDemo.stuck) _)). discriminate.
Defined.
