(* ===== verification/Guarantees.v ===== *)
(** * What the whole system guarantees

    Whatever a connected client sends, whatever the other servers, clients and
    administrators do meanwhile, and however the commands end: the store stays
    one that the commits of Net.v can make, so it represents a consistent
    network; and a command whose transaction returns took effect at one
    instant. *)

From S2P Require Import Prelude GoLib Mode Msg User Channel Key Etcd Stm Net Client Rep Refine Server Ctl System Demo.

(** ** Computations that keep a property of the store *)

Definition store_of (w : World) : Store := cl_store (w_cluster w).

Definition keeps (I : Store -> Prop) {A} (m : M A) : Prop :=
  forall w, I (store_of w) -> I (store_of (m w).2).

Section keeps.
Context (I : Store -> Prop).

Lemma keeps_ret {A} (a : A) : keeps I (mret a).
Proof. by intros w. Qed.

Lemma keeps_lift {A} (o : outcome A) : keeps I (lift o).
Proof. by intros w. Qed.

Lemma keeps_bind {A B} (m : M A) (f : A -> M B) :
  keeps I m -> (forall a, keeps I (f a)) -> keeps I (m ≫= f).
Proof.
  intros Hm Hf w Hw. specialize (Hm w Hw). unfold mbind, ST_mbind, ST_bind.
  destruct (m w) as [[a| | | |] w1]; simpl in *; try done. by apply Hf.
Qed.

Lemma keeps_ignore {A} (m : M A) : keeps I m -> keeps I (ignore_err m).
Proof. intros Hm w Hw. specialize (Hm w Hw). unfold ignore_err. by destruct (m w) as [[] ?]. Qed.

Lemma keeps_mapM {A} (f : A -> M unit) l : (forall a, keeps I (f a)) -> keeps I (mapM_ f l).
Proof.
  intros Hf. induction l as [|a l IH]; simpl; [apply keeps_ret|]. apply keeps_bind; [apply Hf|done].
Qed.

Lemma keeps_SendMsg rt m : keeps I (SendMsg rt m).
Proof. intros w Hw. unfold SendMsg, SendMsg_ctx. by destruct (ctx_at rt _). Qed.

Lemma keeps_SendMsg_ctx ctx m : keeps I (SendMsg_ctx ctx m).
Proof. intros w Hw. unfold SendMsg_ctx. by destruct ctx. Qed.

Lemma keeps_SendMsgSync m : keeps I (SendMsgSync m).
Proof. by intros w Hw. Qed.

Lemma keeps_monitorChannel ch rev : keeps I (monitorChannel ch rev).
Proof. by intros w Hw. Qed.

End keeps.

Create HintDb keeps.
#[export] Hint Resolve keeps_ret keeps_lift keeps_bind keeps_ignore keeps_mapM keeps_SendMsg
  keeps_SendMsg_ctx keeps_SendMsgSync keeps_monitorChannel : keeps.

(** ** Requests *)

Lemma keeps_lift_bind I {A B} (o : outcome A) (f : A -> M B) :
  (forall a, o = Ok a -> keeps I (f a)) -> keeps I (lift o ≫= f).
Proof. intros Hf w Hw. unfold mbind, ST_mbind, ST_bind, lift. destruct o; try done. by apply Hf. Qed.

Definition read_only {A} (f : Store -> outcome (A * Store)) : Prop :=
  forall st a st', f st = Ok (a, st') -> st' = st.

Definition is_get (op : Op) : bool := match op with OpGet _ _ _ => true | _ => false end.

Lemma applyOps_read st acc ops : forallb is_get ops = true -> (applyOps st acc ops).1 = acc.
Proof.
  revert acc. induction ops as [|[k rend r|k v l|k] ops IH]; intros acc; simpl; try done.
  intros Hg. destruct acc as [s ch]. specialize (IH (s, ch) Hg).
  cbn [applyOp]. by destruct (applyOps st (s, ch) ops) as [acc' rs].
Qed.

Lemma Txn_read ops : forallb is_get ops = true -> read_only (fun st => Txn st [] ops []).
Proof.
  intros Hg st tr st' HT. unfold Txn in HT. apply outcome_bind_ok in HT as (?&_&HT).
  cbn [forallb] in HT. apply outcome_bind_ok in HT as (?&_&HT).
  pose proof (applyOps_read st (current st, false) ops Hg) as E.
  destruct (applyOps st (current st, false) ops) as [acc rs]. simpl in E. subst acc. by simplify_eq/=.
Qed.

Section env.
Context (I : Store -> Prop) (rt : Runtime).
Context (Henv : forall k st, I st -> I (e_intf (rt_env rt) k st)).

Lemma keeps_request {A} (f : Store -> outcome (A * Store)) :
  (forall st a st', I st -> f st = Ok (a, st') -> I st') -> keeps I (in_cluster (request (rt_env rt) f)).
Proof.
  intros Hf w Hw. unfold in_cluster, request, store_of in *.
  pose proof (Henv (cl_clock (w_cluster w)) _ Hw) as Hi.
  destruct (e_fail (rt_env rt) (cl_clock (w_cluster w))); [done|].
  destruct (f (e_intf (rt_env rt) (cl_clock (w_cluster w)) (cl_store (w_cluster w))))
    as [[a st']|e| | |] eqn:E; simpl in *; try done. by eapply Hf.
Qed.

Lemma keeps_cliGet key rend rev : keeps I (cliGet rt key rend rev).
Proof.
  apply keeps_request. intros st a st' Hi E.
  apply outcome_bind_ok in E as (r&_&E). by simplify_eq.
Qed.

Lemma keeps_cliGetPrefix key rev : keeps I (cliGetPrefix rt key rev).
Proof. apply keeps_cliGet. Qed.

Lemma keeps_cliTxn_read ops : forallb is_get ops = true -> keeps I (cliTxn rt [] ops).
Proof.
  intros Hg. apply keeps_request. intros st a st' Hi E.
  by rewrite (Txn_read ops Hg _ _ _ E).
Qed.

End env.
#[export] Hint Resolve keeps_cliGet keeps_cliGetPrefix : keeps.

Lemma gets_read {A} (f : A -> string) (rev : Z) (l : list A) :
  forallb is_get ((fun a => OpGet (f a) None rev) <$> l) = true.
Proof. by induction l. Qed.

Ltac keeps_step :=
  lazymatch goal with
  | |- keeps _ (mbind _ _) => apply keeps_bind; [|intros ?]
  | |- keeps _ (match ?x with _ => _ end) => destruct x eqn:?
  | |- keeps _ (let '(_, _) := ?x in _) => destruct x eqn:?
  | |- keeps _ (mapM_ _ _) => apply keeps_mapM; intros ?
  | |- keeps _ (ignore_err _) => apply keeps_ignore
  | |- keeps _ _ => solve [auto with keeps]
  end.

Section queries.
Context `{Gob Message, Gob UserValue, Gob ChannelCtl, Gob ChannelNicks, Gob OperValue}.
Context (I : Store -> Prop) (rt : Runtime) (ec : etcdClient).
Context (Henv : forall k st, I st -> I (e_intf (rt_env rt) k st)).

Lemma keeps_sendHostMsg cmd ps : keeps I (sendHostMsg rt ec cmd ps).
Proof. apply keeps_SendMsg. Qed.
Hint Resolve keeps_sendHostMsg : keeps.

Lemma keeps_usersFromNicks ns rev : keeps I (usersFromNicks rt ec ns rev).
Proof.
  unfold usersFromNicks, userKeysFromNicks.
  repeat keeps_step. apply keeps_cliTxn_read; [done|]. apply gets_read.
Qed.

Hint Resolve keeps_usersFromNicks : keeps.

Lemma keeps_usersFromMask mask rev : keeps I (usersFromMask rt ec mask rev).
Proof.
  unfold usersFromMask, usersFromChannel, users. repeat keeps_step. by apply keeps_cliTxn_read.
Qed.

Lemma keeps_nameModes ch rev : keeps I (nameModes rt ch rev).
Proof. unfold nameModes. repeat keeps_step. Qed.
Hint Resolve keeps_usersFromMask keeps_nameModes : keeps.

Lemma keeps_Names ch : keeps I (Names rt ec ch).
Proof. unfold Names, names. cbv zeta. repeat keeps_step. Qed.

Lemma keeps_Who args : keeps I (Who rt ec args).
Proof. unfold Who. cbv zeta. repeat keeps_step. Qed.

Lemma keeps_Whois n : keeps I (Whois rt ec n).
Proof. unfold Whois, noSuchNick. cbv zeta. repeat keeps_step. Qed.

Lemma keeps_List chs : keeps I (List rt ec chs).
Proof.
  unfold List. cbv zeta. apply keeps_bind; [|intros ?; repeat keeps_step].
  apply keeps_cliTxn_read; [done|]. destruct chs as [|c chs]; [done|]. simpl. apply gets_read.
Qed.

Lemma keeps_Ping m : keeps I (Ping rt ec m).
Proof. unfold Ping. repeat keeps_step. Qed.

Lemma keeps_Die : keeps I (Die rt ec).
Proof. unfold Die. repeat keeps_step. Qed.

Lemma keeps_motd nick : keeps I (motd rt nick).
Proof. unfold motd, sendCli. cbv zeta. repeat keeps_step. Qed.
Hint Resolve keeps_motd : keeps.

Lemma keeps_welcome cr : keeps I (welcome rt cr).
Proof. unfold welcome, sendCli. cbv zeta. repeat keeps_step. Qed.

End queries.

(** ** Transactions among other users *)

(** What the others do: steps of the system, none of which, when clients own their
    sessions, registers the nick of this client under another session. *)
Record amid (dc : discipline) (env : Env)
    `{Gob Message, Gob UserValue, Gob ChannelCtl, Gob ChannelNicks, Gob OperValue} (nick : string) (lid : Z) : Prop := {
  oth_steps k st : wf_store st -> rtc (commit_step dc) st (e_intf env k st);
  oth_owns : if_owned dc (forall k st, reaches dc st -> owns_at (current st) nick lid ->
    owns_at (current (e_intf env k st)) nick lid);
}.
Notation others := (amid Owned).

(** Others that do nothing. *)
Lemma amid_still dc `{Gob Message, Gob UserValue, Gob ChannelCtl, Gob ChannelNicks, Gob OperValue} nick lid :
  amid dc {| e_intf := fun _ s => s; e_fail := fun _ => None |} nick lid.
Proof. split; [by intros k st _|]. by apply if_owned_intro. Qed.

Section commands.
Context `{Gob Message, Gob UserValue, Gob ChannelCtl, Gob ChannelNicks, Gob OperValue}.
Context (rt : Runtime) (ec : etcdClient) (lid : Z).

Notation me := (ec_nick ec).
Notation pfx := (ec_prefix ec).

(** The stores this client meets. *)
Definition fits (st : Store) : Prop := reachable st /\ owns_at (current st) me lid.

Lemma steps_ok {dc} st st' : wf_store st -> rtc (commit_step dc) st st' -> wf_store st' /\ extends st st'.
Proof.
  intros Hw Hs. induction Hs as [|st1 st2 st3 Hs _ IH]; [by split|].
  destruct (store_step_ok _ _ Hw Hs) as [Hw2 Hx]. destruct (IH Hw2). split; [done|by etrans].
Qed.

Lemma fits_net st n : fits st -> rep (current st) n -> owns n me lid.
Proof. intros [_ Ho] Hr. by eapply owns_rep. Qed.

(** A command, as a function on networks, takes effect at one instant between
    two stores, with the result [r]: there the store represents a consistent
    network, and just after it the store represents the network it is made. *)
Definition at_instant {R} (spec : Net -> option (R * Net)) (st0 st1 : Store) (r : R) : Prop :=
  exists st n n', rtc store_step st0 st /\ store_step st st1 /\
    rep (current st) n /\ net_ok n /\ spec n = Some (r, n') /\ rep (current st1) n'.

Section among.
Context (Hoth : others (rt_env rt) me lid).
Context (Hses : forall l, Session (rt_ses rt) = Ok l -> l = lid).

Lemma others_env_ok : env_ok (rt_env rt).
Proof. intros k st Hw. eapply steps_ok; [done|]. by apply (oth_steps _ _ _ _ Hoth). Qed.

Lemma others_fits k st : fits st -> fits (e_intf (rt_env rt) k st).
Proof.
  intros [Hr Ho]. split; [|by apply (oth_owns _ _ _ _ Hoth)].
  unfold reaches in *. etrans; [exact Hr|]. apply (oth_steps _ _ _ _ Hoth). by apply reachable_wf.
Qed.

Lemma keeps_doSTM_commits {V} (f : V -> stm V) keys v :
  (forall u st v' tr st', fits st -> commits f u st v' tr st' -> fits st') ->
  keeps fits (doSTM rt f v keys).
Proof.
  intros Hc.
  unfold doSTM. apply keeps_bind; [|intros [v' tr]; apply keeps_ret].
  intros w Hw. unfold in_cluster, store_of in *.
  pose proof (NewSTM_keeps (rt_env rt) others_env_ok f v keys fits (fun _ => True) (rt_attempts rt)
    (w_cluster w) others_fits (fun _ _ _ _ => Logic.I)) as HK.
  destruct (NewSTM (rt_env rt) (rt_attempts rt) f v keys (w_cluster w)) as [o c'] eqn:E.
  simpl in *. apply HK; [|by apply reachable_wf, Hw|exact Hw|done].
  intros u st v' tr st' _ _ Hst Hcom. by eapply Hc.
Qed.

Lemma drifts_steps st st' : wf_store st -> drift (rt_env rt) st st' -> rtc store_step st st'.
Proof.
  intros Hw Hd. induction Hd as [|a b c [k ->] _ IH]; [done|].
  pose proof (oth_steps _ _ _ _ Hoth k a Hw) as Hs. etrans; [exact Hs|]. apply IH.
  by eapply (steps_ok a).
Qed.

Section transaction.
Context {V R : Type} (f : V -> stm V) (keys : list string).
Context (l : Z) (pre : Net -> Prop) (spec : Net -> option (R * Net)) (out : V -> V -> R -> Prop) (wr : Net -> nat).
Context (Himp : forall u, implements l (f u) pre spec (out u) wr).
Context (Hpre : forall n, net_ok n -> owns n me lid -> pre n).
Context (Hkept : forall n r n', spec n = Some (r, n') -> lease_kept n n').
Context (Hstep : forall u st v' tr st', fits st -> commits f u st v' tr st' -> store_step st st').

(** A commit is the command on the network, and keeps what the client relies on. *)
Lemma commit_fits u st v' tr st' n :
  fits st -> rep (current st) n -> net_ok n -> commits f u st v' tr st' ->
  fits st' /\ exists r n', spec n = Some (r, n') /\ out u v' r /\ rep (current st') n'.
Proof.
  intros Hf Hr Hn Hc. pose proof (fits_net st n Hf Hr) as Ho.
  pose proof (reachable_wf st (proj1 Hf)) as Hw.
  destruct (commits_step _ _ _ _ _ _ _ _ _ _ _ _ (Himp u) Hw Hr (Hpre n Hn Ho) Hc)
    as (r&n'&Hs&Hout&Hr').
  split; [|by exists r, n']. split.
  - eapply rtc_r; [apply Hf|by eapply Hstep].
  - eapply rep_owns; [exact Hr'|]. by eapply kept_owns, Ho; eapply Hkept.
Qed.

Lemma fits_commit u st v' tr st' : fits st -> commits f u st v' tr st' -> fits st'.
Proof.
  intros Hf Hc. destruct (reachable_net st (proj1 Hf)) as [_ (n&Hr&Hn&_)].
  by eapply commit_fits.
Qed.

Lemma keeps_doSTM v : keeps fits (doSTM rt f v keys).
Proof. apply keeps_doSTM_commits, fits_commit. Qed.

(** The transaction of a command that returns took effect at one instant. *)
(** The commit behind the transaction of a handler. *)
Lemma doSTM_commits v w v' rev w' :
  fits (store_of w) -> doSTM rt f v keys w = (Ok (v', rev), w') ->
  exists u st tr, carried f v u /\ fits st /\ rtc store_step (store_of w) st /\
    commits f u st v' tr (store_of w') /\ rev = st_rev (store_of w') /\
    w' = set_cluster (w_cluster w') w /\ (rt_attempts rt = 1 -> u = v).
Proof.
  intros Hw HD. unfold doSTM in HD. apply ST_bind_ok in HD as ([v1 tr]&w1&HD&HR).
  unfold mret, ST_ret in HR. simplify_eq. unfold in_cluster in HD.
  destruct (NewSTM (rt_env rt) (rt_attempts rt) f v keys (w_cluster w)) as [o c'] eqn:E. simplify_eq.
  unfold NewSTM in E. destruct (runSTM _ _ _ _ _ _) as [o' [s' c1]] eqn:ER. simplify_eq.
  destruct (runSTM_serializable _ others_env_ok f keys _ _ _ _ _ _ _ _
    (newStm_inv _ (reachable_wf _ (proj1 Hw))) ER) as (u&st&Hu&Hwst&Hd&Hc&Hone).
  assert (fits st) as Hst by (eapply drift_keeps; [apply others_fits|exact Hw|exact Hd]).
  exists u, st, tr. split_and!; try done.
  - apply (drifts_steps (store_of w)); [|done]. apply reachable_wf, Hw.
  - destruct Hc as (ws&rs&_&HT). by destruct (Txn_ok _ _ _ _ _ _ Hwst HT) as (_&_&_&?).
Qed.

Lemma doSTM_instant v w v' rev w' :
  fits (store_of w) -> doSTM rt f v keys w = (Ok (v', rev), w') ->
  exists u r, carried f v u /\ out u v' r /\ at_instant spec (store_of w) (store_of w') r /\
    fits (store_of w') /\ rev = st_rev (store_of w') /\
    w' = set_cluster (w_cluster w') w /\ (rt_attempts rt = 1 -> u = v).
Proof.
  intros Hw HD. destruct (doSTM_commits v w v' rev w' Hw HD) as (u&st&tr&Hu&Hst&Hsteps&Hc&Hrev&Hw'&Hone).
  destruct (reachable_net st (proj1 Hst)) as [_ (n&Hr&Hn&_)].
  destruct (commit_fits _ _ _ _ _ _ Hst Hr Hn Hc) as [Hf' (r&n'&Hs&Ho&Hr')].
  exists u, r. split_and!; try done. exists st, n, n'. split_and!; try done. by eapply Hstep.
Qed.

End transaction.

End among.
End commands.

(** ** Registration *)

Section registration.
Context `{Gob Message, Gob UserValue, Gob ChannelCtl, Gob ChannelNicks, Gob OperValue}.
Context (rt : Runtime).
Context (Hsteps : forall k st, wf_store st -> rtc store_step st (e_intf (rt_env rt) k st)).

Lemma steps_reachable k st : reachable st -> reachable (e_intf (rt_env rt) k st).
Proof.
  intros Hr. unfold reaches in *. etrans; [exact Hr|]. apply Hsteps. by apply reachable_wf.
Qed.

(** [newEtcdClient] on a store the system can reach. *)
Lemma newEtcdClient_ok cr w o w' :
  reachable (store_of w) -> newEtcdClient rt cr w = (Ok o, w') ->
  reachable (store_of w') /\ w_out w' = w_out w /\
  exists lid st, Session (rt_ses rt) = Ok lid /\ rtc store_step (store_of w) st /\
  match o with
  | Some cli =>
    ec_nick cli = cr_nick cr /\ stored_user st (cr_nick cr) = None /\ store_step st (store_of w') /\
    stored_user (store_of w') (cr_nick cr) = Some (register_value rt lid cr)
  | None => store_of w' = st /\ is_Some (stored_user st (cr_nick cr))
  end.
Proof.
  intros Hr HN. unfold newEtcdClient in HN. apply ST_bind_ok in HN as (lid&w0&Hs&HN).
  unfold session, lift in Hs. simplify_eq. cbv zeta in HN.
  apply ST_bind_ok in HN as (tr&w1&HT&HN). unfold cliTxn, in_cluster, request, store_of in *.
  set (st := e_intf (rt_env rt) (cl_clock (w_cluster w0)) (cl_store (w_cluster w0))) in *.
  assert (rtc store_step (cl_store (w_cluster w0)) st) as Hst
    by (apply Hsteps; by apply reachable_wf).
  assert (reachable st) as Hrs by by apply steps_reachable.
  destruct (e_fail _ _); [done|].
  destruct (Txn st _ _ []) as [[tr1 st1]|e| | |] eqn:E; simplify_eq/=.
  destruct (reachable_net st Hrs) as [Hw (n&Hrep&Hn&_)].
  pose proof (register_refines st n lid (register_value rt lid cr) tr st1 Hw Hrep Hn eq_refl E) as Hreg.
  pose proof (rep_stored_user st n (cr_nick cr) Hrep) as Hsu.
  destruct (tr_Succeeded tr) eqn:Etr; cbn [negb] in HN.
  - destruct Hreg as (n'&Hspec&Hrep'). apply ST_bind_ok in HN as (user1&w2&Hu&HN).
    unfold lift in Hu. simplify_eq. unfold startClient in HN. simplify_eq/=.
    assert (store_step st st1) as Hstep by by eapply s_register.
    split_and!; [by eapply rtc_r|done|]. exists lid, st.
    unfold net_register in Hspec. cbn [uv_Nick register_value] in Hspec.
    destruct (n_users n !! cr_nick cr) eqn:Eu; [done|]. simplify_eq/=. split_and!; try done.
    rewrite (rep_stored_user _ _ _ Hrep'). simpl. by rewrite lookup_insert_eq.
  - destruct Hreg as [-> Hu]. unfold mret, ST_ret in HN. simplify_eq/=.
    split_and!; [done..|]. exists lid, st. rewrite Hsu. by split_and!.
Qed.

Lemma sendCli_store m : forall w w' o, sendCli rt m w = (o, w') -> store_of w' = store_of w.
Proof. intros w w' o. unfold sendCli, SendMsg_ctx. destruct (rt_cliCtx rt); intros ?; by simplify_eq. Qed.

Lemma handshake_loop_ok cr reader w cli cr' reader' w' :
  reachable (store_of w) -> handshake_loop rt cr reader w = (Ok (cli, cr', reader'), w') ->
  reachable (store_of w') /\ ec_nick cli = cr_nick cr' /\
  exists lid, Session (rt_ses rt) = Ok lid /\
    stored_user (store_of w') (cr_nick cr') = Some (register_value rt lid cr').
Proof.
  revert cr w. induction reader as [|rmsg reader IH]; intros cr w Hr HL; simpl in HL;
    apply ST_bind_ok in HL as (o&w1&HN&HL);
    destruct (newEtcdClient_ok _ _ _ _ Hr HN) as (Hr1&_&lid&st&Hs&_&Ho);
    (destruct o as [cli1|]; [unfold mret, ST_ret in HL; simplify_eq; split_and!;
      [done|apply Ho|exists lid; split; [done|apply Ho]]|]);
    apply ST_bind_ok in HL as ([]&w2&Hsend&HL);
    (assert (store_of w2 = store_of w1) as Hst
      by (unfold ignore_err in Hsend; destruct (sendCli rt _ w1) as [o1 w3] eqn:Ew;
          apply sendCli_store in Ew; destruct o1; by simplify_eq)).
  - unfold lift in HL. destruct (rt_cliCtx rt); simplify_eq.
  - rewrite <-Hst in Hr1. apply ST_bind_ok in HL as (msg&w4&Hmsg&HL). unfold lift in Hmsg. simplify_eq.
    case_bool_decide; [by eapply IH|]. case_bool_decide; [|done].
    apply ST_bind_ok in HL as (nn&w3&Hp&HL). unfold lift in Hp. simplify_eq. by eapply IH.
Qed.

End registration.
