(* ===== verification/Rely.v ===== *)
(** * What the processes of a client rely on and guarantee

    A client relies on the others to make steps of the system that leave its user
    the lease of its session, and guarantees that each of its requests leaves the
    store alone or is such a step, for every user.  [rg] states this of a process,
    for every answer it can get; it holds of every command, whatever the client is
    sent, and of the goroutines of a JOIN, each of which is among the others of
    each. *)

From S2P Require Import Prelude GoLib Mode Msg User Channel Key Etcd Stm Net Client Proc Reify Rep Refine Server Ctl System Demo Guarantees.

#[export] Instance KeyValue_eq_dec : EqDecision KeyValue.
Proof. solve_decision. Defined.

#[export] Instance Store_eq_dec : EqDecision Store.
Proof. solve_decision. Defined.

(** A process that only makes requests, of the kind [P]. *)
Fixpoint asks (P : forall R, kvop R -> Prop) {A} (p : proc A) : Prop :=
  match p with
  | PDone _ => True
  | PAct _ _ | PNow _ => False
  | PReq q k => P _ q /\ forall o, asks P (k o)
  end.

Lemma asks_mono (P Q : forall R, kvop R -> Prop) {A} (p : proc A) :
  (forall R q, P R q -> Q R q) -> asks P p -> asks Q p.
Proof.
  intros HPQ. induction p as [a|a k IH|k IH|R q k IH]; simpl; try done. intros [Hq Hk]. split; auto.
Qed.

Lemma asks_bind P {A B} (p : proc A) (f : A -> proc B) : asks P p -> (forall a, asks P (f a)) -> asks P (pbind p f).
Proof.
  intros Hp Hf. induction p as [a|a k IH|k IH|R q k IH]; simpl in *; try done. destruct Hp as [Hq Hk]. split; auto.
Qed.

(** A request that does not write. *)
Definition reading R (q : kvop R) : Prop := forall st a st', kv_do q st = Ok (a, st') -> st' = st.
Arguments reading {R} q.

Lemma reading_answer {R} (q : kvop R) e st : reading q -> (answer e q st).2 = st.
Proof.
  intros Hq. unfold answer. destruct e; [done|]. destruct (kv_do q st) as [[a st']| | | |] eqn:E; try done.
  by eapply Hq.
Qed.

Lemma reading_KGet key rend rev : reading (KGet key rend rev).
Proof. intros st a st' E. simpl in E. apply outcome_bind_ok in E as (r&_&E). by simplify_eq. Qed.

Lemma reading_KTxn ops : forallb is_get ops = true -> reading (KTxn [] ops []).
Proof. intros Hg. by apply Txn_read. Qed.

(** Before it commits, a transaction only reads. *)
Lemma asks_sbind P {A B} (m : sproc A) (f : A -> sproc B) s :
  asks P (m s) -> (forall a s', asks P (f a s')) -> asks P (sbind m f s).
Proof. intros Hm Hf. apply asks_bind; [done|]. intros [[] s']; simpl; done. Qed.

Lemma reads_fetch keys s : asks (@reading) (p_fetch keys s).
Proof.
  unfold p_fetch. case_bool_decide; [done|]. destruct (first_hit (rset s) keys); [done|].
  split; [|by intros []]. apply reading_KTxn, gets_read.
Qed.

Lemma reads_Get keys s : asks (@reading) (p_Get keys s).
Proof.
  unfold p_Get. destruct (wset_get (wset s) keys); [done|]. apply asks_sbind; [apply reads_fetch|].
  intros r s'. case_bool_decide; [by destruct r|done].
Qed.

Lemma reads_exec {A} (p : stm A) s : asks (@reading) (p_exec p s).
Proof.
  revert s. induction p as [o|key k IH|key k IH|key val l k IH|key k IH]; intros s; simpl; auto.
  - apply asks_sbind; [apply reads_Get|auto].
  - apply asks_sbind; [|auto]. apply asks_sbind; [apply reads_Get|]. intros _ s1.
    by apply asks_sbind; [apply reads_fetch|].
Qed.

Lemma reads_prefetch keys {A} (p : stm A) s : asks (@reading) (p_prefetch keys p s).
Proof.
  unfold p_prefetch. case_bool_decide; [apply reads_exec|].
  apply asks_sbind; [apply reads_Get|intros ? ?; apply reads_exec].
Qed.

Lemma asks_runSTM fuel keys {V} (f : V -> stm V) v s : asks (fun _ _ => True) (p_runSTM fuel keys f v s).
Proof.
  revert v s. induction fuel as [|fuel IH]; intros v s; simpl; [done|].
  apply asks_sbind; [by eapply asks_mono; [|apply reads_prefetch]|]. intros v' s1.
  apply asks_sbind; [|by intros [tr|] s2; [|apply IH]].
  split; [done|]. intros [tr| | | |]; try done. by destruct (tr_Succeeded tr).
Qed.

Section rely.
Context {dc : discipline}.
Context `{Gob Message, Gob UserValue, Gob ChannelCtl, Gob ChannelNicks, Gob OperValue}.

(** A step of the system after which every user has the lease it had. *)
Definition own_step (st st' : Store) : Prop :=
  commit_step dc st st' /\ forall nick l, owns_at (current st) nick l -> owns_at (current st') nick l.

(** ** Rely and guarantee *)

Section client.
Context (me : string) (lid : Z).

Definition rely (st st' : Store) : Prop :=
  rtc (commit_step dc) st st' /\ if_owned dc (owns_at (current st) me lid -> owns_at (current st') me lid).

#[export] Instance rely_preorder : PreOrder rely.
Proof.
  split; [intros st; split; [done|by apply if_owned_intro]|]. intros a b c [Hab Ho1] [Hbc Ho2].
  split; [by etrans|]. eapply if_owned_mono, if_owned_and; [|exact Ho1|exact Ho2]. naive_solver.
Qed.

(** The store is [st] after the last request of the process. *)
Fixpoint rg {A} (p : proc A) (st : Store) : Prop :=
  match p with
  | PDone _ => True
  | PAct _ k => rg k st
  | PNow k => forall n, rg (k n) st
  | PReq q k => forall st1 e, rely st st1 ->
    let '(o, st2) := answer e q st1 in (st2 = st1 \/ own_step st1 st2) /\ rg (k o) st2
  end.

Definition met (st : Store) : Prop := reaches dc st /\ if_owned dc (owns_at (current st) me lid).

Lemma own_rely st st' : own_step st st' -> rely st st'.
Proof. intros [Hs Ho]. split; [by apply rtc_once|by apply if_owned_intro, Ho]. Qed.

Lemma met_rely st st' : met st -> rely st st' -> met st'.
Proof.
  intros [Hr Ho] [Hs Ho']. split; [unfold reaches in *; by etrans|by eapply if_owned_mp].
Qed.

(** What the others do before a request. *)
Lemma amid_rely env k st : amid dc env me lid -> reaches dc st -> rely st (e_intf env k st).
Proof.
  intros Ho Hr. split; [apply (oth_steps _ _ _ _ Ho); by eapply reaches_wf|].
  eapply if_owned_mono, (oth_owns _ _ _ _ Ho). auto.
Qed.

(** What a request leaves is what the others could have left. *)
Lemma done_rely st st' : st' = st \/ own_step st st' -> rely st st'.
Proof. intros [->|Hs]; [done|by apply own_rely]. Qed.

Lemma rg_later {A} (p : proc A) st st' : rely st st' -> rg p st -> rg p st'.
Proof.
  intros Hs. revert st st' Hs. induction p as [a|a k IH|k IH|R q k IH]; intros st st' Hs Hp; simpl in *; eauto.
  intros st1 e Hs1. apply Hp. by etrans.
Qed.

Lemma rg_bind {A B} (p : proc A) (f : A -> proc B) st :
  met st -> rg p st -> (forall a st', rely st st' -> met st' -> rg (f a) st') -> rg (pbind p f) st.
Proof.
  revert st. induction p as [a|a k IH|k IH|R q k IH]; intros st Hm Hp Hf; simpl in *;
    [by apply Hf|by apply IH|intros n; by apply IH|].
  intros st1 e Hs. specialize (Hp st1 e Hs). destruct (answer e q st1) as [o st2] eqn:E.
  destruct Hp as [Hst Hk]. split; [done|]. apply done_rely in Hst.
  apply IH; [eapply met_rely, Hst; by eapply met_rely|done|].
  intros a st' Hs'. apply Hf. by do 2 (etrans; [eassumption|]).
Qed.

(** ** Rules for the computations of a client *)

Definition guards {A} (p : proc A) : Prop := forall st, met st -> rg p st.

Lemma guards_done {A} (a : A) : guards (PDone a).
Proof. by intros st. Qed.

Lemma guards_obind {A B} (p : proc (outcome A)) (f : A -> proc (outcome B)) :
  guards p -> (forall a, guards (f a)) -> guards (obind p f).
Proof. intros Hp Hf st Hm. apply rg_bind; [done|by apply Hp|]. intros [] st' _ Hm'; try done. by apply Hf. Qed.

Lemma guards_ignore {A} (p : proc (outcome A)) : guards p -> guards (pignore p).
Proof. intros Hp st Hm. apply rg_bind; [done|by apply Hp|done]. Qed.

Lemma guards_read {R} (q : kvop R) : reading q -> guards (PReq q PDone).
Proof.
  intros Hq st Hm st1 e _. pose proof (reading_answer q e st1 Hq).
  destruct (answer e q st1). split; [by left|done].
Qed.

(** A process keeps what the client relies on, if the others do. *)
Lemma rg_run env {A} (p : proc A) w :
  amid dc env me lid -> met (store_of w) -> rg p (store_of w) -> met (store_of (run env p w).2).
Proof.
  intros Ho. revert w. induction p as [a|a k IH|k IH|R q k IH]; intros w Hm Hp; simpl in *.
  - done.
  - destruct a; by apply IH.
  - by apply IH.
  - rewrite ask_answer. set (st1 := e_intf _ _ _).
    assert (rely (store_of w) st1) as Hs by by apply amid_rely, Hm.
    specialize (Hp st1 (e_fail env (cl_clock (w_cluster w))) Hs).
    destruct (answer _ q st1) as [o st2]. destruct Hp as [Hst Hk]. apply IH; [|done].
    eapply met_rely, done_rely, Hst. by eapply met_rely.
Qed.

(** ** Goroutines of the client: each is one of the others *)

Lemma rg_par_done o r rest st : (forall r, rg (rest r) st) -> rg (par_done o r rest) st.
Proof. intros Hr. destruct o; simpl; try done; apply Hr. Qed.

Lemma rg_par_rest ps r st : met st -> Forall (fun p => rg p st) ps -> rg (par_rest ps r) st.
Proof.
  revert r st. induction ps as [|p ps IH]; intros r st Hm Hps; [done|]. inversion_clear Hps as [|? ? Hp Hps'].
  apply rg_bind; [done..|]. intros o st' Hs Hm'. apply rg_par_done. intros r'. apply IH; [done|].
  eapply list.Forall_impl; [exact Hps'|]. intros p'. by apply rg_later.
Qed.

Lemma rg_par sched ps r st : met st -> Forall (fun p => rg p st) ps -> rg (par sched ps r) st.
Proof.
  revert ps r st. induction sched as [|i sched IH]; intros ps r st Hm Hps; [by apply rg_par_rest|].
  cbn [par]. destruct (ps !! i) as [p|] eqn:Hi; [|by apply IH].
  pose proof (Forall_lookup_1 _ _ _ _ Hps Hi) as Hp. destruct p as [o|a k|k|R q k]; simpl in Hp |- *.
  - apply rg_par_done. intros r'. apply IH; [done|]. by apply Forall_delete.
  - apply IH; [done|]. by apply Forall_insert.
  - intros n. apply IH; [done|]. by apply Forall_insert.
  - intros st1 e Hs. specialize (Hp st1 e Hs). destruct (answer e q st1) as [o st2].
    destruct Hp as [Hst Hk]. split; [done|]. apply done_rely in Hst.
    apply IH; [eapply met_rely, Hst; by eapply met_rely|]. apply Forall_insert; [|done].
    eapply list.Forall_impl; [exact Hps|]. intros p'. apply rg_later. by etrans.
Qed.

Lemma guards_par sched ps r : Forall guards ps -> guards (par sched ps r).
Proof. intros Hps st Hm. apply rg_par; [done|]. eapply list.Forall_impl; [exact Hps|]. intros p Hp. by apply Hp. Qed.

End client.

(** ** Transactions

    What a transaction does is known of its runs, whatever the others do; here
    this becomes a statement about its process, for every answer: for each answer
    there are others that make it. *)

Section transaction.
Context (me : string) (lid : Z).

(** Every request of one run leaves the store alone or makes an own step. *)
Fixpoint good (env : Env) {A} (p : proc A) (w : World) : Prop :=
  match p with
  | PDone _ => True
  | PAct a k => good env k (do_act a w)
  | PNow k => good env (k (cl_clock (w_cluster w))) w
  | PReq q k =>
    let st1 := e_intf env (cl_clock (w_cluster w)) (store_of w) in
    let '(o, w') := ask env q w in (store_of w' = st1 \/ own_step st1 (store_of w')) /\ good env (k o) w'
  end.

Lemma good_bind env {A B} (p : proc A) (f : A -> proc B) w :
  good env p w -> (let '(a, w') := run env p w in good env (f a) w') -> good env (pbind p f) w.
Proof.
  revert w. induction p as [a|a k IH|k IH|R q k IH]; intros w Hp Hf; simpl in *; auto.
  destruct (ask env q w) as [o w1]. destruct Hp. split; [done|]. by apply IH.
Qed.

(** The others that move the store from [st] to [st1] before one request. *)
Definition patch (env : Env) (n : nat) (st st1 : Store) (e : option error) : Env := {|
  e_intf := fun k s => if decide (k = n) then if decide (s = st) then st1 else s else e_intf env k s;
  e_fail := fun k => if decide (k = n) then e else e_fail env k |}.

Lemma patch_others env n st st1 e : amid dc env me lid -> rely me lid st st1 -> amid dc (patch env n st st1 e) me lid.
Proof.
  intros [Hst Ho] [Hs1 Ho1]. split.
  - intros k s Hs; simpl; (case_decide; [case_decide; subst|]); try done; auto.
  - eapply if_owned_mono, if_owned_and; [|exact Ho|exact Ho1]. intros [Ho' Ho1'] k s Hs; simpl.
    (case_decide; [case_decide; subst|]); try done; auto.
Qed.

Lemma good_patch env n st st1 e {A} (p : proc A) w :
  n < cl_clock (w_cluster w) -> good (patch env n st st1 e) p w -> good env p w.
Proof.
  revert w. induction p as [a|a k IH|k IH|R q k IH]; intros w Hn Hp; simpl in *; auto.
  - apply IH; [|done]. by destruct a.
  - rewrite ask_answer in *. cbn [e_intf e_fail patch] in Hp. rewrite !decide_False in Hp by lia.
    destruct (answer _ q _) as [o st2]. destruct Hp as [Hst Hk]. split; [done|]. apply IH; [simpl; lia|done].
Qed.

Lemma good_rg {A} (p : proc A) st m :
  asks (fun _ _ => True) p ->
  (forall env w, amid dc env me lid -> store_of w = st -> m <= cl_clock (w_cluster w) -> good env p w) ->
  rg me lid p st.
Proof.
  revert st m. induction p as [a|a k IH|k IH|R q k IH]; intros st m Ha Hg; simpl in *; try done.
  intros st1 e Hs. destruct (answer e q st1) as [o st2] eqn:E.
  assert (Hone : forall env w, amid dc env me lid -> store_of w = st -> m <= cl_clock (w_cluster w) ->
    (st2 = st1 \/ own_step st1 st2) /\
    good env (k o) (set_cluster {| cl_store := st2; cl_clock := S (cl_clock (w_cluster w)) |} w)).
  { intros env w Ho Hw Hm. set (n := cl_clock (w_cluster w)).
    specialize (Hg (patch env n st st1 e) w (patch_others _ _ _ _ _ Ho Hs) Hw Hm).
    rewrite ask_answer in Hg. subst st n. unfold store_of in Hg. cbn [e_intf e_fail patch] in Hg.
    rewrite !decide_True in Hg by done. rewrite E in Hg. destruct Hg as [Hst Hk]. split; [done|].
    eapply good_patch, Hk. simpl. lia. }
  split.
  - destruct (Hone {| e_intf := fun _ s => s; e_fail := fun _ => None |}
      {| w_cluster := {| cl_store := st; cl_clock := m |}; w_out := []; w_chCancel := ∅; w_watches := [];
         w_nextctx := 0 |}) as [? _]; first [apply amid_still|done].
  - apply (IH o _ (S m)); [apply Ha|]. intros env w Ho Hw Hm.
    set (w0 := set_cluster {| cl_store := st; cl_clock := pred (cl_clock (w_cluster w)) |} w).
    destruct (Hone env w0) as [_ Hk]; [done..|simpl; lia|]. revert Hk. unfold w0. simpl.
    replace (S (pred (cl_clock (w_cluster w)))) with (cl_clock (w_cluster w)) by lia.
    unfold set_cluster. simpl. rewrite <-Hw. unfold store_of. by destruct w as [[] ? ? ? ?].
Qed.

(** *** The run of a transaction *)

Section run.
Context (env : Env) (Hoth : amid dc env me lid).

Lemma others_ok : env_ok env.
Proof. intros k st Hw. eapply steps_ok; [done|]. by apply (oth_steps _ _ _ _ Hoth). Qed.

Lemma met_env k st : met me lid st -> met me lid (e_intf env k st).
Proof.
  intros Hm. eapply met_rely; [exact Hm|]. by apply amid_rely, Hm.
Qed.

Lemma met_drift st st' : met me lid st -> drift env st st' -> met me lid st'.
Proof. intros Hm Hd. eapply drift_keeps; [apply met_env|done|done]. Qed.

Lemma good_reads {A} (p : proc A) w : asks (@reading) p -> good env p w.
Proof.
  revert w. induction p as [a|a k IH|k IH|R q k IH]; intros w Hp; simpl in *; try done. destruct Hp as [Hq Hk].
  rewrite ask_answer. pose proof (reading_answer q (e_fail env (cl_clock (w_cluster w)))
    (e_intf env (cl_clock (w_cluster w)) (cl_store (w_cluster w))) Hq) as Hst.
  destruct (answer _ q _) as [o st2]. simpl in Hst. subst st2. split; [by left|]. by apply IH.
Qed.

Context {V : Type} (f : V -> stm V) (keys : list string).
Context (Hown : forall u st v' tr st', met me lid st -> commits f u st v' tr st' -> own_step st st').

(** The commit, at the store it meets. *)
Lemma commit_now v s c v' tr st' :
  stm_inv s c -> met me lid (cl_store c) ->
  (forall sn rs, agrees sn (rset s) -> exists rs', atomic (f v) sn ∅ rs = (Ok v', wset s, rs')) ->
  let st := e_intf env (cl_clock c) (cl_store c) in
  Txn st (rset_cmps (rset s)) (wset_puts (wset s))
    ((fun k => OpGet k None 0%Z) <$> (map_to_list (rset s)).*1) = Ok (tr, st') ->
  st' = st \/ own_step st st'.
Proof.
  intros Hi Hm Hat st HT. pose proof (met_env (cl_clock c) _ Hm) as Hm1. fold st in Hm1.
  destruct (others_ok (cl_clock c) (cl_store c)) as [Hw Hx]; [by eapply reaches_wf, Hm|]. fold st in Hw, Hx.
  destruct (Txn_branch _ _ _ _ _ _ HT) as [Hs HB]. destruct (tr_Succeeded tr) eqn:Es.
  - right. destruct (Hat (current st) ∅) as [rs' E]; [by eapply cmps_agree|].
    eapply Hown; [exact Hm1|]. by exists (wset s), rs'.
  - left. destruct HB as (tr'&HB&_). by destruct (Txn_gets_now st _ tr' _ HB).
Qed.

Lemma good_runSTM fuel v s w :
  stm_inv (reset s) (w_cluster w) -> met me lid (store_of w) -> good env (p_runSTM fuel keys f v s) w.
Proof.
  revert v s w. induction fuel as [|fuel IH]; intros v s w Hi Hm; simpl; [done|].
  apply good_bind; [apply good_reads, reads_prefetch|]. rewrite (sruns_prefetch env keys (f v) (reset s) w).
  destruct (with_prefetch env keys (f v) (reset s, w_cluster w)) as [o1 [s1 c1]] eqn:E1.
  destruct (attempt_inv env others_ok keys _ _ _ _ _ _ Hi E1) as (Hi1&Hd1&_&Ha).
  destruct o1 as [v1|e| | |]; try done. destruct (Ha v1 eq_refl) as [_ Hat].
  assert (met me lid (cl_store c1)) as Hm1 by by eapply met_drift. apply good_bind.
  - cbn [good p_commit]. rewrite ask_answer. cbn [w_cluster set_cluster].
    destruct (answer _ _ _) as [o st2] eqn:E. split; [|by destruct o as [tr| | | |]; [destruct (tr_Succeeded tr)|..]].
    unfold answer in E. cbn [kv_do] in E. destruct (e_fail env (cl_clock c1)); [simplify_eq; by left|].
    destruct (Txn _ _ _ _) as [[tr st']|e'| | |] eqn:ET; simplify_eq; try by left.
    by eapply (commit_now v s1 c1).
  - rewrite (sruns_commit env s1 (set_cluster c1 w)). cbn [w_cluster set_cluster].
    destruct (commit env (s1, c1)) as [o2 [s2 c2]] eqn:E2.
    destruct (commit_inv env others_ok _ _ _ _ _ Hi1 E2) as (Hw2&_&_&_&Hnone).
    destruct o2 as [[tr|]|e| | |]; try done. destruct (Hnone eq_refl) as (_&Hd2&Hfresh). apply IH.
    + apply reset_inv; [done|]. by apply fresh_sound.
    + by eapply met_drift.
Qed.

End run.

(** A transaction whose commits are own steps guarantees that. *)
Lemma guards_doSTM fuel {V} (f : V -> stm V) v keys :
  (forall u st v' tr st', met me lid st -> commits f u st v' tr st' -> own_step st st') ->
  guards me lid (p_doSTM fuel f v keys).
Proof.
  intros Hown st Hm. apply rg_bind; [done| |by intros [o s] ? _ _].
  apply (good_rg _ st 0); [apply asks_runSTM|]. intros env w Hoth <- _.
  apply good_runSTM; [done|done| |done]. apply newStm_inv. by eapply reaches_wf, Hm.
Qed.

(** The commit of a closure that implements a command of the network which leaves
    every user its lease. *)
Lemma commit_own {V R} (f : V -> stm V) l (pre : Net -> Prop) (spec : Net -> option (R * Net))
    (out : V -> V -> R -> Prop) wr :
  (forall u, implements_in dc l (f u) pre spec (out u) wr) ->
  (forall n, net_sound n -> if_owned dc (net_ok n /\ owns n me lid) -> pre n) ->
  (forall n r n', spec n = Some (r, n') -> lease_kept n n') ->
  (forall u st v' tr st', met me lid st -> commits f u st v' tr st' -> commit_step dc st st') ->
  forall u st v' tr st', met me lid st -> commits f u st v' tr st' -> own_step st st'.
Proof.
  intros Himp Hpre Hkept Hstep u st v' tr st' Hm Hc. split; [by eapply Hstep|]. intros nick l' Ho.
  destruct Hm as [Hr Hown]. destruct (reaches_net st Hr) as [Hw (n&Hrep&Hsn&Hn&_)].
  assert (pre n) as Hp by by apply Hpre, if_owned_and, (owns_net _ _ _ _ Hrep).
  destruct (commits_step _ _ _ _ _ _ _ _ _ _ _ _ (Himp u) Hw Hrep Hp Hc) as (r&n'&Hs&_&Hrep').
  eapply rep_owns; [exact Hrep'|]. eapply kept_owns; [by eapply Hkept|by eapply owns_rep].
Qed.

End transaction.

(** ** Every command *)

(** The others keep their end, so the client keeps its. *)
Section rules.
Context (me : string) (lid : Z).

Lemma guards_bind {A B} (m : Env -> M A) (f : Env -> A -> M B) Hm Hf :
  guards me lid (@proc_of _ m Hm) -> (forall a, guards me lid (@proc_of _ (fun env => f env a) (Hf a))) ->
  guards me lid (@proc_of _ _ (reified_bind m f Hm Hf)).
Proof. apply guards_obind. Qed.

Lemma guards_lift_bind {A B} (o : outcome A) (f : Env -> A -> M B) Hf :
  (forall a, o = Ok a -> guards me lid (@proc_of _ (fun env => f env a) (Hf a))) ->
  guards me lid (@proc_of _ _ (reified_bind _ f (reified_lift o) Hf)).
Proof. intros Hk st Hm. simpl. destruct o as [a| | | |]; try done. by apply Hk. Qed.

Lemma guards_ignore_err {A} (m : Env -> M A) Hm :
  guards me lid (@proc_of _ m Hm) -> guards me lid (@proc_of _ _ (reified_ignore m Hm)).
Proof. apply guards_ignore. Qed.

Lemma guards_mapM {A} (f : Env -> A -> M unit) l Hf :
  (forall a, guards me lid (@proc_of _ (fun env => f env a) (Hf a))) ->
  guards me lid (@proc_of _ _ (reified_mapM f l Hf)).
Proof. intros Hg. induction l as [|a l IH]; [apply guards_done|]. by apply guards_bind. Qed.

Lemma guards_send ctx m : guards me lid (@proc_of _ _ (reified_send ctx m)).
Proof. intros st Hm. by destruct ctx. Qed.

Lemma guards_SendMsg rt m : guards me lid (@proc_of _ _ (reified_SendMsg rt m)).
Proof. intros st Hm n. by apply guards_send. Qed.

Lemma guards_cliGet rt key rend rev : guards me lid (@proc_of _ _ (reified_cliGet rt key rend rev)).
Proof. apply guards_read, reading_KGet. Qed.

Lemma guards_cliTxn rt ops : forallb is_get ops = true -> guards me lid (@proc_of _ _ (reified_cliTxn rt [] ops)).
Proof. intros Hg. by apply guards_read, reading_KTxn. Qed.

End rules.
End rely.
