(* ===== verification/Conduct.v ===== *)
(** * The conduct of a connected client

    Every command, and so whatever a client is sent, relies on the others and
    guarantees as Rely.v says: the commands of Client.v one by one, the dispatch
    of Server.v, the goroutines of a JOIN, and the main loop. *)

From S2P Require Import Prelude GoLib Mode Msg User Channel Key Etcd Stm Net Client Proc Reify Rep Refine Server Ctl System Demo Guarantees Rely.

Create HintDb guards.

(** Without a session the closure of QUIT never returns a value. *)
Lemma Quit_no_session `{Gob Message, Gob UserValue, Gob ChannelNicks} rt ec msg u s v' ws rs :
  (forall l, Session (rt_ses rt) <> Ok l) -> atomic (Quit_txn rt ec msg u) s ∅ ∅ <> (Ok v', ws, rs).
Proof.
  intros Hno E. assert (arun (Quit_txn rt ec msg u) s ∅ = (Ok v', ws)) as E' by (unfold arun; by rewrite E).
  unfold Quit_txn in E'. rewrite arun_bind, arun_Get, arun_bind, arun_decode in E'.
  destruct (decodeUserValue _); simpl in E'; [|done].
  rewrite arun_bind, arun_ret in E'. destruct (Session (rt_ses rt)) as [l| | | |]; try done.
  by destruct (Hno l).
Qed.

(** Follow the process of a command, as [reify] made it. *)
Ltac guards :=
  cbv zeta;
  lazymatch goal with
  | |- guards _ _ (@proc_of _ _ (reified_bind _ _ _ _)) => apply guards_bind; [|intros ?]; guards
  | |- guards _ _ (@proc_of _ _ (reified_ignore _ _)) => apply guards_ignore_err; guards
  | |- guards _ _ (@proc_of _ _ (reified_mapM _ _ _)) => apply guards_mapM; intros ?; guards
  | |- guards _ _ (@proc_of _ _ (match ?x with _ => _ end)) => destruct x eqn:?; guards
  | |- guards _ _ (@proc_of _ _ (reified_send _ _)) => apply guards_send
  | |- guards _ _ (@proc_of _ _ (reified_SendMsg _ _)) => apply guards_SendMsg
  | |- guards _ _ (@proc_of _ _ (reified_hostMsg _ _ _)) => apply guards_SendMsg
  | |- guards _ _ (@proc_of _ _ (reified_sendHostMsg _ _ _ _)) => apply guards_SendMsg
  | |- guards _ _ (@proc_of _ _ (reified_noSuchNick _ _ _)) => apply guards_SendMsg
  | |- guards _ _ (@proc_of _ _ (reified_notOnChannel _ _ _)) => apply guards_SendMsg
  | |- guards _ _ (@proc_of _ _ (reified_chanOpNeeded _ _ _)) => apply guards_SendMsg
  | |- guards _ _ (@proc_of _ _ (reified_noChanModes _ _ _)) => apply guards_SendMsg
  | |- guards _ _ (@proc_of _ _ (reified_lift _)) => apply guards_done
  | |- guards _ _ (@proc_of _ _ (reified_ret _)) => apply guards_done
  | |- guards _ _ (@proc_of _ _ (reified_cliGet _ _ _ _)) => apply guards_cliGet
  | |- guards _ _ (@proc_of _ _ (reified_cliTxn _ [] _)) => apply guards_cliTxn; first [done|apply gets_read|simpl; apply gets_read]
  | |- _ => solve [auto with guards]
  end.

Section client.
Context {dc : discipline}.
Context `{Gob Message, Gob UserValue, Gob ChannelCtl, Gob ChannelNicks, Gob OperValue}.
Context (rt : Runtime) (ec : etcdClient) (lid : Z).
Context (Hses : if_owned dc (forall l, Session (rt_ses rt) = Ok l -> l = lid)).

Notation guards := (guards (dc := dc) (ec_nick ec) lid).

(** ** Queries *)

Lemma guards_ctxErr : guards (proc_of (fun env => ctxErr (with_env env rt))).
Proof. intros st Hm n. done. Qed.

Lemma guards_monitor ch rev : guards (proc_of (fun _ => monitorChannel ch rev)).
Proof. done. Qed.
Hint Resolve guards_ctxErr guards_monitor : guards.

Lemma guards_usersFromNicks ns rev : guards (proc_of (fun env => usersFromNicks (with_env env rt) ec ns rev)).
Proof. unfold reified_usersFromNicks, usersFromNicks, userKeysFromNicks. guards. Qed.
Hint Resolve guards_usersFromNicks : guards.

Lemma guards_usersFromMask mask rev : guards (proc_of (fun env => usersFromMask (with_env env rt) ec mask rev)).
Proof. unfold reified_usersFromMask, usersFromMask, usersFromChannel, users, cliGetPrefix. guards. Qed.

Lemma guards_nameModes ch rev : guards (proc_of (fun env => nameModes (with_env env rt) ch rev)).
Proof. unfold reified_nameModes, nameModes, cliGetPrefix. guards. Qed.
Hint Resolve guards_usersFromMask guards_nameModes : guards.

Lemma guards_names ch rev : guards (proc_of (fun env => names (with_env env rt) ec ch rev)).
Proof. unfold reified_names, names. guards. Qed.

Lemma guards_Who args : guards (proc_of (fun env => Who (with_env env rt) ec args)).
Proof. unfold reified_Who, Who. guards. Qed.

Lemma guards_noSuchNick n : guards (proc_of (fun env => noSuchNick (with_env env rt) ec n)).
Proof. apply guards_SendMsg. Qed.
Hint Resolve guards_names guards_noSuchNick : guards.

Lemma guards_Whois n : guards (proc_of (fun env => Whois (with_env env rt) ec n)).
Proof. unfold reified_Whois, Whois. guards. Qed.

Lemma guards_List chs : guards (proc_of (fun env => List (with_env env rt) ec chs)).
Proof. unfold reified_List, List. destruct chs; guards. Qed.

Lemma guards_Ping m : guards (proc_of (fun env => Ping (with_env env rt) ec m)).
Proof. unfold reified_Ping, Ping. guards. Qed.

Lemma guards_Die : guards (proc_of (fun env => Die (with_env env rt) ec)).
Proof. unfold reified_Die, Die. guards. Qed.

Hint Resolve guards_Who guards_Whois guards_List guards_Ping guards_Die : guards.

(** ** Commands that write *)

(** What the client has of its user it has of the session it acts under. *)
Lemma session_owned l (P : Z -> Prop) : Session (rt_ses rt) = Ok l -> if_owned dc (P lid) -> if_owned dc (P l).
Proof. intros Hl. revert Hses. destruct dc; simpl; [|done]. intros Hs. by rewrite (Hs l Hl). Qed.

(** What the closures of the commands ask of the network. *)
Lemma net_owned l n : Session (rt_ses rt) = Ok l ->
  if_owned dc (net_ok n /\ owns n (ec_nick ec) lid) -> if_owned dc (owns n (ec_nick ec) l).
Proof. intros Hl Ho. apply (session_owned l (owns n (ec_nick ec)) Hl). revert Ho. apply if_owned_mono. by intros [_ ?]. Qed.

Lemma net_consistent n (P : Prop) : if_owned dc (net_ok n /\ P) -> if_owned dc (net_ok n).
Proof. apply if_owned_mono. by intros [? _]. Qed.

Ltac guards_txn lem kept step :=
  apply guards_doSTM; eapply commit_own;
    [intros u; apply lem; try assumption
    |intros; first [by eapply net_owned|by eapply net_consistent|done]
    |intros ? ? ?; apply kept
    |intros ? ? ? ? ? [? ?] ?; eapply step; cycle -1;
       [eassumption|..]; first [by eapply (session_owned _ (owns_at _ _))|eassumption]].

Lemma guards_ClientJoin ch : guards (proc_of (fun env => ClientJoin (with_env env rt) ec ch)).
Proof.
  unfold reified_ClientJoin, ClientJoin. apply guards_lift_bind. intros l Hl.
  apply guards_bind; [|intros ?; guards]. guards_txn (@Join_implements dc) join_kept (@s_join dc).
Qed.

Lemma guards_Part ch msg : guards (proc_of (fun env => Part (with_env env rt) ec ch msg)).
Proof.
  unfold reified_Part, Part. apply guards_lift_bind. intros l Hl.
  apply guards_bind; [|intros ?; guards]. guards_txn (@Part_implements dc) part_kept (@s_part dc).
Qed.

Lemma guards_chanMode ch m : guards (proc_of (fun env => chanMode (with_env env rt) ec ch m)).
Proof.
  unfold reified_chanMode, chanMode. apply guards_bind; [apply guards_done|intros l].
  apply guards_bind; [|intros ?; guards]. guards_txn (@chanMode_implements dc) chanMode_kept (@s_chanMode dc).
Qed.

Lemma guards_userMode m : guards (proc_of (fun env => userMode (with_env env rt) ec m)).
Proof.
  unfold reified_userMode, userMode. apply guards_bind; [|intros ?; guards].
  guards_txn (userMode_implements (dc := dc) rt ec lid) userMode_kept (@s_userMode dc).
Qed.

Lemma guards_Away msg : guards (proc_of (fun env => Away (with_env env rt) ec msg)).
Proof.
  unfold reified_Away, Away. apply guards_bind; [|intros ?; guards].
  guards_txn (Away_implements (dc := dc) ec lid) away_kept (@s_away dc).
Qed.

Lemma guards_Quit msg : guards (proc_of (fun env => Quit (with_env env rt) ec msg)).
Proof.
  unfold reified_Quit, Quit. apply guards_bind; [|intros ?; guards].
  assert ((exists l, Session (rt_ses rt) = Ok l) \/ forall l, Session (rt_ses rt) <> Ok l) as [[l Hs]|Hs]
    by (destruct (Session (rt_ses rt)) as [l| | | |]; [left; by exists l|right..]; done); cycle 1.
  { apply guards_doSTM. intros u st v' tr st' _ (ws&rs&E&_). exfalso. eapply Quit_no_session, E. exact Hs. }
  guards_txn (Quit_implements (dc := dc) rt ec l) quit_kept (@s_quit dc).
Qed.

Lemma guards_Oper login pass : guards (proc_of (fun env => Oper (with_env env rt) ec login pass)).
Proof.
  unfold reified_Oper, Oper. apply guards_bind; [|intros ?; guards].
  guards_txn (Oper_implements (dc := dc) ec lid) oper_kept (@s_oper dc).
Qed.

Lemma guards_kick ch nick msg : guards (proc_of (fun env => kick (with_env env rt) ec ch nick msg)).
Proof.
  unfold reified_kick, kick. apply guards_bind; [apply guards_done|intros l].
  apply guards_bind; [|intros ?; guards]. guards_txn (@kick_implements dc) kick_kept (@s_kick dc).
Qed.

Lemma guards_Topic ch msg : guards (proc_of (fun env => Topic (with_env env rt) ec ch msg)).
Proof.
  unfold reified_Topic, Topic. apply guards_bind; [apply guards_done|intros l].
  apply guards_bind; [|intros ?; guards]. guards_txn (@Topic_implements dc) topic_kept (@s_topic dc).
Qed.

Lemma guards_privMsgUser target msg : guards (proc_of (fun env => privMsgUser (with_env env rt) ec target msg)).
Proof.
  unfold reified_privMsgUser, privMsgUser. apply guards_bind; [|intros ?; guards].
  guards_txn (privMsgUser_implements (dc := dc) ec lid) privMsgUser_kept (@s_privMsgUser dc).
Qed.

Lemma guards_privMsgChan ch msg : guards (proc_of (fun env => privMsgChan (with_env env rt) ec ch msg)).
Proof.
  unfold reified_privMsgChan, privMsgChan. apply guards_bind; [|intros ?; guards].
  guards_txn (privMsgChan_implements (dc := dc) ec lid) privMsgChan_kept (@s_privMsgChan dc).
Qed.

Hint Resolve guards_ClientJoin guards_Part guards_chanMode guards_userMode guards_Away guards_Quit guards_Oper
  guards_kick guards_Topic guards_privMsgUser guards_privMsgChan : guards.

(** ** Dispatch and the main loop *)

#[export] Instance reified_Joins chs : Reified (fun env => Joins (with_env env rt) ec chs).
Proof.
  by refine {| proc_of := PNow (fun n => par (rt_sched rt n) (join_goroutine rt ec <$> chs) (Ok None)) |}.
Defined.

#[export] Instance reified_param msg i : Reified (fun _ => param msg i).
Proof. apply reified_lift. Defined.

#[export] Instance reified_motd nick : Reified (fun env => motd (with_env env rt) nick).
Proof. change (Reified (fun _ => motd rt nick)). unfold motd, sendCli. reify. Defined.

#[export] Instance reified_needMoreParams : Reified (fun env => needMoreParams (with_env env rt) ec).
Proof. apply reified_sendHostMsg. Defined.

#[export] Instance reified_badChanMask ch : Reified (fun env => badChanMask (with_env env rt) ec ch).
Proof. apply reified_sendHostMsg. Defined.

#[export] Instance reified_noSuchChannel ch : Reified (fun env => noSuchChannel (with_env env rt) ec ch).
Proof. apply reified_sendHostMsg. Defined.

#[export] Instance reified_Kick ch nicks msg : Reified (fun env => Kick (with_env env rt) ec ch nicks msg).
Proof. unfold Kick. reify. Defined.

#[export] Instance reified_Mode m : Reified (fun env => Mode (with_env env rt) ec m).
Proof. unfold Mode. reify. Defined.

#[export] Instance reified_PrivMsg target msg : Reified (fun env => PrivMsg (with_env env rt) ec target msg).
Proof. unfold PrivMsg. reify. Defined.

#[export] Instance reified_ClientDo msg : Reified (fun env => ClientDo (with_env env rt) ec msg).
Proof.
  unfold ClientDo, do_KICK, do_AWAY, do_WHOIS, do_JOIN, do_PART, do_TOPIC, Names. reify.
Defined.

#[export] Instance reified_dispatch nick msg : Reified (fun env => dispatch (with_env env rt) nick ec msg).
Proof. unfold dispatch. reify. Defined.

#[export] Instance reified_serve nick reader : Reified (fun env => serve (with_env env rt) nick ec reader).
Proof. induction reader as [|msg reader IH]; cbn [serve]; reify. Defined.

#[export] Hint Opaque Joins param motd needMoreParams badChanMask noSuchChannel Kick Mode PrivMsg ClientDo
  dispatch serve : typeclass_instances.

Lemma guards_Joins chs : guards (proc_of (fun env => Joins (with_env env rt) ec chs)).
Proof.
  intros st Hm n. apply guards_par; [|done]. apply list.Forall_fmap, list.Forall_true. intros ch.
  apply guards_ClientJoin.
Qed.

Lemma guards_param msg i : guards (proc_of (fun _ => param msg i)).
Proof. apply guards_done. Qed.

Lemma guards_motd nick : guards (proc_of (fun env => motd (with_env env rt) nick)).
Proof. change (guards (@proc_of _ (fun _ => motd rt nick) (reified_motd nick))). unfold reified_motd, motd, sendCli. guards. Qed.

Lemma guards_needMoreParams : guards (proc_of (fun env => needMoreParams (with_env env rt) ec)).
Proof. apply guards_SendMsg. Qed.

Lemma guards_badChanMask ch : guards (proc_of (fun env => badChanMask (with_env env rt) ec ch)).
Proof. apply guards_SendMsg. Qed.

Lemma guards_noSuchChannel ch : guards (proc_of (fun env => noSuchChannel (with_env env rt) ec ch)).
Proof. apply guards_SendMsg. Qed.

Hint Resolve guards_Joins guards_param guards_motd guards_needMoreParams guards_badChanMask
  guards_noSuchChannel : guards.

Lemma guards_Kick ch nicks msg : guards (proc_of (fun env => Kick (with_env env rt) ec ch nicks msg)).
Proof. unfold reified_Kick, Kick. guards. Qed.

Lemma guards_Mode m : guards (proc_of (fun env => Mode (with_env env rt) ec m)).
Proof. unfold reified_Mode, Mode. guards. Qed.

Lemma guards_PrivMsg target msg : guards (proc_of (fun env => PrivMsg (with_env env rt) ec target msg)).
Proof. unfold reified_PrivMsg, PrivMsg. guards. Qed.
Hint Resolve guards_Kick guards_Mode guards_PrivMsg : guards.

Lemma guards_ClientDo msg : guards (proc_of (fun env => ClientDo (with_env env rt) ec msg)).
Proof.
  unfold reified_ClientDo, ClientDo, do_KICK, do_AWAY, do_WHOIS, do_JOIN, do_PART, do_TOPIC, Names. guards.
Qed.
Hint Resolve guards_ClientDo : guards.

(** Whatever a connected client is sent, it keeps its guarantee. *)
Lemma guards_serve nick reader : guards (proc_of (fun env => serve (with_env env rt) nick ec reader)).
Proof.
  induction reader as [|m reader IH]; [apply guards_done|]. apply guards_bind; [apply guards_done|intros msg].
  apply guards_bind; [|done].
  unfold reified_dispatch, dispatch. guards.
Qed.

Lemma serve_met nick reader w :
  amid dc (rt_env rt) (ec_nick ec) lid -> met (dc := dc) (ec_nick ec) lid (store_of w) ->
  met (dc := dc) (ec_nick ec) lid (store_of (serve rt nick ec reader w).2).
Proof.
  intros Ho Hm. pose proof (proc_of_run (m := fun env => serve (with_env env rt) nick ec reader) (rt_env rt) w) as E.
  cbn beta in E. rewrite with_env_same in E. rewrite E. apply rg_run; [done|done|]. by apply guards_serve.
Qed.

End client.
