(* ===== verification/Linear.v ===== *)
(** * Commands among other users

    A handler of Client.v that returns without an error took effect at one
    instant between its call and its return, whatever the other users of etcd
    did meanwhile, and its replies tell what happened at that instant. *)

From S2P Require Import Prelude GoLib Mode Msg User Channel Key Etcd Stm Net Client Proc Rep Refine Server Ctl System Demo Guarantees.

(** ** Computations that only use the cluster *)

Definition silent {A} (m : M A) : Prop := forall w,
  exists c, (m w).2 = set_cluster c w /\ cl_clock (w_cluster w) <= cl_clock c.

Lemma silent_ret {A} (a : A) : silent (mret a).
Proof. intros w. exists (w_cluster w). by rewrite set_cluster_same. Qed.

Lemma silent_lift {A} (o : outcome A) : silent (lift o).
Proof. intros w. exists (w_cluster w). by rewrite set_cluster_same. Qed.

Lemma silent_request {A} env (f : Store -> outcome (A * Store)) : silent (in_cluster (request env f)).
Proof.
  intros w. unfold in_cluster, request. destruct (e_fail _ _); [|destruct (f _) as [[? ?]| | | |]];
    eexists; (split; [done|]); simpl; lia.
Qed.

Lemma silent_bind {A B} (m : M A) (f : A -> M B) :
  silent m -> (forall a, silent (f a)) -> silent (m ≫= f).
Proof.
  intros Hm Hf w. destruct (Hm w) as [c [Hc Hle]]. unfold mbind, ST_mbind, ST_bind.
  destruct (m w) as [[a| | | |] w1]; simpl in *; subst; try by exists c.
  destruct (Hf a (set_cluster c w)) as [c' [-> Hle']]. exists c'. split; [done|]. simpl in *. lia.
Qed.

Section queries.
Context `{Gob Message, Gob UserValue, Gob ChannelCtl, Gob ChannelNicks, Gob OperValue}.
Context (rt : Runtime) (ec : etcdClient).

Ltac silent_step :=
  lazymatch goal with
  | |- silent (mbind _ _) => apply silent_bind; [|intros ?]
  | |- silent (mret _) => apply silent_ret
  | |- silent (lift _) => apply silent_lift
  | |- silent (if ?x then _ else _) => destruct x
  | |- silent (cliTxn _ _ _) => apply silent_request
  | |- silent (cliGetPrefix _ _ _) => apply silent_request
  end.

Lemma silent_usersFromNicks ns rev : silent (usersFromNicks rt ec ns rev).
Proof. unfold usersFromNicks, userKeysFromNicks. repeat silent_step. Qed.

Lemma silent_usersFromMask mask rev : silent (usersFromMask rt ec mask rev).
Proof.
  unfold usersFromMask, usersFromChannel, users.
  repeat first [apply silent_usersFromNicks|silent_step].
Qed.

Lemma silent_nameModes ch rev : silent (nameModes rt ch rev).
Proof. unfold nameModes. repeat silent_step. Qed.

(** A message to the client. *)
Definition reply (cmd : string) (params : list string) : Message :=
  hostMsg rt cmd (ec_nick ec :: params).

Lemma SendMsg_ok m w u w' :
  SendMsg rt m w = (Ok u, w') -> ctx_at rt (cl_clock (w_cluster w)) = None /\ w' = add_out m w.
Proof. unfold SendMsg, SendMsg_ctx. destruct (ctx_at rt _); intros ?; by simplify_eq. Qed.

Lemma sendHostMsg_ok cmd ps w u w' :
  sendHostMsg rt ec cmd ps w = (Ok u, w') -> w' = add_out (reply cmd ps) w.
Proof. by intros [_ ->]%SendMsg_ok. Qed.

(** While the context is not done, a message is sent. *)
Lemma SendMsg_live m w : ctx_at rt (cl_clock (w_cluster w)) = None -> SendMsg rt m w = (Ok (), add_out m w).
Proof. intros Hc. unfold SendMsg, SendMsg_ctx. by rewrite Hc. Qed.

Lemma ignore_SendMsg m w :
  ctx_at rt (cl_clock (w_cluster w)) = None -> ignore_err (SendMsg rt m) w = (Ok (), add_out m w).
Proof. intros Hc. unfold ignore_err. by rewrite SendMsg_live. Qed.

Lemma ctx_earlier j k : j <= k -> ctx_at rt k = None -> ctx_at rt j = None.
Proof.
  unfold ctx_at. destruct (rt_ctx rt) as [[d e]|]; [|done]. intros Hle.
  destruct (Nat.leb_spec d k); [done|]. destruct (Nat.leb_spec d j); [lia|done].
Qed.

Lemma ctx_never k : rt_ctx rt = None -> ctx_at rt k = None.
Proof. unfold ctx_at. by intros ->. Qed.

End queries.

(** The values of the variables a closure can return. *)
Lemma returns_bind {A B} (p : stm A) (f : A -> stm B) b :
  returns (p ≫= f) b -> exists a, returns p a /\ returns (f a) b.
Proof.
  unfold mbind, stm_mbind. induction p as [o|key k IH|key k IH|key val l k IH|key k IH]; simpl.
  - destruct o as [a|e| | |]; simpl; try (intros Hr; by inversion Hr).
    intros Hr. exists a. split; [constructor|done].
  - intros Hr. inversion Hr as [|? ? v ? Hv| | |]; simplify_eq. apply IH in Hv as (a&?&?).
    exists a. split; [by econstructor|done].
  - intros Hr. inversion Hr as [| |? ? v ? Hv| |]; simplify_eq. apply IH in Hv as (a&?&?).
    exists a. split; [by econstructor|done].
  - intros Hr. inversion Hr as [| | |? ? ? ? ? Hv|]; simplify_eq. apply IH in Hv as (a&?&?).
    exists a. split; [by econstructor|done].
  - intros Hr. inversion Hr as [| | | |? ? ? Hv]; simplify_eq. apply IH in Hv as (a&?&?).
    exists a. split; [by econstructor|done].
Qed.

Lemma returns_mret {A} (a b : A) : returns (mret a) b -> b = a.
Proof. intros Hr. by inversion Hr. Qed.

(** What the variables keep, attempt after attempt. *)
Lemma carried_keeps {V} (f : V -> stm V) (Q : V -> Prop) v u :
  (forall x y, Q x -> returns (f x) y -> Q y) -> carried f v u -> Q v -> Q u.
Proof. intros HQ Hc. induction Hc as [|x y z Hr _ IH]; [done|]. intros Hx. by eapply IH, HQ. Qed.

(** ** A connected client *)

Section linear.
Context `{Gob Message, Gob UserValue, Gob ChannelCtl, Gob ChannelNicks, Gob OperValue}.

Record connected (rt : Runtime) (ec : etcdClient) (lid : Z) (w : World) : Prop := {
  con_others : others (rt_env rt) (ec_nick ec) lid;
  con_ses l : Session (rt_ses rt) = Ok l -> l = lid;
  con_fits : fits ec lid (store_of w);
}.

(** A query of the modes never asks for operator rights. *)
Lemma chanMode_query_keeps rt ec l ch x y :
  cm_notOp x = false -> returns (chanMode_txn rt ec l ch [] x) y -> cm_notOp y = false.
Proof.
  intros Hx Hr. unfold chanMode_txn in Hr. apply returns_bind in Hr as (cv&_&Hr). cbv zeta in Hr.
  case_bool_decide; [by apply returns_mret in Hr as ->|].
  apply returns_bind in Hr as (cc&_&Hr). apply returns_bind in Hr as (ns&_&Hr).
  apply returns_bind in Hr as (cns&_&Hr). destruct (find cns (ec_nick ec)); [|by apply returns_mret in Hr as ->].
  cbn in Hr. by apply returns_mret in Hr as ->.
Qed.

(** Nor does a query of the topic. *)
Lemma Topic_query_keeps ec l ch x y :
  t_notOnChan x = false /\ t_notOp x = false -> returns (Topic_txn ec l ch None x) y ->
  t_notOnChan y = false /\ t_notOp y = false.
Proof.
  intros Hx Hr. unfold Topic_txn in Hr. cbv zeta in Hr. apply returns_bind in Hr as (z&_&Hr).
  destruct (z =? 0)%Z; [by apply returns_mret in Hr as ->|].
  apply returns_bind in Hr as (cs&_&Hr). apply returns_bind in Hr as (chv&_&Hr).
  by apply returns_mret in Hr as ->.
Qed.

(** An OTR message never looks at the flag of plain text. *)
Lemma privMsgUser_otr_keeps ec target msg x y :
  HasPrefix msg "?OTR" = true ->
  pu_badOtr x = false -> returns (privMsgUser_txn ec target msg x) y -> pu_badOtr y = false.
Proof.
  intros Ho Hx Hr. unfold privMsgUser_txn in Hr. cbv zeta in Hr. apply returns_bind in Hr as (z&_&Hr).
  destruct (z =? 0)%Z; [by apply returns_mret in Hr as ->|].
  do 4 apply returns_bind in Hr as (?&_&Hr). rewrite Ho in Hr. cbn [negb andb] in Hr.
  destruct (has _ _); apply returns_bind in Hr as (?&_&Hr); by apply returns_mret in Hr as ->.
Qed.

Lemma net_topic_msg me pfx l ch msg n r n' :
  net_topic me pfx l ch msg n = Some (r, n') ->
  (forall t, r = TTopic t -> msg = None) /\ (r = TSet -> msg <> None).
Proof.
  intros Hs. unfold net_topic in Hs.
  destruct (n_chans n !! ch) as [cc|]; [|by simplify_eq]. destruct msg as [t|]; [|by simplify_eq].
  destruct (has (cc_Mode cc) "t"); [|by simplify_eq].
  destruct (n_members n !! (ch, l)); simplify_eq/=. repeat case_match; by simplify_eq.
Qed.

(** The replies of a handler that has returned. *)
Ltac replies Hk :=
  simpl in Hk; first
    [ apply sendHostMsg_ok in Hk as ->; done
    | apply SendMsg_ok in Hk as [_ ->]; done
    | unfold mret, ST_ret in Hk; simplify_eq; rewrite ?app_nil_r; done
    | match goal with |- context [if ?b then _ else _] => destruct b; replies Hk end ].

Section handlers.
Context (rt : Runtime) (ec : etcdClient) (lid : Z).

Notation me := (ec_nick ec).
Notation pfx := (ec_prefix ec).
Notation reply := (reply rt ec).

(** The first transaction of a handler that returns. *)
Lemma handler_instant {V R} (f : V -> stm V) keys l (pre : Net -> Prop) (spec : Net -> option (R * Net))
    out wr v (k : V * Z -> M unit) w w' :
  (forall u, implements l (f u) pre spec (out u) wr) ->
  (forall n, net_ok n -> owns n me lid -> pre n) ->
  (forall n r n', spec n = Some (r, n') -> lease_kept n n') ->
  (forall u st v' tr st', fits ec lid st -> commits f u st v' tr st' -> store_step st st') ->
  connected rt ec lid w -> (doSTM rt f v keys ≫= k) w = (Ok (), w') ->
  exists u v' r w1, carried f v u /\ out u v' r /\ at_instant spec (store_of w) (store_of w1) r /\
    fits ec lid (store_of w1) /\ w_out w1 = w_out w /\ (rt_attempts rt = 1 -> u = v) /\
    k (v', st_rev (store_of w1)) w1 = (Ok (), w').
Proof.
  intros Himp Hpre Hkept Hstep [Ho Hs Hf] HD. apply ST_bind_ok in HD as ([v' rev]&w1&HD&Hk).
  destruct (doSTM_instant rt ec lid Ho f keys l pre spec out wr Himp Hpre Hkept Hstep v w v' rev w1 Hf HD)
    as (u&r&Hu&Hout&Hat&Hf1&->&Hw1&Hone).
  exists u, v', r, w1. split_and!; try done. by rewrite Hw1.
Qed.

Definition part_replies (ch : string) (r : bool) : list Message :=
  if r then [] else [reply irc.ERR_NOTONCHANNEL [ch; "You're not on that channel"]].

(** PART takes effect at one instant: for some moment between the call and
    the return, the user is on the channel there exactly when no error is sent, and
    the store then loses the channel of the user, his nick in the list of his
    session, and gets the PART message, all at once. *)
Lemma part_instant ch msg w w' :
  connected rt ec lid w -> Part rt ec ch msg w = (Ok (), w') ->
  exists r, at_instant (net_part me pfx lid ch msg) (store_of w) (store_of w') r /\
    w_out w' = w_out w ++ part_replies ch r.
Proof.
  intros Hc HP. unfold Part in HP. apply ST_bind_ok in HP as (l&w0&Hs&HP).
  unfold session, lift in Hs. simplify_eq. rewrite (con_ses _ _ _ _ Hc l) in HP by done.
  eapply handler_instant in HP as (u&v'&r&w1&_&Hout&Hat&_&Hw1&_&Hk);
    [|intros u; apply Part_implements|done|intros ? ? ?; apply part_kept|
     intros ? ? ? ? ? [? ?] ?; by eapply s_part|done].
  exists r. rewrite <-Hw1. simpl in Hout. subst v'. unfold part_replies. replies Hk.
Qed.

(** QUIT takes effect at one instant: the user, his message box and his nick
    in the lists of all his channels disappear together, and the last message of
    each of those channels is the QUIT. *)
Lemma quit_instant msg w w' :
  connected rt ec lid w -> Session (rt_ses rt) = Ok lid -> Quit rt ec msg w = (Ok (), w') ->
  at_instant (net_quit me pfx lid msg) (store_of w) (store_of w') () /\ w_out w' = w_out w.
Proof.
  intros Hc Hs HP. unfold Quit in HP.
  eapply handler_instant in HP as (u&v'&r&w1&_&Hout&Hat&_&Hw1&_&Hk);
    [|intros u; by apply (Quit_implements rt ec lid)|done|intros ? ? ?; apply quit_kept|
     intros ? ? ? ? ? [? ?] ?; by eapply s_quit|done].
  destruct r. by replies Hk.
Qed.

Definition away_reply (msg : string) : Message :=
  if bool_decide (msg = "") then reply irc.RPL_UNAWAY ["You are no longer marked as being away"]
  else reply irc.RPL_NOWAWAY ["You have been marked as being away"].

(** AWAY takes effect at one instant, and the reply says which way. *)
Lemma away_instant msg w w' :
  connected rt ec lid w -> Away rt ec msg w = (Ok (), w') ->
  at_instant (net_away me msg) (store_of w) (store_of w') () /\ w_out w' = w_out w ++ [away_reply msg].
Proof.
  intros Hc HP. unfold Away in HP.
  eapply handler_instant in HP as (u&v'&r&w1&_&Hout&Hat&_&Hw1&_&Hk);
    [|intros u; apply (Away_implements ec lid)|done|intros ? ? ?; apply away_kept|
     intros ? ? ? ? ? ? ?; by eapply s_away|done].
  destruct r. unfold away_reply. rewrite <-Hw1. case_bool_decide; replies Hk.
Qed.

Definition mode_replies (ch : string) (r : mode_result) : list Message :=
  match r with
  | MNoChan => [reply irc.ERR_NOCHANMODES [ch; "Channel doesn't support modes"]]
  | MNotOn => [reply irc.ERR_NOTONCHANNEL [ch; "You're not on that channel"]]
  | MNotOp => [reply irc.ERR_CHANOPRIVSNEEDED [ch; "You're not channel operator"]]
  | MModes m => [hostMsg rt irc.MODE [ch; String.string_of_list_ascii m]]
  end.

(** MODE on a channel takes effect at one instant and its reply is true of that
    instant: no such channel, not on it, not an operator of it, or the modes after
    the update.  Nothing is changed unless the user is a channel operator. *)
Lemma chanMode_instant ch m w w' :
  connected rt ec lid w -> chanMode rt ec ch m w = (Ok (), w') ->
  exists l r, es_s (rt_ses rt) = Some l /\
    at_instant (net_chanMode me l (chan_update rt m) (bool_decide (m = [])) ch) (store_of w) (store_of w') r /\
    w_out w' = w_out w ++ mode_replies ch r.
Proof.
  intros Hc HP. unfold chanMode in HP. apply ST_bind_ok in HP as (l&w0&Hs&HP).
  unfold lift in Hs. simplify_eq. destruct (es_s (rt_ses rt)) as [l0|]; simplify_eq/=.
  eapply handler_instant in HP as (u&v'&r&w1&Hu&Hout&Hat&_&Hw1&_&Hk);
    [|intros u; apply chanMode_implements|done|intros ? ? ?; apply chanMode_kept|
     intros ? ? ? ? ? [? ?] ?; by eapply s_chanMode|done].
  exists l, r. split; [done|]. rewrite <-Hw1.
  assert (m = [] -> cm_notOp u = false) as Hno.
  { intros ->. eapply (carried_keeps _ (fun v => cm_notOp v = false)) in Hu; [exact Hu| |done].
    intros x y. apply chanMode_query_keeps. }
  specialize (Hout Hno). unfold chanMode_means in Hout. unfold mode_replies.
  destruct r; destruct_and?; destruct v'; simplify_eq/=; replies Hk.
Qed.

Definition oper_reply (r : bool) : Message :=
  if r then reply irc.RPL_YOUREOPER ["You are now an IRC operator"]
  else reply irc.ERR_PASSWDMISMATCH ["Password incorrect"].

(** OPER takes effect at one instant.  When it gives operator rights there, the
    client is told so; when no attempt was abandoned, the reply is true in every
    case. *)
Lemma oper_instant login pass w w' :
  connected rt ec lid w -> Oper rt ec login pass w = (Ok (), w') ->
  exists r, at_instant (net_oper me login pass) (store_of w) (store_of w') r /\
    (r = true \/ rt_attempts rt = 1 -> w_out w' = w_out w ++ [oper_reply r]).
Proof.
  intros Hc HP. unfold Oper in HP.
  eapply handler_instant in HP as (u&v'&r&w1&_&Hout&Hat&_&Hw1&Hone&Hk);
    [|intros u; apply (Oper_implements ec lid)|done|intros ? ? ?; apply oper_kept|
     intros ? ? ? ? ? ? ?; by eapply s_oper|done].
  exists r. split; [destruct v'; replies Hk|]. intros Hr. simpl in Hout. rewrite <-Hw1, <-Hout by naive_solver.
  unfold oper_reply. replies Hk.
Qed.

Definition kick_replies (ch nick : string) (r : kick_result) : list Message :=
  match r with
  | KNotOnChan => [reply irc.ERR_NOTONCHANNEL [ch; "You're not on that channel"]]
  | KUserNotOn => [reply irc.ERR_USERNOTINCHANNEL [nick; ch; "User not in channel"]]
  | KNotOp => [reply irc.ERR_CHANOPRIVSNEEDED [ch; "You're not channel operator"]]
  | KKicked => []
  end.

(** KICK takes effect at one instant: only an operator of the channel removes a
    user, from the user's channels and from the list of the user's own session at
    once.  The reply is true of that instant, except that an abandoned attempt may
    hide that the client is no operator. *)
Lemma kick_instant ch nick msg w w' :
  connected rt ec lid w -> kick rt ec ch nick msg w = (Ok (), w') ->
  exists r, at_instant (net_kick me pfx lid ch nick msg) (store_of w) (store_of w') r /\
    (r <> KNotOp \/ rt_attempts rt = 1 -> w_out w' = w_out w ++ kick_replies ch nick r).
Proof.
  intros Hc HP. unfold kick in HP. apply ST_bind_ok in HP as (l&w0&Hs&HP).
  unfold session, lift in Hs. simplify_eq. rewrite (con_ses _ _ _ _ Hc l) in HP by done.
  eapply handler_instant in HP as (u&v'&r&w1&_&Hout&Hat&_&Hw1&Hone&Hk);
    [|intros u; apply kick_implements|done|intros ? ? ?; apply kick_kept|
     intros ? ? ? ? ? [? ?] ?; by eapply s_kick|done].
  exists r. split; [destruct v' as [[] [] []]; replies Hk|]. intros Hr. rewrite <-Hw1.
  assert (kick_means v' r) as Hm by (apply Hout; naive_solver). unfold kick_means in Hm.
  unfold kick_replies. destruct r; destruct_and?; destruct v'; simplify_eq/=; replies Hk.
Qed.

(** C6: leaving takes effect at one instant.  PART: the user is on the channel there
    exactly when no error is sent, and the store then loses the channel of the user,
    his nick in the list of his session, and gets the PART message, all at once.
    KICK: only an operator of the channel removes a user, from the user's channels and
    from the list of the user's own session at once; the reply is true of that instant,
    except that an abandoned attempt may hide that the client is no operator.  QUIT:
    the user, his message box and his nick in the lists of all his channels disappear
    together, and the last message of each of those channels is the QUIT. *)
Theorem leave_linearizable msg w :
  connected rt ec lid w ->
  (forall ch w', Part rt ec ch msg w = (Ok (), w') ->
     exists r, at_instant (net_part me pfx lid ch msg) (store_of w) (store_of w') r /\
       w_out w' = w_out w ++ part_replies ch r) /\
  (forall ch nick w', kick rt ec ch nick msg w = (Ok (), w') ->
     exists r, at_instant (net_kick me pfx lid ch nick msg) (store_of w) (store_of w') r /\
       (r <> KNotOp \/ rt_attempts rt = 1 -> w_out w' = w_out w ++ kick_replies ch nick r)) /\
  (forall w', Session (rt_ses rt) = Ok lid -> Quit rt ec msg w = (Ok (), w') ->
     at_instant (net_quit me pfx lid msg) (store_of w) (store_of w') () /\ w_out w' = w_out w).
Proof. intros Hc. split_and!; intros; [by apply part_instant|by apply kick_instant|by apply quit_instant]. Qed.

Definition topic_replies (ch : string) (r : topic_result) : list Message :=
  match r with
  | TNoChan => [reply irc.ERR_NOCHANMODES [ch; "Channel doesn't support modes"]]
  | TNotOn => [reply irc.ERR_NOTONCHANNEL [ch; "You're not on that channel"]]
  | TNotOp => [reply irc.ERR_CHANOPRIVSNEEDED [ch; "You're not channel operator"]]
  | TTopic t => [reply irc.TOPIC [ch; t]]
  | TSet => []
  end.

(** TOPIC takes effect at one instant, and its reply is true of that instant,
    except that an abandoned attempt may make a topic that was set look refused. *)
Lemma topic_instant ch msg w w' :
  connected rt ec lid w -> Topic rt ec ch msg w = (Ok (), w') ->
  exists r, at_instant (net_topic me pfx lid ch msg) (store_of w) (store_of w') r /\
    (r <> TSet \/ rt_attempts rt = 1 -> w_out w' = w_out w ++ topic_replies ch r).
Proof.
  intros Hc HP. unfold Topic in HP. apply ST_bind_ok in HP as (l&w0&Hs&HP).
  unfold session, lift in Hs. simplify_eq. rewrite (con_ses _ _ _ _ Hc l) in HP by done.
  eapply handler_instant in HP as (u&v'&r&w1&Hu&Hout&Hat&_&Hw1&Hone&Hk);
    [|intros u; apply Topic_implements|done|intros ? ? ?; apply topic_kept|
     intros ? ? ? ? ? [? ?] ?; by eapply s_topic|done].
  exists r. split.
  { destruct v' as [t [] [] []]; try by replies Hk. destruct (bool_decide (msg = None)); replies Hk. }
  intros Hr. rewrite <-Hw1.
  assert (msg = None -> t_notOnChan u = false /\ t_notOp u = false) as Hq.
  { intros ->. eapply (carried_keeps _ (fun v => t_notOnChan v = false /\ t_notOp v = false)) in Hu;
      [exact Hu| |done]. intros x y. apply Topic_query_keeps. }
  assert (Topic_means v' r) as Hm by (apply Hout; naive_solver). unfold Topic_means in Hm.
  assert ((forall t, r = TTopic t -> msg = None) /\ (r = TSet -> msg <> None)) as [Hmsg Hset].
  { destruct Hat as (st&n&n'&_&_&_&_&Hn&_). by eapply net_topic_msg. }
  unfold topic_replies. destruct r; destruct_and?; destruct v'; simplify_eq/=; try by replies Hk.
  - rewrite bool_decide_true in Hk by eauto. replies Hk.
  - rewrite bool_decide_false in Hk by eauto. replies Hk.
Qed.

(** C7: the commands of a channel's header take effect at one instant.  MODE: its
    reply is true of that instant (no such channel, not on it, not an operator of
    it, or the modes after the update), and nothing is changed unless the user is a
    channel operator.  TOPIC: its reply is true of that instant, except that an
    abandoned attempt may make a topic that was set look refused. *)
Theorem moderation_linearizable ch w :
  connected rt ec lid w ->
  (forall m w', chanMode rt ec ch m w = (Ok (), w') ->
     exists l r, es_s (rt_ses rt) = Some l /\
       at_instant (net_chanMode me l (chan_update rt m) (bool_decide (m = [])) ch) (store_of w) (store_of w') r /\
       w_out w' = w_out w ++ mode_replies ch r) /\
  (forall msg w', Topic rt ec ch msg w = (Ok (), w') ->
     exists r, at_instant (net_topic me pfx lid ch msg) (store_of w) (store_of w') r /\
       (r <> TSet \/ rt_attempts rt = 1 -> w_out w' = w_out w ++ topic_replies ch r)).
Proof. intros Hc. split; intros; [by apply chanMode_instant|by apply topic_instant]. Qed.

Definition userMode_replies (m : list string) (mode : ModeValue) : list Message :=
  if bool_decide (m = []) then [reply irc.RPL_UMODEIS [String.string_of_list_ascii mode]]
  else reply irc.MODE [String.string_of_list_ascii mode] ::
       ((fun b => reply irc.ERR_UMODEUNKNOWNFLAG [string_of_byte b +:+ " is unknown mode char to me"])
         <$> (updates [] m userModePerms).2).

Lemma mapM_send {A} (msg : A -> string * list string) l w w' :
  mapM_ (fun a => sendHostMsg rt ec (msg a).1 (msg a).2) l w = (Ok (), w') ->
  store_of w' = store_of w /\ w_out w' = w_out w ++ ((fun a => reply (msg a).1 (msg a).2) <$> l).
Proof.
  revert w. induction l as [|a l IH]; intros w HM; simpl in HM.
  - unfold mret, ST_ret in HM. simplify_eq/=. by rewrite app_nil_r.
  - apply ST_bind_ok in HM as ([]&w1&Hs&HM). apply sendHostMsg_ok in Hs as ->.
    apply IH in HM as [-> ->]. split; [done|]. csimpl. by rewrite <-app_assoc.
Qed.

(** MODE on the own nick takes effect at one instant; the reply has the modes
    the user has just after it, and one error for every letter that is refused. *)
Lemma userMode_instant m w w' :
  connected rt ec lid w -> userMode rt ec m w = (Ok (), w') ->
  exists mode, at_instant (net_userMode me (user_update rt m)) (store_of w) (store_of w') mode /\
    w_out w' = w_out w ++ userMode_replies m mode.
Proof.
  intros Hc HP. unfold userMode in HP.
  eapply handler_instant in HP as (u&v'&r&w1&_&Hout&Hat&_&Hw1&Hone&Hk);
    [|intros u; apply (userMode_implements rt ec lid)|done|intros ? ? ?; apply userMode_kept|
     intros ? ? ? ? ? ? ?; by eapply s_userMode|done].
  exists r. simpl in Hout. subst v'. unfold userMode_replies. rewrite <-Hw1. cbn beta iota in Hk.
  case_bool_decide; [by replies Hk|].
  apply ST_bind_ok in Hk as ([]&w2&Hs&Hk). apply sendHostMsg_ok in Hs as ->.
  apply (mapM_send (fun b => (irc.ERR_UMODEUNKNOWNFLAG, [string_of_byte b +:+ " is unknown mode char to me"])))
    in Hk as [Hst ->].
  split; [by rewrite Hst|]. simpl. by rewrite <-app_assoc.
Qed.

Definition privMsgUser_replies (target : string) (r : privmsg_result) : list Message :=
  match r with
  | PNoNick => [reply irc.ERR_NOSUCHNICK [target; "No such nick/channel"]]
  | PNotSent => [reply irc.ERR_NOTEXTTOSEND [target; "No text to send"]]
  | PAway | PSent => []
  end.

(** A message to a user takes effect at one instant: it is delivered to his
    message box, unless he is away (then the sender's own box gets his away message)
    or it is plain text between users one of whom wants encryption. *)
Lemma privMsgUser_instant target msg w w' :
  connected rt ec lid w -> privMsgUser rt ec target msg w = (Ok (), w') ->
  exists r, at_instant (net_privMsgUser me pfx target msg) (store_of w) (store_of w') r /\
    (r <> PAway \/ rt_attempts rt = 1 -> w_out w' = w_out w ++ privMsgUser_replies target r).
Proof.
  intros Hc HP. unfold privMsgUser in HP.
  eapply handler_instant in HP as (u&v'&r&w1&Hu&Hout&Hat&_&Hw1&Hone&Hk);
    [|intros u; apply (privMsgUser_implements ec lid)|done|intros ? ? ?; apply privMsgUser_kept|
     intros ? ? ? ? ? [? ?] ?; by eapply s_privMsgUser|done].
  exists r. split; [destruct v' as [[] []]; replies Hk|]. intros Hr. rewrite <-Hw1.
  assert (HasPrefix msg "?OTR" = true -> pu_badOtr u = false) as Hq.
  { intros Hotr. eapply (carried_keeps _ (fun v => pu_badOtr v = false)) in Hu; [exact Hu| |done].
    intros x y. by apply privMsgUser_otr_keeps. }
  assert (privMsgUser_means v' r) as Hm by (apply Hout; naive_solver). unfold privMsgUser_means in Hm.
  unfold privMsgUser_replies. destruct r; destruct_and?; destruct v'; simplify_eq/=; replies Hk.
Qed.

Definition privMsgChan_replies (ch : string) (r : privmsg_result) : list Message :=
  match r with
  | PNoNick => [reply irc.ERR_NOSUCHNICK [ch; "No such nick/channel"]]
  | PNotSent => [reply irc.ERR_CANNOTSENDTOCHAN [ch; "Cannot send to channel"]]
  | PAway | PSent => []
  end.

(** A message to a channel takes effect at one instant: on a moderated channel
    only an operator or a voiced member of the sender's session speaks. *)
Lemma privMsgChan_instant ch msg w w' :
  connected rt ec lid w -> privMsgChan rt ec ch msg w = (Ok (), w') ->
  exists r, at_instant (net_privMsgChan me pfx ch msg) (store_of w) (store_of w') r /\
    (r <> PSent \/ rt_attempts rt = 1 -> w_out w' = w_out w ++ privMsgChan_replies ch r).
Proof.
  intros Hc HP. unfold privMsgChan in HP.
  eapply handler_instant in HP as (u&v'&r&w1&Hu&Hout&Hat&_&Hw1&Hone&Hk);
    [|intros u; apply (privMsgChan_implements ec lid)|intros; by apply net_ok_sound|intros ? ? ?; apply privMsgChan_kept|
     intros ? ? ? ? ? [? ?] ?; by eapply s_privMsgChan|done].
  exists r. split; [destruct v' as [[] []]; replies Hk|]. intros Hr. rewrite <-Hw1.
  assert (privMsgChan_means v' r) as Hm by (apply Hout; naive_solver). unfold privMsgChan_means in Hm.
  unfold privMsgChan_replies. destruct r; destruct_and?; destruct v'; simplify_eq/=; replies Hk.
Qed.

(** C9: AWAY, OPER and MODE on the own nick take effect at one instant each.  The
    replies are true of it: the away mode, the modes after the update with one error
    for every letter that is refused, and, where operator rights are given or no
    attempt was abandoned, whether they are. *)
Theorem profile_linearizable w w' :
  connected rt ec lid w ->
  (forall msg, Away rt ec msg w = (Ok (), w') ->
     at_instant (net_away me msg) (store_of w) (store_of w') () /\
     w_out w' = w_out w ++ [away_reply msg]) /\
  (forall login pass, Oper rt ec login pass w = (Ok (), w') ->
     exists r, at_instant (net_oper me login pass) (store_of w) (store_of w') r /\
       (r = true \/ rt_attempts rt = 1 -> w_out w' = w_out w ++ [oper_reply r])) /\
  (forall m, userMode rt ec m w = (Ok (), w') ->
     exists mode, at_instant (net_userMode me (user_update rt m)) (store_of w) (store_of w') mode /\
       w_out w' = w_out w ++ userMode_replies m mode).
Proof. intros. split_and!; eauto using away_instant, oper_instant, userMode_instant. Qed.

(** C8: a message takes effect at one instant.  One to a user is delivered to his
    box, unless he is away (then the sender's own box gets his away message) or it is
    plain text between users one of whom wants encryption.  One to a channel is
    delivered unless the channel is moderated and the sender has no voice there.  The
    replies are true of that instant, but for what an abandoned attempt left. *)
Theorem privMsg_linearizable msg w w' :
  connected rt ec lid w ->
  (forall target, privMsgUser rt ec target msg w = (Ok (), w') ->
     exists r, at_instant (net_privMsgUser me pfx target msg) (store_of w) (store_of w') r /\
       (r <> PAway \/ rt_attempts rt = 1 -> w_out w' = w_out w ++ privMsgUser_replies target r)) /\
  (forall ch, privMsgChan rt ec ch msg w = (Ok (), w') ->
     exists r, at_instant (net_privMsgChan me pfx ch msg) (store_of w) (store_of w') r /\
       (r <> PSent \/ rt_attempts rt = 1 -> w_out w' = w_out w ++ privMsgChan_replies ch r)).
Proof. intros. split_and!; eauto using privMsgUser_instant, privMsgChan_instant. Qed.

Definition topic_reply (ch topic : string) : Message :=
  if bool_decide (topic = "") then reply irc.RPL_NOTOPIC [ch; "No topic is set"]
  else reply irc.RPL_TOPIC [ch; topic].

End handlers.
End linear.

(** ** A client among others, computed

    bob acts on the network of Demo.v while alice leaves #c just before the
    second request: transactions that read the members of #c run twice. *)

Module LinearDemo.
Import Demo.

Definition leave : bool -> stm bool := Part_txn alice 7 "#c" "bye".

Definition busy : Env := {|
  e_intf := fun k st =>
    if bool_decide (k = 1) && owns_b st "alice" 7 && did_ok leave false st then did leave false st else st;
  e_fail := fun _ => None |}.

Definition rt : Runtime := rt_with busy 3.

Lemma busy_others : others busy "bob" 7.
Proof.
  split.
  - intros k st _. simpl. destruct (_ && _ && _) eqn:E; [|apply rtc_refl].
    apply andb_true_iff in E as [[_ Ho]%andb_true_iff Hd].
    apply did_commits in Hd as (v'&tr&Hc). apply rtc_once.
    apply (s_part _ _ alice 7 "#c" "bye" false v' tr); [by apply (owns_b_ok st "alice")|exact Hc].
  - intros k st Hr Hown. simpl in *. destruct (_ && _ && _) eqn:E; [|exact Hown].
    apply andb_true_iff in E as [[_ Ho]%andb_true_iff Hd].
    apply did_commits in Hd as (v'&tr&Hc). apply owns_b_ok in Ho.
    destruct (reachable_net st Hr) as [Hw (n&Hrep&Hn&_)].
    eapply commits_step in Hc as (r&n'&Hs&_&Hr'); [|apply Part_implements|done|done|by eapply owns_rep].
    eapply rep_owns; [exact Hr'|]. eapply kept_owns; [by eapply part_kept|]. by eapply owns_rep.
Qed.

Lemma bob_connected : connected rt bob 7 (world store4).
Proof.
  split; [apply busy_others|by intros l [= <-]|].
  split; [apply reachable4|]. apply owns_b_ok. vm_compute. reflexivity.
Qed.

Lemma run_ok {A} (m : M A) w a : (m w).1 = Ok a -> m w = (Ok a, (m w).2).
Proof. destruct (m w). simpl. congruence. Qed.

End LinearDemo.

Import Demo.

Lemma leave_linearizable_witness :
  (let w' := (Part LinearDemo.rt Demo.bob "#c" "bye" (Demo.world Demo.store4)).2 in
   exists r, at_instant (net_part "bob" (ec_prefix Demo.bob) 7 "#c" "bye") Demo.store4 (store_of w') r /\
     w_out w' = [] ++ part_replies LinearDemo.rt Demo.bob "#c" r) /\
  (let w' := (kick LinearDemo.rt Demo.bob "#c" "alice" "out" (Demo.world Demo.store4)).2 in
   exists r, at_instant (net_kick "bob" (ec_prefix Demo.bob) 7 "#c" "alice" "out") Demo.store4 (store_of w') r /\
     (r <> KNotOp \/ rt_attempts LinearDemo.rt = 1 ->
      w_out w' = [] ++ kick_replies LinearDemo.rt Demo.bob "#c" "alice" r)) /\
  (let w' := (Quit LinearDemo.rt Demo.bob "gone" (Demo.world Demo.store4)).2 in
   at_instant (net_quit "bob" (ec_prefix Demo.bob) 7 "gone") Demo.store4 (store_of w') () /\
   w_out w' = []).
Proof.
  split; [|split].
  - apply (leave_linearizable LinearDemo.rt Demo.bob 7 "bye" (Demo.world Demo.store4) LinearDemo.bob_connected).
    apply LinearDemo.run_ok. vm_compute. reflexivity.
  - apply (leave_linearizable LinearDemo.rt Demo.bob 7 "out" (Demo.world Demo.store4) LinearDemo.bob_connected).
    apply LinearDemo.run_ok. vm_compute. reflexivity.
  - apply (leave_linearizable LinearDemo.rt Demo.bob 7 "gone" (Demo.world Demo.store4) LinearDemo.bob_connected).
    + reflexivity.
    + apply LinearDemo.run_ok. vm_compute. reflexivity.
Defined.
Lemma moderation_linearizable_witness :
  (let w' := (chanMode LinearDemo.rt Demo.bob "#c" ["+m"] (Demo.world Demo.store4)).2 in
   exists l r, es_s (rt_ses LinearDemo.rt) = Some l /\
     at_instant (net_chanMode "bob" l (chan_update LinearDemo.rt ["+m"]) (bool_decide (["+m"] = [])) "#c")
       Demo.store4 (store_of w') r /\
     w_out w' = [] ++ mode_replies LinearDemo.rt Demo.bob "#c" r) /\
  (let w' := (Topic LinearDemo.rt Demo.bob "#c" (Some "news") (Demo.world Demo.store4)).2 in
   exists r, at_instant (net_topic "bob" (ec_prefix Demo.bob) 7 "#c" (Some "news")) Demo.store4 (store_of w') r /\
     (r <> TSet \/ rt_attempts LinearDemo.rt = 1 ->
      w_out w' = [] ++ topic_replies LinearDemo.rt Demo.bob "#c" r)).
Proof.
  split; apply (moderation_linearizable LinearDemo.rt Demo.bob 7 "#c" (Demo.world Demo.store4) LinearDemo.bob_connected);
    apply LinearDemo.run_ok; vm_compute; reflexivity.
Defined.
Lemma profile_linearizable_witness :
  let w' := (userMode LinearDemo.rt Demo.bob ["+iz"] (Demo.world Demo.store4)).2 in
  exists mode, at_instant (net_userMode "bob" (user_update LinearDemo.rt ["+iz"])) Demo.store4 (store_of w') mode /\
    w_out w' = [] ++ userMode_replies LinearDemo.rt Demo.bob ["+iz"] mode.
Proof.
  apply (profile_linearizable LinearDemo.rt Demo.bob 7 (Demo.world Demo.store4)).
  - apply LinearDemo.bob_connected.
  - apply LinearDemo.run_ok. vm_compute. reflexivity.
Defined.

Lemma privMsg_linearizable_witness :
  let w' := (privMsgChan LinearDemo.rt Demo.bob "#c" "hi" (Demo.world Demo.store4)).2 in
  exists r, at_instant (net_privMsgChan "bob" (ec_prefix Demo.bob) "#c" "hi") Demo.store4 (store_of w') r /\
    (r <> PSent \/ rt_attempts LinearDemo.rt = 1 ->
     w_out w' = [] ++ privMsgChan_replies LinearDemo.rt Demo.bob "#c" r).
Proof.
  apply (privMsg_linearizable LinearDemo.rt Demo.bob 7 "hi" (Demo.world Demo.store4)).
  - apply LinearDemo.bob_connected.
  - apply LinearDemo.run_ok. vm_compute. reflexivity.
Defined.
