(* ===== verification/Daemons.v ===== *)
(** * All clients at the same time

    Any number of connected clients, of any number of daemons, on one etcd: each
    is a process that makes its requests when it likes, and between them the
    others do whatever the system allows.  Under [Free] that is all the code allows:
    a daemon's session is replaced under its connections, and a nick whose user is
    gone is given away while the old connection goes on.  Under [Owned], which the
    theorems on one client among others are about, a connection keeps the session
    that registered its user. *)

From S2P Require Import Prelude GoLib Mode Msg User Channel Key Etcd Stm Net Client Proc Reify Rep Refine Server Ctl System Demo Guarantees Rely Conduct Linear.

Section daemons.
Context {dc : discipline}.
Context `{Gob Message, Gob UserValue, Gob ChannelCtl, Gob ChannelNicks, Gob OperValue}.

(** ** A connection and the system *)

(** A client in the main loop of its connection: the runtime it acts under, of
    which only the others are not used, the messages it acts on under it, those it
    will be sent later, the world when it got to the first of them, and the world
    and the rest of its process now. *)
Record thread := {
  th_rt : Runtime;
  th_ec : etcdClient;
  th_lid : Z;
  th_nick : string;
  th_now : list (option Message);
  th_later : list (option Message);
  th_start : World;
  th_world : World;
  th_pc : proc (outcome unit);
}.

Definition main_loop (rt : Runtime) (nick : string) (ec : etcdClient) (reader : list (option Message))
    : proc (outcome unit) :=
  proc_of (fun env => serve (with_env env rt) nick ec reader).

Definition connect (rt : Runtime) (ec : etcdClient) (lid : Z) (nick : string) (now later : list (option Message))
    (w : World) : thread := {|
  th_rt := rt; th_ec := ec; th_lid := lid; th_nick := nick; th_now := now; th_later := later; th_start := w;
  th_world := w; th_pc := main_loop rt nick ec now |}.

Definition goes (t : thread) (w : World) (p : proc (outcome unit)) : thread := {|
  th_rt := th_rt t; th_ec := th_ec t; th_lid := th_lid t; th_nick := th_nick t; th_now := th_now t;
  th_later := th_later t; th_start := th_start t; th_world := w; th_pc := p |}.

(** The world of a client whose request left this store. *)
Definition served (st : Store) (w : World) : World :=
  set_cluster {| cl_store := st; cl_clock := S (cl_clock (w_cluster w)) |} w.

(** Nobody registers the nick of a connected client whose user is gone, unless
    under the session of the client. *)
Definition unclaimed (ts : list thread) (st st' : Store) : Prop := forall t uv, t ∈ ts ->
  stored_user st (ec_nick (th_ec t)) = None -> stored_user st' (ec_nick (th_ec t)) = Some uv ->
  uv_Lease uv = th_lid t.

(** The session of the daemon, if it has one, is this one. *)
Definition acts_under (rt : Runtime) (lid : Z) : Prop := forall l, Session (rt_ses rt) = Ok l -> l = lid.

(** The steps of the system: somebody outside the list of connections (a
    registration, the administration tool, the end of a session), a connection
    that gets to its main loop, one that has done the messages so far and goes on to
    later ones, with another session, clock or context, one that sends, starts watches or
    schedules its goroutines, one whose request etcd answers or loses, and the end of
    one. *)
Inductive sys_step : Store * list thread -> Store * list thread -> Prop :=
  | sys_others st st' ts :
      commit_step dc st st' -> if_owned dc (unclaimed ts st st') -> sys_step (st, ts) (st', ts)
  | sys_connect st ts rt ec lid nick now later w :
      if_owned dc (acts_under rt lid) -> if_owned dc (owns_at (current st) (ec_nick ec) lid) ->
      store_of w = st -> sys_step (st, ts) (st, ts ++ [connect rt ec lid nick now later w])
  | sys_next st ts i t rt now later :
      ts !! i = Some t -> th_pc t = PDone (Ok ()) -> th_later t = now ++ later -> if_owned dc (acts_under rt (th_lid t)) ->
      sys_step (st, ts) (st, <[i := connect rt (th_ec t) (th_lid t) (th_nick t) now later (th_world t)]> ts)
  | sys_act st ts i t a k :
      ts !! i = Some t -> th_pc t = PAct a k -> sys_step (st, ts) (st, <[i := goes t (do_act a (th_world t)) k]> ts)
  | sys_now st ts i t k :
      ts !! i = Some t -> th_pc t = PNow k ->
      sys_step (st, ts) (st, <[i := goes t (th_world t) (k (cl_clock (w_cluster (th_world t))))]> ts)
  | sys_request st st' ts i t R (q : kvop R) k e o :
      ts !! i = Some t -> th_pc t = PReq q k -> answer e q st = (o, st') ->
      sys_step (st, ts) (st', <[i := goes t (served st' (th_world t)) (k o)]> ts)
  | sys_leave st ts i t o :
      ts !! i = Some t -> th_pc t = PDone o -> sys_step (st, ts) (st, delete i ts).

(** ** Leases of users *)

Lemma net_step_lease n n' nick uv uv' :
  net_step n n' -> n_users n !! nick = Some uv -> n_users n' !! nick = Some uv' -> uv_Lease uv' = uv_Lease uv.
Proof.
  intros Hs Hu Hu'.
  assert (lease_kept n n' -> uv_Lease uv' = uv_Lease uv) as Hk.
  { intros Hk. destruct (Hk _ _ Hu') as (uv0&Hu0&<-). by simplify_eq. }
  destruct Hs; try (by apply Hk, lease_kept_same);
    try (apply Hk; first [by eapply join_kept|by eapply part_kept|by eapply quit_kept|by eapply chanMode_kept
      |by eapply userMode_kept|by eapply away_kept|by eapply oper_kept|by eapply kick_kept|by eapply topic_kept
      |by eapply privMsgUser_kept|by eapply privMsgChan_kept]).
  - match goal with Hr : net_register ?u _ = Some _ |- _ => unfold net_register in Hr;
      destruct (n_users n !! uv_Nick u) eqn:E; simplify_eq/= end.
    rewrite lookup_insert_ne in Hu' by congruence. by simplify_eq.
  - match goal with He : ends _ _ _ _ |- _ => simpl in He; subst end. simpl in Hu'.
    apply map_lookup_filter_Some in Hu' as [? _]. by simplify_eq.
  - apply Hk, lease_kept_same. unfold net_reap. by destruct (n_members n !! _) as [[|]|].
Qed.

(** A user keeps the lease it was registered with. *)
Lemma store_step_lease st st' nick uv uv' :
  reachable st -> store_step st st' -> stored_user st nick = Some uv -> stored_user st' nick = Some uv' ->
  uv_Lease uv' = uv_Lease uv.
Proof.
  intros Hr Hs. destruct (reachable_net st Hr) as [Hw (n&Hrep&Hn&_)].
  destruct (store_step_simulates st st' n Hw Hrep Hn Hs) as [_ (n'&Hrep'&Hnn)].
  rewrite (rep_stored_user _ _ nick Hrep), (rep_stored_user _ _ nick Hrep').
  destruct Hnn as [->|Hnn]; [intros; by simplify_eq|by apply net_step_lease].
Qed.

Lemma owns_stored st nick lid :
  owns_at (current st) nick lid <-> forall uv, stored_user st nick = Some uv -> uv_Lease uv = lid.
Proof.
  unfold owns_at, stored_user. destruct (current st !! keyUserCtl nick) as [kv|]; simpl; naive_solver.
Qed.

(** So the others leave a connected client the lease of its session. *)
Lemma unclaimed_rely ts st st' t :
  reaches dc st -> commit_step dc st st' -> if_owned dc (unclaimed ts st st') -> t ∈ ts ->
  rely (dc := dc) (ec_nick (th_ec t)) (th_lid t) st st'.
Proof.
  intros Hr Hs Hun Ht. split; [by apply rtc_once|]. revert Hr Hs Hun. destruct dc; simpl; [|done].
  intros Hr Hs Hun. rewrite !owns_stored. intros Ho uv' Hu'.
  destruct (stored_user st (ec_nick (th_ec t))) as [uv|] eqn:Hu; [|by eapply Hun].
  rewrite (store_step_lease _ _ _ _ _ Hr Hs Hu Hu'). by apply Ho.
Qed.

(** ** What holds of every connection *)

(** The others of two worlds of others that agree on the requests so far. *)
Definition agree (n : nat) (env env' : Env) : Prop := forall k, k < n ->
  (forall s, e_intf env k s = e_intf env' k s) /\ e_fail env k = e_fail env' k.

Section thread.
Context (st : Store) (t : thread).

Notation me := (ec_nick (th_ec t)).

(** The connection is where its main loop gets to among some others, whatever
    they do next. *)
Definition on_course : Prop := exists env,
  amid dc env me (th_lid t) /\
  forall env', agree (cl_clock (w_cluster (th_world t))) env env' ->
    run env' (main_loop (th_rt t) (th_nick t) (th_ec t) (th_now t)) (th_start t) =
    run env' (th_pc t) (th_world t).

Record thread_ok : Prop := {
  tk_session : if_owned dc (acts_under (th_rt t) (th_lid t));
  tk_start : met (dc := dc) me (th_lid t) (store_of (th_start t));
  tk_met : met (dc := dc) me (th_lid t) (store_of (th_world t));
  tk_rely : rely (dc := dc) me (th_lid t) (store_of (th_world t)) st;
  tk_rg : rg (dc := dc) me (th_lid t) (th_pc t) (store_of (th_world t));
  tk_course : on_course;
}.

End thread.

Lemma thread_ok_later st st' t :
  rely (dc := dc) (ec_nick (th_ec t)) (th_lid t) st st' -> thread_ok st t -> thread_ok st' t.
Proof. intros Hs [? ? ? ? ? ?]. split; try done. by etrans. Qed.

Lemma connect_ok st rt ec lid nick now later w :
  if_owned dc (acts_under rt lid) -> met (dc := dc) (ec_nick ec) lid (store_of w) ->
  rely (dc := dc) (ec_nick ec) lid (store_of w) st -> thread_ok st (connect rt ec lid nick now later w).
Proof.
  intros Hs Hm Hr. split; try done; simpl.
  - by apply guards_serve.
  - exists {| e_intf := fun _ s => s; e_fail := fun _ => None |}. split; [apply amid_still|done].
Qed.

Lemma act_ok st t a k :
  th_pc t = PAct a k -> thread_ok st t -> thread_ok st (goes t (do_act a (th_world t)) k).
Proof.
  intros Hpc [Hs Hst Hm Hr Hg (env&Ho&Hc)]. rewrite Hpc in Hg, Hc.
  split; try done; try (by destruct a). exists env. split; [done|]. intros env' Ha. apply Hc. by destruct a.
Qed.

Lemma now_ok st t k :
  th_pc t = PNow k -> thread_ok st t ->
  thread_ok st (goes t (th_world t) (k (cl_clock (w_cluster (th_world t))))).
Proof.
  intros Hpc [Hs Hst Hm Hr Hg (env&Ho&Hc)]. rewrite Hpc in Hg, Hc. split; try done; [apply Hg|by exists env].
Qed.

(** A request: the connection is on its course among others that did, before the
    request, what happened since its last one. *)
Lemma request_ok st st' t R (q : kvop R) k e o :
  th_pc t = PReq q k -> answer e q st = (o, st') -> thread_ok st t ->
  (st' = st \/ own_step (dc := dc) st st') /\ thread_ok st' (goes t (served st' (th_world t)) (k o)).
Proof.
  intros Hpc E [Hs Hst Hm Hr Hg (env&Ho&Hc)]. rewrite Hpc in Hg, Hc.
  specialize (Hg st e Hr). rewrite E in Hg. destruct Hg as [Hst' Hk]. split; [done|].
  set (n := cl_clock (w_cluster (th_world t))). split; try done; cbn [goes th_world th_lid th_ec th_pc].
  - eapply met_rely, done_rely, Hst'. by eapply met_rely.
  - exists (patch env n (store_of (th_world t)) st e). split; [by apply patch_others|].
    intros env' Ha. rewrite Hc.
    + simpl. rewrite ask_answer. destruct (Ha n) as [Hi Hf]; [simpl; lia|]. fold n.
      rewrite <-Hi, <-Hf. cbn [e_intf e_fail patch]. unfold store_of. rewrite !decide_True by done. by rewrite E.
    + intros j Hj. destruct (Ha j) as [Hi Hf]; [simpl; lia|]. rewrite <-Hf.
      cbn [e_fail patch]. rewrite decide_False by lia. split; [|done].
      intros s. rewrite <-Hi. cbn [e_intf patch]. by rewrite decide_False by lia.
Qed.

Definition sys_ok (s : Store * list thread) : Prop :=
  reaches dc s.1 /\ forall t, t ∈ s.2 -> thread_ok s.1 t.

Lemma elem_of_insert_list {A} (l : list A) i x y : y ∈ <[i := x]> l -> y = x \/ y ∈ l.
Proof.
  intros [j Hj]%list_elem_of_lookup. apply list_lookup_insert_Some in Hj as [(_&->&_)|[_ Hj]]; [by left|].
  right. by eapply list_elem_of_lookup_2.
Qed.

Lemma sys_step_ok s s' : sys_step s s' -> sys_ok s -> sys_ok s'.
Proof.
  intros Hs [Hr Hts]. destruct Hs as [st st' ts Hs Hun|st ts rt ec lid nick now later w Hses Ho Hw
    |st ts i t rt now later Hi Hpc Hl Hses|st ts i t a k Hi Hpc
    |st ts i t k Hi Hpc|st st' ts i t R q k e o Hi Hpc E|st ts i t o Hi Hpc]; simpl in *;
    try pose proof (Hts t (list_elem_of_lookup_2 _ _ _ Hi)) as Ht.
  - split; [by eapply rtc_r|]. intros t Ht. eapply thread_ok_later, Hts, Ht. by eapply unclaimed_rely.
  - split; [done|]. intros t [Ht| ->%list_elem_of_singleton]%elem_of_app; [by apply Hts|].
    rewrite <-Hw in *. by apply connect_ok.
  - split; [done|]. intros t' [->|Ht']%elem_of_insert_list; [|by apply Hts].
    apply connect_ok; [done|apply Ht|apply Ht].
  - split; [done|]. intros t' [->|Ht']%elem_of_insert_list; [by apply act_ok|by apply Hts].
  - split; [done|]. intros t' [->|Ht']%elem_of_insert_list; [by apply now_ok|by apply Hts].
  - destruct (request_ok _ _ _ _ _ _ _ _ Hpc E Ht) as [Hst Hok]. split.
    + destruct Hst as [->|[Hst _]]; [done|by eapply rtc_r].
    + intros t' [->|Ht']%elem_of_insert_list; [done|]. eapply thread_ok_later, Hts, Ht'. by apply done_rely.
  - split; [done|]. intros t' Ht'. apply Hts. eapply elem_of_submseteq; [exact Ht'|].
    apply sublist_submseteq, sublist_delete.
Qed.

(** What a client of an owned session relies on is what the theorems on one client
    among others ask. *)
Lemma owned_connected env rt ec lid w :
  amid dc env (ec_nick ec) lid -> if_owned dc (acts_under rt lid) -> met (dc := dc) (ec_nick ec) lid (store_of w) ->
  if_owned dc (connected (with_env env rt) ec lid w).
Proof. destruct dc; [|done]. intros Ho Hs Hm. by split. Qed.

(** C3: however the clients of all daemons interleave.  Any number of clients come,
    send what they like and go, requests are lost, users are registered, sessions
    end and are replaced, nicks are given away and administrators write.  The store is
    always one that commits of the system reach, and each client is where its main
    loop gets to, with the messages it acts on under its session, as the only client
    among others that did, since the client's last request, what brought the store
    here.  This holds of all that the code can do ([Free]).  When connections keep the
    session of their user ([Owned]: no session is replaced under a connection, and no
    nick of a connected client is registered under another one), the others also leave
    the client's user the lease of its session, so every theorem on a connected client
    holds of each. *)
Theorem daemons_compose st ts t :
  rtc sys_step (new_store, []) (st, ts) -> t ∈ ts ->
  reaches dc st /\ rtc (commit_step dc) (store_of (th_world t)) st /\
  exists env, amid dc env (ec_nick (th_ec t)) (th_lid t) /\
    if_owned dc (connected (with_env env (th_rt t)) (th_ec t) (th_lid t) (th_start t)) /\
    serve (with_env env (th_rt t)) (th_nick t) (th_ec t) (th_now t) (th_start t) =
    run env (th_pc t) (th_world t).
Proof.
  intros Hs Ht.
  assert (sys_ok (st, ts)) as [Hr Hok].
  { pattern (st, ts). revert Hs. apply rtc_ind_r; [|intros s s' _ Hs Hok; by eapply sys_step_ok].
    split; [apply rtc_refl|]. by intros ? ?%not_elem_of_nil. }
  destruct (Hok t Ht) as [Hses Hst Hm [Hrely _] _ (env&Ho&Hc)]. split_and!; [done..|]. exists env.
  split; [done|]. split; [by apply owned_connected|]. rewrite <-Hc by done.
  apply (proc_of_run (m := fun env => serve (with_env env (th_rt t)) _ _ _)).
Qed.

(** ** An executable scheduler *)

(** The connection [i] makes its next step; its requests reach etcd. *)
Definition advance (s : Store * list thread) (i : nat) : Store * list thread :=
  match s.2 !! i with
  | None => s
  | Some t =>
    match th_pc t with
    | PDone _ => s
    | PAct a k => (s.1, <[i := goes t (do_act a (th_world t)) k]> s.2)
    | PNow k => (s.1, <[i := goes t (th_world t) (k (cl_clock (w_cluster (th_world t))))]> s.2)
    | PReq q k => let '(o, st') := answer None q s.1 in (st', <[i := goes t (served st' (th_world t)) (k o)]> s.2)
    end
  end.

Lemma advance_steps s i : rtc sys_step s (advance s i).
Proof.
  destruct s as [st ts]. unfold advance. cbn [fst snd]. destruct (ts !! i) as [t|] eqn:Hi; [|done].
  destruct (th_pc t) as [o|a k|k|R q k] eqn:Hpc; [done|..|destruct (answer None q st) as [o st'] eqn:E];
    apply rtc_once; [by eapply sys_act|by eapply sys_now|by eapply sys_request].
Qed.

Lemma drive_steps sched s : rtc sys_step s (foldl advance s sched).
Proof.
  revert s. induction sched as [|i sched IH]; intros s; [done|]. simpl. etrans; [apply advance_steps|apply IH].
Qed.

Lemma alone_steps st st' : rtc (commit_step dc) st st' -> rtc sys_step (st, []) (st', []).
Proof.
  induction 1 as [|a b c Hs _ IH]; [done|]. eapply rtc_l; [|exact IH]. apply sys_others; [done|].
  apply if_owned_intro. by intros ? ? ?%not_elem_of_nil.
Qed.

End daemons.

(** ** Examples *)

Module DaemonsDemo.
Import Demo.

Definition rt_of (ses : etcdSession) : Runtime := {|
  rt_env := quiet_env; rt_attempts := 3; rt_ses := ses; rt_ctx := None; rt_cliCtx := None; rt_now := 100;
  rt_cfg := NewConfig; rt_created := "now"; rt_spare := fun n => n; rt_sched := fun _ => concat (replicate 8 [0; 0; 1; 0]) |}.

Definition rt : Runtime := rt_of ses.

Definition says (cmd : string) (params : list string) : option Message :=
  Some {| m_Prefix := None; m_Command := cmd; m_Params := params |}.

Lemma has_started dc (st : Store) (ts : list thread) :
  rtc (sys_step (dc := dc)) (store4, []) (st, ts) -> rtc (sys_step (dc := dc)) (new_store, []) (st, ts).
Proof.
  intros Hr. etrans; [|exact Hr]. apply alone_steps. destruct dc; [exact reachable4|exact (reachable_free _ reachable4)].
Qed.

(** *** alice speaks on #c and joins #d, while bob leaves #c and joins #d and #e,
    request by request *)

Definition alice_says : list (option Message) := [says "PRIVMSG" ["#c"; "hi"]; says "JOIN" ["#d"]].
Definition bob_says : list (option Message) := [says "PART" ["#c"]; says "JOIN" ["#d,#e"]].

Definition both : Store * list thread :=
  (store4, [connect rt alice 7 "alice" alice_says [] (world store4);
            connect rt bob 7 "bob" bob_says [] (world store4)]).

Lemma both_connected : rtc (sys_step (dc := Owned)) (store4, []) both.
Proof.
  eapply rtc_l; [apply (sys_connect _ [] rt alice 7 "alice" alice_says [] (world store4))|].
  { by intros l [= <-]. }
  { apply owns_b_ok. vm_compute. reflexivity. }
  { reflexivity. }
  eapply rtc_l; [apply (sys_connect _ _ rt bob 7 "bob" bob_says [] (world store4))|apply rtc_refl].
  { by intros l [= <-]. }
  { apply owns_b_ok. vm_compute. reflexivity. }
  { reflexivity. }
Qed.

Definition sched : list nat := concat (replicate 40 [0; 1; 1]).

Definition after : Store * list thread := foldl advance both sched.

Definition bob_now : thread :=
  default (connect rt bob 7 "bob" bob_says [] (world store4)) (after.2 !! 1).

Lemma bob_among : bob_now ∈ after.2.
Proof.
  assert (is_Some (after.2 !! 1)) as [t Ht] by (vm_compute; eexists; reflexivity).
  unfold bob_now. rewrite Ht. by eapply list_elem_of_lookup_2.
Qed.

Lemma bob_done : th_pc bob_now = PDone (Ok ()).
Proof. vm_compute. reflexivity. Qed.

(** *** the session of alice's daemon ends, her nick is registered under the next
    one, and her old connection joins #d *)

Definition rt8 : Runtime := rt_of {| es_s := Some 8%Z; es_ready := true; es_ctx := None |}.

Definition renewed : Store := Grant (Revoke store4 7) 8.
Definition given : Store :=
  txn renewed (register_cmps "alice") (register_ops 8 (register_value rt8 8 (request_of "alice"))).

Definition waiting : thread := connect rt alice 7 "alice" [] [says "JOIN" ["#d"]] (world store4).

Definition old : Store * list thread := (store4, [waiting]).
Definition goes_on : Store * list thread :=
  (given, [connect rt8 alice 7 "alice" [says "JOIN" ["#d"]] [] (world store4)]).

Lemma given_registered : exists tr, Txn renewed (register_cmps "alice")
  (register_ops 8 (register_value rt8 8 (request_of "alice"))) [] = Ok (tr, given).
Proof. eexists. vm_compute. reflexivity. Qed.

Lemma old_next st : sys_step (dc := Free) (st, [waiting]) (st, goes_on.2).
Proof.
  exact (sys_next (dc := Free) st [waiting] 0 waiting rt8 [says "JOIN" ["#d"]] [] eq_refl eq_refl eq_refl I).
Qed.

Lemma old_goes_on : rtc (sys_step (dc := Free)) (store4, []) goes_on.
Proof.
  eapply (rtc_l _ _ old); [by apply (sys_connect _ [] rt alice 7 "alice" [] _ (world store4))|].
  eapply rtc_l; [apply (sys_others _ (Revoke store4 7)); [|done]|].
  { apply (s_expire _ _ 7); [done| |done]. apply (bool_decide_unpack _). vm_compute. exact I. }
  eapply rtc_l; [apply (sys_others _ renewed); [|done]; by eapply s_grant|].
  eapply rtc_l; [apply (sys_others _ given); [|done]|].
  { destruct given_registered as [tr HT]. exact (s_register _ _ rt8 8 (request_of "alice") tr HT). }
  apply rtc_once, old_next.
Qed.

Definition joined : Store * list thread := foldl advance goes_on (replicate 40 0).

Definition alice_now : thread :=
  default (connect rt8 alice 7 "alice" [] [] (world store4)) (joined.2 !! 0).

Lemma alice_among : alice_now ∈ joined.2.
Proof.
  assert (is_Some (joined.2 !! 0)) as [t Ht] by (vm_compute; eexists; reflexivity).
  unfold alice_now. rewrite Ht. by eapply list_elem_of_lookup_2.
Qed.

End DaemonsDemo.

Import Demo.

(** bob founds #d, where alice comes after him, and his two joins go on at the
    same time; his replies are those of a client alone among some others.  The
    connection whose user lost his session is on its course too, as the user who
    has the nick now. *)
Lemma daemons_compose_witness :
  (fun m => (m_Command m, list.last (m_Params m))) <$> w_out (th_world DaemonsDemo.bob_now) =
    [("JOIN", Some "#d"); (irc.RPL_NOTOPIC, Some "No topic is set"); (irc.RPL_NAMREPLY, Some "@bob");
     ("JOIN", Some "#e"); (irc.RPL_ENDOFNAMES, Some "End of NAMES list");
     (irc.RPL_NOTOPIC, Some "No topic is set"); (irc.RPL_NAMREPLY, Some "@bob");
     (irc.RPL_ENDOFNAMES, Some "End of NAMES list")] /\
  (exists env, connected (with_env env (th_rt DaemonsDemo.bob_now)) (th_ec DaemonsDemo.bob_now)
      (th_lid DaemonsDemo.bob_now) (th_start DaemonsDemo.bob_now) /\
    serve (with_env env (th_rt DaemonsDemo.bob_now)) (th_nick DaemonsDemo.bob_now) (th_ec DaemonsDemo.bob_now)
      (th_now DaemonsDemo.bob_now) (th_start DaemonsDemo.bob_now) = (Ok (), th_world DaemonsDemo.bob_now)) /\
  stored_nicks DaemonsDemo.joined.1 "#d" 8 = ["alice"] /\ th_pc DaemonsDemo.alice_now = PDone (Ok ()) /\
  exists env, amid Free env "alice" 7 /\
    serve (with_env env DaemonsDemo.rt8) "alice" alice [DaemonsDemo.says "JOIN" ["#d"]] (world store4) =
      (Ok (), th_world DaemonsDemo.alice_now).
Proof.
  split; [vm_compute; reflexivity|]. split; [|split; [vm_compute; reflexivity|split; [vm_compute; reflexivity|]]].
  - destruct (daemons_compose (dc := Owned) DaemonsDemo.after.1 DaemonsDemo.after.2 DaemonsDemo.bob_now) as (_&_&env&_&Hc&E).
    + apply DaemonsDemo.has_started. rewrite <-surjective_pairing. etrans; [exact DaemonsDemo.both_connected|]. apply drive_steps.
    + exact DaemonsDemo.bob_among.
    + exists env. split; [exact Hc|]. rewrite E, DaemonsDemo.bob_done. reflexivity.
  - destruct (daemons_compose (dc := Free) DaemonsDemo.joined.1 DaemonsDemo.joined.2 DaemonsDemo.alice_now) as (_&_&env&Ho&_&E).
    + apply DaemonsDemo.has_started. rewrite <-surjective_pairing. etrans; [exact DaemonsDemo.old_goes_on|]. apply drive_steps.
    + exact DaemonsDemo.alice_among.
    + exists env. split; [exact Ho|].
      assert (th_pc DaemonsDemo.alice_now = PDone (Ok ())) as Hpc by (vm_compute; reflexivity).
      rewrite Hpc in E. exact E.
Defined.
