(* ===== verification/Secret.v ===== *)
(** * Commands through the client that encodes keys

    The daemon gives its handlers the client of KeyKV.v, not the plain one, unless
    encryption is off.  [enc_run] runs the process of a handler on it.  A handler
    that names single keys only, of names the encoder takes, does the same on it
    as on the plain client: the same replies, the same result, and the encoding of
    the same store.  (The answers to queries for a prefix come in another order,
    see [kv_refines].) *)

From S2P Require Import Prelude GoLib Mode Msg User Channel Key HmacKey Etcd KeyKV Stm Net Client Proc Reify Rep Refine Server Ctl System Demo.

(** ** Requests for single keys *)

Section requests.
Context (ke : KeyEncoder) (K Q : string -> Prop) `{!PrefixEncoder ke K Q}.

Definition enc_do {R} (q : kvop R) : Store -> outcome (R * Store) :=
  match q with
  | KGet key rend rev => fun st => kv_Get ke st key rend rev
  | KTxn cmps succ fail => fun st => kv_Txn ke st cmps succ fail
  end.

Definition single (op : Op) : Prop :=
  match op with
  | OpGet k rend _ => rend = None /\ K k
  | OpPut k _ _ | OpDelete k => K k
  end.

Definition exact {R} (q : kvop R) : Prop :=
  match q with
  | KGet key rend rev => rend = None /\ K key
  | KTxn cmps succ fail => Forall (fun c => K (cmp_Key c)) cmps /\ Forall single succ /\ Forall single fail
  end.

Lemma single_within op : single op -> op_within K Q op.
Proof. destruct op; simpl; try done. by intros [-> ?]. Qed.

(** At most one pair, so in one order only. *)
Definition few (r : ResponseOp) : Prop :=
  match r with RespGet g => length (gr_Kvs g) <= 1 | _ => True end.

Lemma few_equiv r r' : few r -> resp_equiv r r' -> r = r'.
Proof.
  destruct r as [[rev kvs]| |], r' as [[rev' kvs']| |]; simpl; try done. intros Hl [-> Hp]. do 2 f_equal.
  destruct kvs as [|kv [|]]; simpl in Hl; [by apply Permutation_nil_l|by apply Permutation_singleton_l|lia].
Qed.

Lemma range_few s k : length (range_kvs s k None) <= 1.
Proof. unfold range_kvs. destruct (s !! k); simpl; lia. Qed.

Lemma applyOps_few st acc ops : Forall single ops -> Forall few (applyOps st acc ops).2.
Proof.
  revert acc. induction ops as [|op ops IH]; intros [s ch] Hops; [constructor|].
  inversion_clear Hops as [|? ? Hop Hops']. cbn [applyOps].
  destruct (applyOp st (s, ch) op) as [acc' r] eqn:E. specialize (IH acc' Hops').
  destruct (applyOps st acc' ops) as [acc'' rs]. constructor; [|exact IH].
  destruct op as [k rend rev|k v l|k]; simpl in E, Hop.
  - destruct Hop as [-> _]. simplify_eq. apply range_few.
  - by simplify_eq.
  - by destruct (s !! k); simplify_eq.
Qed.

Lemma Txn_few st cmps succ fail tr st' :
  Forall single succ -> Forall single fail -> Txn st cmps succ fail = Ok (tr, st') -> Forall few (tr_Responses tr).
Proof.
  intros Hs Hf HT. unfold Txn in HT. apply outcome_bind_ok in HT as (?&_&HT). apply outcome_bind_ok in HT as (?&_&HT).
  set (ok := forallb (applyCompare (current st)) cmps) in *.
  pose proof (applyOps_few st (current st, false) (if ok then succ else fail)) as Hfew.
  destruct (applyOps _ _ _) as [acc rs]. simplify_eq. apply Hfew. by destruct ok.
Qed.

Lemma few_equivs rs rs' : Forall few rs -> Forall2 resp_equiv rs rs' -> rs = rs'.
Proof.
  intros Hf HF. induction HF as [|r r' rs rs' Hr _ IH]; [done|]. inversion_clear Hf. f_equal; [by apply few_equiv|auto].
Qed.

Notation enc := (enc_store (ke := ke) (K := K)).

(** The wrapped client gives the plain answer and leaves the encoded store. *)
Lemma exact_same {R} (q : kvop R) st st' :
  exact q -> enc st st' -> same_result (ke := ke) (K := K) eq (kv_do q st) (enc_do q st').
Proof.
  intros Hq Hst. destruct q as [key rend rev|cmps succ fail]; simpl in Hq |- *.
  - destruct Hq as [-> HK]. pose proof (kv_Do_same (Q := Q) st st' (OpGet key None rev) Hst HK) as Hs.
    unfold kv_Get. simpl in Hs. destruct (Get st key None rev) as [g|e| | |] eqn:Eg; simpl in Hs |- *; try done;
      (destruct (kv_Do ke st' (OpGet key None rev)) as [[r st1]|e'| | |]; simpl in Hs |- *; try done).
    destruct Hs as [Hr Hs]. assert (few (RespGet g)) as Hf.
    { unfold Get in Eg. repeat case_match; simplify_eq/=; apply range_few. }
    rewrite <-(few_equiv _ _ Hf Hr). by split.
  - destruct Hq as (Hc&Hs&Hf).
    pose proof (kv_Txn_same (Q := Q) st st' cmps succ fail Hst Hc) as HT.
    specialize (HT (list.Forall_impl _ _ _ Hs single_within) (list.Forall_impl _ _ _ Hf single_within)).
    destruct (Txn st cmps succ fail) as [[tr st1]|e| | |] eqn:ET, (kv_Txn ke st' cmps succ fail) as [[tr' st1']|e'| | |];
      simpl in HT |- *; try done. destruct HT as [(Hr&Hsu&Hrs) Hst1]. split; [|done].
    apply few_equivs in Hrs; [|exact (Txn_few _ _ _ _ _ _ Hs Hf ET)].
    destruct tr, tr'; simpl in *. by subst.
Qed.

End requests.

(** ** Processes *)

Section processes.
Context (ke : KeyEncoder) (K Q : string -> Prop) `{!PrefixEncoder ke K Q}.

Definition enc_ask (env : Env) {R} (q : kvop R) (w : World) : outcome R * World :=
  let '(o, c) := request env (enc_do ke q) (w_cluster w) in (o, set_cluster c w).

(** The process of a handler whose client encodes keys. *)
Fixpoint enc_run (env : Env) {A} (p : proc A) (w : World) : A * World :=
  match p with
  | PDone a => (a, w)
  | PAct a k => enc_run env k (do_act a w)
  | PNow k => enc_run env (k (cl_clock (w_cluster w))) w
  | PReq q k => let '(o, w') := enc_ask env q w in enc_run env (k o) w'
  end.

(** All requests are for single keys, and the result is in [P]. *)
Fixpoint exacts {A} (P : A -> Prop) (p : proc A) : Prop :=
  match p with
  | PDone a => P a
  | PAct _ k => exacts P k
  | PNow k => forall n, exacts P (k n)
  | PReq q k => exact K q /\ forall o, exacts P (k o)
  end.

Lemma exacts_bind {A B} (P : A -> Prop) (P' : B -> Prop) (p : proc A) (f : A -> proc B) :
  exacts P p -> (forall a, P a -> exacts P' (f a)) -> exacts P' (pbind p f).
Proof.
  intros Hp Hf. induction p as [a|a k IH|k IH|R q k IH]; simpl in *; auto. destruct Hp as [Hq Hk]. split; auto.
Qed.

Lemma exacts_weaken {A} (P P' : A -> Prop) (p : proc A) : (forall a, P a -> P' a) -> exacts P p -> exacts P' p.
Proof.
  intros HP. induction p as [a|a k IH|k IH|R q k IH]; simpl; auto. intros [Hq Hk]. split; auto.
Qed.

Notation enc := (enc_store (ke := ke) (K := K)).

(** The world of the plain client and the world of the wrapped one. *)
Record enc_world (w w' : World) : Prop := {
  ew_store : enc (cl_store (w_cluster w)) (cl_store (w_cluster w'));
  ew_clock : cl_clock (w_cluster w') = cl_clock (w_cluster w);
  ew_local : w' = set_cluster (w_cluster w') w;
}.

(** The others of the wrapped client do what those of the plain one do, through
    the same encoder. *)
Record enc_env (env env' : Env) : Prop := {
  ee_intf k st st' : enc st st' -> enc (e_intf env k st) (e_intf env' k st');
  ee_fail k : e_fail env' k = e_fail env k;
}.

Lemma enc_ask_same env env' {R} (q : kvop R) w w' :
  enc_env env env' -> enc_world w w' -> exact K q ->
  (enc_ask env' q w').1 = (ask env q w).1 /\ enc_world (ask env q w).2 (enc_ask env' q w').2.
Proof.
  intros He [Hs Hc Hl] Hq. unfold ask, enc_ask, request. rewrite Hc, (ee_fail _ _ He).
  pose proof (ee_intf _ _ He (cl_clock (w_cluster w)) _ _ Hs) as Hst. rewrite Hl.
  destruct (e_fail env (cl_clock (w_cluster w))); [by split|].
  pose proof (exact_same ke K Q q _ _ Hq Hst) as Hr.
  destruct (kv_do q _) as [[a st]|e| | |], (enc_do ke q _) as [[a' st']|e'| | |]; simpl in Hr; try done.
  - destruct Hr as [-> Hst']. by split.
  - subst. by split.
Qed.

Lemma enc_run_same env env' {A} (P : A -> Prop) (p : proc A) w w' :
  enc_env env env' -> exacts P p -> enc_world w w' ->
  (enc_run env' p w').1 = (run env p w).1 /\ enc_world (run env p w).2 (enc_run env' p w').2.
Proof.
  intros He. revert w w'. induction p as [a|a k IH|k IH|R q k IH]; intros w w' Hp Hw; simpl in *.
  - by split.
  - apply IH; [done|]. destruct Hw as [Hs Hc Hl]. rewrite Hl. by destruct a.
  - rewrite (ew_clock _ _ Hw). by apply IH.
  - destruct Hp as [Hq Hk]. destruct (enc_ask_same env env' q w w' He Hw Hq) as [Ho Hw1].
    destruct (ask env q w) as [o w1], (enc_ask env' q w') as [o' w1']. simpl in *. subst o'. by apply IH.
Qed.

End processes.

(** ** Transactions over keys the encoder takes *)

Section transactions.
Context (K : string -> Prop).

(** Whatever it reads, the closure names keys the encoder takes. *)
Fixpoint names_keys {A} (p : stm A) : Prop :=
  match p with
  | SRet _ => True
  | SGet key k => K key /\ forall v, names_keys (k v)
  | SRev key k => K key /\ forall v, names_keys (k v)
  | SPut key val l k => K key /\ names_keys k
  | SDel key k => K key /\ names_keys k
  end.

Lemma names_bind {A B} (p : stm A) (f : A -> stm B) :
  names_keys p -> (forall a, names_keys (f a)) -> names_keys (p ≫= f).
Proof.
  intros Hp Hf. induction p as [o|key k IH|key k IH|key val l k IH|key k IH].
  - destruct o; [apply Hf|done..].
  - destruct Hp as [HK Hk]. split; [done|]. intros v. by apply IH.
  - destruct Hp as [HK Hk]. split; [done|]. intros v. by apply IH.
  - destruct Hp as [HK Hk]. split; [done|]. by apply IH.
  - destruct Hp as [HK Hk]. split; [done|]. by apply IH.
Qed.

(** The state of a transaction that has asked for such keys only. *)
Record tidy (s : stmSerializable) : Prop := {
  td_rset : map_Forall (fun k _ => K k) (rset s);
  td_prefetch : map_Forall (fun k _ => K k) (prefetch s);
  td_wset : map_Forall (fun _ p => single K (sp_op p)) (wset s);
}.

Definition ends_tidy {A} : outcome A * stmSerializable -> Prop := fun r => tidy r.2.

Notation sexacts p := (forall s, tidy s -> exacts K ends_tidy (p s)).

Lemma sexacts_bind {A B} (m : sproc A) (f : A -> sproc B) :
  sexacts m -> (forall a, sexacts (f a)) -> sexacts (sbind m f).
Proof.
  intros Hm Hf s Hs. eapply exacts_bind; [by apply Hm|]. intros [o s'] Hs'. destruct o; simpl; try done. by apply Hf.
Qed.

Lemma rset_add_keys keys resps rs :
  Forall K keys -> map_Forall (fun k _ => K k) rs -> map_Forall (fun k _ => K k) (rset_add keys resps rs).
Proof.
  revert resps rs. induction keys as [|k keys IH]; intros resps rs Hk Hrs; [by destruct resps|].
  inversion_clear Hk. destruct resps as [|[g| |] resps]; simpl; try done.
  apply IH; [done|]. by apply map_Forall_insert_2.
Qed.

Lemma sexacts_fetch keys : Forall K keys -> sexacts (p_fetch keys).
Proof.
  intros Hk s Hs. unfold p_fetch. case_bool_decide; [done|]. destruct (first_hit (rset s) keys); [done|]. split.
  - split_and!; [constructor| |constructor]. by eapply list.Forall_fmap, list.Forall_impl; [exact Hk|].
  - intros [tr| | | |]; simpl; try done. destruct Hs. split; simpl; [by apply rset_add_keys|done|done].
Qed.

Lemma tidy_take keys s : Forall K keys -> tidy s -> tidy (take_prefetch keys s).
Proof.
  unfold take_prefetch. revert s. induction keys as [|k keys IH]; intros s Hk Hs; [done|].
  inversion_clear Hk. apply IH; [done|]. unfold take_one. destruct (prefetch s !! k); [|done].
  destruct Hs. split; simpl; [by apply map_Forall_insert_2|by apply map_Forall_delete|done].
Qed.

Lemma sexacts_Get keys : Forall K keys -> sexacts (p_Get keys).
Proof.
  intros Hk s Hs. unfold p_Get. destruct (wset_get (wset s) keys); [done|].
  apply sexacts_bind; [by apply sexacts_fetch| |by apply tidy_take].
  intros r s' [? ? ?]. case_bool_decide; [destruct r|]; by split.
Qed.

Lemma tidy_write key p s : single K (sp_op p) -> tidy s -> tidy (set_write key p s).
Proof. intros Hp [? ? ?]. split; simpl; try done. by apply map_Forall_insert_2. Qed.

Lemma sexacts_exec {A} (p : stm A) : names_keys p -> sexacts (p_exec p).
Proof.
  induction p as [o|key k IH|key k IH|key val l k IH|key k IH]; simpl; [done|intros [HK Hk]..].
  - apply sexacts_bind; [apply sexacts_Get; by constructor|]. intros v. by apply IH.
  - apply sexacts_bind; [|intros v; by apply IH]. unfold p_Rev.
    apply sexacts_bind; [apply sexacts_Get; by constructor|]. intros _.
    by apply sexacts_bind; [apply sexacts_fetch; constructor|].
  - intros s Hs. apply IH; [done|]. by apply tidy_write.
  - intros s Hs. apply IH; [done|]. by apply tidy_write.
Qed.

Lemma sexacts_commit : sexacts p_commit.
Proof.
  intros s [Hr Hp Hw]. assert (Forall K (map_to_list (rset s)).*1) as Hk.
  { apply list.Forall_forall. intros k ([k' r]&->&Hin)%list_elem_of_fmap. apply elem_of_map_to_list in Hin. by apply (Hr k' r). }
  split; [split_and!|].
  - unfold rset_cmps. apply list.Forall_fmap, list.Forall_forall. intros [k r] Hin%elem_of_map_to_list. by apply (Hr k r).
  - unfold wset_puts. apply list.Forall_fmap, list.Forall_forall. intros [k p] Hin%elem_of_map_to_list. by apply (Hw k p).
  - by eapply list.Forall_fmap, list.Forall_impl; [exact Hk|].
  - intros [tr| | | |]; simpl; try done. destruct (tr_Succeeded tr); [done|]. simpl. split; simpl; try done; by apply rset_add_keys.
Qed.

Lemma sexacts_runSTM fuel keys {V} (f : V -> stm V) v :
  Forall K keys -> (forall u, names_keys (f u)) -> sexacts (p_runSTM fuel keys f v).
Proof.
  intros Hk Hf. revert v. induction fuel as [|fuel IH]; intros v s Hs; simpl; [done|].
  apply sexacts_bind; [| |destruct Hs; by split].
  - unfold p_prefetch. case_bool_decide; [by apply sexacts_exec|].
    apply sexacts_bind; [by apply sexacts_Get|intros _; by apply sexacts_exec].
  - intros v'. apply sexacts_bind; [apply sexacts_commit|]. intros [tr|]; [done|apply IH].
Qed.

Lemma exacts_doSTM fuel {V} (f : V -> stm V) v keys :
  Forall K keys -> (forall u, names_keys (f u)) -> exacts K (fun _ => True) (p_doSTM fuel f v keys).
Proof.
  intros Hk Hf. eapply exacts_bind; [by apply sexacts_runSTM|by intros [o s] _].
Qed.

End transactions.

(** ** Commands *)

Section commands.
Context `{Gob Message, Gob UserValue, Gob ChannelCtl, Gob ChannelNicks, Gob OperValue}.
Context (K : string -> Prop) (rt : Runtime) (ec : etcdClient).

(** The encoder takes the keys of a name. *)
Definition takes_user (nick : string) : Prop := K (keyUserCtl nick) /\ K (keyUserMsg nick).

Definition takes_chan (ch : string) : Prop :=
  K (keyChanCtl ch) /\ K (keyChanMsg ch) /\ forall l, K (keyChanNicks ch l).

(** Follow a closure, or the process of a command. *)
Ltac keys :=
  cbv zeta;
  lazymatch goal with
  | |- names_keys _ (mbind _ _) => apply names_bind; [|intros ?]; keys
  | |- names_keys _ (match ?x with _ => _ end) => destruct x eqn:?; keys
  | |- names_keys _ (let '(_, _) := ?x in _) => destruct x; keys
  | |- names_keys _ (decode _ _) => done
  | |- names_keys _ (mret _) => done
  | |- names_keys _ _ => by split
  end.

Context (Hme : takes_user (ec_nick ec)).

Lemma Part_keys lid ch msg u : takes_chan ch -> names_keys K (Part_txn ec lid ch msg u).
Proof. intros (?&?&?). destruct Hme. unfold Part_txn. keys. Qed.

Lemma chanMode_keys lid ch m u : takes_chan ch -> names_keys K (chanMode_txn rt ec lid ch m u).
Proof. intros (?&?&?). destruct Hme. unfold chanMode_txn. keys. Qed.

Lemma Topic_keys lid ch msg u : takes_chan ch -> names_keys K (Topic_txn ec lid ch msg u).
Proof. intros (?&?&?). destruct Hme. unfold Topic_txn. keys. Qed.

Lemma kick_keys lid ch nick msg u : takes_chan ch -> takes_user nick -> names_keys K (kick_txn ec lid ch nick msg u).
Proof. intros (?&?&?) []. destruct Hme. unfold kick_txn. keys. Qed.

Lemma privMsgChan_keys ch msg u : takes_chan ch -> names_keys K (privMsgChan_txn ec ch msg u).
Proof. intros (?&?&?). destruct Hme. unfold privMsgChan_txn. keys. Qed.

Lemma privMsgUser_keys target msg u : takes_user target -> names_keys K (privMsgUser_txn ec target msg u).
Proof. intros []. destruct Hme. unfold privMsgUser_txn. keys. Qed.

Lemma userMode_keys m u : names_keys K (userMode_txn rt ec m u).
Proof. destruct Hme. unfold userMode_txn. keys. Qed.

Lemma Away_keys msg u : names_keys K (Away_txn ec msg u).
Proof. destruct Hme. unfold Away_txn. keys. Qed.

Lemma Oper_keys login pass u : K (keyOperCtl login) -> names_keys K (Oper_txn ec login pass u).
Proof. intros ?. destruct Hme. unfold Oper_txn. keys. Qed.

(** The process of a computation that names such keys. *)
Definition plain {A} (m : Env -> M A) `{!Reified m} : Prop := exacts K (fun _ => True) (proc_of m).

Lemma plain_bind {A B} (m : Env -> M A) (f : Env -> A -> M B) Hm Hf :
  @plain _ m Hm -> (forall a, @plain _ (fun env => f env a) (Hf a)) -> @plain _ _ (reified_bind m f Hm Hf).
Proof. intros Hp Hk. eapply exacts_bind; [exact Hp|]. intros [] _; simpl; try done. apply Hk. Qed.

Lemma plain_mapM {A} (f : Env -> A -> M unit) l Hf :
  (forall a, @plain _ (fun env => f env a) (Hf a)) -> @plain _ _ (reified_mapM f l Hf).
Proof. intros Hk. induction l as [|a l IH]; [done|]. by apply plain_bind. Qed.

Lemma plain_ignore {A} (m : Env -> M A) Hm : @plain _ m Hm -> @plain _ _ (reified_ignore m Hm).
Proof. intros Hp. by eapply exacts_bind. Qed.

Lemma plain_send ctx m : @plain _ _ (reified_send ctx m).
Proof. by destruct ctx. Qed.

Lemma plain_SendMsg m : @plain _ _ (reified_SendMsg rt m).
Proof. intros n. by apply plain_send. Qed.

Lemma plain_doSTM {V} (f : V -> stm V) v keys :
  Forall K keys -> (forall u, names_keys K (f u)) -> @plain _ _ (reified_doSTM rt f v keys).
Proof. apply exacts_doSTM. Qed.

Ltac plain :=
  cbv zeta;
  lazymatch goal with
  | |- @plain _ _ (reified_bind _ _ _ _) => apply plain_bind; [|intros ?]; plain
  | |- @plain _ _ (reified_ignore _ _) => apply plain_ignore; plain
  | |- @plain _ _ (reified_mapM _ _ _) => apply plain_mapM; intros ?; plain
  | |- @plain _ _ (match ?x with _ => _ end) => destruct x eqn:?; plain
  | |- @plain _ _ (reified_lift _) => done
  | |- @plain _ _ (reified_ret _) => done
  | |- @plain _ _ (reified_session _) => done
  | |- @plain _ _ (reified_lastSession _) => done
  | |- @plain _ _ (reified_cliGet _ _ _ _) => by split
  | |- @plain _ _ (reified_doSTM _ _ _ _) => apply plain_doSTM; [by repeat constructor|intros ?]
  | |- @plain _ _ (reified_Join_txn _ _ _ _ _ _) => apply plain_doSTM; [by repeat constructor|intros ?]
  | |- @plain _ _ (reified_chanMode_txn _ _ _ _ _ _ _) => apply plain_doSTM; [by repeat constructor|intros ?]
  | |- @plain _ _ (reified_userMode_txn _ _ _ _ _) => apply plain_doSTM; [by repeat constructor|intros ?]
  | |- _ => apply plain_SendMsg
  end.

Lemma Part_plain ch msg : takes_chan ch -> plain (fun env => Part (with_env env rt) ec ch msg).
Proof. intros Hch. pose proof Hch as (?&?&?). destruct Hme. unfold reified_Part, Part. plain. by apply Part_keys. Qed.

Lemma chanMode_plain ch m : takes_chan ch -> plain (fun env => chanMode (with_env env rt) ec ch m).
Proof.
  intros Hch. pose proof Hch as (?&?&?). destruct Hme. unfold reified_chanMode, chanMode. plain. by apply chanMode_keys.
Qed.

Lemma Topic_plain ch msg : takes_chan ch -> plain (fun env => Topic (with_env env rt) ec ch msg).
Proof. intros Hch. pose proof Hch as (?&?&?). unfold reified_Topic, Topic. plain. by apply Topic_keys. Qed.

Lemma kick_plain ch nick msg :
  takes_chan ch -> takes_user nick -> plain (fun env => kick (with_env env rt) ec ch nick msg).
Proof.
  intros Hch Hn. pose proof Hch as (?&?&?). pose proof Hn as []. unfold reified_kick, kick. plain. by apply kick_keys.
Qed.

Lemma privMsgChan_plain ch msg : takes_chan ch -> plain (fun env => privMsgChan (with_env env rt) ec ch msg).
Proof.
  intros Hch. pose proof Hch as (?&?&?). destruct Hme. unfold reified_privMsgChan, privMsgChan. plain.
  by apply privMsgChan_keys.
Qed.

Lemma privMsgUser_plain target msg :
  takes_user target -> plain (fun env => privMsgUser (with_env env rt) ec target msg).
Proof.
  intros Ht. pose proof Ht as []. destruct Hme. unfold reified_privMsgUser, privMsgUser. plain. by apply privMsgUser_keys.
Qed.

Lemma userMode_plain m : plain (fun env => userMode (with_env env rt) ec m).
Proof. destruct Hme. unfold reified_userMode, userMode. plain. apply userMode_keys. Qed.

Lemma Away_plain msg : plain (fun env => Away (with_env env rt) ec msg).
Proof. destruct Hme. unfold reified_Away, Away. plain. apply Away_keys. Qed.

Lemma Oper_plain login pass : K (keyOperCtl login) -> plain (fun env => Oper (with_env env rt) ec login pass).
Proof. intros ?. destruct Hme. unfold reified_Oper, Oper. plain. by apply Oper_keys. Qed.

Lemma Whois_plain n : takes_user (if bool_decide (n = "") then ec_nick ec else n) ->
  plain (fun env => Whois (with_env env rt) ec n).
Proof. intros []. unfold reified_Whois, Whois. plain. Qed.

Lemma Ping_plain m : plain (fun env => Ping (with_env env rt) ec m).
Proof. destruct Hme. unfold reified_Ping, Ping. plain. Qed.

Lemma Die_plain : plain (fun env => Die (with_env env rt) ec).
Proof. destruct Hme. unfold reified_Die, Die. plain. Qed.

End commands.

(** The computation does the same through the client that encodes keys, whatever
    the others do, as long as they do it through the same encoder. *)
Definition same_through (ke : KeyEncoder) (K : string -> Prop) {A} (m : Env -> M A) `{!Reified m} : Prop :=
  forall env env' w w', enc_env ke K env env' -> enc_world ke K w w' ->
  (enc_run ke env' (proc_of m) w').1 = (m env w).1 /\ enc_world ke K (m env w).2 (enc_run ke env' (proc_of m) w').2.

Lemma plain_same ke K Q `{!PrefixEncoder ke K Q} {A} (m : Env -> M A) `{!Reified m} :
  plain K m -> same_through ke K m.
Proof. intros Hp env env' w w' He Hw. rewrite (proc_of_run (m := m) env w). by apply (enc_run_same ke K Q env env' (fun _ => True)). Qed.

(** C33: encryption does not change what commands do.  For a client whose nick the
    encoder takes, PART, KICK, TOPIC, MODE, messages, WHOIS, AWAY, PING, OPER and DIE,
    on users and channels whose names it takes, end through the client that encodes
    keys as through the plain one, with the same messages sent, and leave the encoding
    of the same store; the others may do anything meanwhile, through the same encoder.
    It says nothing of JOIN and QUIT, nor of NAMES, WHO and LIST. *)
Theorem encoded_commands `{Gob Message, Gob UserValue, Gob ChannelCtl, Gob ChannelNicks, Gob OperValue}
    ke K Q rt ec :
  PrefixEncoder ke K Q -> takes_user K (ec_nick ec) ->
  (forall ch msg, takes_chan K ch ->
     same_through ke K (fun env => Part (with_env env rt) ec ch msg) /\
     same_through ke K (fun env => privMsgChan (with_env env rt) ec ch msg) /\
     (forall m, same_through ke K (fun env => chanMode (with_env env rt) ec ch m)) /\
     (forall topic, same_through ke K (fun env => Topic (with_env env rt) ec ch topic)) /\
     (forall nick, takes_user K nick -> same_through ke K (fun env => kick (with_env env rt) ec ch nick msg))) /\
  (forall nick msg, takes_user K nick -> nick <> "" ->
     same_through ke K (fun env => privMsgUser (with_env env rt) ec nick msg) /\
     same_through ke K (fun env => Whois (with_env env rt) ec nick)) /\
  (forall m, same_through ke K (fun env => userMode (with_env env rt) ec m)) /\
  (forall msg, same_through ke K (fun env => Away (with_env env rt) ec msg)) /\
  (forall msg, same_through ke K (fun env => Ping (with_env env rt) ec msg)) /\
  (forall login pass, K (keyOperCtl login) -> same_through ke K (fun env => Oper (with_env env rt) ec login pass)) /\
  same_through ke K (fun env => Die (with_env env rt) ec).
Proof.
  intros He Hme. split_and!.
  - intros ch msg Hch. split_and!; [..|intros m|intros topic|intros nick Hn]; eapply plain_same;
      eauto using Part_plain, privMsgChan_plain, chanMode_plain, Topic_plain, kick_plain.
  - intros nick msg Hn Hne. split; eapply plain_same; [done|by apply privMsgUser_plain|done|].
    apply Whois_plain. by rewrite bool_decide_false.
  - intros m. eapply plain_same; [done|by apply userMode_plain].
  - intros msg. eapply plain_same; [done|by apply Away_plain].
  - intros msg. eapply plain_same; [done|by apply Ping_plain].
  - intros login pass Hl. eapply plain_same; [done|by apply Oper_plain].
  - eapply plain_same; [done|by apply Die_plain].
Qed.

(** ** Example: alice, registered through the HMAC encoder, is away *)

Module SecretDemo.
Import Demo KVDemo.

Notation K := (storable inner (fun _ => True)).

Definition encoded_as (k : string) : string := match Encode inner k with Ok e => e | _ => "" end.

Lemma inner_takes ty sub d tail :
  key_shape ty sub d tail -> d <> "" ->
  (Z.of_nat (String.length (encoded_as (key_of ty sub d ""))) <? 2 ^ 63)%Z = true -> K (key_of ty sub d tail).
Proof.
  intros Hk Hd Hl. destruct (encode_total (ke := inner) (key_of ty sub d "") I) as [e He].
  exists ty, sub, d, tail, e. unfold encoded_as in Hl. rewrite He in Hl. apply Z.ltb_lt in Hl. by split_and!.
Qed.

Lemma alice_takes : takes_user K "alice".
Proof.
  split; [apply (inner_takes "user" "ctl" "alice" "")|apply (inner_takes "user" "msg" "alice" "")]; try done;
    split; try reflexivity; by left.
Qed.

Lemma chan_takes : takes_chan K "#c".
Proof.
  split_and!; [apply (inner_takes "chan" "ctl" "#c" "")|apply (inner_takes "chan" "msg" "#c" "")
    |intros l; apply (inner_takes "chan" "nicks" "#c" ("/" +:+ fmt_x l))]; try done;
    (split; try reflexivity; first [by left|right; by eexists]).
Qed.

(** alice is registered on both stores. *)
Definition secret1 : Store :=
  KVDemo.run (kv_Txn ke (Grant new_store 7) (register_cmps "alice")
    (register_ops 7 (register_value rt 7 (request_of "alice"))) []).

Lemma secret1_encodes : enc_store (ke := ke) (K := K) store1 secret1.
Proof.
  pose proof (kv_Txn_same (ke := ke) (Q := query inner (fun _ => True)) store0 store0 (register_cmps "alice")
    (register_ops 7 (register_value rt 7 (request_of "alice"))) [] (enc_grant _ _ 7 KVDemo.start)) as Hs.
  unfold store1, register, txn, secret1. fold store0.
  destruct (Txn store0 _ _ []) as [[r st]| | | |] eqn:E1; try (vm_compute in E1; discriminate E1).
  destruct (kv_Txn ke store0 _ _ []) as [[r' st']| | | |] eqn:E2; try (vm_compute in E2; discriminate E2).
  apply Hs; repeat constructor; apply alice_takes.
Qed.

Lemma quiet_encodes : enc_env ke K quiet_env quiet_env.
Proof. by split. Qed.

Definition away : proc (outcome unit) := proc_of (fun env => Away (with_env env rt) alice "lunch").

End SecretDemo.

Import Demo KVDemo.

(** Through the client that encodes keys alice gets the reply of the plain one, and
    the store is the encoding of the one on which she is away. *)
Lemma encoded_commands_witness :
  (m_Command <$> w_out (enc_run ke quiet_env SecretDemo.away (world SecretDemo.secret1)).2) = [irc.RPL_NOWAWAY] /\
  current SecretDemo.secret1 !! keyUserCtl "alice" = None /\
  enc_store (ke := ke) (K := storable inner (fun _ => True))
    (cl_store (w_cluster (Away (with_env quiet_env rt) alice "lunch" (world store1)).2))
    (cl_store (w_cluster (enc_run ke quiet_env SecretDemo.away (world SecretDemo.secret1)).2)) /\
  same_through ke (storable inner (fun _ => True)) (fun env => Part (with_env env rt) alice "#c" "bye").
Proof.
  split; [vm_compute; reflexivity|]. split; [vm_compute; reflexivity|].
  destruct (encoded_commands ke (storable inner (fun _ => True)) (query inner (fun _ => True)) rt alice ke_prefix
    SecretDemo.alice_takes) as (Hch&_&_&Haw&_).
  split.
  - destruct (Haw "lunch" quiet_env quiet_env (world store1) (world SecretDemo.secret1)) as [_ [Hs _ _]].
    + exact SecretDemo.quiet_encodes.
    + split; [exact SecretDemo.secret1_encodes|reflexivity|reflexivity].
    + exact Hs.
  - exact (proj1 (Hch "#c" "bye" SecretDemo.chan_takes)).
Defined.
