(* ===== verification/Monitor.v ===== *)
(** * Delivery of messages

    Every client has a watch on its message box and one on each channel it has
    joined; [monitorMsg] turns what they report into what the client is sent.
    This file says which messages those are: every message put in the channel
    from the revision of the watch on, once and in order, up to the one that says
    the client leaves, without the client's own private messages. *)

From S2P Require Import Prelude GoLib Mode Msg User Channel Key Etcd Stm Net Client Rep Refine Server Ctl System Demo Guarantees Linear.

(** ** What a client must be sent *)

(** Whether a message says that [me] leaves the channel. *)
Definition leaving (me : string) (m : Message) : bool :=
  (bool_decide (m_Command m = irc.PART) && bool_decide (p_Name <$> m_Prefix m = Some me)) ||
  (bool_decide (m_Command m = irc.KICK) && bool_decide (m_Params m !! 1 = Some me)).

Section relay.
Context (rt : Runtime) (ec : etcdClient).

(** The messages sent for those heard on a watch; [None] is the removal of the
    watched key. *)
Fixpoint relay (l : list (option Message)) : list Message :=
  match l with
  | [] => []
  | None :: _ => [{| m_Prefix := Some (hostPfx (rt_cfg rt)); m_Command := irc.ERROR; m_Params := [] |}]
  | Some m :: l' =>
    if own_privmsg ec m then relay l'
    else m :: (if leaving (ec_nick ec) m then [] else relay l')
  end.

(** The channel the client leaves. *)
Fixpoint departure (l : list (option Message)) : option string :=
  match l with
  | [] | None :: _ => None
  | Some m :: l' =>
    if own_privmsg ec m then departure l'
    else if leaving (ec_nick ec) m then head (m_Params m) else departure l'
  end.

End relay.

(** What [monitorMsg] reads without asking whether it is there. *)
Record shaped (m : Message) : Prop := {
  sh_part : m_Command m = irc.PART -> is_Some (m_Prefix m) /\ is_Some (head (m_Params m));
  sh_kick : m_Command m = irc.KICK -> is_Some (head (m_Params m)) /\ is_Some (m_Params m !! 1);
}.

Section monitor.
Context `{Gob Message, Gob UserValue, Gob ChannelCtl, Gob ChannelNicks, Gob OperValue}.
Context (rt : Runtime) (ec : etcdClient).

(** What an event says; a value that is no message says nothing. *)
Definition heard (ev : Event) : option (option Message) :=
  match ev with
  | EvDelete _ _ _ => Some None
  | EvPut kv _ => Some <$> decodeMessage (kv_Value kv)
  end.

Definition heards (resps : list WatchResponse) : list (option Message) :=
  omap heard (concat (wr_Events <$> resps)).

Definition shaped_item (o : option Message) : Prop := match o with Some m => shaped m | None => True end.

Definition add_outs (ms : list Message) (w : World) : World := {|
  w_cluster := w_cluster w; w_out := w_out w ++ ms; w_chCancel := w_chCancel w;
  w_watches := w_watches w; w_nextctx := w_nextctx w |}.

Definition depart (o : option string) (w : World) : World :=
  match o with Some ch => (cancelChan ch w).2 | None => w end.

Lemma add_outs_nil w : add_outs [] w = w.
Proof. destruct w. unfold add_outs. simpl. by rewrite app_nil_r. Qed.

Lemma add_outs_cons m ms w : add_outs (m :: ms) w = add_outs ms (add_out m w).
Proof. unfold add_outs, add_out. simpl. by rewrite <-app_assoc. Qed.

Lemma bool_decide_Some {A} `{EqDecision A} (x y : A) : bool_decide (Some x = Some y) = bool_decide (x = y).
Proof. apply bool_decide_ext. split; [by intros [= ->]|by intros ->]. Qed.

Lemma leaves_leaving m : shaped m -> leaves ec m = Ok (leaving (ec_nick ec) m).
Proof.
  intros [Hp Hk]. unfold leaves, leaving. destruct (decide (m_Command m = irc.PART)) as [E|E].
  - rewrite !(bool_decide_true (m_Command m = irc.PART)) by done.
    destruct (Hp E) as [[pfx ->] _]. simpl.
    rewrite (bool_decide_false (m_Command m = irc.KICK)) by (rewrite E; done).
    rewrite bool_decide_Some.
    by destruct (bool_decide _).
  - rewrite !(bool_decide_false (m_Command m = irc.PART)) by done. simpl.
    destruct (decide (m_Command m = irc.KICK)) as [E2|E2];
      [rewrite !(bool_decide_true (m_Command m = irc.KICK)) by done
      |by rewrite !(bool_decide_false (m_Command m = irc.KICK)) by done].
    destruct (Hk E2) as [_ [p1 ->]]. simpl. by rewrite bool_decide_Some.
Qed.

Lemma shaped_leaving m : shaped m -> leaving (ec_nick ec) m = true -> is_Some (head (m_Params m)).
Proof.
  intros [Hp Hk] Hl. unfold leaving in Hl. rewrite orb_true_iff, !andb_true_iff, !bool_decide_eq_true in Hl.
  destruct Hl as [[E _]|[E _]]; [by apply Hp|by apply Hk].
Qed.

(** One watch response after the other, or all their events at once. *)
Lemma loop_app {A} (body : A -> M flow) l1 l2 w :
  loop body (l1 ++ l2) w = (f ← loop body l1; match f with Next => loop body l2 | Return => mret Return end) w.
Proof.
  revert w. induction l1 as [|a l1 IH]; intros w; simpl; [done|].
  unfold mbind, ST_mbind, ST_bind in *. destruct (body a w) as [[[]| | | |] w1]; done.
Qed.

Lemma loop_responses (body : Event -> M flow) resps w :
  Forall (fun r => wr_Err r = None) resps ->
  loop (response_body body) resps w = loop body (concat (wr_Events <$> resps)) w.
Proof.
  intros Hr. revert w. induction Hr as [|r resps Hr _ IH]; intros w; simpl; [done|].
  rewrite loop_app, !ST_bind_eq. unfold ST_bind, response_body at 1. rewrite Hr.
  destruct (loop body (wr_Events r) w) as [[[]| | | |] w1]; done.
Qed.

(** One event. *)
Lemma event_put m kv prev w :
  rt_ctx rt = None -> decodeMessage (kv_Value kv) = Some m -> shaped m -> own_privmsg ec m = false ->
  monitorMsg_event rt ec (EvPut kv prev) w =
    if leaving (ec_nick ec) m then (Ok Return, depart (head (m_Params m)) (add_out m w))
    else (Ok Next, add_out m w).
Proof.
  intros Hctx Hd Hm Ho. unfold monitorMsg_event. rewrite Hd, Ho, (leaves_leaving m Hm).
  unfold mbind, ST_mbind, ST_bind, SendMsg, SendMsg_ctx, ctx_at, lift. rewrite Hctx.
  destruct (leaving (ec_nick ec) m) eqn:El; [|done].
  destruct (shaped_leaving m Hm El) as [ch ->]. simpl. unfold cancelChan. by destruct (w_chCancel (add_out m w) !! ch).
Qed.

Lemma loop_relay evs w :
  rt_ctx rt = None -> Forall shaped_item (omap heard evs) ->
  exists f, loop (monitorMsg_event rt ec) evs w =
    (Ok f, depart (departure ec (omap heard evs)) (add_outs (relay rt ec (omap heard evs)) w)).
Proof.
  intros Hctx. revert w. induction evs as [|ev evs IH]; intros w Hs.
  { exists Next. simpl. by rewrite add_outs_nil. }
  cbn [loop omap list_omap] in *. destruct ev as [kv prev|key rev prev].
  - cbn [heard] in *. destruct (decodeMessage (kv_Value kv)) as [m|] eqn:Hd; simpl in Hs;
      [apply list.Forall_cons in Hs as [Hm Hs]|].
    + cbn [fmap option_fmap option_map relay departure]. destruct (own_privmsg ec m) eqn:Ho.
      * rewrite ST_bind_eq. unfold ST_bind, monitorMsg_event at 1. rewrite Hd, Ho. by apply IH.
      * rewrite ST_bind_eq. unfold ST_bind. rewrite (event_put m) by done.
        destruct (leaving (ec_nick ec) m); rewrite add_outs_cons; [|by apply IH].
        exists Return. by rewrite add_outs_nil.
    + rewrite ST_bind_eq. unfold ST_bind, monitorMsg_event at 1. rewrite Hd. by apply IH.
  - exists Return. cbn [heard relay departure]. by rewrite add_outs_cons, add_outs_nil.
Qed.

(** The whole watch. *)
Lemma monitorMsg_relay resps w :
  rt_ctx rt = None -> Forall (fun r => wr_Err r = None) resps -> Forall shaped_item (heards resps) ->
  monitorMsg rt ec resps w =
    (Ok (), depart (departure ec (heards resps)) (add_outs (relay rt ec (heards resps)) w)).
Proof.
  intros Hctx Hr Hs. unfold monitorMsg. rewrite ST_bind_eq. unfold ST_bind.
  rewrite loop_responses by done. destruct (loop_relay (concat (wr_Events <$> resps)) w Hctx Hs) as [f ->].
  destruct f; [|done]. unfold ctxErr, ctx_at. by rewrite Hctx.
Qed.

End monitor.

(** ** The messages of the network have the shape [monitorMsg] expects *)

Record msgs_ok (n : Net) : Prop := {
  mo_chan ch m : n_chanMsg n !! ch = Some m -> shaped m;
  mo_user nick m : n_userMsg n !! nick = Some (Some m) -> shaped m;
}.

(** Nothing takes the last message of a channel away. *)
Definition chans_kept (n n' : Net) : Prop :=
  forall ch, is_Some (n_chanMsg n !! ch) -> is_Some (n_chanMsg n' !! ch).

Definition msgs_step (n n' : Net) : Prop := (msgs_ok n -> msgs_ok n') /\ chans_kept n n'.

Lemma msgs_same n n' : n_chanMsg n' = n_chanMsg n -> n_userMsg n' = n_userMsg n -> msgs_step n n'.
Proof.
  intros Hc Hu. split.
  - intros [H1 H2]. split; rewrite ?Hc, ?Hu; done.
  - intros ch. by rewrite Hc.
Qed.

Lemma msgs_chan n n' ch m :
  n_chanMsg n' = <[ch := m]> (n_chanMsg n) -> n_userMsg n' = n_userMsg n -> shaped m -> msgs_step n n'.
Proof.
  intros Hc Hu Hm. split.
  - intros [H1 H2]. split; rewrite ?Hc, ?Hu; [|done].
    intros ch' m' [[<- <-]|[_ ?]]%lookup_insert_Some; [done|eauto].
  - intros ch' Hs. rewrite Hc. apply lookup_insert_is_Some'. by right.
Qed.

Lemma msgs_user n n' nick o :
  n_chanMsg n' = n_chanMsg n -> n_userMsg n' = <[nick := o]> (n_userMsg n) ->
  (forall m, o = Some m -> shaped m) -> msgs_step n n'.
Proof.
  intros Hc Hu Hm. split.
  - intros [H1 H2]. split; rewrite ?Hc, ?Hu; [done|].
    intros nick' m' [[<- ?]|[_ ?]]%lookup_insert_Some; [by apply Hm|eauto].
  - intros ch. by rewrite Hc.
Qed.

Lemma msgs_sub n n' :
  n_chanMsg n' = n_chanMsg n -> n_userMsg n' ⊆ n_userMsg n -> msgs_step n n'.
Proof.
  intros Hc Hu. split.
  - intros [H1 H2]. split; rewrite ?Hc; [done|]. intros nick m Hm. eapply H2. by eapply lookup_weaken.
  - intros ch. by rewrite Hc.
Qed.

Lemma msgs_trans n1 n2 n3 : msgs_step n1 n2 -> msgs_step n2 n3 -> msgs_step n1 n3.
Proof. intros [] []. split; [auto|intros ch ?; auto]. Qed.

(** A message of a client other than PART and KICK, and those. *)
Lemma shaped_other m : m_Command m <> irc.PART -> m_Command m <> irc.KICK -> shaped m.
Proof. by split. Qed.

Ltac shape := first [by apply shaped_other | by split; simpl; eauto].

Ltac msgs :=
  simplify_eq/=; repeat (case_match; simplify_eq/=);
  first [by apply msgs_same | eapply msgs_chan; [reflexivity|reflexivity|shape]
        |eapply msgs_user; [reflexivity|reflexivity|by intros ? [= <-]; shape] | done].

Lemma quit_one_msgs me pfx lid msg n ch : msgs_step n (quit_one me pfx lid msg n ch).
Proof. unfold quit_one. msgs. Qed.

Lemma quit_msgs me pfx lid msg chs n : msgs_step n (foldl (quit_one me pfx lid msg) n chs).
Proof.
  revert n. induction chs as [|ch chs IH]; intros n; simpl; [by apply msgs_same|].
  eapply msgs_trans; [apply quit_one_msgs|apply IH].
Qed.

Lemma net_step_msgs n n' : net_step n n' -> msgs_step n n'.
Proof.
  intros Hs. destruct Hs as [me pfx lid now ch n t n' Ho H|me pfx lid ch msg n r n' Ho H
    |me pfx lid msg n r n' Ho H|me lid upd query ch n r n' H|me upd n r n' H|me msg n r n' H
    |me login pass n r n' H|me pfx lid ch nick msg n r n' H|me pfx lid ch msg n r n' H
    |me pfx target msg n r n' H|me pfx ch msg n r n' H|uv n n' Hc H|login ov n|login n|nick m n Hm Hu|ch m n Hm|l n n' Hl|ch l n].
  - unfold net_join in H. destruct (n_users n !! me); msgs.
  - unfold net_part, drop_member in H. destruct (n_users n !! me); msgs.
  - unfold net_quit in H. destruct (n_users n !! me); simplify_eq/=.
    eapply msgs_trans; [apply quit_msgs|]. apply msgs_sub; [done|]. simpl. apply delete_subseteq.
  - unfold net_chanMode in H. destruct (n_chans n !! ch); [|msgs]. destruct (n_members n !! (ch, lid)); msgs.
  - unfold net_userMode in H. destruct (n_users n !! me); msgs.
  - unfold net_away in H. destruct (n_users n !! me); msgs.
  - unfold net_oper in H. destruct (n_users n !! me); msgs.
  - unfold net_kick in H. destruct (_ ≫= find_nick me) as [cn|]; [|msgs].
    destruct (is_op cn); [|msgs]. destruct (n_users n !! nick) as [uv|]; [|msgs].
    destruct (n_members n !! (ch, uv_Lease uv)); msgs.
  - unfold net_topic in H. destruct (n_chans n !! ch); [|msgs]. destruct msg; [|msgs].
    destruct (n_members n !! (ch, lid)); msgs.
  - unfold net_privMsgUser in H. destruct (n_users n !! target); [|msgs]. destruct (n_users n !! me); msgs.
  - unfold net_privMsgChan in H. destruct (n_chans n !! ch) as [cc|]; [|msgs].
    destruct (n_users n !! me) as [uv|]; [|done]. simpl in H.
    destruct (has (cc_Mode cc) "m") eqn:Hmm; [|msgs]. destruct (n_members n !! (ch, uv_Lease uv)); msgs.
  - unfold net_register in H. destruct (n_users n !! uv_Nick uv); simplify_eq/=.
    eapply msgs_user; [reflexivity|reflexivity|done].
  - msgs.
  - msgs.
  - eapply msgs_user; [reflexivity|reflexivity|]. intros m' [= <-]. apply shaped_other; by rewrite Hm.
  - eapply msgs_chan; [reflexivity|reflexivity|]. apply shaped_other; by rewrite Hm.
  - simpl in Hl. subst n'. apply msgs_sub; [done|]. simpl. apply map_filter_subseteq.
  - unfold net_reap. msgs.
Qed.

Lemma net_reach_msgs n : rtc net_step net_empty n -> msgs_ok n.
Proof.
  intros Hr. pattern n. revert n Hr. apply rtc_ind_r.
  - split; intros ? ?; simpl; by rewrite lookup_empty.
  - intros n n' _ Hs. by apply net_step_msgs.
Qed.

(** ** The history of a reachable store *)

Lemma push_snap_one st acc : (st_rev (push_snap st acc) <= st_rev st + 1)%Z.
Proof. unfold push_snap, st_rev. destruct acc.2; simpl; lia. Qed.

Lemma Txn_one_rev st cmps succ fail tr st' :
  Txn st cmps succ fail = Ok (tr, st') -> (st_rev st' <= st_rev st + 1)%Z.
Proof.
  intros HT. unfold Txn in HT. apply outcome_bind_ok in HT as (?&_&HT).
  apply outcome_bind_ok in HT as (?&_&HT). destruct (applyOps _ _ _). simplify_eq. apply push_snap_one.
Qed.

Section history.
Context `{Gob Message, Gob UserValue, Gob ChannelCtl, Gob ChannelNicks, Gob OperValue}.

Lemma store_step_one st st' : store_step st st' -> (st_rev st' <= st_rev st + 1)%Z.
Proof.
  intros []; subst;
    try (match goal with Hc : commits _ _ _ _ _ _ |- _ => destruct Hc as (?&?&_&?) end); try (by eapply Txn_one_rev).
  - unfold Revoke. case_match; [|lia]. apply push_snap_one.
  - unfold Grant, st_rev. simpl. lia.
  - match goal with HP : Put _ _ _ _ = _ |- _ => unfold Put in HP;
      apply outcome_bind_ok in HP as (?&_&HP); apply outcome_bind_ok in HP as (?&_&HP);
      destruct (applyOp _ _ _); simplify_eq end. apply push_snap_one.
  - match goal with HP : Delete _ _ = _ |- _ => unfold Delete in HP;
      apply outcome_bind_ok in HP as (?&_&HP); destruct (applyOp _ _ _); simplify_eq end. apply push_snap_one.
Qed.

(** Every revision after the first was made by one step. *)
Lemma reachable_step st rev :
  reachable st -> (2 <= rev <= st_rev st)%Z ->
  exists st0 st1, reachable st0 /\ store_step st0 st1 /\ extends st1 st /\
    current st0 = at_rev st (rev - 1) /\ current st1 = at_rev st rev.
Proof.
  intros Hr. revert rev. pattern st. revert st Hr. apply rtc_ind_r.
  - intros rev. unfold st_rev, new_store. simpl. lia.
  - intros st st' Hr Hs IH rev Hrev. pose proof (reachable_wf st Hr) as Hw.
    destruct (store_step_ok st st' Hw Hs) as [_ Hext]. pose proof (store_step_one st st' Hs).
    destruct (decide (rev <= st_rev st)%Z).
    + destruct (IH rev ltac:(lia)) as (st0&st1&Hr0&Hs0&He&E0&E1). exists st0, st1.
      rewrite !(at_rev_extends st st') by (done || lia). split_and!; try done. by etrans.
    + assert (rev = st_rev st + 1)%Z as -> by lia. exists st, st'. split_and!; try done.
      * rewrite <-at_rev_current. replace (st_rev st + 1 - 1)%Z with (st_rev st) by lia.
        pose proof (wf_store_rev st Hw). by rewrite (at_rev_extends st st') by (done || lia).
      * replace (st_rev st + 1)%Z with (st_rev st') by lia. by rewrite at_rev_current.
Qed.

(** The nets of two consecutive revisions. *)
Lemma history_nets st rev :
  reachable st -> (2 <= rev <= st_rev st)%Z ->
  exists n0 n1, rep (at_rev st (rev - 1)) n0 /\ rep (at_rev st rev) n1 /\ msgs_ok n1 /\ chans_kept n0 n1.
Proof.
  intros Hr Hrev. destruct (reachable_step st rev Hr Hrev) as (st0&st1&Hr0&Hs&_&E0&E1).
  destruct (reachable_net st0 Hr0) as [Hw (n0&Hrep&Hn&Hstar)].
  destruct (store_step_simulates st0 st1 n0 Hw Hrep Hn Hs) as [_ (n1&Hrep1&Hor)].
  assert (msgs_step n0 n1) as [Hm Hk] by (destruct Hor as [->|]; [by apply msgs_same|by apply net_step_msgs]).
  exists n0, n1. rewrite <-E0, <-E1. split_and!; try done. by apply Hm, net_reach_msgs.
Qed.

(** The message put on a channel at a revision, and those from a revision on. *)
Definition said (st : Store) (ch : string) (rev : Z) : option Message :=
  kv ← at_rev st rev !! keyChanMsg ch;
  if (kv_ModRevision kv =? rev)%Z then decodeMessage (kv_Value kv) else None.

Definition messages (st : Store) (ch : string) (from : Z) : list Message :=
  omap (fun i => said st ch (from + Z.of_nat i)) (seq 0 (Z.to_nat (st_rev st + 1 - from))).

(** What a watch of the messages of a channel reports for a revision. *)
Lemma chan_event st ch rev :
  reachable st -> (2 <= rev <= st_rev st)%Z ->
  match key_event st rev (keyChanMsg ch) with
  | Some ev => exists m, said st ch rev = Some m /\ heard ev = Some (Some m) /\ shaped m
  | None => said st ch rev = None
  end.
Proof.
  intros Hr Hrev. destruct (history_nets st rev Hr Hrev) as (n0&n1&Hrep0&Hrep1&Hm&Hk).
  pose proof (Hrep0 (KChanMsg ch)) as H0'. pose proof (Hrep1 (KChanMsg ch)) as H1'. cbn [key_str net_at] in H0', H1'.
  specialize (Hk ch). unfold key_event, said.
  destruct (at_rev st rev !! keyChanMsg ch) as [kv|]; cbn [mbind option_bind].
  - destruct (n_chanMsg n1 !! ch) as [m|] eqn:E1; [|by inversion H1'].
    inversion H1' as [? ? (Hv&_&_)|]; subst. cbn [fst] in Hv.
    destruct (kv_ModRevision kv =? rev)%Z; [|done]. exists m. cbn [heard]. rewrite Hv.
    rewrite decodeMessage_encode. split_and!; [done..|by eapply mo_chan].
  - destruct (n_chanMsg n1 !! ch) eqn:E1; [by inversion H1'|].
    destruct (at_rev st (rev - 1) !! keyChanMsg ch); [|done].
    destruct (n_chanMsg n0 !! ch); [|by inversion H0']. by destruct (Hk ltac:(by eexists)).
Qed.

(** The revisions a watch looks at are those up to the current one. *)
Lemma watch_key_events st key from :
  (1 <= from)%Z ->
  watch_key st key from =
  omap (fun i => ev ← key_event st (from + Z.of_nat i) key; Some {| wr_Err := None; wr_Events := [ev] |})
    (seq 0 (Z.to_nat (st_rev st + 1 - from))).
Proof.
  intros Hf. unfold watch_key. set (N := Z.to_nat (st_rev st + 1 - from)).
  assert (length (st_snaps st) = N + (length (st_snaps st) - N)) as -> by (unfold N, st_rev; lia).
  rewrite seq_app, omap_app. replace (omap _ (seq (0 + N) _)) with (@nil WatchResponse).
  - rewrite app_nil_r. apply omap_ext_in. intros i Hi%elem_of_seq. cbv zeta.
    destruct (Z.ltb_spec (st_rev st) (from + Z.of_nat i)); [lia|done].
  - symmetry. apply omap_none. intros i Hi%elem_of_seq.
    destruct (Z.ltb_spec (st_rev st) (from + Z.of_nat i)); [done|lia].
Qed.

Lemma watch_messages st ch from :
  reachable st -> (2 <= from)%Z ->
  Forall (fun r => wr_Err r = None) (watch_key st (keyChanMsg ch) from) /\
  heards (watch_key st (keyChanMsg ch) from) = Some <$> messages st ch from /\
  Forall shaped (messages st ch from).
Proof.
  intros Hr Hf. rewrite watch_key_events by lia. unfold messages, heards.
  assert (forall i, i ∈ seq 0 (Z.to_nat (st_rev st + 1 - from)) -> 2 <= from + Z.of_nat i <= st_rev st)%Z as Hi
    by (intros i ?%elem_of_seq; lia).
  induction (seq 0 (Z.to_nat (st_rev st + 1 - from))) as [|i l IH]; [by split_and!|].
  destruct IH as (IH1&IH2&IH3); [intros; apply Hi; by right|].
  pose proof (chan_event st ch (from + Z.of_nat i) Hr (Hi i ltac:(by left))) as He.
  cbn [omap list_omap]. destruct (key_event st (from + Z.of_nat i) (keyChanMsg ch)) as [ev|].
  - destruct He as (m&->&Hh&Hm). cbn. rewrite Hh. split_and!; [by constructor|by f_equal|by constructor].
  - by rewrite He.
Qed.

End history.

(** ** A commit that writes a message *)

Lemma commit_put {V} (f : V -> stm V) u st v' tr st' :
  wf_store st -> commits f u st v' tr st' ->
  exists ws, arun (f u) (current st) ∅ = (Ok v', ws) /\
  forall k q val l, ws !! k = Some q -> sp_op q = OpPut k val l ->
    st_rev st' = (st_rev st + 1)%Z /\
    exists kv, current st' !! k = Some kv /\ kv_Value kv = val /\ kv_ModRevision kv = st_rev st'.
Proof.
  intros Hw (ws&rs&Ha&HT). exists ws. split; [unfold arun; by rewrite Ha|].
  intros k q val l Hk Hq.
  assert (map_Forall (fun k op => op_key op = k) (sp_op <$> ws)) as Hkeys.
  { pose proof (atomic_keys (f u) (current st) ∅ ∅ (map_Forall_empty _)) as Hf. rewrite Ha in Hf.
    intros k1 op. rewrite lookup_fmap. intros (q1&Hq1&->)%fmap_Some_1. by apply Hf. }
  assert (wset_puts ws = (map_to_list (sp_op <$> ws)).*2) as Hputs.
  { unfold wset_puts. rewrite map_to_list_fmap, <-list_fmap_compose. done. }
  pose proof (Txn_one_rev _ _ _ _ _ _ HT) as Hone. destruct (Txn_ok _ _ _ _ _ _ Hw HT) as (Hw'&_).
  rewrite Hputs in HT. pose proof (Txn_writes st (sp_op <$> ws) tr st' Hw Hkeys HT) as Hcur.
  assert (current st' !! k = Some (put_kv (st_rev st + 1) (current st) k val l)) as Hkv.
  { rewrite Hcur, lookup_write_snap, lookup_fmap, Hk. simpl. by rewrite Hq. }
  destruct (current_kv st' k _ Hw' Hkv) as (rev&Hrev&Hwr&_). simpl in Hwr.
  split; [lia|]. eexists. split; [exact Hkv|]. simpl. split; [done|lia].
Qed.

Section delivery.
Context `{Gob Message, Gob UserValue, Gob ChannelCtl, Gob ChannelNicks, Gob OperValue}.

(** A sent message to a channel is written to its message key. *)
Lemma privMsgChan_puts ec ch msg v s v' ws :
  arun (privMsgChan_txn ec ch msg v) s ∅ = (Ok v', ws) -> pc_noNick v' = false -> pc_noSend v' = false ->
  exists q l, ws !! keyChanMsg ch = Some q /\
    sp_op q = OpPut (keyChanMsg ch) (encodeMessage (userMsg ec irc.PRIVMSG [ch; msg])) l.
Proof.
  intros Ha Hn Hs. unfold privMsgChan_txn in Ha. cbv zeta in Ha.
  rewrite arun_bind, arun_Rev in Ha. destruct (_ =? 0)%Z; [by rewrite arun_mret in Ha; simplify_eq/=|].
  rewrite arun_bind, arun_Get, arun_bind, arun_decode in Ha.
  destruct (decodeUserValue _) as [uv|]; [|done]. cbn [or_err] in Ha.
  rewrite arun_bind, arun_Get, arun_bind, arun_decode in Ha.
  destruct (decodeChannelCtl _) as [cc|]; [|done]. cbn [or_err] in Ha.
  destruct (has (cc_Mode cc) "m").
  - rewrite arun_bind, arun_Get, arun_bind, arun_decode in Ha.
    destruct (decodeChannelNicks _) as [cns|]; [|done]. cbn [or_err] in Ha.
    destruct (find cns (ec_nick ec)) as [cn|]; [|by rewrite arun_mret in Ha; simplify_eq/=].
    destruct (_ && _ && _); [by rewrite arun_mret in Ha; simplify_eq/=|].
    rewrite arun_bind, arun_Put, arun_mret in Ha. simplify_eq. rewrite lookup_insert_eq. by do 2 eexists.
  - rewrite arun_bind, arun_Put, arun_mret in Ha. simplify_eq. rewrite lookup_insert_eq. by do 2 eexists.
Qed.

Lemma privMsgChan_said rt ec lid ch msg w w' :
  connected rt ec lid w -> privMsgChan rt ec ch msg w = (Ok (), w') -> w_out w' = w_out w ->
  reachable (store_of w') /\
  said (store_of w') ch (st_rev (store_of w')) = Some (userMsg ec irc.PRIVMSG [ch; msg]).
Proof.
  intros [Ho Hs Hf] HP Hout. unfold privMsgChan in HP. apply ST_bind_ok in HP as ([v' rev]&w1&HD&Hk).
  eapply (doSTM_commits rt ec lid Ho) in HD as (u&st&tr&_&Hst&Hsteps&Hc&_&Hw1&_); [|done].
  assert (Hrw : reachable (store_of w1)).
  { eapply rtc_r; [apply Hst|]. by eapply s_privMsgChan. }
  assert (pc_noNick v' = false /\ pc_noSend v' = false /\ store_of w' = store_of w1) as (Hn&Hsd&->).
  { assert (forall m, w_out (add_out m w1) <> w_out w) as Hno.
    { intros m E. rewrite Hw1 in E. simpl in E. apply (f_equal length) in E. rewrite length_app in E. simpl in E. lia. }
    destruct (pc_noNick v'); [exfalso|destruct (pc_noSend v'); [exfalso|]].
    - apply sendHostMsg_ok in Hk as ->. by eapply Hno.
    - apply sendHostMsg_ok in Hk as ->. by eapply Hno.
    - unfold mret, ST_ret in Hk. by simplify_eq. }
  split; [done|]. pose proof (reachable_wf _ (proj1 Hst)) as Hwf.
  destruct (commit_put _ _ _ _ _ _ Hwf Hc) as (ws&Ha&Hput).
  destruct (privMsgChan_puts _ _ _ _ _ _ _ Ha Hn Hsd) as (q&l&Hq&Hop).
  destruct (Hput _ _ _ _ Hq Hop) as (_&kv&Hkv&Hval&Hmod).
  unfold said. rewrite at_rev_current, Hkv. simpl. rewrite Hmod, Z.eqb_refl, Hval.
  by rewrite decodeMessage_encode.
Qed.

(** Later steps do not change what was said. *)
Lemma said_later st st' ch rev :
  reachable st -> rtc store_step st st' -> (1 <= rev <= st_rev st)%Z -> said st' ch rev = said st ch rev.
Proof.
  intros Hr Hs Hrev. unfold said. rewrite (at_rev_extends st st'); [done| |done].
  by eapply (steps_ok st); [apply reachable_wf|].
Qed.

Lemma relay_app rt ec l1 m l2 :
  (forall m', Some m' ∈ l1 -> leaving (ec_nick ec) m' = false) -> None ∉ l1 -> own_privmsg ec m = false ->
  exists before after, relay rt ec (l1 ++ Some m :: l2) = before ++ m :: after.
Proof.
  intros Hl Hn Hm. induction l1 as [|[m1|] l1 IH]; simpl.
  - rewrite Hm. by eexists [], _.
  - destruct IH as (b&a&->); [intros m' ?; apply Hl; by right|intros ?; apply Hn; by right|].
    destruct (own_privmsg ec m1); [by eexists _, _|].
    rewrite (Hl m1) by by left. by eexists (m1 :: b), a.
  - destruct Hn. by left.
Qed.

Lemma messages_split st ch from rev m :
  (from <= rev <= st_rev st)%Z -> said st ch rev = Some m ->
  exists l1 l2, messages st ch from = l1 ++ m :: l2 /\
    forall m', m' ∈ l1 -> exists rev', (from <= rev' < rev)%Z /\ said st ch rev' = Some m'.
Proof.
  intros Hrev Hm. unfold messages. set (k := Z.to_nat (rev - from)).
  replace (Z.to_nat (st_rev st + 1 - from)) with (k + S (Z.to_nat (st_rev st - rev))) by lia.
  rewrite seq_app, omap_app. cbn [seq omap list_omap].
  replace (from + Z.of_nat (0 + k))%Z with rev by lia. rewrite Hm. eexists _, _. split; [done|].
  intros m' (i&Hi%elem_of_seq&Hs)%list_elem_of_omap. exists (from + Z.of_nat i)%Z. split; [lia|done].
Qed.

End delivery.

(** ** Theorems *)

Section theorems.
Context `{Gob Message, Gob UserValue, Gob ChannelCtl, Gob ChannelNicks, Gob OperValue}.

(** C11: a watch of a channel delivers exactly its messages.  On every store the
    system can reach, [monitorMsg] on the watch of a channel from a revision on
    returns without an error, whatever was put there; it sends every message put
    since that revision, once and in order, up to the one that says the client
    leaves, except the client's own private messages; and it cancels the watches of
    the channel the client leaves. *)
Theorem monitor_relays rt ec st ch from w :
  reachable st -> (2 <= from)%Z -> rt_ctx rt = None ->
  let said := Some <$> messages st ch from in
  monitorMsg rt ec (watch_key st (keyChanMsg ch) from) w =
    (Ok (), depart (departure ec said) (add_outs (relay rt ec said) w)).
Proof.
  intros Hr Hf Hctx said. destruct (watch_messages st ch from Hr Hf) as (Hno&Hh&Hs).
  rewrite (monitorMsg_relay rt ec _ w Hctx Hno); rewrite Hh; [done|].
  apply Forall_fmap. exact Hs.
Qed.

(** C10: a message sent to a channel arrives.  When PRIVMSG returns without an error
    reply, then at every later store each client whose watch of the channel began
    before it, who is not its sender and has not left before it, is sent it. *)
Theorem channel_message_arrives rt ec lid ch msg w w' rt' ec' st from v :
  connected rt ec lid w -> privMsgChan rt ec ch msg w = (Ok (), w') -> w_out w' = w_out w ->
  rtc store_step (store_of w') st -> (2 <= from <= st_rev (store_of w'))%Z -> rt_ctx rt' = None ->
  p_Name (ec_prefix ec) <> ec_nick ec' ->
  (forall rev m, (from <= rev < st_rev (store_of w'))%Z -> said st ch rev = Some m ->
     leaving (ec_nick ec') m = false) ->
  exists before after,
    w_out (monitorMsg rt' ec' (watch_key st (keyChanMsg ch) from) v).2 =
    w_out v ++ before ++ userMsg ec irc.PRIVMSG [ch; msg] :: after.
Proof.
  intros Hc HP Hout Hsteps Hf Hctx Hnick Hleft.
  destruct (privMsgChan_said rt ec lid ch msg w w' Hc HP Hout) as [Hr Hsaid].
  assert (reachable st) as Hr' by (unfold reaches in *; by etrans).
  destruct (watch_messages st ch from Hr' ltac:(lia)) as (Hno&Hh&Hs).
  rewrite (monitorMsg_relay rt' ec' _ v Hctx Hno); rewrite Hh; [|by apply Forall_fmap].
  rewrite <-(said_later (store_of w') st) in Hsaid by (done || lia).
  assert (extends (store_of w') st) as Hext%extends_rev
    by (by eapply (steps_ok (store_of w')); [apply reachable_wf|]).
  destruct (messages_split st ch from (st_rev (store_of w')) _ ltac:(lia) Hsaid) as (l1&l2&->&Hl1).
  rewrite fmap_app, fmap_cons.
  destruct (relay_app rt' ec' (Some <$> l1) (userMsg ec irc.PRIVMSG [ch; msg]) (Some <$> l2)) as (b&a&->).
  - intros m' (m1&[= ->]&Hm1)%list_elem_of_fmap. destruct (Hl1 m1 Hm1) as (rev'&Hrev'&Hs'). by eapply Hleft.
  - by intros (?&?&_)%list_elem_of_fmap.
  - unfold own_privmsg. simpl. by rewrite bool_decide_false.
  - exists b, a. unfold depart. case_match; [|done]. unfold cancelChan. by case_match.
Qed.

End theorems.

(** ** Examples: alice hears bob on #c *)

Import Demo.

Lemma bob_quiet : connected rt bob 7 (world store4).
Proof.
  split; [split; [intros; apply rtc_refl|exact (fun k st _ Ho => Ho)]|by intros l [= <-]|].
  split; [apply reachable4|]. apply owns_b_ok. vm_compute. reflexivity.
Qed.

Definition spoken : World := (privMsgChan rt bob "#c" "hi" (world store4)).2.

Lemma spoken_ok : privMsgChan rt bob "#c" "hi" (world store4) = (Ok (), spoken).
Proof. unfold spoken. apply LinearDemo.run_ok. vm_compute. reflexivity. Qed.

Lemma monitor_relays_witness :
  relay rt alice (Some <$> messages store4 "#c" 2) =
    [userMsg alice irc.JOIN ["#c"]; userMsg bob irc.JOIN ["#c"]] /\
  monitorMsg rt alice (watch_key store4 (keyChanMsg "#c") 2) (world store4) =
    (Ok (), depart (departure alice (Some <$> messages store4 "#c" 2))
      (add_outs (relay rt alice (Some <$> messages store4 "#c" 2)) (world store4))).
Proof.
  split; [vm_compute; reflexivity|].
  apply (monitor_relays rt alice store4 "#c" 2 (world store4)).
  - exact reachable4.
  - done.
  - reflexivity.
Defined.

Lemma channel_message_arrives_witness :
  w_out spoken = [] /\
  exists before after,
    w_out (monitorMsg rt alice (watch_key (store_of spoken) (keyChanMsg "#c") (st_rev (store_of spoken)))
      (world store4)).2 = [] ++ before ++ userMsg bob irc.PRIVMSG ["#c"; "hi"] :: after.
Proof.
  split; [vm_compute; reflexivity|].
  apply (channel_message_arrives rt bob 7 "#c" "hi" (world store4) spoken rt alice (store_of spoken)).
  - exact bob_quiet.
  - exact spoken_ok.
  - vm_compute. reflexivity.
  - exact (rtc_refl _ _).
  - split; [|apply Z.le_refl]. vm_compute. discriminate.
  - reflexivity.
  - discriminate.
  - intros rev m Hrev. destruct (Z.lt_irrefl (st_rev (store_of spoken))). apply (Z.le_lt_trans _ rev); apply Hrev.
Defined.
