(* ===== verification/Quiet.v ===== *)
(** * Commands nobody disturbs

    When the other users of etcd are quiet, no request fails and the session
    lives, every handler returns: with its replies where the network has a
    result for the command, and with the error of a decoder where a value it
    needs is missing. *)

From S2P Require Import Prelude GoLib Mode Msg User Channel Key Etcd Stm Net Client Rep Refine Server Ctl System Demo Guarantees Linear.

(** ** How many keys a closure reads *)

(** Run on a snapshot, the closure reads at most [n] keys, none of them empty. *)
Definition reads_le {A} (n : nat) (p : stm A) (s : snapshot) (ws : gmap string stmPut) : Prop :=
  "" ∉ (atomic p s ws ∅).2 /\ size (atomic p s ws ∅).2 <= n.

Lemma atomic_bind_rs {A B} (p : stm A) (f : A -> stm B) s ws rs :
  (atomic (p ≫= f) s ws rs).2 =
  match (atomic p s ws rs).1 with
  | (Ok a, ws') => (atomic (f a) s ws' (atomic p s ws rs).2).2
  | _ => (atomic p s ws rs).2
  end.
Proof.
  unfold mbind, stm_mbind. revert ws rs.
  induction p as [o|key k IH|key k IH|key val l k IH|key k IH]; intros ws rs; simpl; try apply IH.
  - by destruct o.
  - destruct (ws !! key); apply IH.
Qed.

Lemma size_keys (l : list string) : size (list_to_set l : gset string) <= length l.
Proof.
  induction l as [|k l IH]; [done|]. rewrite list_to_set_cons, size_union_alt, size_singleton. simpl.
  assert (size ((list_to_set l : gset string) ∖ {[k]}) <= size (list_to_set l : gset string))
    by (apply subseteq_size; set_solver). lia.
Qed.

Section reads.
Context (s : snapshot).

Lemma reads_le_bind {A B} n m (p : stm A) (f : A -> stm B) ws :
  reads_le n p s ws ->
  (forall a ws', arun p s ws = (Ok a, ws') -> reads_le m (f a) s ws') ->
  reads_le (n + m) (p ≫= f) s ws.
Proof.
  intros [He Hn] Hf. unfold reads_le, arun in *. rewrite atomic_bind_rs.
  destruct (atomic p s ws ∅) as [[o ws'] rs]; simpl in *.
  destruct o as [a|e| | |]; try (split; [done|lia]).
  destruct (Hf a ws' eq_refl) as [He' Hm]. rewrite atomic_rs. simpl.
  split; [set_solver|]. pose proof (size_union_alt (atomic (f a) s ws' ∅).2 rs) as ->.
  assert (size (rs ∖ (atomic (f a) s ws' ∅).2) <= size rs)
    by (apply subseteq_size; set_solver). lia.
Qed.

Lemma reads_le_ret {A} n (o : outcome A) ws : reads_le n (SRet o) s ws.
Proof. split; simpl; [set_solver|change (0 <= n); lia]. Qed.

Lemma one_key (k : string) : size ({[k]} ∪ ∅ : gset string) <= 1.
Proof. rewrite (right_id_L ∅ (∪)), size_singleton. lia. Qed.

Lemma reads_le_Get k ws : k <> "" -> reads_le 1 (Get_ k) s ws.
Proof.
  intros Hk. unfold reads_le, Get_. cbn [atomic fst snd mret stm_ret]. destruct (ws !! k); cbn [snd].
  - split; [set_solver|change (0 <= 1); lia].
  - split; [set_solver|]. exact (one_key k).
Qed.

Lemma reads_le_Rev k ws : k <> "" -> reads_le 1 (Rev_ k) s ws.
Proof.
  intros Hk. unfold reads_le, Rev_. cbn [atomic fst snd mret stm_ret]. split; [set_solver|]. exact (one_key k).
Qed.

Lemma reads_le_Put n k v l ws : reads_le n (Put_ k v l) s ws.
Proof. split; simpl; [set_solver|change (0 <= n); lia]. Qed.

Lemma reads_le_Del n k ws : reads_le n (Del_ k) s ws.
Proof. split; simpl; [set_solver|change (0 <= n); lia]. Qed.

Lemma reads_le_mono {A} n m (p : stm A) ws : n <= m -> reads_le n p s ws -> reads_le m p s ws.
Proof. intros Hnm [? ?]. split; [done|lia]. Qed.

(** One operation of a closure against the bound. *)
Lemma reads_le_next {A B} n (p : stm A) (f : A -> stm B) ws :
  reads_le 1 p s ws -> (forall a ws', reads_le n (f a) s ws') -> reads_le (S n) (p ≫= f) s ws.
Proof. intros Hp Hf. by apply (reads_le_bind 1 n); auto. Qed.

Lemma reads_le_free {A B} n (p : stm A) (f : A -> stm B) ws :
  reads_le 0 p s ws -> (forall a ws', reads_le n (f a) s ws') -> reads_le n (p ≫= f) s ws.
Proof. intros Hp Hf. by apply (reads_le_bind 0 n); auto. Qed.

End reads.

Ltac reads_step :=
  lazymatch goal with
  | |- reads_le _ (mbind _ (mret _)) _ _ => apply reads_le_free; [apply reads_le_ret|intros ? ?]
  | |- reads_le _ (mbind _ (decode _ _)) _ _ => apply reads_le_free; [apply reads_le_ret|intros ? ?]
  | |- reads_le _ (mbind _ (Put_ _ _ _)) _ _ => apply reads_le_free; [apply reads_le_Put|intros ? ?]
  | |- reads_le _ (mbind _ (Del_ _)) _ _ => apply reads_le_free; [apply reads_le_Del|intros ? ?]
  | |- reads_le _ (mbind _ (Get_ _)) _ _ => apply reads_le_next; [by apply reads_le_Get|intros ? ?]
  | |- reads_le _ (mbind _ (Rev_ _)) _ _ => apply reads_le_next; [by apply reads_le_Rev|intros ? ?]
  | |- reads_le _ (mbind _ (mbind _ _)) _ _ => apply reads_le_free; [|intros ? ?]
  | |- reads_le _ (mbind _ (match ?x with _ => _ end)) _ _ => destruct x
  | |- reads_le _ (match ?x with _ => _ end) _ _ => destruct x
  | |- reads_le _ (Put_ _ _ _) _ _ => apply reads_le_Put
  | |- reads_le _ (Del_ _) _ _ => apply reads_le_Del
  | |- reads_le _ (mret _) _ _ => apply reads_le_ret
  | |- reads_le _ (decode _ _) _ _ => apply reads_le_ret
  end.

Section closures.
Context `{Gob Message, Gob UserValue, Gob ChannelCtl, Gob ChannelNicks, Gob OperValue}.
Context (rt : Runtime) (ec : etcdClient) (s : snapshot).

Lemma Join_reads lid ch t : reads_le 4 (Join_txn rt ec lid ch t) s ∅.
Proof. unfold Join_txn. cbv zeta. repeat reads_step. Qed.

Lemma Part_reads lid ch msg t : reads_le 2 (Part_txn ec lid ch msg t) s ∅.
Proof. unfold Part_txn. cbv zeta. repeat reads_step. Qed.

Lemma chanMode_reads lid ch m v : reads_le 2 (chanMode_txn rt ec lid ch m v) s ∅.
Proof. unfold chanMode_txn. cbv zeta. repeat reads_step. Qed.

Lemma userMode_reads m v : reads_le 1 (userMode_txn rt ec m v) s ∅.
Proof. unfold userMode_txn. cbv zeta. repeat reads_step. Qed.

Lemma Away_reads msg v : reads_le 1 (Away_txn ec msg v) s ∅.
Proof. unfold Away_txn. cbv zeta. repeat reads_step. Qed.

Lemma Oper_reads login pass v : reads_le 2 (Oper_txn ec login pass v) s ∅.
Proof. unfold Oper_txn. cbv zeta. repeat reads_step. Qed.

Lemma kick_reads lid ch nick msg v : reads_le 5 (kick_txn ec lid ch nick msg v) s ∅.
Proof. unfold kick_txn. cbv zeta. repeat reads_step. Qed.

Lemma Topic_reads lid ch msg v : reads_le 3 (Topic_txn ec lid ch msg v) s ∅.
Proof. unfold Topic_txn. cbv zeta. repeat reads_step. Qed.

Lemma privMsgUser_reads target msg v : reads_le 3 (privMsgUser_txn ec target msg v) s ∅.
Proof. unfold privMsgUser_txn. cbv zeta. repeat reads_step. Qed.

Lemma privMsgChan_reads ch msg v : reads_le 4 (privMsgChan_txn ec ch msg v) s ∅.
Proof. unfold privMsgChan_txn. cbv zeta. repeat reads_step. Qed.

Lemma Quit_channels_reads lid msg chs ws : reads_le (length chs) (Quit_channels ec lid msg chs) s ws.
Proof.
  revert ws. induction chs as [|ch chs IH]; intros ws; cbn [Quit_channels length]; repeat first [apply IH|reads_step].
Qed.

Lemma Quit_reads n msg u : rep s n -> reads_le (S (channels_of ec n)) (Quit_txn rt ec msg u) s ∅.
Proof.
  intros Hr. unfold Quit_txn. cbv zeta. apply (reads_le_bind _ 1); [by apply reads_le_Get|].
  intros uvs ws1 E1. rewrite arun_Get in E1. simplify_eq.
  apply (reads_le_bind _ 0); [apply reads_le_ret|]. intros uv ws2 E2.
  assert (n_users n !! ec_nick ec = Some uv) as Hu.
  { rewrite arun_decode, (read_user (pend_init 1 0 s n eq_refl Hr)) in E2.
    destruct (n_users n !! ec_nick ec) as [uv1|]; [rewrite decodeUserValue_encode in E2; by simplify_eq/=|].
    unfold decodeUserValue in E2. by rewrite gob_decode_empty in E2. }
  unfold channels_of. rewrite Hu. apply reads_le_free; [apply reads_le_ret|]. intros l ws3.
  replace (length (uv_Channels uv)) with (length (uv_Channels uv) + 0) by lia.
  apply reads_le_bind; [apply Quit_channels_reads|]. intros [] ws4 _. repeat reads_step.
Qed.

End closures.

(** ** The conditions *)

Section quiet.
Context `{Gob Message, Gob UserValue, Gob ChannelCtl, Gob ChannelNicks, Gob OperValue}.

Record undisturbed (rt : Runtime) (ec : etcdClient) (lid : Z) (w : World) (n : Net) : Prop := {
  un_quiet : quiet_from (rt_env rt) (cl_clock (w_cluster w));
  un_attempts : 0 < rt_attempts rt;
  un_ctx : rt_ctx rt = None;
  un_ses : Session (rt_ses rt) = Ok lid;
  un_lease : lid ∈ st_leases (store_of w);
  un_wf : wf_store (store_of w);
  un_rep : rep (current (store_of w)) n;
  un_ok : net_ok n;
  un_owns : owns n (ec_nick ec) lid;
}.

(** What a handler does where the command has the result [res] on the network. *)
Definition behaves {R} (w : World) (res : option (R * Net)) (replies : R -> list Message)
    (ow : outcome unit * World) : Prop :=
  match res with
  | Some (r, n') =>
    ow.1 = Ok () /\ rep (current (store_of ow.2)) n' /\ w_out ow.2 = w_out w ++ replies r
  | None => ow.1 = Err ErrDecode /\ store_of ow.2 = store_of w /\ w_out ow.2 = w_out w
  end.

Section handlers.
Context (rt : Runtime) (ec : etcdClient) (lid : Z) (w : World) (n : Net).
Context (Hun : undisturbed rt ec lid w n).

Notation me := (ec_nick ec).
Notation pfx := (ec_prefix ec).
Notation reply := (reply rt ec).

(** The transaction is the closure run as one atomic step. *)
Lemma doSTM_atomically {V} (f : V -> stm V) v keys b :
  "" ∉ keys -> reads_le b (f v) (current (store_of w)) ∅ -> length keys + b <= MaxOpsPerTxn ->
  exists c', NewSTM (rt_env rt) (rt_attempts rt) f v keys (w_cluster w) = ((atomically (f v) (store_of w)).1, c') /\
    cl_store c' = (atomically (f v) (store_of w)).2 /\ cl_clock (w_cluster w) <= cl_clock c'.
Proof.
  intros Hk [He Hb] Hlen. set (c := w_cluster w).
  assert (size (list_to_set keys : gset string) <= length keys) as Hks
    by apply size_keys.
  destruct (NewSTM_quiet (rt_env rt) f v keys c (rt_attempts rt - 1)) as (c'&E&Hst&Hc).
  - apply Hun.
  - apply Hun.
  - lia.
  - unfold reads. set_solver.
  - unfold reads. rewrite size_union_alt.
    assert (size (((atomic (f v) (current (cl_store c)) ∅ ∅).2) ∖ list_to_set keys)
      <= size (atomic (f v) (current (cl_store c)) ∅ ∅).2) by (apply subseteq_size; set_solver).
    unfold store_of in Hb. fold c in Hb. lia.
  - pose proof (un_attempts _ _ _ _ _ Hun). replace (S (rt_attempts rt - 1)) with (rt_attempts rt) in E by lia.
    by exists c'.
Qed.

Lemma doSTM_undisturbed {V R} (f : V -> stm V) v keys l b (pre : Net -> Prop)
    (spec : Net -> option (R * Net)) out wr :
  implements l (f v) pre spec out wr -> pre n -> l = lid -> wr n <= MaxOpsPerTxn ->
  "" ∉ keys -> reads_le b (f v) (current (store_of w)) ∅ -> length keys + b <= MaxOpsPerTxn ->
  match spec n with
  | None => exists w1, doSTM rt f v keys w = (Err ErrDecode, w1) /\
      store_of w1 = store_of w /\ w_out w1 = w_out w
  | Some (r, n') => exists v' rev w1, doSTM rt f v keys w = (Ok (v', rev), w1) /\ out v' r /\
      rep (current (store_of w1)) n' /\ w_out w1 = w_out w
  end.
Proof.
  intros Himp Hpre -> Hwr Hk Hb Hlen. specialize (Himp _ n (un_wf _ _ _ _ _ Hun) (un_rep _ _ _ _ _ Hun) Hpre).
  destruct (doSTM_atomically f v keys b Hk Hb Hlen) as (c'&E&Hst&_).
  unfold doSTM, mbind, ST_mbind, ST_bind, in_cluster. rewrite E. unfold atomically in *.
  destruct (spec n) as [[r n']|].
  - destruct Himp as (v'&ws&Ha&Hout&Hrep&Htot). rewrite Ha in *.
    destruct (Htot (un_lease _ _ _ _ _ Hun) Hwr) as (tr&st'&HT). rewrite HT in *. simpl in *.
    exists v', (tr_Revision tr), (set_cluster c' w). split_and!; try done.
    unfold store_of. simpl. rewrite Hst. by eapply Hrep.
  - destruct (atomic (f v) (current (store_of w)) ∅ ∅) as [[o ws] rs]. simpl in Himp. subst o.
    exists (set_cluster c' w). by split_and!.
Qed.

(** A handler that is a transaction and its replies. *)
Lemma handler_behaves {V R} (f : V -> stm V) v keys l b (pre : Net -> Prop)
    (spec : Net -> option (R * Net)) out wr (replies : R -> list Message) (k : V * Z -> M unit) :
  implements l (f v) pre spec out wr -> pre n -> l = lid -> wr n <= MaxOpsPerTxn ->
  "" ∉ keys -> reads_le b (f v) (current (store_of w)) ∅ -> length keys + b <= MaxOpsPerTxn ->
  (forall v' rev r w1, out v' r -> (exists n', spec n = Some (r, n')) ->
     exists w2, k (v', rev) w1 = (Ok (), w2) /\ store_of w2 = store_of w1 /\
       w_out w2 = w_out w1 ++ replies r) ->
  behaves w (spec n) replies ((doSTM rt f v keys ≫= k) w).
Proof.
  intros Himp Hpre Hl Hwr Hk Hb Hlen Hrep.
  pose proof (doSTM_undisturbed f v keys l b pre spec out wr Himp Hpre Hl Hwr Hk Hb Hlen) as HD.
  unfold behaves, mbind, ST_mbind, ST_bind. destruct (spec n) as [[r n']|] eqn:Hs.
  - destruct HD as (v'&rev&w1&->&Hout&Hr&Hw). destruct (Hrep v' rev r w1 Hout ltac:(eauto)) as (w2&->&Hst&Hw2).
    simpl. rewrite Hst, Hw2, Hw. by split_and!.
  - destruct HD as (w1&->&Hst&Hw). by split_and!.
Qed.

Lemma sendHostMsg_run cmd ps w1 : sendHostMsg rt ec cmd ps w1 = (Ok (), add_out (reply cmd ps) w1).
Proof. unfold sendHostMsg, SendMsg, SendMsg_ctx, ctx_at. by rewrite (un_ctx _ _ _ _ _ Hun). Qed.

Lemma session_run {A} (f : Z -> M A) : (session rt ≫= f) w = f lid w.
Proof. unfold session, mbind, ST_mbind, ST_bind, lift. by rewrite (un_ses _ _ _ _ _ Hun). Qed.

Lemma no_empty_key (keys : list string) : forallb (fun k => negb (bool_decide (k = ""))) keys = true -> "" ∉ keys.
Proof. intros Hf Hin. rewrite forallb_forall in Hf. by specialize (Hf "" (proj1 (list_elem_of_In _ _) Hin)). Qed.

(** The end of a handler: one reply, or none. *)
Ltac reply_done :=
  first [ rewrite sendHostMsg_run; eexists; split; [reflexivity|by split]
        | eexists; split; [reflexivity|split; [done|by rewrite app_nil_r]] ].

(** The side conditions of [handler_behaves]. *)
Ltac small := unfold MaxOpsPerTxn; simpl; lia.

(** A PART that nobody disturbs returns and does exactly what the network
    says: the user leaves the channel if he is on it, and is told so if he is not. *)
Lemma part_quiet ch msg :
  behaves w (net_part me pfx lid ch msg n) (part_replies rt ec ch) (Part rt ec ch msg w).
Proof.
  unfold Part. rewrite session_run.
  eapply handler_behaves; [apply Part_implements|apply Hun|done|small|by apply no_empty_key
    |apply Part_reads|small|]. intros v' rev r w1 -> _. unfold part_replies, notOnChannel.
  destruct r; cbn [negb]; reply_done.
Qed.

Lemma away_quiet msg :
  behaves w (net_away me msg n) (fun _ => [away_reply rt ec msg]) (Away rt ec msg w).
Proof.
  eapply handler_behaves; [apply (Away_implements ec lid)|done|done|small|by apply no_empty_key
    |apply Away_reads|small|]. intros [] rev [] w1 _ _. unfold away_reply. case_bool_decide; reply_done.
Qed.

Lemma oper_quiet login pass :
  behaves w (net_oper me login pass n) (fun r => [oper_reply rt ec r]) (Oper rt ec login pass w).
Proof.
  eapply handler_behaves; [apply (Oper_implements ec lid)|done|done|small|by apply no_empty_key
    |apply Oper_reads|small|]. intros v' rev r w1 Hout [n1 Hn1]. simpl in Hout. rewrite Hout by auto.
  unfold oper_reply. destruct r; cbn [negb]; reply_done.
Qed.

(** A QUIT that nobody disturbs returns, for a user on at most 63 channels: each
    channel costs two of the 128 operations of a transaction. *)
Lemma quit_quiet msg :
  2 * channels_of ec n + 2 <= MaxOpsPerTxn ->
  behaves w (net_quit me pfx lid msg n) (fun _ => []) (Quit rt ec msg w).
Proof.
  intros Hsz. eapply handler_behaves; [apply (Quit_implements rt ec lid), Hun|apply Hun|done|done
    |by apply no_empty_key|apply (Quit_reads _ _ _ n), Hun|unfold MaxOpsPerTxn in *; simpl; lia|].
  intros [] rev [] w1 _ _. reply_done.
Qed.

(** A KICK that nobody disturbs returns with the reply of the case it is in.  It
    fails with a decoding error exactly when the target is on the channel but his
    session has no list of it. *)
Lemma kick_quiet ch nick msg :
  behaves w (net_kick me pfx lid ch nick msg n) (kick_replies rt ec ch nick) (kick rt ec ch nick msg w).
Proof.
  unfold kick. rewrite session_run.
  eapply handler_behaves; [apply kick_implements|done|done|small|by apply no_empty_key
    |apply kick_reads|small|]. intros v' rev r w1 Hout [n1 Hn1]. specialize (Hout (fun _ => eq_refl)).
  unfold kick_means in Hout. unfold kick_replies, notOnChannel, chanOpNeeded.
  destruct r; destruct_and?; destruct v'; simplify_eq/=; reply_done.
Qed.

(** A TOPIC that nobody disturbs returns, with the topic, an error reply, or the
    topic changed.  On a channel with mode +t it fails with a decoding error, which
    ends the connection, when the session of the client has no list of the channel. *)
Lemma topic_quiet ch msg :
  behaves w (net_topic me pfx lid ch msg n) (topic_replies rt ec ch) (Topic rt ec ch msg w).
Proof.
  unfold Topic. rewrite session_run.
  eapply handler_behaves; [apply Topic_implements|done|done|small|by apply no_empty_key
    |apply Topic_reads|small|]. intros v' rev r w1 Hout [n1 Hn1]. specialize (Hout ltac:(by split)).
  apply net_topic_msg in Hn1 as [Hmsg Hset].
  unfold Topic_means in Hout. unfold topic_replies, notOnChannel, chanOpNeeded, noChanModes.
  destruct r; destruct_and?; destruct v'; simplify_eq/=; try reply_done.
  - rewrite bool_decide_true by eauto. reply_done.
  - rewrite bool_decide_false by eauto. reply_done.
Qed.

(** A message to a user that nobody disturbs returns, and is delivered, answered
    by the away message, or refused. *)
Lemma privMsgUser_quiet target msg :
  behaves w (net_privMsgUser me pfx target msg n) (privMsgUser_replies rt ec target)
    (privMsgUser rt ec target msg w).
Proof.
  eapply handler_behaves; [apply (privMsgUser_implements ec lid)|apply Hun|done|small|by apply no_empty_key
    |apply privMsgUser_reads|small|]. intros v' rev r w1 Hout [n1 Hn1]. specialize (Hout (fun _ => eq_refl)).
  unfold privMsgUser_means in Hout. unfold privMsgUser_replies, noSuchNick.
  destruct r; destruct_and?; destruct v'; simplify_eq/=; reply_done.
Qed.

(** A message to a channel that nobody disturbs returns, and is delivered or
    refused. *)
Lemma privMsgChan_quiet ch msg :
  behaves w (net_privMsgChan me pfx ch msg n) (privMsgChan_replies rt ec ch)
    (privMsgChan rt ec ch msg w).
Proof.
  eapply handler_behaves; [apply (privMsgChan_implements ec lid)|by apply net_ok_sound, Hun|done|small|by apply no_empty_key
    |apply privMsgChan_reads|small|]. intros v' rev r w1 Hout [n1 Hn1]. specialize (Hout (fun _ => eq_refl)).
  unfold privMsgChan_means in Hout. unfold privMsgChan_replies, noSuchNick.
  destruct r; destruct_and?; destruct v'; simplify_eq/=; reply_done.
Qed.

(** A MODE on a channel that nobody disturbs returns with the modes of the
    channel, after the update if the client is an operator, or with an error reply. *)
Lemma chanMode_quiet ch m :
  behaves w (net_chanMode me lid (chan_update rt m) (bool_decide (m = [])) ch n) (mode_replies rt ec ch)
    (chanMode rt ec ch m w).
Proof.
  unfold chanMode.
  assert (es_s (rt_ses rt) = Some lid) as Hs.
  { pose proof (un_ses _ _ _ _ _ Hun) as Hs. unfold Session in Hs.
    destruct (es_ready _); destruct (es_ctx _); try done. by destruct (es_s _); simplify_eq/=. }
  rewrite Hs. unfold mbind at 1, ST_mbind, ST_bind, lift. cbn [or_panic].
  eapply handler_behaves; [apply chanMode_implements|done|done|small|by apply no_empty_key
    |apply chanMode_reads|small|]. intros v' rev r w1 Hout [n1 Hn1]. specialize (Hout (fun _ => eq_refl)).
  unfold chanMode_means in Hout. unfold mode_replies, noChanModes, notOnChannel, chanOpNeeded.
  destruct r; destruct_and?; destruct v'; simplify_eq/=; try reply_done.
  unfold SendMsg, SendMsg_ctx, ctx_at. rewrite (un_ctx _ _ _ _ _ Hun). eexists. split; [reflexivity|by split].
Qed.

Lemma mapM_run {A} (msg : A -> string * list string) l w1 :
  exists w2, mapM_ (fun a => sendHostMsg rt ec (msg a).1 (msg a).2) l w1 = (Ok (), w2) /\
    store_of w2 = store_of w1 /\ w_out w2 = w_out w1 ++ ((fun a => reply (msg a).1 (msg a).2) <$> l).
Proof.
  revert w1. induction l as [|a l IH]; intros w1; simpl.
  - exists w1. split_and!; [done|done|by rewrite app_nil_r].
  - unfold mbind, ST_mbind, ST_bind. rewrite sendHostMsg_run.
    destruct (IH (add_out (reply (msg a).1 (msg a).2) w1)) as (w2&->&Hst&Hw). exists w2.
    split_and!; [done|done|]. rewrite Hw. csimpl. by rewrite <-app_assoc.
Qed.

Lemma userMode_quiet m :
  behaves w (net_userMode me (user_update rt m) n) (userMode_replies rt ec m) (userMode rt ec m w).
Proof.
  eapply handler_behaves; [apply (userMode_implements rt ec lid)|done|done|small|by apply no_empty_key
    |apply userMode_reads|small|]. intros v' rev r w1 Hout _. simpl in Hout. subst v'.
  unfold userMode_replies. cbn beta iota. case_bool_decide; [reply_done|].
  unfold mbind, ST_mbind, ST_bind. rewrite sendHostMsg_run.
  destruct (mapM_run (fun b => (irc.ERR_UMODEUNKNOWNFLAG, [string_of_byte b +:+ " is unknown mode char to me"]))
    (updates [] m userModePerms).2 (add_out (reply irc.MODE [String.string_of_list_ascii r]) w1))
    as (w2&HM&Hst&Hw). exists w2. split_and!; [exact HM|done|]. rewrite Hw. simpl. by rewrite <-app_assoc.
Qed.

(** C13: PART, KICK, QUIT, AWAY, OPER and MODE on the own nick, when nobody disturbs
    them, return and do what the network says.  A user leaves a channel if he is on
    it, and is told so if he is not; only an operator kicks; KICK fails with a
    decoding error exactly when the target is on the channel but his session has no
    list of it, and the others do when the client has no user any more.  QUIT takes
    its user off all his channels at once, where there are at most 63 of them: each
    costs two of the 128 operations of a transaction, and with more it fails
    ([transaction_bounds]).  The away message
    and mode are set or cleared, operator rights are given for the right password
    only, and the modes a user may change are changed. *)
Theorem standing_exact :
  (forall ch msg, behaves w (net_part me pfx lid ch msg n) (part_replies rt ec ch) (Part rt ec ch msg w)) /\
  (forall ch nick msg,
     behaves w (net_kick me pfx lid ch nick msg n) (kick_replies rt ec ch nick) (kick rt ec ch nick msg w)) /\
  (forall msg, 2 * channels_of ec n + 2 <= MaxOpsPerTxn ->
     behaves w (net_quit me pfx lid msg n) (fun _ => []) (Quit rt ec msg w)) /\
  (forall msg, behaves w (net_away me msg n) (fun _ => [away_reply rt ec msg]) (Away rt ec msg w)) /\
  (forall login pass,
     behaves w (net_oper me login pass n) (fun r => [oper_reply rt ec r]) (Oper rt ec login pass w)) /\
  (forall m, behaves w (net_userMode me (user_update rt m) n) (userMode_replies rt ec m) (userMode rt ec m w)).
Proof. split_and!; auto using part_quiet, kick_quiet, quit_quiet, away_quiet, oper_quiet, userMode_quiet. Qed.

(** C14: the commands of a channel's header and messages, when nobody disturbs them.
    TOPIC and MODE on a channel return with the topic or the modes, after the change
    if the client may make it, or with the error reply of the case; they fail with a
    decoding error, which ends the connection, where the client's session has no list
    of the channel to look him up in.  Messages are delivered to the user's or the
    channel's box, answered by the away message, or refused with the error reply of
    the case. *)
Theorem speech_exact :
  (forall ch msg, behaves w (net_topic me pfx lid ch msg n) (topic_replies rt ec ch) (Topic rt ec ch msg w)) /\
  (forall ch m, behaves w (net_chanMode me lid (chan_update rt m) (bool_decide (m = [])) ch n)
     (mode_replies rt ec ch) (chanMode rt ec ch m w)) /\
  (forall target msg, behaves w (net_privMsgUser me pfx target msg n) (privMsgUser_replies rt ec target)
     (privMsgUser rt ec target msg w)) /\
  (forall ch msg, behaves w (net_privMsgChan me pfx ch msg n) (privMsgChan_replies rt ec ch)
     (privMsgChan rt ec ch msg w)).
Proof. split_and!; auto using topic_quiet, chanMode_quiet, privMsgUser_quiet, privMsgChan_quiet. Qed.

End handlers.
End quiet.

(** ** Examples *)

Module QuietDemo.
Import Demo.

Lemma undisturbed_at st nick :
  reachable st -> owns_b st nick 7 = true -> bool_decide (7%Z ∈ st_leases st) = true ->
  exists n, undisturbed rt (client nick) 7 (world st) n.
Proof.
  intros Hst Ho Hl%bool_decide_eq_true. destruct (reachable_net st Hst) as [Hw (n&Hr&Hn&_)]. exists n.
  split; try done.
  - apply Nat.lt_0_1.
  - eapply owns_rep; [exact Hr|by apply owns_b_ok].
Qed.

Lemma undisturbed_bob : exists n, undisturbed rt bob 7 (world store4) n.
Proof.
  apply (undisturbed_at store4 "bob"); [exact reachable4|vm_compute; reflexivity|vm_compute; reflexivity].
Qed.

End QuietDemo.

Import Demo.

Lemma standing_exact_witness :
  exists n, undisturbed rt bob 7 (world store4) n /\
    behaves (world store4) (net_kick "bob" (ec_prefix bob) 7 "#c" "alice" "out" n) (kick_replies rt bob "#c" "alice")
      (kick rt bob "#c" "alice" "out" (world store4)) /\
    behaves (world store4) (net_quit "bob" (ec_prefix bob) 7 "bye" n) (fun _ => [])
      (Quit rt bob "bye" (world store4)) /\
    behaves (world store4) (net_away "bob" "lunch" n) (fun _ => [away_reply rt bob "lunch"])
      (Away rt bob "lunch" (world store4)).
Proof.
  destruct QuietDemo.undisturbed_bob as [n Hn]. exists n. split; [exact Hn|].
  destruct (standing_exact rt bob 7 (world store4) n Hn) as (_&Hk&Hq&Ha&_).
  split; [apply Hk|]. split; [apply Hq|apply Ha].
  pose proof (rep_stored_user store4 n "bob" (un_rep _ _ _ _ _ Hn)) as Hu.
  assert ((length ∘ uv_Channels) <$> stored_user store4 "bob" = Some 1) as Hl by (vm_compute; reflexivity).
  unfold channels_of, MaxOpsPerTxn. simpl. rewrite Hu in Hl.
  destruct (n_users n !! "bob"); simpl in *; [|lia]. injection Hl as Hl. lia.
Defined.

Lemma speech_exact_witness :
  exists n, undisturbed rt bob 7 (world store4) n /\
    behaves (world store4) (net_topic "bob" (ec_prefix bob) 7 "#c" (Some "news") n) (topic_replies rt bob "#c")
      (Topic rt bob "#c" (Some "news") (world store4)) /\
    behaves (world store4) (net_privMsgUser "bob" (ec_prefix bob) "alice" "hi" n)
      (privMsgUser_replies rt bob "alice") (privMsgUser rt bob "alice" "hi" (world store4)).
Proof.
  destruct QuietDemo.undisturbed_bob as [n Hn]. exists n. split; [exact Hn|].
  split; apply (speech_exact rt bob 7 (world store4) n Hn).
Defined.
