(* ===== verification/Bounds.v ===== *)
(** * How large the transactions are

    etcd refuses a transaction with more than 128 comparisons or operations.  Each
    closure reads and writes a fixed number of keys, but for QUIT, which writes two
    for every channel of its user and is refused from 64 channels on. *)

From S2P Require Import Prelude GoLib Mode Msg User Channel Key Etcd Stm Net Client Rep Refine Server Ctl System Demo Guarantees Linear Quiet.

(** ** How many keys a closure writes *)

Definition writes_le {A} (n : nat) (p : stm A) (s : snapshot) (ws : gmap string stmPut) : Prop :=
  size (arun p s ws).2 <= size ws + n.

Section writes.
Context (s : snapshot).

Lemma writes_le_bind {A B} n m (p : stm A) (f : A -> stm B) ws :
  writes_le n p s ws -> (forall a ws', writes_le m (f a) s ws') -> writes_le (n + m) (p ≫= f) s ws.
Proof.
  unfold writes_le. intros Hp Hf. rewrite arun_bind. destruct (arun p s ws) as [[a|e| | |] ws']; simpl in *; try lia.
  specialize (Hf a ws'). lia.
Qed.

Lemma writes_le_ret {A} n (o : outcome A) ws : writes_le n (SRet o) s ws.
Proof. unfold writes_le. rewrite arun_ret. simpl. lia. Qed.

Lemma writes_le_Get n k ws : writes_le n (Get_ k) s ws.
Proof. unfold writes_le. rewrite arun_Get. simpl. lia. Qed.

Lemma writes_le_Rev n k ws : writes_le n (Rev_ k) s ws.
Proof. unfold writes_le. rewrite arun_Rev. simpl. lia. Qed.

Lemma writes_le_Put n k v l ws : writes_le (S n) (Put_ k v l) s ws.
Proof. unfold writes_le. rewrite arun_Put. etransitivity; [by apply size_insert_le|lia]. Qed.

Lemma writes_le_Del n k ws : writes_le (S n) (Del_ k) s ws.
Proof. unfold writes_le. rewrite arun_Del. etransitivity; [by apply size_insert_le|lia]. Qed.

Lemma writes_le_next {A B} n (p : stm A) (f : A -> stm B) ws :
  writes_le 1 p s ws -> (forall a ws', writes_le n (f a) s ws') -> writes_le (S n) (p ≫= f) s ws.
Proof. intros Hp Hf. by apply (writes_le_bind 1 n). Qed.

Lemma writes_le_free {A B} n (p : stm A) (f : A -> stm B) ws :
  writes_le 0 p s ws -> (forall a ws', writes_le n (f a) s ws') -> writes_le n (p ≫= f) s ws.
Proof. intros Hp Hf. by apply (writes_le_bind 0 n). Qed.

End writes.

Ltac writes_step :=
  lazymatch goal with
  | |- writes_le _ (mbind _ (SRet _)) _ _ => apply writes_le_free; [apply writes_le_ret|intros ? ?]
  | |- writes_le _ (mbind _ (mret _)) _ _ => apply writes_le_free; [apply writes_le_ret|intros ? ?]
  | |- writes_le _ (mbind _ (decode _ _)) _ _ => apply writes_le_free; [apply writes_le_ret|intros ? ?]
  | |- writes_le _ (mbind _ (Get_ _)) _ _ => apply writes_le_free; [apply writes_le_Get|intros ? ?]
  | |- writes_le _ (mbind _ (Rev_ _)) _ _ => apply writes_le_free; [apply writes_le_Rev|intros ? ?]
  | |- writes_le _ (mbind _ (Put_ _ _ _)) _ _ => apply writes_le_next; [apply writes_le_Put|intros ? ?]
  | |- writes_le _ (mbind _ (Del_ _)) _ _ => apply writes_le_next; [apply writes_le_Del|intros ? ?]
  | |- writes_le _ (mbind _ (mbind _ _)) _ _ => apply writes_le_next; [|intros ? ?]
  | |- writes_le _ (mbind _ (match ?x with _ => _ end)) _ _ => destruct x
  | |- writes_le _ (match ?x with _ => _ end) _ _ => destruct x
  | |- writes_le _ (Put_ _ _ _) _ _ => apply writes_le_Put
  | |- writes_le _ (Del_ _) _ _ => apply writes_le_Del
  | |- writes_le _ (mret _) _ _ => apply writes_le_ret
  | |- writes_le _ (SRet _) _ _ => apply writes_le_ret
  | |- writes_le _ (decode _ _) _ _ => apply writes_le_ret
  end.

Section closures.
Context `{Gob Message, Gob UserValue, Gob ChannelCtl, Gob ChannelNicks, Gob OperValue}.
Context (rt : Runtime) (ec : etcdClient) (s : snapshot).

Lemma Join_writes lid ch t : writes_le 5 (Join_txn rt ec lid ch t) s ∅.
Proof. unfold Join_txn. cbv zeta. repeat writes_step. Qed.

Lemma Part_writes lid ch msg t : writes_le 3 (Part_txn ec lid ch msg t) s ∅.
Proof. unfold Part_txn. cbv zeta. repeat writes_step. Qed.

Lemma chanMode_writes lid ch m v : writes_le 1 (chanMode_txn rt ec lid ch m v) s ∅.
Proof. unfold chanMode_txn. cbv zeta. repeat writes_step. Qed.

Lemma userMode_writes m v : writes_le 1 (userMode_txn rt ec m v) s ∅.
Proof. unfold userMode_txn. cbv zeta. repeat writes_step. Qed.

Lemma Away_writes msg v : writes_le 1 (Away_txn ec msg v) s ∅.
Proof. unfold Away_txn. cbv zeta. repeat writes_step. Qed.

Lemma Oper_writes login pass v : writes_le 1 (Oper_txn ec login pass v) s ∅.
Proof. unfold Oper_txn. cbv zeta. repeat writes_step. Qed.

Lemma kick_writes lid ch nick msg v : writes_le 3 (kick_txn ec lid ch nick msg v) s ∅.
Proof. unfold kick_txn. cbv zeta. repeat writes_step. Qed.

Lemma Topic_writes lid ch msg v : writes_le 2 (Topic_txn ec lid ch msg v) s ∅.
Proof.
  assert (forall c t (v : Topic_vars) ws, writes_le 2
    ((_ ← Put_ (keyChanCtl ch) c NoLease; Put_ (keyChanMsg ch) t NoLease) ≫= fun _ => mret v) s ws) as Hwrite.
  { intros c t v' ws. apply (writes_le_bind _ 2 0); repeat first [writes_step|intros ? ?]. }
  unfold Topic_txn. cbv zeta. repeat first [apply Hwrite|writes_step].
Qed.

Lemma privMsgUser_writes target msg v : writes_le 1 (privMsgUser_txn ec target msg v) s ∅.
Proof. unfold privMsgUser_txn. cbv zeta. repeat writes_step. Qed.

Lemma privMsgChan_writes ch msg v : writes_le 1 (privMsgChan_txn ec ch msg v) s ∅.
Proof. unfold privMsgChan_txn. cbv zeta. repeat writes_step. Qed.

(** ** QUIT *)

Notation quit_keys lid ch := ([keyChanNicks ch lid; keyChanMsg ch]).

Lemma Quit_channels_writes_le lid msg chs ws : writes_le (2 * length chs) (Quit_channels ec lid msg chs) s ws.
Proof.
  revert ws. induction chs as [|ch chs IH]; intros ws; cbn [Quit_channels length]; [apply writes_le_ret|].
  apply writes_le_free; [apply writes_le_Get|]. intros us ws1.
  replace (2 * S (length chs)) with (2 + 2 * length chs) by lia. apply writes_le_bind; [|by intros []].
  repeat writes_step.
Qed.

(** Where the session has the list of every channel, QUIT writes both keys of each. *)
Lemma Quit_channels_writes lid msg chs ws ws' :
  (forall ch, ch ∈ chs -> read s ws (keyChanNicks ch lid) <> "") ->
  arun (Quit_channels ec lid msg chs) s ws = (Ok (), ws') ->
  dom ws ⊆ dom ws' /\ forall ch k, ch ∈ chs -> k ∈ quit_keys lid ch -> k ∈ dom ws'.
Proof.
  revert ws. induction chs as [|ch chs IH]; intros ws Hread E; cbn [Quit_channels] in E.
  { injection E as <-. split; [done|]. by intros ? ? ?%not_elem_of_nil. }
  rewrite arun_bind, arun_Get, bool_decide_false, arun_bind in E by (apply Hread; by left).
  rewrite arun_bind, arun_decode in E. destruct (decodeChannelNicks _) as [cns|]; [|done]. cbn [or_err] in E.
  rewrite arun_bind, arun_Put, arun_Put in E. set (v := encodeChannelNicks _) in E.
  apply IH in E as [Hdom Hk].
  - rewrite !dom_insert in Hdom. split; [set_solver|].
    intros ch1 k [->|Hin]%elem_of_cons Hkey; [|by eapply Hk]. apply Hdom. set_solver.
  - intros ch1 Hin. unfold read. destruct (decide (ch1 = ch)) as [->|Hne].
    + rewrite lookup_insert_ne, lookup_insert_eq by done. apply gob_encode_not_empty.
    + rewrite !lookup_insert_ne; [apply Hread; by right| |done].
      intros Ek. apply Hne. by injection (inj key_str (KChanNicks ch lid) (KChanNicks ch1 lid) Ek).
Qed.

Lemma quit_keys_NoDup lid chs : NoDup chs -> NoDup (chs ≫= fun ch => quit_keys lid ch).
Proof.
  intros Hnd. assert ((chs ≫= fun ch => quit_keys lid ch) = key_str <$> (chs ≫= fun ch => [KChanNicks ch lid; KChanMsg ch])) as ->.
  { clear. induction chs as [|ch chs IH]; [done|]. cbn [mbind list_bind]. by rewrite IH. }
  apply NoDup_fmap_2; [apply _|]. induction Hnd as [|ch chs Hn Hnd IH]; [constructor|]. cbn [mbind list_bind].
  assert (forall k, k ∈ [KChanNicks ch lid; KChanMsg ch] -> k ∉ (chs ≫= fun ch => [KChanNicks ch lid; KChanMsg ch])) as Hno.
  { intros k Hk (ch1&Hin&Hin1)%list_elem_of_bind. apply Hn. set_unfold. naive_solver. }
  apply list.NoDup_app. split; [repeat constructor; set_solver|]. by split.
Qed.

Lemma Quit_size n lid msg ws uv :
  rep s n -> net_ok n -> owns n (ec_nick ec) lid -> Session (rt_ses rt) = Ok lid ->
  n_users n !! ec_nick ec = Some uv -> NoDup (uv_Channels uv) ->
  arun (Quit_txn rt ec msg ()) s ∅ = (Ok (), ws) ->
  size ws = 2 * length (uv_Channels uv) + 2.
Proof.
  intros Hrep Hok Hown Hses Hu Hnd E. specialize (Hown uv Hu).
  assert (forall k, read s ∅ (key_str k) = net_val n k) as Hval by (intros k; unfold read; rewrite lookup_empty; by eapply rep_value).
  unfold Quit_txn in E. cbv zeta in E. rewrite arun_bind, arun_Get, arun_bind, arun_decode in E.
  change (keyUserCtl (ec_nick ec)) with (key_str (KUserCtl (ec_nick ec))) in E.
  rewrite Hval in E. unfold net_val in E. cbn [net_at] in E. rewrite Hu in E. cbn [fmap option_fmap option_map] in E.
  rewrite decodeUserValue_encode in E. cbn [or_err] in E. rewrite Hses, arun_bind, arun_ret, arun_bind in E.
  destruct (arun (Quit_channels ec lid msg (uv_Channels uv)) s ∅) as [[[]|e| | |] ws1] eqn:Eq; try done.
  rewrite arun_bind, arun_Del, arun_Del in E. injection E as <-.
  apply Nat.le_antisymm.
  - pose proof (Quit_channels_writes_le lid msg (uv_Channels uv) ∅) as Hle. unfold writes_le in Hle. rewrite Eq in Hle.
    cbn [snd] in Hle. rewrite map_size_empty in Hle. etransitivity; [by apply size_insert_le|].
    pose proof (size_insert_le ws1 (key_str (KUserCtl (ec_nick ec))) {| sp_val := ""; sp_op := OpDelete (keyUserCtl (ec_nick ec)) |} _ (Nat.le_refl _)).
    cbn [key_str] in *. lia.
  - apply Quit_channels_writes in Eq as [_ Hk].
    2:{ intros ch Hin%occurs_elem_of. rewrite (ok_channels _ Hok _ _ _ Hu), Hown in Hin. apply occurs_elem_of in Hin.
        change (keyChanNicks ch lid) with (key_str (KChanNicks ch lid)). rewrite Hval. unfold net_val. cbn [net_at].
        unfold member_nicks, members in Hin. destruct (n_members n !! (ch, lid)); [apply gob_encode_not_empty|].
        by apply not_elem_of_nil in Hin. }
    set (ks := (uv_Channels uv ≫= fun ch => quit_keys lid ch) ++ [keyUserCtl (ec_nick ec); keyUserMsg (ec_nick ec)]).
    assert (length ks = 2 * length (uv_Channels uv) + 2) as <-.
    { unfold ks. rewrite length_app. clear. induction (uv_Channels uv); [done|]. cbn [mbind list_bind]. simpl in *. lia. }
    rewrite <-size_dom. rewrite <-(size_list_to_set (C := gset string) ks).
    + apply subseteq_size. unfold ks. rewrite !dom_insert. intros k [(ch&Hk'&Hch)%list_elem_of_bind|Hk']%elem_of_list_to_set%elem_of_app.
      * specialize (Hk ch k Hch Hk'). set_solver.
      * set_solver.
    + unfold ks. apply list.NoDup_app. split; [by apply quit_keys_NoDup|]. split.
      * intros k (ch&Hk'&_)%list_elem_of_bind. set_unfold. intros [E|[E|[]]]; destruct Hk' as [->|[->|[]]];
          (apply (inj key_str (KUserCtl _)) in E || idtac); done.
      * repeat constructor; set_solver.
Qed.

End closures.

(** ** Transactions that etcd refuses *)

Lemma Txn_too_many st ops : MaxOpsPerTxn < length ops -> Txn st [] ops [] = Err ErrTooManyOps.
Proof.
  intros Hlen. unfold Txn, checkTxnRequest. by rewrite (bool_decide_true (MaxOpsPerTxn < length ops)), orb_true_r.
Qed.

Section bounds.
Context `{Gob Message, Gob UserValue, Gob ChannelCtl, Gob ChannelNicks, Gob OperValue}.
Context (rt : Runtime) (ec : etcdClient).

(** Run on a snapshot, the closure asks etcd to compare at most [r] keys and to
    write at most [k]. *)
Definition txn_le {A} (r k : nat) (p : stm A) (s : snapshot) : Prop := reads_le r p s ∅ /\ writes_le k p s ∅.

Lemma quit_refused lid w n uv msg :
  undisturbed rt ec lid w n -> n_users n !! ec_nick ec = Some uv -> NoDup (uv_Channels uv) ->
  63 < length (uv_Channels uv) <= 126 ->
  (Quit rt ec msg w).1 = Err ErrTooManyOps /\ store_of (Quit rt ec msg w).2 = store_of w.
Proof.
  intros Hun Hu Hnd Hlen.
  pose proof (Quit_implements rt ec lid msg () (un_ses _ _ _ _ _ Hun) (store_of w) n (un_wf _ _ _ _ _ Hun)
    (un_rep _ _ _ _ _ Hun) (un_owns _ _ _ _ _ Hun)) as Himp.
  unfold net_quit in Himp. rewrite Hu in Himp. cbn [mbind option_bind] in Himp. destruct Himp as ([]&ws&Ha&_).
  pose proof (Quit_size rt ec (current (store_of w)) n lid msg ws uv (un_rep _ _ _ _ _ Hun) (un_ok _ _ _ _ _ Hun)
    (un_owns _ _ _ _ _ Hun) (un_ses _ _ _ _ _ Hun) Hu Hnd Ha) as Hsize.
  destruct (doSTM_atomically rt ec lid w n Hun (Quit_txn rt ec msg) () [keyUserCtl (ec_nick ec)] (S (channels_of ec n)))
    as (c'&E&Hst&_).
  - by apply no_empty_key.
  - apply Quit_reads, Hun.
  - unfold channels_of, MaxOpsPerTxn. rewrite Hu. simpl. lia.
  - assert (atomically (Quit_txn rt ec msg ()) (store_of w) = (Err ErrTooManyOps, store_of w)) as Hat.
    { unfold atomically. rewrite Ha, Txn_too_many; [done|]. unfold wset_puts. rewrite length_fmap, length_map_to_list, Hsize.
      unfold MaxOpsPerTxn. lia. }
    rewrite Hat in *. unfold Quit, doSTM, mbind, ST_mbind, ST_bind, in_cluster. rewrite E. by split.
Qed.

(** C15: the transactions of the handlers stay far below the 128 comparisons and
    operations etcd takes, whatever the store holds: at most 5 and 5.  QUIT is the
    exception: on a consistent network it writes exactly two keys for each channel of
    its user and two more, so that with 64 channels (and up to 126) etcd refuses it:
    the command fails, nothing is changed and the user cannot leave this way. *)
Theorem transaction_bounds :
  (forall s lid ch t, txn_le 4 5 (Join_txn rt ec lid ch t) s) /\
  (forall s lid ch msg t, txn_le 2 3 (Part_txn ec lid ch msg t) s) /\
  (forall s lid ch nick msg v, txn_le 5 3 (kick_txn ec lid ch nick msg v) s) /\
  (forall s lid ch m v, txn_le 2 1 (chanMode_txn rt ec lid ch m v) s) /\
  (forall s lid ch msg v, txn_le 3 2 (Topic_txn ec lid ch msg v) s) /\
  (forall s m v, txn_le 1 1 (userMode_txn rt ec m v) s) /\
  (forall s msg v, txn_le 1 1 (Away_txn ec msg v) s) /\
  (forall s login pass v, txn_le 2 1 (Oper_txn ec login pass v) s) /\
  (forall s target msg v, txn_le 3 1 (privMsgUser_txn ec target msg v) s) /\
  (forall s ch msg v, txn_le 4 1 (privMsgChan_txn ec ch msg v) s) /\
  (forall s n lid msg ws uv, rep s n -> net_ok n -> owns n (ec_nick ec) lid -> Session (rt_ses rt) = Ok lid ->
     n_users n !! ec_nick ec = Some uv -> NoDup (uv_Channels uv) ->
     arun (Quit_txn rt ec msg ()) s ∅ = (Ok (), ws) -> size ws = 2 * length (uv_Channels uv) + 2) /\
  (forall lid w n uv msg, undisturbed rt ec lid w n -> n_users n !! ec_nick ec = Some uv -> NoDup (uv_Channels uv) ->
     63 < length (uv_Channels uv) <= 126 ->
     (Quit rt ec msg w).1 = Err ErrTooManyOps /\ store_of (Quit rt ec msg w).2 = store_of w).
Proof.
  unfold txn_le. split_and!; intros; split_and?; eauto using Join_reads, Join_writes, Part_reads, Part_writes, kick_reads,
    kick_writes, chanMode_reads, chanMode_writes, Topic_reads, Topic_writes, userMode_reads, userMode_writes, Away_reads,
    Away_writes, Oper_reads, Oper_writes, privMsgUser_reads, privMsgUser_writes, privMsgChan_reads, privMsgChan_writes.
  - by eapply Quit_size.
  - by eapply quit_refused.
  - by eapply quit_refused.
Qed.

End bounds.

(** ** Example: bob on 64 channels *)

Module BoundsDemo.
Import Demo.

Fixpoint joined (chs : list string) (st : Store) : option Store :=
  match chs with
  | [] => Some st
  | ch :: chs' =>
    if owns_b st "bob" 7 && did_ok (Join_txn rt bob 7 ch) "" st
    then joined chs' (did (Join_txn rt bob 7 ch) "" st) else None
  end.

Lemma joined_reachable chs st st' : joined chs st = Some st' -> reachable st -> reachable st'.
Proof.
  revert st. induction chs as [|ch chs IH]; intros st E Hr; simpl in E; [by injection E as <-|].
  destruct (owns_b st "bob" 7) eqn:Eo; [|done]. destruct (did_ok (Join_txn rt bob 7 ch) "" st) eqn:Ed; [|done].
  eapply IH; [exact E|]. eapply rtc_r; [exact Hr|]. by apply join_step.
Qed.

Definition many : list string := (fun i => "#" +:+ fmt_d i) <$> seq 0 63.

(** On #c and on 63 more, each of them once. *)
Definition crowded (o : option Store) : bool :=
  match o with
  | Some st => owns_b st "bob" 7 && bool_decide (7%Z ∈ st_leases st) &&
      match stored_user st "bob" with
      | Some uv => bool_decide (length (uv_Channels uv) = 64) && bool_decide (NoDup (uv_Channels uv))
      | None => false
      end
  | None => false
  end.

Lemma many_crowded : crowded (joined many store4) = true.
Proof. vm_compute. reflexivity. Qed.

Lemma bob_crowded : exists st n uv, reachable st /\ undisturbed rt bob 7 (world st) n /\
  n_users n !! "bob" = Some uv /\ NoDup (uv_Channels uv) /\ length (uv_Channels uv) = 64.
Proof.
  pose proof many_crowded as Hc. destruct (joined many store4) as [st|] eqn:Ej; [|discriminate Hc].
  apply joined_reachable in Ej; [|exact reachable4]. unfold crowded in Hc.
  apply andb_true_iff in Hc as [[Ho Hl]%andb_true_iff Hu].
  destruct (QuietDemo.undisturbed_at st "bob" Ej Ho Hl) as [n Hn]. pose proof (un_rep _ _ _ _ _ Hn) as Hrep.
  rewrite (rep_stored_user st n "bob" Hrep) in Hu. destruct (n_users n !! "bob") as [uv|] eqn:E; [|discriminate Hu].
  apply andb_true_iff in Hu as [Hlen%bool_decide_eq_true Hnd%bool_decide_eq_true]. by exists st, n, uv.
Qed.

End BoundsDemo.

Import Demo.

Lemma transaction_bounds_witness : exists st, reachable st /\
  (Quit rt bob "bye" (world st)).1 = Err ErrTooManyOps /\ store_of (Quit rt bob "bye" (world st)).2 = st.
Proof.
  destruct BoundsDemo.bob_crowded as (st&n&uv&Hr&Hun&Hu&Hnd&Hlen). exists st. split; [exact Hr|].
  destruct (transaction_bounds rt bob) as (_&_&_&_&_&_&_&_&_&_&_&Hq).
  apply (Hq 7%Z (world st) n uv "bye" Hun Hu Hnd). rewrite Hlen. lia.
Defined.
