(* ===== verification/Stored.v ===== *)
(** * What is stored

    A snapshot that represents a network has a key for each of its entities; this
    file adds that a reachable store has no other keys, and from it what a query
    for a prefix returns: the entities under it, in the order of their keys. *)

From S2P Require Import Prelude GoLib Mode Msg User Channel Key Etcd Stm Net Client Rep Server Ctl System Demo.

(** ** The keys a closure writes *)

(** Whatever a closure reads, it writes under keys of [P] only. *)
Fixpoint writes_only {A} (P : string -> Prop) (p : stm A) : Prop :=
  match p with
  | SRet _ => True
  | SGet _ k => forall v, writes_only P (k v)
  | SRev _ k => forall r, writes_only P (k r)
  | SPut key _ _ k => P key /\ writes_only P k
  | SDel key k => P key /\ writes_only P k
  end.

Definition ws_only (P : string -> Prop) (ws : gmap string stmPut) : Prop :=
  map_Forall (fun _ p => P (op_key (sp_op p))) ws.

Lemma writes_only_atomic {A} P (p : stm A) s ws rs :
  writes_only P p -> ws_only P ws -> ws_only P (atomic p s ws rs).1.2.
Proof.
  revert ws rs. induction p as [o|key k IH|key k IH|key val l k IH|key k IH]; intros ws rs Hp Hws; simpl in *.
  - done.
  - destruct (ws !! key); by apply IH.
  - by apply IH.
  - destruct Hp. apply IH; [done|]. by apply map_Forall_insert_2.
  - destruct Hp. apply IH; [done|]. by apply map_Forall_insert_2.
Qed.

Lemma writes_only_bind {A B} P (p : stm A) (f : A -> stm B) :
  writes_only P p -> (forall a, writes_only P (f a)) -> writes_only P (p ≫= f).
Proof.
  intros Hp Hf. revert Hp. unfold mbind, stm_mbind.
  induction p as [[a|e| | |]|key k IH|key k IH|key val l k IH|key k IH]; intros Hp; try done.
  - apply Hf.
  - intros v. apply IH, Hp.
  - intros r. apply IH, Hp.
  - split; [apply Hp|apply IH, Hp].
  - split; [apply Hp|apply IH, Hp].
Qed.

(** A key of the network. *)
Definition key_known (k : string) : Prop := exists K, k = key_str K.

Definition known (s : snapshot) : Prop := forall k, is_Some (s !! k) -> key_known k.

Lemma writes_only_ret {A} P (o : outcome A) : writes_only P (SRet o).
Proof. done. Qed.
Lemma writes_only_Get P k : writes_only P (Get_ k).
Proof. done. Qed.
Lemma writes_only_Rev P k : writes_only P (Rev_ k).
Proof. done. Qed.
Lemma writes_only_Put K v l : writes_only key_known (Put_ (key_str K) v l).
Proof. split; [by eexists|done]. Qed.
Lemma writes_only_Del K : writes_only key_known (Del_ (key_str K)).
Proof. split; [by eexists|done]. Qed.

Ltac known_step :=
  lazymatch goal with
  | |- writes_only _ (mbind _ _) => apply writes_only_bind; [|intros ?]
  | |- writes_only _ (let '(_, _) := ?x in _) => destruct x
  | |- writes_only _ (match ?x with _ => _ end) => destruct x
  | |- writes_only _ (Get_ _) => apply writes_only_Get
  | |- writes_only _ (Rev_ _) => apply writes_only_Rev
  | |- writes_only _ (Put_ (keyUserCtl ?n) _ _) => apply (writes_only_Put (KUserCtl n))
  | |- writes_only _ (Put_ (keyUserMsg ?n) _ _) => apply (writes_only_Put (KUserMsg n))
  | |- writes_only _ (Put_ (keyChanCtl ?n) _ _) => apply (writes_only_Put (KChanCtl n))
  | |- writes_only _ (Put_ (keyChanMsg ?n) _ _) => apply (writes_only_Put (KChanMsg n))
  | |- writes_only _ (Put_ (keyChanNicks ?n ?l) _ _) => apply (writes_only_Put (KChanNicks n l))
  | |- writes_only _ (Del_ (keyUserCtl ?n)) => apply (writes_only_Del (KUserCtl n))
  | |- writes_only _ (Del_ (keyUserMsg ?n)) => apply (writes_only_Del (KUserMsg n))
  | |- writes_only _ (decode _ _) => apply writes_only_ret
  | |- writes_only _ (mret _) => apply writes_only_ret
  | |- writes_only _ (SRet _) => apply writes_only_ret
  end.

Section closures.
Context `{Gob Message, Gob UserValue, Gob ChannelCtl, Gob ChannelNicks, Gob OperValue}.
Context (rt : Runtime) (ec : etcdClient).

Lemma Quit_channels_known lid msg chs : writes_only key_known (Quit_channels ec lid msg chs).
Proof. induction chs; cbn [Quit_channels]; repeat first [assumption|known_step]. Qed.

Lemma Quit_known msg u : writes_only key_known (Quit_txn rt ec msg u).
Proof. unfold Quit_txn. cbv zeta. repeat first [apply Quit_channels_known|known_step]. Qed.

Lemma Join_known lid ch t : writes_only key_known (Join_txn rt ec lid ch t).
Proof. unfold Join_txn. cbv zeta. repeat known_step. Qed.

Lemma Part_known lid ch msg t : writes_only key_known (Part_txn ec lid ch msg t).
Proof. unfold Part_txn. cbv zeta. repeat known_step. Qed.

Lemma chanMode_known lid ch m v : writes_only key_known (chanMode_txn rt ec lid ch m v).
Proof. unfold chanMode_txn. cbv zeta. repeat known_step. Qed.

Lemma userMode_known m v : writes_only key_known (userMode_txn rt ec m v).
Proof. unfold userMode_txn. cbv zeta. repeat known_step. Qed.

Lemma Away_known msg v : writes_only key_known (Away_txn ec msg v).
Proof. unfold Away_txn. cbv zeta. repeat known_step. Qed.

Lemma Oper_known login pass v : writes_only key_known (Oper_txn ec login pass v).
Proof. unfold Oper_txn. cbv zeta. repeat known_step. Qed.

Lemma kick_known lid ch nick msg v : writes_only key_known (kick_txn ec lid ch nick msg v).
Proof. unfold kick_txn. cbv zeta. repeat known_step. Qed.

Lemma Topic_known lid ch msg v : writes_only key_known (Topic_txn ec lid ch msg v).
Proof. unfold Topic_txn. cbv zeta. repeat known_step. Qed.

Lemma privMsgUser_known target msg v : writes_only key_known (privMsgUser_txn ec target msg v).
Proof. unfold privMsgUser_txn. cbv zeta. repeat known_step. Qed.

Lemma privMsgChan_known ch msg v : writes_only key_known (privMsgChan_txn ec ch msg v).
Proof. unfold privMsgChan_txn. cbv zeta. repeat known_step. Qed.

End closures.

Section stores.
Context `{Gob Message, Gob UserValue, Gob ChannelCtl, Gob ChannelNicks, Gob OperValue}.

(** ** The keys of a store after a step *)

Lemma applyOps_keys st acc ops k :
  is_Some ((applyOps st acc ops).1.1 !! k) -> is_Some (acc.1 !! k) \/ k ∈ put_keys ops.
Proof.
  revert acc. induction ops as [|op ops IH]; intros [s changed] Hk; [by left|].
  cbn [applyOps] in Hk. destruct (applyOp st (s, changed) op) as [[s1 c1] r] eqn:E.
  destruct (applyOps st (s1, c1) ops) as [[s2 c2] rs] eqn:E2. simpl in Hk.
  specialize (IH (s1, c1)). rewrite E2 in IH. specialize (IH Hk).
  unfold put_keys in *. simpl in IH, E. destruct op as [k' rend r'|k' v l|k']; simpl in *; simplify_eq.
  - done.
  - destruct IH as [IH|IH]; [|right; by right].
    apply lookup_insert_is_Some in IH as [->|[_ ?]]; [right; by left|by left].
  - destruct (s !! k') eqn:Es; simplify_eq; [|done].
    destruct IH as [IH|IH]; [|by right]. apply lookup_delete_is_Some in IH. left. by apply IH.
Qed.

Lemma push_snap_keys st acc k :
  is_Some (current (push_snap st acc) !! k) -> is_Some (current st !! k) \/ is_Some (acc.1 !! k).
Proof. unfold push_snap, current. destruct acc.2; simpl; [by right|by left]. Qed.

Lemma Txn_keys st cmps succ tr st' k :
  Txn st cmps succ [] = Ok (tr, st') -> is_Some (current st' !! k) -> is_Some (current st !! k) \/ k ∈ put_keys succ.
Proof.
  intros HT Hk. unfold Txn in HT. apply outcome_bind_ok in HT as (?&_&HT).
  apply outcome_bind_ok in HT as (?&_&HT).
  destruct (applyOps _ _ _) as [acc rs] eqn:E. simplify_eq. apply push_snap_keys in Hk as [?|Hk]; [by left|].
  replace acc with ((applyOps st (current st, false) (if forallb (applyCompare (current st)) cmps then succ else [])).1)
    in Hk by by rewrite E.
  apply applyOps_keys in Hk as [?|Hk]; [by left|]. case_match; [by right|by apply not_elem_of_nil in Hk].
Qed.

Lemma Txn_known st cmps succ tr st' :
  known (current st) -> Txn st cmps succ [] = Ok (tr, st') -> Forall key_known (put_keys succ) -> known (current st').
Proof.
  intros Hs HT Hp k Hk. destruct (Txn_keys _ _ _ _ _ _ HT Hk) as [?|Hin]; [by apply Hs|].
  rewrite list.Forall_forall in Hp. by apply Hp.
Qed.

Lemma commits_known {V} (f : V -> stm V) v st v' tr st' :
  known (current st) -> writes_only key_known (f v) -> commits f v st v' tr st' -> known (current st').
Proof.
  intros Hs Hf (ws&rs&Ha&HT). eapply Txn_known; [done..|].
  pose proof (writes_only_atomic _ _ (current st) ∅ ∅ Hf (map_Forall_empty _)) as Hws. rewrite Ha in Hws. simpl in Hws.
  apply list.Forall_forall. intros k (op&Hop&Hk)%list_elem_of_omap.
  apply list_elem_of_fmap in Hop as ([k0 p]&->&Hin%elem_of_map_to_list). specialize (Hws k0 p Hin). simpl in *.
  destruct (sp_op p); simplify_eq/=; done.
Qed.

Lemma writes_known K v l : Forall key_known (put_keys [OpPut (key_str K) v l]).
Proof. constructor; [by eexists|constructor]. Qed.

Lemma Put_known st K v l st' : known (current st) -> Put st (key_str K) v l = Ok st' -> known (current st').
Proof.
  intros Hk HP. unfold Put in HP. apply outcome_bind_ok in HP as (?&_&HP). apply outcome_bind_ok in HP as (?&_&HP).
  simpl in HP. simplify_eq. intros k Hin. apply push_snap_keys in Hin as [?|Hin]; [by apply Hk|].
  simpl in Hin. apply lookup_insert_is_Some in Hin as [<-|[_ ?]]; [by eexists|by apply Hk].
Qed.

Lemma Delete_known st key st' : known (current st) -> Delete st key = Ok st' -> known (current st').
Proof.
  intros Hk HP. unfold Delete in HP. apply outcome_bind_ok in HP as (?&_&HP). simpl in HP.
  destruct (current st !! key); simplify_eq;
    intros k0 Hin; [|by apply Hk]. apply push_snap_keys in Hin as [?|Hin]; apply Hk; [done|].
  simpl in Hin. by apply lookup_delete_is_Some in Hin as [_ ?].
Qed.

Lemma Revoke_known st l : known (current st) -> known (current (Revoke st l)).
Proof.
  intros Hk k. unfold Revoke. case_match; [|apply Hk].
  change (current {| st_snaps := st_snaps ?a; st_leases := _ |}) with (current a).
  intros [?|[kv Hf]]%push_snap_keys; [by apply Hk|]. apply map_lookup_filter_Some in Hf as [? _]. by apply Hk.
Qed.

Lemma store_step_known {dc} st st' : commit_step dc st st' -> known (current st) -> known (current st').
Proof.
  intros Hs Hk. destruct Hs as [rt ec lid ch v v' tr _ Hc|ec lid ch msg v v' tr _ Hc|rt ec lid msg v v' tr _ _ Hc
    |rt ec lid ch m v v' tr Hc|rt ec m v v' tr Hc|ec msg v v' tr Hc|ec login pass v v' tr Hc
    |ec lid ch nick msg v v' tr Hc|ec lid ch msg v v' tr Hc|ec target msg v v' tr Hc|ec ch msg v v' tr Hc
    |rt lid cr tr HT|ch l kv tr _ _ _ HT|l _ _ ->|l ->|login ov HP|login HP|nick text tr HT|ch text tr HT].
  - eapply commits_known; [exact Hk|apply Join_known|exact Hc].
  - eapply commits_known; [exact Hk|apply Part_known|exact Hc].
  - eapply commits_known; [exact Hk|apply Quit_known|exact Hc].
  - eapply commits_known; [exact Hk|apply chanMode_known|exact Hc].
  - eapply commits_known; [exact Hk|apply userMode_known|exact Hc].
  - eapply commits_known; [exact Hk|apply Away_known|exact Hc].
  - eapply commits_known; [exact Hk|apply Oper_known|exact Hc].
  - eapply commits_known; [exact Hk|apply kick_known|exact Hc].
  - eapply commits_known; [exact Hk|apply Topic_known|exact Hc].
  - eapply commits_known; [exact Hk|apply privMsgUser_known|exact Hc].
  - eapply commits_known; [exact Hk|apply privMsgChan_known|exact Hc].
  - eapply Txn_known; [exact Hk|exact HT|].
    constructor; [by exists (KUserCtl (uv_Nick (register_value rt lid cr)))|]. by constructor; [exists (KUserMsg (uv_Nick (register_value rt lid cr)))|].
  - eapply Txn_known; [exact Hk|exact HT|constructor].
  - by apply Revoke_known.
  - done.
  - by eapply (Put_known st (KOperCtl login)).
  - by eapply Delete_known.
  - eapply Txn_known; [exact Hk|exact HT|apply (writes_known (KUserMsg nick))].
  - eapply Txn_known; [exact Hk|exact HT|apply (writes_known (KChanMsg ch))].
Qed.

(** A reachable store has keys of the network only. *)
Lemma reachable_known {dc} st : reaches dc st -> known (current st).
Proof.
  intros Hr. pattern st. revert st Hr. apply rtc_ind_r.
  - intros k [kv Hk]. unfold current, new_store in Hk. simpl in Hk. by rewrite lookup_empty in Hk.
  - intros st st' _ Hs. by eapply store_step_known.
Qed.

End stores.

(** ** What a query for a prefix returns *)

Section listing.
Context {I A : Type} (kf : I -> string).

Definition by_key (x y : I * A) : Prop := String.le (kf x.1) (kf y.1).

#[export] Instance by_key_dec : RelDecision by_key.
Proof. intros x y. unfold by_key. apply _. Defined.

#[export] Instance by_key_trans : Transitive by_key.
Proof. intros x y z. unfold by_key. apply transitivity. Qed.

#[export] Instance by_key_total : Total by_key.
Proof. intros x y. unfold by_key. apply (total String.le). Qed.

(** Entities in the order of their keys. *)
Definition listing (l : list (I * A)) : list A := snd <$> merge_sort by_key l.

Lemma listing_Permutation l : listing l ≡ₚ snd <$> l.
Proof. unfold listing. by rewrite merge_sort_Permutation. Qed.

Context `{Countable I} (m : gmap I A) (enc : A -> string) (q : string) (sel : I -> Prop) (s : snapshot).
Context `{!forall i, Decision (sel i)} `{!Inj (=) (=) kf}.
Context (Hval : forall i, kv_Value <$> s !! kf i = enc <$> m !! i).
Context (Hkey : forall k, is_Some (s !! k) -> HasPrefix k q = true -> exists i, k = kf i).
Context (Hsel : forall i, HasPrefix (kf i) q = true <-> sel i).

(** A key and its value, from either side. *)
Definition of_kv (p : string * KeyValue) : string * string := (p.1, kv_Value p.2).
Definition of_entity (p : I * A) : string * string := (kf p.1, enc p.2).

Lemma under_iff x :
  x ∈ of_kv <$> filter (fun p => in_range q (Some (GetPrefixRangeEnd q)) p.1 = true) (map_to_list s) <->
  x ∈ of_entity <$> filter (fun p => sel p.1) (map_to_list m).
Proof.
  rewrite !list_elem_of_fmap. setoid_rewrite list_elem_of_filter. split.
  - intros ([k kv]&->&Hr&Hk%elem_of_map_to_list). rewrite in_range_prefix in Hr. cbn [fst] in Hr.
    destruct (Hkey k ltac:(by eexists) Hr) as [i ->]. specialize (Hval i). rewrite Hk in Hval. simpl in Hval.
    destruct (m !! i) as [a|] eqn:Em; [|done]. exists (i, a). unfold of_kv, of_entity. simpl. injection Hval as ->.
    split_and!; [done|by apply Hsel|by apply elem_of_map_to_list].
  - intros ([i a]&->&Hi&Hm%elem_of_map_to_list). simpl in Hi. specialize (Hval i). rewrite Hm in Hval.
    destruct (s !! kf i) as [kv|] eqn:Ek; [|done]. injection Hval as Hv. exists (kf i, kv).
    unfold of_kv, of_entity. cbn [fst snd]. rewrite Hv, in_range_prefix.
    split_and!; [done|by apply Hsel|by apply elem_of_map_to_list].
Qed.

Lemma under_Permutation :
  of_kv <$> filter (fun p => in_range q (Some (GetPrefixRangeEnd q)) p.1 = true) (map_to_list s) ≡ₚ
  of_entity <$> filter (fun p => sel p.1) (map_to_list m).
Proof.
  apply NoDup_Permutation; [..|apply under_iff]; apply NoDup_fmap_2_strong;
    try (apply list.NoDup_filter, NoDup_map_to_list).
  - intros [k1 kv1] [k2 kv2] [_ H1%elem_of_map_to_list]%list_elem_of_filter [_ H2%elem_of_map_to_list]%list_elem_of_filter.
    unfold of_kv. simpl. intros [= <- _]. by simplify_eq.
  - intros [i1 a1] [i2 a2] [_ H1%elem_of_map_to_list]%list_elem_of_filter [_ H2%elem_of_map_to_list]%list_elem_of_filter.
    unfold of_entity. simpl. intros [= ->%(inj kf) _]. by simplify_eq.
Qed.

Definition by_fst (x y : string * string) : Prop := String.le x.1 y.1.

Lemma same_key x y :
  x ∈ of_kv <$> filter (fun p => in_range q (Some (GetPrefixRangeEnd q)) p.1 = true) (map_to_list s) ->
  y ∈ of_kv <$> filter (fun p => in_range q (Some (GetPrefixRangeEnd q)) p.1 = true) (map_to_list s) ->
  x.1 = y.1 -> x = y.
Proof.
  intros ([k1 kv1]&->&[_ H1%elem_of_map_to_list]%list_elem_of_filter)%list_elem_of_fmap
    ([k2 kv2]&->&[_ H2%elem_of_map_to_list]%list_elem_of_filter)%list_elem_of_fmap.
  unfold of_kv. simpl. intros ->. by simplify_eq.
Qed.

Lemma range_sorted :
  of_kv <$> merge_sort kv_le (filter (fun p => in_range q (Some (GetPrefixRangeEnd q)) p.1 = true) (map_to_list s)) =
  of_entity <$> merge_sort by_key (filter (fun p => sel p.1) (map_to_list m)).
Proof.
  apply (StronglySorted_unique_strong by_fst).
  - intros x y. rewrite (merge_sort_Permutation kv_le), (merge_sort_Permutation by_key).
    intros Hx Hy%under_iff Hxy Hyx. apply same_key; [done..|]. by apply (anti_symm String.le).
  - apply (StronglySorted_fmap of_kv kv_le); [done|]. apply (StronglySorted_merge_sort kv_le).
  - apply (StronglySorted_fmap of_entity by_key); [done|]. apply (StronglySorted_merge_sort by_key).
  - rewrite (merge_sort_Permutation kv_le), (merge_sort_Permutation by_key). apply under_Permutation.
Qed.

(** The values under a prefix are those of the entities, in the order of the keys. *)
Lemma range_listing :
  kv_Value <$> range_kvs s q (Some (GetPrefixRangeEnd q)) =
  enc <$> listing (filter (fun p => sel p.1) (map_to_list m)).
Proof.
  pose proof (f_equal (fmap snd) range_sorted) as E. unfold range_kvs, listing.
  rewrite <-!list_fmap_compose in *. exact E.
Qed.

(** With their keys. *)
Lemma range_listing_keys : (forall k kv, s !! k = Some kv -> kv_Key kv = k) ->
  (fun kv => (kv_Key kv, kv_Value kv)) <$> range_kvs s q (Some (GetPrefixRangeEnd q)) =
  of_entity <$> merge_sort by_key (filter (fun p => sel p.1) (map_to_list m)).
Proof.
  intros Hk. rewrite <-range_sorted. unfold range_kvs. rewrite <-list_fmap_compose. apply list_fmap_ext.
  intros i [k kv] Hin%list_elem_of_lookup_2. rewrite (merge_sort_Permutation kv_le), list_elem_of_filter, elem_of_map_to_list in Hin.
  unfold compose, of_kv. simpl. by rewrite (Hk k kv) by apply Hin.
Qed.

End listing.

Lemma traverse_values {A B} (f : KeyValue -> outcome B) (g : string -> outcome B) (h : A -> outcome B)
    (enc : A -> string) kvs l :
  (forall kv, f kv = g (kv_Value kv)) -> (forall a, g (enc a) = h a) ->
  kv_Value <$> kvs = enc <$> l -> traverse f kvs = traverse h l.
Proof.
  intros Hf Hg. revert l. induction kvs as [|kv kvs IH]; intros [|a l] E; try done.
  injection E as Ea El. cbn [traverse]. by rewrite Hf, Ea, Hg, (IH l El).
Qed.

(** ** The store is typed *)

Section typed.
Context {dc : discipline}.
Context `{Gob Message, Gob UserValue, Gob ChannelCtl, Gob ChannelNicks, Gob OperValue}.

(** What the pair of a key is, beside the other pairs; what is so only when clients
    own their sessions is marked. *)
Definition typed (s : snapshot) (k : Key) (kv : KeyValue) : Prop :=
  match k with
  | KUserCtl nick => exists uv, decodeUserValue (kv_Value kv) = Some uv /\ uv_Nick uv = nick /\
      if_owned dc (is_Some (s !! keyUserMsg nick) /\ kv_Lease kv = uv_Lease uv)
  | KUserMsg nick => (kv_Value kv = "" \/ is_Some (decodeMessage (kv_Value kv))) /\
      if_owned dc (exists u, s !! keyUserCtl nick = Some u /\ kv_Lease kv = kv_Lease u)
  | KChanCtl ch => kv_Lease kv = 0%Z /\ is_Some (s !! keyChanMsg ch) /\
      exists cc, decodeChannelCtl (kv_Value kv) = Some cc /\ cc_Name cc = ch
  | KChanMsg ch => kv_Lease kv = 0%Z /\ is_Some (decodeMessage (kv_Value kv))
  | KChanNicks ch l => kv_Lease kv = l /\ is_Some (s !! keyChanCtl ch) /\
      exists cns, decodeChannelNicks (kv_Value kv) = Some cns /\
        if_owned dc (forall nick, nick ∈ nicks cns -> exists u, s !! keyUserCtl nick = Some u /\ kv_Lease u = l)
  | KOperCtl _ => kv_Lease kv = 0%Z /\ is_Some (decodeOperValue (kv_Value kv))
  end.

Lemma rep_present st n k :
  represents dc (current st) n -> is_Some (net_at n k) -> is_Some (current st !! key_str k).
Proof. intros Hrep [p E]. pose proof (Hrep k) as Hk. rewrite E in Hk. inversion Hk; subst. by eexists. Qed.

Lemma net_typed st n k kv :
  represents dc (current st) n -> net_sound n -> if_owned dc (net_ok n) -> current st !! key_str k = Some kv ->
  typed (current st) k kv.
Proof.
  intros Hrep Hso Hok Hkv. pose proof (Hrep k) as Hk. rewrite Hkv in Hk.
  inversion Hk as [kv' vl (Hv&Hl&_) E Enet|]; subst. clear Hk.
  symmetry in Enet. destruct k as [nick|nick|ch|ch|ch l|login]; cbn [net_at] in Enet;
    apply fmap_Some in Enet as (x&Ex&->); cbn [typed fst snd] in *; rewrite Hv.
  - exists x. rewrite decodeUserValue_encode. split_and!; [done|by apply (so_nick _ Hso)|].
    revert Hok Hl Hrep. destruct dc; simpl; [|done]. intros Hok Hl Hrep.
    destruct (proj1 (ok_userMsg _ Hok nick)) as [m Hm]; [by eexists|].
    pose proof (Hrep (KUserMsg nick)) as Hk. cbn [key_str net_at] in Hk. rewrite Hm in Hk.
    inversion Hk; subst. by split.
  - split; [destruct x as [m|]; [right; rewrite decodeMessage_encode; by eexists|by left]|].
    revert Hok Hl Hrep. destruct dc; simpl; [|done]. intros Hok Hl Hrep.
    destruct (proj2 (ok_userMsg _ Hok nick)) as [uv Huv]; [by eexists|].
    pose proof (Hrep (KUserCtl nick)) as Hk. cbn [key_str net_at] in Hk. rewrite Huv in Hk.
    inversion Hk as [u ? (_&Hz&_) Eu|]; subst. exists u. rewrite Huv in Hl. simpl in *. split; [done|congruence].
  - simpl in Hl. split; [done|]. split.
    + destruct (so_chanMsg _ Hso ch) as [m Hm]; [by eexists|].
      apply (rep_present st n (KChanMsg ch)); [done|]. cbn [net_at]. rewrite Hm. by eexists.
    + exists x. rewrite decodeChannelCtl_encode. split; [done|by apply (so_name _ Hso)].
  - simpl in Hl. rewrite decodeMessage_encode. split; [done|by eexists].
  - simpl in Hl. split; [done|]. split.
    + destruct (so_chan _ Hso ch l) as [cc Hcc]; [by eexists|].
      apply (rep_present st n (KChanCtl ch)); [done|]. cbn [net_at]. rewrite Hcc. by eexists.
    + eexists. rewrite decodeChannelNicks_encode. split; [done|].
      revert Hok Hl Hrep. destruct dc; simpl; [|done]. intros Hok Hl Hrep nick Hin.
      destruct (ok_listed _ Hok nick ch l) as (uv&Huv&Hlease).
      { unfold member_nicks, members. rewrite Ex. exact Hin. }
      pose proof (Hrep (KUserCtl nick)) as Hk. cbn [key_str net_at] in Hk. rewrite Huv in Hk.
      inversion Hk as [u ? (_&Hz&_) Eu|]; subst. exists u. simpl in *. split; [done|congruence].
  - simpl in Hl. rewrite decodeOperValue_encode. split; [done|by eexists].
Qed.

(** C23: the store is typed.  Every pair of a store that commits of the system can
    reach, whatever sessions clients act under ([Free]), has one of the six kinds of
    keys and the value of its kind, which decodes: a user's value names its nick;
    channels are there with their messages; a list of members belongs to a channel
    and is kept by the session in its key; channels, their messages and the operators
    have no lease.  When clients join, leave and quit under the session that
    registered their user ([Owned]), a user is kept by the session its value names, his
    message box lives and dies with him, and a list names only users of its session. *)
Theorem store_typed st k kv :
  reaches dc st -> current st !! k = Some kv ->
  kv_Key kv = k /\ exists key, k = key_str key /\ typed (current st) key kv.
Proof.
  intros Hr Hk. destruct (reaches_net st Hr) as [Hw (n&Hrep&Hso&Hok&_)]. split.
  - by destruct (current_kv st k kv Hw Hk) as (rev&_&_&?&_).
  - destruct (reachable_known st Hr k) as [key ->]; [by eexists|]. exists key. split; [done|]. by eapply net_typed.
Qed.

End typed.

Import Demo.

Lemma store_typed_witness : exists kv, current store4 !! keyUserCtl "bob" = Some kv /\
  kv_Key kv = keyUserCtl "bob" /\
  (exists key, keyUserCtl "bob" = key_str key /\ typed (dc := Owned) (current store4) key kv) /\
  (exists key, keyUserCtl "bob" = key_str key /\ typed (dc := Free) (current store4) key kv).
Proof.
  assert (bool_decide (is_Some (current store4 !! keyUserCtl "bob")) = true) as Hb by (vm_compute; reflexivity).
  apply bool_decide_eq_true in Hb as [kv Hkv]. exists kv. split; [exact Hkv|].
  destruct (store_typed (dc := Owned) store4 (keyUserCtl "bob") kv reachable4 Hkv) as [Ek Ho].
  destruct (store_typed (dc := Free) store4 (keyUserCtl "bob") kv (reachable_free _ reachable4) Hkv) as [_ Hf].
  split; [exact Ek|]. split; [exact Ho|exact Hf].
Defined.
