(* ===== verification/Query.v ===== *)
(** * Queries nobody disturbs

    NAMES, WHO, WHOIS and LIST read the store and change nothing.  The answer of
    each is a function of the network; when the other users of etcd are quiet, a
    query says its answer and nothing else. *)

From S2P Require Import Prelude GoLib Mode Msg User Channel Key Etcd Stm Net Client Rep Refine Server Ctl System Demo Guarantees Linear Quiet Stored.

(** ** What the network shows *)

(** Whether a query for the members of [ch] returns those of [ch']. *)
Definition subchannel (ch ch' : string) : bool := bool_decide (ch' = ch) || HasPrefix ch' (ch +:+ "/").

Lemma subchannel_spec ch ch' : subchannel ch ch' = true <-> ch' = ch \/ exists r, ch' = ch +:+ "/" +:+ r.
Proof.
  unfold subchannel. rewrite orb_true_iff, bool_decide_eq_true, HasPrefix_spec.
  by setoid_rewrite str_app_assoc.
Qed.

Definition net_userlist (n : Net) : list UserValue := listing keyUserCtl (map_to_list (n_users n)).
Definition net_chanlist (n : Net) : list ChannelCtl := listing keyChanCtl (map_to_list (n_chans n)).

Definition list_key (p : string * Z) : string := keyChanNicks p.1 p.2.

Global Instance list_key_inj : Inj (=) (=) list_key.
Proof. intros [ch l] [ch' l'] E. unfold list_key in E. simpl in E. by apply (inj2 keyChanNicks) in E as [-> ->]. Qed.

Definition net_memberlists (n : Net) (ch : string) : list (list ChannelNick) :=
  listing list_key (filter (fun p => subchannel ch p.1.1 = true) (map_to_list (n_members n))).

Definition net_membernicks (n : Net) (ch : string) : list string := cn_Nick <$> concat (net_memberlists n ch).

(** The sign before a nick: the last mention of it counts. *)
Definition net_signs (n : Net) (ch : string) : gmap string string :=
  foldl (fun mm cn => <[cn_Nick cn := nameMode (cn_Mode cn)]> mm) ∅ (concat (net_memberlists n ch)).

(** What a query says, and how it ends. *)
Definition answer : Type := list Message * outcome unit.

Definition after {A} (o : outcome A) (k : A -> answer) : answer :=
  match o with
  | Ok a => k a
  | Err e => ([], Err e)
  | Panic => ([], Panic)
  | Exit => ([], Exit)
  | Diverge => ([], Diverge)
  end.

Definition say (ms : list Message) (a : answer) : answer := (ms ++ a.1, a.2).

Section answers.
Context (rt : Runtime) (ec : etcdClient) (n : Net).

Notation me := (ec_nick ec).
Notation reply := (reply rt ec).

(** Users by nick: a transaction has room for 127 of them and the asker. *)
Definition net_from_nicks (nicks : list string) : outcome (list UserValue) :=
  if bool_decide (MaxOpsPerTxn < S (length nicks)) then Err ErrTooManyOps else
  us ← traverse (fun nick => or_panic (n_users n !! nick)) nicks;
  self ← or_panic (n_users n !! me);
  Ok (pruneInvisible us self).

Definition net_mask (mask : string) : outcome (list UserValue) :=
  if isChan mask then net_from_nicks (net_membernicks n mask)
  else if bool_decide (mask = "*")
  then self ← or_panic (n_users n !! me); Ok (pruneInvisible (net_userlist n) self)
  else net_from_nicks [mask].

Definition names_answer (ch : string) : answer :=
  after (net_mask ch) (fun us =>
    ([reply irc.RPL_NAMREPLY
        ["="; ch; Join " " ((fun u => default "" (net_signs n ch !! uv_Nick u) +:+ uv_Nick u) <$> us)];
      reply irc.RPL_ENDOFNAMES [ch; "End of NAMES list"]], Ok ())).

Definition who_mask (args : list string) : string :=
  match args with [] => "*" | a :: _ => if bool_decide (a = "0") then "*" else a end.

(** A user whose USER had no second parameter panics the daemon. *)
Fixpoint who_lines (mask : string) (signs : gmap string string) (us : list UserValue) (rest : answer) : answer :=
  match us with
  | [] => rest
  | u :: us' =>
    match uv_User u !! 1 with
    | None => ([], Panic)
    | Some user1 =>
      say [reply irc.RPL_WHOREPLY
        [mask +:+ " " +:+ user1 +:+ " " +:+ uv_Host u +:+ " " +:+ uv_ServerName u +:+ " " +:+ uv_Nick u +:+ " H"
           +:+ default "" (signs !! uv_Nick u); "0 " +:+ uv_RealName u]]
        (who_lines mask signs us' rest)
    end
  end.

Definition who_answer (args : list string) : answer :=
  let mask := who_mask args in
  after (net_mask mask) (fun us =>
    who_lines mask (if isChan mask then net_signs n mask else ∅) us
      ([reply irc.RPL_ENDOFWHO [mask; "End of WHO list"]], Ok ())).

Definition whois_answer (nick : string) : answer :=
  let nick := if bool_decide (nick = "") then me else nick in
  match n_users n !! nick with
  | None => ([reply irc.ERR_NOSUCHNICK [nick; "No such nick/channel"]], Ok ())
  | Some uv =>
    match uv_User uv !! 1 with
    | None => ([], Panic)
    | Some user1 =>
      (reply irc.RPL_WHOISUSER [nick; user1; "servername"; "*"; " norton"] ::
       (if bool_decide (uv_Channels uv = []) then []
        else [reply irc.RPL_WHOISCHANNELS [nick; Join " " (uv_Channels uv)]]) ++
       [reply irc.RPL_ENDOFWHOIS [nick]], Ok ())
    end
  end.

(** Whether LIST shows a channel. *)
Definition listed (uv : UserValue) (cc : ChannelCtl) : bool := negb (has (cc_Mode cc) "s" && negb (inChan uv (cc_Name cc))).

Definition list_answer (chs : list string) : answer :=
  if bool_decide (MaxOpsPerTxn < S (length chs)) then ([], Err ErrTooManyOps) else
  match n_users n !! me with
  | None => ([], Ok ())
  | Some uv =>
    let chans := match chs with [] => net_chanlist n | _ => omap (fun ch => n_chans n !! ch) chs end in
    (((fun cc => reply irc.RPL_LIST [cc_Name cc; "100"; " " +:+ cc_Topic cc]) <$> filter (fun cc => listed uv cc = true) chans) ++
     [reply irc.RPL_LISTEND ["End of LIST"]], Ok ())
  end.

End answers.

(** ** Computations that read and say

    [C] is what holds of the world before and after. *)

Section speech.
Context {C : World -> Prop}.

(** [m] has the result [o] and only reads. *)
Definition gives_in {A} (m : M A) (o : outcome A) : Prop :=
  forall w, C w -> exists w', m w = (o, w') /\ C w' /\ w_out w' = w_out w.

(** [m] says [a]. *)
Definition says_in (m : M unit) (a : answer) : Prop :=
  forall w, C w -> exists w', m w = (a.2, w') /\ C w' /\ w_out w' = w_out w ++ a.1.

Lemma gives_lift {A} (o : outcome A) : gives_in (lift o) o.
Proof. intros w Hw. by exists w. Qed.

Lemma gives_mret {A} (a : A) : gives_in (mret a) (Ok a).
Proof. intros w Hw. by exists w. Qed.

Lemma gives_bind {A B} (m : M A) (k : A -> M B) o (f : A -> outcome B) :
  gives_in m o -> (forall a, o = Ok a -> gives_in (k a) (f a)) -> gives_in (m ≫= k) (o ≫= f).
Proof.
  intros Hm Hk w Hw. destruct (Hm w Hw) as (w1&E&Hw1&Ho1). unfold mbind, ST_mbind, ST_bind. rewrite E.
  destruct o as [a|e| | |]; try (by exists w1). destruct (Hk a eq_refl w1 Hw1) as (w2&E2&Hw2&Ho2).
  exists w2. split_and!; [done..|]. by rewrite Ho2.
Qed.

Lemma gives_bind_ok {A B} (m : M A) (k : A -> M B) a o : gives_in m (Ok a) -> gives_in (k a) o -> gives_in (m ≫= k) o.
Proof.
  intros Hm Hk. apply (gives_bind m k (Ok a) (fun _ => o)); [done|]. by intros a' [= <-].
Qed.

Lemma gives_map {A B} (m : M A) (f : A -> B) o :
  gives_in m o -> gives_in (a ← m; mret (f a)) (a ← o; Ok (f a)).
Proof. intros Hm. apply gives_bind; [done|]. intros a _. apply gives_mret. Qed.

Lemma gives_says {A} (m : M A) (k : A -> M unit) o (f : A -> answer) :
  gives_in m o -> (forall a, o = Ok a -> says_in (k a) (f a)) -> says_in (m ≫= k) (after o f).
Proof.
  intros Hm Hk w Hw. destruct (Hm w Hw) as (w1&E&Hw1&Ho1). unfold mbind, ST_mbind, ST_bind. rewrite E.
  destruct o as [a|e| | |]; try (exists w1; split_and!; [done..|]; by rewrite app_nil_r).
  destruct (Hk a eq_refl w1 Hw1) as (w2&E2&Hw2&Ho2).
  exists w2. split_and!; [done..|]. by rewrite Ho2, Ho1.
Qed.

Lemma says_bind_ok {A} (m : M A) (k : A -> M unit) a r : gives_in m (Ok a) -> says_in (k a) r -> says_in (m ≫= k) r.
Proof.
  intros Hm Hk. apply (gives_says m k (Ok a) (fun _ => r)); [done|]. by intros a' [= <-].
Qed.

Lemma says_eq (m m' : M unit) a : (forall w, m w = m' w) -> says_in m' a -> says_in m a.
Proof. intros E Hm w Hw. rewrite E. by apply Hm. Qed.

Lemma says_fail (m : M unit) (o : outcome unit) : gives_in m o -> says_in m ([], o).
Proof. intros Hm w Hw. destruct (Hm w Hw) as (w1&E&?&Ho). exists w1. split_and!; [done..|]. by rewrite app_nil_r. Qed.

Lemma says_bind (m : M unit) (k : unit -> M unit) ms a :
  says_in m (ms, Ok ()) -> says_in (k ()) a -> says_in (m ≫= k) (say ms a).
Proof.
  intros Hm Hk w Hw. destruct (Hm w Hw) as (w1&E&Hw1&Ho1). unfold mbind, ST_mbind, ST_bind. rewrite E. simpl.
  destruct (Hk w1 Hw1) as (w2&E2&Hw2&Ho2). exists w2. split_and!; [done..|].
  by rewrite Ho2, Ho1, <-app_assoc.
Qed.

Lemma says_ignore (m : M unit) ms : says_in m (ms, Ok ()) -> says_in (ignore_err m) (ms, Ok ()).
Proof. intros Hm w Hw. destruct (Hm w Hw) as (w1&E&?). exists w1. unfold ignore_err. by rewrite E. Qed.

Lemma says_nothing : says_in (mret ()) ([], Ok ()).
Proof. intros w Hw. exists w. split_and!; [done..|]. by rewrite app_nil_r. Qed.

Lemma says_then (m k : M unit) a :
  says_in m a -> (a.2 = Ok () -> says_in k ([], Ok ())) -> says_in (_ ← m; k) a.
Proof.
  intros Hm Hk w1 Hw1. destruct (Hm w1 Hw1) as (w2&E&Hw2&Ho). unfold mbind, ST_mbind, ST_bind. rewrite E.
  destruct a.2 as [[]|e| | |] eqn:Ea; try (by exists w2).
  destruct (Hk eq_refl w2 Hw2) as (w3&E3&Hw3&Ho3). exists w3. split_and!; [done..|]. by rewrite Ho3, app_nil_r.
Qed.

End speech.
Arguments gives_in C {A} m o.
Arguments says_in C m a : clear implicits.

(** ** Reading a quiet store *)

Section quiet.
Context `{Gob Message, Gob UserValue, Gob ChannelCtl, Gob ChannelNicks, Gob OperValue}.
Context (rt : Runtime) (ec : etcdClient) (st : Store).

(** The store is [st] and stays so. *)
Record calm (w : World) : Prop := {
  ca_quiet : quiet_from (rt_env rt) (cl_clock (w_cluster w));
  ca_store : store_of w = st;
}.

Notation gives := (gives_in calm).
Notation says := (says_in calm).

Context (Hctx : rt_ctx rt = None).

Lemma says_reply cmd ps : says (sendHostMsg rt ec cmd ps) ([reply rt ec cmd ps], Ok ()).
Proof. intros w [Hq Hs]. eexists. split; [unfold sendHostMsg, SendMsg, SendMsg_ctx, ctx_at; by rewrite Hctx|done]. Qed.

Context (Hwf : wf_store st).

(** Revision 0 is the current one. *)
Definition cur_rev (rev : Z) : Prop := rev = 0%Z \/ rev = st_rev st.

Lemma cur_snap rev : cur_rev rev -> (if (rev <=? 0)%Z then current st else at_rev st rev) = current st.
Proof.
  pose proof (wf_store_rev st Hwf). intros [->| ->]; [done|]. destruct (Z.leb_spec (st_rev st) 0); [lia|].
  apply at_rev_current.
Qed.

Lemma cur_le rev : cur_rev rev -> (st_rev st <? rev)%Z = false.
Proof. pose proof (wf_store_rev st Hwf). intros [->| ->]; lia. Qed.

Lemma gives_request {A} (f : Store -> outcome (A * Store)) o :
  (match f st with Ok (a, _) => Ok a | Err e => Err e | Panic => Panic | Exit => Exit | Diverge => Diverge end) = o ->
  (forall a st', f st = Ok (a, st') -> st' = st) -> gives (in_cluster (request (rt_env rt) f)) o.
Proof.
  intros <- Hst w [Hq Hs]. unfold in_cluster. rewrite (request_quiet _ _ Hq st) by done.
  eexists. split; [done|]. split; [|done]. split; simpl.
  - intros k Hk. apply Hq. lia.
  - unfold store_of. simpl. destruct (f st) as [[a st']|e| | |] eqn:E; try done. by eapply Hst.
Qed.

(** A request for a key or a prefix. *)
Lemma gives_cliGet key rend rev : key <> "" -> cur_rev rev ->
  gives (cliGet rt key rend rev) (Ok {| gr_Revision := st_rev st; gr_Kvs := range_kvs (current st) key rend |}).
Proof.
  intros Hk Hr. apply gives_request.
  - unfold Get. rewrite bool_decide_false, cur_le by done. simpl. by rewrite cur_snap.
  - intros a st' E. unfold Get in E. rewrite bool_decide_false, cur_le in E by done. simpl in E. by simplify_eq.
Qed.

(** A transaction of such requests: a key, the end of its range, a revision. *)
Definition get_op (g : string * option string * Z) : Op := OpGet g.1.1 g.1.2 g.2.
Definition get_response (g : string * option string * Z) : ResponseOp :=
  RespGet {| gr_Revision := st_rev st; gr_Kvs := range_kvs (current st) g.1.1 g.1.2 |}.

Definition all_cur (gs : list (string * option string * Z)) : Prop := Forall (fun g => g.1.1 <> "" /\ cur_rev g.2) gs.

Lemma checkOps_get gs : all_cur gs -> checkOps (get_op <$> gs) = Ok ().
Proof.
  intros Hg. unfold checkOps.
  assert (existsb (fun op => bool_decide (op_key op = "")) (get_op <$> gs) = false) as ->.
  { induction Hg as [|g gs [Hk _] _ IH]; [done|]. cbn -[bool_decide]. by rewrite bool_decide_false, IH. }
  assert (put_keys (get_op <$> gs) = [] /\ del_keys (get_op <$> gs) = []) as [E1 E2].
  { clear Hg. unfold put_keys, del_keys. induction gs as [|g gs [IH1 IH2]]; [done|]. by split. }
  unfold dup_keys. rewrite E1, E2. by rewrite bool_decide_true by constructor.
Qed.

Lemma checkAll_get gs : all_cur gs -> checkAll st (get_op <$> gs) = Ok ().
Proof.
  intros Hg. unfold checkAll.
  assert (checkEach (checkPut st) (get_op <$> gs) = Ok ()) as ->.
  { clear Hg. induction gs as [|g gs IH]; [done|]. cbn. apply IH. }
  cbn. induction Hg as [|g gs [_ Hr] _ IH]; [done|]. cbn. by rewrite cur_le.
Qed.

Lemma applyOps_get gs : all_cur gs ->
  applyOps st (current st, false) (get_op <$> gs) = ((current st, false), get_response <$> gs).
Proof.
  induction 1 as [|g gs [_ Hr] _ IH]; [done|]. rewrite !fmap_cons. unfold get_op at 1. cbn [applyOps applyOp].
  rewrite IH, cur_snap by done. unfold get_response at 2. by rewrite Z.add_0_r.
Qed.

Lemma gives_cliTxn gs : all_cur gs ->
  gives (cliTxn rt [] (get_op <$> gs))
    (if bool_decide (MaxOpsPerTxn < length gs) then Err ErrTooManyOps
     else Ok {| tr_Revision := st_rev st; tr_Succeeded := true; tr_Responses := get_response <$> gs |}).
Proof.
  intros Hg. unfold cliTxn.
  assert (Txn st [] (get_op <$> gs) [] =
    if bool_decide (MaxOpsPerTxn < length gs) then Err ErrTooManyOps
    else Ok ({| tr_Revision := st_rev st; tr_Succeeded := true; tr_Responses := get_response <$> gs |}, st)) as E.
  { unfold Txn, checkTxnRequest. rewrite length_fmap. rewrite !(bool_decide_false (MaxOpsPerTxn < length []))
      by (unfold MaxOpsPerTxn; simpl; lia).
    cbn [orb]. rewrite orb_false_r. destruct (bool_decide (MaxOpsPerTxn < length gs)); [done|]. cbn [existsb].
    rewrite checkOps_get by done. cbn -[checkAll applyOps]. rewrite checkAll_get by done. cbn -[applyOps].
    by rewrite applyOps_get. }
  apply gives_request; cbn beta; rewrite E.
  - by case_bool_decide.
  - intros a st'. case_bool_decide; [done|]. by intros [= _ <-].
Qed.

(** ** The network in a quiet store *)

Context (n : Net) (Hrep : rep (current st) n) (Hkn : known (current st)).

Lemma rep_stored {A} (k : Key) (enc : A -> string) (o : option A) :
  fst <$> net_at n k = enc <$> o -> kv_Value <$> current st !! key_str k = enc <$> o.
Proof. intros <-. destruct (Hrep k) as [kv [v l] (Hv&_&_)|]; simpl; [by rewrite Hv|done]. Qed.

Lemma stored_user_at nick : kv_Value <$> current st !! keyUserCtl nick = encodeUserValue <$> n_users n !! nick.
Proof. apply (rep_stored (KUserCtl nick)). simpl. by destruct (n_users n !! nick). Qed.

Lemma stored_chan_at ch : kv_Value <$> current st !! keyChanCtl ch = encodeChannelCtl <$> n_chans n !! ch.
Proof. apply (rep_stored (KChanCtl ch)). simpl. by destruct (n_chans n !! ch). Qed.

Definition encodeList (l : list ChannelNick) : string := encodeChannelNicks {| cns_Nicks := l |}.

Lemma stored_list_at (p : string * Z) :
  kv_Value <$> current st !! list_key p = encodeList <$> n_members n !! p.
Proof.
  destruct p as [ch l]. apply (rep_stored (KChanNicks ch l)). simpl. by destruct (n_members n !! (ch, l)).
Qed.

Lemma filter_all {A} (P : A -> Prop) `{!forall x, Decision (P x)} (l : list A) :
  (forall x, P x) -> filter P l = l.
Proof. intros HP. induction l as [|x l IH]; [done|]. by rewrite filter_cons_True, IH. Qed.

(** A query for the users, the channels, the lists of a channel. *)
Lemma range_users : kv_Value <$> range_kvs (current st) (keyUserCtl "") (Some (GetPrefixRangeEnd (keyUserCtl ""))) =
  encodeUserValue <$> net_userlist n.
Proof.
  rewrite (range_listing (H0 := fun _ => True_dec) keyUserCtl (n_users n) encodeUserValue _ (fun _ => True) (current st)).
  - unfold net_userlist. by rewrite filter_all.
  - apply stored_user_at.
  - intros k Hk Hp. destruct (Hkn k Hk) as [[i|i|i|i|i l|i] ->]; try done. by exists i.
  - intros i. rewrite HasPrefix_spec. split; [done|]. intros _. by exists i.
Qed.

Lemma range_chans : kv_Value <$> range_kvs (current st) (keyChanCtl "") (Some (GetPrefixRangeEnd (keyChanCtl ""))) =
  encodeChannelCtl <$> net_chanlist n.
Proof.
  rewrite (range_listing (H0 := fun _ => True_dec) keyChanCtl (n_chans n) encodeChannelCtl _ (fun _ => True) (current st)).
  - unfold net_chanlist. by rewrite filter_all.
  - apply stored_chan_at.
  - intros k Hk Hp. destruct (Hkn k Hk) as [[i|i|i|i|i l|i] ->]; try done. by exists i.
  - intros i. rewrite HasPrefix_spec. split; [done|]. intros _. by exists i.
Qed.

Lemma range_lists ch : kv_Value <$> range_kvs (current st) (keyChanNicksPfx ch) (Some (GetPrefixRangeEnd (keyChanNicksPfx ch))) =
  encodeList <$> net_memberlists n ch.
Proof.
  rewrite (range_listing list_key (n_members n) encodeList _ (fun p => subchannel ch p.1 = true)
    (current st)).
  - done.
  - apply stored_list_at.
  - intros k Hk Hp. destruct (Hkn k Hk) as [[i|i|i|i|i l|i] ->]; try done. by exists (i, l).
  - intros [ch' l]. unfold list_key. cbn [fst snd]. rewrite chan_nicks_under. unfold subchannel.
    rewrite orb_true_iff, bool_decide_eq_true, HasPrefix_spec. split; (intros [?|[r ->]]; [by left|right; exists r]).
    + by rewrite str_app_assoc.
    + by rewrite str_app_assoc.
Qed.

(** ** The queries *)

Lemma traverse_users kvs l : kv_Value <$> kvs = encodeUserValue <$> l ->
  traverse (fun kv => or_err ErrDecode (decodeUserValue (kv_Value kv))) kvs = Ok l.
Proof.
  intros E. rewrite (traverse_values _ (fun v => or_err ErrDecode (decodeUserValue v)) Ok encodeUserValue _ l);
    [|done|intros a; by rewrite decodeUserValue_encode|done].
  rewrite (traverse_fmap _ id) by done. by rewrite list_fmap_id.
Qed.

Definition nicksOf (l : list ChannelNick) : ChannelNicks := {| cns_Nicks := l |}.

Lemma traverse_lists kvs l : kv_Value <$> kvs = encodeList <$> l ->
  traverse (fun kv => or_err ErrDecode (decodeChannelNicks (kv_Value kv))) kvs = Ok (nicksOf <$> l).
Proof.
  intros E. rewrite (traverse_values _ (fun v => or_err ErrDecode (decodeChannelNicks v)) (fun a => Ok (nicksOf a)) encodeList _ l);
    [|done|intros a; unfold encodeList; by rewrite decodeChannelNicks_encode|done].
  by apply traverse_fmap.
Qed.

(** The response to the query for one user. *)
Lemma user_kv nick :
  userOfKv (head (kvs_of (get_response (keyUserCtl nick, None, 0%Z)))) = or_panic (n_users n !! nick).
Proof.
  simpl. pose proof (stored_user_at nick) as E. unfold range_kvs. destruct (current st !! keyUserCtl nick) as [kv|]; simpl in *.
  - destruct (n_users n !! nick) as [uv|]; [|done]. injection E as Ev. unfold userOfKv. simpl.
    by rewrite Ev, decodeUserValue_encode.
  - by destruct (n_users n !! nick).
Qed.

Lemma response_rev key rend rev : get_response (key, rend, rev) = get_response (key, rend, 0%Z).
Proof. done. Qed.

Lemma traverse_responses nicks rev :
  traverse userOfKv ((fun r => head (kvs_of r)) <$> (get_response <$> ((fun nick => (keyUserCtl nick, None, rev)) <$> nicks))) =
  traverse (fun nick => or_panic (n_users n !! nick)) nicks.
Proof.
  induction nicks as [|nick nicks IH]; [done|]. rewrite !fmap_cons. cbn [traverse].
  by rewrite response_rev, user_kv, IH.
Qed.

Lemma gives_usersFromNicks nicks rev : cur_rev rev ->
  gives (usersFromNicks rt ec nicks rev) (net_from_nicks ec n nicks).
Proof.
  intros Hr. unfold usersFromNicks, userKeysFromNicks.
  set (gs := (fun nick => (keyUserCtl nick, @None string, rev)) <$> (nicks ++ [ec_nick ec])).
  assert ((fun nick => OpGet (keyUserCtl nick) None rev) <$> (nicks ++ [ec_nick ec]) = get_op <$> gs) as ->
    by (unfold gs; by rewrite <-list_fmap_compose).
  assert (all_cur gs) as Hgs by (apply Forall_fmap, list.Forall_forall; by intros).
  assert (net_from_nicks ec n nicks =
    ((if bool_decide (MaxOpsPerTxn < length gs) then Err ErrTooManyOps
      else Ok {| tr_Revision := st_rev st; tr_Succeeded := true; tr_Responses := get_response <$> gs |})
      ≫= (fun r => Ok ((fun r => head (kvs_of r)) <$> tr_Responses r)))
     ≫= (fun kvs => us ← traverse userOfKv kvs; self ← or_panic (list.last us); Ok (pruneInvisible (removelast us) self))) as ->.
  { unfold net_from_nicks, gs. rewrite length_fmap, length_app. simpl. replace (length nicks + 1) with (S (length nicks)) by lia.
    destruct (bool_decide _); [done|]. cbn [mbind outcome_mbind outcome_bind tr_Responses].
    rewrite traverse_responses, traverse_app. cbn [traverse].
    destruct (traverse _ nicks) as [us|e| | |]; [|done..]. simpl. destruct (n_users n !! ec_nick ec) as [uv|]; [|done]. simpl.
    rewrite last_snoc. simpl. by rewrite removelast_last. }
  apply gives_bind; [by apply gives_map, gives_cliTxn|intros kvs _].
  apply gives_bind; [apply gives_lift|intros us _]. apply gives_bind; [apply gives_lift|intros self _; apply gives_mret].
Qed.

Lemma gives_users rev : cur_rev rev ->
  gives (users rt ec rev) (self ← or_panic (n_users n !! ec_nick ec); Ok (pruneInvisible (net_userlist n) self)).
Proof.
  intros Hr. unfold users, OpGetPrefix. rewrite bool_decide_false by done.
  set (gs := [(keyUserCtl "", Some (GetPrefixRangeEnd (keyUserCtl "")), rev); (keyUserCtl (ec_nick ec), None, rev)]).
  change [OpGet (keyUserCtl "") _ rev; OpGet (keyUserCtl (ec_nick ec)) None rev] with (get_op <$> gs).
  assert (all_cur gs) as Hgs by (unfold gs, all_cur; rewrite !list.Forall_cons; split_and!; try done; constructor).
  pose proof (gives_cliTxn gs Hgs) as HT. rewrite bool_decide_false in HT by (unfold MaxOpsPerTxn; simpl; lia).
  eapply gives_bind_ok; [exact HT|]. cbn [tr_Responses fmap list_fmap lookup list_lookup].
  intros w Hw. exists w. unfold mbind, ST_mbind, ST_bind, lift. cbn -[range_kvs].
  change (range_kvs (current st) (keyUserCtl (ec_nick ec)) None) with (option_list (current st !! keyUserCtl (ec_nick ec))).
  pose proof (stored_user_at (ec_nick ec)) as Eme.
  destruct (current st !! keyUserCtl (ec_nick ec)) as [kv|], (n_users n !! ec_nick ec) as [uv|]; try done.
  injection Eme as Ev. cbn -[range_kvs]. rewrite Ev, decodeUserValue_encode. cbn -[range_kvs]. by rewrite (traverse_users _ _ range_users).
Qed.

(** The lists of a channel. *)
Lemma gives_lists_bind {B} ch rev (k : Z -> list ChannelNicks -> M B) o : cur_rev rev ->
  gives (k (st_rev st) (nicksOf <$> net_memberlists n ch)) o ->
  gives (resp ← cliGetPrefix rt (keyChanNicksPfx ch) rev;
         cns ← lift (traverse (fun kv => or_err ErrDecode (decodeChannelNicks (kv_Value kv))) (gr_Kvs resp));
         k (gr_Revision resp) cns) o.
Proof.
  intros Hr Hk. eapply gives_bind_ok; [by apply gives_cliGet|]. cbn [gr_Kvs gr_Revision].
  rewrite (traverse_lists _ _ (range_lists ch)). eapply gives_bind_ok; [apply gives_lift|exact Hk].
Qed.

Lemma concat_nicks l : concat (nicks <$> (nicksOf <$> l)) = cn_Nick <$> concat l.
Proof. induction l as [|x l IH]; [done|]. rewrite !fmap_cons, concat_cons, IH. cbn [concat]. by rewrite fmap_app. Qed.

Lemma gives_usersFromMask mask rev : cur_rev rev ->
  gives (usersFromMask rt ec mask rev) (net_mask ec n mask).
Proof.
  intros Hr. unfold usersFromMask, net_mask. destruct (isChan mask); [|case_bool_decide].
  - unfold usersFromChannel. apply (gives_lists_bind mask rev (fun r cns => usersFromNicks rt ec (concat (nicks <$> cns)) r)); [done|].
    rewrite concat_nicks. apply gives_usersFromNicks. by right.
  - by apply gives_users.
  - by apply gives_usersFromNicks.
Qed.

Lemma gives_nameModes ch rev : gives (nameModes rt ch rev) (Ok (net_signs n ch)).
Proof.
  unfold nameModes. apply (gives_lists_bind ch 0 (fun _ cns => mret (nameModes_of cns))); [by left|].
  assert (nameModes_of (nicksOf <$> net_memberlists n ch) = net_signs n ch) as ->; [|apply gives_mret].
  unfold nameModes_of, net_signs. f_equal. rewrite <-list_fmap_compose. f_equal. apply list_fmap_id.
Qed.

Lemma says_names ch rev : cur_rev rev -> says (names rt ec ch rev) (names_answer rt ec n ch).
Proof.
  intros Hr. unfold names, names_answer. apply gives_says; [by apply gives_usersFromMask|]. intros us _.
  eapply says_bind_ok; [apply gives_nameModes|]. cbv zeta.
  eapply (says_bind _ _ [_] ([_], Ok ())); [apply says_ignore, says_reply|apply says_reply].
Qed.

Lemma says_who_lines mask signs us rest k :
  says k rest ->
  says (_ ← mapM_ (fun u =>
    user1 ← lift (or_panic (uv_User u !! 1));
    let v := mask +:+ " " +:+ user1 +:+ " " +:+ uv_Host u +:+ " " +:+ uv_ServerName u +:+ " "
             +:+ uv_Nick u +:+ " H" +:+ default "" (signs !! uv_Nick u) in
    sendHostMsg rt ec irc.RPL_WHOREPLY [v; "0 " +:+ uv_RealName u]) us; k)
    (who_lines rt ec mask signs us rest).
Proof.
  intros Hk. induction us as [|u us IH]; cbn [mapM_ who_lines].
  - eapply says_bind_ok; [apply gives_mret|done].
  - eapply says_eq; [apply ST_bind_assoc|]. destruct (uv_User u !! 1) as [user1|].
    + eapply says_bind; [|exact IH]. eapply says_bind_ok; [apply gives_lift|]. apply says_reply.
    + eapply says_fail. intros w Hw. by exists w.
Qed.

Lemma says_who args : says (Who rt ec args) (who_answer rt ec n args).
Proof.
  unfold Who, who_answer. cbv zeta. fold (who_mask args). apply gives_says; [apply gives_usersFromMask; by left|].
  intros us _. apply (says_bind_ok _ _ (if isChan (who_mask args) then net_signs n (who_mask args) else ∅)).
  - destruct (isChan _); [apply gives_nameModes|apply gives_mret].
  - apply says_who_lines, says_reply.
Qed.

Lemma says_whois nick : says (Whois rt ec nick) (whois_answer rt ec n nick).
Proof.
  unfold Whois, whois_answer. cbv zeta. set (nk := if bool_decide (nick = "") then _ else _).
  eapply says_bind_ok; [apply gives_cliGet; [done|by left]|]. cbn [gr_Kvs range_kvs].
  pose proof (stored_user_at nk) as E. destruct (current st !! keyUserCtl nk) as [kv|], (n_users n !! nk) as [uv|]; try done.
  2: apply says_reply.
  injection E as Ev. change (option_list (Some kv)) with [kv]. cbv iota beta. rewrite Ev, bool_decide_false by apply gob_encode_not_empty. rewrite decodeUserValue_encode.
  eapply says_bind_ok; [apply gives_lift|]. destruct (uv_User uv !! 1) as [user1|].
  - eapply says_bind_ok; [apply gives_lift|]. eapply (says_bind _ _ [_] (_, Ok ())); [apply says_ignore, says_reply|].
    eapply (says_bind _ _ _ ([_], Ok ())); [|apply says_reply].
    case_bool_decide; [apply says_nothing|apply says_ignore, says_reply].
  - eapply says_fail. intros w Hw. by exists w.
Qed.

Definition list_item (uv : UserValue) (cc : ChannelCtl) : option replyList :=
  if listed uv cc then Some {| rl_channel := cc_Name cc; rl_visible := 100; rl_topic := cc_Topic cc |} else None.

Lemma traverse_list_reply uv kvs l : kv_Value <$> kvs = encodeChannelCtl <$> l ->
  traverse (list_reply uv) kvs = Ok (list_item uv <$> l).
Proof.
  intros E. rewrite (traverse_values _ (fun v => chctl ← or_err ErrDecode (decodeChannelCtl v); Ok (list_item uv chctl))
    (fun a => Ok (list_item uv a)) encodeChannelCtl _ l); [by apply traverse_fmap| | |done].
  - intros kv. unfold list_reply, list_item, listed. destruct (decodeChannelCtl (kv_Value kv)) as [cc|]; [|done]. simpl.
    by destruct (has (cc_Mode cc) "s" && negb (inChan uv (cc_Name cc))).
  - intros a. by rewrite decodeChannelCtl_encode.
Qed.

(** The channels a LIST asks for. *)
Definition list_ops (chs : list string) : list (string * option string * Z) :=
  (keyUserCtl (ec_nick ec), None, 0%Z) ::
  match chs with
  | [] => [(keyChanCtl "", Some (GetPrefixRangeEnd (keyChanCtl "")), 0%Z)]
  | _ => (fun ch => (keyChanCtl ch, None, 0%Z)) <$> chs
  end.

Definition asked (chs : list string) : list ChannelCtl :=
  match chs with [] => net_chanlist n | _ => omap (fun ch => n_chans n !! ch) chs end.

Lemma asked_some chs : kv_Value <$> concat (kvs_of <$> (get_response <$> ((fun ch => (keyChanCtl ch, None, 0%Z)) <$> chs))) =
  encodeChannelCtl <$> omap (fun ch => n_chans n !! ch) chs.
Proof.
  induction chs as [|ch chs IH]; [done|]. rewrite !fmap_cons. cbn [concat]. rewrite fmap_app, IH.
  cbn [get_response kvs_of gr_Kvs range_kvs fst snd omap list_omap]. pose proof (stored_chan_at ch) as E.
  destruct (current st !! keyChanCtl ch) as [kv|], (n_chans n !! ch) as [cc|]; try done.
  injection E as Ev. rewrite fmap_cons, <-Ev. done.
Qed.

Lemma asked_values chs :
  kv_Value <$> concat (kvs_of <$> tail (get_response <$> list_ops chs)) = encodeChannelCtl <$> asked chs.
Proof.
  unfold list_ops, asked. rewrite fmap_cons. cbn [tail]. destruct chs as [|ch chs]; [|apply (asked_some (ch :: chs))].
  cbn -[range_kvs]. rewrite app_nil_r. apply range_chans.
Qed.

Lemma says_list_lines uv l rest k : says k rest ->
  says (_ ← mapM_ (fun repl => ignore_err (sendHostMsg rt ec irc.RPL_LIST
           [rl_channel repl; fmt_d (rl_visible repl); " " +:+ rl_topic repl])) (omap id (list_item uv <$> l)); k)
    (say ((fun cc => reply rt ec irc.RPL_LIST [cc_Name cc; "100"; " " +:+ cc_Topic cc]) <$> filter (fun cc => listed uv cc = true) l) rest).
Proof.
  intros Hk. induction l as [|cc l IH]; cbn [fmap list_fmap omap list_omap].
  - eapply says_bind; [apply says_nothing|done].
  - rewrite filter_cons. unfold list_item at 1. destruct (listed uv cc); simpl; [|exact IH].
    eapply says_eq; [apply ST_bind_assoc|]. apply (says_bind _ _ [_] (say _ rest)); [apply says_ignore, says_reply|exact IH].
Qed.

Lemma says_list chs : says (List rt ec chs) (list_answer rt ec n chs).
Proof.
  unfold List, list_answer. cbv zeta.
  assert ((OpGet (keyUserCtl (ec_nick ec)) None 0 ::
    match chs with [] => [OpGetPrefix (keyChanCtl "") 0] | _ => (fun ch => OpGet (keyChanCtl ch) None 0) <$> chs end) =
    get_op <$> list_ops chs) as ->.
  { unfold list_ops. rewrite fmap_cons. f_equal. destruct chs; [done|]. by rewrite <-list_fmap_compose. }
  assert (all_cur (list_ops chs)) as Hg.
  { constructor; [by split; [|left]|]. destruct chs; [constructor; [by split; [|left]|constructor]|].
    apply Forall_fmap, list.Forall_forall. intros ch _. split; [done|by left]. }
  assert ((MaxOpsPerTxn < length (list_ops chs)) <-> (MaxOpsPerTxn < S (length chs))) as Hlen.
  { unfold list_ops, MaxOpsPerTxn. destruct chs; simpl; [lia|]. rewrite length_fmap. lia. }
  pose proof (gives_cliTxn (list_ops chs) Hg) as HT. rewrite (bool_decide_ext _ _ Hlen) in HT.
  destruct (bool_decide (MaxOpsPerTxn < S (length chs))).
  { apply says_fail. eapply (gives_bind _ _ _ (fun _ => Err ErrTooManyOps) HT). done. }
  eapply says_bind_ok; [exact HT|]. cbn [tr_Responses]. 
  assert (head (get_response <$> list_ops chs) = Some (get_response (keyUserCtl (ec_nick ec), None, 0%Z))) as -> by done.
  eapply says_bind_ok; [apply gives_lift|]. cbn [kvs_of get_response gr_Kvs range_kvs fst snd].
  pose proof (stored_user_at (ec_nick ec)) as E.
  destruct (current st !! keyUserCtl (ec_nick ec)) as [kv|], (n_users n !! ec_nick ec) as [uv|]; try done;
    [|apply says_nothing].
  injection E as Ev. change (option_list (Some kv)) with [kv]. cbv iota beta. rewrite Ev, decodeUserValue_encode.
  eapply says_bind_ok; [apply gives_lift|]. rewrite (traverse_list_reply uv _ _ (asked_values chs)).
  eapply says_bind_ok; [apply gives_lift|]. fold (asked chs). apply (says_list_lines uv (asked chs) ([_], Ok ())), says_reply.
Qed.

End quiet.

(** ** Who is shown *)

Lemma elem_of_listing {I A} (kf : I -> string) (l : list (I * A)) a : a ∈ listing kf l <-> exists i, (i, a) ∈ l.
Proof.
  rewrite listing_Permutation, list_elem_of_fmap. split.
  - intros ([i a']&->&Hin). by exists i.
  - intros [i Hin]. by exists (i, a).
Qed.

Section shown.
Context (n : Net) (ch : string).

Lemma elem_of_members cn : cn ∈ concat (net_memberlists n ch) <->
  exists ch' l, subchannel ch ch' = true /\ cn ∈ members n ch' l.
Proof.
  rewrite elem_of_concat. unfold net_memberlists. setoid_rewrite elem_of_listing.
  setoid_rewrite list_elem_of_filter. setoid_rewrite elem_of_map_to_list. split.
  - intros (cns&Hcn&[ch' l]&Hs&Hm). exists ch', l. split; [done|]. unfold members. by rewrite Hm.
  - intros (ch'&l&Hs&Hcn). unfold members in Hcn. destruct (n_members n !! (ch', l)) as [cns|] eqn:E;
      [|by apply not_elem_of_nil in Hcn]. exists cns. split; [done|]. by exists (ch', l).
Qed.

Lemma elem_of_membernicks nick : nick ∈ net_membernicks n ch <->
  exists ch' l, subchannel ch ch' = true /\ nick ∈ member_nicks n ch' l.
Proof.
  unfold net_membernicks, member_nicks. setoid_rewrite list_elem_of_fmap. setoid_rewrite elem_of_members. naive_solver.
Qed.

(** On a consistent network they are the users who list such a channel. *)
Lemma membernick_user nick : net_ok n -> nick ∈ net_membernicks n ch <->
  exists uv ch', n_users n !! nick = Some uv /\ ch' ∈ uv_Channels uv /\ subchannel ch ch' = true.
Proof.
  intros Hn. rewrite elem_of_membernicks. split.
  - intros (ch'&l&Hs&Hin). destruct (ok_listed n Hn _ _ _ Hin) as (uv&Hu&<-). exists uv, ch'.
    split_and!; [done| |done]. apply occurs_elem_of. rewrite (ok_channels n Hn nick uv ch' Hu). by apply occurs_elem_of.
  - intros (uv&ch'&Hu&Hin&Hs). exists ch', (uv_Lease uv). split; [done|].
    apply occurs_elem_of. rewrite <-(ok_channels n Hn nick uv ch' Hu). by apply occurs_elem_of.
Qed.

Lemma signs_fold (l : list ChannelNick) (m : gmap string string) nick v :
  foldl (fun mm cn => <[cn_Nick cn := nameMode (cn_Mode cn)]> mm) m l !! nick = Some v ->
  m !! nick = Some v \/ exists cn, cn ∈ l /\ cn_Nick cn = nick /\ v = nameMode (cn_Mode cn).
Proof.
  revert m. induction l as [|cn l IH]; intros m Hv; simpl in *; [by left|].
  destruct (IH _ Hv) as [Hm|(cn'&?&?&?)]; [|right; exists cn'; split; [by right|done]].
  apply lookup_insert_Some in Hm as [[<- <-]|[_ ?]]; [right; exists cn; split; [by left|done]|by left].
Qed.

Lemma signs_total (l : list ChannelNick) (m : gmap string string) nick :
  nick ∈ cn_Nick <$> l \/ is_Some (m !! nick) ->
  is_Some (foldl (fun mm cn => <[cn_Nick cn := nameMode (cn_Mode cn)]> mm) m l !! nick).
Proof.
  revert m. induction l as [|cn l IH]; intros m Hv; simpl in *.
  - destruct Hv as [Hv|?]; [by apply not_elem_of_nil in Hv|done].
  - apply IH. rewrite lookup_insert_is_Some'. rewrite elem_of_cons in Hv. naive_solver.
Qed.

Lemma sign_of_member nick : nick ∈ net_membernicks n ch ->
  exists cn, cn ∈ concat (net_memberlists n ch) /\ cn_Nick cn = nick /\ net_signs n ch !! nick = Some (nameMode (cn_Mode cn)).
Proof.
  intros Hin. destruct (signs_total (concat (net_memberlists n ch)) ∅ nick ltac:(by left)) as [v Hv].
  fold (net_signs n ch) in Hv. destruct (signs_fold _ _ _ _ Hv) as [Hm|(cn&?&?&->)]; [by rewrite lookup_empty in Hm|].
  by exists cn.
Qed.

(** The users of the nicks. *)
Lemma traverse_lookup nicks : (forall nick, nick ∈ nicks -> is_Some (n_users n !! nick)) ->
  exists us, traverse (fun nick => or_panic (n_users n !! nick)) nicks = Ok us /\
    forall uv, uv ∈ us <-> exists nick, nick ∈ nicks /\ n_users n !! nick = Some uv.
Proof.
  induction nicks as [|nick nicks IH]; intros Hall.
  - exists []. split; [done|]. intros uv. split; [by intros ?%not_elem_of_nil|by intros (?&?%not_elem_of_nil&_)].
  - destruct (Hall nick ltac:(by left)) as [uv0 Hu]. destruct IH as (us&E&Hus); [intros ? ?; apply Hall; by right|].
    exists (uv0 :: us). cbn [traverse]. rewrite Hu, E. split; [done|]. intros uv. rewrite elem_of_cons, Hus.
    setoid_rewrite elem_of_cons. naive_solver.
Qed.

End shown.

(** ** Theorems *)

Section theorems.
Context `{Gob Message, Gob UserValue, Gob ChannelCtl, Gob ChannelNicks, Gob OperValue}.
Context (rt : Runtime) (ec : etcdClient) (lid : Z) (w : World) (n : Net).
Context (Hun : undisturbed rt ec lid w n).

Notation me := (ec_nick ec).
Notation pfx := (ec_prefix ec).

(** A query says [a] and leaves the store as it is. *)
Definition answers (a : answer) (ow : outcome unit * World) : Prop :=
  ow.1 = a.2 /\ w_out ow.2 = w_out w ++ a.1 /\ store_of ow.2 = store_of w.

Lemma says_answers (m : M unit) a : says_in (calm rt (store_of w)) m a -> answers a (m w).
Proof.
  intros Hm. destruct (Hm w) as (w'&E&[_ Hs]&Ho); [split; [apply Hun|done]|].
  unfold answers. by rewrite E.
Qed.

(** What follows the transaction of a JOIN. *)
Lemma join_says st n' ch topic :
  wf_store st -> rep (current st) n' -> known (current st) ->
  says_in (calm rt st)
    (_ ← ignore_err (SendMsg rt (userMsg ec irc.JOIN [ch]));
     _ ← ignore_err (if bool_decide (topic = "") then sendHostMsg rt ec irc.RPL_NOTOPIC [ch; "No topic is set"]
                     else sendHostMsg rt ec irc.RPL_TOPIC [ch; topic]);
     _ ← names rt ec ch (st_rev st);
     _ ← monitorChannel ch (st_rev st + 1);
     ctxErr rt)
    (say [userMsg ec irc.JOIN [ch]; topic_reply rt ec ch topic] (names_answer rt ec n' ch)).
Proof.
  intros Hw Hr Hk. pose proof (un_ctx _ _ _ _ _ Hun) as Hctx.
  apply (says_bind _ _ [_] (say [_] _)).
  { apply says_ignore. intros w1 [Hq Hs]. eexists. split; [unfold SendMsg, SendMsg_ctx, ctx_at; by rewrite Hctx|done]. }
  apply (says_bind _ _ [_] _).
  { unfold topic_reply. case_bool_decide; by apply says_ignore, says_reply. }
  apply says_then; [apply says_names; try done; by right|]. intros _.
  eapply (says_bind _ _ [] ([], Ok ())).
  - intros w1 [Hq Hs]. eexists. split; [reflexivity|]. split; [done|]. simpl. by rewrite app_nil_r.
  - unfold ctxErr, ctx_at. rewrite Hctx. apply says_nothing.
Qed.

(** The transaction of a JOIN. *)
Lemma join_commits ch topic n' :
  net_join me pfx lid (rt_now rt) ch n = Some (topic, n') -> reachable (store_of w) ->
  exists w1, doSTM rt (Join_txn rt ec lid ch) "" [keyUserCtl me; keyChanCtl ch; keyChanNicks ch lid] w =
    (Ok (topic, st_rev (store_of w1)), w1) /\
    rep (current (store_of w1)) n' /\ reachable (store_of w1) /\
    quiet_from (rt_env rt) (cl_clock (w_cluster w1)) /\ w_out w1 = w_out w.
Proof.
  intros Hj Hre. pose proof (un_wf _ _ _ _ _ Hun) as Hw.
  pose proof (Join_implements rt ec lid ch "" _ n Hw (un_rep _ _ _ _ _ Hun) (un_owns _ _ _ _ _ Hun)) as Hi.
  rewrite Hj in Hi. destruct Hi as (v'&ws&Ha&->&Hrep&Htot).
  destruct (doSTM_atomically rt ec lid w n Hun (Join_txn rt ec lid ch) ""
    [keyUserCtl me; keyChanCtl ch; keyChanNicks ch lid] 4) as (c'&E&Hst&Hc);
    [by apply no_empty_key|apply Join_reads|unfold MaxOpsPerTxn; simpl; lia|].
  destruct (Htot (un_lease _ _ _ _ _ Hun)) as (tr&st'&HT); [unfold MaxOpsPerTxn; lia|].
  unfold atomically in E, Hst. unfold arun in Ha. 
  destruct (atomic (Join_txn rt ec lid ch "") (current (store_of w)) ∅ ∅) as [[o ws'] rs] eqn:Eat. simplify_eq/=.
  rewrite HT in E, Hst. simpl in E, Hst.
  exists (set_cluster c' w). assert (store_of (set_cluster c' w) = st') as -> by exact Hst.
  destruct (Txn_ok _ _ _ _ _ _ Hw HT) as (_&_&_&Hrev). split_and!.
  - unfold doSTM, mbind, ST_mbind, ST_bind, in_cluster. rewrite E. by rewrite Hrev.
  - by eapply Hrep.
  - eapply rtc_r; [exact Hre|]. eapply (s_join _ _ rt ec lid ch "" topic tr).
    + eapply rep_owns; apply Hun.
    + by exists ws, rs.
  - intros k Hk. apply Hun. simpl in Hk. lia.
  - done.
Qed.

Lemma ST_bind_run {S A B} (m : ST S A) (k : A -> ST S B) s a s' : m s = (Ok a, s') -> (m ≫= k) s = k a s'.
Proof. unfold mbind, ST_mbind, ST_bind. by intros ->. Qed.

Lemma ST_bind_err {S A B} (m : ST S A) (k : A -> ST S B) s e s' : m s = (Err e, s') -> (m ≫= k) s = (Err e, s').
Proof. unfold mbind, ST_mbind, ST_bind. by intros ->. Qed.

Lemma session_here {A} (f : Z -> M A) : (session rt ≫= f) w = f lid w.
Proof. unfold session, mbind, ST_mbind, ST_bind, lift. by rewrite (un_ses _ _ _ _ _ Hun). Qed.

Context (Hre : reachable (store_of w)).

(** C17: NAMES, WHO, WHOIS and LIST, when nobody disturbs them, say exactly their
    answers on the network and change nothing.  A channel or a LIST with more than
    127 names fails: the transaction has too many operations.  WHO for a nick that
    does not exist, and WHO and WHOIS of a user without a second USER parameter,
    panic the daemon. *)
Theorem queries_exact :
  (forall ch, answers (names_answer rt ec n ch) (Names rt ec ch w)) /\
  (forall args, answers (who_answer rt ec n args) (Who rt ec args w)) /\
  (forall nick, answers (whois_answer rt ec n nick) (Whois rt ec nick w)) /\
  (forall chs, answers (list_answer rt ec n chs) (List rt ec chs w)).
Proof.
  pose proof (reachable_known _ Hre) as Hk. pose proof (un_ctx _ _ _ _ _ Hun) as Hctx.
  split_and!; intros; apply says_answers.
  - apply says_names; try apply Hun; try done. by left.
  - apply says_who; try apply Hun; done.
  - apply says_whois; try apply Hun; done.
  - apply says_list; try apply Hun; done.
Qed.

(** C18: the NAMES of a channel with at most 127 nicks, when nobody disturbs it,
    shows a user exactly when he lists the channel, or one whose name extends it
    with a slash, and the asker may see him; the sign before a nick is that of a
    mode the nick has on such a channel. *)
Theorem names_shows ch self :
  isChan ch = true -> n_users n !! me = Some self -> length (net_membernicks n ch) < MaxOpsPerTxn ->
  exists shown : list (string * string),
    answers ([reply rt ec irc.RPL_NAMREPLY ["="; ch; Join " " ((fun p => p.1 +:+ p.2) <$> shown)];
              reply rt ec irc.RPL_ENDOFNAMES [ch; "End of NAMES list"]], Ok ()) (Names rt ec ch w) /\
    (forall nick, nick ∈ shown.*2 <-> exists uv ch', n_users n !! nick = Some uv /\ ch' ∈ uv_Channels uv /\
       (ch' = ch \/ exists r, ch' = ch +:+ "/" +:+ r) /\ may_see self uv) /\
    (forall sign nick, (sign, nick) ∈ shown -> exists ch' l cn, (ch' = ch \/ exists r, ch' = ch +:+ "/" +:+ r) /\
       cn ∈ members n ch' l /\ cn_Nick cn = nick /\ sign = nameMode (cn_Mode cn)).
Proof.
  intros Hch Hself Hlen. pose proof (un_ok _ _ _ _ _ Hun) as Hn.
  destruct (traverse_lookup n (net_membernicks n ch)) as (us&Eus&Hus).
  { intros nick (uv&?&?&_)%membernick_user; [by eexists|done]. }
  exists ((fun u => (default "" (net_signs n ch !! uv_Nick u), uv_Nick u)) <$> pruneInvisible us self).
  assert (forall u, u ∈ pruneInvisible us self <-> exists nick uv chs, nick ∈ net_membernicks n ch /\ n_users n !! nick = Some uv /\
    may_see self uv /\ shown_channels self uv chs /\ u = set_Channels chs uv) as Hp.
  { intros u. rewrite pruneInvisible_spec. setoid_rewrite Hus. naive_solver. }
  split_and!.
  - assert (names_answer rt ec n ch = _) as <-; [|apply says_answers, says_names; try apply Hun; try done;
      [by eapply reachable_known|by left]].
    unfold names_answer, net_mask, net_from_nicks. rewrite Hch, bool_decide_false by lia. rewrite Eus, Hself. simpl.
    by rewrite <-list_fmap_compose.
  - intros nick. rewrite <-list_fmap_compose, list_elem_of_fmap. setoid_rewrite Hp. split.
    + intros (u&->&nick1&uv&chs&Hin&Hu&Hsee&_&->). simpl. rewrite (ok_nick n Hn _ _ Hu).
      apply membernick_user in Hin as (uv'&ch'&Hu'&Hc&Hs); [|done]. simplify_eq. exists uv', ch'.
      split_and!; try done. by apply subchannel_spec.
    + intros (uv&ch'&Hu&Hc&Hs%subchannel_spec&Hsee).
      destruct (shown_channels_total self uv) as [chs Hchs]. exists (set_Channels chs uv). simpl.
      split; [by rewrite (ok_nick n Hn _ _ Hu)|]. exists nick, uv, chs. split_and!; try done.
      apply membernick_user; [done|]. by exists uv, ch'.
  - intros sign nick (u&[= -> ->]&(nick'&uv&chs&Hin&Hu&_&_&->)%Hp)%list_elem_of_fmap. simpl.
    rewrite (ok_nick n Hn _ _ Hu). destruct (sign_of_member n ch nick' Hin) as (cn&Hcn&Hnick&->).
    apply elem_of_members in Hcn as (ch'&l&Hs%subchannel_spec&Hcn). by exists ch', l, cn.
Qed.

(** C16: a JOIN that nobody disturbs puts the user on the channel and replies with
    the JOIN, the topic and the names after it.  Where the channel then has 128
    nicks or more the query for the names fails, and with it the JOIN: the
    connection ends, with the user on the channel. *)
Theorem join_exact ch :
  match net_join me pfx lid (rt_now rt) ch n with
  | None => (ClientJoin rt ec ch w).1 = Err ErrDecode /\ store_of (ClientJoin rt ec ch w).2 = store_of w /\
      w_out (ClientJoin rt ec ch w).2 = w_out w
  | Some (topic, n') =>
    rep (current (store_of (ClientJoin rt ec ch w).2)) n' /\
    (ClientJoin rt ec ch w).1 = (names_answer rt ec n' ch).2 /\
    w_out (ClientJoin rt ec ch w).2 =
      w_out w ++ [userMsg ec irc.JOIN [ch]; topic_reply rt ec ch topic] ++ (names_answer rt ec n' ch).1 /\
    (isChan ch = true -> MaxOpsPerTxn <= length (net_membernicks n' ch) ->
     (ClientJoin rt ec ch w).1 = Err ErrTooManyOps)
  end.
Proof.
  unfold ClientJoin. rewrite session_here. cbv zeta. destruct (net_join _ _ _ _ _ _) as [[topic n']|] eqn:Hj.
  - destruct (join_commits ch topic n' Hj Hre) as (w1&E&Hrep&Hre1&Hq&Ho1).
    rewrite (ST_bind_run _ _ _ _ _ E).
    destruct (join_says (store_of w1) n' ch topic (reachable_wf _ Hre1) Hrep (reachable_known _ Hre1) w1)
      as (w2&E2&[_ Hs2]&Ho2); [by split|].
    cbv beta iota. rewrite E2. simpl. rewrite Hs2, Ho2, Ho1. split_and!; try done.
    intros Hch Hmany. unfold names_answer, net_mask, net_from_nicks. rewrite Hch, bool_decide_true by lia. done.
  - pose proof (doSTM_undisturbed rt ec lid w n Hun (Join_txn rt ec lid ch) "" 
      [keyUserCtl me; keyChanCtl ch; keyChanNicks ch lid] lid 4 _ _ _ _ (Join_implements rt ec lid ch "")
      (un_owns _ _ _ _ _ Hun) eq_refl ltac:(unfold MaxOpsPerTxn; lia) ltac:(by apply no_empty_key)
      (Join_reads _ _ _ _ _ _) ltac:(unfold MaxOpsPerTxn; simpl; lia)) as HD.
    rewrite Hj in HD. destruct HD as (w1&E&Hs&Ho). by rewrite (ST_bind_err _ _ _ _ _ E).
Qed.

End theorems.

(** The nicks of a channel, read off the store. *)
Lemma stored_membernicks `{Gob Message, Gob UserValue, Gob ChannelCtl, Gob ChannelNicks, Gob OperValue} st n ch cns :
  rep (current st) n -> known (current st) ->
  traverse (fun kv => or_err ErrDecode (decodeChannelNicks (kv_Value kv)))
    (range_kvs (current st) (keyChanNicksPfx ch) (Some (GetPrefixRangeEnd (keyChanNicksPfx ch)))) = Ok cns ->
  net_membernicks n ch = concat (nicks <$> cns).
Proof.
  intros Hr Hk. rewrite (traverse_lists _ _ (range_lists st n Hr Hk ch)). intros [= <-]. by rewrite concat_nicks.
Qed.

(** ** Examples: bob asks about #c, where alice is operator *)

Module QueryDemo.
Import Demo.

Lemma members_c n : rep (current store4) n -> net_membernicks n "#c" = ["alice"; "bob"].
Proof.
  intros Hr. rewrite (stored_membernicks store4 n "#c" [{| cns_Nicks :=
    [{| cn_Nick := "alice"; cn_Mode := ["O"; "o"]%char |}; {| cn_Nick := "bob"; cn_Mode := [] |}] |}]); [done|done| |].
  - eapply reachable_known, reachable4.
  - vm_compute. reflexivity.
Qed.

Lemma bob_there n : rep (current store4) n -> exists self, n_users n !! "bob" = Some self.
Proof.
  intros Hr. pose proof (rep_stored_user store4 n "bob" Hr) as Hu.
  assert ((length ∘ uv_Channels) <$> stored_user store4 "bob" = Some 1) as Hl by (vm_compute; reflexivity).
  rewrite Hu in Hl. destruct (n_users n !! "bob") as [self|]; [by exists self|done].
Qed.

(** What bob is told. *)
Example names_c : w_out (Names rt bob "#c" (world store4)).2 =
  [reply rt bob irc.RPL_NAMREPLY ["="; "#c"; "@alice bob"]; reply rt bob irc.RPL_ENDOFNAMES ["#c"; "End of NAMES list"]].
Proof. vm_compute. reflexivity. Qed.

Example who_nobody : (Who rt bob ["nobody"] (world store4)).1 = Panic.
Proof. vm_compute. reflexivity. Qed.

End QueryDemo.

Import Demo.

Lemma queries_exact_witness :
  exists n, undisturbed rt bob 7 (world store4) n /\
    answers (world store4) (list_answer rt bob n []) (List rt bob [] (world store4)).
Proof.
  destruct QuietDemo.undisturbed_bob as [n Hn]. exists n. split; [exact Hn|].
  apply (queries_exact rt bob 7 (world store4) n Hn reachable4).
Defined.

Lemma names_shows_witness :
  exists n self, undisturbed rt bob 7 (world store4) n /\ exists shown,
    answers (world store4) ([reply rt bob irc.RPL_NAMREPLY ["="; "#c"; Join " " ((fun p => p.1 +:+ p.2) <$> shown)];
              reply rt bob irc.RPL_ENDOFNAMES ["#c"; "End of NAMES list"]], Ok ()) (Names rt bob "#c" (world store4)) /\
    (forall nick, nick ∈ shown.*2 <-> exists uv ch', n_users n !! nick = Some uv /\ ch' ∈ uv_Channels uv /\
       (ch' = "#c" \/ exists r, ch' = "#c" +:+ "/" +:+ r) /\ may_see self uv).
Proof.
  destruct QuietDemo.undisturbed_bob as [n Hn]. destruct (QueryDemo.bob_there n (un_rep _ _ _ _ _ Hn)) as [self Hs].
  exists n, self. split; [exact Hn|].
  destruct (names_shows rt bob 7 (world store4) n Hn reachable4 "#c" self) as (shown&Ha&Hb&_).
  - reflexivity.
  - exact Hs.
  - rewrite (QueryDemo.members_c n (un_rep _ _ _ _ _ Hn)). unfold MaxOpsPerTxn. simpl. lia.
  - exists shown. split; [exact Ha|exact Hb].
Defined.

Lemma join_exact_witness :
  exists n, undisturbed rt bob 7 (world store4) n /\
    match net_join "bob" (ec_prefix bob) 7 100 "#d" n with
    | None => (ClientJoin rt bob "#d" (world store4)).1 = Err ErrDecode
    | Some (topic, n') => rep (current (store_of (ClientJoin rt bob "#d" (world store4)).2)) n'
    end.
Proof.
  destruct QuietDemo.undisturbed_bob as [n Hn]. exists n. split; [exact Hn|].
  pose proof (join_exact rt bob 7 (world store4) n Hn reachable4 "#d") as HJ.
  change (rt_now rt) with 100%Z in HJ. change (ec_nick bob) with "bob" in HJ.
  destruct (net_join "bob" (ec_prefix bob) 7 100 "#d" n) as [[topic n']|]; exact (proj1 HJ).
Defined.
