(* ===== verification/Lost.v ===== *)
(** * Lost sessions

    When a session ends etcd deletes the users and the member lists it held; the
    other clients of a channel learn it from the watch of the channel's lists, and
    [monitorPart] tells them who left.  It looks the lost users up at the revision
    before the deletion, which nobody can change any more, so what it says does not
    depend on what the others do meanwhile. *)

From S2P Require Import Prelude GoLib Mode Msg User Channel Key Etcd Stm Net Client Rep Refine Server Ctl System Demo Guarantees Linear Quiet Stored Query.

(** ** Looking up the past *)

(** The message for a lost member. *)
Definition parted (users : string -> option UserValue) (ch nick : string) (m : Message) : Prop :=
  exists u user1, users nick = Some u /\ uv_User u !! 1 = Some user1 /\
    m = {| m_Prefix := Some {| p_Name := nick; p_User := user1; p_Host := uv_Host u |};
           m_Command := irc.PART; m_Params := [ch; "session lost"] |}.

(** The message a client gets, and what it is told of a list of users. *)
Definition lost_part (ch : string) (u : UserValue) (user1 : string) : Message := {|
  m_Prefix := Some {| p_Name := uv_Nick u; p_User := user1; p_Host := uv_Host u |};
  m_Command := irc.PART; m_Params := [ch; "session lost"] |}.

Fixpoint part_lines (ch : string) (us : list UserValue) (rest : answer) : answer :=
  match us with
  | [] => rest
  | u :: us' =>
    match uv_User u !! 1 with
    | None => ([], Panic)
    | Some user1 => say [lost_part ch u user1] (part_lines ch us' rest)
    end
  end.

(** What a client is told when lists of members are gone: for each list, the users
    on it whom it may see, looked up when they were still there. *)
Fixpoint lost_answer (ec : etcdClient) (n : Net) (ch : string) (lists : list (list ChannelNick)) : answer :=
  match lists with
  | [] => ([], Ok ())
  | cns :: lists' =>
    after (net_from_nicks ec n (cn_Nick <$> cns)) (fun us => part_lines ch us (lost_answer ec n ch lists'))
  end.

Section past.
Context `{Gob Message, Gob UserValue, Gob ChannelCtl, Gob ChannelNicks, Gob OperValue}.
Context (rt : Runtime) (ec : etcdClient).
Context (Henv : env_ok (rt_env rt)) (Hfail : forall k, e_fail (rt_env rt) k = None) (Hctx : rt_ctx rt = None).
Context (st : Store) (rev : Z) (n : Net).
Context (Hrev : (1 <= rev <= st_rev st)%Z) (Hrep : rep (at_rev st rev) n) (Hok : net_ok n).

Notation me := (ec_nick ec).

(** The deletion of a list just after the revision. *)
Definition reports (ev : Event) (cns : list ChannelNick) : Prop :=
  exists key kv, ev = EvDelete key (rev + 1) (Some kv) /\ kv_Value kv = encodeList cns.

(** The store has [st] in its past. *)
Definition since (w : World) : Prop := wf_store (store_of w) /\ extends st (store_of w).

Lemma gives_userKeys nicks :
  gives_in since (userKeysFromNicks rt nicks rev)
    (if bool_decide (MaxOpsPerTxn < length nicks) then Err ErrTooManyOps
     else Ok ((fun nick => at_rev st rev !! keyUserCtl nick) <$> nicks)).
Proof.
  intros w [Hw He]. unfold userKeysFromNicks, cliTxn.
  assert ((fun nick => OpGet (keyUserCtl nick) None rev) <$> nicks = gets (keyUserCtl <$> nicks) rev) as ->
    by (unfold gets; by rewrite <-list_fmap_compose).
  destruct (Henv (cl_clock (w_cluster w)) _ Hw) as [Hw2 He2].
  set (st2 := e_intf (rt_env rt) (cl_clock (w_cluster w)) (store_of w)) in *.
  assert (extends st st2) as He3 by by etrans.
  pose proof (extends_rev _ _ He3) as Hle.
  unfold mbind, ST_mbind, ST_bind, in_cluster, request. rewrite Hfail. fold (store_of w). fold st2.
  case_bool_decide as Hb.
  - assert (Txn st2 [] (gets (keyUserCtl <$> nicks) rev) [] = Err ErrTooManyOps) as ->.
    { unfold Txn, checkTxnRequest, gets. rewrite !length_fmap. cbn [length].
      rewrite (bool_decide_true (MaxOpsPerTxn < length nicks)) by done. by rewrite orb_true_r. }
    eexists. split; [done|]. by split.
  - rewrite Txn_gets_total; [|by intros (nick&?&_)%list_elem_of_fmap|rewrite length_fmap; lia|lia].
    exists (set_cluster {| cl_store := st2; cl_clock := S (cl_clock (w_cluster w)) |} w).
    split; [unfold mret, ST_ret; cbn [tr_Responses]; apply (f_equal (fun l => (Ok l, _)))|by split]. rewrite <-!list_fmap_compose. apply list_fmap_ext. intros _ nick _.
    unfold compose. cbn [kvs_of get_resp gr_Kvs]. unfold read_snap.
    destruct (Z.leb_spec rev 0); [lia|]. rewrite (at_rev_extends st st2) by done. by destruct (at_rev st rev !! _).
Qed.

Lemma past_user nick : userOfKv (at_rev st rev !! keyUserCtl nick) = or_panic (n_users n !! nick).
Proof.
  pose proof (Hrep (KUserCtl nick)) as Hk. cbn [key_str net_at] in Hk.
  destruct (at_rev st rev !! keyUserCtl nick) as [kv|], (n_users n !! nick) as [uv|]; inversion Hk as [? ? (Hv&_&_)|]; subst; [|done].
  unfold userOfKv. simpl in *. by rewrite Hv, decodeUserValue_encode.
Qed.

Lemma gives_pastUsers nicks : gives_in since (usersFromNicks rt ec nicks rev) (net_from_nicks ec n nicks).
Proof.
  unfold usersFromNicks.
  assert (net_from_nicks ec n nicks =
    (if bool_decide (MaxOpsPerTxn < length (nicks ++ [me])) then Err ErrTooManyOps
     else Ok ((fun nick => at_rev st rev !! keyUserCtl nick) <$> (nicks ++ [me])))
     ≫= (fun kvs => us ← traverse userOfKv kvs; self ← or_panic (list.last us); Ok (pruneInvisible (removelast us) self))) as ->.
  { unfold net_from_nicks. rewrite length_app. simpl. replace (length nicks + 1) with (S (length nicks)) by lia.
    destruct (bool_decide _); [done|]. cbn [mbind outcome_mbind outcome_bind]. rewrite traverse_comp.
    rewrite (traverse_ext (fun nick => userOfKv (at_rev st rev !! keyUserCtl nick)) (fun nick => or_panic (n_users n !! nick))) by apply past_user.
    rewrite traverse_app. cbn [traverse].
    destruct (traverse _ nicks) as [us|e| | |]; [|done..]. simpl. destruct (n_users n !! me) as [uv|]; [|done]. simpl.
    rewrite last_snoc. simpl. by rewrite removelast_last. }
  apply gives_bind; [apply gives_userKeys|intros kvs _].
  apply gives_bind; [apply gives_lift|intros us _]. apply gives_bind; [apply gives_lift|intros self _; apply gives_mret].
Qed.

(** ** Who is told what *)

(** A user who shares a channel with the asker is shown, maybe with fewer channels. *)
Lemma prune_shared us self ch :
  ch ∈ uv_Channels self -> (forall u, u ∈ us -> ch ∈ uv_Channels u) ->
  Forall2 (fun u u' => exists chs, u' = set_Channels chs u) us (pruneInvisible us self).
Proof.
  intros Hself Hus. unfold pruneInvisible. destruct (has (uv_Mode self) "O").
  { apply Forall_Forall2_diag, list.Forall_forall. intros u _. exists (uv_Channels u). by destruct u. }
  induction us as [|u us IH]; [constructor|]. cbn [omap list_omap].
  assert (exists chs, prune_one self (has (uv_Mode self) "o") (stringSliceToMap (uv_Channels self)) u = Some (set_Channels chs u)) as [chs ->].
  { unfold prune_one. case_match; [exists (uv_Channels u); by destruct u|]. eexists. rewrite bool_decide_false; [done|].
    intros E. assert (ch ∈ filter (fun ch => ch ∈ stringSliceToMap (uv_Channels self)) (uv_Channels u)) as Hin.
    { apply list_elem_of_filter. split; [by apply elem_of_stringSliceToMap|apply Hus; by left]. }
    rewrite E in Hin. by apply not_elem_of_nil in Hin. }
  constructor; [by exists chs|]. apply IH. intros; apply Hus; by right.
Qed.

Lemma says_parts ch us rest k :
  says_in since k rest ->
  says_in since (_ ← mapM_ (fun u =>
    user1 ← lift (or_panic (uv_User u !! 1));
    SendMsg rt {| m_Prefix := Some {| p_Name := uv_Nick u; p_User := user1; p_Host := uv_Host u |};
                  m_Command := irc.PART; m_Params := [ch; "session lost"] |}) us; k) (part_lines ch us rest).
Proof.
  intros Hk. induction us as [|u us IH]; cbn [mapM_ part_lines].
  - eapply says_bind_ok; [apply gives_mret|done].
  - eapply says_eq; [apply ST_bind_assoc|]. destruct (uv_User u !! 1) as [user1|].
    + apply (says_bind _ _ [lost_part ch u user1]); [|exact IH]. eapply says_bind_ok; [apply gives_lift|].
      intros w Hw. eexists. split; [unfold SendMsg, SendMsg_ctx, ctx_at; by rewrite Hctx|done].
    + eapply says_fail. intros w Hw. by exists w.
Qed.

(** The reports of lists of members that were there, one after the other. *)
Lemma says_lists ch lid evs lists k :
  Forall2 reports evs lists -> says_in since k ([], Ok ()) ->
  says_in since (_ ← loop (monitorPart_event rt ec ch lid) evs; k) (lost_answer ec n ch lists).
Proof.
  intros HF Hk. induction HF as [|ev cns evs lists (key&kv&->&Hkv) _ IH]; cbn [loop lost_answer].
  { eapply says_bind_ok; [apply gives_mret|done]. }
  eapply says_eq; [apply ST_bind_assoc|]. unfold monitorPart_event at 1.
  eapply says_eq; [apply ST_bind_assoc|]. eapply says_bind_ok; [apply gives_lift|]. rewrite Hkv.
  unfold encodeList. rewrite decodeChannelNicks_encode. unfold sendParts.
  eapply says_eq; [apply ST_bind_assoc|]. eapply says_eq; [apply ST_bind_assoc|].
  replace (rev + 1 - 1)%Z with rev by lia.
  apply gives_says; [apply gives_pastUsers|]. intros us _. apply says_parts.
  eapply says_bind_ok; [apply gives_mret|exact IH].
Qed.

End past.

(** ** The end of a session *)

(** Entries of a map by a sorted list of keys that has them all. *)
Lemma omap_entries {A} (m : gmap string A) (ks : list string) :
  NoDup ks -> omap (fun k => (k,.) <$> m !! k) ks ≡ₚ filter (fun p => p.1 ∈ ks) (map_to_list m).
Proof.
  intros Hnd. apply NoDup_Permutation.
  - induction Hnd as [|k ks Hk _ IH]; [constructor|]. cbn [omap list_omap]. destruct (m !! k) as [a|]; [|done].
    constructor; [|done]. intros (k'&Hk'&E)%list_elem_of_omap. destruct (m !! k'); simplify_eq/=; done.
  - apply list.NoDup_filter, NoDup_map_to_list.
  - intros [k a]. rewrite list_elem_of_omap, list_elem_of_filter, elem_of_map_to_list. split.
    + intros (k'&Hk'&E). destruct (m !! k') eqn:?; simplify_eq/=. done.
    + intros [Hk Hm]. exists k. simpl in *. by rewrite Hm.
Qed.

Lemma omap_sorted {A} (m : gmap string A) ks :
  StronglySorted String.le ks -> StronglySorted (fun p q : string * A => String.le p.1 q.1) (omap (fun k => (k,.) <$> m !! k) ks).
Proof.
  induction 1 as [|k ks _ IH Hk]; [constructor|]. cbn [omap list_omap]. destruct (m !! k) as [a|]; [|done].
  constructor; [done|]. apply list.Forall_forall. intros [k' a'] (k1&Hk1&E)%list_elem_of_omap.
  destruct (m !! k1); simplify_eq/=. rewrite list.Forall_forall in Hk. by apply Hk.
Qed.

Section lost.
Context `{Gob Message, Gob UserValue, Gob ChannelCtl, Gob ChannelNicks, Gob OperValue}.
Context (st : Store) (n : Net) (l : Z).
Context (Hre : reachable st) (Hw : wf_store st) (Hrep : rep (current st) n) (Hok : net_ok n).
Context (Hl : l <> 0%Z) (Hin : l ∈ st_leases st).

(** The pairs the session keeps. *)
Definition kept_by : snapshot := filter (fun p => kv_Lease p.2 = l) (current st).

Lemma kept_entries p :
  kv_Value <$> kept_by !! list_key p = encodeList <$> (filter (fun p => p.1.2 = l) (n_members n)) !! p.
Proof.
  unfold kept_by. rewrite !map_lookup_filter. destruct p as [ch z].
  pose proof (Hrep (KChanNicks ch z)) as Hk. cbn [key_str net_at] in Hk. unfold list_key. cbn [fst snd].
  destruct (current st !! keyChanNicks ch z) as [kv|], (n_members n !! (ch, z)) as [cns|]; inversion Hk as [? ? (Hv&Hz&_)|];
    subst; [|done]. cbn [fst snd] in *. simpl. case_guard; case_guard; try congruence; [|done]. simpl. by rewrite Hv.
Qed.

Lemma kept_list ch : is_Some (n_members n !! (ch, l)) -> is_Some (kept_by !! keyChanNicks ch l).
Proof.
  intros [cns Hm]. pose proof (kept_entries (ch, l)) as Hk. rewrite map_lookup_filter, Hm in Hk. unfold list_key in Hk.
  simpl in Hk. case_guard; [|done]. simpl in Hk. destruct (kept_by !! keyChanNicks ch l); [by eexists|done].
Qed.

Context (Hne : kept_by <> ∅).

Lemma revoke_snaps : st_snaps (Revoke st l) = without l (current st) :: st_snaps st.
Proof.
  unfold Revoke. rewrite bool_decide_true by done. fold (without l (current st)). rewrite bool_decide_false; [done|].
  intros E. apply Hne, map_eq. intros k. rewrite lookup_empty. unfold kept_by. rewrite map_lookup_filter.
  destruct (current st !! k) as [kv|] eqn:Ek; [|done]. simpl. case_guard as Hg; [|done]. exfalso.
  rewrite <-(map_subseteq_size_eq (without l (current st)) (current st)) in Ek; [|apply map_filter_subseteq|].
  - rewrite lookup_without in Ek. destruct (current st !! k) as [kv'|]; [|done]. case_decide; simplify_eq/=.
  - unfold without in *. lia.
Qed.

Lemma revoke_rev : st_rev (Revoke st l) = (st_rev st + 1)%Z.
Proof. unfold st_rev. rewrite revoke_snaps. simpl. lia. Qed.

(** What the end of the session does to a key. *)
Lemma revoke_event k :
  key_event (Revoke st l) (st_rev (Revoke st l)) k =
    (fun kv => EvDelete k (st_rev (Revoke st l)) (Some kv)) <$> kept_by !! k.
Proof.
  pose proof (wf_store_rev st Hw). destruct (Revoke_ok st l Hw) as [_ Hext].
  assert (at_rev (Revoke st l) (st_rev (Revoke st l) - 1) = current st) as Eprev.
  { rewrite revoke_rev, (at_rev_extends st) by (done || lia).
    replace (st_rev st + 1 - 1)%Z with (st_rev st) by lia. apply at_rev_current. }
  unfold key_event. rewrite Eprev, at_rev_current.
  assert (current (Revoke st l) = without l (current st)) as -> by (unfold current; by rewrite revoke_snaps).
  unfold kept_by. rewrite lookup_without, map_lookup_filter. destruct (current st !! k) as [kv|] eqn:Ek; [|done]. simpl.
  case_decide; case_guard; try done.
  destruct (current_kv st k kv Hw Ek) as (rev&Hr&Hm&_). rewrite revoke_rev.
  destruct (Z.eqb_spec (kv_ModRevision kv) (st_rev st + 1)); [|done]. lia.
Qed.

(** The watch of the lists of a channel: one response, with the lists in the order
    of their keys. *)
Definition lost_lists (ch : string) : list (list ChannelNick) :=
  net_memberlists (set_memberss (filter (fun p => p.1.2 = l) (n_members n)) n) ch.

Lemma revoke_events q rend :
  range_events (Revoke st l) (st_rev (Revoke st l)) q (Some rend) =
    (fun p => EvDelete p.1 (st_rev (Revoke st l)) (Some p.2)) <$>
      merge_sort kv_le (filter (fun p => in_range q (Some rend) p.1 = true) (map_to_list kept_by)).
Proof.
  set (R := st_rev (Revoke st l)). set (ks := merge_sort String.le (filter (fun k => in_range q (Some rend) k = true)
    (elements (dom (at_rev (Revoke st l) R) ∪ dom (at_rev (Revoke st l) (R - 1)))))).
  transitivity ((fun p => EvDelete p.1 R (Some p.2)) <$> omap (fun k => (k,.) <$> kept_by !! k) ks).
  { unfold range_events. fold ks. clearbody ks. induction ks as [|k ks IH]; [done|]. cbn [omap list_omap].
    unfold R. rewrite revoke_event. fold R. destruct (kept_by !! k); simpl; by rewrite IH. }
  f_equal. apply (StronglySorted_unique_strong kv_le).
  - intros [k1 kv1] [k2 kv2] (k&_&E)%list_elem_of_omap Hx2 H12 H21.
    rewrite (merge_sort_Permutation kv_le), list_elem_of_filter, elem_of_map_to_list in Hx2.
    destruct (kept_by !! k) eqn:Ek; simplify_eq/=. unfold kv_le in *. simpl in *.
    assert (k1 = k2) as -> by by apply (anti_symm String.le). destruct Hx2. by simplify_eq.
  - apply omap_sorted. apply (StronglySorted_merge_sort String.le).
  - apply (StronglySorted_merge_sort kv_le).
  - rewrite (merge_sort_Permutation kv_le), omap_entries.
    + apply NoDup_Permutation; [apply list.NoDup_filter, NoDup_map_to_list..|].
      intros [k kv]. rewrite !list_elem_of_filter, elem_of_map_to_list. simpl. split; [|].
      * intros [Hk Hm]. split; [|done]. unfold ks in Hk.
        rewrite (merge_sort_Permutation String.le), list_elem_of_filter in Hk. apply Hk.
      * intros [Hr Hm]. split; [|done]. unfold ks. rewrite (merge_sort_Permutation String.le), list_elem_of_filter.
        split; [done|]. apply elem_of_elements, elem_of_union. right. apply elem_of_dom.
        pose proof (revoke_event k) as He. rewrite Hm in He. unfold key_event in He. fold R in He.
        destruct (at_rev (Revoke st l) R !! k); [by case_match|]. destruct (at_rev (Revoke st l) (R - 1) !! k); [by eexists|done].
    + unfold ks. rewrite (merge_sort_Permutation String.le). apply list.NoDup_filter, NoDup_elements.
Qed.

Lemma lost_reports ch rev : (rev + 1)%Z = st_rev (Revoke st l) ->
  Forall2 (reports rev) (range_events (Revoke st l) (st_rev (Revoke st l)) (keyChanNicksPfx ch)
    (Some (GetPrefixRangeEnd (keyChanNicksPfx ch)))) (lost_lists ch).
Proof.
  intros Hrev. rewrite revoke_events. set (L := merge_sort kv_le _).
  assert (kv_Value <$> (snd <$> L) = encodeList <$> lost_lists ch) as E.
  { refine (range_listing list_key (filter (fun p : string * Z * list ChannelNick => p.1.2 = l) (n_members n)) encodeList
      (keyChanNicksPfx ch) (fun p => subchannel ch p.1 = true) kept_by _ _ _).
    - apply kept_entries.
    - intros k [kv Hk] Hp. unfold kept_by in Hk. apply map_lookup_filter_Some in Hk as [Hk _].
      destruct (reachable_known st Hre k ltac:(by eexists)) as [[i|i|i|i|i z|i] ->]; try done. by exists (i, z).
    - intros [ch' z]. unfold list_key. cbn [fst snd]. rewrite chan_nicks_under, subchannel_spec.
      split; (intros [?|[r ->]]; [by left|right; exists r]); by rewrite ?str_app_assoc. }
  rewrite <-Hrev. clear -E. revert E. generalize (lost_lists ch) as ls. induction L as [|[k kv] L IH]; intros [|cns ls] E; try done.
  injection E as E1 E2. constructor; [by exists k, kv|by apply IH].
Qed.

(** Without lists of sub-channels it is the list of the channel. *)
Lemma lost_single ch :
  is_Some (n_members n !! (ch, l)) ->
  (forall ch', is_Some (n_members n !! (ch', l)) -> subchannel ch ch' = true -> ch' = ch) ->
  lost_lists ch = [members n ch l].
Proof.
  intros [cns Hm] Honly. unfold lost_lists, net_memberlists. cbn [n_members set_memberss].
  assert (filter (fun p => subchannel ch p.1.1 = true) (map_to_list (filter (fun p => p.1.2 = l) (n_members n)))
    ≡ₚ [((ch, l), cns)]) as HP.
  { apply NoDup_Permutation; [apply list.NoDup_filter, NoDup_map_to_list|apply NoDup_singleton|].
    intros [[ch' z] cns']. rewrite list_elem_of_filter, elem_of_map_to_list, map_lookup_filter_Some, list_elem_of_singleton.
    simpl. split.
    - intros (Hs&Hc&->). rewrite (Honly ch') in * by (done || by eexists). by simplify_eq.
    - intros [= -> -> ->]. split_and!; [|done|done]. apply subchannel_spec. by left. }
  set (X := filter _ _) in *. clearbody X.
  assert (listing list_key X ≡ₚ [cns]) as HL%Permutation_singleton_r.
  { transitivity (snd <$> X); [apply listing_Permutation|]. by rewrite HP. }
  rewrite HL. unfold members. by rewrite Hm.
Qed.

Lemma lost_member ch : is_Some (n_members n !! (ch, l)) -> lost_lists ch <> [].
Proof.
  intros [cns Hm] E. assert (cns ∈ lost_lists ch) as Hc; [|rewrite E in Hc; by apply not_elem_of_nil in Hc].
  unfold lost_lists, net_memberlists. rewrite listing_Permutation. apply list_elem_of_fmap. exists ((ch, l), cns).
  split; [done|]. rewrite list_elem_of_filter, elem_of_map_to_list. cbn [n_members set_memberss].
  split; [apply subchannel_spec; by left|]. by apply map_lookup_filter_Some.
Qed.

(** A lost list names users. *)
Lemma lost_named ch cns : cns ∈ lost_lists ch ->
  exists ch', forall nick, nick ∈ cn_Nick <$> cns -> nick ∈ member_nicks n ch' l.
Proof.
  unfold lost_lists, net_memberlists. rewrite listing_Permutation. intros ([[ch' z] cns']&->&Hc)%list_elem_of_fmap.
  rewrite list_elem_of_filter, elem_of_map_to_list in Hc. destruct Hc as [_ Hc]. cbn [n_members set_memberss] in Hc.
  apply map_lookup_filter_Some in Hc as [Hc Hz]. simpl in Hz. subst z. exists ch'. unfold member_nicks, members. by rewrite Hc.
Qed.

End lost.

(** ** What a client is told *)

(** Among others, who may write meanwhile. *)
Definition tells (w : World) (a : answer) (ow : outcome unit * World) : Prop :=
  ow.1 = a.2 /\ w_out ow.2 = w_out w ++ a.1.

Section told.
Context `{Gob Message, Gob UserValue, Gob ChannelCtl, Gob ChannelNicks, Gob OperValue}.
Context (rt : Runtime) (ec : etcdClient) (lid : Z).

(** One response is its events under the session of the moment. *)
Lemma monitorPart_one ch evs w :
  Session (rt_ses rt) = Ok lid ->
  monitorPart rt ec ch [{| wr_Err := None; wr_Events := evs |}] w =
  (_ ← loop (monitorPart_event rt ec ch lid) evs; ctxErr rt) w.
Proof.
  intros Hs. unfold monitorPart, session, mbind, ST_mbind, ST_bind, lift. cbn [loop wr_Err wr_Events].
  unfold mbind, ST_mbind, ST_bind. rewrite Hs.
  by destruct (loop (monitorPart_event rt ec ch lid) evs w) as [[[]| | | |] w1].
Qed.

Lemma told_due st n rev ch evs lists w :
  env_ok (rt_env rt) -> (forall k, e_fail (rt_env rt) k = None) -> rt_ctx rt = None -> Session (rt_ses rt) = Ok lid ->
  (1 <= rev <= st_rev st)%Z -> rep (at_rev st rev) n -> net_ok n -> Forall2 (reports rev) evs lists ->
  wf_store (store_of w) -> extends st (store_of w) ->
  tells w (lost_answer ec n ch lists) (monitorPart rt ec ch [{| wr_Err := None; wr_Events := evs |}] w).
Proof.
  intros Henv Hfail Hctx Hses Hrev Hrep Hok HF Hw Hext. rewrite monitorPart_one by done.
  destruct (says_lists rt ec Henv Hfail Hctx st rev n Hrev Hrep ch lid evs lists (ctxErr rt) HF) with w as (w'&E&_&Ho).
  - intros w1 Hw1. exists w1. unfold ctxErr, ctx_at. rewrite Hctx, app_nil_r. done.
  - by split.
  - rewrite E. by split.
Qed.

Lemma sendParts_fails ch cns rev e w :
  e_fail (rt_env rt) (cl_clock (w_cluster w)) = Some e ->
  exists w1, sendParts rt ec ch cns rev w = (Err e, w1) /\ w_out w1 = w_out w.
Proof.
  intros Hf. unfold sendParts, usersFromNicks, userKeysFromNicks, cliTxn, in_cluster, request, mbind, ST_mbind, ST_bind.
  rewrite Hf. by eexists.
Qed.

(** When requests fail, so does the report. *)
Lemma told_cancelled rev ch ev evs cns e w :
  Session (rt_ses rt) = Ok lid -> reports rev ev cns -> e_fail (rt_env rt) (cl_clock (w_cluster w)) = Some e ->
  tells w ([], Err e) (monitorPart rt ec ch [{| wr_Err := None; wr_Events := ev :: evs |}] w).
Proof.
  intros Hs (key&kv&->&Hv) Hf. rewrite monitorPart_one by done.
  destruct (sendParts_fails ch {| cns_Nicks := cns |} (rev + 1 - 1) e w Hf) as (w1&E&Ho).
  assert (monitorPart_event rt ec ch lid (EvDelete key (rev + 1) (Some kv)) w = (Err e, w1)) as E1.
  { unfold monitorPart_event. rewrite ST_bind_eq. unfold ST_bind at 1, lift. cbn [or_panic]. rewrite Hv. unfold encodeList.
    rewrite decodeChannelNicks_encode. by rewrite (ST_bind_err _ _ _ _ _ E). }
  rewrite (ST_bind_err _ _ w e w1).
  - split; [done|]. simpl. by rewrite app_nil_r.
  - cbn [loop]. by rewrite (ST_bind_err _ _ _ _ _ E1).
Qed.

End told.

Section report.
Context `{Gob Message, Gob UserValue, Gob ChannelCtl, Gob ChannelNicks, Gob OperValue}.

(** The users of the members, and their messages. *)
Lemma parted_users n (Hok : net_ok n) ch l nks ms :
  (forall nick, nick ∈ nks -> nick ∈ member_nicks n ch l) -> Forall2 (parted (fun nick => n_users n !! nick) ch) nks ms ->
  exists us, traverse (fun nick => or_panic (n_users n !! nick)) nks = Ok us /\
    (forall u, u ∈ us -> ch ∈ uv_Channels u) /\
    Forall2 (fun u m => exists user1, uv_User u !! 1 = Some user1 /\
      m = {| m_Prefix := Some {| p_Name := uv_Nick u; p_User := user1; p_Host := uv_Host u |};
             m_Command := irc.PART; m_Params := [ch; "session lost"] |}) us ms.
Proof.
  intros Hin Hm. induction Hm as [|nick m nks ms (u&user1&Hu&Hu1&->) _ IH].
  - exists []. split_and!; [done| |constructor]. by intros u ?%not_elem_of_nil.
  - destruct IH as (us&E&Hch&HF); [intros; apply Hin; by right|]. exists (u :: us). cbn [traverse].
    rewrite Hu, E. split_and!; [done| |].
    + intros u' [->|?]%elem_of_cons; [|by apply Hch].
      destruct (ok_listed n Hok _ _ _ (Hin nick ltac:(by left))) as (u2&Hu2&Hlease). simplify_eq.
      apply occurs_elem_of. rewrite (ok_channels n Hok _ _ _ Hu). apply occurs_elem_of, Hin. by left.
    + constructor; [|done]. exists user1. by rewrite (ok_nick n Hok _ _ Hu).
Qed.

(** What is due to a client of the channel whose list is the only one lost. *)
Lemma due_members ec n ch l self ms :
  net_ok n -> n_users n !! ec_nick ec = Some self -> ch ∈ uv_Channels self -> length (members n ch l) < MaxOpsPerTxn ->
  Forall2 (parted (fun nick => n_users n !! nick) ch) (member_nicks n ch l) ms ->
  lost_answer ec n ch [members n ch l] = (ms, Ok ()).
Proof.
  intros Hok Hself Hch Hlen Hms. destruct (parted_users n Hok ch l (member_nicks n ch l) ms ltac:(done) Hms) as (us&Eus&Hus&HF).
  cbn [lost_answer]. unfold net_from_nicks. rewrite length_fmap, bool_decide_false by lia.
  unfold member_nicks in Eus. rewrite Eus, Hself. cbn [mbind outcome_mbind outcome_bind or_panic after].
  pose proof (prune_shared us self ch Hch Hus) as HP. clear -HF HP. revert ms HF.
  induction HP as [|u u' us us' (chs&->) _ IH]; intros ms HF; inversion HF as [|? ? ? ? (user1&E&->)]; subst; [done|].
  cbn [part_lines]. change (uv_User (set_Channels chs u)) with (uv_User u). rewrite E. by erewrite IH.
Qed.

(** Nothing is due to a client whose own user is gone: the daemon panics. *)
Lemma due_nobody ec n ch l :
  net_ok n -> n_users n !! ec_nick ec = None -> lost_lists n l ch <> [] ->
  Forall (fun cns => length cns < MaxOpsPerTxn) (lost_lists n l ch) -> lost_answer ec n ch (lost_lists n l ch) = ([], Panic).
Proof.
  intros Hok Hself Hne Hlen. pose proof (lost_named n l ch) as Hnamed. destruct (lost_lists n l ch) as [|cns lists]; [done|].
  apply list.Forall_cons in Hlen as [Hlen _]. destruct (Hnamed cns) as [ch' Hnk]; [by left|]. cbn [lost_answer].
  destruct (traverse_lookup n (cn_Nick <$> cns)) as (us&Eus&_).
  { intros nick Hin. destruct (ok_listed _ Hok _ _ _ (Hnk nick Hin)) as (u&Hu&_). by eexists. }
  unfold net_from_nicks. rewrite length_fmap, bool_decide_false by lia. by rewrite Eus, Hself.
Qed.

(** C12: members whose session is lost are reported.  When a session ends, the watch
    of a channel's lists reports it in one response: the deletion of every list of
    the session for the channel, or for a name under it such as [#a/b] for [#a].
    From that response, whatever the others do meanwhile, a client is sent a PART
    for each user on the lists whom it may see, looked up when they were still
    there; it ends with an error at a list of 128 nicks or more, and the daemon
    panics at a user whose USER had no second parameter, and for a client whose own
    user was gone before.  In particular a client on the channel is sent one PART for
    every member, in order and invisible ones too, where the list is the only one.
    Once the client's context is cancelled, which its goroutine for messages does when
    its own user goes, requests fail and nothing is said. *)
Theorem lost_session_reported st l ch :
  reachable st -> l <> 0%Z -> l ∈ st_leases st -> stored_nicks st ch l <> [] ->
  exists n evs, rep (current st) n /\ net_ok n /\
    let resp := {| wr_Err := None; wr_Events := evs |} in
    let lists := lost_lists n l ch in
    watch_prefix (Revoke st l) (keyChanNicksPfx ch) (st_rev (Revoke st l)) = [resp] /\
    (forall rt ec lid w, Session (rt_ses rt) = Ok lid -> wf_store (store_of w) -> extends (Revoke st l) (store_of w) ->
       (env_ok (rt_env rt) -> (forall k, e_fail (rt_env rt) k = None) -> rt_ctx rt = None ->
        tells w (lost_answer ec n ch lists) (monitorPart rt ec ch [resp] w)) /\
       (forall e, e_fail (rt_env rt) (cl_clock (w_cluster w)) = Some e ->
        tells w ([], Err e) (monitorPart rt ec ch [resp] w))) /\
    (forall ec self ms, stored_user st (ec_nick ec) = Some self -> ch ∈ uv_Channels self ->
       (forall ch', is_Some (n_members n !! (ch', l)) -> subchannel ch ch' = true -> ch' = ch) ->
       length (stored_nicks st ch l) < MaxOpsPerTxn ->
       Forall2 (parted (stored_user st) ch) (stored_nicks st ch l) ms -> lost_answer ec n ch lists = (ms, Ok ())) /\
    (forall ec, stored_user st (ec_nick ec) = None -> Forall (fun cns => length cns < MaxOpsPerTxn) lists ->
       lost_answer ec n ch lists = ([], Panic)).
Proof.
  intros Hre Hl Hin Hne. destruct (reachable_net st Hre) as [Hwf (n&Hrep&Hok&_)].
  rewrite (rep_stored_nicks st n ch l Hrep) in *.
  assert (is_Some (n_members n !! (ch, l))) as Hmem.
  { unfold members in Hne. destruct (n_members n !! (ch, l)); [by eexists|done]. }
  destruct (kept_list st n l Hrep ch Hmem) as [kv Hkv].
  assert (kept_by st l <> ∅) as Hk by (intros E; rewrite E, lookup_empty in Hkv; done).
  pose proof (wf_store_rev st Hwf). pose proof (revoke_rev st l Hin Hk) as Hrev.
  pose proof (lost_reports st n l Hre Hwf Hrep Hin Hk ch (st_rev st) (eq_sym Hrev)) as HF.
  exists n, (range_events (Revoke st l) (st_rev (Revoke st l)) (keyChanNicksPfx ch)
    (Some (GetPrefixRangeEnd (keyChanNicksPfx ch)))). split_and!; [done..|]. cbv zeta. split_and!.
  - eapply watch_prefix_last; [by rewrite (revoke_snaps st l Hin Hk)|]. apply elem_of_range_events.
    exists (keyChanNicks ch l). split; [rewrite in_range_prefix; apply chan_nicks_under; by left|].
    by rewrite (revoke_event st l Hwf Hin Hk), Hkv.
  - intros rt ec lid w Hs Hw Hext. split.
    + intros Henv Hfail Hctx. apply (told_due rt ec lid (Revoke st l) n (st_rev st)); try done; [lia|].
      destruct (Revoke_ok st l Hwf) as [_ He]. rewrite (at_rev_extends st) by (done || lia). by rewrite at_rev_current.
    + intros e Hf. inversion HF as [E1 E2|ev cns evs lists Hr HF' E1 E2].
      * by destruct (lost_member n l ch Hmem).
      * by eapply told_cancelled.
  - intros ec self ms Hself Hch Honly Hlen Hms. rewrite (rep_stored_user st n _ Hrep) in Hself. rewrite length_fmap in Hlen.
    rewrite (lost_single n l ch Hmem Honly). eapply due_members; [done..|].
    eapply Forall2_impl; [|exact Hms]. intros nick m (u&user1&Hu&?&?).
    rewrite (rep_stored_user st n _ Hrep) in Hu. by exists u, user1.
  - intros ec Hself Hlen. rewrite (rep_stored_user st n _ Hrep) in Hself.
    apply due_nobody; try done. intros E. by apply (lost_member n l ch Hmem).
Qed.

End report.

(** ** Examples: the server of alice and bob is lost, then that of carol *)

Module LostDemo.
Import Demo.

Definition carol : etcdClient := client "carol".

Definition store5 : Store := Grant store4 9.
Definition store6 : Store :=
  txn store5 (register_cmps "carol") (register_ops 9 (register_value rt 9 (request_of "carol"))).
Definition store7 : Store := did (Join_txn rt carol 9 "#c") "" store6.
Definition store8 : Store := Revoke store7 7.

Lemma registered : exists tr,
  Txn store5 (register_cmps "carol") (register_ops 9 (register_value rt 9 (request_of "carol"))) [] = Ok (tr, store6).
Proof. eexists. vm_compute. reflexivity. Qed.

Lemma carol_joined : did_ok (Join_txn rt carol 9 "#c") "" store6 = true.
Proof. vm_compute. reflexivity. Qed.

Lemma reachable7 : reachable store7.
Proof.
  eapply rtc_r; [eapply rtc_r; [eapply rtc_r; [exact reachable4|]|]|].
  - by apply (s_grant _ store5 9).
  - destruct registered as [tr HT]. exact (s_register _ _ rt 9 (request_of "carol") tr HT).
  - destruct (did_commits _ _ _ carol_joined) as (v'&tr&Hc). eapply (s_join _ _ rt carol 9 "#c"); [|exact Hc].
    apply owns_b_ok. vm_compute. reflexivity.
Qed.

Lemma leases7 : bool_decide (7%Z ∈ st_leases store7) = true /\ bool_decide (9%Z ∈ st_leases store8) = true.
Proof. split; vm_compute; reflexivity. Qed.

Lemma reachable8 : reachable store8.
Proof.
  eapply rtc_r; [exact reachable7|]. apply (s_expire _ _ 7); [done| |done]. by apply (bool_decide_eq_true_1 _), leases7.
Qed.

Lemma quiet_ok : env_ok quiet_env.
Proof. by intros k st Hst. Qed.

Lemma lost7 : stored_nicks store7 "#c" 7 = ["alice"; "bob"].
Proof. vm_compute. reflexivity. Qed.

Lemma lost8 : stored_nicks store8 "#c" 9 = ["carol"] /\ stored_user store8 "alice" = None.
Proof. split; vm_compute; reflexivity. Qed.

Lemma carol_on : exists self, stored_user store7 "carol" = Some self /\ "#c" ∈ uv_Channels self.
Proof.
  assert (uv_Channels <$> stored_user store7 "carol" = Some ["#c"]) as E by (vm_compute; reflexivity).
  destruct (stored_user store7 "carol") as [self|]; [|done]. exists self. split; [done|]. injection E as ->. by left.
Qed.

Definition told_of (nick : string) : Message := {|
  m_Prefix := Some {| p_Name := nick; p_User := nick; p_Host := "" |};
  m_Command := irc.PART; m_Params := ["#c"; "session lost"] |}.

Lemma lost_parted nick : nick = "alice" \/ nick = "bob" -> parted (stored_user store7) "#c" nick (told_of nick).
Proof.
  assert (forall nick, (fun u => (uv_User u !! 1, uv_Host u)) <$> stored_user store7 nick = Some (Some nick, "") ->
    parted (stored_user store7) "#c" nick (told_of nick)) as Hp.
  { intros nk E. destruct (stored_user store7 nk) as [u|] eqn:Eu; [|done]. injection E as E1 E2.
    exists u, nk. split_and!; [done..|]. unfold told_of. by rewrite E2. }
  intros [->| ->]; apply Hp; vm_compute; reflexivity.
Qed.

(** The keys there are; each session keeps the list of one channel. *)
Definition all_keys : list string :=
  [keyUserCtl "alice"; keyUserCtl "bob"; keyUserCtl "carol"; keyUserMsg "alice"; keyUserMsg "bob"; keyUserMsg "carol";
   keyChanCtl "#c"; keyChanMsg "#c"; keyChanNicks "#c" 7; keyChanNicks "#c" 9].

Definition keys_known (st : Store) : bool := forallb (fun k => bool_decide (k ∈ all_keys)) (elements (dom (current st))).

Lemma only_list st n l :
  rep (current st) n -> keys_known st = true ->
  forall ch', is_Some (n_members n !! (ch', l)) -> subchannel "#c" ch' = true -> ch' = "#c".
Proof.
  intros Hrep Hdom ch' [cns Hm] _. pose proof (Hrep (KChanNicks ch' l)) as Hk. cbn [key_str net_at] in Hk. rewrite Hm in Hk.
  assert (keyChanNicks ch' l ∈ all_keys) as Hin.
  { unfold keys_known in Hdom. rewrite forallb_forall in Hdom. apply (bool_decide_eq_true_1 _), Hdom, list_elem_of_In.
    apply elem_of_elements, elem_of_dom. inversion Hk as [? ? _ E|]. by eexists. }
  unfold all_keys in Hin.
  repeat (apply elem_of_cons in Hin as [E|Hin]; [first [discriminate E|by apply (inj2 keyChanNicks) in E as [-> _]]|]).
  by apply not_elem_of_nil in Hin.
Qed.

Lemma keys_78 : keys_known store7 = true /\ keys_known store8 = true.
Proof. split; vm_compute; reflexivity. Qed.

(** The list of carol's session. *)
Lemma list_8 n : rep (current store8) n -> is_Some (n_members n !! ("#c", 9%Z)) /\ length (members n "#c" 9) = 1.
Proof.
  intros Hrep. pose proof (rep_stored_nicks store8 n "#c" 9 Hrep) as E. rewrite (proj1 lost8) in E. unfold members in *.
  destruct (n_members n !! _) as [cns|]; [|done]. split; [by eexists|]. apply (f_equal length) in E. by rewrite length_fmap in E.
Qed.

Definition stopped_rt : Runtime := rt_with {| e_intf := fun _ st => st; e_fail := fun _ => Some ErrCtx |} 1.

End LostDemo.

Import Demo.

Lemma lost_session_reported_witness :
  (exists evs w', watch_prefix LostDemo.store8 (keyChanNicksPfx "#c") (st_rev LostDemo.store8) = [{| wr_Err := None; wr_Events := evs |}] /\
     monitorPart rt LostDemo.carol "#c" [{| wr_Err := None; wr_Events := evs |}] (world LostDemo.store8) = (Ok (), w') /\
     w_out w' = [LostDemo.told_of "alice"; LostDemo.told_of "bob"] /\
     (monitorPart LostDemo.stopped_rt LostDemo.carol "#c" [{| wr_Err := None; wr_Events := evs |}] (world LostDemo.store8)).1 = Err ErrCtx) /\
  (exists evs, (monitorPart rt alice "#c" [{| wr_Err := None; wr_Events := evs |}] (world (Revoke LostDemo.store8 9))).1 = Panic).
Proof.
  split.
  - destruct (lost_session_reported LostDemo.store7 7 "#c" LostDemo.reachable7 ltac:(done)
      (bool_decide_eq_true_1 _ (proj1 LostDemo.leases7)) ltac:(rewrite LostDemo.lost7; done)) as (n&evs&Hrep&_&Hwatch&Htold&Hall&_).
    destruct LostDemo.carol_on as (self&Hself&Hch).
    pose proof (Hall LostDemo.carol self [LostDemo.told_of "alice"; LostDemo.told_of "bob"] Hself Hch
      (LostDemo.only_list LostDemo.store7 n 7 Hrep (proj1 LostDemo.keys_78))
      ltac:(rewrite LostDemo.lost7; unfold MaxOpsPerTxn; simpl; lia)
      ltac:(rewrite LostDemo.lost7; repeat constructor; apply LostDemo.lost_parted; auto)) as Hdue.
    pose proof (fun rt Hs => Htold rt LostDemo.carol 7%Z (world LostDemo.store8) Hs (reachable_wf _ LostDemo.reachable8)
      (reflexivity (R := extends) _)) as Ht.
    destruct (Ht rt eq_refl) as [Hlive _]. destruct (Hlive LostDemo.quiet_ok ltac:(done) eq_refl) as [E1 E2].
    rewrite Hdue in E1, E2. destruct (Ht LostDemo.stopped_rt eq_refl) as [_ Hstop]. destruct (Hstop ErrCtx eq_refl) as [E3 _].
    eexists evs, _. split; [exact Hwatch|]. split; [|split; [exact E2|exact E3]].
    cbn [snd] in E1. destruct (monitorPart rt LostDemo.carol _ _ _) as [o w1]. cbn [fst snd] in *. by subst o.
  - destruct (lost_session_reported LostDemo.store8 9 "#c" LostDemo.reachable8 ltac:(done)
      (bool_decide_eq_true_1 _ (proj2 LostDemo.leases7)) ltac:(rewrite (proj1 LostDemo.lost8); done))
      as (n&evs&Hrep&Hok&_&Htold&_&Hp). exists evs.
    destruct (Htold rt alice 7%Z (world (Revoke LostDemo.store8 9)) eq_refl
      (proj1 (Revoke_ok LostDemo.store8 9 (reachable_wf _ LostDemo.reachable8))) (reflexivity (R := extends) _)) as [Hlive _].
    destruct (Hlive LostDemo.quiet_ok ltac:(done) eq_refl) as [E _]. rewrite E, Hp; [done|exact (proj2 LostDemo.lost8)|].
    rewrite (lost_single n 9 "#c").
    + constructor; [|constructor]. rewrite (proj2 (LostDemo.list_8 n Hrep)). unfold MaxOpsPerTxn. simpl. lia.
    + exact (proj1 (LostDemo.list_8 n Hrep)).
    + exact (LostDemo.only_list LostDemo.store8 n 9 Hrep (proj2 LostDemo.keys_78)).
Defined.
