(* ===== verification/Joined.v ===== *)
(** * Joining a channel among other users

    JOIN takes effect at one instant and then answers with three more requests: the
    nicks on the channel at the revision of that instant, the users of those nicks at
    the revision the first answer came with, and the signs of the nicks as they are by
    then.  The names a client reads may so mix three moments; this file says which. *)

From S2P Require Import Prelude GoLib Mode Msg User Channel Key Etcd Stm Net Client Reify Rep Refine Server System Demo Guarantees Linear Quiet Stored Query Lost.

Section joined.
Context `{Gob Message, Gob UserValue, Gob ChannelCtl, Gob ChannelNicks, Gob OperValue}.
Context (rt : Runtime) (ec : etcdClient) (lid : Z).

Notation me := (ec_nick ec).
Notation pfx := (ec_prefix ec).
Notation reply := (reply rt ec).
Notation clock w := (cl_clock (w_cluster w)).

(** ** The context was live *)

Lemma ignored_same m w u w' : ignore_err (SendMsg rt m) w = (Ok u, w') -> w_cluster w' = w_cluster w.
Proof. unfold ignore_err, SendMsg, SendMsg_ctx. destruct (ctx_at rt _); intros ?; by simplify_eq/=. Qed.

Lemma names_live ch rev w w' : names rt ec ch rev w = (Ok (), w') -> ctx_at rt (clock w) = None.
Proof.
  intros HN. unfold names in HN. apply ST_bind_ok in HN as (us&w1&HA&HN). cbv zeta in HN.
  apply ST_bind_ok in HN as (mm&w2&HB&HN). apply ST_bind_ok in HN as ([]&w3&HC%ignored_same&HN).
  apply SendMsg_ok in HN as [HN _]. rewrite HC in HN.
  pose proof (silent_usersFromMask rt ec ch rev w) as (c1&S1&L1). rewrite HA in S1. simpl in S1.
  pose proof (silent_nameModes rt ch rev w1) as (c2&S2&L2). rewrite HB in S2. simpl in S2.
  eapply ctx_earlier; [|exact HN]. subst w2 w1. simpl in *. lia.
Qed.

(** ** Requests of a run that succeeds *)

(** What the others have made of the store when the next request is done. *)
Definition next_store (w : World) : Store := e_intf (rt_env rt) (clock w) (store_of w).

Lemma lists_ok ch rev w r w' :
  cliGetPrefix rt (keyChanNicksPfx ch) rev w = (Ok r, w') ->
  store_of w' = next_store w /\ gr_Revision r = st_rev (next_store w) /\
  gr_Kvs r = range_kvs (if (rev <=? 0)%Z then current (next_store w) else at_rev (next_store w) rev)
    (keyChanNicksPfx ch) (Some (GetPrefixRangeEnd (keyChanNicksPfx ch))).
Proof.
  unfold cliGetPrefix, cliGet, in_cluster, request. fold (store_of w). fold (next_store w).
  destruct (e_fail _ _); [done|]. unfold Get. rewrite bool_decide_false by done.
  destruct (st_rev (next_store w) <? rev)%Z; [done|]. cbn -[range_kvs]. intros E. by simplify_eq.
Qed.

(** The request for users failed, or the run is one where requests do not fail. *)
Lemma usersFromNicks_calm nicks rev w us w' :
  usersFromNicks rt ec nicks rev w = (Ok us, w') ->
  usersFromNicks (with_env {| e_intf := e_intf (rt_env rt); e_fail := fun _ => None |} rt) ec nicks rev w = (Ok us, w').
Proof.
  intros E. rewrite <-E. unfold usersFromNicks, userKeysFromNicks, cliTxn, in_cluster, request, mbind, ST_mbind, ST_bind in *.
  cbn [rt_env with_env e_intf e_fail]. by destruct (e_fail (rt_env rt) _).
Qed.

(** ** The names of a channel *)

(** The text of the names: who was listed in the first network, as far as the client
    sees them in the second, with the signs of the third. *)
Definition names_text (ch : string) (n1 n2 n3 : Net) (ns : string) : Prop :=
  exists us, net_from_nicks ec n2 (net_membernicks n1 ch) = Ok us /\
    ns = Join " " ((fun u => default "" (net_signs n3 ch !! uv_Nick u) +:+ uv_Nick u) <$> us).

Context (Hoth : others (rt_env rt) me lid).

Lemma next_steps st w : reachable st -> rtc store_step st (store_of w) ->
  rtc store_step st (next_store w) /\ reachable (next_store w).
Proof.
  intros Hre Hr. assert (reachable (store_of w)) as Hw by (unfold reaches in *; by etrans).
  pose proof (oth_steps _ _ _ _ Hoth (clock w) (store_of w) (reachable_wf _ Hw)) as Hs.
  split; [by etrans|]. unfold reaches in *. by etrans.
Qed.

(** The lists of a channel at a revision whose network is known. *)
Lemma lists_at st n ch rev w r w' :
  reachable st -> rep (current st) n ->
  (if (rev <=? 0)%Z then current (next_store w) else at_rev (next_store w) rev) = current st ->
  cliGetPrefix rt (keyChanNicksPfx ch) rev w = (Ok r, w') ->
  traverse (fun kv => or_err ErrDecode (decodeChannelNicks (kv_Value kv))) (gr_Kvs r) =
    Ok (nicksOf <$> net_memberlists n ch).
Proof.
  intros Hre Hrep E (_&_&->)%lists_ok. rewrite E. apply traverse_lists. apply range_lists; [done|].
  by eapply reachable_known.
Qed.

Lemma usersFromChannel_ok st n ch w us w' :
  reachable st -> rep (current st) n -> rtc store_step st (store_of w) ->
  usersFromChannel rt ec ch (st_rev st) w = (Ok us, w') ->
  exists st2 n2, rtc store_step st st2 /\ rep (current st2) n2 /\ net_ok n2 /\ rtc store_step st2 (store_of w') /\
    net_from_nicks ec n2 (net_membernicks n ch) = Ok us.
Proof.
  intros Hre Hrep Hr HU. unfold usersFromChannel in HU. apply ST_bind_ok in HU as (r&w1&HG&HU).
  destruct (next_steps st w Hre Hr) as [Hs2 Hre2]. destruct (lists_ok _ _ _ _ _ HG) as (Hst&Hrev&_).
  pose proof (reachable_wf _ Hre) as Hwf. pose proof (wf_store_rev st Hwf) as Hpos.
  destruct (steps_ok _ _ Hwf Hs2) as [Hwf2 Hext].
  assert (at_rev (next_store w) (st_rev st) = current st) as Eat.
  { rewrite (at_rev_extends st) by (done || lia). apply at_rev_current. }
  rewrite (lists_at st n ch (st_rev st) w r w1 Hre Hrep) in HU; [| |done].
  2: { destruct (Z.leb_spec (st_rev st) 0); [lia|done]. }
  rewrite ST_bind_eq in HU. unfold ST_bind at 1, lift in HU. rewrite concat_nicks, Hrev in HU.
  destruct (reachable_net _ Hre2) as [_ (n2&Hrep2&Hok2&_)].
  pose proof (keeps_usersFromNicks (fun s => rtc store_step (next_store w) s /\ reachable s) rt ec) as K.
  assert (rtc store_step (next_store w) (store_of w')) as Hs3.
  { specialize (fun HI => K HI (net_membernicks n ch) (st_rev (next_store w)) w1). unfold net_membernicks in K. rewrite HU in K.
    apply K; [|rewrite Hst; by split]. intros k s [Hs Hres].
    pose proof (oth_steps _ _ _ _ Hoth k s (reachable_wf _ Hres)) as Hk. split; [by etrans|]. unfold reaches in *. by etrans. }
  apply usersFromNicks_calm in HU. pose proof (wf_store_rev _ Hwf2) as Hpos2.
  destruct (gives_pastUsers (with_env {| e_intf := e_intf (rt_env rt); e_fail := fun _ => None |} rt) ec)
    with (st := next_store w) (rev := st_rev (next_store w)) (n := n2)
    (nicks := net_membernicks n ch) (w := w1) as (w2&E&_).
  - intros k s Hs. apply (others_env_ok rt ec lid Hoth k s Hs).
  - done.
  - lia.
  - by rewrite at_rev_current.
  - split; by rewrite Hst.
  - unfold net_membernicks at 1 in E. rewrite HU in E. simplify_eq. by exists (next_store w), n2.
Qed.

Lemma nameModes_ok st ch rev w mm w' :
  reachable st -> rtc store_step st (store_of w) -> nameModes rt ch rev w = (Ok mm, w') ->
  exists n, rtc store_step st (store_of w') /\ rep (current (store_of w')) n /\ net_ok n /\ mm = net_signs n ch.
Proof.
  intros Hre Hr HN. unfold nameModes in HN. apply ST_bind_ok in HN as (r&w1&HG&HN).
  destruct (next_steps st w Hre Hr) as [Hs2 Hre2]. destruct (lists_ok _ _ _ _ _ HG) as (Hst&_&_).
  destruct (reachable_net _ Hre2) as [_ (n&Hrep&Hok&_)].
  rewrite (lists_at (next_store w) n ch 0 w r w1 Hre2 Hrep eq_refl HG) in HN.
  rewrite ST_bind_eq in HN. unfold ST_bind, lift, mret, ST_ret in HN. simplify_eq. exists n. rewrite Hst.
  split_and!; [done..|]. unfold nameModes_of, net_signs. f_equal. rewrite <-list_fmap_compose. f_equal. apply list_fmap_id.
Qed.

(** The queries of [names] only let the others act; those of a channel are answered
    at three moments. *)
Lemma names_ok st1 n1 ch w w' :
  reachable st1 -> rep (current st1) n1 -> rtc store_step st1 (store_of w) ->
  ctx_at rt (clock w) = None -> isChan ch = true -> names rt ec ch (st_rev st1) w = (Ok (), w') ->
  exists st2 n2 n3 ns c, rtc store_step st1 st2 /\ rep (current st2) n2 /\ net_ok n2 /\
    rtc store_step st2 (store_of w') /\ rep (current (store_of w')) n3 /\ net_ok n3 /\ names_text ch n1 n2 n3 ns /\
    w' = add_out (reply irc.RPL_ENDOFNAMES [ch; "End of NAMES list"])
           (add_out (reply irc.RPL_NAMREPLY ["="; ch; ns]) (set_cluster c w)).
Proof.
  intros Hre Hrep Hr Hctx Hch HN. unfold names in HN. apply ST_bind_ok in HN as (us&w1&HA&HN). cbv zeta in HN.
  apply ST_bind_ok in HN as (mm&w2&HB&HN). apply ST_bind_ok in HN as ([]&w3&HC&HN).
  pose proof HC as E%ignored_same. pose proof HN as [Hlive ->]%SendMsg_ok. rewrite E in Hlive.
  unfold sendHostMsg in HC. rewrite ignore_SendMsg in HC by done. injection HC as <-.
  pose proof (silent_usersFromMask rt ec ch (st_rev st1) w) as (c1&S1&_). rewrite HA in S1. simpl in S1.
  pose proof (silent_nameModes rt ch (st_rev st1) w1) as (c2&S2&_). rewrite HB in S2. simpl in S2.
  unfold usersFromMask in HA. rewrite Hch in HA.
  destruct (usersFromChannel_ok st1 n1 ch w us w1 Hre Hrep Hr HA) as (st2&n2&Hs2&Hr2&Hok2&Hs3&Hus).
  assert (reachable st2) as Hre2 by (unfold reaches in *; by etrans).
  destruct (nameModes_ok st2 ch (st_rev st1) w1 mm w2 Hre2 Hs3 HB) as (n3&Hs4&Hr3&Hok3&->).
  exists st2, n2, n3, (Join " " ((fun u => default "" (net_signs n3 ch !! uv_Nick u) +:+ uv_Nick u) <$> us)), c2.
  split_and!; try done.
  - by exists us.
  - by rewrite S2, S1.
Qed.

(** A name that is no channel's is asked for too; nothing is promised of the answer. *)
Lemma names_any st1 ch rev w w' :
  reachable st1 -> rtc store_step st1 (store_of w) -> ctx_at rt (clock w) = None -> names rt ec ch rev w = (Ok (), w') ->
  rtc store_step st1 (store_of w') /\ exists ns c, w' = add_out (reply irc.RPL_ENDOFNAMES [ch; "End of NAMES list"])
    (add_out (reply irc.RPL_NAMREPLY ["="; ch; ns]) (set_cluster c w)).
Proof.
  intros Hre Hr Hctx HN. set (I := fun st => rtc store_step st1 st /\ reachable st).
  assert (forall k st, I st -> I (e_intf (rt_env rt) k st)) as HI.
  { intros k st [Hst Hrs]. pose proof (oth_steps _ _ _ _ Hoth k st (reachable_wf _ Hrs)) as Hs.
    split; [by etrans|]. unfold reaches in *. by etrans. }
  unfold names in HN. apply ST_bind_ok in HN as (us&w1&HA&HN). cbv zeta in HN.
  apply ST_bind_ok in HN as (mm&w2&HB&HN). apply ST_bind_ok in HN as ([]&w3&HC&HN).
  pose proof HC as E%ignored_same. pose proof HN as [Hlive ->]%SendMsg_ok. rewrite E in Hlive.
  unfold sendHostMsg in HC. rewrite ignore_SendMsg in HC by done. injection HC as <-.
  assert (I (store_of w)) as Iw by (split; [done|]; unfold reaches in *; by etrans).
  pose proof (keeps_usersFromMask I rt ec HI ch rev w Iw) as K1. rewrite HA in K1.
  pose proof (keeps_nameModes I rt HI ch rev w1 K1) as K2. rewrite HB in K2.
  pose proof (silent_usersFromMask rt ec ch rev w) as (c1&S1&_). rewrite HA in S1. simpl in S1.
  pose proof (silent_nameModes rt ch rev w1) as (c2&S2&_). rewrite HB in S2. simpl in S2.
  split; [apply K2|]. eexists _, c2. by rewrite S2, S1.
Qed.

(** The names, of a channel or not. *)
Lemma names_told st1 n1 ch w w' :
  reachable st1 -> rep (current st1) n1 -> rtc store_step st1 (store_of w) ->
  ctx_at rt (clock w) = None -> names rt ec ch (st_rev st1) w = (Ok (), w') ->
  exists ns c, rtc store_step st1 (store_of w') /\
    (isChan ch = true -> exists st2 n2 n3, rtc store_step st1 st2 /\ rep (current st2) n2 /\
       rtc store_step st2 (store_of w') /\ rep (current (store_of w')) n3 /\ names_text ch n1 n2 n3 ns) /\
    w' = add_out (reply irc.RPL_ENDOFNAMES [ch; "End of NAMES list"])
           (add_out (reply irc.RPL_NAMREPLY ["="; ch; ns]) (set_cluster c w)).
Proof.
  intros Hre Hrep Hr Hctx HN. destruct (isChan ch) eqn:Hch.
  - edestruct names_ok as (st2&n2&n3&ns&c&Hs2&Hr2&_&Hs3&Hr3&_&Ht&E); [done..|]. exists ns, c.
    split; [by etrans; [exact Hs2|]|]. split; [|exact E]. intros _. exists st2, n2, n3. by split_and!.
  - edestruct names_any as (Hs&ns&c&E); [exact Hre|exact Hr|done|exact HN|]. exists ns, c. by split_and!.
Qed.

End joined.

Section theorem.
Context `{Gob Message, Gob UserValue, Gob ChannelCtl, Gob ChannelNicks, Gob OperValue}.
Context (rt : Runtime) (ec : etcdClient) (lid : Z).

(** C5: JOIN takes effect at one instant: the channel is made if it is missing, with
    its first user as operator, and the user is on it.  It answers with the JOIN, the
    topic of that instant and the names, and the two watches of the channel start at
    the revision just after it, so that no later message of the channel is missed.
    The names of a channel ([#], [&], ...) are those on it at that instant, as the
    client may see them at a later one, each with the sign of the nick when JOIN
    returns: a user listed may have left by then, and a sign may be newer than the
    list. *)
Theorem join_linearizable ch w w' :
  connected rt ec lid w -> ClientJoin rt ec ch w = (Ok (), w') ->
  exists topic st1 n1 ns, at_instant (net_join (ec_nick ec) (ec_prefix ec) lid (rt_now rt) ch) (store_of w) st1 topic /\
    rep (current st1) n1 /\ rtc store_step st1 (store_of w') /\
    (isChan ch = true -> exists st2 n2 n3, rtc store_step st1 st2 /\ rep (current st2) n2 /\
       rtc store_step st2 (store_of w') /\ rep (current (store_of w')) n3 /\ names_text ec ch n1 n2 n3 ns) /\
    w_out w' = w_out w ++ [userMsg ec irc.JOIN [ch]; topic_reply rt ec ch topic;
      reply rt ec irc.RPL_NAMREPLY ["="; ch; ns]; reply rt ec irc.RPL_ENDOFNAMES [ch; "End of NAMES list"]] /\
    w_chCancel w' = <[ch := w_nextctx w]> (w_chCancel w) /\
    w_watches w' = w_watches w ++
      [{| wt_ctx := w_nextctx w; wt_key := keyChanMsg ch; wt_prefix := false; wt_rev := st_rev st1 + 1 |};
       {| wt_ctx := w_nextctx w; wt_key := keyChanNicksPfx ch; wt_prefix := true; wt_rev := st_rev st1 + 1 |}].
Proof.
  intros [Ho Hs Hf] HJ. unfold ClientJoin in HJ. apply ST_bind_ok in HJ as (l&w0&Hl&HJ).
  unfold session, lift in Hl. simplify_eq. rewrite (Hs l) in HJ by done. cbv zeta in HJ.
  apply ST_bind_ok in HJ as ([topic rev]&w1&HD&HJ).
  eapply (doSTM_instant rt ec lid Ho) in HD as (u&r&_&Hout&Hat&Hf1&->&Hw1&_);
    [|intros u; apply Join_implements|done|intros ? ? ?; apply join_kept|
     intros ? ? ? ? ? [? ?] ?; by eapply s_join|done].
  simpl in Hout. subst r.
  apply ST_bind_ok in HJ as ([]&w2&HA&HJ). apply ST_bind_ok in HJ as ([]&w3&HB&HJ).
  apply ST_bind_ok in HJ as ([]&w4&HN&HJ). apply ST_bind_ok in HJ as ([]&w5&HM&HJ).
  pose proof HA as EA%ignored_same.
  assert (w_cluster w3 = w_cluster w2) as EB by (unfold sendHostMsg in HB; case_bool_decide; by apply ignored_same in HB).
  pose proof (names_live rt ec ch _ w3 w4 HN) as Hlive.
  rewrite ignore_SendMsg in HA by (by rewrite <-EA, <-EB). injection HA as <-.
  assert (w3 = add_out (topic_reply rt ec ch topic) (add_out (userMsg ec irc.JOIN [ch]) w1)) as ->.
  { unfold topic_reply. unfold sendHostMsg in HB. rewrite EB in Hlive.
    case_bool_decide; rewrite ignore_SendMsg in HB by done; by simplify_eq. }
  destruct (reachable_net _ (proj1 Hf1)) as [_ (n1&Hr1&_&_)].
  destruct (names_told rt ec lid Ho (store_of w1) n1 ch (add_out _ (add_out _ w1)) w4 (proj1 Hf1) Hr1 (rtc_refl _ _) Hlive HN)
    as (ns&c&Hs4&Hnames&Ew4).
  unfold monitorChannel in HM. injection HM as Ew5. unfold ctxErr in HJ.
  destruct (ctx_at rt _); [done|]. unfold mret, ST_ret in HJ. injection HJ as Ew'. subst w' w5.
  exists topic, (store_of w1), n1, ns. split_and!; [done..|exact Hs4|exact Hnames| | |].
  all: subst w4; rewrite Hw1; simpl; by rewrite <-?app_assoc.
Qed.

End theorem.

Import Demo.

Lemma join_linearizable_witness :
  let w' := (ClientJoin LinearDemo.rt Demo.bob "#d" (Demo.world Demo.store4)).2 in
  exists topic st1 n1 ns, at_instant (net_join "bob" (ec_prefix Demo.bob) 7 100 "#d") Demo.store4 st1 topic /\
    rep (current st1) n1 /\ rtc store_step st1 (store_of w') /\
    (exists st2 n2 n3, rtc store_step st1 st2 /\ rep (current st2) n2 /\
       rtc store_step st2 (store_of w') /\ rep (current (store_of w')) n3 /\ names_text Demo.bob "#d" n1 n2 n3 ns) /\
    w_out w' = [] ++ [userMsg Demo.bob irc.JOIN ["#d"]; topic_reply LinearDemo.rt Demo.bob "#d" topic;
      reply LinearDemo.rt Demo.bob irc.RPL_NAMREPLY ["="; "#d"; ns];
      reply LinearDemo.rt Demo.bob irc.RPL_ENDOFNAMES ["#d"; "End of NAMES list"]] /\
    w_chCancel w' = <["#d" := 0]> ∅ /\
    w_watches w' = [] ++
      [{| wt_ctx := 0; wt_key := keyChanMsg "#d"; wt_prefix := false; wt_rev := st_rev st1 + 1 |};
       {| wt_ctx := 0; wt_key := keyChanNicksPfx "#d"; wt_prefix := true; wt_rev := st_rev st1 + 1 |}].
Proof.
  assert ((ClientJoin LinearDemo.rt Demo.bob "#d" (Demo.world Demo.store4)).1 = Ok ()) as E by (vm_compute; reflexivity).
  apply LinearDemo.run_ok in E.
  destruct (join_linearizable LinearDemo.rt Demo.bob 7 "#d" (Demo.world Demo.store4) _ LinearDemo.bob_connected E)
    as (topic&st1&n1&ns&Hat&Hr&Hs&Hn&Ho&Hc&Hw).
  exists topic, st1, n1, ns. split; [exact Hat|]. split; [exact Hr|]. split; [exact Hs|].
  split; [exact (Hn eq_refl)|]. split; [exact Ho|]. split; [exact Hc|exact Hw].
Defined.
