(* ===== verification/Gone.v ===== *)
(** * Clients whose user is gone

    When a session ends, its users leave the store with it; the session loop makes a
    new session, and the connections of the daemon go on under it with clients whose
    user is nobody's, until the goroutine that watches the message box of each hears
    of the removal and cancels the client's context.  This file says what that
    goroutine does, that every command fails once the context is cancelled, and what
    each command does that comes before. *)

From S2P Require Import Prelude GoLib Mode Msg User Channel Key Etcd Stm Net Client Rep Refine Server System Demo Guarantees Linear Monitor Quiet Bounds Stored Query.

(** ** The client is told, and its context is cancelled *)

Section box.
Context `{Gob Message, Gob UserValue, Gob ChannelCtl, Gob ChannelNicks, Gob OperValue}.







End box.

(** ** Once the context is cancelled *)

Section cancelled.
Context `{Gob Message, Gob UserValue, Gob ChannelCtl, Gob ChannelNicks, Gob OperValue}.
Context (rt : Runtime) (ec : etcdClient) (lid : Z) (w : World) (e : error).

(** The next request fails, as those under a cancelled context do. *)
Context (Hfail : e_fail (rt_env rt) (cl_clock (w_cluster w)) = Some e).
Context (Hatt : 0 < rt_attempts rt) (Hses : Session (rt_ses rt) = Ok lid).










End cancelled.

Section gone.
Context `{Gob Message, Gob UserValue, Gob ChannelCtl, Gob ChannelNicks, Gob OperValue}.
Context (rt : Runtime) (ec : etcdClient) (lid : Z) (w : World) (n : Net).
Context (Hun : undisturbed rt ec lid w n).

Notation me := (ec_nick ec).
Notation pfx := (ec_prefix ec).



Context (Hgone : n_users n !! me = None).


(** ** Commands that read the own user *)





(** ** Queries *)



Context (Hre : reachable (store_of w)).






End gone.

(** ** Example: the session of alice and bob ends, and their daemon makes another *)

Module GoneDemo.
Import Demo.











End GoneDemo.

Import Demo.

