(* ===== verification/Admin.v ===== *)
(** * The administration tool on the network

    What the commands of ircdctl (Ctl.v) do when nobody else writes: operators are
    added, removed and listed; a notice reaches the message key of one user or
    channel, or the one of every user. *)

From S2P Require Import Prelude GoLib Mode Msg User Channel Key Etcd Stm Net Client Rep Refine Server Ctl System Demo Guarantees Stored Query.

(** ** What the commands promise *)

Definition net_opers_listed (n : Net) : list (string * OperValue) :=
  (fun p => (keyOperCtl p.1, p.2)) <$> merge_sort (by_key keyOperCtl) (map_to_list (n_opers n)).

Definition absent (k : string) : list string := [k +:+ " does not exist"].

(** The lines printed, and the network after it. *)
Definition net_notice (text target : string) (n : Net) : list string * Net :=
  if isChan target then
    match n_chanMsg n !! target with
    | Some _ => ([], put_chanMsg target (notice (keyChanMsg target) text) n)
    | None => (absent (keyChanMsg target), n)
    end
  else
    match n_users n !! target with
    | Some _ => ([], put_userMsg target (Some (notice (keyUserMsg target) text)) n)
    | None => (absent (keyUserMsg target), n)
    end.

Definition net_notices (text : string) (n : Net) : Net :=
  set_userMsgs (map_imap (fun nick _ => Some (Some (notice (keyUserMsg nick) text))) (n_userMsg n)) n.

(** Every message box, in the order of the keys. *)
Definition net_boxes (n : Net) : list string :=
  (merge_sort (by_key keyUserMsg) (map_to_list (n_userMsg n))).*1.

Section admin.
Context `{Gob Message, Gob UserValue, Gob ChannelCtl, Gob ChannelNicks, Gob OperValue}.
Context (env : Env).

(** Nobody else acts, and the store is one of the system. *)
Record serene (c : Cluster) (n : Net) : Prop := {
  se_quiet : quiet_from env (cl_clock c);
  se_reach : reachable (cl_store c);
  se_rep : rep (current (cl_store c)) n;
  se_ok : net_ok n;
}.

(** A command has the result [o] and leaves the network [n']. *)
Definition runs {A} (m : ST Cluster A) (c : Cluster) (o : outcome A) (n' : Net) : Prop :=
  exists c', m c = (o, c') /\ serene c' n'.

Lemma runs_bind {A B} (m : ST Cluster A) (k : A -> ST Cluster B) c a n1 o n2 :
  runs m c (Ok a) n1 -> (forall c1, serene c1 n1 -> runs (k a) c1 o n2) -> runs (m ≫= k) c o n2.
Proof.
  intros (c1&E&Hs) Hk. destruct (Hk c1 Hs) as (c2&E2&?). exists c2. split; [|done].
  unfold mbind, ST_mbind, ST_bind. by rewrite E.
Qed.

Lemma runs_ret {A} (o : outcome A) c n : serene c n -> runs (lift o) c o n.
Proof. intros Hs. by exists c. Qed.

Lemma runs_mret {A} (a : A) c n : serene c n -> runs (mret a) c (Ok a) n.
Proof. intros Hs. by exists c. Qed.

(** A request that succeeds and is a step of the system, or changes nothing. *)
Lemma runs_request {A} (f : Store -> outcome (A * Store)) c n a st' n' :
  serene c n -> f (cl_store c) = Ok (a, st') -> (st' = cl_store c /\ n' = n) \/ (store_step (cl_store c) st' /\ rep (current st') n' /\ net_ok n') ->
  runs (exitOnErr (request env f)) c (Ok a) n'.
Proof.
  intros Hs E Hor. unfold runs, exitOnErr. rewrite (request_quiet env _ (se_quiet _ _ Hs) (cl_store c)) by done.
  rewrite E. eexists. split; [done|].
  assert (quiet_from env (S (cl_clock c))) as Hq by (intros k Hk; apply Hs; lia).
  destruct Hor as [[-> ->]|(Hstep&Hrep&Hok)]; split; try done; try apply Hs.
  eapply rtc_r; [apply Hs|done].
Qed.

Lemma checkOps_one op : op_key op <> "" -> checkOps [op] = Ok ().
Proof.
  intros Hk. apply (checkOps_distinct [(op_key op, op)]); [apply NoDup_singleton|by repeat constructor].
Qed.

Lemma reachable_key st k kv : reachable st -> current st !! k = Some kv -> kv_Key kv = k.
Proof. intros Hr Hk. by destruct (current_kv st k kv (reachable_wf _ Hr) Hk) as (rev&_&_&?&_). Qed.

(** ** Operators *)

Lemma oper_net_ok n opers : net_ok n -> net_ok (set_opers opers n).
Proof. intros []. by split. Qed.

Lemma runs_operMk c n login pass g :
  serene c n -> runs (runOperMk env [login; pass] g) c (Ok ()) (put_oper login {| ov_Pass := pass; ov_Global := g |} n).
Proof.
  intros Hs. unfold runOperMk. set (ov := {| ov_Pass := pass; ov_Global := g |}).
  assert (exists st', Put (cl_store c) (keyOperCtl login) (encodeOperValue ov) NoLease = Ok st') as [st' E].
  { unfold Put. rewrite checkOps_one by done. by eexists. }
  eapply runs_request; [done|by rewrite E|]. right. split; [by eapply s_operMk|].
  split; [|by apply oper_net_ok, Hs]. eapply operMk_refines; [apply reachable_wf, Hs|apply Hs|done].
Qed.

Lemma runs_operRm c n login :
  serene c n -> runs (runOperRm env [login]) c (Ok ()) (set_opers (delete login (n_opers n)) n).
Proof.
  intros Hs. unfold runOperRm.
  assert (exists st', Delete (cl_store c) (keyOperCtl login) = Ok st') as [st' E].
  { unfold Delete. rewrite checkOps_one by done. destruct (applyOp _ _ _). by eexists. }
  eapply runs_request; [done|by rewrite E|]. right. split; [by eapply s_operRm|].
  split; [|by apply oper_net_ok, Hs]. eapply operRm_refines; [apply reachable_wf, Hs|apply Hs|done].
Qed.

(** A query for a prefix. *)
Lemma runs_Get c n key rend : serene c n -> key <> "" ->
  runs (ctl_Get env key rend) c
    (Ok {| gr_Revision := st_rev (cl_store c); gr_Kvs := range_kvs (current (cl_store c)) key rend |}) n.
Proof.
  intros Hs Hk. eapply runs_request; [done| |by left]. unfold Get. rewrite bool_decide_false by done.
  pose proof (wf_store_rev _ (reachable_wf _ (se_reach _ _ Hs))).
  destruct (Z.ltb_spec (st_rev (cl_store c)) 0); [lia|]. done.
Qed.

Lemma range_opers st n : reachable st -> rep (current st) n ->
  (fun kv => (kv_Key kv, kv_Value kv)) <$> range_kvs (current st) (keyOperCtl "") (Some (GetPrefixRangeEnd (keyOperCtl ""))) =
  (fun p => (keyOperCtl p.1, encodeOperValue p.2)) <$> merge_sort (by_key keyOperCtl) (map_to_list (n_opers n)).
Proof.
  intros Hr Hrep.
  rewrite (range_listing_keys (H0 := fun _ => True_dec) keyOperCtl (n_opers n) encodeOperValue _ (fun _ => True) (current st)).
  - by rewrite filter_all.
  - intros i. apply (rep_stored st n Hrep (KOperCtl i)). simpl. by destruct (n_opers n !! i).
  - intros k Hk Hp. destruct (reachable_known st Hr k Hk) as [[i|i|i|i|i l|i] ->]; try done. by exists i.
  - intros i. rewrite HasPrefix_spec. split; [done|]. intros _. by exists i.
  - intros k kv. by apply reachable_key.
Qed.

Lemma oper_values_ok kvs l :
  (fun kv => (kv_Key kv, kv_Value kv)) <$> kvs = (fun p => (keyOperCtl p.1, encodeOperValue p.2)) <$> l ->
  oper_values kvs = Ok ((fun p => (keyOperCtl p.1, p.2)) <$> l).
Proof.
  revert l. induction kvs as [|kv kvs IH]; intros [|[login ov] l] E; try done.
  injection E as Ek Ev El. cbn [oper_values]. rewrite Ev, decodeOperValue_encode, (IH l El). simpl. by rewrite Ek.
Qed.

Lemma runs_operLs c n : serene c n -> runs (runOperLs env) c (Ok (net_opers_listed n)) n.
Proof.
  intros Hs. unfold runOperLs. eapply runs_bind; [by apply runs_Get|]. intros c1 Hs1. cbn [gr_Kvs].
  rewrite (oper_values_ok _ _ (range_opers _ n (se_reach _ _ Hs) (se_rep _ _ Hs))). by apply runs_ret.
Qed.

(** ** Notices *)

(** The transaction of a notice goes through. *)
Lemma notice_txn st k text : wf_store st -> k <> "" -> exists tr st',
  Txn st (notice_cmps k) [OpPut k (encodeMessage (notice k text)) WithIgnoreLease] [] = Ok (tr, st') /\
  tr_Succeeded tr = bool_decide (is_Some (current st !! k)).
Proof.
  intros Hw Hk.
  assert (forallb (applyCompare (current st)) (notice_cmps k) = bool_decide (is_Some (current st !! k))) as Ec.
  { unfold notice_cmps. cbn [forallb]. by rewrite andb_true_r, compare_version. }
  unfold Txn, checkTxnRequest. rewrite Ec. cbn [length notice_cmps].
  rewrite !(bool_decide_false (MaxOpsPerTxn < _)) by (unfold MaxOpsPerTxn; lia).
  cbn [existsb cmp_Key orb notice_cmps]. rewrite (bool_decide_false (k = "")), checkOps_one by done.
  assert (checkOps [] = Ok ()) as -> by done.
  cbn -[applyOps checkAll]. case_bool_decide as Hs.
  - unfold checkAll. cbn -[applyOps]. rewrite bool_decide_false by (by destruct Hs as [? ->]).
    cbn -[applyOps]. destruct (applyOps _ _ _). by eexists _, _.
  - by eexists _, _.
Qed.

(** One notice, to an entity of the network. *)
Lemma runs_msgf c n (k : Key) n' text : serene c n -> key_str k <> "" ->
  (forall v z, net_at n k = Some (v, z) -> forall k', net_at n' k' =
     if decide (k' = k) then Some (encodeMessage (notice (key_str k) text), z) else net_at n k') ->
  (net_at n k <> None -> net_ok n') ->
  (forall tr st', Txn (cl_store c) (notice_cmps (key_str k))
     [OpPut (key_str k) (encodeMessage (notice (key_str k) text)) WithIgnoreLease] [] = Ok (tr, st') ->
     store_step (cl_store c) st') ->
  runs (msgf env text (key_str k)) c
    (Ok (match net_at n k with Some _ => [] | None => absent (key_str k) end))
    (match net_at n k with Some _ => n' | None => n end).
Proof.
  intros Hs Hk Hput Hok Hstep. pose proof (reachable_wf _ (se_reach _ _ Hs)) as Hw.
  destruct (notice_txn (cl_store c) (key_str k) text Hw Hk) as (tr&st'&HT&Htr).
  pose proof (notice_refines _ n k _ tr st' n' Hw (se_rep _ _ Hs) Hput HT) as Hno.
  assert (tr_Succeeded tr = match net_at n k with Some _ => true | None => false end) as Es.
  { rewrite Htr. pose proof (se_rep _ _ Hs k) as Hr. destruct (net_at n k).
    - apply bool_decide_eq_true. inversion Hr. by eexists.
    - apply bool_decide_eq_false. inversion Hr. by intros []. }
  unfold msgf. eapply (runs_bind _ _ _ tr (match net_at n k with Some _ => n' | None => n end)).
  - eapply runs_request; [done|exact HT|]. rewrite Es in Hno. destruct (net_at n k); [right|by left].
    destruct Hno as [Hne Hrep]. split; [by eapply Hstep|]. split; [done|by apply Hok].
  - intros c1 Hs1. rewrite Es. destruct (net_at n k); by apply runs_mret.
Qed.

Lemma user_box n nick : net_ok n ->
  net_at n (KUserMsg nick) = None <-> n_users n !! nick = None.
Proof.
  intros Hn. pose proof (ok_userMsg _ Hn nick) as Hi. simpl. rewrite fmap_None.
  rewrite !eq_None_not_Some, Hi. done.
Qed.

Lemma runs_msgf_user c n nick text : serene c n ->
  runs (msgf env text (keyUserMsg nick)) c
    (Ok (match n_users n !! nick with Some _ => [] | None => absent (keyUserMsg nick) end))
    (match n_users n !! nick with
     | Some _ => put_userMsg nick (Some (notice (keyUserMsg nick) text)) n | None => n end).
Proof.
  intros Hs. pose proof (user_box n nick (se_ok _ _ Hs)) as Hbox.
  pose proof (runs_msgf c n (KUserMsg nick) (put_userMsg nick (Some (notice (keyUserMsg nick) text)) n) text) as Hm.
  destruct (n_users n !! nick) as [uv|] eqn:Hu.
  - destruct (net_at n (KUserMsg nick)) eqn:E; [|discriminate (proj1 Hbox eq_refl)].
    apply Hm; try done.
    + intros v z Hz. eapply net_at_userMsg; by rewrite E.
    + intros _. apply ok_put_userMsg; [apply Hs|by eexists].
    + intros tr st'. apply s_notice.
  - destruct (net_at n (KUserMsg nick)) eqn:E; [discriminate (proj2 Hbox eq_refl)|].
    apply Hm; try done. intros tr st'. apply s_notice.
Qed.

Lemma runs_msgf_chan c n ch text : serene c n ->
  runs (msgf env text (keyChanMsg ch)) c
    (Ok (match n_chanMsg n !! ch with Some _ => [] | None => absent (keyChanMsg ch) end))
    (match n_chanMsg n !! ch with
     | Some _ => put_chanMsg ch (notice (keyChanMsg ch) text) n | None => n end).
Proof.
  intros Hs. pose proof (runs_msgf c n (KChanMsg ch) (put_chanMsg ch (notice (keyChanMsg ch) text) n) text) as Hm.
  simpl in Hm. destruct (n_chanMsg n !! ch) eqn:E; apply Hm; try done.
  - intros v z Hz. eapply net_at_chanMsg. simpl. by rewrite E.
  - intros _. apply ok_put_chanMsg, Hs.
  - intros tr st'. apply s_noticeChan.
  - intros tr st'. apply s_noticeChan.
Qed.

Lemma runs_notice_one c n text target : serene c n -> target <> "" ->
  runs (runNotice env [text] target) c (Ok (net_notice text target n).1) (net_notice text target n).2.
Proof.
  intros Hs Ht. unfold runNotice, net_notice. rewrite bool_decide_false by done. simpl. destruct (isChan target).
  - pose proof (runs_msgf_chan c n target text Hs). by destruct (n_chanMsg n !! target).
  - pose proof (runs_msgf_user c n target text Hs). by destruct (n_users n !! target).
Qed.

(** Notices to the given users, one after the other. *)
Definition put_notices (text : string) (nicks : list string) (n : Net) : Net :=
  foldl (fun n nick => put_userMsg nick (Some (notice (keyUserMsg nick) text)) n) n nicks.

Lemma runs_msgfs c n text nicks :
  serene c n -> Forall (fun nick => is_Some (n_users n !! nick)) nicks ->
  runs (msgfs env text (keyUserMsg <$> nicks)) c (Ok []) (put_notices text nicks n).
Proof.
  revert c n. induction nicks as [|nick nicks IH]; intros c n Hs Hu; [by apply runs_mret|].
  apply list.Forall_cons in Hu as [[uv Hnick] Hu]. rewrite fmap_cons. cbn [msgfs].
  pose proof (runs_msgf_user c n nick text Hs) as Hm. rewrite Hnick in Hm.
  eapply runs_bind; [exact Hm|]. intros c1 Hs1. eapply runs_bind; [by apply IH|]. intros c2 Hs2. by apply runs_mret.
Qed.

Lemma put_notices_all text nicks n :
  (forall nick, nick ∈ nicks <-> is_Some (n_userMsg n !! nick)) -> put_notices text nicks n = net_notices text n.
Proof.
  intros Hin.
  assert (forall l n0, put_notices text l n0 = set_userMsgs (n_userMsg (put_notices text l n0)) n0) as Hset.
  { intros l. induction l as [|nick l IH]; intros n0; [by destruct n0|]. cbn [put_notices foldl].
    change (foldl _ ?y l) with (put_notices text l y). by rewrite IH. }
  assert (forall l n0 nick, n_userMsg (put_notices text l n0) !! nick =
    if decide (nick ∈ l) then Some (Some (notice (keyUserMsg nick) text)) else n_userMsg n0 !! nick) as Hlook.
  { intros l. induction l as [|x l IH]; intros n0 nick; [done|]. cbn [put_notices foldl].
    change (foldl _ ?y l) with (put_notices text l y). rewrite IH. destruct (decide (nick ∈ l)) as [Hl|Hl].
    - by rewrite decide_True by (by right).
    - simpl. destruct (decide (nick = x)) as [->|Hne].
      + rewrite lookup_insert_eq, decide_True by left. done.
      + rewrite lookup_insert_ne, decide_False by (done || set_solver). done. }
  rewrite Hset. unfold net_notices. f_equal. apply map_eq. intros nick. rewrite Hlook, map_lookup_imap.
  destruct (decide (nick ∈ nicks)) as [[m E]%Hin|Hn]; [by rewrite E|].
  destruct (n_userMsg n !! nick) eqn:E; [|done]. destruct Hn. apply Hin. by eexists.
Qed.

Lemma range_boxes st n : reachable st -> rep (current st) n ->
  kv_Key <$> range_kvs (current st) (keyUserMsg "") (Some (GetPrefixRangeEnd (keyUserMsg ""))) =
  keyUserMsg <$> net_boxes n.
Proof.
  intros Hr Hrep.
  set (enc := fun m : option Message => match m with Some m => encodeMessage m | None => "" end).
  pose proof (range_listing_keys (H0 := fun _ => True_dec) keyUserMsg (n_userMsg n) enc (keyUserMsg "") (fun _ => True) (current st)) as Hl.
  assert (forall kvs (l : list (string * option Message)),
    (fun kv => (kv_Key kv, kv_Value kv)) <$> kvs = (fun p => (keyUserMsg p.1, enc p.2)) <$> l ->
    kv_Key <$> kvs = keyUserMsg <$> l.*1) as Hfst.
  { intros kvs l E. pose proof (f_equal (fmap fst) E) as E'. by rewrite <-!list_fmap_compose in *. }
  apply Hfst. rewrite Hl.
  - by rewrite filter_all.
  - intros i. apply (rep_stored st n Hrep (KUserMsg i)). simpl. unfold enc. by destruct (n_userMsg n !! i) as [[]|].
  - intros k Hk Hp. destruct (reachable_known st Hr k Hk) as [[i|i|i|i|i l|i] ->]; try done. by exists i.
  - intros i. rewrite HasPrefix_spec. split; [done|]. intros _. by exists i.
  - intros k kv. by apply reachable_key.
Qed.

Lemma boxes_users n : net_ok n -> Forall (fun nick => is_Some (n_users n !! nick)) (net_boxes n).
Proof.
  intros Hn. apply list.Forall_forall. intros nick ([x m]&->&Hin)%list_elem_of_fmap.
  rewrite (merge_sort_Permutation _), elem_of_map_to_list in Hin. rewrite (ok_userMsg _ Hn). by eexists.
Qed.

Lemma elem_of_boxes n nick : nick ∈ net_boxes n <-> is_Some (n_userMsg n !! nick).
Proof.
  unfold net_boxes. rewrite list_elem_of_fmap. split.
  - intros ([x m]&->&Hin). rewrite (merge_sort_Permutation _), elem_of_map_to_list in Hin. by eexists.
  - intros [m Hm]. exists (nick, m). by rewrite (merge_sort_Permutation _), elem_of_map_to_list.
Qed.

Lemma runs_msgfs_all c n text nicks : serene c n -> nicks ≡ₚ net_boxes n ->
  runs (msgfs env text (keyUserMsg <$> nicks)) c (Ok []) (net_notices text n).
Proof.
  intros Hs Hp. rewrite <-(put_notices_all text nicks) by (intros nick; by rewrite Hp, elem_of_boxes).
  apply runs_msgfs; [done|]. rewrite Hp. by apply boxes_users, Hs.
Qed.

Lemma runs_notice_all c n text : serene c n ->
  runs (runNotice env [text] "") c (Ok []) (net_notices text n).
Proof.
  intros Hs. unfold runNotice. rewrite bool_decide_true by done. cbn [negb].
  eapply runs_bind; [by apply runs_Get|]. intros c1 Hs1. cbn [gr_Kvs].
  rewrite (range_boxes _ n (se_reach _ _ Hs) (se_rep _ _ Hs)). by apply runs_msgfs_all.
Qed.

(** C20: what ircdctl does when nobody else writes: [oper mk] and [oper rm] store
    and remove an operator, [oper ls] prints every operator in the order of the
    keys, a notice to a target becomes the last message of that user or channel
    or is reported as having nowhere to go, a notice without a target becomes the
    last message of every user in whatever order the goroutines write it, and a
    wrong number of arguments exits the process without a request. *)
Theorem admin_exact c n :
  serene c n ->
  (forall login pass g,
     runs (runOperMk env [login; pass] g) c (Ok ()) (put_oper login {| ov_Pass := pass; ov_Global := g |} n)) /\
  (forall login, runs (runOperRm env [login]) c (Ok ()) (set_opers (delete login (n_opers n)) n)) /\
  runs (runOperLs env) c (Ok (net_opers_listed n)) n /\
  (forall text target, target <> "" ->
     runs (runNotice env [text] target) c (Ok (net_notice text target n).1) (net_notice text target n).2) /\
  (forall text, runs (runNotice env [text] "") c (Ok []) (net_notices text n)) /\
  (forall text nicks, nicks ≡ₚ net_boxes n ->
     runs (msgfs env text (keyUserMsg <$> nicks)) c (Ok []) (net_notices text n)) /\
  (forall args g, length args <> 2 -> runOperMk env args g c = (Exit, c)) /\
  (forall args, length args <> 1 -> runOperRm env args c = (Exit, c)) /\
  (forall args target, length args <> 1 -> runNotice env args target c = (Exit, c)).
Proof.
  intros Hs. split_and!.
  - intros. by apply runs_operMk.
  - intros. by apply runs_operRm.
  - by apply runs_operLs.
  - intros. by apply runs_notice_one.
  - intros. by apply runs_notice_all.
  - intros. by apply runs_msgfs_all.
  - by intros [|? [|? []]] ? ?.
  - by intros [|? []] ?.
  - by intros [|? []] ? ?.
Qed.

End admin.

(** ** A computed example *)

Module AdminDemo.

Import Demo.

Lemma serene_at st : reachable st -> exists n, serene quiet_env (w_cluster (world st)) n.
Proof.
  intros Hst. destruct (reachable_net st Hst) as (Hw&n&Hrep&Hn&_). exists n. by split.
Qed.

End AdminDemo.

Import Demo.

Lemma admin_exact_witness :
  exists n, serene quiet_env (w_cluster (world store4)) n /\
    runs quiet_env (runNotice quiet_env ["hi"] "") (w_cluster (world store4)) (Ok []) (net_notices "hi" n).
Proof.
  destruct (AdminDemo.serene_at store4 reachable4) as [n Hn]. exists n. split; [exact Hn|].
  exact (proj1 (proj2 (proj2 (proj2 (proj2 (admin_exact quiet_env (w_cluster (world store4)) n Hn))))) "hi").
Defined.
