(* ===== verification/Renewed.v ===== *)
(** * A session replaced under a connected client

    A daemon whose session ends, or seems to end, makes a new one and goes on
    serving its connections, without asking which session registered their users.
    Commands that name the session ([Free] in System.v) then write under the new one
    what the old one keeps the rest of.  This file says what they leave. *)

From S2P Require Import Prelude GoLib Mode Msg User Channel Key Etcd Stm Net Client Rep Refine Server System Demo.

Section renewed.
Context `{Gob Message, Gob UserValue, Gob ChannelCtl, Gob ChannelNicks, Gob OperValue}.
Context (rt : Runtime) (ec : etcdClient) (l : Z) (st : Store).

Notation me := (ec_nick ec).

(** What a JOIN writes to the keys of its user: the value, under the session it
    acts under, and not the message box. *)
Lemma Join_puts ch v v' ws :
  arun (Join_txn rt ec l ch v) (current st) ∅ = (Ok v', ws) ->
  (exists val, sp_op <$> ws !! keyUserCtl me = Some (OpPut (keyUserCtl me) val (WithLease l))) /\
  ws !! keyUserMsg me = None.
Proof.
  intros E. unfold Join_txn in E. cbv zeta in E.
  rewrite arun_bind, arun_Get, arun_bind, arun_decode in E. destruct (decodeUserValue _) as [uv|]; [|done].
  cbn [or_err] in E. rewrite arun_bind, arun_Put, arun_bind, arun_Get, arun_bind in E.
  destruct (arun (if bool_decide _ then _ else _) _ _) as [[cc|e| | |] ws1] eqn:E1; try done.
  assert (ws1 = <[keyUserCtl me := {| sp_val := encodeUserValue (set_Channels (uv_Channels uv ++ [ch]) uv);
    sp_op := OpPut (keyUserCtl me) (encodeUserValue (set_Channels (uv_Channels uv ++ [ch]) uv)) (WithLease l) |}]> ∅)
    as -> by (revert E1; case_bool_decide; [rewrite arun_mret|rewrite arun_decode]; by intros [= _ <-]). clear E1.
  rewrite arun_bind, arun_Put, arun_bind, arun_Get, arun_bind in E.
  destruct (arun (if bool_decide _ then _ else _) _ _) as [[cns|e| | |] ws2] eqn:E2; try done.
  assert (ws2 = <[keyChanCtl ch := {| sp_val := encodeChannelCtl cc; sp_op := OpPut (keyChanCtl ch) (encodeChannelCtl cc) NoLease |}]>
    (<[keyUserCtl me := {| sp_val := encodeUserValue (set_Channels (uv_Channels uv ++ [ch]) uv);
    sp_op := OpPut (keyUserCtl me) (encodeUserValue (set_Channels (uv_Channels uv ++ [ch]) uv)) (WithLease l) |}]> ∅))
    as -> by (revert E2; case_bool_decide; [rewrite arun_mret|rewrite arun_decode]; by intros [= _ <-]). clear E2.
  rewrite arun_bind, arun_Rev, arun_bind, arun_Put, arun_bind, arun_Put, arun_mret in E. injection E as _ <-.
  split; [|by rewrite !lookup_insert_ne by key_discriminate].
  rewrite !lookup_insert_ne by key_discriminate. rewrite lookup_insert_eq. by eexists.
Qed.

(** The pairs of the user after it. *)
Lemma Join_leaves ch v v' tr st' :
  wf_store st -> commits (Join_txn rt ec l ch) v st v' tr st' ->
  (exists kv, current st' !! keyUserCtl me = Some kv /\ kv_Lease kv = l) /\
  current st' !! keyUserMsg me = current st !! keyUserMsg me.
Proof.
  intros Hw Hc. destruct (commits_current _ _ _ _ _ _ Hw Hc) as (ws&E&->).
  destruct (Join_puts ch v v' ws E) as [[val Hu] Hm]. rewrite !lookup_view, Hm. split; [|done].
  destruct (ws !! keyUserCtl me) as [p|]; [|done]. injection Hu as ->. simpl. by eexists.
Qed.

(** Who is on a channel, by the network. *)
Lemma stored_list n ch z : represents Free (current st) n -> stored_nicks st ch z = member_nicks n ch z.
Proof. intros Hr. by eapply rep_stored_nicks. Qed.

Lemma listed_put (n : Net) ch z x y cns :
  members (put_members (x, y) cns n) ch z = if decide ((ch, z) = (x, y)) then cns else members n ch z.
Proof.
  unfold members. simpl. case_decide as E; [rewrite E; by rewrite lookup_insert_eq|by rewrite lookup_insert_ne by congruence].
Qed.

(** QUIT leaves the lists of the other sessions. *)
Lemma quit_members msg pfx chs n ch z :
  z <> l -> members (foldl (quit_one me pfx l msg) n chs) ch z = members n ch z.
Proof.
  intros Hz. apply (foldl_inv (fun n' => members n' ch z = members n ch z)); [|done].
  intros a c _ Ha. unfold quit_one. destruct (n_members a !! (c, l)) as [cns|]; [|done].
  change (members (put_members (c, l) (drop_nick me cns) a) ch z = members n ch z).
  rewrite listed_put, decide_False by congruence. exact Ha.
Qed.

Context (uv : UserValue) (Hreach : reaches Free st) (Huser : stored_user st me = Some uv) (Hother : uv_Lease uv <> l).

(** Whatever lists the session of the user has, commands under another leave. *)
Definition lists_kept (st' : Store) : Prop :=
  forall ch, stored_nicks st' ch (uv_Lease uv) = stored_nicks st ch (uv_Lease uv).

Lemma kept_lists n n' st' :
  represents Free (current st) n -> represents Free (current st') n' ->
  (forall ch, members n' ch (uv_Lease uv) = members n ch (uv_Lease uv)) -> lists_kept st'.
Proof.
  intros Hr Hr' Hm ch. rewrite (rep_stored_nicks _ _ _ _ Hr'), (rep_stored_nicks _ _ _ _ Hr). by rewrite Hm.
Qed.

(** The commit of a command, on the network. *)
Lemma commit_net {V R} (f : V -> stm V) v st' v' tr pre (spec : Net -> option (R * Net)) out wr :
  implements_in Free l (f v) pre spec out wr -> (forall n, net_sound n -> pre n) -> commits f v st v' tr st' ->
  exists n r n', net_sound n /\ represents Free (current st) n /\ n_users n !! me = Some uv /\
    spec n = Some (r, n') /\ represents Free (current st') n'.
Proof.
  intros Hi Hpre Hc. destruct (reaches_net st Hreach) as [Hw (n&Hrep&Hso&_)].
  destruct (commits_step _ _ _ _ _ _ _ _ _ _ _ _ Hi Hw Hrep (Hpre n Hso) Hc) as (r&n'&Hs&_&Hrep').
  exists n, r, n'. split_and!; try done. by rewrite <-(rep_stored_user _ _ _ Hrep).
Qed.

Lemma renewed_join ch v v' tr st' :
  commits (Join_txn rt ec l ch) v st v' tr st' ->
  lists_kept st' /\ stored_user st' me = Some (set_Channels (uv_Channels uv ++ [ch]) uv) /\
  stored_nicks st' ch l = stored_nicks st ch l ++ [me].
Proof.
  intros Hc. eapply commit_net in Hc as (n&t&n'&Hso&Hrep&Hu&Hs&Hrep'); [|apply Join_implements|done].
  unfold net_join in Hs. rewrite Hu in Hs. simpl in Hs.
  destruct (match n_chans n !! ch with Some _ => _ | None => _ end) as [chv mode]. injection Hs as _ <-.
  pose proof (so_nick _ Hso _ _ Hu) as Hme.
  assert (forall c z, members (put_chanMsg ch (from_me (ec_prefix ec) irc.JOIN [ch])
      (put_members (ch, l) (members n ch l ++ [{| cn_Nick := uv_Nick uv; cn_Mode := mode |}])
      (put_chan ch chv (put_user me (set_Channels (uv_Channels uv ++ [ch]) uv) n)))) c z =
    if decide ((c, z) = (ch, l)) then members n ch l ++ [{| cn_Nick := uv_Nick uv; cn_Mode := mode |}] else members n c z)
    as Hm by (intros c z; exact (listed_put (put_chan ch chv (put_user me _ n)) c z ch l _)).
  split_and!.
  - eapply kept_lists; [done..|]. intros c. rewrite Hm, decide_False by congruence. done.
  - rewrite (rep_stored_user _ _ _ Hrep'). simpl. by rewrite lookup_insert_eq.
  - rewrite (rep_stored_nicks _ _ _ _ Hrep'), (rep_stored_nicks _ _ _ _ Hrep), Hm, decide_True by done.
    by rewrite fmap_app, <-Hme.
Qed.

(** The end of the old session. *)
Lemma renewed_end ch v v' tr st' box :
  commits (Join_txn rt ec l ch) v st v' tr st' ->
  current st !! keyUserMsg me = Some box -> kv_Lease box = uv_Lease uv -> uv_Lease uv ∈ st_leases st' ->
  current (Revoke st' (uv_Lease uv)) !! keyUserMsg me = None /\
  stored_user (Revoke st' (uv_Lease uv)) me = stored_user st' me.
Proof.
  intros Hc Hbox Hlease Hin.
  destruct (Join_leaves ch v v' tr st' (reaches_wf _ Hreach) Hc) as [(kv&Hkv&Hl) Hb].
  unfold stored_user. rewrite current_Revoke, !lookup_without, Hb, Hbox, Hkv by done.
  by rewrite decide_True, decide_False by congruence.
Qed.

Lemma renewed_part ch msg v v' tr st' :
  ch ∈ uv_Channels uv -> commits (Part_txn ec l ch msg) v st v' tr st' ->
  lists_kept st' /\ stored_user st' me = Some (drop_channel ch uv).
Proof.
  intros Hch Hc. eapply commit_net in Hc as (n&r&n'&Hso&Hrep&Hu&Hs&Hrep'); [|apply Part_implements|done].
  unfold net_part in Hs. rewrite Hu in Hs. simpl in Hs. rewrite bool_decide_true in Hs by done. injection Hs as _ <-.
  split.
  - eapply kept_lists; [done..|]. intros c. unfold drop_member. cbn [n_members put_user set_users].
    destruct (n_members n !! (ch, l)) as [cns|]; [|done].
    transitivity (members (put_members (ch, l) (drop_nick me cns) n) c (uv_Lease uv)); [done|].
    rewrite listed_put, decide_False by congruence. done.
  - rewrite (rep_stored_user _ _ _ Hrep'). unfold drop_member. cbn [n_members put_user set_users].
    destruct (n_members n !! (ch, l)); simpl; by rewrite lookup_insert_eq.
Qed.

Lemma renewed_quit msg v v' tr st' :
  Session (rt_ses rt) = Ok l -> commits (Quit_txn rt ec msg) v st v' tr st' ->
  lists_kept st' /\ stored_user st' me = None.
Proof.
  intros Hs Hc. eapply commit_net in Hc as (n&r&n'&Hso&Hrep&Hu&Hq&Hrep'); [|by apply Quit_implements|done].
  unfold net_quit in Hq. rewrite Hu in Hq. simpl in Hq. injection Hq as <- <-. split.
  - eapply kept_lists; [done..|]. intros c.
    transitivity (members (foldl (quit_one me (ec_prefix ec) l msg) n (uv_Channels uv)) c (uv_Lease uv)); [reflexivity|].
    by apply quit_members.
  - rewrite (rep_stored_user _ _ _ Hrep'). simpl. by rewrite lookup_delete_eq.
Qed.

(** C40: a session replaced under a connected client splits what the store has of
    it.  A client whose user another session registered acts under the new one, and
    nothing refuses it.  A JOIN lists the nick with the new session, while the
    user's value goes on to name the old one, whose list does not have it: the two
    records of who is on the channel no longer agree.  The user now lives with the
    new session and its message box with the old: when the old one ends, the nick
    stays taken by a user nobody can send to.  PART and QUIT under the new session
    leave the nick on the lists of the old one, QUIT even though the user is gone. *)
Theorem renewed_session_splits :
  (forall ch v v' tr st', commits (Join_txn rt ec l ch) v st v' tr st' ->
     reaches Free st' /\ lists_kept st' /\
     stored_user st' me = Some (set_Channels (uv_Channels uv ++ [ch]) uv) /\
     stored_nicks st' ch l = stored_nicks st ch l ++ [me] /\
     (occurs ch (uv_Channels uv) = occurs me (stored_nicks st ch (uv_Lease uv)) ->
      occurs ch (uv_Channels uv ++ [ch]) <> occurs me (stored_nicks st' ch (uv_Lease uv))) /\
     (forall box, current st !! keyUserMsg me = Some box -> kv_Lease box = uv_Lease uv ->
      uv_Lease uv ∈ st_leases st' ->
      current (Revoke st' (uv_Lease uv)) !! keyUserMsg me = None /\
      stored_user (Revoke st' (uv_Lease uv)) me = stored_user st' me)) /\
  (forall ch msg v v' tr st', ch ∈ uv_Channels uv -> commits (Part_txn ec l ch msg) v st v' tr st' ->
     lists_kept st' /\ stored_user st' me = Some (drop_channel ch uv)) /\
  (forall msg v v' tr st', Session (rt_ses rt) = Ok l -> commits (Quit_txn rt ec msg) v st v' tr st' ->
     lists_kept st' /\ stored_user st' me = None).
Proof.
  split_and!; [|by apply renewed_part|by apply renewed_quit].
  intros ch v v' tr st' Hc. destruct (renewed_join ch v v' tr st' Hc) as (Hk&Hu&Hn). split_and!; try done.
  - eapply rtc_r; [exact Hreach|]. by apply (s_join _ _ rt ec l ch v v' tr).
  - rewrite (Hk ch), occurs_app. intros ->. simpl. rewrite decide_True by done. lia.
  - intros box. by apply (renewed_end ch v v' tr).
Qed.

End renewed.

(** ** Example: the daemon of alice has session 8 while session 7 is still there *)

Module RenewedDemo.
Import Demo.

Definition rt8 : Runtime := {|
  rt_env := quiet_env; rt_attempts := 1; rt_ses := {| es_s := Some 8%Z; es_ready := true; es_ctx := None |};
  rt_ctx := None; rt_cliCtx := None; rt_now := 200; rt_cfg := NewConfig; rt_created := "now";
  rt_spare := fun n => n; rt_sched := fun _ => [] |}.

Definition store5 : Store := Grant store4 8.
Definition store6 : Store := did (Join_txn rt8 alice 8 "#d") "" store5.
Definition left : Store := did (Quit_txn rt8 alice "bye") () store5.

Lemma reachable_split : reaches Free store5.
Proof. eapply rtc_r; [exact (reachable_free _ reachable4)|]. by eapply s_grant. Qed.

Definition alice_value : UserValue := set_Channels ["#c"] (register_value rt 7 (request_of "alice")).

Lemma alice_stored : stored_user store5 "alice" = Some alice_value.
Proof. vm_compute. reflexivity. Qed.

Lemma alice_joins : did_ok (Join_txn rt8 alice 8 "#d") "" store5 = true.
Proof. vm_compute. reflexivity. Qed.

Lemma alice_quits : did_ok (Quit_txn rt8 alice "bye") () store5 = true.
Proof. vm_compute. reflexivity. Qed.

Lemma box_of_7 : exists box, current store5 !! keyUserMsg "alice" = Some box /\ kv_Lease box = 7%Z.
Proof.
  assert (kv_Lease <$> current store5 !! keyUserMsg "alice" = Some 7%Z) as E by (vm_compute; reflexivity).
  destruct (current store5 !! keyUserMsg "alice") as [box|]; [|done]. exists box. split; [done|]. by injection E.
Qed.

Lemma lease_7 : 7%Z ∈ st_leases store6.
Proof. apply (bool_decide_unpack _). vm_compute. exact I. Qed.

End RenewedDemo.

Import Demo.

(** alice is on #d with session 8 and her value names session 7; when that ends she
    is still there, without a box.  After a QUIT under session 8 she is gone, and #c
    still lists her. *)
Lemma renewed_session_splits_witness :
  stored_nicks RenewedDemo.store6 "#d" 8 = ["alice"] /\ stored_nicks RenewedDemo.store6 "#d" 7 = [] /\
  (exists uv, stored_user (Revoke RenewedDemo.store6 7) "alice" = Some uv /\ uv_Lease uv = 7%Z) /\
  current (Revoke RenewedDemo.store6 7) !! keyUserMsg "alice" = None /\
  stored_user RenewedDemo.left "alice" = None /\
  stored_nicks RenewedDemo.left "#c" 7 = stored_nicks RenewedDemo.store5 "#c" 7.
Proof.
  destruct (renewed_session_splits RenewedDemo.rt8 alice 8 RenewedDemo.store5 RenewedDemo.alice_value
    RenewedDemo.reachable_split RenewedDemo.alice_stored) as (HJ&_&HQ); [discriminate|].
  destruct (did_commits _ _ _ RenewedDemo.alice_joins) as (v'&tr&Hc).
  destruct (HJ "#d" "" v' tr RenewedDemo.store6 Hc) as (_&Hk&Hu&Hn&_&He).
  destruct (did_commits _ _ _ RenewedDemo.alice_quits) as ([]&tr2&Hc2).
  destruct (HQ "bye" () () tr2 RenewedDemo.left eq_refl Hc2) as [Hk2 Hu2].
  destruct RenewedDemo.box_of_7 as (box&Hb&Hl). destruct (He box Hb Hl RenewedDemo.lease_7) as [Hm Hr].
  split; [exact Hn|]. split; [exact (Hk "#d")|]. split.
  { exists (set_Channels (uv_Channels RenewedDemo.alice_value ++ ["#d"]) RenewedDemo.alice_value).
    split; [rewrite <-Hu; exact Hr|reflexivity]. }
  split; [exact Hm|]. split; [exact Hu2|]. exact (Hk2 "#c").
Defined.
