(* ===== verification/Safety.v ===== *)
(** * Safety of the whole system

    Every store that can be reached represents a consistent network; a
    connection keeps it so, whatever it is sent; a nick is given to one user
    only; and the end of a session takes away exactly what it registered. *)

From S2P Require Import Prelude GoLib Mode Msg User Channel Key Etcd Stm Net Client Rep Refine Server Ctl System Demo Guarantees Proc Reify Rely Conduct Linear.

Section safety.
Context `{Gob Message, Gob UserValue, Gob ChannelCtl, Gob ChannelNicks, Gob OperValue}.

(** C1: refinement of the abstract network.  Every store that commits of clients and
    servers, the administration tool and the ends of sessions can produce represents,
    key by key, a network that the abstract commands can produce, whatever session
    each commit is made under ([Free]: the code does not ask): the values and keys are
    those of the network, users have their nicks, and lists and messages belong to
    channels.  If every client joins, leaves and quits under the session that
    registered its user ([Owned]), the leases are those of the network too, and the
    network is consistent. *)
Theorem store_refines_network {dc} st :
  reaches dc st ->
  exists n, represents dc (current st) n /\ net_sound n /\ if_owned dc (net_ok n) /\ rtc (net_move dc) net_empty n.
Proof. intros Hr. by destruct (reaches_net st Hr). Qed.

(** C22: the two ways the store records who is on a channel agree, as long as every
    client has joined, left and quit under the session that registered its user
    (which the code does not ask; see [renewed_session_splits] for what happens
    otherwise): a user's value lists a channel exactly as often as the list of the
    channel that his session owns lists his nick, and a listed nick is a registered
    user of the session. *)
Theorem membership_agrees st ch :
  reachable st ->
  (forall nick uv, stored_user st nick = Some uv ->
     uv_Nick uv = nick /\ occurs ch (uv_Channels uv) = occurs nick (stored_nicks st ch (uv_Lease uv))) /\
  (forall nick l, nick ∈ stored_nicks st ch l ->
     exists uv, stored_user st nick = Some uv /\ uv_Lease uv = l /\ ch ∈ uv_Channels uv).
Proof.
  intros Hr. destruct (reachable_net st Hr) as [_ (n&Hrep&Hn&_)]. split.
  - intros nick uv. rewrite (rep_stored_user st n), (rep_stored_nicks st n) by done.
    intros Hu. split; [by apply Hn|by apply (ok_channels _ Hn)].
  - intros nick l. rewrite (rep_stored_nicks st n) by done. intros Hin.
    destruct (ok_listed _ Hn nick ch l Hin) as (uv&Hu&Hl). exists uv.
    rewrite (rep_stored_user st n) by done. split_and!; [done|done|].
    apply occurs_elem_of. rewrite (ok_channels _ Hn nick uv ch Hu), Hl. by apply occurs_elem_of.
Qed.

(** C2: a connected client keeps the network consistent.  Whatever messages it
    sends, and however the main loop ends (an error, a panic, the exit of DIE, or a
    command that never returns), while the other users of etcd take any steps of
    the system, the store it leaves is one the system can reach, and the client's
    user, if he is still there, is of the client's session. *)
Theorem connection_safe rt ec lid nick reader w :
  connected rt ec lid w ->
  let w' := (serve rt nick ec reader w).2 in
  reachable (store_of w') /\
  forall uv, stored_user (store_of w') (ec_nick ec) = Some uv -> uv_Lease uv = lid.
Proof.
  intros [Ho Hs Hf]. destruct (serve_met (dc := Owned) rt ec lid Hs nick reader w Ho Hf) as [Hr Hown].
  split; [exact Hr|]. intros uv Hu. unfold stored_user in Hu.
  destruct (current _ !! keyUserCtl (ec_nick ec)) as [kv|] eqn:Hk; [|done]. by eapply Hown.
Qed.

(** A handshake that ends with a client leaves it connected. *)
Lemma handshake_connected rt cr reader w cli cr' reader' w' :
  (forall k st, wf_store st -> rtc store_step st (e_intf (rt_env rt) k st)) ->
  reachable (store_of w) -> handshake rt cr reader w = (Ok (cli, cr', reader'), w') ->
  exists lid, Session (rt_ses rt) = Ok lid /\ ec_nick cli = cr_nick cr' /\
    stored_user (store_of w') (cr_nick cr') = Some (register_value rt lid cr') /\
    (others (rt_env rt) (ec_nick cli) lid -> connected rt cli lid w').
Proof.
  intros Hsteps Hr HH. unfold handshake in HH. apply ST_bind_ok in HH as ([[cli1 cr1] rd1]&w1&HL&HH).
  destruct (handshake_loop_ok rt Hsteps cr reader w cli1 cr1 rd1 w1 Hr HL) as (Hr1&Hn&lid&Hs&Hu).
  cbn beta iota in HH. apply ST_bind_ok in HH as (u&w2&HW&HH).
  pose proof (keeps_welcome (fun st => st = store_of w1) rt cr1 w1 eq_refl) as Hk. rewrite HW in Hk. simpl in Hk.
  destruct (rt_cliCtx rt); unfold lift, mret, ST_ret in HH; simplify_eq.
  exists lid. rewrite Hk. split_and!; [done|done|done|]. intros Ho. split; [done|congruence|].
  rewrite Hk. split; [done|]. intros kv uv Hkv Hd. unfold stored_user in Hu. rewrite Hn in Hkv.
  rewrite Hkv in Hu. simpl in Hu. rewrite Hd in Hu. by simplify_eq.
Qed.

(** C24: registration is exclusive, and a handshake connects.  When [newEtcdClient]
    returns, there was an instant at which the nick was free, and right after it the
    store has the new user, with the modes pinned by the configuration and no
    channels; or an instant at which the nick belonged to a user, and nothing was
    written.  A handshake that ends with a client leaves it connected: the client has
    the nick of the request, the user is stored under the server's session, and what
    the main loop relies on holds, as far as the others respect it. *)
Theorem registration_exact rt w :
  (forall k st, wf_store st -> rtc store_step st (e_intf (rt_env rt) k st)) ->
  reachable (store_of w) ->
  (forall cr o w', newEtcdClient rt cr w = (Ok o, w') ->
     reachable (store_of w') /\
     exists lid st, Session (rt_ses rt) = Ok lid /\ rtc store_step (store_of w) st /\
     match o with
     | Some cli =>
       ec_nick cli = cr_nick cr /\ stored_user st (cr_nick cr) = None /\ store_step st (store_of w') /\
       stored_user (store_of w') (cr_nick cr) = Some (register_value rt lid cr)
     | None => store_of w' = st /\ is_Some (stored_user st (cr_nick cr))
     end) /\
  (forall cr reader cli cr' reader' w', handshake rt cr reader w = (Ok (cli, cr', reader'), w') ->
     exists lid, Session (rt_ses rt) = Ok lid /\ ec_nick cli = cr_nick cr' /\
       stored_user (store_of w') (cr_nick cr') = Some (register_value rt lid cr') /\
       (others (rt_env rt) (ec_nick cli) lid -> connected rt cli lid w')).
Proof.
  intros Hsteps Hr. split.
  - intros cr o w' HN. destruct (newEtcdClient_ok rt Hsteps cr w o w' Hr HN) as (?&_&?). by split.
  - intros cr reader cli cr' reader' w'. by apply handshake_connected.
Qed.

(** C25: the end of a session takes away exactly what it registered: its users and
    its lists of members are gone, every other user and list is as it was, and the
    store is still one the system can reach. *)
Theorem session_end_exact st l :
  reachable st -> l <> 0%Z -> l ∈ st_leases st ->
  reachable (Revoke st l) /\
  (forall nick, stored_user (Revoke st l) nick =
     match stored_user st nick with
     | Some uv => if decide (uv_Lease uv = l) then None else Some uv
     | None => None
     end) /\
  (forall ch z, stored_nicks (Revoke st l) ch z = if decide (z = l) then [] else stored_nicks st ch z).
Proof.
  intros Hr Hl Hin. destruct (reachable_net st Hr) as [Hw (n&Hrep&Hn&_)].
  destruct (expire_refines (dc := Owned) st n l Hw Hrep Hl Hin) as (n'&Hrep'&He). simpl in He. subst n'. split_and!.
  - eapply rtc_r; [exact Hr|]. by eapply s_expire.
  - intros nick. rewrite (rep_stored_user _ _ nick Hrep), (rep_stored_user _ _ nick Hrep'). simpl.
    rewrite map_lookup_filter. destruct (n_users n !! nick) as [uv|]; simpl; [|done].
    case_guard; case_decide; done.
  - intros ch z. rewrite (rep_stored_nicks _ _ ch z Hrep), (rep_stored_nicks _ _ ch z Hrep').
    unfold members. simpl. rewrite map_lookup_filter.
    destruct (n_members n !! (ch, z)); simpl; [|by case_decide].
    case_guard; case_decide; done.
Qed.

End safety.

(** ** Examples *)

Import Demo.

Lemma store_refines_network_witness :
  stored_user store4 "bob" = Some (set_Channels ["#c"] (register_value rt 7 (request_of "bob"))) /\
  (exists n, rep (current store4) n /\ net_sound n /\ net_ok n /\ rtc net_step net_empty n) /\
  exists n, represents Free (current store4) n /\ net_sound n /\ True /\ rtc (net_move Free) net_empty n.
Proof.
  split; [vm_compute; reflexivity|].
  split; [exact (store_refines_network (dc := Owned) store4 reachable4)|].
  exact (store_refines_network (dc := Free) store4 (reachable_free _ reachable4)).
Defined.

Lemma membership_agrees_witness :
  stored_nicks store4 "#c" 7 = ["alice"; "bob"] /\
  (forall nick uv, stored_user store4 nick = Some uv ->
     uv_Nick uv = nick /\ occurs "#c" (uv_Channels uv) = occurs nick (stored_nicks store4 "#c" (uv_Lease uv))).
Proof. split; [vm_compute; reflexivity|]. apply (membership_agrees store4 "#c"). exact reachable4. Defined.

Definition chatter : list (option Message) := Some <$>
  [{| m_Prefix := None; m_Command := "MODE"; m_Params := ["bob"; "+i"] |};
   {| m_Prefix := None; m_Command := "JOIN"; m_Params := ["#d,#e"] |};
   {| m_Prefix := None; m_Command := "PRIVMSG"; m_Params := ["alice"; "hello"] |};
   {| m_Prefix := None; m_Command := "QUIT"; m_Params := [] |}].

Lemma connection_safe_witness :
  (serve LinearDemo.rt "bob" bob chatter (world store4)).1 = Panic /\
  reachable (store_of (serve LinearDemo.rt "bob" bob chatter (world store4)).2).
Proof.
  split; [vm_compute; reflexivity|].
  apply (connection_safe LinearDemo.rt bob 7 "bob" chatter (world store4)). exact LinearDemo.bob_connected.
Defined.

Lemma quiet_steps : forall k st, wf_store st -> rtc store_step st (e_intf (rt_env rt) k st).
Proof. intros k st _. apply rtc_refl. Qed.

Definition carol : outcome (option etcdClient) * World :=
  newEtcdClient rt (request_of "carol") (world store4).

(** bob is taken; the client takes dave. *)
Definition retry : list (option Message) := [Some {| m_Prefix := None; m_Command := "NICK"; m_Params := ["dave"] |}].

Definition dave_run : outcome (etcdClient * connectRequest * list (option Message)) * World :=
  handshake rt (request_of "bob") retry (world store4).

Lemma registration_exact_witness :
  reachable (store_of carol.2) /\
  exists lid, Session (rt_ses rt) = Ok lid /\
    stored_user (store_of dave_run.2) "dave" =
      Some (register_value rt lid {| cr_nick := "dave"; cr_user := ["bob"; "bob"; "*"; "bob"] |}).
Proof.
  destruct (registration_exact rt (world store4) quiet_steps reachable4) as [HN HH]. split.
  - apply (HN (request_of "carol") (Some
      {| ec_nick := "carol"; ec_prefix := {| p_Name := "carol"; p_User := "carol"; p_Host := "host" |} |}) carol.2).
    apply LinearDemo.run_ok. vm_compute. reflexivity.
  - destruct (HH (request_of "bob") retry
      {| ec_nick := "dave"; ec_prefix := {| p_Name := "dave"; p_User := "bob"; p_Host := "host" |} |}
      {| cr_nick := "dave"; cr_user := ["bob"; "bob"; "*"; "bob"] |} [] dave_run.2) as (lid&Hs&_&Hu&_).
    + apply LinearDemo.run_ok. vm_compute. reflexivity.
    + exists lid. split; [exact Hs|exact Hu].
Defined.

Lemma session_end_exact_witness :
  reachable (Revoke store4 7) /\ stored_nicks (Revoke store4 7) "#c" 7 = [].
Proof.
  destruct (session_end_exact store4 7) as (Hr&_&Hn).
  - exact reachable4.
  - discriminate.
  - apply (proj1 (bool_decide_eq_true (7%Z ∈ st_leases store4))). vm_compute. reflexivity.
  - split; [exact Hr|]. exact (Hn "#c" 7%Z).
Defined.
